(* ===== verification/_CoqProject ===== *)
-Q . S2P
Prelude.v
Text.v
Effects.v
HomeserverGate.v
PushDecision.v
PushRouter.v
PushDeliver.v
MediaIndex.v
MediaCache.v
RoomDetails.v
Acquisition.v
Cursor.v
Backfill.v
FlowLease.v
GrantRegistry.v
GrantDriver.v
RoomSweep.v
RoomSummaries.v
MemberCounts.v
RoomState.v
StateProjection.v
SupplementaryState.v
Credentials.v
OAuthFlows.v
IdentityTokens.v
TokenEndpoint.v
BearerGate.v
SignIn.v
Uploads.v
LiveSocket.v
SyncHealth.v
RichText.v
HtmlText.v
InlineMedia.v
Timeline.v
SearchIndex.v
