(* ===== verification/Prelude.v ===== *)
(** * Axon: a verification library

    Axon is a Matrix server-side client: one Rust process that keeps a Matrix
    session per account, stores what it syncs in PostgreSQL, and serves its own
    clients over HTTP and a WebSocket.  This library models the parts of the
    server that decide something (what is sent, stored, retried, evicted or
    disclosed, and when) as executable definitions, one file per component, and
    proves what those parts promise.

    ** How the parts interact

    The sync engine ([crates/axon-sync/src]) runs per account.  Every background
    call of an account to its homeserver passes the load gate; history backfill
    and room-detail acquisition are the two long-running callers modelled here.
    Events that are stored become push observations: the router keeps per-room
    state, decides by ADR 0113 which message a rise of the unread count is about,
    schedules a send, and the deliverer asks the provider.  What a room shows is
    kept in [room_summaries] and announced by coalesced [room_details.changed]
    frames; member counts and names are copied there by a paced worker that
    sweeps the account's rooms.  Clients read history, spaces and search through
    cursors, media through a bounded disk cache, stage files to send, and sign a
    new device in through a QR grant.  State that the primary sync does not ask
    for comes over a supplementary connection; every state event reaches
    [room_state] through one projection, and missed redactions are repaired by a
    sweep.  Every other event is a row of [events]; the statement that writes it
    also captures which redactions apply, moves its room's activity marker and
    appends what the search index has to look at again, and every read of the
    history goes through one projection of those rows.  The indexing actor drains
    those obligations.  What is stored and how healthy a session is goes to clients
    over a socket; the terminal client renders and wraps what it shows.  Who may call the server at all is decided by the OAuth server in
    [crates/axon-api/src/oauth]: sign-in routes verify an upstream identity, the
    token endpoint mints and rotates credentials in the store, and the bearer gate
    in front of every route checks them.

    ** Files

    - [Prelude]: machine integers, time, text, the automation and the generic
      lemmas.  [Text]: UTF-8, decimal numbers, whitespace, JSON values.
      [Effects]: asynchronous code as programs that ask their environment
      questions; complete runs, runs cut at any await (a dropped future), weakest
      preconditions over traces and over a changing world, and [Embeds], the
      interface through which a component's program runs inside a client's.
    - [HomeserverGate] ([homeserver_gate.rs], [error.rs]): the admission limit
      that adapts to overload, the breaker with its single probe, the queue of
      waiters, the slots held after an abandoned call, long polls.
    - [PushDecision] ([push/decision.rs], [push/message.rs]): unread pairs, the
      recent messages of a room, the slot, and the decision; [adr0113] is the
      specification it refines.  [PushRouter] ([push/router.rs], [push/observe.rs]):
      the scheduler with its permits and per-key order, room states, control
      messages, account removal; [SchedSpec] is the abstract scheduler.
      [PushDeliver] ([push/deliver.rs], [push/payload.rs]): payloads per privacy
      level, provider requests, bearer caches, verdicts, the send with its
      checks.
    - [MediaIndex], [MediaCache] ([media/cache.rs], [routes/media.rs]): the LRU
      index, keys and paths, single flight, and the cache's tasks (promotion,
      eviction, purge) interleaved at their file operations and cancellable.
    - [RoomDetails] ([room_details.rs]): the coalescer of change marks.
    - [Acquisition] ([acquisition.rs], [room_detail_acquisition.rs]): the queue,
      the row each detail keeps, the interpretation of replies, the worker.
    - [Cursor] ([cursor.rs] and the cursors of the routes): base64url, the
      timeline, offset and hierarchy cursors.
    - [Backfill] ([backfill.rs] of sync and of store): the failure policy, the
      [room_backfill] table, the disk valve, paging, the sweep and the task.
    - [FlowLease], [GrantRegistry], [GrantDriver] ([matrix_oauth_flow.rs],
      [matrix_oauth_grant.rs], and the URL check of [matrix_oauth_acquire.rs]): the
      capacity lease, the registry of QR grants with its reservations, its
      reaper and its cancellable [create], and the driver of the SDK's future
      under the identity lock.
    - [RoomSweep] ([room_sweep.rs], the page query of [state.rs]): the shared
      bounded traversal and the bounded reading of hints.  [RoomSummaries]
      ([member_counts.rs], [display_names.rs] of store and their migrations): the
      count columns with watermark, checks and leave trigger, and the names.
      [MemberCounts] ([member_counts.rs], [display_names.rs] of sync): the worker
      that runs the sweep through [Embeds] and writes those columns.
    - [RoomState] ([state.rs] of store): the state table, its freshness-guarded
      upsert, purge intents and epochs.  [StateProjection] ([engine.rs]: what is
      written for a state event; [state_redaction.rs]): the projection and the
      repair of redactions.  [SupplementaryState] ([supplementary_state.rs]): the
      second connection, through the gate and the projection.
    - [Credentials] ([tokens.rs], [oauth_refresh_tokens.rs], [oauth_identities.rs],
      [push.rs] of store): the tables of tokens, families and identities, their
      revocations and guarded removals.  [OAuthFlows] ([oauth_authorization_requests.rs],
      [oauth_bind_requests.rs], [oauth_native.rs]): the flows that end in a
      credential, as transactions any order of which may commit.
    - [IdentityTokens] ([oauth/verification.rs], [jwks.rs], the providers):
      verification of upstream tokens and the paced key cache.  [TokenEndpoint]
      ([oauth/tokens.rs]): PKCE and the three grants.  [SignIn] ([routes/oauth.rs],
      [routes/oauth_native.rs], [routes/bootstrap.rs]): the unauthenticated routes
      and the lock of the setup page.  [BearerGate] ([auth.rs],
      [routes/management.rs], [routes/push.rs]): the gate and the routes that change
      credentials.
    - [Uploads] ([uploads.rs] of server and of api, [media_uploads.rs]): staged
      uploads and preview claims, as files, rows and calls in flight.
    - [LiveSocket] ([live.rs], [ws.rs], [clients/tui/src/api.rs]): frames, their
      wire form, the connection task over the broadcast channel, the client that
      reads it.  [SyncHealth] ([sync_health.rs], parts of [engine.rs] and
      [lifecycle.rs]): readiness labels and the tasks that write them.
    - [RichText], [HtmlText] ([clients/tui/src/wrap.rs], [html.rs]): styled lines
      and their wrapping; message bodies from sanitized HTML.
    - [InlineMedia] ([inline_media.rs] of store): the image URLs of a message.
      [Timeline] ([events.rs], [event_visibility.rs], the activity columns of
      [rooms.rs], deletion in [accounts.rs]): the event table [Db], its writes, the
      projection and the reads.  [SearchIndex] ([search.rs] of store,
      [crates/axon-search]): the outbox, the corpus and the actor, whose steps
      interleave with the writes of [Timeline].

    ** Correspondence

    A Rust function is a function of the same name where Rocq allows it (an
    underscore is added on a clash).  State behind a lock is a record and each
    critical section one function on it; an [async fn] is a program of [Effects]
    whose questions are its awaits and calls, or, where several tasks share
    state, a step relation whose steps are the stretches between awaits.  An
    await inside a [select!] or a timeout has the other branches among its
    answers.  SQL statements are functions on a map from key to row, atomic as
    single-row statements are.  Integers are [Z] with their wrapping, saturation
    or conversion written out; times are nanoseconds; a [String] is its list of
    scalar values.  Logging is left out.

    ** What the theorems show

    Refinement and functional behaviour: the decision is ADR 0113; the scheduler
    refines the abstract one; the LRU index refines a list; the replies of the
    acquisition and the plan of a reconciliation step are exact; the search index
    agrees with the projection of the event table once its outbox is drained, but
    for obligations the theorem names; the activity marker is what a rebuild
    computes; pages of a timeline cover it; wrapped rows are the text they wrap.
    Invariants and bounds: the gate, the router, the acquisition queue and the
    grant registry stay within their limits in every reachable state. Safety over
    all runs, cut anywhere: what may be sent to a provider or a homeserver, purges
    that are final, redacted events that stay masked after their moderator is
    demoted, links that show where they lead, grants that are polled only under
    authority and end once, counts that never predate a leave, writes that are
    evidence. Liveness and termination: marks are published within a second,
    wake-ups are never lost, the router drains, backfill goes to the end of each
    history or to its depth cap, a sweep reaches every room and ends, retries end,
    a cancelled grant stops, a drain of the outbox that returns leaves no
    obligation it found, and it returns once nothing new is written; wrapping ends
    exactly on text without newlines. Types: the data each grant stage carries,
    the level of disclosure of each payload. Round trips: cursors, live frames,
    colours. Error behaviour: a grant is created only when every check passed, and
    the token endpoint's answers say what happened.

    ** Parameters, bounds and fuel

    Code outside the repository is a parameter: [serde_json]'s printer and
    parser, SHA-256, JWT signing and verification, URL syntax, ruma's identifier
    parsers, its redaction and power levels, its HTML parser and sanitizer,
    [textwrap], character widths, the text and equality of [jsonb] values and the
    SDK's answers are questions or section variables, with the documented laws they
    need as hypotheses ([serde_laws] in [Cursor], the collation order in
    [RoomSweep], [TextwrapLaws] in [RichText], [JsonbText] in [SearchIndex]); each such theorem has a witness with a concrete instance.  Loops
    of tasks that run for ever take a number of rounds, and theorems hold for
    every number; loops that end have structural fuel from the source's own
    bounds (32 receives, the length of a page, of a token, of a list).

    ** What is not modelled

    The rest of the ingestion of Matrix events ([engine.rs]), account lifecycle,
    login and verification are built on matrix-sdk, whose state is not in the
    repository.  Acquisition by OAuth and the fetching of link previews
    are open.  Of the event table,
    ciphertexts, device keys and sender trust, pins and media lookups are left
    out; of search, the queries, which are Tantivy's.  The other HTTP routes shape
    requests and answers around the store.  The screens and key handling of the
    terminal client, the web client, generated code and vendored crates are left
    aside.  Where time matters to none of a component's promises (the live socket,
    sync health, the search index), ticks, timeouts and lags are events that may
    come at any point.
*)

From stdpp Require Import base gmap sets list strings relations sorting.
From Stdlib Require Import ZArith Lia.

#[global] Open Scope Z_scope.

(** ** Machine integers

    A w-bit unsigned Rust integer is a [Z] in [0, 2^w).  The release profile
    of the repository does not set [overflow-checks], so [+=] wraps. *)

Definition wrap32 (z : Z) : Z := z mod 2 ^ 32.
Definition wrap64 (z : Z) : Z := z mod 2 ^ 64.
Definition u64_max : Z := 2 ^ 64 - 1.
Definition i64_max : Z := 2 ^ 63 - 1.
Definition i64_min : Z := - 2 ^ 63.
Definition i32_max : Z := 2 ^ 31 - 1.

(** [a.saturating_sub(b)] on unsigned integers, and [Instant - Instant], which
    saturates at zero. *)
Definition sat_sub (a b : Z) : Z := Z.max 0 (a - b).

(** ** Durations and instants

    A [Duration] is its number of nanoseconds (at most [dur_max]); an
    [Instant] is a number of nanoseconds from an arbitrary origin. *)

Definition nanos_per_sec : Z := 10 ^ 9.
Definition secs (n : Z) : Z := n * nanos_per_sec.
Definition millis (n : Z) : Z := n * 10 ^ 6.
Definition dur_max : Z := u64_max * nanos_per_sec + (nanos_per_sec - 1).
Definition dur_saturating_mul (d k : Z) : Z := Z.min (d * k) dur_max.

(** ** Text

    A Rust [String] is the list of its [char]s (Unicode scalar values). *)

Abbreviation text := (list Z) (only parsing).
Abbreviation uuid := Z (only parsing).

Definition lit (s : string) : text :=
  map (fun a => Z.of_N (Ascii.N_of_ascii a)) (String.list_ascii_of_string s).

Arguments lit : simpl never.

Declare Scope axon_scope.
Delimit Scope axon_scope with axon.
Notation "'t!' s" := (lit s%string) (at level 9, s at level 0) : axon_scope.
#[global] Open Scope axon_scope.

(** ** Automation *)

Create HintDb axon.
Create Rewrite HintDb axon.

(** Split every conjunction and existential of the context. *)
Ltac split_hyps :=
  repeat match goal with
  | H : _ /\ _ |- _ => destruct H
  | H : exists _, _ |- _ => destruct H
  end.

(** Turn boolean comparisons into their propositions. *)
Ltac b2p :=
  repeat match goal with
  | H : (_ <? _) = true |- _ => apply Z.ltb_lt in H
  | H : (_ <? _) = false |- _ => apply Z.ltb_ge in H
  | H : (_ <=? _) = true |- _ => apply Z.leb_le in H
  | H : (_ <=? _) = false |- _ => apply Z.leb_gt in H
  | H : (_ =? _) = true |- _ => apply Z.eqb_eq in H
  | H : (_ =? _) = false |- _ => apply Z.eqb_neq in H
  | H : andb _ _ = true |- _ => apply andb_true_iff in H; destruct H
  | H : orb _ _ = false |- _ => apply orb_false_iff in H; destruct H
  | H : negb _ = true |- _ => apply negb_true_iff in H
  | H : negb _ = false |- _ => apply negb_false_iff in H
  end.

(** ** Generic lemmas *)

Lemma wrap32_small z : 0 <= z < 2 ^ 32 -> wrap32 z = z.
Proof. apply Z.mod_small. Qed.

Lemma wrap64_small z : 0 <= z < 2 ^ 64 -> wrap64 z = z.
Proof. apply Z.mod_small. Qed.

Lemma wrap32_bound z : 0 <= wrap32 z < 2 ^ 32.
Proof. apply Z.mod_pos_bound; lia. Qed.

Lemma wrap64_bound z : 0 <= wrap64 z < 2 ^ 64.
Proof. apply Z.mod_pos_bound; lia. Qed.

Lemma wrap64_succ_neq z : 0 <= z < 2 ^ 64 -> wrap64 (z + 1) <> z.
Proof.
  intros Hz. destruct (decide (z + 1 < 2 ^ 64)).
  - rewrite wrap64_small; lia.
  - replace (z + 1) with (2 ^ 64) by lia. unfold wrap64.
    rewrite Z.mod_same by lia. lia.
Qed.

#[export] Hint Resolve wrap32_bound wrap64_bound : axon.

(** Filtering pairs by key is filtering the keys. *)
Lemma map_fst_filter {A B} (P : A -> Prop) `{forall x, Decision (P x)} (l : list (A * B)) :
  map fst (filter (fun e => P e.1) l) = filter P (map fst l).
Proof.
  induction l as [|[a b] l IH]; [done|]. cbn [map]. rewrite !filter_cons. cbn [fst].
  case_decide; cbn [map fst]; by rewrite IH.
Qed.

Lemma StronglySorted_filter {A} (R : relation A) (P : A -> Prop) `{forall x, Decision (P x)}
    (l : list A) : StronglySorted R l -> StronglySorted R (filter P l).
Proof.
  induction 1 as [|a l Hs IH Hf]; [constructor|]. rewrite filter_cons.
  case_decide; [|done]. constructor; [done|].
  rewrite Forall_forall in *. intros x [_ Hx]%list_elem_of_filter. auto.
Qed.

Lemma StronglySorted_snoc (l : list Z) x :
  StronglySorted Z.lt l -> Forall (fun y => y < x) l -> StronglySorted Z.lt (l ++ [x]).
Proof.
  intros Hs Hf. apply StronglySorted_app_2; [|done|repeat constructor].
  rewrite Forall_forall in Hf. intros x1 x2 H1 H2%list_elem_of_singleton. subst. auto.
Qed.

Lemma filter_nil_iff {A} (P : A -> Prop) `{forall x, Decision (P x)} (l : list A) :
  filter P l = [] <-> Forall (fun x => ~ P x) l.
Proof.
  induction l as [|x l IH]; [by split|]. rewrite filter_cons, Forall_cons.
  case_decide; [split; [done|tauto]|]. rewrite IH. tauto.
Qed.

Lemma filter_all {A} (P : A -> Prop) `{forall x, Decision (P x)} (l : list A) :
  Forall P l -> filter P l = l.
Proof. induction 1 as [|x l Hx _ IH]; [done|]. by rewrite filter_cons_True, IH. Qed.

Lemma filter_ext_in {A} (P Q : A -> Prop) `{forall x, Decision (P x), forall x, Decision (Q x)}
    (l : list A) : (forall x, x ∈ l -> P x <-> Q x) -> filter P l = filter Q l.
Proof.
  induction l as [|x l IH]; intros HPQ; [done|]. rewrite !filter_cons, IH.
  - pose proof (HPQ x ltac:(by left)). do 2 case_decide; by tauto.
  - intros y Hy. apply HPQ. by right.
Qed.

(** The maximum of a list above a start value, as [Iterator::fold] builds it. *)
Lemma foldl_max_le (l : list Z) x t :
  foldl Z.max x l <= t <-> x <= t /\ Forall (fun y => y <= t) l.
Proof.
  revert x. induction l as [|y l IH]; intros x; simpl; [rewrite Forall_nil; tauto|].
  rewrite IH, Forall_cons. split; intros; split_hyps; repeat split; auto; lia.
Qed.

(** Folding an invariant over a list of operations. *)
Lemma foldl_inv_in {A B} (I : B -> Prop) (f : B -> A -> B) l b :
  (forall b a, a ∈ l -> I b -> I (f b a)) -> I b -> I (foldl f b l).
Proof.
  revert b. induction l as [|a l IH]; intros b Hf H; [done|]. cbn. apply IH.
  - intros b' a' Ha. apply Hf. by right.
  - apply Hf; [by left|done].
Qed.

Lemma foldl_inv {A B} (I : B -> Prop) (f : B -> A -> B) l b :
  (forall b a, I b -> I (f b a)) -> I b -> I (foldl f b l).
Proof. intros Hf. apply foldl_inv_in. auto. Qed.
