(* ===== verification/Text.v ===== *)
(** * Text and JSON

    The parts of Rust's [str]/[char] and of serde_json's [Value] the modelled
    code uses.  A [String] is its list of [char]s; [utf8_len] is [str::len]. *)

From stdpp Require Import base gmap sets list strings sorting.
From Stdlib Require Import ZArith Lia.
From S2P Require Import Prelude.

(** ** Characters *)

(** [char::is_whitespace]: the Unicode White_Space property. *)
Definition is_whitespace (c : Z) : bool :=
  ((9 <=? c) && (c <=? 13)) || (c =? 32) || (c =? 133) || (c =? 160) || (c =? 5760)
  || ((8192 <=? c) && (c <=? 8202)) || (c =? 8232) || (c =? 8233) || (c =? 8239)
  || (c =? 8287) || (c =? 12288).

Definition is_ascii_digit (c : Z) : bool := (48 <=? c) && (c <=? 57).
Definition is_ascii_alphanumeric (c : Z) : bool :=
  is_ascii_digit c || ((65 <=? c) && (c <=? 90)) || ((97 <=? c) && (c <=? 122)).

(** [char::len_utf8] and [str::len]. *)
Definition utf8_char_len (c : Z) : Z :=
  if c <? 128 then 1 else if c <? 2048 then 2 else if c <? 65536 then 3 else 4.
Definition utf8_len (t : text) : Z := foldr (fun c n => utf8_char_len c + n) 0 t.

(** The UTF-8 bytes of a string ([str::as_bytes]). *)
Definition utf8_char (c : Z) : list Z :=
  if c <? 128 then [c]
  else if c <? 2048 then [192 + c / 64; 128 + c mod 64]
  else if c <? 65536 then [224 + c / 4096; 128 + (c / 64) mod 64; 128 + c mod 64]
  else [240 + c / 262144; 128 + (c / 4096) mod 64; 128 + (c / 64) mod 64; 128 + c mod 64].
Definition utf8_encode (t : text) : list Z := t ≫= utf8_char.

(** [String::from_utf8]: the standard's well-formed sequences only. *)
Definition continuation (b : Z) : bool := (128 <=? b) && (b <? 192).
Fixpoint utf8_decode (bs : list Z) : option text :=
  match bs with
  | [] => Some []
  | b0 :: r0 =>
      if (0 <=? b0) && (b0 <? 128) then cons b0 <$> utf8_decode r0 else
      match r0 with
      | [] => None
      | b1 :: r1 =>
          if (194 <=? b0) && (b0 <? 224) && continuation b1
          then cons ((b0 - 192) * 64 + (b1 - 128)) <$> utf8_decode r1 else
          match r1 with
          | [] => None
          | b2 :: r2 =>
              let c := (b0 - 224) * 4096 + (b1 - 128) * 64 + (b2 - 128) in
              if (224 <=? b0) && (b0 <? 240) && continuation b1 && continuation b2
                 && (2048 <=? c) && negb ((55296 <=? c) && (c <? 57344))
              then cons c <$> utf8_decode r2 else
              match r2 with
              | [] => None
              | b3 :: r3 =>
                  let c := (b0 - 240) * 262144 + (b1 - 128) * 4096 + (b2 - 128) * 64 + (b3 - 128) in
                  if (240 <=? b0) && (b0 <? 245) && continuation b1 && continuation b2
                     && continuation b3 && (65536 <=? c) && (c <? 1114112)
                  then cons c <$> utf8_decode r3 else None
              end
          end
      end
  end.

(** A [char] is a Unicode scalar value. *)
Definition is_char (c : Z) : Prop := 0 <= c < 55296 \/ 57344 <= c < 1114112.
#[export] Instance is_char_dec c : Decision (is_char c).
Proof. unfold is_char. apply _. Defined.

(** ** [str] methods *)

Definition text_eqb (a b : text) : bool := bool_decide (a = b).

Fixpoint trim_start (t : text) : text :=
  match t with
  | c :: t' => if is_whitespace c then trim_start t' else t
  | [] => []
  end.
Definition trim_end (t : text) : text := rev (trim_start (rev t)).
Definition trim (t : text) : text := trim_end (trim_start t).

Definition strip_prefix_char (c : Z) (t : text) : option text :=
  match t with
  | d :: t' => if d =? c then Some t' else None
  | [] => None
  end.

(** [str::split_once] on a character: around its first occurrence. *)
Fixpoint split_once (c : Z) (t : text) : option (text * text) :=
  match t with
  | [] => None
  | d :: t' =>
      if d =? c then Some ([], t')
      else match split_once c t' with
           | Some (a, b) => Some (d :: a, b)
           | None => None
           end
  end.

(** [str::split_whitespace]. *)
Fixpoint words_from (acc : text) (t : text) : list text :=
  match t with
  | [] => match acc with [] => [] | _ => [acc] end
  | c :: t' =>
      if is_whitespace c
      then match acc with [] => words_from [] t' | _ => acc :: words_from [] t' end
      else words_from (acc ++ [c]) t'
  end.
Definition split_whitespace (t : text) : list text := words_from [] t.

Fixpoint join (sep : text) (ws : list text) : text :=
  match ws with
  | [] => []
  | [w] => w
  | w :: ws => w ++ sep ++ join sep ws
  end.

(** [str::strip_prefix], [starts_with] and [contains] with a [str] pattern. *)
Fixpoint strip_prefix (p t : text) : option text :=
  match p, t with
  | [], _ => Some t
  | a :: p, b :: t => if a =? b then strip_prefix p t else None
  | _ :: _, [] => None
  end.
Definition starts_with (p t : text) : bool := bool_decide (is_Some (strip_prefix p t)).
Fixpoint contains_text (p t : text) : bool :=
  starts_with p t || match t with [] => false | _ :: t => contains_text p t end.

(** [str::replace] with a [str] pattern that is not empty: each step takes a
    character or a match, so the length is fuel enough. *)
Fixpoint replace_from (fuel : nat) (p r t : text) : text :=
  match fuel, t with
  | S fuel, c :: t' =>
      match strip_prefix p t with
      | Some rest => r ++ replace_from fuel p r rest
      | None => c :: replace_from fuel p r t'
      end
  | _, _ => t
  end.
Definition replace_all (p r t : text) : text := replace_from (length t) p r t.

(** [str::replace] with a [char] pattern. *)
Definition replace_char (c : Z) (r t : text) : text := t ≫= (fun d => if d =? c then r else [d]).

(** [str::trim_end_matches] with a [char] pattern. *)
Fixpoint trim_end_matches (c : Z) (t : text) : text :=
  match t with
  | [] => []
  | d :: t =>
      match trim_end_matches c t with
      | [] => if d =? c then [] else [d]
      | t => d :: t
      end
  end.

Definition to_ascii_lower (c : Z) : Z := if (65 <=? c) && (c <=? 90) then c + 32 else c.
Definition eq_ignore_ascii_case (a b : text) : bool :=
  bool_decide (map to_ascii_lower a = map to_ascii_lower b).

(** [str::split] on a character: always at least one piece. *)
Fixpoint split_char (c : Z) (t : text) : list text :=
  match t with
  | [] => [[]]
  | d :: t' =>
      if d =? c then [] :: split_char c t'
      else match split_char c t' with
           | w :: ws => (d :: w) :: ws
           | [] => [[d]]
           end
  end.

(** [Ord] on strings: by bytes in UTF-8, which is by scalar values. *)
Fixpoint text_leb (a b : text) : bool :=
  match a, b with
  | [], _ => true
  | _ :: _, [] => false
  | x :: a, y :: b => (x <? y) || ((x =? y) && text_leb a b)
  end.
Definition text_le (a b : text) : Prop := text_leb a b = true.

#[export] Instance text_le_dec a b : Decision (text_le a b) := bool_eq_dec (text_leb a b) true.

Definition sort_texts (l : list text) : list text := merge_sort text_le l.

(** [str::get(..n)]: the first [n] bytes, at a character boundary. *)
Fixpoint get_to (n : Z) (t : text) : option text :=
  if n =? 0 then Some []
  else
    match t with
    | [] => None
    | c :: t => if n <? utf8_char_len c then None else cons c <$> get_to (n - utf8_char_len c) t
    end.

(** [char::is_control]: the general category Cc. *)
Definition is_control (c : Z) : bool := (c <? 32) || ((127 <=? c) && (c <? 160)).

(** ** Decimal integers: [Display] and [FromStr] *)

(** The decimal digits of a natural number, most significant first; [fuel]
    bounds the digit count. *)
Fixpoint digits (fuel : nat) (n : Z) (acc : text) : text :=
  match fuel with
  | O => acc
  | S fuel =>
      let acc := (48 + n mod 10) :: acc in
      if n / 10 =? 0 then acc else digits fuel (n / 10) acc
  end.
Definition dec_unsigned (n : Z) : text := digits (S (Z.to_nat (Z.log2 n))) n [].
Definition dec (n : Z) : text :=
  if n <? 0 then 45 :: dec_unsigned (- n) else dec_unsigned n.

(** The digits accumulated left to right, [None] on a non-digit. *)
Fixpoint parse_digits (acc : Z) (t : text) : option Z :=
  match t with
  | [] => Some acc
  | c :: t' => if is_ascii_digit c then parse_digits (10 * acc + (c - 48)) t' else None
  end.

(** [i64::from_str] and [u64::from_str]: an optional sign ([-] only for the
    signed type), at least one digit, no overflow. *)
Definition parse_int (lo hi : Z) (t : text) : option Z :=
  let checked z := if (lo <=? z) && (z <=? hi) then Some z else None in
  match t with
  | [] => None
  | c :: t' =>
      if (c =? 43) && negb (bool_decide (t' = [])) then parse_digits 0 t' ≫= checked
      else if (c =? 45) && negb (bool_decide (t' = [])) && (lo <? 0)
           then parse_digits 0 t' ≫= (fun z => checked (- z))
      else parse_digits 0 t ≫= checked
  end.
Definition parse_i64 : text -> option Z := parse_int i64_min i64_max.
Definition parse_u64 : text -> option Z := parse_int 0 u64_max.

(** ** JSON values

    [serde_json::Value]; an object is the list of its entries, their keys distinct.
    No modelled code depends on their order. *)

Inductive json :=
| JNull
| JBool (b : bool)
| JInt (n : Z)
| JFloat (repr : text)
| JStr (s : text)
| JArr (items : list json)
| JObj (entries : list (text * json)).

Fixpoint assoc (k : text) (l : list (text * json)) : option json :=
  match l with
  | [] => None
  | (k', v) :: l' => if decide (k = k') then Some v else assoc k l'
  end.

(** [Value::get] with a string key. *)
Definition jget (k : text) (v : json) : option json :=
  match v with JObj entries => assoc k entries | _ => None end.
Definition as_str (v : json) : option text :=
  match v with JStr s => Some s | _ => None end.
Definition as_object (v : json) : option (list (text * json)) :=
  match v with JObj entries => Some entries | _ => None end.
Definition as_array (v : json) : option (list json) :=
  match v with JArr items => Some items | _ => None end.
Definition as_i64 (v : json) : option Z :=
  match v with
  | JInt n => if (i64_min <=? n) && (n <=? i64_max) then Some n else None
  | _ => None
  end.

(** ** Lemmas *)

Lemma text_eqb_spec a b : text_eqb a b = true <-> a = b.
Proof. apply bool_decide_eq_true. Qed.

Lemma utf8_char_len_bound c : 1 <= utf8_char_len c <= 4.
Proof. unfold utf8_char_len. repeat case_match; lia. Qed.

Lemma utf8_len_app a b : utf8_len (a ++ b) = utf8_len a + utf8_len b.
Proof. induction a as [|c a IH]; simpl; lia. Qed.

Lemma utf8_len_ge_length t : Z.of_nat (length t) <= utf8_len t <= 4 * Z.of_nat (length t).
Proof.
  induction t as [|c t IH]; simpl; [lia|]. pose proof (utf8_char_len_bound c). lia.
Qed.

Lemma utf8_len_ascii t : Forall (fun c => c < 128) t -> utf8_len t = Z.of_nat (length t).
Proof.
  induction 1 as [|c t Hc _ IH]; simpl; [done|]. unfold utf8_char_len.
  rewrite (proj2 (Z.ltb_lt _ _) Hc). lia.
Qed.

Lemma utf8_char_bytes c : is_char c -> Forall (fun b => 0 <= b < 256) (utf8_char c).
Proof.
  unfold is_char, utf8_char. intros Hc.
  assert (forall a, 0 <= 128 + a mod 64 < 256) as Hm.
  { intros a. pose proof (Z.mod_pos_bound a 64). lia. }
  assert (forall k n, 0 < k -> 0 <= n -> c < k * n -> 0 <= c / k < n) as Hd.
  { intros k n Hk Hn Hlt. split; [apply Z.div_pos; lia|by apply Z.div_lt_upper_bound]. }
  repeat case_match; b2p; rewrite !Forall_cons, Forall_nil; repeat split; try apply Hm; try lia.
  1,2: pose proof (Hd 64 32); lia.
  1,2: pose proof (Hd 4096 16); lia.
  1,2: pose proof (Hd 262144 5); lia.
Qed.

Lemma utf8_encode_bytes t : Forall is_char t -> Forall (fun b => 0 <= b < 256) (utf8_encode t).
Proof.
  unfold utf8_encode. induction 1 as [|c t Hc _ IH]; [constructor|]. cbn. apply Forall_app.
  split; [by apply utf8_char_bytes|done].
Qed.

Definition is_ascii (t : text) : Prop := Forall (fun c => 0 <= c < 128) t.

Lemma utf8_encode_cons c t : utf8_encode (c :: t) = utf8_char c ++ utf8_encode t.
Proof. done. Qed.

Lemma utf8_encode_ascii t : is_ascii t -> utf8_encode t = t.
Proof.
  induction 1 as [|c t Hc _ IH]; [done|]. rewrite utf8_encode_cons, IH. unfold utf8_char.
  by rewrite (proj2 (Z.ltb_lt _ _)) by lia.
Qed.

Lemma utf8_decode_ascii t : is_ascii t -> utf8_decode t = Some t.
Proof.
  induction 1 as [|c t Hc _ IH]; [done|]. cbn.
  rewrite (proj2 (Z.leb_le _ _)), (proj2 (Z.ltb_lt _ _)) by lia. cbn. by rewrite IH.
Qed.

Lemma split_once_spec c t a b :
  split_once c t = Some (a, b) <-> t = a ++ c :: b /\ c ∉ a.
Proof.
  revert a b. induction t as [|d t IH]; intros a b; simpl.
  - split; [done|]. intros [H _]. by destruct a.
  - destruct (Z.eqb_spec d c) as [->|Hne].
    + split; [intros [= <- <-]; split; [done|set_solver]|].
      intros [H Hn]. destruct a as [|x a]; simplify_eq/=; [done|]. set_solver.
    + destruct (split_once c t) as [[a' b']|] eqn:E.
      * split.
        -- intros [= <- <-]. destruct (proj1 (IH a' b') eq_refl) as [-> Hn]. split; [done|set_solver].
        -- intros [H Hn]. destruct a as [|x a]; simplify_eq/=.
           assert (Some (a', b') = Some (a, b)) as Heq by (apply IH; split; [done|set_solver]).
           by simplify_eq.
      * split; [done|]. intros [H Hn]. destruct a as [|x a]; simplify_eq/=.
        assert (None = Some (a, b)) by (apply IH; split; [done|set_solver]). done.
Qed.

Lemma split_once_None c t : c ∉ t -> split_once c t = None.
Proof.
  intros H. destruct (split_once c t) as [[a b]|] eqn:E; [|done].
  apply split_once_spec in E as [-> _]. set_solver.
Qed.

(** *** Decimal round trip *)

Lemma parse_digits_app acc a b z :
  parse_digits acc a = Some z -> parse_digits acc (a ++ b) = parse_digits z b.
Proof.
  revert acc. induction a as [|c a IH]; intros acc; simpl; [by intros [= ->]|].
  case_match; [apply IH|done].
Qed.

Lemma digit_ok n : 0 <= n -> is_ascii_digit (48 + n mod 10) = true.
Proof.
  intros Hn. pose proof (Z.mod_pos_bound n 10). unfold is_ascii_digit.
  apply andb_true_iff; split; apply Z.leb_le; lia.
Qed.

(** [digits] writes the number in front of the accumulator. *)
Lemma digits_acc fuel n acc : digits fuel n acc = digits fuel n [] ++ acc.
Proof.
  revert n acc. induction fuel as [|fuel IH]; intros n acc; simpl; [done|].
  case_match; [done|]. rewrite IH, (IH _ [_]). by rewrite <- app_assoc.
Qed.

Lemma digits_parse fuel n :
  0 <= n < 10 ^ Z.of_nat fuel -> (0 < fuel)%nat ->
  parse_digits 0 (digits fuel n []) = Some n.
Proof.
  revert n. induction fuel as [|fuel IH]; intros n Hn Hf; [lia|].
  cbn [digits]. cbv zeta. destruct (Z.eqb_spec (n / 10) 0) as [E|E].
  - cbn [parse_digits]. rewrite digit_ok by lia. f_equal.
    pose proof (Z.div_mod n 10). lia.
  - rewrite digits_acc.
    assert (0 < n / 10) by (pose proof (Z.div_pos n 10); lia).
    assert (n / 10 < 10 ^ Z.of_nat fuel).
    { apply Z.div_lt_upper_bound; [lia|].
      rewrite Nat2Z.inj_succ, Z.pow_succ_r in Hn by lia. lia. }
    rewrite (parse_digits_app 0 _ _ (n / 10)).
    + cbn [parse_digits]. rewrite digit_ok by lia. f_equal.
      pose proof (Z.div_mod n 10). lia.
    + apply IH; [lia|]. destruct fuel; [simpl in *; lia|lia].
Qed.

Lemma digits_chars fuel n acc :
  0 <= n -> Forall (fun c => 48 <= c <= 57) acc ->
  Forall (fun c => 48 <= c <= 57) (digits fuel n acc).
Proof.
  revert n acc. induction fuel as [|fuel IH]; intros n acc Hn Hacc; [done|]. cbn [digits].
  pose proof (Z.mod_pos_bound n 10). cbv zeta.
  case_match; [constructor; [lia|done]|].
  apply IH; [apply Z.div_pos; lia|]. constructor; [lia|done].
Qed.

Lemma dec_unsigned_fuel n :
  0 <= n -> n < 10 ^ Z.of_nat (S (Z.to_nat (Z.log2 n))).
Proof.
  intros Hn. rewrite Nat2Z.inj_succ, Z2Nat.id by apply Z.log2_nonneg.
  destruct (Z.eq_dec n 0) as [->|Hz]; [vm_compute; done|].
  destruct (Z.log2_spec n) as [_ Hlt]; [lia|].
  eapply Z.lt_le_trans; [exact Hlt|]. apply Z.pow_le_mono_l. lia.
Qed.

Lemma dec_unsigned_parse n : 0 <= n -> parse_digits 0 (dec_unsigned n) = Some n.
Proof.
  intros Hn. apply digits_parse; [|lia]. split; [done|]. by apply dec_unsigned_fuel.
Qed.

Lemma dec_unsigned_chars n : 0 <= n -> Forall (fun c => 48 <= c <= 57) (dec_unsigned n).
Proof. intros Hn. by apply digits_chars. Qed.

Lemma dec_unsigned_nonempty n : dec_unsigned n <> [].
Proof.
  unfold dec_unsigned. cbn [digits]. cbv zeta. case_match; [done|].
  rewrite digits_acc. intros [_ ?]%app_eq_nil. done.
Qed.

(** [parse] inverts [to_string] on every value of the type. *)
Lemma parse_int_dec lo hi n :
  lo <= 0 -> lo <= n <= hi -> parse_int lo hi (dec n) = Some n.
Proof.
  intros Hlo Hn. unfold dec, parse_int.
  assert (forall z, (if (lo <=? z) && (z <=? hi) then Some z else None) = Some z <-> lo <= z <= hi)
    as Hc.
  { intros z. destruct (Z.leb_spec lo z), (Z.leb_spec z hi); split; intros; try done; lia. }
  destruct (n <? 0) eqn:E; b2p.
  - cbn match. change (45 =? 43) with false. change (45 =? 45) with true. cbn [andb].
    rewrite bool_decide_eq_false_2 by apply dec_unsigned_nonempty.
    replace (lo <? 0) with true by (symmetry; apply Z.ltb_lt; lia). cbn [andb negb].
    rewrite dec_unsigned_parse by lia. cbn [mbind option_bind].
    rewrite Z.opp_involutive. by apply Hc.
  - pose proof (dec_unsigned_chars n E) as Hch. pose proof (dec_unsigned_nonempty n) as Hne.
    pose proof (dec_unsigned_parse n E) as Hp.
    destruct (dec_unsigned n) as [|c t]; [done|]. apply Forall_cons in Hch as [Hc1 _].
    replace (c =? 43) with false by (symmetry; apply Z.eqb_neq; lia).
    replace (c =? 45) with false by (symmetry; apply Z.eqb_neq; lia). cbn [andb].
    rewrite Hp. cbn [mbind option_bind]. by apply Hc.
Qed.

Lemma digits_length fuel n acc d :
  0 <= n < 10 ^ Z.of_nat d -> (0 < d)%nat ->
  (length (digits fuel n acc) <= d + length acc)%nat.
Proof.
  revert n acc d. induction fuel as [|fuel IH]; intros n acc d Hn Hd; cbn [digits]; [lia|].
  cbv zeta. destruct (Z.eqb_spec (n / 10) 0) as [E|E]; [simpl; lia|].
  destruct d as [|[|d]]; [lia| |].
  - exfalso. apply E. apply Z.div_small. simpl in Hn. lia.
  - rewrite (IH _ _ (S d)); [simpl; lia| |lia]. split; [apply Z.div_pos; lia|].
    apply Z.div_lt_upper_bound; [lia|].
    rewrite (Nat2Z.inj_succ (S d)), Z.pow_succ_r in Hn by lia. lia.
Qed.

(** An [i64] prints in at most twenty characters. *)
Lemma dec_i64_length n : i64_min <= n <= i64_max -> (length (dec n) <= 20)%nat.
Proof.
  unfold i64_min, i64_max. intros Hn. unfold dec, dec_unsigned.
  destruct (n <? 0) eqn:E; b2p; cbn [length].
  - assert (length (digits (S (Z.to_nat (Z.log2 (- n)))) (- n) []) <= 19 + length (@nil Z))%nat
      by (apply digits_length; lia). cbn [length] in *. lia.
  - assert (length (digits (S (Z.to_nat (Z.log2 n))) n []) <= 19 + length (@nil Z))%nat
      by (apply digits_length; lia). cbn [length] in *. lia.
Qed.

Lemma dec_chars n : Forall (fun c => c = 45 \/ 48 <= c <= 57) (dec n).
Proof.
  unfold dec. destruct (n <? 0) eqn:E; b2p.
  - constructor; [by left|]. eapply Forall_impl; [apply dec_unsigned_chars; lia|]. simpl. lia.
  - eapply Forall_impl; [apply dec_unsigned_chars; lia|]. simpl. lia.
Qed.

Lemma strip_prefix_Some p t r : strip_prefix p t = Some r <-> t = p ++ r.
Proof.
  revert t. induction p as [|a p IH]; intros [|b t]; cbn; try (split; congruence).
  destruct (a =? b) eqn:E; b2p.
  - subst. rewrite IH. split; congruence.
  - split; congruence.
Qed.

Lemma starts_with_spec p t : starts_with p t = true <-> exists r, t = p ++ r.
Proof.
  unfold starts_with. rewrite bool_decide_eq_true. split.
  - intros [r H%strip_prefix_Some]. eauto.
  - intros [r H%strip_prefix_Some]. eauto.
Qed.

Lemma utf8_len_nonneg t : 0 <= utf8_len t.
Proof. induction t as [|c t IH]; simpl; [done|]. pose proof (utf8_char_len_bound c). lia. Qed.

(** *** Trimming *)

Definition blank (t : text) : Prop := Forall (fun c => is_whitespace c = true) t.

Lemma trim_start_split t : exists a, blank a /\ t = a ++ trim_start t.
Proof.
  induction t as [|c t (a & Ha & E)]; [exists []; split; [constructor|done]|]. cbn.
  destruct (is_whitespace c) eqn:Ec; [|exists []; split; [constructor|done]].
  exists (c :: a). split; [by constructor|]. cbn. by rewrite <- E.
Qed.

Lemma trim_start_app a t : blank a -> trim_start (a ++ t) = trim_start t.
Proof. induction 1 as [|c a Hc _ IH]; [done|]. cbn. by rewrite Hc. Qed.

Lemma trim_start_idem t : trim_start (trim_start t) = trim_start t.
Proof.
  induction t as [|c t IH]; [done|]. cbn. destruct (is_whitespace c) eqn:Ec; [done|].
  cbn. by rewrite Ec.
Qed.

Lemma trim_start_head t : trim_start t = t <-> forall c, head t = Some c -> is_whitespace c = false.
Proof.
  destruct t as [|c t]; [done|]. cbn. split.
  - intros E d [= <-]. destruct (is_whitespace c) eqn:Ec; [|done].
    destruct (trim_start_split t) as (a & _ & Ea). rewrite E in Ea.
    apply (f_equal length) in Ea. rewrite length_app in Ea. cbn in Ea. lia.
  - intros H. by rewrite (H c eq_refl).
Qed.

Lemma blank_rev a : blank a -> blank (rev a).
Proof. apply Forall_rev. Qed.

Lemma trim_end_split t : exists a, blank a /\ t = trim_end t ++ a.
Proof.
  destruct (trim_start_split (rev t)) as (a & Ha & E). exists (rev a). split; [by apply blank_rev|].
  unfold trim_end. rewrite <- rev_app_distr, <- E. by rewrite rev_involutive.
Qed.

Lemma trim_end_app t a : blank a -> trim_end (t ++ a) = trim_end t.
Proof. intros Ha. unfold trim_end. rewrite rev_app_distr, trim_start_app; [done|by apply blank_rev]. Qed.

Lemma trim_end_idem t : trim_end (trim_end t) = trim_end t.
Proof. unfold trim_end. by rewrite rev_involutive, trim_start_idem. Qed.

(** What neither trim shortens: nothing at either end is blank. *)
Definition trimmed (t : text) : Prop := trim_start t = t /\ trim_end t = t.

(** Dropping a blank or not blank tail leaves the head, unless nothing is left. *)
Lemma trim_start_prefix t a : trim_start (t ++ a) = t ++ a -> trim_start t = t.
Proof. rewrite !trim_start_head. intros H c Hc. apply H. by destruct t. Qed.

Lemma trim_trimmed t : trimmed (trim t).
Proof.
  split; [|apply trim_end_idem]. unfold trim. destruct (trim_end_split (trim_start t)) as (a & _ & E).
  apply (trim_start_prefix _ a). rewrite <- E. apply trim_start_idem.
Qed.

Lemma trimmed_trim t : trimmed t -> trim t = t.
Proof. unfold trim. by intros [-> ->]. Qed.

Lemma trim_blanks a t b : blank a -> blank b -> trimmed t -> trim (a ++ t ++ b) = t.
Proof.
  intros Ha Hb [Hs He]. unfold trim. rewrite trim_start_app by done.
  destruct (decide (t = [])) as [->|Hn]; cbn.
  - clear - Hb. assert (trim_start b = []) as ->; [|done]. induction Hb as [|c b Hc _ IH]; [done|].
    cbn. by rewrite Hc.
  - assert (trim_start (t ++ b) = t ++ b) as ->; [|by rewrite trim_end_app].
    rewrite trim_start_head in *. destruct t; [done|]. exact Hs.
Qed.

Lemma trim_split t : exists a b, blank a /\ blank b /\ t = a ++ trim t ++ b.
Proof.
  destruct (trim_start_split t) as (a & Ha & E), (trim_end_split (trim_start t)) as (b & Hb & E').
  exists a, b. split_and!; [done|done|]. unfold trim. by rewrite <- E', <- E.
Qed.
