(* ===== verification/Effects.v ===== *)
(** * Programs with effects

    Asynchronous code as programs that ask questions of their environment
    (store, network, clock, shared cells) and continue with the answers.  A run
    may be cut at any question, as a dropped future is.  [wp] checks, for every
    question a program can ask, a condition on the questions and answers before
    it. *)

From stdpp Require Import base gmap sets list.
From S2P Require Import Prelude.

Section Effects.
Context {Q : Type} {ans : Q -> Type}.

Inductive prog (A : Type) : Type :=
| Ret (a : A)
| Ask (q : Q) (k : ans q -> prog A).
Arguments Ret {A}.
Arguments Ask {A}.

Fixpoint bind {A B} (p : prog A) (f : A -> prog B) : prog B :=
  match p with
  | Ret a => f a
  | Ask q k => Ask q (fun x => bind (k x) f)
  end.

Definition ask (q : Q) : prog (ans q) := Ask q Ret.

(** One question with its answer. *)
Definition event : Type := sigT ans.
Definition ev (q : Q) (x : ans q) : event := existT q x.

(** Complete runs, and runs cut after some question. *)
Fixpoint runs {A} (p : prog A) (t : list event) (a : A) : Prop :=
  match p with
  | Ret b => t = [] /\ a = b
  | Ask q k => exists x t', t = ev q x :: t' /\ runs (k x) t' a
  end.

Fixpoint cut_run {A} (p : prog A) (t : list event) : Prop :=
  t = [] \/
  match p with
  | Ret _ => False
  | Ask q k => exists x t', t = ev q x :: t' /\ cut_run (k x) t'
  end.

(** Running against an environment that answers from the history. *)
Fixpoint exec {A} (env : list event -> forall q, ans q) (h : list event) (p : prog A)
    : list event * A :=
  match p with
  | Ret a => ([], a)
  | Ask q k =>
      let x := env h q in
      let '(t, a) := exec env (h ++ [ev q x]) (k x) in (ev q x :: t, a)
  end.

Lemma exec_runs {A} env h (p : prog A) : runs p (exec env h p).1 (exec env h p).2.
Proof.
  revert h. induction p as [a|q k IH]; intros h; [done|]. cbn.
  destruct (exec env _ (k _)) as [t a] eqn:E. eexists _, t. split; [done|].
  specialize (IH (env h q) (h ++ [ev q (env h q)])). by rewrite E in IH.
Qed.

Lemma exec_runs_eq {A} env (p : prog A) t a : exec env [] p = (t, a) -> runs p t a.
Proof. intros E. pose proof (exec_runs env [] p) as H. by rewrite E in H. Qed.

Lemma cut_runs {A} (p : prog A) t a : runs p t a -> cut_run p t.
Proof.
  revert t. induction p as [b|q k IH]; intros t; cbn; [intros [? _]; by left|].
  intros (x & t' & -> & H). right. eauto.
Qed.

Lemma runs_bind {A B} (p : prog A) (f : A -> prog B) t b :
  runs (bind p f) t b <-> exists t1 t2 a, t = t1 ++ t2 /\ runs p t1 a /\ runs (f a) t2 b.
Proof.
  revert t. induction p as [a|q k IH]; intros t; cbn.
  - split; [intros H; by exists [], t, a|]. intros (t1 & t2 & a' & -> & [-> ->] & H). done.
  - split.
    + intros (x & t' & -> & (t1 & t2 & a & -> & H1 & H2)%IH).
      exists (ev q x :: t1), t2, a. eauto 10.
    + intros (t1 & t2 & a & -> & (x & t' & -> & H1) & H2). exists x, (t' ++ t2).
      split; [done|]. apply IH. eauto 10.
Qed.

Lemma runs_ask {A} q (f : ans q -> prog A) t a :
  runs (bind (ask q) f) t a -> exists x t', t = ev q x :: t' /\ runs (f x) t' a.
Proof. done. Qed.

(** ** Weakest preconditions

    [req q h]: asking [q] after the history [h] is allowed. *)
Section Wp.
Variable req : Q -> list event -> Prop.

Fixpoint wp {A} (p : prog A) (h : list event) (post : A -> list event -> Prop) : Prop :=
  match p with
  | Ret a => post a h
  | Ask q k => req q h /\ forall x, wp (k x) (h ++ [ev q x]) post
  end.

Lemma wp_mono {A} (p : prog A) h (P P' : A -> list event -> Prop) :
  wp p h P -> (forall a h', P a h' -> P' a h') -> wp p h P'.
Proof.
  revert h. induction p as [a|q k IH]; intros h; cbn; [auto|]. intros [? H] HP. split; [done|].
  intros x. by apply IH.
Qed.

Lemma wp_bind {A B} (p : prog A) (f : A -> prog B) h P :
  wp p h (fun a h' => wp (f a) h' P) -> wp (bind p f) h P.
Proof.
  revert h. induction p as [a|q k IH]; intros h; cbn; [done|]. intros [? H]. split; [done|].
  intros x. by apply IH.
Qed.

Lemma wp_ask {A} q (f : ans q -> prog A) h P :
  req q h -> (forall x, wp (f x) (h ++ [ev q x]) P) -> wp (bind (ask q) f) h P.
Proof. by split. Qed.

Lemma wp_any {A} (p : prog A) h (P : A -> list event -> Prop) :
  (forall q h, req q h) -> (forall a h, P a h) -> wp p h P.
Proof. intros Hq HP. revert h. induction p as [a|q k IH]; intros h; cbn; auto. Qed.

Lemma wp_conj {A} (p : prog A) h (P P' : A -> list event -> Prop) :
  wp p h P -> wp p h P' -> wp p h (fun a h' => P a h' /\ P' a h').
Proof.
  revert h. induction p as [a|q k IH]; intros h; cbn; [done|]. intros [? H] [_ H']. split; [done|].
  intros x. by apply IH.
Qed.

Lemma wp_runs {A} (p : prog A) h P t a : wp p h P -> runs p t a -> P a (h ++ t).
Proof.
  revert h t. induction p as [b|q k IH]; intros h t; cbn.
  - intros H [-> ->]. by rewrite app_nil_r.
  - intros [_ H] (x & t' & -> & Hr). rewrite (cons_middle (ev q x)), app_assoc. eauto.
Qed.

(** Every question of every run, complete or cut, was allowed. *)
Lemma wp_cut_run {A} (p : prog A) h P t t1 q x t2 :
  wp p h P -> cut_run p t -> t = t1 ++ ev q x :: t2 -> req q (h ++ t1).
Proof.
  revert h t t1. induction p as [b|q' k IH]; intros h t t1; cbn.
  - intros _ [->|[]] H. by destruct t1.
  - intros [Hq Hk] [->|(x' & t' & -> & Hr)] H; [by destruct t1|].
    destruct t1 as [|e t1].
    + apply (f_equal (fun l => @projT1 Q ans <$> head l)) in H. cbn in H.
      injection H as <-. by rewrite app_nil_r.
    + cbn in H. assert (ev q' x' = e /\ t' = t1 ++ ev q x :: t2) as [<- ->]
        by (by apply (f_equal (fun l => (head l, tail l))) in H; simplify_eq/=).
      rewrite (cons_middle (ev q' x')), app_assoc. by eapply IH.
Qed.
End Wp.

Lemma wp_req_mono (req req' : Q -> list event -> Prop) {A} (p : prog A) h P :
  (forall q h, req q h -> req' q h) -> wp req p h P -> wp req' p h P.
Proof.
  intros Hq. revert h. induction p as [a|q k IH]; intros h; cbn; [done|]. intros [? H].
  split; [auto|]. eauto.
Qed.

(** ** Programs in a world

    [step w q x w']: asked [q] in world [w], the environment may answer [x] and
    leave the world [w'].  [allowed q w]: asking [q] in [w] is allowed. *)
Section World.
Context {W : Type}.
Variable step : W -> forall q, ans q -> W -> Prop.

(** [p] started in [w] may ask [q] in world [w'], cut there or not; and may end
    with [a] in [w']. *)
Fixpoint asks {A} (p : prog A) (w : W) (q : Q) (w' : W) : Prop :=
  match p with
  | Ret _ => False
  | Ask q0 k => (q = q0 /\ w' = w) \/ exists x w1, step w q0 x w1 /\ asks (k x) w1 q w'
  end.

Fixpoint ends {A} (p : prog A) (w : W) (a : A) (w' : W) : Prop :=
  match p with
  | Ret b => a = b /\ w' = w
  | Ask q k => exists x w1, step w q x w1 /\ ends (k x) w1 a w'
  end.

Variable allowed : Q -> W -> Prop.

Fixpoint swp {A} (p : prog A) (w : W) (post : A -> W -> Prop) : Prop :=
  match p with
  | Ret a => post a w
  | Ask q k => allowed q w /\ forall x w', step w q x w' -> swp (k x) w' post
  end.

Lemma swp_mono {A} (p : prog A) w (P P' : A -> W -> Prop) :
  swp p w P -> (forall a w', P a w' -> P' a w') -> swp p w P'.
Proof.
  revert w. induction p as [a|q k IH]; intros w; cbn; [auto|]. intros [? H] HP.
  split; [done|]. eauto.
Qed.

Lemma swp_bind {A B} (p : prog A) (f : A -> prog B) w P :
  swp p w (fun a w' => swp (f a) w' P) -> swp (bind p f) w P.
Proof.
  revert w. induction p as [a|q k IH]; intros w; cbn; [done|]. intros [? H].
  split; [done|]. eauto.
Qed.

Lemma swp_ask {A} q (f : ans q -> prog A) w P :
  allowed q w -> (forall x w', step w q x w' -> swp (f x) w' P) -> swp (bind (ask q) f) w P.
Proof. by split. Qed.

Lemma swp_asks {A} (p : prog A) w P q w' : swp p w P -> asks p w q w' -> allowed q w'.
Proof.
  revert w. induction p as [a|q0 k IH]; intros w; cbn; [done|].
  intros [? H] [[-> ->]|(x & w1 & Hs & Ha)]; [done|]. eauto.
Qed.

Lemma swp_ends {A} (p : prog A) w P a w' : swp p w P -> ends p w a w' -> P a w'.
Proof.
  revert w. induction p as [b|q0 k IH]; intros w; cbn; [by intros H [-> ->]|].
  intros [_ H] (x & w1 & Hs & Ha). eauto.
Qed.

(** A deterministic environment runs a program. *)
Variable handle : W -> forall q, ans q * W.

Fixpoint srun {A} (p : prog A) (w : W) : A * W :=
  match p with
  | Ret a => (a, w)
  | Ask q k => let '(x, w') := handle w q in srun (k x) w'
  end.

Lemma srun_bind {A B} (p : prog A) (f : A -> prog B) w :
  srun (bind p f) w = let '(a, w') := srun p w in srun (f a) w'.
Proof.
  revert w. induction p as [a|q k IH]; intros w; cbn; [done|].
  destruct (handle w q) as [x w']. apply IH.
Qed.

Lemma srun_ask {A} q (f : ans q -> prog A) w :
  srun (bind (ask q) f) w = srun (f (handle w q).1) (handle w q).2.
Proof. cbn. by destruct (handle w q). Qed.

Lemma srun_ends {A} (p : prog A) w :
  (forall w q, step w q (handle w q).1 (handle w q).2) ->
  ends p w (srun p w).1 (srun p w).2.
Proof.
  intros Hh. revert w. induction p as [a|q k IH]; intros w; cbn; [done|].
  specialize (Hh w q). destruct (handle w q) as [x w']. eauto.
Qed.
End World.
End Effects.

Arguments Ret {Q ans A}.
Arguments Ask {Q ans A}.
Arguments prog {Q} ans A.
Arguments event {Q} ans.

Declare Scope prog_scope.
Delimit Scope prog_scope with prog.
Notation "'let!' x ':=' p 'in' q" := (bind p (fun x => q))
  (at level 10, x pattern, p at level 100, q at level 200) : prog_scope.

Lemma exec_bind {Q} {ans : Q -> Type} {A B} env h (p : prog ans A) (f : A -> prog ans B) :
  exec env h (bind p f) =
    let '(t1, a) := exec env h p in
    let '(t2, b) := exec env (h ++ t1) (f a) in (t1 ++ t2, b).
Proof.
  revert h. induction p as [a|q k IH]; intros h; cbn.
  - rewrite app_nil_r. by destruct (exec env h (f a)).
  - rewrite IH. destruct (exec env (h ++ [_]) (k _)) as [t1 a].
    rewrite <- app_assoc. cbn. by destruct (exec env _ (f a)).
Qed.

(** What a bound program's trace contains. *)
Lemma exec_bind_trace {Q} {ans : Q -> Type} {A B} env h (p : prog ans A) (f : A -> prog ans B) e :
  e ∈ (exec env h (bind p f)).1 <->
  e ∈ (exec env h p).1 \/ e ∈ (exec env (h ++ (exec env h p).1) (f (exec env h p).2)).1.
Proof.
  rewrite exec_bind. destruct (exec env h p) as [t1 a]. cbn.
  destruct (exec env (h ++ t1) (f a)) as [t2 b]. cbn. apply elem_of_app.
Qed.

(** ** A program inside a larger one

    [Embeds ans1 ans2]: the questions of [ans1] are among those of [ans2], with
    the same answers.  A component written over its own questions runs inside
    any client that embeds them, and its theorems carry over. *)

Class Embeds {Q1 Q2} (ans1 : Q1 -> Type) (ans2 : Q2 -> Type) := {
  inj : Q1 -> Q2;
  out : forall q, ans2 (inj q) -> ans1 q;
  back : forall q, ans1 q -> ans2 (inj q);
  back_out : forall q x, back q (out q x) = x;
}.

Section Lift.
Context {Q1 Q2} {ans1 : Q1 -> Type} {ans2 : Q2 -> Type} {E : Embeds ans1 ans2}.

Fixpoint lift {A} (p : prog ans1 A) : prog ans2 A :=
  match p with
  | Ret a => Ret a
  | Ask q k => Ask (inj q) (fun x => lift (k (out q x)))
  end.

Definition inj_event (e : event ans1) : event ans2 := ev (inj (projT1 e)) (back _ (projT2 e)).

Lemma runs_lift {A} (p : prog ans1 A) t a :
  runs (lift p) t a -> exists t1, t = map inj_event t1 /\ runs p t1 a.
Proof.
  revert t. induction p as [b|q k IH]; intros t; cbn.
  - intros [-> ->]. by exists [].
  - intros (x & t' & -> & (t1 & -> & H)%IH). exists (ev q (out q x) :: t1). cbn.
    unfold inj_event at 2; cbn. rewrite back_out. eauto 10.
Qed.

Lemma wp_lift req {A} (p : prog ans1 A) h h1 (P : A -> list (event ans2) -> Prop) :
  wp (fun q h' => req (inj q) (h ++ map inj_event h')) p h1
    (fun a h' => P a (h ++ map inj_event h')) ->
  wp req (lift p) (h ++ map inj_event h1) P.
Proof.
  revert h1. induction p as [b|q k IH]; intros h1; cbn; [done|]. intros [? H]. split; [done|]. intros x.
  specialize (IH (out q x) (h1 ++ [ev q (out q x)]) (H _)).
  rewrite map_app, app_assoc in IH. cbn in IH. unfold inj_event at 2 in IH. cbn in IH.
  by rewrite back_out in IH.
Qed.
End Lift.

(** An event in a history written out. *)
Ltac in_history := rewrite ?elem_of_app, ?elem_of_cons; tauto.
