(* ===== verification/HomeserverGate.v ===== *)
(** * The homeserver load gate

    Models crates/axon-sync/src/homeserver_gate.rs: the admission control
    every background request to a homeserver passes (ADR 0122).

    Each block of the source that runs under the gate's mutex is one function
    on [State] here; the [async] code around them is the step relation
    [gate_step] on [world], which adds the permits and long-polls in flight and
    the clock.  Logging and [Notify] wake-ups have no state. *)

From stdpp Require Import base gmap list relations sorting.
From Stdlib Require Import ZArith Lia.
From S2P Require Import Prelude.

(** ** Constants *)

Definition INITIAL_LIMIT : Z := 2.
Definition MAX_LIMIT : Z := 4.
Definition GROW_AFTER : Z := 10.
Definition TIMEOUT_HOLD : Z := secs (15 * 60).
Definition COOLDOWN : Z := secs 60.
Definition COOLDOWN_MAX : Z := secs (30 * 60).

(** [Duration / 2] rounds down to the nanosecond. *)
Definition is_fast (elapsed timeout : Z) : bool := elapsed <? timeout / 2.

Definition cooldown (reopenings : Z) : Z :=
  Z.min (dur_saturating_mul COOLDOWN (Z.shiftl 1 (Z.min reopenings 16))) COOLDOWN_MAX.

(** ** Outcomes *)

Inductive Outcome := Success | TimedOut | Overloaded | Refused | Local.

#[global] Instance Outcome_eq_dec : EqDecision Outcome.
Proof. solve_decision. Defined.

(** [crate::error::GatewayError], with the payload strings left out. *)
Inductive GatewayError :=
| EventTooLarge | UnknownAccount | AccountNotActive | NotConnected
| RoomNotFound | MediaNotFound | Forbidden | Invalid | Upstream
| GwOverloaded | Timeout | Undecryptable.

Definition gateway_error_outcome (e : GatewayError) : Outcome :=
  match e with
  | Timeout => TimedOut
  | GwOverloaded => Overloaded
  | EventTooLarge | MediaNotFound | Forbidden | Invalid | Upstream => Refused
  | UnknownAccount | AccountNotActive | NotConnected | RoomNotFound
  | Undecryptable => Local
  end.

(** What [HttpError::outcome] reads of the SDK's error: the reqwest
    predicates, the status of a client-API error, a cached inner error. *)
Inductive HttpError :=
| Reqwest (is_timeout is_builder is_redirect is_decode : bool)
| Api (client_api_status : option Z)
| Cached (inner : HttpError)
| OtherHttpError.

Fixpoint http_error_outcome (e : HttpError) : Outcome :=
  match e with
  | Reqwest is_timeout is_builder is_redirect is_decode =>
      if is_timeout then TimedOut
      else if is_builder then Local
      else if is_redirect || is_decode then Refused
      else Overloaded
  | Api status =>
      match status with
      | Some st =>
          if (st =? 429) || ((500 <=? st) && (st <=? 599)) then Overloaded else Refused
      | None => Refused
      end
  | Cached inner => http_error_outcome inner
  | OtherHttpError => Local
  end.

(** [Result<Result<T, E>, Elapsed>]: [None] is the outer timeout. *)
Definition outcome_of {T E} (err : E -> Outcome) (result : option (T + E)) : Outcome :=
  match result with
  | None => TimedOut
  | Some (inl _) => Success
  | Some (inr e) => err e
  end.

(** ** State *)

Inductive Breaker :=
| Closed
| Open (opened_at until : Z)
| Probing (opened_at : Z).

#[global] Instance Breaker_eq_dec : EqDecision Breaker.
Proof. solve_decision. Defined.

Record State := mkState {
  limit : Z;
  active : Z;
  held : list Z;
  fast : Z;
  epoch : Z;
  breaker : Breaker;
  reopenings : Z;
  queue : list (Z * Z);
  long_polls : gmap Z Z;
  next_id_ : Z }.

Definition set_active v s := mkState (limit s) v (held s) (fast s) (epoch s)
  (breaker s) (reopenings s) (queue s) (long_polls s) (next_id_ s).
Definition set_held v s := mkState (limit s) (active s) v (fast s) (epoch s)
  (breaker s) (reopenings s) (queue s) (long_polls s) (next_id_ s).
Definition set_limit_fast l f s := mkState l (active s) (held s) f (epoch s)
  (breaker s) (reopenings s) (queue s) (long_polls s) (next_id_ s).
Definition set_epoch v s := mkState (limit s) (active s) (held s) (fast s) v
  (breaker s) (reopenings s) (queue s) (long_polls s) (next_id_ s).
Definition set_breaker b r s := mkState (limit s) (active s) (held s) (fast s) (epoch s)
  b r (queue s) (long_polls s) (next_id_ s).
Definition set_queue v s := mkState (limit s) (active s) (held s) (fast s) (epoch s)
  (breaker s) (reopenings s) v (long_polls s) (next_id_ s).
Definition set_long_polls v s := mkState (limit s) (active s) (held s) (fast s) (epoch s)
  (breaker s) (reopenings s) (queue s) v (next_id_ s).
Definition set_next_id v s := mkState (limit s) (active s) (held s) (fast s) (epoch s)
  (breaker s) (reopenings s) (queue s) (long_polls s) v.

Inductive Admission :=
| Admit (ep : Z) (probe : bool)
| Wait (deadline : option Z).

(** ** Methods of [State] *)

Definition new_state : State :=
  mkState INITIAL_LIMIT 0 [] 0 0 Closed 0 [] ∅ 0.

Definition next_id (s : State) : State * Z :=
  let id := wrap64 (next_id_ s + 1) in (set_next_id id s, id).

Definition release_expired_holds (now : Z) (s : State) : State :=
  set_held (filter (fun until => now < until) (held s)) s.

(** [self.active + self.held.len() as u32] *)
Definition in_use (s : State) : Z :=
  wrap32 (active s + wrap32 (Z.of_nat (length (held s)))).

Definition list_min (l : list Z) : option Z :=
  match l with
  | [] => None
  | x :: l => Some (foldl Z.min x l)
  end.

Definition earliest_hold (s : State) : option Z := list_min (held s).

Definition admission (now : Z) (s0 : State) : State * Admission :=
  let s := release_expired_holds now s0 in
  match breaker s with
  | Closed =>
      if in_use s <? limit s then (s, Admit (epoch s) false)
      else (s, Wait (earliest_hold s))
  | Open opened_at until =>
      if (until <=? now) && bool_decide (held s = []) then
        (set_breaker (Probing opened_at) (reopenings s) s, Admit (epoch s) true)
      else if now <? until then (s, Wait (Some until))
      else (s, Wait (earliest_hold s))
  | Probing _ => (s, Wait None)
  end.

Definition halve (now ep floor : Z) (s : State) : State :=
  if negb (ep =? epoch s) || negb (bool_decide (breaker s = Closed)) then s
  else
    let limit' := Z.max (limit s / 2) floor in
    if limit' =? limit s then s
    else
      let s1 := set_epoch (wrap64 (epoch s + 1)) (set_limit_fast limit' 0 s) in
      if limit' =? 0 then set_breaker (Open now (now + cooldown 0)) 0 s1 else s1.

Definition drop_probe (now : Z) (s : State) : State :=
  match breaker s with
  | Probing opened_at => set_breaker (Open opened_at now) (reopenings s) s
  | _ => s
  end.

Definition finish_probe (now : Z) (outcome : Outcome) (s : State) : State :=
  match breaker s with
  | Probing opened_at =>
      match outcome with
      | Success | Refused => set_breaker Closed 0 (set_limit_fast 1 0 s)
      | TimedOut | Overloaded =>
          let reopenings' := wrap32 (reopenings s + 1) in
          set_breaker (Open opened_at (now + cooldown reopenings')) reopenings' s
      | Local => drop_probe now s
      end
  | _ => s
  end.

(** ** Methods of [HomeserverGate], one per critical section *)

Record Permit := mkPermit {
  started : Z; timeout : Z; permit_epoch : Z; permit_probe : bool }.

Record LongPoll := mkLongPoll { poll_epoch : Z; poll_probe : bool }.

(** [acquire]: take a place in the queue. *)
Definition acquire_enter (now : Z) (s : State) : State * Z :=
  let '(s, id) := next_id s in
  (set_queue (queue s ++ [(id, now)]) s, id).

(** [acquire]: one look at the gate.  Only the head of the queue may be
    admitted. *)
Definition acquire_look (id now : Z) (s : State) : State * Admission :=
  if bool_decide (fst <$> head (queue s) = Some id) then
    let '(s, a) := admission now s in
    match a with
    | Admit _ _ => (set_active (wrap32 (active s + 1)) (set_queue (tail (queue s)) s), a)
    | Wait _ => (s, a)
    end
  else (s, Wait None).

(** [Drop for Queued] of a waiter that was not admitted. *)
Definition queued_drop (id : Z) (s : State) : State :=
  set_queue (filter (fun e => e.1 <> id) (queue s)) s.

Definition try_acquire (now tmo : Z) (s : State) : State * option Permit :=
  match queue s with
  | _ :: _ => (s, None)
  | [] =>
      let '(s, a) := admission now s in
      match a with
      | Admit ep probe =>
          (set_active (wrap32 (active s + 1)) s, Some (mkPermit now tmo ep probe))
      | Wait _ => (s, None)
      end
  end.

(** [acquire_briefly]: [inl] is the non-waiting answer, [inr id] a place in the
    queue that its caller gives up after [wait]. *)
Definition acquire_briefly (now tmo : Z) (s : State) : State * (option Permit + Z) :=
  if bool_decide (breaker s = Closed) then
    let '(s, id) := acquire_enter now s in (s, inr id)
  else
    let '(s, p) := try_acquire now tmo s in (s, inl p).

Definition report_interactive (now ep : Z) (outcome : Outcome) (s : State) : State :=
  match outcome with
  | TimedOut | Overloaded => halve now ep 1 s
  | _ => s
  end.

Definition long_poll_enter (now : Z) (s : State) : State * Z :=
  let '(s, id) := next_id s in
  (set_long_polls (<[id := now]> (long_polls s)) s, id).

Definition long_poll_look (now : Z) (s0 : State) : State * Admission :=
  let s := release_expired_holds now s0 in
  match breaker s with
  | Closed => (s, Admit (epoch s) false)
  | Open _ until =>
      if bool_decide (queue s = []) then admission now s
      else if now <? until then (s, Wait (Some until))
      else (s, Wait (earliest_hold s))
  | Probing _ => (s, Wait None)
  end.

(** [Drop for LongPollWaiting]. *)
Definition long_poll_leave (id : Z) (s : State) : State :=
  set_long_polls (delete id (long_polls s)) s.

Definition gate_release (now : Z) (probe : bool) (s : State) : State :=
  let s := set_active (wrap32 (active s - 1)) s in
  if probe then drop_probe now s else s.

(** The success branch of [finish] on a closed gate. *)
Definition count_fast (s : State) : State :=
  let fast' := wrap32 (fast s + 1) in
  if GROW_AFTER <=? fast' then
    set_limit_fast (if limit s <? MAX_LIMIT then limit s + 1 else limit s) 0 s
  else set_limit_fast (limit s) fast' s.

(** A timeout keeps its slot for [TIMEOUT_HOLD]. *)
Definition push_hold (now : Z) (outcome : Outcome) (s : State) : State :=
  if bool_decide (outcome = TimedOut)
  then set_held (held s ++ [now + TIMEOUT_HOLD]) s else s.

Definition gate_finish (now : Z) (p : Permit) (outcome : Outcome) (s : State) : State :=
  let s := set_active (wrap32 (active s - 1)) s in
  let s := push_hold now outcome s in
  if permit_probe p then finish_probe now outcome s
  else match breaker s with
  | Closed =>
      match outcome with
      | Success =>
          if is_fast (sat_sub now (started p)) (timeout p) then count_fast s else s
      | TimedOut | Overloaded => halve now (permit_epoch p) 0 s
      | Refused | Local => s
      end
  | _ => s
  end.

(** [Permit::finish]; dropping a permit is [gate_release]. *)
Definition permit_finish (now : Z) (p : Permit) (outcome : Outcome) (s : State) : State :=
  match outcome with
  | Local => gate_release now (permit_probe p) s
  | _ => gate_finish now p outcome s
  end.

Definition finish_long_poll (now : Z) (poll : LongPoll) (outcome : Outcome) (s : State)
  : State :=
  let s := push_hold now outcome s in
  if poll_probe poll then finish_probe now outcome s
  else match outcome with
  | TimedOut | Overloaded => halve now (poll_epoch poll) 0 s
  | _ => s
  end.

(** [LongPoll::finish]. *)
Definition long_poll_finish (now : Z) (poll : LongPoll) (outcome : Outcome) (s : State)
  : State :=
  match outcome with
  | Local => if poll_probe poll then drop_probe now s else s
  | _ => finish_long_poll now poll outcome s
  end.

(** [Drop for LongPoll] of a poll that was not reported. *)
Definition long_poll_drop (now : Z) (poll : LongPoll) (s : State) : State :=
  if poll_probe poll then drop_probe now s else s.

(** [InteractiveCall::finish] against the gate it holds. *)
Definition interactive_finish (now ep : Z) (ignore_timeouts : bool) (outcome : Outcome)
    (s : State) : State :=
  if ignore_timeouts && bool_decide (outcome = TimedOut) then s
  else report_interactive now ep outcome s.

(** ** Status snapshot *)

Inductive BreakerSnapshot :=
| SnapClosed
| SnapOpen (opened_at next_probe_at : Z)
| SnapProbing (opened_at : Z).

Record GateSnapshot := mkSnapshot {
  snap_limit : Z; snap_active : Z; snap_held : Z; snap_waiting : Z;
  oldest_wait : option Z; snap_breaker : BreakerSnapshot }.

(** An [Instant] as wall-clock time: [wall] is the wall clock at [now]. *)
Definition wall_at (wall now instant : Z) : Z :=
  if now <=? instant then wall + (instant - now) else wall - (now - instant).

Definition snapshot (wall now : Z) (s0 : State) : State * GateSnapshot :=
  let s := release_expired_holds now s0 in
  let oldest := list_min (map snd (queue s) ++ map snd (map_to_list (long_polls s))) in
  (s, mkSnapshot (limit s) (active s)
    (wrap32 (Z.of_nat (length (held s))))
    (wrap32 (Z.of_nat (length (queue s) + size (long_polls s))))
    ((fun since => sat_sub now since) <$> oldest)
    match breaker s with
    | Closed => SnapClosed
    | Open opened_at until =>
        SnapOpen (wall_at wall now opened_at)
                 (wall_at wall now (foldl Z.max until (held s)))
    | Probing opened_at => SnapProbing (wall_at wall now opened_at)
    end).

(** ** The concurrent system

    [permits] and [polls] are the values the callers hold; [admitted] is the
    sequence of queue ids admitted so far. *)

Record world := mkWorld {
  gate : State; permits : list Permit; polls : list LongPoll;
  clock : Z; admitted : list Z }.

Definition init_world (t : Z) : world := mkWorld new_state [] [] t [].

Inductive gate_step : world -> world -> Prop :=
| step_tick g ps ls c ad t :
    c <= t -> gate_step (mkWorld g ps ls c ad) (mkWorld g ps ls t ad)
| step_enter g ps ls c ad :
    gate_step (mkWorld g ps ls c ad) (mkWorld (acquire_enter c g).1 ps ls c ad)
| step_look_admit g ps ls c ad id g' ep probe st tmo :
    id ∈ map fst (queue g) ->
    acquire_look id c g = (g', Admit ep probe) -> c <= st ->
    gate_step (mkWorld g ps ls c ad)
      (mkWorld g' (mkPermit st tmo ep probe :: ps) ls c (ad ++ [id]))
| step_look_wait g ps ls c ad id g' d :
    id ∈ map fst (queue g) ->
    acquire_look id c g = (g', Wait d) ->
    gate_step (mkWorld g ps ls c ad) (mkWorld g' ps ls c ad)
| step_cancel g ps ls c ad id :
    gate_step (mkWorld g ps ls c ad) (mkWorld (queued_drop id g) ps ls c ad)
| step_try g ps ls c ad g' r tmo :
    try_acquire c tmo g = (g', r) ->
    gate_step (mkWorld g ps ls c ad)
      (mkWorld g' (match r with Some p => p :: ps | None => ps end) ls c ad)
| step_finish g ps1 p ps2 ls c ad o :
    gate_step (mkWorld g (ps1 ++ p :: ps2) ls c ad)
      (mkWorld (permit_finish c p o g) (ps1 ++ ps2) ls c ad)
| step_drop g ps1 p ps2 ls c ad :
    gate_step (mkWorld g (ps1 ++ p :: ps2) ls c ad)
      (mkWorld (gate_release c (permit_probe p) g) (ps1 ++ ps2) ls c ad)
| step_interactive g ps ls c ad ep ign o :
    gate_step (mkWorld g ps ls c ad) (mkWorld (interactive_finish c ep ign o g) ps ls c ad)
| step_poll_enter g ps ls c ad :
    gate_step (mkWorld g ps ls c ad) (mkWorld (long_poll_enter c g).1 ps ls c ad)
| step_poll_admit g ps ls c ad id g' ep probe :
    long_poll_look c g = (g', Admit ep probe) ->
    gate_step (mkWorld g ps ls c ad)
      (mkWorld (long_poll_leave id g') ps (mkLongPoll ep probe :: ls) c ad)
| step_poll_wait g ps ls c ad g' d :
    long_poll_look c g = (g', Wait d) ->
    gate_step (mkWorld g ps ls c ad) (mkWorld g' ps ls c ad)
| step_poll_leave g ps ls c ad id :
    gate_step (mkWorld g ps ls c ad) (mkWorld (long_poll_leave id g) ps ls c ad)
| step_poll_finish g ps ls1 l ls2 c ad o :
    gate_step (mkWorld g ps (ls1 ++ l :: ls2) c ad)
      (mkWorld (long_poll_finish c l o g) ps (ls1 ++ ls2) c ad)
| step_poll_drop g ps ls1 l ls2 c ad :
    gate_step (mkWorld g ps (ls1 ++ l :: ls2) c ad)
      (mkWorld (long_poll_drop c l g) ps (ls1 ++ ls2) c ad).

(** The widths a [usize]-sized list and the id counter never reach: 2^31 slots
    held within fifteen minutes, 2^64 waiters. *)
Definition fits (w : world) : Prop :=
  Z.of_nat (length (held (gate w))) < 2 ^ 31 /\ next_id_ (gate w) + 1 < 2 ^ 64.

Definition fit_step (w w' : world) : Prop := fits w /\ gate_step w w'.

Definition reachable (w : world) : Prop :=
  exists t, rtc fit_step (init_world t) w.

(** ** The slot invariant *)

Definition count_plain (ps : list Permit) : Z :=
  Z.of_nat (length (filter (fun p => permit_probe p = false) ps)).
Definition count_probe (ps : list Permit) : Z :=
  Z.of_nat (length (filter (fun p => permit_probe p = true) ps)).
Definition count_poll_probe (ls : list LongPoll) : Z :=
  Z.of_nat (length (filter (fun l => poll_probe l = true) ls)).

Definition probing (b : Breaker) : Z :=
  match b with Probing _ => 1 | _ => 0 end.

Record slots_ok (s : State) (plain pp lp : Z) : Prop := {
  ok_active : active s = plain + pp;
  ok_nonneg : 0 <= plain /\ 0 <= pp /\ 0 <= lp;
  ok_limit : 0 <= limit s <= MAX_LIMIT;
  ok_breaker : match breaker s with Closed => 1 <= limit s | _ => limit s = 0 end;
  ok_probe : pp + lp = probing (breaker s);
  ok_plain : plain <= MAX_LIMIT;
  ok_fast : 0 <= fast s < GROW_AFTER }.

Definition world_ok (w : world) : Prop :=
  slots_ok (gate w) (count_plain (permits w)) (count_probe (permits w))
    (count_poll_probe (polls w)).

(** The state parts the slot invariant reads. *)
Lemma slots_ok_ext s s' plain pp lp :
  slots_ok s plain pp lp ->
  active s' = active s -> limit s' = limit s -> breaker s' = breaker s ->
  fast s' = fast s -> slots_ok s' plain pp lp.
Proof. intros [] Ha Hl Hb Hf. split; rewrite ?Ha, ?Hl, ?Hb, ?Hf; auto. Qed.

Lemma slots_ok_eq s a b c a' b' c' :
  slots_ok s a b c -> a = a' -> b = b' -> c = c' -> slots_ok s a' b' c'.
Proof. by intros ? -> -> ->. Qed.

Lemma in_use_lt s n plain pp lp :
  slots_ok s plain pp lp -> Z.of_nat (length (held s)) < 2 ^ 31 ->
  in_use s < n -> n <= MAX_LIMIT -> active s + 1 <= n.
Proof.
  intros [Ha Hn _ _ Hp Hpl _] Hh. unfold in_use, MAX_LIMIT in *.
  assert (probing (breaker s) <= 1) by (destruct (breaker s); simpl; lia).
  rewrite (wrap32_small (Z.of_nat _)) by lia.
  rewrite wrap32_small by lia. lia.
Qed.

(** [push_hold] changes the held slots only. *)
Lemma push_hold_state now o s :
  push_hold now o s = set_held (held (push_hold now o s)) s.
Proof. unfold push_hold. case_bool_decide; [done|]. by destruct s. Qed.

Lemma push_hold_ok now o s plain pp lp :
  slots_ok s plain pp lp -> slots_ok (push_hold now o s) plain pp lp.
Proof. intros H. rewrite push_hold_state. by apply (slots_ok_ext s). Qed.

Lemma release_ok now s plain pp lp :
  slots_ok s plain pp lp -> slots_ok (release_expired_holds now s) plain pp lp.
Proof. intros H. by apply (slots_ok_ext s). Qed.

Lemma release_held_length now s :
  (length (held (release_expired_holds now s)) <= length (held s))%nat.
Proof. apply length_filter. Qed.

(** An admission hands out an ordinary slot of a closed gate below its limit,
    or the probe of an open one. *)
Lemma admission_admit_ok now s s' ep probe plain pp lp :
  slots_ok s plain pp lp -> Z.of_nat (length (held s)) < 2 ^ 31 ->
  admission now s = (s', Admit ep probe) ->
  active s' = active s /\ limit s' = limit s /\ fast s' = fast s /\
  queue s' = queue s /\ next_id_ s' = next_id_ s /\
  (if probe then exists at_, probing (breaker s) = 0 /\ breaker s' = Probing at_ /\ limit s = 0
   else breaker s = Closed /\ breaker s' = Closed /\ active s + 1 <= MAX_LIMIT).
Proof.
  intros Hok Hh. unfold admission.
  pose proof (release_ok now s _ _ _ Hok) as Hok'.
  pose proof (release_held_length now s) as Hlen.
  cbn [breaker release_expired_holds set_held].
  destruct (breaker s) eqn:Hb.
  - case_match eqn:E; intros [= <- <- <-]. b2p.
    change (limit (release_expired_holds now s)) with (limit s) in E.
    apply in_use_lt with (n := limit s) in Hok'; [|lia|done|apply Hok].
    cbn in *. pose proof (ok_limit _ _ _ _ Hok). repeat split; auto. lia.
  - case_match; [|case_match]; intros [= <- <- <-].
    pose proof (ok_breaker _ _ _ _ Hok) as Hl. rewrite Hb in Hl.
    repeat split; auto. exists opened_at. auto.
  - intros [=].
Qed.

Lemma admission_wait_ok now s s' d plain pp lp :
  slots_ok s plain pp lp -> admission now s = (s', Wait d) ->
  slots_ok s' plain pp lp /\ queue s' = queue s /\ next_id_ s' = next_id_ s.
Proof.
  intros Hok. unfold admission. repeat case_match; intros [= <- <-];
    (split; [by apply release_ok|done]).
Qed.

Lemma halve_ok now ep floor s plain pp lp :
  0 <= floor <= 1 -> slots_ok s plain pp lp -> slots_ok (halve now ep floor s) plain pp lp.
Proof.
  intros Hf Hok. unfold halve. case_match; [done|]. case_match eqn:E2; [done|].
  destruct Hok as [Ha Hn Hl Hb Hp Hpl Hfa]. b2p.
  apply bool_decide_eq_true in H0. rewrite H0 in *.
  assert (Z.max (limit s / 2) floor <= limit s) by
    (pose proof (Z.div_le_upper_bound (limit s) 2 (limit s)); lia).
  assert (0 <= limit s / 2) by (apply Z.div_pos; lia).
  case_match eqn:E3; b2p; split; simpl; rewrite ?H0; auto; unfold GROW_AFTER; lia.
Qed.

(** The probe's end leaves no probe in flight, whatever it reports. *)
Lemma finish_probe_ok now o s plain :
  active s = plain -> 0 <= plain <= MAX_LIMIT -> limit s = 0 ->
  probing (breaker s) = 1 -> 0 <= fast s < GROW_AFTER ->
  slots_ok (finish_probe now o s) plain 0 0.
Proof.
  intros Ha Hp Hl Hb Hf. unfold finish_probe, drop_probe, MAX_LIMIT, GROW_AFTER in *.
  destruct (breaker s) eqn:Eb; try discriminate.
  destruct o; split; simpl; unfold MAX_LIMIT, GROW_AFTER; auto; lia.
Qed.

Lemma drop_probe_ok now s plain :
  active s = plain -> 0 <= plain <= MAX_LIMIT -> limit s = 0 ->
  probing (breaker s) = 1 -> 0 <= fast s < GROW_AFTER ->
  slots_ok (drop_probe now s) plain 0 0.
Proof.
  intros. replace (drop_probe now s) with (finish_probe now Local s); [by apply finish_probe_ok|].
  unfold finish_probe, drop_probe. by destruct (breaker s).
Qed.

Lemma slots_probing s plain pp lp :
  slots_ok s plain pp lp -> 1 <= pp + lp ->
  pp + lp = 1 /\ probing (breaker s) = 1 /\ limit s = 0.
Proof.
  intros [_ _ _ Hb Hp _ _] H. destruct (breaker s); simpl in *; try lia.
Qed.

Lemma slots_active_small s plain pp lp :
  slots_ok s plain pp lp -> 0 <= active s <= MAX_LIMIT + 1.
Proof.
  intros [Ha ? _ _ Hp ? _]. assert (probing (breaker s) <= 1) by (destruct (breaker s); simpl; lia).
  lia.
Qed.

Lemma count_fast_ok s plain pp lp :
  slots_ok s plain pp lp -> breaker s = Closed -> slots_ok (count_fast s) plain pp lp.
Proof.
  intros Hok Hb. unfold count_fast. destruct Hok as [Ha Hn Hl Hbr Hp Hpl Hf].
  unfold GROW_AFTER, MAX_LIMIT in *. rewrite Hb in *.
  rewrite wrap32_small by lia.
  repeat case_match; b2p; split; simpl; rewrite ?Hb; unfold MAX_LIMIT, GROW_AFTER; auto; lia.
Qed.

(** One permit fewer, of its own kind. *)
Lemma active_pred_ok s plain pp lp :
  slots_ok s plain pp lp -> 1 <= plain ->
  slots_ok (set_active (wrap32 (active s - 1)) s) (plain - 1) pp lp.
Proof.
  intros Hok H1. pose proof (slots_active_small _ _ _ _ Hok) as Hs.
  destruct Hok as [Ha Hn Hl Hb Hp Hpl Hf]. unfold MAX_LIMIT in *.
  rewrite wrap32_small by lia. split; simpl; unfold MAX_LIMIT; auto; lia.
Qed.

Lemma gate_finish_plain_ok now p o s plain pp lp :
  slots_ok s plain pp lp -> permit_probe p = false -> 1 <= plain ->
  slots_ok (gate_finish now p o s) (plain - 1) pp lp.
Proof.
  intros Hok Hp H1. apply active_pred_ok in Hok; [|done].
  unfold gate_finish. rewrite Hp. cbv zeta.
  set (s1 := set_active _ s) in *.
  apply (push_hold_ok now o) in Hok.
  set (s2 := push_hold now o s1) in *.
  destruct (breaker s2) eqn:Eb; auto.
  destruct o; auto.
  - case_match; auto using count_fast_ok.
  - by apply halve_ok.
  - by apply halve_ok.
Qed.

Lemma gate_finish_probe_ok now p o s plain pp lp :
  slots_ok s plain pp lp -> permit_probe p = true -> 1 <= pp ->
  slots_ok (gate_finish now p o s) plain (pp - 1) lp.
Proof.
  intros Hok Hp H1. pose proof (slots_active_small _ _ _ _ Hok) as Hs.
  destruct (slots_probing _ _ _ _ Hok) as (Hsum & Hpr & Hlim);
    [destruct (ok_nonneg _ _ _ _ Hok); lia|].
  destruct Hok as [Ha Hn Hl Hb Hp' Hpl Hf]. unfold MAX_LIMIT in *.
  replace (pp - 1) with 0 by lia. replace lp with 0 by lia.
  unfold gate_finish. rewrite Hp. rewrite wrap32_small by lia. cbv zeta.
  apply finish_probe_ok; try rewrite push_hold_state; simpl; unfold MAX_LIMIT; auto; lia.
Qed.

Lemma gate_release_ok now (b : bool) s plain pp lp :
  slots_ok s plain pp lp -> (if b then 1 <= pp else 1 <= plain) ->
  slots_ok (gate_release now b s) (if b then plain else plain - 1) (if b then pp - 1 else pp) lp.
Proof.
  intros Hok H1. unfold gate_release. destruct b; [|by apply active_pred_ok].
  pose proof (slots_active_small _ _ _ _ Hok) as Hs.
  destruct (slots_probing _ _ _ _ Hok) as (Hsum & Hpr & Hlim);
    [destruct (ok_nonneg _ _ _ _ Hok); lia|].
  destruct Hok as [Ha Hn Hl Hb Hp' Hpl Hf]. unfold MAX_LIMIT in *.
  replace (pp - 1) with 0 by lia. replace lp with 0 by lia.
  rewrite wrap32_small by lia. apply drop_probe_ok; simpl; unfold MAX_LIMIT; auto; lia.
Qed.

Lemma permit_finish_ok now p o s plain pp lp :
  slots_ok s plain pp lp -> (if permit_probe p then 1 <= pp else 1 <= plain) ->
  slots_ok (permit_finish now p o s) (if permit_probe p then plain else plain - 1)
    (if permit_probe p then pp - 1 else pp) lp.
Proof.
  intros Hok H1. unfold permit_finish.
  destruct o; [..|by apply gate_release_ok]; destruct (permit_probe p) eqn:Ep;
    auto using gate_finish_plain_ok, gate_finish_probe_ok.
Qed.

Lemma long_poll_clear_ok now o s plain pp lp :
  slots_ok s plain pp lp -> 1 <= lp ->
  slots_ok (finish_probe now o s) plain pp (lp - 1).
Proof.
  intros Hok H1. destruct (slots_probing _ _ _ _ Hok) as (Hsum & Hpr & Hlim);
    [destruct (ok_nonneg _ _ _ _ Hok); lia|].
  destruct Hok as [Ha Hn Hl Hb Hp' Hpl Hf].
  replace (lp - 1) with 0 by lia. replace pp with 0 by lia.
  apply finish_probe_ok; auto; lia.
Qed.

Lemma long_poll_finish_ok now l o s plain pp lp :
  slots_ok s plain pp lp -> (if poll_probe l then 1 <= lp else True) ->
  slots_ok (long_poll_finish now l o s) plain pp (if poll_probe l then lp - 1 else lp).
Proof.
  intros Hok H1. unfold long_poll_finish.
  assert (forall o, slots_ok (finish_long_poll now l o s) plain pp
            (if poll_probe l then lp - 1 else lp)) as Hfin.
  { intros o'. unfold finish_long_poll.
    apply (push_hold_ok now o') in Hok.
    destruct (poll_probe l); [by apply long_poll_clear_ok|].
    by destruct o'; try apply halve_ok. }
  destruct o; auto. destruct (poll_probe l) eqn:El; [|done].
  replace (drop_probe now s) with (finish_probe now Local s); [by apply long_poll_clear_ok|].
  unfold finish_probe, drop_probe. by destruct (breaker s).
Qed.

Lemma long_poll_drop_ok now l s plain pp lp :
  slots_ok s plain pp lp -> (if poll_probe l then 1 <= lp else True) ->
  slots_ok (long_poll_drop now l s) plain pp (if poll_probe l then lp - 1 else lp).
Proof.
  intros Hok H1. apply (long_poll_finish_ok now l Local s) in Hok; [|done].
  unfold long_poll_finish, long_poll_drop in *. by destruct (poll_probe l).
Qed.

(** ** The invariant over executions *)

Lemma count_plain_cons p ps :
  count_plain (p :: ps) = (if permit_probe p then 0 else 1) + count_plain ps.
Proof.
  unfold count_plain. rewrite filter_cons. destruct (permit_probe p) eqn:E.
  - rewrite decide_False by congruence. lia.
  - rewrite decide_True by done. simpl. lia.
Qed.

Lemma count_probe_cons p ps :
  count_probe (p :: ps) = (if permit_probe p then 1 else 0) + count_probe ps.
Proof.
  unfold count_probe. rewrite filter_cons. destruct (permit_probe p) eqn:E.
  - rewrite decide_True by done. simpl. lia.
  - rewrite decide_False by congruence. lia.
Qed.

Lemma count_poll_probe_cons l ls :
  count_poll_probe (l :: ls) = (if poll_probe l then 1 else 0) + count_poll_probe ls.
Proof.
  unfold count_poll_probe. rewrite filter_cons. destruct (poll_probe l) eqn:E.
  - rewrite decide_True by done. simpl. lia.
  - rewrite decide_False by congruence. lia.
Qed.

Lemma count_plain_middle ps1 p ps2 :
  count_plain (ps1 ++ p :: ps2) = count_plain (p :: ps1 ++ ps2).
Proof. unfold count_plain. by rewrite Permutation_middle. Qed.

Lemma count_probe_middle ps1 p ps2 :
  count_probe (ps1 ++ p :: ps2) = count_probe (p :: ps1 ++ ps2).
Proof. unfold count_probe. by rewrite Permutation_middle. Qed.

Lemma count_poll_probe_middle ls1 l ls2 :
  count_poll_probe (ls1 ++ l :: ls2) = count_poll_probe (l :: ls1 ++ ls2).
Proof. unfold count_poll_probe. by rewrite Permutation_middle. Qed.

Lemma counts_nonneg ps ls :
  0 <= count_plain ps /\ 0 <= count_probe ps /\ 0 <= count_poll_probe ls.
Proof. unfold count_plain, count_probe, count_poll_probe. lia. Qed.

#[export] Hint Rewrite count_plain_cons count_probe_cons count_poll_probe_cons
  count_plain_middle count_probe_middle count_poll_probe_middle : axon.

(** A permit handed out keeps the invariant: the common part of [acquire] and
    [try_acquire]. *)
Lemma admit_permit_ok now g g1 g2 ep probe st tmo ps ls :
  slots_ok g (count_plain ps) (count_probe ps) (count_poll_probe ls) ->
  Z.of_nat (length (held g)) < 2 ^ 31 ->
  admission now g = (g1, Admit ep probe) ->
  active g2 = wrap32 (active g1 + 1) -> limit g2 = limit g1 ->
  breaker g2 = breaker g1 -> fast g2 = fast g1 ->
  slots_ok g2 (count_plain (mkPermit st tmo ep probe :: ps))
    (count_probe (mkPermit st tmo ep probe :: ps)) (count_poll_probe ls).
Proof.
  intros Hok Hfit Hadm Ha Hl Hb Hf.
  destruct (admission_admit_ok _ _ _ _ _ _ _ _ Hok Hfit Hadm)
    as (Ha1 & Hl1 & Hf1 & _ & _ & Hkind).
  pose proof (slots_active_small _ _ _ _ Hok) as Hs.
  pose proof (counts_nonneg ps ls) as Hc. destruct Hok as [Oa On Ol Ob Op Opl Of].
  autorewrite with axon. cbn [permit_probe].
  rewrite Ha1, wrap32_small in Ha by (unfold MAX_LIMIT in *; lia).
  destruct probe.
  - destruct Hkind as (at_ & Hpr & Hb1 & Hlim).
    split; rewrite ?Ha, ?Hl, ?Hl1, ?Hb, ?Hb1, ?Hf, ?Hf1; simpl; auto; lia.
  - destruct Hkind as (Hb0 & Hb1 & Hroom). rewrite Hb0 in *.
    split; rewrite ?Ha, ?Hl, ?Hl1, ?Hb, ?Hb1, ?Hf, ?Hf1; simpl in *; auto; lia.
Qed.

Lemma long_poll_look_ok now g g' a ps ls id :
  slots_ok g (count_plain ps) (count_probe ps) (count_poll_probe ls) ->
  Z.of_nat (length (held g)) < 2 ^ 31 ->
  long_poll_look now g = (g', a) ->
  slots_ok (long_poll_leave id g') (count_plain ps) (count_probe ps)
    (count_poll_probe match a with Admit ep probe => mkLongPoll ep probe :: ls | Wait _ => ls end)
  /\ slots_ok g' (count_plain ps) (count_probe ps)
    (count_poll_probe match a with Admit ep probe => mkLongPoll ep probe :: ls | Wait _ => ls end).
Proof.
  intros Hok Hfit. enough (long_poll_look now g = (g', a) ->
    slots_ok g' (count_plain ps) (count_probe ps)
    (count_poll_probe match a with Admit ep probe => mkLongPoll ep probe :: ls | Wait _ => ls end)).
  { intros Hl. split; [|by auto]. by apply (slots_ok_ext g'); auto. }
  pose proof (release_ok now g _ _ _ Hok) as Hr.
  pose proof (release_held_length now g) as Hlen.
  unfold long_poll_look. destruct (breaker (release_expired_holds now g)) eqn:Eb.
  - intros [= <- <-]. autorewrite with axon. simpl. by rewrite Z.add_0_l.
  - case_match; [|by case_match; intros [= <- <-]].
    intros Hadm. destruct a as [ep probe|d].
    + destruct (admission_admit_ok _ _ _ _ _ _ _ _ Hr ltac:(lia) Hadm)
        as (Ha & Hl & Hf & _ & _ & Hkind).
      autorewrite with axon. cbn [poll_probe]. destruct probe; [|split_hyps; congruence].
      destruct Hkind as (at_ & Hp & Hb & Hlim).
      destruct Hr as [Oa On Ol Ob Op Opl Of].
      split; rewrite ?Ha, ?Hl, ?Hf, ?Hb; simpl; auto; lia.
    + by destruct (admission_wait_ok _ _ _ _ _ _ _ Hr Hadm).
  - by intros [= <- <-].
Qed.

Lemma step_ok w w' : fit_step w w' -> world_ok w -> world_ok w'.
Proof.
  intros [[Hheld Hid] Hstep] Hok. unfold world_ok in *.
  destruct Hstep; cbn [gate permits polls] in *; auto.
  - by apply (slots_ok_ext g).
  - unfold acquire_look in H0. case_match; [|done].
    destruct (admission c g) as [g1 a] eqn:Ea. destruct a; simplify_eq.
    by eapply admit_permit_ok.
  - unfold acquire_look in H0. case_match; [|by simplify_eq].
    destruct (admission c g) as [g1 a] eqn:Ea. destruct a; simplify_eq.
    by eapply admission_wait_ok.
  - by apply (slots_ok_ext g).
  - unfold try_acquire in H. case_match; [|by simplify_eq].
    destruct (admission c g) as [g1 a] eqn:Ea. destruct a; simplify_eq.
    + by eapply admit_permit_ok.
    + by eapply admission_wait_ok.
  - pose proof (counts_nonneg (ps1 ++ ps2) ls). autorewrite with axon in Hok.
    eapply permit_finish_ok with (now := c) (p := p) (o := o) in Hok;
      destruct (permit_probe p); simpl in *; try lia;
      (eapply slots_ok_eq; [exact Hok|lia..]).
  - pose proof (counts_nonneg (ps1 ++ ps2) ls). autorewrite with axon in Hok.
    eapply gate_release_ok with (now := c) (b := permit_probe p) in Hok;
      destruct (permit_probe p); simpl in *; try lia;
      (eapply slots_ok_eq; [exact Hok|lia..]).
  - unfold interactive_finish, report_interactive.
    case_match; [done|]. destruct o; auto; by apply halve_ok.
  - by apply (slots_ok_ext g).
  - by apply (long_poll_look_ok _ _ _ _ _ _ id Hok Hheld H).
  - by apply (long_poll_look_ok _ _ _ _ _ _ 0 Hok Hheld H).
  - by apply (slots_ok_ext g).
  - pose proof (counts_nonneg ps (ls1 ++ ls2)). autorewrite with axon in Hok.
    eapply long_poll_finish_ok with (now := c) (l := l) (o := o) in Hok;
      destruct (poll_probe l); simpl in *; try lia;
      (eapply slots_ok_eq; [exact Hok|lia..]).
  - pose proof (counts_nonneg ps (ls1 ++ ls2)). autorewrite with axon in Hok.
    eapply long_poll_drop_ok with (now := c) (l := l) in Hok;
      destruct (poll_probe l); simpl in *; try lia;
      (eapply slots_ok_eq; [exact Hok|lia..]).
Qed.

Lemma init_ok t : world_ok (init_world t).
Proof. split; simpl; unfold MAX_LIMIT, INITIAL_LIMIT, GROW_AFTER; vm_compute; intuition congruence. Qed.

Lemma reachable_ok w : reachable w -> world_ok w.
Proof.
  intros [t Hr]. remember (init_world t) as w0 eqn:E0.
  assert (world_ok w0) as H0 by (subst; apply init_ok). clear E0.
  induction Hr; eauto using step_ok.
Qed.

(** ** First come, first served *)

(** The ids admitted so far, then the ids waiting. *)
Definition line (w : world) : list Z := admitted w ++ map fst (queue (gate w)).

Record fifo_ok (w : world) : Prop := {
  fifo_sorted : StronglySorted Z.lt (line w);
  fifo_fresh : Forall (fun id => id <= next_id_ (gate w)) (line w);
  fifo_next : 0 <= next_id_ (gate w) }.

(** What the queue sees of a step that neither joins nor leaves it. *)
Definition same_queue (s s' : State) : Prop :=
  queue s' = queue s /\ next_id_ s' = next_id_ s.

Lemma halve_queue now ep floor s : same_queue s (halve now ep floor s).
Proof. unfold halve. by repeat case_match. Qed.

Lemma drop_probe_queue now s : same_queue s (drop_probe now s).
Proof. unfold drop_probe. by case_match. Qed.

Lemma finish_probe_queue now o s : same_queue s (finish_probe now o s).
Proof. unfold finish_probe, drop_probe. destruct (breaker s) eqn:E; [done..|]. by destruct o. Qed.

Lemma push_hold_queue now o s : same_queue s (push_hold now o s).
Proof. unfold push_hold. by case_match. Qed.

Lemma same_queue_trans s1 s2 s3 : same_queue s1 s2 -> same_queue s2 s3 -> same_queue s1 s3.
Proof. unfold same_queue. intuition congruence. Qed.

#[export] Hint Resolve halve_queue drop_probe_queue finish_probe_queue push_hold_queue : axon.

Lemma gate_finish_queue now p o s : same_queue s (gate_finish now p o s).
Proof.
  unfold gate_finish. eapply (same_queue_trans _ (push_hold now o (set_active (wrap32 (active s - 1)) s)));
    [apply (push_hold_queue now o (set_active (wrap32 (active s - 1)) s))|].
  case_match; auto with axon. case_match; try done.
  destruct o; try done; auto with axon. case_match; [|done]. unfold count_fast. by repeat case_match.
Qed.

Lemma gate_release_queue now b s : same_queue s (gate_release now b s).
Proof.
  unfold gate_release. destruct b; [|done].
  apply (drop_probe_queue now (set_active (wrap32 (active s - 1)) s)).
Qed.

Lemma permit_finish_queue now p o s : same_queue s (permit_finish now p o s).
Proof. unfold permit_finish. destruct o; auto using gate_finish_queue, gate_release_queue. Qed.

Lemma long_poll_finish_queue now l o s : same_queue s (long_poll_finish now l o s).
Proof.
  assert (forall o, same_queue s (finish_long_poll now l o s)).
  { intros o'. unfold finish_long_poll.
    eapply same_queue_trans; [apply (push_hold_queue now o')|].
    case_match; auto with axon. destruct o'; auto with axon; done. }
  unfold long_poll_finish. destruct o; auto. case_match; auto with axon. done.
Qed.

Lemma admission_queue now s s' a : admission now s = (s', a) -> same_queue s s'.
Proof. unfold admission. by repeat case_match; intros [= <- <-]. Qed.

Lemma long_poll_look_queue now s s' a : long_poll_look now s = (s', a) -> same_queue s s'.
Proof.
  unfold long_poll_look. repeat case_match; try by intros [= <- <-].
  intros H'. by apply admission_queue in H'.
Qed.

Lemma fifo_same g g' ps ls ps' ls' c c' ad :
  same_queue g g' -> fifo_ok (mkWorld g ps ls c ad) -> fifo_ok (mkWorld g' ps' ls' c' ad).
Proof.
  intros [Hq Hn] [Hs Hf Hz]. unfold line in *. cbn [gate admitted] in *.
  split; unfold line; cbn [gate admitted]; by rewrite ?Hq, ?Hn.
Qed.

Lemma acquire_look_line id now g g' a :
  acquire_look id now g = (g', a) ->
  next_id_ g' = next_id_ g /\
  match a with
  | Admit _ _ => map fst (queue g) = id :: map fst (queue g')
  | Wait _ => queue g' = queue g
  end.
Proof.
  unfold acquire_look. case_match eqn:E; [|by intros [= <- <-]].
  destruct (admission now g) as [g1 a1] eqn:Ea. apply admission_queue in Ea as [Hq Hn].
  apply bool_decide_eq_true in E.
  destruct a1; intros [= <- <-]; simpl; rewrite ?Hq; [|done].
  split; [done|]. destruct (queue g) as [|[i t] q]; simplify_eq/=. done.
Qed.

Lemma try_acquire_queue now tmo g g' r : try_acquire now tmo g = (g', r) -> same_queue g g'.
Proof.
  unfold try_acquire. case_match; [|by intros [= <- <-]].
  destruct (admission now g) as [g1 a] eqn:Ea. apply admission_queue in Ea.
  by case_match; intros [= <- <-].
Qed.

Lemma queued_drop_ids id g :
  map fst (queue (queued_drop id g)) = filter (fun i => i <> id) (map fst (queue g)).
Proof. exact (map_fst_filter (fun i => i <> id) (queue g)). Qed.

Lemma fifo_step w w' : fit_step w w' -> fifo_ok w -> fifo_ok w'.
Proof.
  intros [[Hheld Hid] Hstep] Hok. destruct Hstep; cbn [gate] in *;
    try (eapply fifo_same; [|exact Hok]; cbn [gate];
      eauto using permit_finish_queue, gate_release_queue, long_poll_finish_queue,
        long_poll_look_queue, try_acquire_queue; done).
  all: destruct Hok as [Hs Hf Hz]; unfold line in *; cbn [gate admitted] in *.
  - unfold acquire_enter, next_id. split; unfold line; cbn -[wrap64];
      rewrite ?map_app, ?app_assoc, wrap64_small by lia; [..|lia].
    + apply StronglySorted_snoc; [done|]. eapply Forall_impl; [exact Hf|]. simpl. lia.
    + apply Forall_app; split; [|by repeat constructor].
      eapply Forall_impl; [exact Hf|]. simpl. lia.
  - apply acquire_look_line in H0 as [Hn Hq]. rewrite Hq in *.
    split; unfold line; cbn [gate admitted]; rewrite <- ?app_assoc, ?Hn; done.
  - apply acquire_look_line in H0 as [Hn Hq].
    split; unfold line; cbn [gate admitted]; rewrite ?Hq, ?Hn; done.
  - split; unfold line; cbn [gate admitted]; rewrite ?queued_drop_ids; [..|done].
    + apply StronglySorted_app in Hs as (H1 & H2 & H3).
      apply StronglySorted_app_2; [|done|by apply StronglySorted_filter].
      intros x1 x2 Hx1 [_ Hx2]%list_elem_of_filter. auto.
    + apply Forall_app in Hf as [H1 H2]. apply Forall_app; split; [done|].
      rewrite Forall_forall in *. intros x [_ Hx]%list_elem_of_filter. auto.
  - unfold interactive_finish, report_interactive.
    apply (fifo_same g _ ps [] _ _ c); [|split; done]. repeat case_match; auto with axon; done.
  - unfold long_poll_enter, next_id. split; unfold line; cbn -[wrap64];
      rewrite ?wrap64_small by lia; [done|..|lia].
    eapply Forall_impl; [exact Hf|]. simpl. lia.
  - apply long_poll_look_queue in H. by apply (fifo_same g _ ps [] _ _ c); [|split].
  - apply (fifo_same g _ ps [] _ _ c); [|split; done]. unfold long_poll_drop.
    case_match; auto with axon; done.
Qed.

Lemma reachable_fifo w : reachable w -> fifo_ok w.
Proof.
  intros [t Hr]. remember (init_world t) as w0 eqn:E0.
  assert (fifo_ok w0) as H0 by (subst; by repeat constructor). clear E0.
  induction Hr; eauto using fifo_step.
Qed.

(** ** Waiting and waking *)

Lemma list_min_spec l :
  match list_min l with
  | None => l = []
  | Some m => m ∈ l /\ Forall (fun x => m <= x) l
  end.
Proof.
  destruct l as [|x l]; [done|]. simpl. revert x.
  induction l as [|y l IH]; intros x; simpl.
  - split; [apply list_elem_of_singleton; done|]. repeat constructor. lia.
  - specialize (IH (Z.min x y)). destruct IH as [Hin Hall].
    inversion Hall as [|? ? Hm Hl]; subst. split.
    + apply elem_of_cons in Hin as [Hin|Hin]; [|do 2 right; done].
      rewrite Hin. destruct (Z.min_spec x y) as [[_ ->]|[_ ->]]; set_solver.
    + repeat constructor; [lia|lia|done].
Qed.

Lemma earliest_hold_future now s t :
  earliest_hold (release_expired_holds now s) = Some t -> now < t.
Proof.
  intros E. pose proof (list_min_spec (held (release_expired_holds now s))) as H.
  unfold earliest_hold in E. rewrite E in H. destruct H as [Hin _].
  by apply list_elem_of_filter in Hin as [? _].
Qed.

Lemma list_min_None l : list_min l = None -> l = [].
Proof. by destruct l. Qed.

Lemma in_use_no_holds s :
  held s = [] -> 0 <= active s < 2 ^ 32 -> in_use s = active s.
Proof.
  intros Hh Ha. unfold in_use. rewrite Hh. cbn [length].
  rewrite (wrap32_small (Z.of_nat 0)) by lia. rewrite Z.add_0_r. by apply wrap32_small.
Qed.

Lemma admission_wait_spec now s s' d plain pp lp :
  slots_ok s plain pp lp -> admission now s = (s', Wait d) ->
  match d with
  | Some t => now < t
  | None => 1 <= plain + pp + lp
  end.
Proof.
  intros Hok. pose proof (slots_active_small _ _ _ _ Hok) as Hs.
  destruct Hok as [Ha Hn Hl Hb Hp Hpl Hf]. unfold admission, MAX_LIMIT in *.
  change (breaker (release_expired_holds now s)) with (breaker s).
  destruct (breaker s) eqn:Eb; [case_match eqn:E|case_match eqn:E; [|case_match eqn:E2]|];
    intros [= <- <-]; b2p.
  - destruct (earliest_hold _) as [t|] eqn:Eh; [by apply earliest_hold_future in Eh|].
    apply list_min_None in Eh. rewrite in_use_no_holds in E by (done || (simpl; lia)).
    simpl in *. lia.
  - done.
  - destruct (earliest_hold _) as [t|] eqn:Eh; [by apply earliest_hold_future in Eh|].
    apply list_min_None in Eh. apply andb_false_iff in E as [E|E]; b2p; [lia|].
    rewrite Eh in E. by apply bool_decide_eq_false in E.
  - simpl in *. lia.
Qed.

Lemma counts_length ps : count_plain ps + count_probe ps = Z.of_nat (length ps).
Proof.
  induction ps as [|p ps IH]; [done|].
  rewrite count_plain_cons, count_probe_cons. cbn [length]. destruct (permit_probe p); lia.
Qed.

Lemma counts_in_flight ps ls :
  1 <= count_plain ps + count_probe ps + count_poll_probe ls -> ps <> [] \/ ls <> [].
Proof. destruct ps, ls; auto. Qed.

(** ** Properties *)

(** [C5] In every reachable state of the gate the limit is between 0 and 4, it
    is 0 exactly while the breaker is not closed, the [active] counter is the
    number of permits in flight (so no [u32] subtraction underflows), and at
    most five background requests are in flight: four ordinary ones and the
    breaker's probe. *)
Theorem gate_reachable_bounded w :
  reachable w ->
  0 <= limit (gate w) <= MAX_LIMIT /\
  (breaker (gate w) = Closed <-> 1 <= limit (gate w)) /\
  active (gate w) = Z.of_nat (length (permits w)) /\
  Z.of_nat (length (permits w)) <= MAX_LIMIT + 1.
Proof.
  intros Hr%reachable_ok. pose proof (slots_active_small _ _ _ _ Hr) as Hs.
  destruct Hr as [Ha Hn Hl Hb Hp Hpl Hf].
  pose proof (counts_length (permits w)) as Hlen.
  repeat split; try lia; destruct (breaker (gate w)); intros; (congruence || lia).
Qed.

(** The circuit breaker has exactly one probe in flight while it is
    probing (a background permit or a long-poll) and none otherwise. *)
Theorem gate_single_probe w :
  reachable w ->
  count_probe (permits w) + count_poll_probe (polls w) =
    match breaker (gate w) with Probing _ => 1 | _ => 0 end.
Proof. intros Hr%reachable_ok. apply Hr. Qed.

(** No lost wake-up: a background request that has to wait either has a
    deadline strictly in the future, or something is in flight whose end wakes
    it, or an earlier request is in line before it. *)
Theorem gate_waiter_has_waker w id g' d :
  reachable w -> id ∈ map fst (queue (gate w)) ->
  acquire_look id (clock w) (gate w) = (g', Wait d) ->
  match d with
  | Some t => clock w < t
  | None => permits w <> [] \/ polls w <> [] \/
            exists id' q, map fst (queue (gate w)) = id' :: q /\ id' < id
  end.
Proof.
  intros Hr Hin Hlook. pose proof (reachable_ok _ Hr) as Hok.
  destruct (reachable_fifo _ Hr) as [Hs _ _]. unfold line in Hs.
  apply StronglySorted_app_1_r in Hs. unfold acquire_look in Hlook.
  case_bool_decide as Hhead.
  - destruct (admission _ _) as [g1 a] eqn:Ea. destruct a; simplify_eq.
    apply admission_wait_spec with (1 := Hok) in Ea. destruct d; [done|].
    apply counts_in_flight in Ea. tauto.
  - simplify_eq. do 2 right. destruct (queue (gate w)) as [|[i t] q]; simplify_eq/=.
    { by apply not_elem_of_nil in Hin. }
    exists i, (map fst q). split; [done|].
    apply StronglySorted_inv in Hs as [_ Hall]. rewrite Forall_forall in Hall.
    apply elem_of_cons in Hin as [->|Hin]; [congruence|by apply Hall].
Qed.

(** First come, first served: background requests are admitted in strictly
    increasing order of their place in line, and nobody admitted overtook a
    request still waiting. *)
Theorem gate_fifo w :
  reachable w ->
  StronglySorted Z.lt (admitted w) /\
  (forall a q, a ∈ admitted w -> q ∈ map fst (queue (gate w)) -> a < q).
Proof.
  intros [Hs _ _]%reachable_fifo. unfold line in Hs. split.
  - by apply StronglySorted_app_1_l in Hs.
  - intros a q Ha Hq. exact (StronglySorted_app_1_elem_of _ _ _ _ _ Hs Ha Hq).
Qed.

(** Facts behind the remaining properties. *)

Lemma halve_cases now ep floor s :
  halve now ep floor s = s \/
  (ep = epoch s /\ breaker s = Closed /\
   limit (halve now ep floor s) = Z.max (limit s / 2) floor /\
   epoch (halve now ep floor s) = wrap64 (epoch s + 1)).
Proof.
  unfold halve. destruct (ep =? epoch s) eqn:E1; [|by left]. b2p.
  case_bool_decide; [|by left]. cbn [negb orb].
  case_match; [by left|right]. repeat split; auto; by case_match.
Qed.

Lemma count_fast_mono s :
  limit s <= limit (count_fast s) /\ epoch (count_fast s) = epoch s /\
  breaker (count_fast s) = breaker s.
Proof. unfold count_fast. repeat case_match; simpl; repeat split; lia. Qed.

Lemma push_hold_fields now o s :
  limit (push_hold now o s) = limit s /\ epoch (push_hold now o s) = epoch s /\
  breaker (push_hold now o s) = breaker s /\ active (push_hold now o s) = active s /\
  held (push_hold now o s) = held s ++ (if decide (o = TimedOut) then [now + TIMEOUT_HOLD] else []).
Proof.
  unfold push_hold. case_bool_decide; case_decide; try done. by rewrite app_nil_r.
Qed.

(** One ordinary request ending: it halves the limit at most once, and only in
    its own epoch. *)
Lemma permit_finish_cases now p o s :
  permit_probe p = false ->
  (limit s <= limit (permit_finish now p o s) /\ epoch (permit_finish now p o s) = epoch s) \/
  (permit_epoch p = epoch s /\ limit (permit_finish now p o s) = limit s / 2 /\
   epoch (permit_finish now p o s) = wrap64 (epoch s + 1) /\ 0 <= limit s / 2) \/
  limit s < 0.
Proof.
  intros Hp. destruct (decide (0 <= limit s)) as [Hpos|]; [|right; right; lia].
  assert (0 <= limit s / 2) as Hhalf by (apply Z.div_pos; lia).
  unfold permit_finish, gate_release, gate_finish. rewrite Hp.
  set (s1 := set_active _ s).
  destruct (push_hold_fields now o s1) as (Hl & He & Hb & _ & _).
  destruct o; try (left; split; [simpl; lia|done]); cbv zeta; rewrite Hb;
    destruct (breaker s1) eqn:Eb; try (left; split; rewrite ?Hl, ?He; simpl; [lia|done]).
  - case_match; [|left; split; rewrite ?Hl, ?He; simpl; [lia|done]].
    left. destruct (count_fast_mono (push_hold now Success s1)) as (H1 & H2 & _).
    rewrite H2, He. rewrite Hl in H1. simpl in *. split; [lia|done].
  - destruct (halve_cases now (permit_epoch p) 0 (push_hold now TimedOut s1))
      as [->|(E1 & _ & E2 & E3)]; [left; rewrite Hl, He; simpl; split; [lia|done]|].
    right; left. rewrite E2, E3, E1, Hl, He. simpl in *. repeat split; lia.
  - destruct (halve_cases now (permit_epoch p) 0 (push_hold now Overloaded s1))
      as [->|(E1 & _ & E2 & E3)]; [left; rewrite Hl, He; simpl; split; [lia|done]|].
    right; left. rewrite E2, E3, E1, Hl, He. simpl in *. repeat split; lia.
Qed.

(** A burst: requests of one epoch ending one after the other. *)
Definition finish_all (s : State) (ends : list (Z * Permit * Outcome)) : State :=
  foldl (fun s '(now, p, o) => permit_finish now p o s) s ends.

Lemma finish_all_stale e s ends :
  0 <= limit s -> epoch s <> e ->
  Forall (fun '(_, p, _) => permit_epoch p = e /\ permit_probe p = false) ends ->
  limit s <= limit (finish_all s ends) /\ epoch (finish_all s ends) = epoch s.
Proof.
  intros Hl He Hall. revert s Hl He. induction Hall as [|[[now p] o] ends [Hep Hpp] _ IH];
    intros s Hl He; [split; [reflexivity|done]|]. simpl.
  destruct (permit_finish_cases now p o s Hpp) as [[H1 H2]|[(H1 & _)|?]]; [|congruence|lia].
  destruct (IH (permit_finish now p o s)) as [I1 I2]; [lia|congruence|].
  split; [lia|congruence].
Qed.

(** One burst counts once: however many requests that started in the same
    epoch fail, in whatever order and with whatever successes between them, the
    limit is halved at most once and the epoch advances at most once. *)
Theorem gate_burst_halves_once e s ends :
  0 <= limit s -> 0 <= epoch s < 2 ^ 64 ->
  Forall (fun '(_, p, _) => permit_epoch p = e /\ permit_probe p = false) ends ->
  limit s / 2 <= limit (finish_all s ends) /\
  (epoch (finish_all s ends) = epoch s \/ epoch (finish_all s ends) = wrap64 (epoch s + 1)).
Proof.
  intros Hl He Hall.
  enough (forall h e0, h <= limit s / 2 -> epoch s = e0 ->
    h <= limit (finish_all s ends) /\
    (epoch (finish_all s ends) = e0 \/ epoch (finish_all s ends) = wrap64 (e0 + 1))) as Hgen
    by (by apply Hgen).
  intros h e0 Hh Hes. rewrite Hes in He. revert s Hl Hes Hh.
  induction Hall as [|[[now p] o] ends [Hep Hpp] Hall IH]; intros s Hl Hes Hh.
  { split; [|by left]. simpl. pose proof (Z.div_le_upper_bound (limit s) 2 (limit s)). lia. }
  simpl. destruct (permit_finish_cases now p o s Hpp) as [[H1 H2]|[(H1 & H2 & H3 & H4)|?]]; [|..|lia].
  - apply IH; [lia|congruence|]. etransitivity; [exact Hh|]. by apply Z.div_le_mono.
  - destruct (finish_all_stale e (permit_finish now p o s) ends) as [I1 I2]; try done; [lia|..].
    + rewrite H3, Hes, <- Hep, H1, Hes. by apply wrap64_succ_neq.
    + split; [lia|]. right. congruence.
Qed.

(** An interactive call never takes a slot, never opens the breaker, and
    can lower the limit at most to half and never below 1. *)
Theorem gate_interactive_harmless now ep ign o s :
  1 <= limit s ->
  let s' := interactive_finish now ep ign o s in
  breaker s' = breaker s /\ active s' = active s /\ held s' = held s /\ queue s' = queue s /\
  1 <= limit s' <= limit s /\ limit s / 2 <= limit s' /\
  (o = TimedOut -> ign = true -> s' = s) /\
  (o <> TimedOut -> o <> Overloaded -> s' = s).
Proof.
  intros Hl. cbv zeta.
  pose proof (Z.div_le_upper_bound (limit s) 2 (limit s) ltac:(lia) ltac:(lia)) as Hd.
  unfold interactive_finish, report_interactive. case_match eqn:E.
  { repeat split; auto; lia. }
  assert (o = TimedOut -> ign = true -> False) as Hign.
  { intros -> ->. by rewrite bool_decide_eq_true_2 in E. }
  assert (forall s', s' = halve now ep 1 s ->
    breaker s' = breaker s /\ active s' = active s /\ held s' = held s /\ queue s' = queue s /\
    1 <= limit s' <= limit s /\ limit s / 2 <= limit s') as Hh.
  { intros s' ->. unfold halve. case_match; [repeat split; lia|].
    case_match; [repeat split; lia|]. destruct (Z.eqb_spec (Z.max (limit s / 2) 1) 0); [lia|].
    simpl. repeat split; lia. }
  destruct o; try (repeat split; auto; lia);
    destruct (Hh _ eq_refl) as (H1 & H2 & H3 & H4 & H5 & H6);
    repeat split; auto; try lia; intros; try done; exfalso; auto.
Qed.

(** A timed-out request keeps its slot for [TIMEOUT_HOLD]: it goes from
    active to held, it is still held at every instant before the hold ends (so
    an open breaker does not probe before then), and released from that instant
    on. *)
Theorem gate_timeout_keeps_slot now p s t :
  let s' := permit_finish now p TimedOut s in
  active s' = wrap32 (active s - 1) /\
  held s' = held s ++ [now + TIMEOUT_HOLD] /\
  (t < now + TIMEOUT_HOLD ->
     now + TIMEOUT_HOLD ∈ held (release_expired_holds t s') /\
     forall ep, (admission t s').2 <> Admit ep true) /\
  (now + TIMEOUT_HOLD <= t -> Forall (fun h => h <= t) (held s) ->
     held (release_expired_holds t s') = []).
Proof.
  cbv zeta. unfold permit_finish, gate_finish.
  set (s1 := set_active _ s).
  assert (forall s', active s' = active s1 -> held s' = held s ++ [now + TIMEOUT_HOLD] ->
    active s' = wrap32 (active s - 1) /\ held s' = held s ++ [now + TIMEOUT_HOLD] /\
    (t < now + TIMEOUT_HOLD ->
     now + TIMEOUT_HOLD ∈ held (release_expired_holds t s') /\
     forall ep, (admission t s').2 <> Admit ep true) /\
    (now + TIMEOUT_HOLD <= t -> Forall (fun h => h <= t) (held s) ->
     held (release_expired_holds t s') = [])) as Hgen.
  { intros s' Ha Hh. split; [done|]. split; [done|]. split.
    - intros Ht. assert (now + TIMEOUT_HOLD ∈ held (release_expired_holds t s')) as Hin.
      { apply list_elem_of_filter. split; [lia|]. rewrite Hh. set_solver. }
      split; [done|]. intros ep. unfold admission.
      destruct (breaker (release_expired_holds t s')); [by case_match|..|done].
      rewrite bool_decide_eq_false_2, andb_false_r; [by case_match|].
      intros E. rewrite E in Hin. by apply not_elem_of_nil in Hin.
    - intros Ht Hall. cbn [held release_expired_holds set_held]. rewrite Hh.
      apply filter_nil_iff. apply Forall_app; split; [|repeat constructor; lia].
      eapply Forall_impl; [exact Hall|]. simpl. lia. }
  destruct (push_hold_fields now TimedOut s1) as (_ & _ & _ & Hpa & Hph).
  rewrite decide_True in Hph by done.
  apply Hgen.
  - destruct (permit_probe p); [unfold finish_probe; by case_match|].
    case_match; try done. unfold halve. by repeat case_match.
  - destruct (permit_probe p); [unfold finish_probe; by case_match|].
    case_match; try done. unfold halve. by repeat case_match.
Qed.

(** The status endpoint's [next_probe_at] is exact: while the breaker is
    open, a look at the gate at instant [t] hands out the probe if and only if
    [next_probe_at] is not after [t] on the wall clock. *)
Theorem snapshot_next_probe_exact wall now t s oa until :
  breaker s = Open oa until -> now <= t ->
  match snap_breaker (snapshot wall now s).2 with
  | SnapOpen _ next =>
      (exists s' ep, admission t (snapshot wall now s).1 = (s', Admit ep true)) <->
      next <= wall_at wall now t
  | _ => False
  end.
Proof.
  intros Hb Ht. unfold snapshot. cbn [fst snd snap_breaker].
  set (s1 := release_expired_holds now s).
  assert (breaker s1 = Open oa until) as Hb1 by done. rewrite Hb1.
  set (m := foldl Z.max until (held s1)).
  assert (m <= t <-> wall_at wall now m <= wall_at wall now t) as <-.
  { unfold wall_at. repeat case_match; b2p; lia. }
  unfold m. rewrite foldl_max_le. unfold admission.
  change (breaker (release_expired_holds t s1)) with (breaker s1). rewrite Hb1.
  assert (held (release_expired_holds t s1) = [] <-> Forall (fun h => h <= t) (held s1)) as Hh.
  { cbn [held release_expired_holds set_held]. rewrite filter_nil_iff.
    apply Forall_proper; [|done]. intros x. lia. }
  rewrite <- Hh. case_match eqn:E.
  - apply andb_true_iff in E as [E1 E2%bool_decide_eq_true]. b2p. split; [done|].
    intros _. by eexists _, _.
  - split; [intros (s' & ep & H'); by case_match|]. intros [H1 H2].
    rewrite bool_decide_eq_true_2, andb_true_r in E by done. b2p. lia.
Qed.

(** The open period doubles from one minute with every failed probe until
    it stays at thirty minutes; it never shrinks and never overflows. *)
Theorem cooldown_schedule r :
  0 <= r ->
  cooldown r = (if r <=? 4 then secs (60 * 2 ^ r) else secs (30 * 60)) /\
  COOLDOWN <= cooldown r <= COOLDOWN_MAX /\ cooldown r <= cooldown (r + 1).
Proof.
  intros Hr.
  assert (forall r, 0 <= r -> cooldown r = (if r <=? 4 then secs (60 * 2 ^ r) else secs (30 * 60)))
    as Hc.
  { clear. intros r Hr. case_match eqn:E; b2p.
    - assert (r = 0 \/ r = 1 \/ r = 2 \/ r = 3 \/ r = 4) as Hcases by lia.
      by destruct Hcases as [->|[->|[->|[->| ->]]]].
    - assert (5 <= Z.min r 16 <= 16) as Hm by lia. unfold cooldown.
      rewrite Z.shiftl_1_l.
      assert (2 ^ 5 <= 2 ^ Z.min r 16) by (apply Z.pow_le_mono_r; lia).
      assert (2 ^ Z.min r 16 <= 2 ^ 16) by (apply Z.pow_le_mono_r; lia).
      unfold dur_saturating_mul. change COOLDOWN with 60000000000.
      change COOLDOWN_MAX with 1800000000000. change (secs (30 * 60)) with 1800000000000.
      change dur_max with 18446744073709551615999999999.
      change (2 ^ 5) with 32 in *. change (2 ^ 16) with 65536 in *. lia. }
  split; [by apply Hc|]. rewrite !Hc by lia.
  unfold COOLDOWN, COOLDOWN_MAX, secs, nanos_per_sec.
  destruct (Z.leb_spec r 4).
  - assert (r = 0 \/ r = 1 \/ r = 2 \/ r = 3 \/ r = 4) as Hcases by lia.
    destruct Hcases as [->|[->|[->|[->| ->]]]]; vm_compute; intuition congruence.
  - replace (r + 1 <=? 4) with false by (symmetry; apply Z.leb_gt; lia). lia.
Qed.

(** Recovery: once the cooldown is over and every held slot is released,
    the first background request in line is let out as the probe, and an answer
    to it (even a refusal) closes the breaker at limit 1. *)
Theorem gate_recovers w oa until id since q tmo now o :
  reachable w -> fits w ->
  breaker (gate w) = Open oa until -> until <= clock w ->
  Forall (fun h => h <= clock w) (held (gate w)) ->
  queue (gate w) = (id, since) :: q -> o = Success \/ o = Refused ->
  exists g' ep, acquire_look id (clock w) (gate w) = (g', Admit ep true) /\
    breaker g' = Probing oa /\ queue g' = q /\
    let g'' := permit_finish now (mkPermit (clock w) tmo ep true) o g' in
    breaker g'' = Closed /\ limit g'' = 1 /\ active g'' = active (gate w) /\ reopenings g'' = 0.
Proof.
  intros Hr%reachable_ok Hfit Hb Hu Hh Hq Ho.
  pose proof (slots_active_small _ _ _ _ Hr) as Hs. unfold MAX_LIMIT in *.
  assert (admission (clock w) (gate w) =
    (set_breaker (Probing oa) (reopenings (gate w)) (release_expired_holds (clock w) (gate w)),
     Admit (epoch (gate w)) true)) as Hadm.
  { unfold admission.
    change (breaker (release_expired_holds (clock w) (gate w))) with (breaker (gate w)).
    rewrite Hb. replace (until <=? clock w) with true by (symmetry; by apply Z.leb_le).
    rewrite bool_decide_eq_true_2; [done|].
    cbn [held release_expired_holds set_held]. apply filter_nil_iff.
    eapply Forall_impl; [exact Hh|]. simpl. lia. }
  eexists _, _. unfold acquire_look. rewrite Hq. cbn [head fmap option_fmap option_map fst].
  rewrite bool_decide_eq_true_2, Hadm by done. split; [reflexivity|]. split; [done|].
  split; [simpl; by rewrite Hq|]. cbv zeta.
  assert (wrap32 (wrap32 (active (gate w) + 1) - 1) = active (gate w)) as Hw.
  { rewrite (wrap32_small (active (gate w) + 1)) by lia. rewrite wrap32_small by lia. lia. }
  destruct Ho as [-> | ->]; cbn -[wrap32]; by rewrite Hw.
Qed.

(** ** Concrete runs

    [busy_world]: two requests in flight and a third in line.  [open_world]:
    two failures in a row opened the breaker, a request waits, and the cooldown
    has passed. *)

Definition minute : Z := secs 60.

Definition busy_world : world :=
  mkWorld
    (mkState 2 2 [] 0 0 Closed 0 [(3, 0)] ∅ 3)
    [mkPermit 0 minute 0 false; mkPermit 0 minute 0 false] [] 0 [1; 2].

Definition open_world : world :=
  mkWorld (mkState 0 0 [] 0 2 (Open 0 minute) 0 [(3, 0)] ∅ 3) [] [] minute [1; 2].

Lemma gate_run w1 w0 w2 :
  fits w0 -> gate_step w0 w1 -> rtc fit_step w1 w2 -> rtc fit_step w0 w2.
Proof. intros Hf Hs. by apply rtc_l. Qed.

(** A gate with [n] slots taken, a queue and the next id. *)
Definition demo_gate (l n ep : Z) (b : Breaker) (q : list (Z * Z)) (id : Z) : State :=
  mkState l n [] 0 ep b 0 q ∅ id.

Definition demo_permit (ep : Z) : Permit := mkPermit 0 minute ep false.

Ltac demo_run g ps c ad tac :=
  apply (gate_run (mkWorld g ps [] c ad)); [split; vm_compute; reflexivity|tac|].

Ltac demo_admit ps ad id :=
  apply (step_look_admit _ ps _ _ ad id); [vm_compute; set_solver|vm_compute; reflexivity|done].

Lemma busy_world_reachable : reachable busy_world.
Proof.
  exists 0.
  demo_run (demo_gate 2 0 0 Closed [(1, 0)] 1) (@nil Permit) 0 (@nil Z) ltac:(apply step_enter).
  demo_run (demo_gate 2 0 0 Closed [(1, 0); (2, 0)] 2) (@nil Permit) 0 (@nil Z)
    ltac:(apply step_enter).
  demo_run (demo_gate 2 0 0 Closed [(1, 0); (2, 0); (3, 0)] 3) (@nil Permit) 0 (@nil Z)
    ltac:(apply step_enter).
  demo_run (demo_gate 2 1 0 Closed [(2, 0); (3, 0)] 3) [demo_permit 0] 0 [1]
    ltac:(demo_admit (@nil Permit) (@nil Z) 1).
  demo_run (demo_gate 2 2 0 Closed [(3, 0)] 3) [demo_permit 0; demo_permit 0] 0 [1; 2]
    ltac:(demo_admit [demo_permit 0] [1] 2).
  apply rtc_refl.
Qed.

Lemma open_world_reachable : reachable open_world.
Proof.
  exists 0.
  demo_run (demo_gate 2 0 0 Closed [(1, 0)] 1) (@nil Permit) 0 (@nil Z) ltac:(apply step_enter).
  demo_run (demo_gate 2 1 0 Closed [] 1) [demo_permit 0] 0 [1] ltac:(demo_admit (@nil Permit) (@nil Z) 1).
  demo_run (demo_gate 1 0 1 Closed [] 1) (@nil Permit) 0 [1]
    ltac:(exact (step_finish (demo_gate 2 1 0 Closed [] 1) [] (demo_permit 0) [] [] 0 [1] Overloaded)).
  demo_run (demo_gate 1 0 1 Closed [(2, 0)] 2) (@nil Permit) 0 [1] ltac:(apply step_enter).
  demo_run (demo_gate 1 1 1 Closed [] 2) [demo_permit 1] 0 [1; 2]
    ltac:(demo_admit (@nil Permit) [1] 2).
  demo_run (demo_gate 0 0 2 (Open 0 minute) [] 2) (@nil Permit) 0 [1; 2]
    ltac:(exact (step_finish (demo_gate 1 1 1 Closed [] 2) [] (demo_permit 1) [] [] 0 [1; 2] Overloaded)).
  demo_run (demo_gate 0 0 2 (Open 0 minute) [(3, 0)] 3) (@nil Permit) 0 [1; 2]
    ltac:(apply step_enter).
  demo_run (demo_gate 0 0 2 (Open 0 minute) [(3, 0)] 3) (@nil Permit) minute [1; 2]
    ltac:(apply step_tick; done).
  apply rtc_refl.
Qed.

Lemma gate_reachable_bounded_witness :
  reachable busy_world /\ active (gate busy_world) = 2 /\
  Z.of_nat (length (permits busy_world)) <= 5.
Proof.
  split; [exact busy_world_reachable|]. split; [reflexivity|].
  apply (gate_reachable_bounded busy_world busy_world_reachable).
Defined.

Lemma gate_single_probe_witness :
  count_probe (permits open_world) + count_poll_probe (polls open_world) = 0.
Proof. exact (gate_single_probe open_world open_world_reachable). Defined.

Lemma gate_waiter_has_waker_witness :
  permits busy_world <> [] \/ polls busy_world <> [] \/
  exists id' q, map fst (queue (gate busy_world)) = id' :: q /\ id' < 3.
Proof.
  apply (gate_waiter_has_waker busy_world 3 (gate busy_world) None busy_world_reachable).
  - vm_compute. set_solver.
  - vm_compute. reflexivity.
Defined.

Lemma gate_fifo_witness : StronglySorted Z.lt [1; 2] /\ (forall a q, a ∈ [1; 2] -> q ∈ [3] -> a < q).
Proof. exact (gate_fifo busy_world busy_world_reachable). Defined.

Lemma gate_burst_halves_once_witness :
  let ends := [(1, mkPermit 0 minute 0 false, Overloaded); (2, mkPermit 0 minute 0 false, TimedOut)] in
  limit (finish_all (gate busy_world) ends) = 1 /\ 1 <= limit (finish_all (gate busy_world) ends).
Proof.
  split; [vm_compute; reflexivity|].
  apply (gate_burst_halves_once 0 (gate busy_world)); [vm_compute; congruence|vm_compute; intuition congruence|].
  repeat constructor.
Defined.

Lemma gate_interactive_harmless_witness :
  breaker (interactive_finish 0 0 false Overloaded (gate busy_world)) = Closed.
Proof. apply (gate_interactive_harmless 0 0 false Overloaded (gate busy_world)). vm_compute. congruence. Defined.

Lemma snapshot_next_probe_exact_witness :
  (exists s' ep, admission minute (snapshot 0 0 (gate open_world)).1 = (s', Admit ep true)) <->
  minute <= minute.
Proof. exact (snapshot_next_probe_exact 0 0 minute (gate open_world) 0 minute eq_refl ltac:(done)). Defined.

Lemma cooldown_schedule_witness : cooldown 3 = secs (60 * 2 ^ 3).
Proof. apply (cooldown_schedule 3). lia. Defined.

Lemma gate_recovers_witness :
  exists g' ep, acquire_look 3 minute (gate open_world) = (g', Admit ep true).
Proof.
  destruct (gate_recovers open_world 0 minute 3 0 [] minute minute Refused) as (g' & ep & H & _).
  - exact open_world_reachable.
  - split; vm_compute; reflexivity.
  - reflexivity.
  - vm_compute. congruence.
  - constructor.
  - reflexivity.
  - right. reflexivity.
  - exists g', ep. exact H.
Defined.
