(* ===== verification/PushDecision.v ===== *)
(** * Which messages wake a phone

    Models [crates/axon-sync/src/push/message.rs] (which timeline event is an
    eligible message) and [crates/axon-sync/src/push/decision.rs] (the case list
    of ADR 0113 as a pure function), with the case list itself as a relation. *)

From stdpp Require Import base gmap sets list strings.
From Stdlib Require Import ZArith Lia.
From S2P Require Import Prelude Text.

(** ** push/message.rs *)

Inductive PushClass := Notify | Silent | Unknown.

#[export] Instance PushClass_eq_dec : EqDecision PushClass.
Proof. solve_decision. Defined.

Record PushMessage := {
  event_id : text;
  sender : text;
  body : text;
  thread_root_id : option text;
  class : PushClass;
}.

#[export] Instance PushMessage_eq_dec : EqDecision PushMessage.
Proof. solve_decision. Defined.

(** [collapse_whitespace]: the loop, with [out] and [pending] as its state. *)
Fixpoint collapse_loop (out : text) (pending : bool) (cs : text) : text :=
  match cs with
  | [] => out
  | ch :: cs =>
      if is_whitespace ch then collapse_loop out true cs
      else
        let out := if pending && negb (bool_decide (out = [])) then out ++ [32] else out in
        collapse_loop (out ++ [ch]) false cs
  end.
Definition collapse_whitespace (t : text) : text := collapse_loop [] false t.

(** [consider_event]'s [thread_root_id]. *)
Definition thread_root (rel_type event : option json) : option text :=
  if bool_decide (rel_type ≫= as_str = Some (t! "m.thread")) then
    id ← event ≫= as_str; if bool_decide (id = []) then None else Some id
  else None.

(** [consider_event]: [None] when the event must not wake anyone. *)
Definition consider_event (raw : json) (own_user_id : text) (cls : PushClass)
    : option PushMessage :=
  if negb (bool_decide ((jget (t! "type") raw ≫= as_str) = Some (t! "m.room.message"))) then None else
  content ← jget (t! "content") raw ≫= as_object;
  snd ← jget (t! "sender") raw ≫= as_str;
  if bool_decide (snd = own_user_id) then None else
  eid ← jget (t! "event_id") raw ≫= as_str;
  if bool_decide (eid = []) then None else
  let relates := assoc (t! "m.relates_to") content ≫= as_object in
  let rel_type := relates ≫= assoc (t! "rel_type") in
  if bool_decide (rel_type ≫= as_str = Some (t! "m.replace")) then None else
  let root := thread_root rel_type (relates ≫= assoc (t! "event_id")) in
  let bdy := default [] (collapse_whitespace <$> (assoc (t! "body") content ≫= as_str)) in
  if bool_decide (bdy = []) then None else
  Some {| event_id := eid; sender := snd; body := bdy; thread_root_id := root; class := cls |}.

(** [at_localpart]: [@localpart] of a Matrix user id. *)
Definition at_localpart (user_id : text) : text :=
  match strip_prefix_char 64 user_id with
  | None => user_id
  | Some rest => 64 :: default rest (fst <$> split_once 58 rest)
  end.

(** ** push/decision.rs *)

Record RoomState := {
  seeded : bool;
  pair : Z * Z;
  slot : option PushMessage;
  unpaired : option (Z * Z);
}.

Definition unseeded (p : Z * Z) : RoomState :=
  {| seeded := false; pair := p; slot := None; unpaired := None |}.

Record Decision := {
  state : RoomState;
  send : option PushMessage;
  unknown_ids : list text;
  notification_fell_to : option Z;
}.

(** [messages.iter().rev().find(|m| m.class == class)]. *)
Definition latest (messages : list PushMessage) (c : PushClass) : option PushMessage :=
  snd <$> list_find (fun m => class m = c) (rev messages).

(** [Option::or]. *)
Definition option_or {A} (a b : option A) : option A :=
  match a with Some _ => a | None => b end.

Definition pair_rose (before after : Z * Z) : bool :=
  (before.1 <? after.1) || (before.2 <? after.2).
Definition pair_fell (before after : Z * Z) : bool :=
  negb (pair_rose before after) && ((after.1 <? before.1) || (after.2 <? before.2)).

(** The seeded half of [decide]: the if-else chain over (slot, unpaired, send). *)
Definition decide_seeded (st : RoomState) (after : Z * Z) (notifying unknown : option PushMessage)
    : option PushMessage * option (Z * Z) * option PushMessage :=
  let rose := pair_rose (pair st) after in
  let fell := pair_fell (pair st) after in
  if rose && bool_decide (is_Some notifying) then (None, None, notifying)
  else if rose && bool_decide (is_Some (slot st)) then (None, None, slot st)
  else if rose && bool_decide (is_Some unknown) then (slot st, None, unknown)
  else if rose then (slot st, Some after, None)
  else if negb rose && negb fell && bool_decide (unpaired st = Some after)
          && bool_decide (is_Some notifying) then (None, None, notifying)
  else if negb rose && negb fell && bool_decide (is_Some notifying)
  then (notifying, unpaired st, None)
  else if fell && (after.1 =? 0) then (None, None, None)
  else if fell && (0 <? after.1) && bool_decide (is_Some notifying) then (None, None, notifying)
  else (slot st, unpaired st, None).

Definition decide (st : RoomState) (after : option (Z * Z)) (messages : list PushMessage)
    : Decision :=
  let ids := map event_id (filter (fun m => class m = Unknown) messages) in
  let notifying := latest messages Notify in
  let unknown := latest messages Unknown in
  if negb (seeded st) then
    {| state := {| seeded := bool_decide (is_Some after); pair := default (pair st) after;
                   slot := option_or notifying (slot st); unpaired := None |};
       send := None; unknown_ids := ids; notification_fell_to := None |}
  else
    let a := default (pair st) after in
    let '(slot', unpaired', send') := decide_seeded st a notifying unknown in
    {| state := {| seeded := true; pair := a; slot := slot'; unpaired := unpaired' |};
       send := send'; unknown_ids := ids;
       notification_fell_to := if a.1 <? (pair st).1 then Some a.1 else None |}.

(** A room's history: its observations in the order the router applied them. *)
Record Obs := { o_after : option (Z * Z); o_messages : list PushMessage }.

Fixpoint run_room (st : RoomState) (obs : list Obs) : RoomState * list PushMessage :=
  match obs with
  | [] => (st, [])
  | o :: obs =>
      let d := decide st (o_after o) (o_messages o) in
      let '(st', sends) := run_room (state d) obs in
      (st', option_list (send d) ++ sends)
  end.

Definition room_sends (st : RoomState) (obs : list Obs) : list PushMessage := (run_room st obs).2.
Definition observed (obs : list Obs) : list PushMessage := obs ≫= o_messages.

(** ** The case list of ADR 0113

    [newest ms c m]: [m] is the last message of class [c] in the observation. *)
Definition newest (ms : list PushMessage) (c : PushClass) (m : PushMessage) : Prop :=
  exists l1 l2, ms = l1 ++ m :: l2 /\ class m = c /\ Forall (fun m' => class m' <> c) l2.
Definition none_of (ms : list PushMessage) (c : PushClass) : Prop :=
  Forall (fun m => class m <> c) ms.

Definition rises (before after : Z * Z) : Prop := before.1 < after.1 \/ before.2 < after.2.
Definition falls (before after : Z * Z) : Prop :=
  ~ rises before after /\ (after.1 < before.1 \/ after.2 < before.2).

(** [adr0113 before slot unpaired after ms slot' unpaired' sent]: one line of the
    list per constructor, each with the condition the list states. *)
Inductive adr0113 (before : Z * Z) (sl : option PushMessage) (up : option (Z * Z))
    (after : Z * Z) (ms : list PushMessage)
    : option PushMessage -> option (Z * Z) -> option PushMessage -> Prop :=
| rise_notifying m :
    rises before after -> newest ms Notify m ->
    adr0113 before sl up after ms None None (Some m)
| rise_releases_slot m :
    rises before after -> none_of ms Notify -> sl = Some m ->
    adr0113 before sl up after ms None None (Some m)
| rise_unknown m :
    rises before after -> none_of ms Notify -> sl = None -> newest ms Unknown m ->
    adr0113 before sl up after ms None None (Some m)
| rise_unpaired :
    rises before after -> none_of ms Notify -> sl = None -> none_of ms Unknown ->
    adr0113 before sl up after ms None (Some after) None
| equal_claims_rise m :
    after = before -> up = Some after -> newest ms Notify m ->
    adr0113 before sl up after ms None None (Some m)
| equal_fills_slot m :
    after = before -> up <> Some after -> newest ms Notify m ->
    adr0113 before sl up after ms (Some m) up None
| equal_keeps :
    after = before -> none_of ms Notify ->
    adr0113 before sl up after ms sl up None
| fall_caught_up :
    falls before after -> after.1 = 0 ->
    adr0113 before sl up after ms None None None
| fall_with_message m :
    falls before after -> 0 < after.1 -> newest ms Notify m ->
    adr0113 before sl up after ms None None (Some m)
| fall_partial :
    falls before after -> 0 < after.1 -> none_of ms Notify ->
    adr0113 before sl up after ms sl up None.

(** ** Lemmas: the newest message of a class *)

Lemma latest_newest ms c m : latest ms c = Some m <-> newest ms c m.
Proof.
  unfold latest, newest. split.
  - intros ([i x] & Hf & [= <-])%fmap_Some.
    apply list_find_Some in Hf as (Hi & Hc & Hlt).
    apply list_elem_of_split_length in Hi as (l1 & l2 & Heq & Hlen).
    exists (rev l2), (rev l1). split; [|split; [done|]].
    + rewrite <- (rev_involutive ms), Heq, rev_app_distr. simpl. by rewrite <- app_assoc.
    + apply Forall_rev. rewrite Forall_lookup. intros j y Hj.
      apply Hlt with j; [|subst; by apply lookup_lt_Some in Hj].
      rewrite Heq. by apply lookup_app_l_Some.
  - intros (l1 & l2 & -> & Hc & Hf). rewrite rev_app_distr. cbn [rev]. rewrite <- !app_assoc.
    apply Forall_rev in Hf. rewrite list_find_app_r.
    + cbn [app list_find]. rewrite decide_True by done. done.
    + by apply list_find_None.
Qed.

Lemma latest_none ms c : latest ms c = None <-> none_of ms c.
Proof.
  unfold latest, none_of. rewrite fmap_None, list_find_None.
  split; intros H; [rewrite <- (rev_involutive ms)|]; by apply Forall_rev.
Qed.

Lemma latest_class ms c m : latest ms c = Some m -> class m = c /\ m ∈ ms.
Proof. intros (l1 & l2 & -> & Hc & _)%latest_newest. set_solver. Qed.

Lemma latest_filter ms c (P : PushMessage -> Prop) `{forall m, base.Decision (P m)} :
  (forall m, class m = c -> P m) -> latest (filter P ms) c = latest ms c.
Proof.
  intros HP. induction ms as [|m ms IH] using rev_ind; [done|].
  rewrite filter_app, filter_cons, filter_nil. unfold latest in *.
  destruct (base.decide (class m = c)) as [Hc|Hc].
  - rewrite decide_True by auto. rewrite !rev_app_distr. simpl. by rewrite !decide_True.
  - rewrite (rev_app_distr ms). simpl. rewrite (decide_False (P := class m = c)) by done.
    case_decide; [rewrite rev_app_distr; simpl; rewrite decide_False by done|rewrite app_nil_r];
      destruct (list_find _ (rev (filter P ms))) as [[]|],
        (list_find _ (rev ms)) as [[]|]; simpl in *; congruence.
Qed.

Lemma pair_rose_spec b a : pair_rose b a = true <-> rises b a.
Proof. unfold pair_rose, rises. rewrite orb_true_iff, !Z.ltb_lt. done. Qed.

Lemma pair_fell_spec b a : pair_fell b a = true <-> falls b a.
Proof.
  unfold pair_fell, falls. rewrite andb_true_iff, negb_true_iff, orb_true_iff, !Z.ltb_lt.
  rewrite <- pair_rose_spec. destruct (pair_rose b a); naive_solver.
Qed.

Lemma pair_trichotomy b a : rises b a \/ falls b a \/ a = b.
Proof.
  destruct a as [a1 a2], b as [b1 b2]. unfold falls, rises. cbn [fst snd].
  destruct (Z.lt_trichotomy a1 b1) as [|[->|]], (Z.lt_trichotomy a2 b2) as [|[->|]]; auto; lia.
Qed.

Lemma rises_irrefl b : ~ rises b b.
Proof. unfold rises. lia. Qed.
Lemma falls_irrefl b : ~ falls b b.
Proof. unfold falls. lia. Qed.

(** The chain of [decide_seeded] takes the constructor's branch, and each state
    has a constructor. *)
Lemma decide_seeded_sound st after ms s u o :
  0 <= after.1 ->
  decide_seeded st after (latest ms Notify) (latest ms Unknown) = (s, u, o) ->
  adr0113 (pair st) (slot st) (unpaired st) after ms s u o.
Proof.
  intros Hz. unfold decide_seeded.
  destruct (pair_rose (pair st) after) eqn:Hr;
    [apply pair_rose_spec in Hr|assert (~ rises (pair st) after) as Hnr
      by (rewrite <- pair_rose_spec; congruence)].
  - destruct (latest ms Notify) as [m|] eqn:HN; cbn.
    { intros [= <- <- <-]. apply latest_newest in HN. by constructor. }
    apply latest_none in HN.
    destruct (slot st) as [m|] eqn:HS; cbn.
    { intros [= <- <- <-]. by apply rise_releases_slot. }
    destruct (latest ms Unknown) as [m|] eqn:HU; cbn; intros [= <- <- <-].
    + apply latest_newest in HU. by apply rise_unknown.
    + apply latest_none in HU. by apply rise_unpaired.
  - destruct (pair_fell (pair st) after) eqn:Hf; cbn.
    + apply pair_fell_spec in Hf. destruct (Z.eqb_spec (after.1) 0); cbn.
      { intros [= <- <- <-]. by apply fall_caught_up. }
      rewrite (proj2 (Z.ltb_lt _ _)) by lia. cbn.
      destruct (latest ms Notify) as [m|] eqn:HN; cbn; intros [= <- <- <-].
      * apply latest_newest in HN. apply fall_with_message; [done|lia|done].
      * apply latest_none in HN. apply fall_partial; [done|lia|done].
    + assert (after = pair st) as He.
      { destruct (pair_trichotomy (pair st) after) as [?|[Hx%pair_fell_spec|?]];
          [done|congruence|done]. }
      destruct (latest ms Notify) as [m|] eqn:HN; cbn.
      * apply latest_newest in HN.
        case_bool_decide; cbn; intros [= <- <- <-]; [by apply equal_claims_rise|].
        by apply equal_fills_slot.
      * rewrite andb_false_r. apply latest_none in HN. intros [= <- <- <-]. by apply equal_keeps.
Qed.

(** What makes a constructor of [adr0113] unreachable together with another. *)
Ltac adr_clash :=
  exfalso; match goal with
  | H : rises ?b ?a, H' : falls ?b ?a |- _ => by apply H'
  | H : rises ?b ?b |- _ => by apply (rises_irrefl b)
  | H : falls ?b ?b |- _ => by apply (falls_irrefl b)
  | _ => lia
  | _ => congruence
  end.

Lemma newest_not_none ms c m : newest ms c m -> none_of ms c -> False.
Proof. rewrite <- latest_newest, <- latest_none. congruence. Qed.
Lemma newest_fun ms c m m' : newest ms c m -> newest ms c m' -> m = m'.
Proof. rewrite <- !latest_newest. congruence. Qed.

Lemma adr0113_deterministic b sl up a ms s u o s' u' o' :
  adr0113 b sl up a ms s u o -> adr0113 b sl up a ms s' u' o' -> (s, u, o) = (s', u', o').
Proof.
  intros H1 H2. destruct H1; inversion H2; subst;
    repeat match goal with
    | H : newest ?ms ?c ?m, H' : newest ?ms ?c ?m' |- _ =>
        pose proof (newest_fun _ _ _ _ H H'); subst; clear H'
    | H : newest ?ms ?c ?m, H' : none_of ?ms ?c |- _ => destruct (newest_not_none _ _ _ H H')
    end; first [congruence|adr_clash].
Qed.

(** ** Lemmas: where the messages go *)

Lemma decide_seeded_step st after ms :
  seeded st = true ->
  decide_seeded st (default (pair st) after) (latest ms Notify) (latest ms Unknown) =
    (slot (state (decide st after ms)), unpaired (state (decide st after ms)),
     send (decide st after ms)).
Proof.
  intros Hs. unfold decide. rewrite Hs. cbn [negb].
  by destruct (decide_seeded _ _ _ _) as [[s u] o].
Qed.

Lemma decide_seeded_shape st a n u s' u' o' :
  decide_seeded st a n u = (s', u', o') ->
  (o' = None \/ s' = None) /\
  (o' = None \/ o' = n \/ o' = slot st \/ o' = u) /\
  (s' = None \/ s' = n \/ s' = slot st).
Proof.
  unfold decide_seeded. intros H. repeat case_match; simplify_eq; auto 8.
  destruct (pair_rose _ _); [|done]. destruct (slot st); [done|auto 8].
Qed.

(** An observation sends at most one message, and then empties the slot; what
    it sends or slots comes from the observation or from the slot. *)
Lemma decide_origin st after ms :
  let d := decide st after ms in
  (send d = None \/ slot (state d) = None) /\
  (forall m, send d = Some m -> (m ∈ ms /\ class m <> Silent) \/ slot st = Some m) /\
  (forall m, slot (state d) = Some m -> (m ∈ ms /\ class m = Notify) \/ slot st = Some m).
Proof.
  assert (forall m c, latest ms c = Some m -> m ∈ ms /\ class m = c) as HL.
  { intros m c H%latest_class. tauto. }
  unfold decide. destruct (seeded st); cbn [negb state send slot].
  - destruct (decide_seeded _ _ _ _) as [[s' u'] o'] eqn:E. cbn [state send slot].
    apply decide_seeded_shape in E as (H1 & H2 & H3). split; [done|split].
    + intros m ->. destruct H2 as [?|[H2|[H2|H2]]]; [done|left|auto|left];
        symmetry in H2; apply HL in H2 as [? ->]; done.
    + intros m ->. destruct H3 as [?|[H3|H3]]; [done|left|auto]. symmetry in H3. auto.
  - destruct (latest ms Notify) as [n|] eqn:E; cbn; split; [auto|split|auto|split]; auto; try done.
    intros m [= ->]. auto.
Qed.

Definition ids (ms : list PushMessage) : list text := event_id <$> ms.

Lemma ids_app a b : ids (a ++ b) = ids a ++ ids b.
Proof. apply fmap_app. Qed.

Lemma elem_of_option_list {A} (o : option A) x : x ∈ option_list o <-> o = Some x.
Proof. destruct o; simpl; set_solver. Qed.

Lemma run_room_cons st o obs :
  run_room st (o :: obs) =
    let d := decide st (o_after o) (o_messages o) in
    ((run_room (state d) obs).1, option_list (send d) ++ (run_room (state d) obs).2).
Proof. cbn [run_room]. by destruct (run_room _ obs). Qed.

Lemma run_room_app st a b :
  run_room st (a ++ b) =
    ((run_room (run_room st a).1 b).1,
     (run_room st a).2 ++ (run_room (run_room st a).1 b).2).
Proof.
  revert st. induction a as [|o a IH]; intros st; [by destruct (run_room st b) eqn:E; cbn; rewrite E|].
  rewrite <- app_comm_cons, !run_room_cons. cbv zeta. rewrite IH. cbn. by rewrite <- app_assoc.
Qed.

Lemma sends_cons st o obs :
  room_sends st (o :: obs) =
    option_list (send (decide st (o_after o) (o_messages o)))
    ++ room_sends (state (decide st (o_after o) (o_messages o))) obs.
Proof. unfold room_sends. by rewrite run_room_cons. Qed.

Lemma sends_app st a b :
  room_sends st (a ++ b) = room_sends st a ++ room_sends (run_room st a).1 b.
Proof. unfold room_sends. by rewrite run_room_app. Qed.

Lemma sends_subseteq st obs m :
  m ∈ room_sends st obs ->
  slot st = Some m \/ (m ∈ observed obs /\ class m <> Silent).
Proof.
  revert st. induction obs as [|o obs IH]; intros st; [cbn; set_solver|].
  rewrite sends_cons, elem_of_app, elem_of_option_list. unfold observed. cbn [mbind list_bind].
  destruct (decide_origin st (o_after o) (o_messages o)) as (_ & Hs & Hsl).
  setoid_rewrite elem_of_app. intros [H|H].
  - destruct (Hs _ H) as [[? ?]|?]; auto.
  - destruct (IH _ H) as [H'|[? ?]]; [|auto]. destruct (Hsl _ H') as [[? Hc]|?]; auto.
    right. split; [auto|congruence].
Qed.

Lemma sends_nodup st obs :
  NoDup (ids (option_list (slot st) ++ observed obs)) -> NoDup (ids (room_sends st obs)).
Proof.
  revert st. induction obs as [|o obs IH]; intros st; [constructor|].
  rewrite sends_cons. unfold observed. cbn [mbind list_bind].
  fold (mbind (M := list) o_messages obs). fold (observed obs).
  set (d := decide st (o_after o) (o_messages o)).
  destruct (decide_origin st (o_after o) (o_messages o)) as (Hex & Hs & Hsl). fold d in Hex, Hs, Hsl.
  rewrite app_assoc, ids_app. intros (H1 & Hdis & H2)%NoDup_app.
  assert (forall m, m ∈ option_list (slot (state d)) ++ option_list (send d) ->
                    event_id m ∉ ids (observed obs)) as Hnew.
  { intros m Hm. apply Hdis. apply list_elem_of_fmap_2.
    rewrite elem_of_app, !elem_of_option_list in Hm. rewrite elem_of_app, elem_of_option_list.
    destruct Hm as [Hm|Hm]; [destruct (Hsl _ Hm) as [[]|]|destruct (Hs _ Hm) as [[]|]]; auto. }
  rewrite ids_app. apply NoDup_app. split; [|split].
  - destruct (send d); simpl; repeat constructor. set_solver.
  - intros x (m & -> & Hm)%list_elem_of_fmap (m' & He & Hm')%list_elem_of_fmap.
    rewrite elem_of_option_list in Hm.
    destruct Hex as [Hex|Hex]; [congruence|].
    destruct (sends_subseteq _ _ _ Hm') as [Hsm|[Hm2 _]]; [congruence|].
    apply (Hnew m); [rewrite elem_of_app, !elem_of_option_list; auto|].
    rewrite He. by apply list_elem_of_fmap_2.
  - apply IH. rewrite ids_app. apply NoDup_app. split; [|split; [|done]].
    + destruct (slot (state d)); simpl; repeat constructor. set_solver.
    + intros x (m & -> & Hm)%list_elem_of_fmap. apply Hnew. set_solver.
Qed.

Lemma seeded_step st after ms : seeded st = true -> seeded (state (decide st after ms)) = true.
Proof.
  intros H. unfold decide. rewrite H. cbn [negb]. by destruct (decide_seeded _ _ _ _) as [[] ?].
Qed.

Lemma seeded_run st obs : seeded st = true -> seeded (run_room st obs).1 = true.
Proof.
  revert st. induction obs as [|o obs IH]; intros st H; [done|].
  rewrite run_room_cons. cbn. apply IH. by apply seeded_step.
Qed.

(** ** Whitespace *)

Lemma join_snoc sep ws w : ws <> [] -> join sep (ws ++ [w]) = join sep ws ++ sep ++ w.
Proof.
  induction ws as [|w1 [|w2 ws] IH]; intros H; [done|done|].
  change (join sep (w1 :: w2 :: ws)) with (w1 ++ sep ++ join sep (w2 :: ws)).
  change (join sep ((w1 :: w2 :: ws) ++ [w])) with (w1 ++ sep ++ join sep ((w2 :: ws) ++ [w])).
  rewrite IH by done. by rewrite <- !app_assoc.
Qed.

Lemma words_from_app acc a c b :
  is_whitespace c = true -> words_from acc (a ++ c :: b) = words_from acc a ++ words_from [] b.
Proof.
  intros Hc. revert acc. induction a as [|x a IH]; intros acc; simpl.
  - rewrite Hc. by destruct acc.
  - destruct (is_whitespace x); [destruct acc; rewrite IH; done|apply IH].
Qed.

Lemma join_nil_iff sep ws : Forall (fun w => w <> []) ws -> join sep ws = [] <-> ws = [].
Proof.
  intros H. destruct H as [|w ws Hw]; [done|]. split; [|done]. simpl.
  destruct ws; [done|]. intros [? _]%app_eq_nil. done.
Qed.

Lemma words_from_nonempty acc t : Forall (fun w => w <> []) (words_from acc t).
Proof.
  revert acc. induction t as [|c t IH]; intros acc; simpl.
  - destruct acc; by repeat constructor.
  - destruct (is_whitespace c); [destruct acc; [apply IH|by constructor]|apply IH].
Qed.

(** The loop's state: [ws] are the finished words, [acc] the word being read. *)
Lemma collapse_loop_words ws acc t :
  Forall (fun w => w <> []) ws ->
  collapse_loop (join [32] (ws ++ match acc with [] => [] | _ => [acc] end))
    (match acc with [] => true | _ => false end) t
  = join [32] (ws ++ words_from acc t).
Proof.
  revert ws acc. induction t as [|c t IH]; intros ws acc Hws; [by destruct acc|].
  cbn [collapse_loop words_from]. destruct (is_whitespace c).
  - destruct acc as [|x acc].
    + apply (IH ws []). done.
    + change ((x :: acc) :: words_from [] t) with ([x :: acc] ++ words_from [] t).
      rewrite app_assoc. rewrite <- (IH (ws ++ [x :: acc]) []); [by rewrite app_nil_r|].
      apply Forall_app. split; [done|by repeat constructor].
  - rewrite <- IH by done. destruct acc as [|x acc]; cbn [app].
    + rewrite app_nil_r. f_equal. destruct ws as [|w ws]; [done|].
      cbn [andb]. rewrite bool_decide_eq_false_2 by (by rewrite join_nil_iff).
      cbn [negb]. by rewrite join_snoc, <- app_assoc.
    + f_equal. cbn [andb]. destruct ws as [|w ws]; [done|].
      rewrite !join_snoc by done. by rewrite <- !app_assoc.
Qed.

Lemma collapse_loop_start t : collapse_loop [] true t = collapse_whitespace t.
Proof.
  unfold collapse_whitespace. destruct t as [|c t]; [done|]. cbn [collapse_loop].
  by destruct (is_whitespace c).
Qed.

(** [collapse_whitespace] joins the text's words with single spaces. *)
Lemma collapse_words t : collapse_whitespace t = join [32] (split_whitespace t).
Proof. rewrite <- collapse_loop_start. apply (collapse_loop_words [] []). constructor. Qed.

Lemma words_of_word w acc :
  Forall (fun c => is_whitespace c = false) w -> acc ++ w <> [] ->
  words_from acc w = [acc ++ w].
Proof.
  intros H. revert acc. induction H as [|c w Hc _ IH]; intros acc Hne; simpl.
  - rewrite app_nil_r in *. by destruct acc.
  - rewrite Hc, IH by (rewrite <- app_assoc; exact Hne). by rewrite <- app_assoc.
Qed.

Lemma words_from_clean acc t :
  Forall (fun c => is_whitespace c = false) acc ->
  Forall (Forall (fun c => is_whitespace c = false)) (words_from acc t).
Proof.
  revert acc. induction t as [|c t IH]; intros acc Ha; simpl.
  - destruct acc; [constructor|by apply Forall_singleton].
  - destruct (is_whitespace c) eqn:E.
    + destruct acc; [by apply IH|]. apply Forall_cons. split; [done|]. apply IH. constructor.
    + apply IH. apply Forall_app. split; [done|by apply Forall_singleton].
Qed.

Lemma words_join ws :
  Forall (fun w => w <> []) ws -> Forall (Forall (fun c => is_whitespace c = false)) ws ->
  split_whitespace (join [32] ws) = ws.
Proof.
  induction ws as [|w [|w' ws] IH]; intros Hne Hc; [done| |];
    apply Forall_cons in Hne as [Hw Hne]; apply Forall_cons in Hc as [Hcw Hc].
  - simpl. by apply words_of_word.
  - change (join [32] (w :: w' :: ws)) with (w ++ 32 :: join [32] (w' :: ws)).
    unfold split_whitespace. rewrite words_from_app by done.
    rewrite words_of_word by done. cbn [app]. f_equal. by apply IH.
Qed.

Lemma decide_seeded_caught_up st a n u :
  falls (pair st) a -> a.1 = 0 -> decide_seeded st a n u = (None, None, None).
Proof.
  intros Hf%pair_fell_spec Hz. unfold decide_seeded. rewrite Hf, Hz.
  unfold pair_fell in Hf. apply andb_prop in Hf as [Hr%negb_true_iff _]. by rewrite Hr.
Qed.

Lemma decide_seeded_rose st a m u :
  rises (pair st) a -> slot st = Some m -> decide_seeded st a None u = (None, None, Some m).
Proof. intros Hr%pair_rose_spec Hs. unfold decide_seeded. by rewrite Hr, Hs. Qed.

(** Without a notifying message, an occupied slot is sent or kept, or the room
    was caught up. *)
Lemma decide_seeded_slot st a m u :
  slot st = Some m -> (falls (pair st) a -> a.1 <> 0) ->
  (decide_seeded st a None u).2 = Some m \/
  exists up, decide_seeded st a None u = (Some m, up, None).
Proof.
  intros Hs Hz. unfold decide_seeded. rewrite Hs. destruct (pair_rose (pair st) a); cbn; [auto|].
  rewrite !andb_false_r. destruct (pair_fell (pair st) a) eqn:Hf; cbn; [|eauto].
  apply pair_fell_spec in Hf. apply Hz in Hf. rewrite (proj2 (Z.eqb_neq _ _) Hf). eauto.
Qed.

(** ** Reading an event *)

Lemma bind_as_str o s : o ≫= as_str = Some s <-> o = Some (JStr s).
Proof. destruct o as [[]|]; cbn; naive_solver. Qed.
Lemma bind_as_object o es : o ≫= as_object = Some es <-> o = Some (JObj es).
Proof. destruct o as [[]|]; cbn; naive_solver. Qed.

Lemma thread_root_spec rt ev root :
  thread_root rt ev = Some root <->
  rt = Some (JStr (t! "m.thread")) /\ ev = Some (JStr root) /\ root <> [].
Proof.
  unfold thread_root. case_bool_decide as Hrt; rewrite bind_as_str in Hrt;
    [|split; [done|tauto]].
  split.
  - intros (id & Hid & H)%bind_Some. case_bool_decide; [done|]. simplify_eq.
    by apply bind_as_str in Hid.
  - intros (_ & -> & Hne). cbn. by rewrite bool_decide_eq_false_2.
Qed.

Lemma blank_body o :
  default [] (collapse_whitespace <$> (o ≫= as_str)) = [] \/
  exists b, o = Some (JStr b) /\ split_whitespace b <> [] /\
    default [] (collapse_whitespace <$> (o ≫= as_str)) = join [32] (split_whitespace b).
Proof.
  destruct o as [[| | | |b| |]|]; cbn; auto. rewrite collapse_words.
  destruct (split_whitespace b) as [|w ws] eqn:E; [by left|]. right. exists b. by rewrite E.
Qed.

Lemma words_nonempty t : Forall (fun w => w <> []) (split_whitespace t).
Proof. apply words_from_nonempty. Qed.

(** ** The theorems *)

(** [C1] The decision refines the case list: on a seeded room, with unsigned
    counts, the new slot, the new unpaired rise and the message sent are exactly
    the ones the list of ADR 0113 gives for that observation; the list leaves no
    observation undecided and decides none twice. *)
Theorem decide_is_adr0113 st after ms s u o :
  seeded st = true -> 0 <= (default (pair st) after).1 ->
  (slot (state (decide st after ms)), unpaired (state (decide st after ms)),
   send (decide st after ms)) = (s, u, o)
  <-> adr0113 (pair st) (slot st) (unpaired st) (default (pair st) after) ms s u o.
Proof.
  intros Hs Hz. rewrite <- (decide_seeded_step st after ms Hs). split.
  - by apply decide_seeded_sound.
  - intros H. destruct (decide_seeded _ _ _ _) as [[s' u'] o'] eqn:E.
    apply decide_seeded_sound in E; [|done]. symmetry.
    by apply (adr0113_deterministic _ _ _ _ _ _ _ _ _ _ _ H E).
Qed.

Definition note (e : string) (c : PushClass) : PushMessage :=
  {| event_id := lit e; sender := t! "@bob:x"; body := t! "hi"; thread_root_id := None; class := c |}.
Definition room0 (sl : option PushMessage) : RoomState :=
  {| seeded := true; pair := (2, 0); slot := sl; unpaired := None |}.

Lemma decide_is_adr0113_witness :
  adr0113 (2, 0) (Some (note "$a" Notify)) None (3, 0) [note "$b" Unknown]
    None None (Some (note "$a" Notify)).
Proof.
  apply (decide_is_adr0113 (room0 (Some (note "$a" Notify))) (Some (3, 0)) [note "$b" Unknown]);
    [reflexivity|simpl; lia|reflexivity].
Defined.

(** Over a room's whole history from process start, when the observed
    events are distinct no message wakes a phone twice, and every wake is for an
    observed message whose push actions are not known to be silent. *)
Theorem wakes_are_distinct p obs :
  NoDup (ids (observed obs)) ->
  NoDup (ids (room_sends (unseeded p) obs)) /\
  forall m, m ∈ room_sends (unseeded p) obs -> m ∈ observed obs /\ class m <> Silent.
Proof.
  intros H. split; [by apply sends_nodup|].
  intros m [?|?]%sends_subseteq; [done|auto].
Qed.

Lemma wakes_are_distinct_witness :
  NoDup (ids (room_sends (unseeded (0, 0))
    [{| o_after := Some (1, 0); o_messages := [note "$a" Notify] |};
     {| o_after := Some (2, 0); o_messages := [] |};
     {| o_after := Some (3, 0); o_messages := [note "$b" Unknown] |}])).
Proof. apply wakes_are_distinct. apply (bool_decide_unpack _). vm_compute. exact I. Defined.

(** Catching up silences: once an observation lowers the counts to zero
    notifications, no message observed up to and including it is ever sent
    later. *)
Theorem caught_up_forgets st before o after m :
  seeded st = true -> o_after o = Some after -> after.1 = 0 ->
  falls (pair (run_room st before).1) after ->
  forall later, m ∈ room_sends st (before ++ o :: later) ->
  m ∈ room_sends st before \/ m ∈ observed later.
Proof.
  intros Hs Ho Hz Hf later. pose proof (seeded_run _ before Hs) as Hs'.
  pose proof (decide_seeded_step _ (o_after o) (o_messages o) Hs') as Hd.
  rewrite Ho in Hd. cbn [default from_option] in Hd.
  rewrite (decide_seeded_caught_up _ after) in Hd by done. injection Hd as Hsl _ Hse.
  rewrite sends_app, sends_cons, Ho, <- Hse. cbn [option_list app]. rewrite elem_of_app.
  intros [?|[Hm|[? _]]%sends_subseteq]; [auto|congruence|auto].
Qed.

Lemma caught_up_forgets_witness :
  note "$a" Notify ∉ room_sends (room0 None)
    ([{| o_after := None; o_messages := [note "$a" Notify] |}]
     ++ {| o_after := Some (0, 0); o_messages := [] |}
        :: [{| o_after := Some (1, 0); o_messages := [] |}]).
Proof.
  intros H. apply (caught_up_forgets _ _ _ (0, 0)) in H; [|reflexivity|reflexivity|reflexivity|].
  - vm_compute in H. destruct H as [H|H]; by apply not_elem_of_nil in H.
  - split; [|left; vm_compute; reflexivity].
    intros H'. vm_compute in H'. destruct H'; discriminate.
Defined.

(** A held message is the next wake: a message in the slot of a seeded
    room survives every observation that carries no notifying message and does
    not catch the room up, and the first of them whose count rises sends it,
    unknown-class messages in that observation notwithstanding. *)
Theorem slotted_message_is_next_wake st quiet o m :
  seeded st = true -> slot st = Some m ->
  Forall (fun o => none_of (o_messages o) Notify /\
                   forall a, o_after o = Some a -> a.1 <> 0) (quiet ++ [o]) ->
  (room_sends st quiet = [] -> slot (run_room st quiet).1 = Some m) /\
  (room_sends st quiet = [] ->
   rises (pair (run_room st quiet).1) (default (pair (run_room st quiet).1) (o_after o)) ->
   room_sends st (quiet ++ [o]) = [m]) /\
  (room_sends st quiet <> [] -> head (room_sends st quiet) = Some m).
Proof.
  intros Hse Hsl Hall. apply Forall_app in Hall as [Hq Ho]. apply Forall_cons in Ho as [[HoN _] _].
  enough ((room_sends st quiet = [] -> slot (run_room st quiet).1 = Some m) /\
          (room_sends st quiet <> [] -> head (room_sends st quiet) = Some m)) as [H1 H2].
  { split; [done|split; [|done]]. intros Hnil Hr. specialize (H1 Hnil).
    pose proof (decide_seeded_step _ (o_after o) (o_messages o) (seeded_run _ quiet Hse)) as Hd.
    apply latest_none in HoN. rewrite HoN, (decide_seeded_rose _ _ m) in Hd by done.
    injection Hd as _ _ Hs. by rewrite sends_app, sends_cons, Hnil, <- Hs. }
  clear HoN. revert st Hse Hsl.
  induction Hq as [|x quiet [HN Hz] _ IH]; intros st Hse Hsl; [done|].
  pose proof (decide_seeded_step _ (o_after x) (o_messages x) Hse) as Hd.
  apply latest_none in HN. rewrite HN in Hd. rewrite sends_cons, run_room_cons. cbn [fst].
  destruct (decide_seeded_slot st (default (pair st) (o_after x)) m (latest (o_messages x) Unknown))
    as [E|[up E]]; [done| | |].
  - intros Hf. destruct (o_after x) as [a|]; cbn in *; [by apply Hz|].
    by apply falls_irrefl in Hf.
  - rewrite Hd in E. cbn in E. rewrite E. by split.
  - rewrite Hd in E. injection E as Es _ E. rewrite E. cbn [option_list app].
    apply IH; [by apply seeded_step|done].
Qed.

Lemma slotted_message_is_next_wake_witness :
  room_sends (room0 (Some (note "$a" Notify)))
    ([{| o_after := Some (1, 0); o_messages := [] |}]
     ++ [{| o_after := Some (3, 0); o_messages := [note "$b" Unknown] |}])
  = [note "$a" Notify].
Proof.
  apply (slotted_message_is_next_wake (room0 (Some (note "$a" Notify)))); try reflexivity.
  - repeat constructor; simpl; try discriminate; intros a [= <-]; discriminate.
  - vm_compute. left. reflexivity.
Defined.

(** A message the ruleset declined ([Silent]) changes nothing: an
    observation decides as if it had not been there, so it neither sends, nor
    fills or clears the slot, nor consumes an unpaired rise. *)
Theorem silent_messages_are_inert st after ms :
  decide st after (filter (fun m => class m <> Silent) ms) = decide st after ms.
Proof.
  assert (filter (fun m => class m = Unknown) (filter (fun m => class m <> Silent) ms)
          = filter (fun m => class m = Unknown) ms) as Hu.
  { rewrite list_filter_filter. apply list_filter_iff. intros m.
    split; [tauto|]. intros ->. done. }
  unfold decide. rewrite Hu, !latest_filter by (intros; congruence). done.
Qed.

(** Eligibility: an event wakes someone only as an [m.room.message] from
    someone else with a non-empty id, not an edit, whose body has at least one
    word; the message then carries that id and sender, the body's words joined
    by single spaces, and the thread root exactly for a thread relation that
    names one.  Any other event is dropped. *)
Theorem consider_event_iff raw own cls m :
  consider_event raw own cls = Some m <->
  exists content words,
    jget (t! "type") raw = Some (JStr (t! "m.room.message")) /\
    jget (t! "content") raw = Some (JObj content) /\
    jget (t! "sender") raw = Some (JStr (sender m)) /\ sender m <> own /\
    jget (t! "event_id") raw = Some (JStr (event_id m)) /\ event_id m <> [] /\
    (let rel k := (assoc (t! "m.relates_to") content ≫= as_object) ≫= assoc k in
     rel (t! "rel_type") <> Some (JStr (t! "m.replace")) /\
     forall root, thread_root_id m = Some root <->
       rel (t! "rel_type") = Some (JStr (t! "m.thread")) /\
       rel (t! "event_id") = Some (JStr root) /\ root <> []) /\
    (exists b, assoc (t! "body") content = Some (JStr b) /\ split_whitespace b = words) /\
    words <> [] /\ body m = join [32] words /\ class m = cls.
Proof.
  unfold consider_event. split.
  - case_bool_decide as Ht; [cbn [negb]|done]. apply bind_as_str in Ht.
    intros (content & Hc%bind_as_object & H)%bind_Some.
    apply bind_Some in H as (snd & Hs%bind_as_str & H). case_bool_decide as Hown; [done|].
    apply bind_Some in H as (eid & He%bind_as_str & H). case_bool_decide as Hid; [done|].
    cbv zeta in H. case_bool_decide as Hrep; [done|]. rewrite bind_as_str in Hrep.
    destruct (blank_body (assoc (t! "body") content)) as [Hb|(b & Hb & Hw & Hj)];
      case_bool_decide; try done.
    injection H as <-. cbn. exists content, (split_whitespace b).
    repeat (split; [done|]). split; [|by eauto 8]. split; [done|]. intros root.
    apply thread_root_spec.
  - intros (content & words & Ht & Hc & Hs & Hown & He & Hid & [Hrep Hroot] & (b & Hb & <-)
            & Hw & Hj & Hcls).
    rewrite Ht, Hc, Hs, He. cbn [mbind option_bind as_str as_object].
    cbv zeta. rewrite Hb. cbn [mbind option_bind as_str default from_option fmap option_fmap option_map].
    rewrite !(bool_decide_eq_true_2 (Some _ = Some _)) by done. cbn [negb].
    rewrite (bool_decide_eq_false_2 (sender m = own)), (bool_decide_eq_false_2 (event_id m = []))
      by done.
    rewrite (bool_decide_eq_false_2 (_ = Some (t! "m.replace"))) by (by rewrite bind_as_str).
    unfold id. rewrite collapse_words, (bool_decide_eq_false_2 (join _ _ = []))
      by (rewrite join_nil_iff by apply words_nonempty; done).
    f_equal. destruct m as [mi ms mb mt mc]. cbn in *. subst. f_equal.
    destruct mt as [root|].
    + apply thread_root_spec. by apply Hroot.
    + apply eq_None_not_Some. intros [root Hr]. apply thread_root_spec, Hroot in Hr. done.
Qed.

(** The preview text: [collapse_whitespace] is the words of the text
    joined by single spaces, so it is empty exactly for a blank text, keeps the
    words, and collapsing twice changes nothing. *)
Theorem collapse_whitespace_correct t :
  collapse_whitespace t = join [32] (split_whitespace t) /\
  split_whitespace (collapse_whitespace t) = split_whitespace t /\
  collapse_whitespace (collapse_whitespace t) = collapse_whitespace t /\
  (collapse_whitespace t = [] <-> Forall (fun c => is_whitespace c = true) t).
Proof.
  assert (split_whitespace (join [32] (split_whitespace t)) = split_whitespace t) as Hw.
  { apply words_join; [apply words_nonempty|by apply words_from_clean]. }
  rewrite !collapse_words, Hw. split; [done|split; [done|split; [done|]]].
  rewrite join_nil_iff by apply words_nonempty. unfold split_whitespace.
  induction t as [|c t IH]; [done|]. cbn [words_from]. rewrite Forall_cons.
  destruct (is_whitespace c) eqn:E.
  - rewrite IH by (apply words_join; [apply words_nonempty|by apply words_from_clean]). tauto.
  - cbn [app]. split; [|naive_solver]. intros H. exfalso. clear -H. revert H.
    generalize c, (@nil Z). induction t as [|d t IH]; intros x l; [done|]. cbn [words_from].
    destruct (is_whitespace d); [done|]. apply IH.
Qed.

(** An alert never suppresses a room-read message as long as a room's
    highlights are counted among its notifications: an observation whose count
    fell to zero then sends no alert, so it queues a room-read message for every
    FCM device. *)
Theorem alert_never_hides_room_read st after ms :
  0 <= (pair st).2 -> (default (pair st) after).2 <= (default (pair st) after).1 ->
  notification_fell_to (decide st after ms) = Some 0 ->
  send (decide st after ms) = None.
Proof.
  intros Hp Hh Hf. unfold decide in *. destruct (seeded st); [cbn [negb] in *|done].
  destruct (decide_seeded _ _ _ _) as [[s u] snd] eqn:E.
  cbn [notification_fell_to send] in *.
  destruct (_ <? _) eqn:El in Hf; [|done]. injection Hf as H0. b2p.
  rewrite decide_seeded_caught_up in E; [congruence| |done].
  unfold falls, rises. lia.
Qed.

Lemma alert_never_hides_room_read_witness :
  send (decide (room0 None) (Some (0, 0)) [note "$a" Notify]) = None.
Proof. apply alert_never_hides_room_read; [vm_compute; discriminate..|reflexivity]. Defined.

(** A highlight rising above the notification count is a rise, and then the
    alert replaces the room-read message of the fall to zero. *)
Example alert_hides_room_read :
  let d := decide (room0 None) (Some (0, 1)) [note "$a" Notify] in
  notification_fell_to d = Some 0 /\ send d = Some (note "$a" Notify).
Proof. vm_compute. done. Qed.
