(* ===== verification/PushRouter.v ===== *)
(** * The push router

    Models [crates/axon-sync/src/push/router.rs]: the per-room memory and its
    expiry, the scheduler that runs at most four sends and one per key, and the
    router task with its control signals, as a machine of atomic steps. *)

From stdpp Require Import base gmap sets list strings.
From Stdlib Require Import ZArith Lia.
From S2P Require Import Prelude Text PushDecision.

Definition SLOT_TTL : Z := secs 300.
Definition OBSERVATION_CAPACITY : nat := 64.
Definition SEND_PERMITS : nat := 4.

(** ** Data *)

(** [axon_store::PushTarget]. *)
Record PushTarget := {
  tg_id : uuid;
  tg_provider : text;
  tg_token : text;
  tg_environment : option text;
  tg_disclosure : text;
  tg_badge : bool;
  tg_updated_at : Z;
}.

Inductive FlightKey :=
| KRoom (account_id registration_id : uuid) (room_id : text)
| KBadge (registration_id : uuid).

#[export] Instance FlightKey_eq_dec : EqDecision FlightKey.
Proof. solve_decision. Defined.
#[export] Instance FlightKey_countable : Countable FlightKey.
Proof.
  refine (inj_countable'
    (fun k => match k with KRoom a r x => inl (a, r, x) | KBadge r => inr r end)
    (fun s => match s with inl (a, r, x) => KRoom a r x | inr r => KBadge r end) _).
  by intros [].
Defined.

Record Observation := {
  ob_account : uuid;
  ob_room : text;
  ob_after : option (Z * Z);
  ob_messages : list PushMessage;
}.

(** [Work]; the shared banner of an alert is a cache of one room summary and is
    left to the transport. *)
Inductive Work :=
| Alert (account_id : uuid) (room_id : text) (message : PushMessage)
| RoomRead (account_id : uuid) (room_id : text)
| Badge.

Record Job := { j_target : PushTarget; j_work : Work }.

Definition job_room (j : Job) : option (uuid * text) :=
  match j_work j with
  | Alert a r _ | RoomRead a r => Some (a, r)
  | Badge => None
  end.

Definition job_key (j : Job) : FlightKey :=
  match job_room j with
  | Some (a, r) => KRoom a (tg_id (j_target j)) r
  | None => KBadge (tg_id (j_target j))
  end.

(** ** Memory *)

Record Stamped (A : Type) := { value : A; at_ : Z }.
Arguments value {A}. Arguments at_ {A}. Arguments Build_Stamped {A}.

Record Memory := {
  m_seeded : bool;
  m_pair : Z * Z;
  m_slot : option (Stamped PushMessage);
  m_unpaired : option (Stamped (Z * Z));
}.

Definition memory_unseeded (p : Z * Z) : Memory :=
  {| m_seeded := false; m_pair := p; m_slot := None; m_unpaired := None |}.

Definition still_fresh {A} (now : Z) (s : Stamped A) : option (Stamped A) :=
  if SLOT_TTL <=? sat_sub now (at_ s) then None else Some s.

Definition expire (now : Z) (m : Memory) : Memory :=
  {| m_seeded := m_seeded m; m_pair := m_pair m;
     m_slot := m_slot m ≫= still_fresh now;
     m_unpaired := m_unpaired m ≫= still_fresh now |}.

Definition memory_state (m : Memory) : RoomState :=
  {| seeded := m_seeded m; pair := m_pair m;
     slot := value <$> m_slot m; unpaired := value <$> m_unpaired m |}.

(** The stamp of a kept value: the previous one when the value is unchanged. *)
Definition restamp {A} `{EqDecision A} (previous : option (Stamped A)) (now : Z) (v : A)
    : Stamped A :=
  {| value := v;
     at_ := match previous with
            | Some p => if bool_decide (value p = v) then at_ p else now
            | None => now
            end |}.

(** [apply_observation]'s work on one room's memory. *)
Definition observe_memory (now : Z) (after : option (Z * Z)) (messages : list PushMessage)
    (m : Memory) : Memory * Decision :=
  let m := expire now m in
  let d := PushDecision.decide (memory_state m) after messages in
  ({| m_seeded := seeded (state d); m_pair := pair (state d);
      m_slot := restamp (m_slot m) now <$> slot (state d);
      m_unpaired := restamp (m_unpaired m) now <$> unpaired (state d) |}, d).

(** [jobs_for]. *)
Definition jobs_for (o : Observation) (send : option PushMessage)
    (notification_fell_to : option Z) (targets : list PushTarget) : list Job :=
  match send with
  | Some message =>
      map (fun t => {| j_target := t; j_work := Alert (ob_account o) (ob_room o) message |}) targets
  | None =>
      match notification_fell_to with
      | None => []
      | Some count =>
          omap (fun t =>
            if bool_decide (tg_provider t = t! "apns") && tg_badge t
            then Some {| j_target := t; j_work := Badge |}
            else if bool_decide (tg_provider t = t! "fcm") && (count =? 0)
            then Some {| j_target := t; j_work := RoomRead (ob_account o) (ob_room o) |}
            else None) targets
      end
  end.

(** ** Scheduler *)

Record Scheduler := {
  in_flight : gset FlightKey;
  waiting : gmap FlightKey Job;
  order : list FlightKey;
}.

Definition new_scheduler : Scheduler := {| in_flight := ∅; waiting := ∅; order := [] |}.

Definition enqueue (s : Scheduler) (job : Job) : Scheduler * option Job :=
  let key := job_key job in
  if bool_decide (key ∈ in_flight s) then
    ({| in_flight := in_flight s; waiting := <[key := job]> (waiting s); order := order s |}, None)
  else if bool_decide (SEND_PERMITS <= size (in_flight s))%nat then
    ({| in_flight := in_flight s; waiting := <[key := job]> (waiting s);
        order := if bool_decide (key ∈ order s) then order s else order s ++ [key] |}, None)
  else
    ({| in_flight := {[key]} ∪ in_flight s; waiting := waiting s; order := order s |}, Some job).

(** [pump]'s loop; each turn takes one key off [order]. *)
Fixpoint pump_loop (fuel : nat) (s : Scheduler) : Scheduler * list Job :=
  match fuel with
  | O => (s, [])
  | S fuel =>
      if bool_decide (size (in_flight s) < SEND_PERMITS)%nat then
        match order s with
        | [] => (s, [])
        | key :: rest =>
            match waiting s !! key with
            | None => pump_loop fuel {| in_flight := in_flight s; waiting := waiting s; order := rest |}
            | Some job =>
                let '(s, started) :=
                  enqueue {| in_flight := in_flight s; waiting := delete key (waiting s);
                             order := rest |} job in
                let '(s, start) := pump_loop fuel s in
                (s, option_list started ++ start)
            end
        end
      else (s, [])
  end.
Definition pump (s : Scheduler) : Scheduler * list Job := pump_loop (S (length (order s))) s.

Definition finished (s : Scheduler) (key : FlightKey) : Scheduler * list Job :=
  let s := {| in_flight := in_flight s ∖ {[key]}; waiting := waiting s; order := order s |} in
  let '(s, first) :=
    match waiting s !! key with
    | None => (s, None)
    | Some job =>
        enqueue {| in_flight := in_flight s; waiting := delete key (waiting s);
                   order := filter (fun k => k <> key) (order s) |} job
    end in
  let '(s, start) := pump s in
  (s, option_list first ++ start).

(** [waiting.retain(..)], then [order.retain(..)]. *)
Definition retain_jobs (P : Job -> bool) (s : Scheduler) : Scheduler :=
  let w := filter (fun kj => P kj.2 = true) (waiting s) in
  {| in_flight := in_flight s; waiting := w;
     order := filter (fun k => is_Some (w !! k) \/ k ∈ in_flight s) (order s) |}.

Definition drop_account (a : uuid) : Scheduler -> Scheduler :=
  retain_jobs (fun j => negb (bool_decide (fst <$> job_room j = Some a))).
Definition drop_room (a : uuid) (r : text) : Scheduler -> Scheduler :=
  retain_jobs (fun j => negb (bool_decide (job_room j = Some (a, r)))).

(** ** Scheduler lemmas *)

Definition keys (js : list Job) : list FlightKey := job_key <$> js.

(** The scheduler's invariant: each waiting job is filed under its key, which
    either runs or is queued once; queued keys wait and do not run; at most
    [SEND_PERMITS] keys run. *)
Record sched_ok (s : Scheduler) : Prop := {
  ok_nodup : NoDup (order s);
  ok_order k : k ∈ order s -> is_Some (waiting s !! k) /\ k ∉ in_flight s;
  ok_waiting k : is_Some (waiting s !! k) -> k ∈ in_flight s \/ k ∈ order s;
  ok_key k j : waiting s !! k = Some j -> job_key j = k;
  ok_permits : (size (in_flight s) <= SEND_PERMITS)%nat;
}.

(** At rest, nothing is queued while a permit is free. *)
Definition sched_inv (s : Scheduler) : Prop :=
  sched_ok s /\ (order s <> [] -> size (in_flight s) = SEND_PERMITS).

Lemma size_insert_fresh (k : FlightKey) (X : gset FlightKey) :
  k ∉ X -> size ({[k]} ∪ X) = S (size X).
Proof. intros H. rewrite size_union by set_solver. by rewrite size_singleton. Qed.

(** [enqueue] takes one of three branches. *)
Lemma enqueue_cases s j :
  ((job_key j ∈ in_flight s) /\
   enqueue s j = ({| in_flight := in_flight s; waiting := <[job_key j := j]> (waiting s);
                     order := order s |}, None)) \/
  ((job_key j ∉ in_flight s) /\ (SEND_PERMITS <= size (in_flight s))%nat /\ exists o,
   ((o = order s /\ job_key j ∈ order s) \/ (o = order s ++ [job_key j] /\ job_key j ∉ order s)) /\
   enqueue s j = ({| in_flight := in_flight s; waiting := <[job_key j := j]> (waiting s);
                     order := o |}, None)) \/
  ((job_key j ∉ in_flight s) /\ (size (in_flight s) < SEND_PERMITS)%nat /\
   enqueue s j = ({| in_flight := {[job_key j]} ∪ in_flight s; waiting := waiting s;
                     order := order s |}, Some j)).
Proof.
  unfold enqueue. case_bool_decide; [by left|right]. case_bool_decide; [left|right].
  - split; [done|split; [done|]]. case_bool_decide; eauto 8.
  - split; [done|split; [lia|done]].
Qed.

Lemma enqueue_ok s j :
  sched_ok s -> ((size (in_flight s) < SEND_PERMITS)%nat -> job_key j ∉ order s) ->
  sched_ok (enqueue s j).1.
Proof.
  intros [Hnd Ho Hw Hk Hp] Hfree.
  assert (forall k j', <[job_key j := j]> (waiting s) !! k = Some j' -> job_key j' = k) as Hk'.
  { intros k j' [[<- <-]|[_ ?]]%lookup_insert_Some; auto. }
  destruct (enqueue_cases s j)
    as [[Hin ->]|[(Hin & Hs & o & [[-> Hm]|[-> Hm]] & ->)|(Hin & Hs & ->)]];
    split; cbn; auto.
  - intros k Hk2. rewrite lookup_insert_is_Some'. destruct (Ho k Hk2). auto.
  - intros k. rewrite lookup_insert_is_Some'. intros [<-|?]; auto.
  - intros k Hk2. rewrite lookup_insert_is_Some'. destruct (Ho k Hk2). auto.
  - intros k. rewrite lookup_insert_is_Some'. intros [<-|?]; auto.
  - apply NoDup_app. split; [done|split; [set_solver|apply NoDup_singleton]].
  - intros k. rewrite elem_of_app, list_elem_of_singleton, lookup_insert_is_Some'.
    intros [Hk2| ->]; [destruct (Ho k Hk2)|]; auto.
  - intros k. rewrite lookup_insert_is_Some', elem_of_app, list_elem_of_singleton.
    intros [<-|H]; [auto|]. destruct (Hw k H); auto.
  - intros k Hk2. destruct (Ho k Hk2). split; [done|]. specialize (Hfree Hs). set_solver.
  - intros k H. destruct (Hw k H); set_solver.
  - rewrite size_insert_fresh by done. lia.
Qed.

Lemma enqueue_inv s j : sched_inv s -> sched_inv (enqueue s j).1.
Proof.
  intros [Hok Hfull]. split.
  - apply enqueue_ok; [done|]. intros Hs Hin.
    rewrite Hfull in Hs; [lia|]. intros E. rewrite E in Hin. set_solver.
  - destruct (enqueue_cases s j)
      as [[Hin ->]|[(Hin & Hs & o & Ho & ->)|(Hin & Hs & ->)]]; cbn; [done| |].
    + intros _. pose proof (ok_permits _ Hok). lia.
    + intros H. specialize (Hfull H). lia.
Qed.

(** Jobs [js] moved from waiting to running. *)
Record moved (s s' : Scheduler) (js : list Job) : Prop := {
  mv_nodup : NoDup (keys js);
  mv_fresh k : k ∈ keys js -> k ∉ in_flight s;
  mv_from j : j ∈ js -> waiting s !! job_key j = Some j;
  mv_flight : in_flight s' = in_flight s ∪ list_to_set (keys js);
  mv_waiting k : waiting s' !! k = if bool_decide (k ∈ keys js) then None else waiting s !! k;
}.

Lemma moved_nil s : moved s s [].
Proof.
  split; cbn; [constructor|set_solver|set_solver|set_solver|].
  intros k. by rewrite bool_decide_eq_false_2 by set_solver.
Qed.

Lemma moved_start s s' j js o :
  waiting s !! job_key j = Some j -> job_key j ∉ in_flight s ->
  moved {| in_flight := {[job_key j]} ∪ in_flight s; waiting := delete (job_key j) (waiting s);
           order := o |} s' js ->
  moved s s' (j :: js).
Proof.
  intros Hj Hfr [Hnd Hfresh Hfrom Hfl Hw]. cbn in *. split.
  - constructor; [|done]. intros H. apply (Hfresh _ H). set_solver.
  - intros k [->|H]%elem_of_cons; [done|]. specialize (Hfresh _ H). set_solver.
  - intros j' [->|H]%elem_of_cons; [done|]. specialize (Hfrom _ H).
    by apply lookup_delete_Some in Hfrom as [_ ?].
  - rewrite Hfl. cbn. set_solver.
  - intros k. rewrite Hw. cbn. rewrite lookup_delete.
    destruct (base.decide (job_key j = k)) as [->|Hne].
    + rewrite (bool_decide_eq_true_2 (k ∈ k :: keys js)) by set_solver. by case_bool_decide.
    + replace (bool_decide (k ∈ job_key j :: (job_key <$> js))) with (bool_decide (k ∈ keys js));
        [done|]. apply bool_decide_ext. rewrite elem_of_cons. naive_solver.
Qed.

(** Taking a key's job out of the queue. *)
Lemma take_job_ok s key job :
  sched_ok s -> waiting s !! key = Some job ->
  sched_ok {| in_flight := in_flight s; waiting := delete key (waiting s);
              order := filter (fun k => k <> key) (order s) |}.
Proof.
  intros [Hnd Ho Hw Hk Hp] Hj. split; cbn; [by apply NoDup_filter| | | |done].
  - intros k [Hne Hin]%list_elem_of_filter. destruct (Ho k Hin). split; [|done].
    by rewrite lookup_delete_ne.
  - intros k [j Hd]. apply lookup_delete_Some in Hd as [Hne Hd].
    rewrite list_elem_of_filter. destruct (Hw k); eauto.
  - intros k j [_ ?]%lookup_delete_Some. auto.
Qed.

Lemma filter_head_fresh (key : FlightKey) rest :
  NoDup (key :: rest) -> filter (fun k => k <> key) (key :: rest) = rest.
Proof.
  intros [Hn _]%NoDup_cons. rewrite filter_cons_False by auto.
  apply filter_all. rewrite Forall_forall. intros k Hk ->. done.
Qed.

Lemma pump_loop_spec fuel s :
  sched_ok s -> (length (order s) < fuel)%nat ->
  let '(s', js) := pump_loop fuel s in
  moved s s' js /\ sched_inv s'.
Proof.
  revert s. induction fuel as [|fuel IH]; intros s Hok Hf; [lia|]. cbn [pump_loop].
  case_bool_decide as Hs.
  - destruct (order s) as [|key rest] eqn:Eo.
    { split; [apply moved_nil|]. split; [done|]. rewrite Eo. done. }
    destruct (ok_order _ Hok key) as [[job Hj] Hfl]; [rewrite Eo; set_solver|].
    pose proof (ok_key _ Hok _ _ Hj) as <-. rewrite Hj.
    pose proof (take_job_ok s _ _ Hok Hj) as Hok1. pose proof (ok_nodup _ Hok) as Hnd.
    rewrite Eo in Hok1, Hnd. rewrite filter_head_fresh in Hok1 by done.
    apply NoDup_cons in Hnd as [Hnin Hnd].
    set (s1 := {| in_flight := in_flight s; waiting := delete (job_key job) (waiting s);
                  order := rest |}) in *.
    pose proof (enqueue_ok s1 job Hok1 (fun _ => Hnin)) as Hok2.
    destruct (enqueue_cases s1 job) as [[? _]|[(_ & ? & _)|(_ & _ & E)]];
      [done|cbn in *; lia|]. rewrite E in *. cbn [fst] in Hok2.
    specialize (IH _ Hok2). destruct (pump_loop fuel _) as [s' js]. cbn in *.
    destruct IH as [Hm Hinv]; [lia|]. split; [|done].
    by apply moved_start with (o := rest).
  - split; [apply moved_nil|]. split; [done|]. pose proof (ok_permits _ Hok). lia.
Qed.

Lemma pump_spec s :
  sched_ok s -> let '(s', js) := pump s in moved s s' js /\ sched_inv s'.
Proof. intros H. apply pump_loop_spec; [done|lia]. Qed.

Definition release (s : Scheduler) (key : FlightKey) : Scheduler :=
  {| in_flight := in_flight s ∖ {[key]}; waiting := waiting s; order := order s |}.

Lemma size_remove (k : FlightKey) (X : gset FlightKey) :
  k ∈ X -> S (size (X ∖ {[k]})) = size X.
Proof.
  intros H. rewrite <- size_insert_fresh with (k := k) by set_solver.
  f_equal. apply set_eq. intros x. destruct (base.decide (x = k)); set_solver.
Qed.

(** [finished] frees the key and moves jobs from waiting to running. *)
Lemma finished_spec s key :
  sched_inv s -> key ∈ in_flight s ->
  let '(s', js) := finished s key in moved (release s key) s' js /\ sched_inv s'.
Proof.
  intros [Hok Hfull] Hin. unfold finished. fold (release s key). cbn [waiting release].
  pose proof (size_remove _ _ Hin) as Hsz.
  assert (key ∉ order s) as Hno.
  { intros H. by destruct (ok_order _ Hok _ H). }
  destruct (waiting s !! key) as [job|] eqn:Hj.
  - pose proof (ok_key _ Hok _ _ Hj) as <-.
    assert (filter (fun k => k <> job_key job) (order s) = order s) as Ef.
    { apply filter_all. rewrite Forall_forall. intros k Hk ->. done. }
    cbn [order release in_flight]. rewrite Ef.
    set (s1 := {| in_flight := in_flight s ∖ {[job_key job]};
                  waiting := delete (job_key job) (waiting s); order := order s |}).
    assert (sched_ok s1) as Hok1.
    { destruct Hok as [Hnd Ho Hw Hk Hp]. split; cbn; [done| | | |lia].
      - intros k Hk'. destruct (Ho k Hk'). split; [|set_solver].
        rewrite lookup_delete_ne; [done|]. intros <-. done.
      - intros k [j [Hne Hd]%lookup_delete_Some]. destruct (Hw k); [eauto|left; set_solver|auto].
      - intros k j [_ ?]%lookup_delete_Some. auto. }
    pose proof (enqueue_ok s1 job Hok1 (fun _ => Hno)) as Hok2.
    destruct (enqueue_cases s1 job) as [[H _]|[(_ & H & _)|(_ & _ & E)]];
      [cbn in H; set_solver|cbn in H; pose proof (ok_permits _ Hok); lia|].
    rewrite E in *. cbn [fst] in Hok2. pose proof (pump_spec _ Hok2) as Hpump.
    destruct (pump _) as [s' js]. destruct Hpump as [Hm Hinv]. split; [|done]. cbn [option_list app].
    apply moved_start with (o := order s); cbn; [done|set_solver|done].
  - assert (sched_ok (release s key)) as Hok1.
    { destruct Hok as [Hnd Ho Hw Hk Hp]. split; cbn; [done| | |done|lia].
      - intros k Hk'. destruct (Ho k Hk'). split; [done|set_solver].
      - intros k Hk'. destruct (Hw k Hk'); [|auto]. left.
        assert (k <> key) by (intros ->; rewrite Hj in Hk'; by destruct Hk'). set_solver. }
    pose proof (pump_spec _ Hok1) as Hpump. destruct (pump _) as [s' js]. done.
Qed.

Lemma retain_inv P s : sched_inv s -> sched_inv (retain_jobs P s).
Proof.
  intros [Hok Hfull]. unfold retain_jobs. split.
  - destruct Hok as [Hnd Ho Hw Hk Hp]. split; cbn; [by apply NoDup_filter| | | |done].
    + intros k [[?|?] Hin]%list_elem_of_filter; destruct (Ho k Hin); [done|done].
    + intros k Hs. rewrite list_elem_of_filter. pose proof Hs as Hs'.
      destruct Hs as [j [Hj _]%map_lookup_filter_Some]. destruct (Hw k); [eauto|auto|auto].
    + intros k j [? _]%map_lookup_filter_Some. auto.
  - cbn. intros H. apply Hfull. intros E. by rewrite E in H.
Qed.

(** ** The router and its signals *)

(** A spawned [run_send] and the cancellation token it watches; [None] is a
    fresh child of the shutdown token, which only shutdown cancels. *)
Record Task := { t_job : Job; t_token : option Z }.
Definition task_key (t : Task) : FlightKey := job_key (t_job t).

Record Control := {
  notified : bool;
  drop_accounts : gset uuid;
  drop_rooms : gset (uuid * text);
  unseed_accounts : gset uuid;
  finished_keys : list FlightKey;
}.

Record Router := {
  chan : list Observation;
  control : Control;
  snapshot : list PushTarget;
  rooms : gmap (uuid * text) Memory;
  scheduler : Scheduler;
  account_cancels : gmap uuid Z;
  next_token : Z;
  cancelled : gset Z;
  tasks : list Task;
}.

Definition set_control (c : Control) (r : Router) : Router :=
  {| chan := chan r; control := c; snapshot := snapshot r; rooms := rooms r;
     scheduler := scheduler r; account_cancels := account_cancels r;
     next_token := next_token r; cancelled := cancelled r; tasks := tasks r |}.
Definition set_rooms (m : gmap (uuid * text) Memory) (r : Router) : Router :=
  {| chan := chan r; control := control r; snapshot := snapshot r; rooms := m;
     scheduler := scheduler r; account_cancels := account_cancels r;
     next_token := next_token r; cancelled := cancelled r; tasks := tasks r |}.
Definition set_scheduler (s : Scheduler) (r : Router) : Router :=
  {| chan := chan r; control := control r; snapshot := snapshot r; rooms := rooms r;
     scheduler := s; account_cancels := account_cancels r;
     next_token := next_token r; cancelled := cancelled r; tasks := tasks r |}.
Definition set_chan (c : list Observation) (r : Router) : Router :=
  {| chan := c; control := control r; snapshot := snapshot r; rooms := rooms r;
     scheduler := scheduler r; account_cancels := account_cancels r;
     next_token := next_token r; cancelled := cancelled r; tasks := tasks r |}.

(** [start_job]: the token of the job's account, made on first use. *)
Definition start_job (j : Job) (r : Router) : Router :=
  let spawn cancels next tok :=
    {| chan := chan r; control := control r; snapshot := snapshot r; rooms := rooms r;
       scheduler := scheduler r; account_cancels := cancels; next_token := next;
       cancelled := cancelled r; tasks := tasks r ++ [{| t_job := j; t_token := tok |}] |} in
  match job_room j with
  | None => spawn (account_cancels r) (next_token r) None
  | Some (a, _) =>
      match account_cancels r !! a with
      | Some k => spawn (account_cancels r) (next_token r) (Some k)
      | None => spawn (<[a := next_token r]> (account_cancels r)) (next_token r + 1)
                      (Some (next_token r))
      end
  end.

Definition start_jobs (js : list Job) (r : Router) : Router := foldl (fun r j => start_job j r) r js.

(** One dropped account: its rooms, its waiting jobs, its token. *)
Definition apply_drop_account (a : uuid) (r : Router) : Router :=
  {| chan := chan r; control := control r; snapshot := snapshot r;
     rooms := filter (fun km => km.1.1 <> a) (rooms r);
     scheduler := drop_account a (scheduler r);
     account_cancels := delete a (account_cancels r); next_token := next_token r;
     cancelled := match account_cancels r !! a with
                  | Some k => {[k]} ∪ cancelled r
                  | None => cancelled r
                  end;
     tasks := tasks r |}.

Definition apply_drop_room (k : uuid * text) (r : Router) : Router :=
  set_scheduler (drop_room k.1 k.2 (scheduler r)) (set_rooms (delete k (rooms r)) r).

Definition unseed_memory (m : Memory) : Memory :=
  {| m_seeded := false; m_pair := m_pair m; m_slot := m_slot m; m_unpaired := None |}.
Definition apply_unseed (a : uuid) (r : Router) : Router :=
  set_rooms (map_imap (fun k m => Some (if bool_decide (k.1 = a) then unseed_memory m else m))
               (rooms r)) r.

Definition apply_finished (key : FlightKey) (r : Router) : Router :=
  let '(s, js) := finished (scheduler r) key in start_jobs js (set_scheduler s r).

(** [apply_control]: the sets are drained, then applied in the code's order
    (a [HashSet] drains in no fixed order; [elements] picks one). *)
Definition apply_control (r : Router) : Router :=
  let c := control r in
  let r := set_control {| notified := false; drop_accounts := ∅; drop_rooms := ∅;
                          unseed_accounts := ∅; finished_keys := [] |} r in
  let r := foldl (fun r a => apply_drop_account a r) r (elements (drop_accounts c)) in
  let r := foldl (fun r k => apply_drop_room k r) r (elements (drop_rooms c)) in
  let r := foldl (fun r a => apply_unseed a r) r (elements (unseed_accounts c)) in
  foldl (fun r k => apply_finished k r) r (finished_keys c).

Definition enqueue_job (j : Job) (r : Router) : Router :=
  let '(s, started) := enqueue (scheduler r) j in
  start_jobs (option_list started) (set_scheduler s r).

(** [apply_observation]. *)
Definition apply_observation (now : Z) (o : Observation) (r : Router) : Router :=
  let k := (ob_account o, ob_room o) in
  let '(m, d) := observe_memory now (ob_after o) (ob_messages o)
                   (default (memory_unseeded (0, 0)) (rooms r !! k)) in
  foldl (fun r j => enqueue_job j r) (set_rooms (<[k := m]> (rooms r)) r)
    (jobs_for o (send d) (notification_fell_to d) (snapshot r)).

(** What can happen to the router, each event atomic. *)
Inductive Event :=
| EObserve (o : Observation)
| EAccountRemoved (a : uuid)
| ERoomDropped (a : uuid) (room : text)
| EUnseedAccount (a : uuid)
| EReload (targets : list PushTarget)
| EControl
| EExpiry (now : Z)
| ERecv (now : Z)
| ETaskEnd (i : nat).

Definition signal (f : Control -> Control) (r : Router) : Router := set_control (f (control r)) r.

(** [None]: the event cannot happen now.  [decide_loop]'s select is biased, so
    its timer and channel branches run only without a pending control signal. *)
Definition router_step (e : Event) (r : Router) : option Router :=
  match e with
  | EObserve o =>
      Some (if bool_decide (length (chan r) < OBSERVATION_CAPACITY)%nat
            then set_chan (chan r ++ [o]) r else r)
  | EAccountRemoved a =>
      Some (signal (fun c => {| notified := true; drop_accounts := {[a]} ∪ drop_accounts c;
        drop_rooms := drop_rooms c; unseed_accounts := unseed_accounts c;
        finished_keys := finished_keys c |}) r)
  | ERoomDropped a room =>
      Some (signal (fun c => {| notified := true; drop_accounts := drop_accounts c;
        drop_rooms := {[(a, room)]} ∪ drop_rooms c; unseed_accounts := unseed_accounts c;
        finished_keys := finished_keys c |}) r)
  | EUnseedAccount a =>
      Some (signal (fun c => {| notified := true; drop_accounts := drop_accounts c;
        drop_rooms := drop_rooms c; unseed_accounts := {[a]} ∪ unseed_accounts c;
        finished_keys := finished_keys c |}) r)
  | EReload targets =>
      Some {| chan := chan r; control := control r; snapshot := targets; rooms := rooms r;
              scheduler := scheduler r; account_cancels := account_cancels r;
              next_token := next_token r; cancelled := cancelled r; tasks := tasks r |}
  | EControl => if notified (control r) then Some (apply_control r) else None
  | EExpiry now =>
      if notified (control r) then None else Some (set_rooms (expire now <$> rooms r) r)
  | ERecv now =>
      if notified (control r) then None else
      match chan r with
      | [] => None
      | o :: rest => Some (apply_observation now o (set_chan rest r))
      end
  | ETaskEnd i =>
      match tasks r !! i with
      | None => None
      | Some t =>
          let r := signal (fun c => {| notified := true; drop_accounts := drop_accounts c;
            drop_rooms := drop_rooms c; unseed_accounts := unseed_accounts c;
            finished_keys := finished_keys c ++ [task_key t] |}) r in
          Some {| chan := chan r; control := control r; snapshot := snapshot r; rooms := rooms r;
                  scheduler := scheduler r; account_cancels := account_cancels r;
                  next_token := next_token r; cancelled := cancelled r;
                  tasks := delete i (tasks r) |}
      end
  end.

Definition spawn_router (targets : list PushTarget) : Router :=
  {| chan := []; control := {| notified := false; drop_accounts := ∅; drop_rooms := ∅;
                               unseed_accounts := ∅; finished_keys := [] |};
     snapshot := targets; rooms := ∅; scheduler := new_scheduler; account_cancels := ∅;
     next_token := 0; cancelled := ∅; tasks := [] |}.

Inductive router_reach (targets : list PushTarget) : Router -> Prop :=
| reach_spawn : router_reach targets (spawn_router targets)
| reach_step e r r' : router_reach targets r -> router_step e r = Some r' -> router_reach targets r'.

(** ** The account's room-update reader (push/observe.rs)

    Ruma's push [Action] and the JSON parser are third-party: parameters. *)
Section Observe.
Context {Action Raw : Type} (is_notify : Action -> bool) (from_str : Raw -> option json).

Record TimelineEvent := { push_actions : option (list Action); raw : Raw }.

Definition class_of (actions : option (list Action)) : PushClass :=
  match actions with
  | None => Unknown
  | Some actions => if existsb is_notify actions then Notify else Silent
  end.

Definition messages_of (events : list TimelineEvent) (own_user_id : text) : list PushMessage :=
  omap (fun e => value ← from_str (raw e);
                 consider_event value own_user_id (class_of (push_actions e))) events.

(** One turn of [watch_room_updates]: a batch of joined rooms, or a lag. *)
Definition watch_turn (account : uuid) (own_user_id : text)
    (batch : option (list (text * list TimelineEvent))) : list Event :=
  match batch with
  | None => [EUnseedAccount account]
  | Some joined =>
      omap (fun '(room, events) =>
        let messages := messages_of events own_user_id in
        if bool_decide (messages = []) then None
        else Some (EObserve {| ob_account := account; ob_room := room; ob_after := None;
                               ob_messages := messages |})) joined
  end.
End Observe.

Definition count_observation (account : uuid) (room : text) (p : Z * Z) : Observation :=
  {| ob_account := account; ob_room := room; ob_after := Some p; ob_messages := [] |}.

(** ** The router's invariant *)

(** The keys in flight: the running tasks, the finished keys [ks] being applied
    and those not yet drained. *)
Definition flights (r : Router) (ks : list FlightKey) : list FlightKey :=
  (task_key <$> tasks r) ++ ks ++ finished_keys (control r).

Definition flights_ok (r : Router) (ks : list FlightKey) : Prop :=
  sched_inv (scheduler r) /\ NoDup (flights r ks) /\
  in_flight (scheduler r) = list_to_set (flights r ks).

(** Tokens: an account's current token is live and only its own sends watch it;
    a send's token is its account's current one or cancelled. *)
Record tokens_ok (r : Router) : Prop := {
  tk_live a k : account_cancels r !! a = Some k -> k < next_token r /\ k ∉ cancelled r;
  tk_own a b k : account_cancels r !! a = Some k -> account_cancels r !! b = Some k -> a = b;
  tk_task t : t ∈ tasks r ->
    match job_room (t_job t) with
    | None => t_token t = None
    | Some (a, _) => exists k, t_token t = Some k /\ k < next_token r /\
        (account_cancels r !! a = Some k \/ k ∈ cancelled r) /\
        (forall b, account_cancels r !! b = Some k -> b = a)
    end;
  tk_past k : k ∈ cancelled r -> k < next_token r;
}.

Record router_ok (r : Router) : Prop := {
  ro_flights : flights_ok r [];
  ro_tokens : tokens_ok r;
  ro_signal : finished_keys (control r) <> [] -> notified (control r) = true;
}.

(** The parts [start_job] leaves alone, and what it adds. *)
Definition same_but_tasks (r r' : Router) (js : list Job) : Prop :=
  chan r' = chan r /\ control r' = control r /\ snapshot r' = snapshot r /\ rooms r' = rooms r /\
  scheduler r' = scheduler r /\ cancelled r' = cancelled r /\
  (t_job <$> tasks r') = (t_job <$> tasks r) ++ js /\
  exists ts, tasks r' = tasks r ++ ts.

Lemma start_job_same j r : same_but_tasks r (start_job j r) [j].
Proof.
  unfold start_job, same_but_tasks.
  destruct (job_room j) as [[a x]|]; [destruct (account_cancels r !! a)|];
    cbn; rewrite fmap_app; repeat (split; [done|]); eauto.
Qed.

Lemma start_job_tokens j r : tokens_ok r -> tokens_ok (start_job j r).
Proof.
  intros [Hl Ho Ht Hp]. unfold start_job.
  destruct (job_room j) as [[a x]|] eqn:Ej; [destruct (account_cancels r !! a) as [k|] eqn:Ea|];
    split; cbn; auto.
  - intros t [H|H%list_elem_of_singleton]%elem_of_app; [by apply Ht|]. subst t. cbn. rewrite Ej.
    exists k. destruct (Hl _ _ Ea). eauto 10.
  - intros b k [[<- <-]|[_ H]]%lookup_insert_Some.
    + split; [lia|]. intros H%Hp. lia.
    + destruct (Hl _ _ H). split; [lia|done].
  - intros b b' k [[<- <-]|[Hne H]]%lookup_insert_Some [[<- H']|[Hne' H']]%lookup_insert_Some;
      [done| | |by eapply Ho].
    + destruct (Hl _ _ H'). lia.
    + subst. destruct (Hl _ _ H). lia.
  - intros t [H|H%list_elem_of_singleton]%elem_of_app.
    + specialize (Ht _ H). destruct (job_room (t_job t)) as [[b y]|]; [|done].
      destruct Ht as (k & Hk & Hlt & Hc & Hown). exists k. split; [done|split; [lia|split]].
      * destruct Hc as [Hc|Hc]; [|auto]. left. rewrite lookup_insert_ne; [done|].
        intros ->. congruence.
      * intros b' [[<- <-]|[_ ?]]%lookup_insert_Some; [lia|auto].
    + subst t. cbn. rewrite Ej. exists (next_token r). split; [done|split; [lia|split]].
      * left. apply lookup_insert_eq.
      * intros b [[<- _]|[_ H]]%lookup_insert_Some; [done|]. destruct (Hl _ _ H). lia.
  - intros k H%Hp. lia.
  - intros t [H|H%list_elem_of_singleton]%elem_of_app; [by apply Ht|]. subst t. cbn. by rewrite Ej.
Qed.

Lemma start_jobs_same js r : same_but_tasks r (start_jobs js r) js.
Proof.
  revert r. induction js as [|j js IH]; intros r.
  - unfold same_but_tasks. cbn. repeat (split; [done|]). split; [by rewrite app_nil_r|].
    exists []. by rewrite app_nil_r.
  - destruct (start_job_same j r) as (H1 & H2 & H3 & H4 & H5 & H6 & H7 & ts & H8).
    destruct (IH (start_job j r)) as (G1 & G2 & G3 & G4 & G5 & G6 & G7 & ts' & G8).
    cbn. unfold same_but_tasks, start_jobs in *. rewrite G1, G2, G3, G4, G5, G6, G7, G8, H8.
    repeat (split; [done|]). split; [rewrite <- H8, H7, <- app_assoc; done|].
    exists (ts ++ ts'). by rewrite app_assoc.
Qed.

Lemma start_jobs_tokens js r : tokens_ok r -> tokens_ok (start_jobs js r).
Proof.
  revert r. induction js as [|j js IH]; intros r H; [done|]. cbn. apply IH.
  by apply start_job_tokens.
Qed.

Lemma task_keys r : task_key <$> tasks r = job_key <$> (t_job <$> tasks r).
Proof. by rewrite <- list_fmap_compose. Qed.

Lemma set_scheduler_tokens s r : tokens_ok r -> tokens_ok (set_scheduler s r).
Proof. intros []. by split. Qed.

Lemma apply_finished_ok key ks r :
  flights_ok r (key :: ks) -> flights_ok (apply_finished key r) ks.
Proof.
  intros (Hinv & Hnd & Hfl). unfold apply_finished.
  assert (key ∈ in_flight (scheduler r)) as Hin.
  { rewrite Hfl. unfold flights. set_solver. }
  pose proof (finished_spec _ _ Hinv Hin) as Hspec.
  destruct (finished _ _) as [s js]. destruct Hspec as [Hm Hinv'].
  destruct (start_jobs_same js (set_scheduler s r)) as (_ & Hc & _ & _ & Hs & _ & Ht & _).
  unfold flights_ok, flights in *. rewrite Hs, Hc, !task_keys, Ht in *. cbn in *.
  rewrite fmap_app. fold (keys js). set (A := job_key <$> (t_job <$> tasks r)) in *.
  set (F := ks ++ finished_keys (control r)) in *.
  assert (A ++ key :: F ≡ₚ key :: (A ++ F)) as Hp by (by rewrite Permutation_middle).
  rewrite Hp in Hnd. apply NoDup_cons in Hnd as [Hk Hnd]. split; [done|].
  assert (in_flight (scheduler r) ∖ {[key]} = list_to_set (A ++ F)) as Hrel.
  { rewrite Hfl. apply set_eq. intros x. rewrite elem_of_difference, !elem_of_list_to_set, Hp.
    rewrite elem_of_cons, elem_of_singleton. set_solver. }
  destruct Hm as [Hjs Hfresh _ Hfl' _]. cbn in Hfresh, Hfl'. rewrite Hrel in Hfresh, Hfl'.
  setoid_rewrite elem_of_list_to_set in Hfresh. split.
  - rewrite <- app_assoc, (Permutation_app_comm A), <- app_assoc, (Permutation_app_comm F).
    apply NoDup_app. split; [done|split; [done|done]].
  - rewrite Hfl'. apply set_eq. intros x. set_solver.
Qed.

Lemma apply_finished_tokens key r : tokens_ok r -> tokens_ok (apply_finished key r).
Proof.
  intros H. unfold apply_finished. destruct (finished _ _) as [s js].
  by apply start_jobs_tokens, set_scheduler_tokens.
Qed.

(** The parts of the router the scheduling operations leave alone. *)
Definition same_signals (r r' : Router) : Prop :=
  control r' = control r /\ cancelled r' = cancelled r /\ rooms r' = rooms r.

Lemma apply_finished_signals key r : same_signals r (apply_finished key r).
Proof.
  unfold apply_finished. destruct (finished _ _) as [s js].
  destruct (start_jobs_same js (set_scheduler s r)) as (_ & ? & _ & ? & _ & ? & _). done.
Qed.

Lemma enqueue_job_ok j r : flights_ok r [] -> flights_ok (enqueue_job j r) [].
Proof.
  intros (Hinv & Hnd & Hfl). unfold enqueue_job.
  pose proof (enqueue_inv _ j Hinv) as Hinv'.
  destruct (enqueue_cases (scheduler r) j)
    as [[_ E]|[(_ & _ & o & _ & E)|(Hfresh & _ & E)]]; rewrite E in *; cbn [option_list];
    [done|done|].
  cbn. destruct (start_job_same j (set_scheduler
    {| in_flight := {[job_key j]} ∪ in_flight (scheduler r); waiting := waiting (scheduler r);
       order := order (scheduler r) |} r)) as (_ & Hc & _ & _ & Hs & _ & Ht & _).
  unfold flights_ok, flights in *. rewrite Hs, Hc, !task_keys, Ht in *. cbn in *.
  rewrite fmap_app. cbn. set (A := job_key <$> (t_job <$> tasks r)) in *.
  set (F := finished_keys (control r)) in *. split; [done|]. rewrite Hfl in Hfresh |- *.
  rewrite elem_of_list_to_set in Hfresh. split; [|set_solver].
  rewrite <- app_assoc. cbn. rewrite <- Permutation_middle. by apply NoDup_cons.
Qed.

Lemma enqueue_job_tokens j r : tokens_ok r -> tokens_ok (enqueue_job j r).
Proof.
  intros H. unfold enqueue_job. destruct (enqueue _ _) as [s st].
  by apply start_jobs_tokens, set_scheduler_tokens.
Qed.

Lemma enqueue_job_signals j r : same_signals r (enqueue_job j r).
Proof.
  unfold enqueue_job. destruct (enqueue _ _) as [s st].
  destruct (start_jobs_same (option_list st) (set_scheduler s r)) as (_ & ? & _ & ? & _ & ? & _).
  done.
Qed.

Lemma retain_flights_ok P f r ks :
  scheduler (f r) = retain_jobs P (scheduler r) -> tasks (f r) = tasks r ->
  control (f r) = control r -> flights_ok r ks -> flights_ok (f r) ks.
Proof.
  intros Hs Ht Hc (Hinv & Hnd & Hfl). unfold flights_ok, flights in *.
  rewrite Hs, Ht, Hc. split; [by apply retain_inv|done].
Qed.

Lemma drop_account_tokens a r : tokens_ok r -> tokens_ok (apply_drop_account a r).
Proof.
  intros [Hl Ho Ht Hp]. split; cbn.
  - intros b k [Hne Hb]%lookup_delete_Some. destruct (Hl _ _ Hb). split; [done|].
    destruct (account_cancels r !! a) as [k'|] eqn:Ea; [|done].
    assert (k <> k') by (intros ->; apply Hne; by eapply Ho). set_solver.
  - intros b b' k [_ H]%lookup_delete_Some [_ H']%lookup_delete_Some. by eapply Ho.
  - intros t H. specialize (Ht _ H). destruct (job_room (t_job t)) as [[b x]|]; [|done].
    destruct Ht as (k & Hk & Hlt & Hc & Hown). exists k. split; [done|split; [done|split]].
    + destruct Hc as [Hc|Hc]; [|right; destruct (account_cancels r !! a); set_solver].
      destruct (base.decide (a = b)) as [->|Hne]; [rewrite Hc; set_solver|].
      left. by rewrite lookup_delete_ne.
    + intros b' [_ ?]%lookup_delete_Some. auto.
  - intros k. destruct (account_cancels r !! a) as [k'|] eqn:Ea; [|auto].
    rewrite elem_of_union, elem_of_singleton. intros [->|?]; [|auto]. by destruct (Hl _ _ Ea).
Qed.

Lemma finished_fold_ok ks r :
  flights_ok r ks -> tokens_ok r ->
  flights_ok (foldl (fun r k => apply_finished k r) r ks) [] /\
  tokens_ok (foldl (fun r k => apply_finished k r) r ks) /\
  same_signals r (foldl (fun r k => apply_finished k r) r ks).
Proof.
  revert r. induction ks as [|k ks IH]; intros r Hf Ht; [done|]. cbn.
  destruct (apply_finished_signals k r) as (E1 & E2 & E3).
  destruct (IH (apply_finished k r)) as (? & ? & G1 & G2 & G3);
    [by apply apply_finished_ok|by apply apply_finished_tokens|].
  split; [done|split; [done|]]. unfold same_signals. by rewrite G1, G2, G3.
Qed.

(** [apply_control] before its last loop. *)
Definition drained (r : Router) : Router :=
  set_control {| notified := false; drop_accounts := ∅; drop_rooms := ∅;
                 unseed_accounts := ∅; finished_keys := [] |} r.
Definition after_drops (r : Router) : Router :=
  foldl (fun r a => apply_unseed a r)
    (foldl (fun r k => apply_drop_room k r)
       (foldl (fun r a => apply_drop_account a r) (drained r) (elements (drop_accounts (control r))))
       (elements (drop_rooms (control r))))
    (elements (unseed_accounts (control r))).

Lemma apply_control_eq r :
  apply_control r
  = foldl (fun r k => apply_finished k r) (after_drops r) (finished_keys (control r)).
Proof. done. Qed.

Definition control_mid (c : Control) (ks : list FlightKey) (r : Router) : Prop :=
  flights_ok r ks /\ tokens_ok r /\ control r = c.

Lemma after_drops_ok r :
  flights_ok r [] -> tokens_ok r ->
  control_mid (control (drained r)) (finished_keys (control r)) (after_drops r).
Proof.
  intros Hf Ht. unfold after_drops.
  apply foldl_inv. { intros x a (? & Htx & ?). split; [done|split; [by destruct Htx|done]]. }
  apply foldl_inv.
  { intros x k (? & Htx & ?). split; [|split; [by destruct Htx|done]].
    by eapply (retain_flights_ok _ (apply_drop_room k)). }
  apply foldl_inv.
  { intros x a (? & ? & ?). split; [|split; [by apply drop_account_tokens|done]].
    by eapply (retain_flights_ok _ (apply_drop_account a)). }
  destruct Hf as (Hinv & Hnd & Hfl). split; [split; [done|]|split; [by destruct Ht|done]].
  unfold flights in *. cbn in *. by rewrite !app_nil_r.
Qed.

Lemma apply_control_ok r : router_ok r -> router_ok (apply_control r).
Proof.
  intros [Hf Ht _]. rewrite apply_control_eq.
  destruct (after_drops_ok r Hf Ht) as (H1 & H2 & H3).
  destruct (finished_fold_ok _ _ H1 H2) as (? & ? & E & _).
  split; [done|done|]. rewrite E, H3. done.
Qed.

Lemma apply_observation_ok now o r : router_ok r -> router_ok (apply_observation now o r).
Proof.
  intros [Hf Ht Hs]. unfold apply_observation. destruct (observe_memory _ _ _ _) as [m d].
  apply (foldl_inv (fun r' => router_ok r')).
  - intros x j [? ? ?]. destruct (enqueue_job_signals j x) as (E & _).
    split; [by apply enqueue_job_ok|by apply enqueue_job_tokens|by rewrite E].
  - by split; [|destruct Ht|].
Qed.

Lemma router_step_ok e r r' : router_ok r -> router_step e r = Some r' -> router_ok r'.
Proof.
  intros Hok. destruct e; cbn [router_step]; intros H.
  - simplify_eq. case_bool_decide; [|done]. by destruct Hok as [? [] ?].
  - simplify_eq. by destruct Hok as [? [] ?].
  - simplify_eq. by destruct Hok as [? [] ?].
  - simplify_eq. by destruct Hok as [? [] ?].
  - simplify_eq. by destruct Hok as [? [] ?].
  - destruct (notified (control r)); simplify_eq. by apply apply_control_ok.
  - destruct (notified (control r)) eqn:En; simplify_eq.
    by destruct Hok as [? [] ?].
  - destruct (notified (control r)) eqn:En; [done|]. destruct (chan r); simplify_eq.
    apply apply_observation_ok. by destruct Hok as [? [] ?].
  - destruct (tasks r !! i) as [t|] eqn:Ei; simplify_eq.
    destruct Hok as [(Hinv & Hnd & Hfl) [Hl Ho Htk Hp] Hsg].
    pose proof (delete_Permutation _ _ _ Ei) as Hperm.
    assert ((task_key <$> tasks r) ++ finished_keys (control r)
      ≡ₚ (task_key <$> delete i (tasks r)) ++ finished_keys (control r) ++ [task_key t]) as HP.
    { rewrite Hperm at 1. cbn. rewrite app_assoc, <- Permutation_cons_append. done. }
    split; [split; [done|]|split; cbn; [done|done| |done]|done]; unfold flights in *; cbn in *.
    + rewrite <- HP. split; [done|]. rewrite Hfl. apply set_eq. intros x.
      rewrite !elem_of_list_to_set. by rewrite HP.
    + intros t' Ht'. apply Htk. rewrite Hperm. set_solver.
Qed.

Lemma reach_ok targets r : router_reach targets r -> router_ok r.
Proof.
  induction 1 as [|e r r' _ IH Hs]; [|by eapply router_step_ok].
  assert (sched_ok new_scheduler) as Hs.
  { split; cbn; [constructor|set_solver| | |].
    - intros k [? H]. by rewrite lookup_empty in H.
    - intros k j H. by rewrite lookup_empty in H.
    - vm_compute. lia. }
  split; [split; [by split|split; [constructor|done]]|split; cbn|done].
  - intros a k H. by rewrite lookup_empty in H.
  - intros a b k H. by rewrite lookup_empty in H.
  - set_solver.
  - set_solver.
Qed.

(** ** What the scheduler promises

    The abstract scheduler knows only which keys run and which job is pending
    for each key. *)
Record SchedSpec := { running : gset FlightKey; pending : gmap FlightKey Job }.
Definition sched_abs (s : Scheduler) : SchedSpec :=
  {| running := in_flight s; pending := waiting s |}.

(** A job starts if its key is idle and a permit is free; otherwise it becomes
    its key's pending job, the newest replacing the older one. *)
Inductive spec_enqueue (a : SchedSpec) (j : Job) : SchedSpec -> option Job -> Prop :=
| spec_start :
    job_key j ∉ running a -> (size (running a) < SEND_PERMITS)%nat ->
    spec_enqueue a j {| running := {[job_key j]} ∪ running a; pending := pending a |} (Some j)
| spec_wait :
    (job_key j ∈ running a \/ size (running a) = SEND_PERMITS) ->
    spec_enqueue a j {| running := running a; pending := <[job_key j := j]> (pending a) |} None.

(** A finished key is released; then pending jobs start, each under its own
    idle key, until the permits are used up or nothing more can start. *)
Inductive spec_finished (a : SchedSpec) (key : FlightKey) : SchedSpec -> list Job -> Prop :=
| spec_finish js pending' :
    NoDup (keys js) ->
    (forall j, j ∈ js -> pending a !! job_key j = Some j /\
                         job_key j ∉ running a ∖ {[key]}) ->
    (forall k, pending' !! k = if bool_decide (k ∈ keys js) then None else pending a !! k) ->
    let running' := running a ∖ {[key]} ∪ list_to_set (keys js) in
    (size running' <= SEND_PERMITS)%nat ->
    (size running' = SEND_PERMITS \/ forall k, is_Some (pending' !! k) -> k ∈ running') ->
    spec_finished a key {| running := running'; pending := pending' |} js.

(** [C2] The scheduler refines its abstract specification: [enqueue] and
    [finished] are its two operations on the keys running and the jobs pending,
    and both keep the invariant under which they do so.  In particular the
    newest job of a key wins, no key runs twice, and a free permit never leaves
    a startable job waiting. *)
Theorem scheduler_refines s :
  sched_inv s ->
  (forall j, let '(s', started) := enqueue s j in
     sched_inv s' /\ spec_enqueue (sched_abs s) j (sched_abs s') started) /\
  (forall key, key ∈ in_flight s ->
     let '(s', js) := finished s key in
     sched_inv s' /\ spec_finished (sched_abs s) key (sched_abs s') js).
Proof.
  intros Hinv. split.
  - intros j. pose proof (enqueue_inv s j Hinv) as Hinv'.
    pose proof (ok_permits _ (proj1 Hinv)).
    destruct (enqueue_cases s j) as [[? E]|[(? & ? & o & _ & E)|(? & ? & E)]];
      rewrite E in *; (split; [done|]); constructor; cbn; auto. right. lia.
  - intros key Hkey. pose proof (finished_spec s key Hinv Hkey) as Hspec.
    destruct (finished s key) as [s' js]. destruct Hspec as [[Hnd Hfr Hfrom Hfl Hw] Hinv'].
    split; [done|]. unfold sched_abs. rewrite Hfl. cbn [release in_flight] in *.
    apply spec_finish; cbn; [done| |done| |].
    + intros j Hj. split; [by apply Hfrom|]. apply Hfr. by apply list_elem_of_fmap_2.
    + rewrite <- Hfl. apply (ok_permits _ (proj1 Hinv')).
    + rewrite <- Hfl. destruct Hinv' as [Hok Hfull].
      destruct (order s') as [|k o] eqn:Eo; [right|left; by apply Hfull].
      intros k Hk. destruct (ok_waiting _ Hok _ Hk) as [?|H]; [done|].
      rewrite Eo in H. by apply not_elem_of_nil in H.
Qed.

Definition tgt (i : Z) (p : string) (b : bool) : PushTarget :=
  {| tg_id := i; tg_provider := lit p; tg_token := t! "device"; tg_environment := None;
     tg_disclosure := t! "activity"; tg_badge := b; tg_updated_at := 0 |}.
Definition badge_job (i : Z) : Job := {| j_target := tgt i "apns" true; j_work := Badge |}.

Lemma sched_inv_new : sched_inv new_scheduler.
Proof. apply (reach_ok [] (spawn_router [])). constructor. Qed.

Lemma scheduler_refines_witness :
  sched_inv (enqueue new_scheduler (badge_job 1)).1 /\
  forall key, key ∈ in_flight new_scheduler ->
    let '(s', js) := finished new_scheduler key in
    sched_inv s' /\ spec_finished (sched_abs new_scheduler) key (sched_abs s') js.
Proof.
  destruct (scheduler_refines new_scheduler sched_inv_new) as [H1 H2].
  split; [exact (proj1 (H1 (badge_job 1)))|exact H2].
Defined.

(** [C26] In every reachable state at most four sends run and no two share a
    key; every waiting job is filed under its own key, whose send runs or which
    is queued exactly once; and while a job waits, some send runs or a finished
    key is about to be applied, so a waiting job is never stranded. *)
Theorem router_bounded_and_not_stranded targets r :
  router_reach targets r ->
  (length (tasks r) <= SEND_PERMITS)%nat /\ NoDup (task_key <$> tasks r) /\
  NoDup (order (scheduler r)) /\
  forall k j, waiting (scheduler r) !! k = Some j ->
    job_key j = k /\ (k ∈ in_flight (scheduler r) \/ k ∈ order (scheduler r)) /\
    (tasks r <> [] \/ (notified (control r) = true /\ finished_keys (control r) <> [])).
Proof.
  intros [(Hinv & Hnd & Hfl) _ Hsig]%reach_ok. pose proof Hinv as [Hok Hfull].
  unfold flights in *. cbn in Hnd, Hfl. pose proof (ok_permits _ Hok) as Hp.
  rewrite Hfl, size_list_to_set, length_app, length_fmap in Hp by done.
  pose proof Hnd as Hnd'. apply NoDup_app in Hnd' as [Hnt _].
  split; [lia|split; [done|split; [apply Hok|]]].
  intros k j Hj. split; [by apply (ok_key _ Hok)|].
  assert (k ∈ in_flight (scheduler r) \/ k ∈ order (scheduler r)) as Hk
    by (apply (ok_waiting _ Hok); eauto).
  split; [done|]. destruct (tasks r) as [|t ts]; [right|by left].
  assert (finished_keys (control r) <> []) as Hne; [|auto].
  intros E. rewrite E in Hfl. cbn in Hfl. destruct Hk as [Hk|Hk]; [set_solver|].
  assert (order (scheduler r) <> []) as Ho by (intros Eo; rewrite Eo in Hk; set_solver).
  apply Hfull in Ho. rewrite Hfl, size_empty in Ho. done.
Qed.

(** A run of the router. *)
Fixpoint router_run (es : list Event) (r : Router) : option Router :=
  match es with
  | [] => Some r
  | e :: es => router_step e r ≫= router_run es
  end.

Lemma run_reach targets es r r' :
  router_reach targets r -> router_run es r = Some r' -> router_reach targets r'.
Proof.
  revert r. induction es as [|e es IH]; intros r Hr; cbn; [by intros [= <-]|].
  intros (r1 & H1 & H2)%bind_Some. eapply IH; [|done]. by eapply reach_step.
Qed.

Definition demo_obs (room : string) (n : Z) (ms : list PushMessage) : Event :=
  EObserve {| ob_account := 7; ob_room := lit room; ob_after := Some (n, 0); ob_messages := ms |}.
Definition demo_router : Router :=
  default (spawn_router []) (router_run
    [demo_obs "!r" 0 []; demo_obs "!r" 1 [note "$a" Notify]; demo_obs "!r" 2 [note "$b" Notify];
     ERecv 0; ERecv 1; ERecv 2] (spawn_router [tgt 1 "apns" true; tgt 2 "fcm" false])).

Lemma demo_router_reach : router_reach [tgt 1 "apns" true; tgt 2 "fcm" false] demo_router.
Proof.
  eapply run_reach; [constructor|]. unfold demo_router.
  match goal with |- _ = Some (default _ ?o) => assert (is_Some o) as [x Hx] end;
    [apply (bool_decide_unpack _); vm_compute; exact I|].
  by rewrite Hx.
Qed.

Lemma router_bounded_and_not_stranded_witness :
  length (tasks demo_router) = 2%nat /\ size (waiting (scheduler demo_router)) = 2%nat /\
  (length (tasks demo_router) <= SEND_PERMITS)%nat.
Proof.
  split; [vm_compute; reflexivity|split; [vm_compute; reflexivity|]].
  apply (router_bounded_and_not_stranded _ _ demo_router_reach).
Defined.

(** ** Progress *)

Definition load (s : Scheduler) : nat := (size (waiting s) + size (in_flight s))%nat.

Lemma moved_size s s' js :
  moved s s' js -> (size (waiting s') + length js = size (waiting s))%nat /\
                   (size (in_flight s') = size (in_flight s) + length js)%nat.
Proof.
  intros [Hnd Hfresh Hfrom Hfl Hw].
  assert (size (list_to_set (C := gset FlightKey) (keys js)) = length js) as Hs.
  { rewrite size_list_to_set by done. apply length_fmap. }
  split.
  - rewrite <- !size_dom, <- Hs, <- size_union.
    + f_equal. apply set_eq. intros k.
      rewrite elem_of_union, !elem_of_dom, elem_of_list_to_set, Hw.
      case_bool_decide as Hk; [|tauto]. split; [intros _|by right].
      apply list_elem_of_fmap in Hk as (j & -> & Hj). rewrite (Hfrom _ Hj). eauto.
    + intros k Hk Hk'. rewrite elem_of_dom, Hw in Hk. rewrite elem_of_list_to_set in Hk'.
      rewrite bool_decide_eq_true_2 in Hk by done. by destruct Hk.
  - rewrite Hfl, size_union, Hs; [done|]. intros k Hk Hk'%elem_of_list_to_set.
    by apply (Hfresh k).
Qed.

Lemma finished_load key ks r :
  flights_ok r (key :: ks) ->
  S (load (scheduler (apply_finished key r))) = load (scheduler r).
Proof.
  intros (Hinv & _ & Hfl). unfold apply_finished.
  assert (key ∈ in_flight (scheduler r)) as Hin by (rewrite Hfl; unfold flights; set_solver).
  pose proof (finished_spec _ _ Hinv Hin) as Hspec. destruct (finished _ _) as [s js].
  destruct Hspec as [Hm _].
  destruct (start_jobs_same js (set_scheduler s r)) as (_ & _ & _ & _ & -> & _).
  apply moved_size in Hm as [H1 H2]. cbn in *. pose proof (size_remove _ _ Hin).
  unfold load. lia.
Qed.

Lemma finished_fold_load ks r :
  flights_ok r ks -> tokens_ok r ->
  (load (scheduler (foldl (fun r k => apply_finished k r) r ks)) + length ks
   = load (scheduler r))%nat.
Proof.
  revert r. induction ks as [|k ks IH]; intros r Hf Ht; cbn; [lia|].
  rewrite <- (finished_load _ _ _ Hf), <- (IH (apply_finished k r));
    [lia|by apply apply_finished_ok|by apply apply_finished_tokens].
Qed.

Lemma retain_load P s : (load (retain_jobs P s) <= load s)%nat.
Proof.
  unfold load, retain_jobs. cbn. apply Nat.add_le_mono_r. apply map_size_filter.
Qed.

Lemma after_drops_load r : (load (scheduler (after_drops r)) <= load (scheduler r))%nat.
Proof.
  unfold after_drops.
  repeat (apply (foldl_inv (fun r' => load (scheduler r') <= load (scheduler r))%nat);
    [intros x a H; cbn; try (etransitivity; [apply retain_load|]); done|]). done.
Qed.

Lemma control_load r :
  router_ok r ->
  (load (scheduler (apply_control r)) + length (finished_keys (control r)) <= load (scheduler r))%nat
  /\ notified (control (apply_control r)) = false.
Proof.
  intros [Hf Ht _]. destruct (after_drops_ok r Hf Ht) as (H1 & H2 & H3).
  destruct (finished_fold_ok _ _ H1 H2) as (_ & _ & E & _).
  rewrite apply_control_eq. rewrite E, H3, finished_fold_load by done.
  split; [apply after_drops_load|done].
Qed.

Definition ends_or_control (e : Event) : Prop :=
  match e with ETaskEnd _ | EControl => True | _ => False end.

Lemma idle_empty r :
  router_ok r -> tasks r = [] -> notified (control r) = false ->
  waiting (scheduler r) = ∅ /\ in_flight (scheduler r) = ∅.
Proof.
  intros [([Hok Hfull] & Hnd & Hfl) _ Hsig] Ht Hn. unfold flights in *. cbn in *.
  rewrite Ht in Hfl. cbn in Hfl.
  destruct (finished_keys (control r)); [|by rewrite Hsig in Hn].
  cbn in Hfl. split; [|done]. apply map_empty. intros k.
  destruct (waiting (scheduler r) !! k) as [j|] eqn:Ej; [|done].
  assert (order (scheduler r) = []) as Ho.
  { destruct (order (scheduler r)) eqn:E; [done|]. rewrite Hfl, size_empty in Hfull.
    by specialize (Hfull ltac:(done)). }
  destruct (ok_waiting _ Hok k) as [H|H]; [eauto|rewrite Hfl in H; set_solver|].
  rewrite Ho in H. set_solver.
Qed.

Lemma drain_quiet n r :
  router_ok r -> notified (control r) = false -> (load (scheduler r) <= n)%nat ->
  exists es r', Forall ends_or_control es /\ (length es <= 2 * n)%nat /\
    router_run es r = Some r' /\ tasks r' = [] /\ waiting (scheduler r') = ∅ /\
    in_flight (scheduler r') = ∅.
Proof.
  revert r. induction n as [|n IH]; intros r Hok Hn Hl; destruct (tasks r) as [|t ts] eqn:Et.
  1, 3: destruct (idle_empty r Hok Et Hn); exists [], r; repeat split; try done; cbn; lia.
  - exfalso. destruct Hok as [(_ & _ & Hfl) _ _]. unfold flights, load in *. rewrite Et in Hfl.
    assert (size (in_flight (scheduler r)) = 0)%nat as Hz%size_empty_inv by lia. set_solver.
  - destruct (router_step (ETaskEnd 0) r) as [r1|] eqn:E1; [|cbn in E1; by rewrite Et in E1].
    pose proof (router_step_ok _ _ _ Hok E1) as Hok1. pose proof E1 as E1'.
    cbn in E1. rewrite Et in E1. cbn in E1. injection E1 as E1.
    assert (notified (control r1) = true) as Hn1 by by subst.
    destruct (control_load r1 Hok1) as [Hload Hquiet].
    assert (load (scheduler r1) = load (scheduler r)) as Hsame by by subst.
    assert (0 < length (finished_keys (control r1)))%nat as Hpos.
    { subst r1. cbn. rewrite length_app. cbn. lia. }
    destruct (IH (apply_control r1)) as (es & r' & Hes & Hlen & Hrun & Hend);
      [by apply apply_control_ok|done|lia|].
    exists (ETaskEnd 0 :: EControl :: es), r'. split; [by repeat constructor|].
    split; [cbn; lia|split; [|done]]. cbn [router_run]. rewrite E1'.
    cbn [mbind option_bind router_run router_step]. by rewrite Hn1.
Qed.

(** Everything queued gets its turn: from any reachable state the sends in
    flight ending and the router handling its signals is enough, within twice
    the number of waiting and running jobs plus one steps, to leave nothing
    waiting and nothing running. *)
Theorem router_drains targets r :
  router_reach targets r ->
  exists es r', Forall ends_or_control es /\ (length es <= 2 * load (scheduler r) + 1)%nat /\
    router_run es r = Some r' /\ tasks r' = [] /\ waiting (scheduler r') = ∅ /\
    in_flight (scheduler r') = ∅.
Proof.
  intros Hok%reach_ok. destruct (notified (control r)) eqn:En.
  - destruct (control_load r Hok) as [Hload Hquiet].
    destruct (drain_quiet (load (scheduler r)) (apply_control r))
      as (es & r' & Hes & Hlen & Hrun & Hend); [by apply apply_control_ok|done|lia|].
    exists (EControl :: es), r'. split; [by constructor|split; [cbn; lia|split; [|done]]].
    cbn. by rewrite En.
  - destruct (drain_quiet (load (scheduler r)) r) as (es & r' & Hes & Hlen & Hend);
      [done|done|lia|]. exists es, r'. split; [done|split; [lia|done]].
Qed.

Lemma router_drains_witness :
  exists es r', router_run es demo_router = Some r' /\ waiting (scheduler r') = ∅.
Proof.
  destruct (router_drains _ _ demo_router_reach) as (es & r' & _ & _ & H & _ & H' & _).
  exists es, r'. split; [exact H|exact H'].
Defined.

(** ** Removing an account *)

Definition job_account (j : Job) : option uuid := fst <$> job_room j.

(** Nothing of account [a] is remembered, waits, or has a live token. *)
Definition silenced (a : uuid) (r : Router) : Prop :=
  (forall x, rooms r !! (a, x) = None) /\
  (forall k j, waiting (scheduler r) !! k = Some j -> job_account j <> Some a) /\
  account_cancels r !! a = None.

Lemma drop_account_silences a r : silenced a (apply_drop_account a r).
Proof.
  split; [|split]; cbn.
  - intros x. apply map_lookup_filter_None. right. intros m _ H. by apply H.
  - intros k j [_ H]%map_lookup_filter_Some. apply negb_true_iff, bool_decide_eq_false in H.
    exact H.
  - apply lookup_delete_eq.
Qed.

Lemma drop_account_keeps_silenced a b r : silenced a r -> silenced a (apply_drop_account b r).
Proof.
  intros (H1 & H2 & H3). split; [|split]; cbn.
  - intros x. apply map_lookup_filter_None. left. apply H1.
  - intros k j [H _]%map_lookup_filter_Some. by eapply H2.
  - apply lookup_delete_None. auto.
Qed.

Lemma drop_room_keeps_silenced a k r : silenced a r -> silenced a (apply_drop_room k r).
Proof.
  intros (H1 & H2 & H3). split; [|split; [|done]]; cbn.
  - intros x. apply lookup_delete_None. auto.
  - intros k' j [H _]%map_lookup_filter_Some. by eapply H2.
Qed.

Lemma unseed_keeps_silenced a b r : silenced a r -> silenced a (apply_unseed b r).
Proof.
  intros (H1 & H2 & H3). split; [|done]. intros x. cbn. by rewrite map_lookup_imap, H1.
Qed.

Lemma start_job_cancels j r a :
  job_account j <> Some a -> account_cancels (start_job j r) !! a = account_cancels r !! a.
Proof.
  unfold start_job, job_account. destruct (job_room j) as [[b x]|]; [|done]. cbn. intros H.
  destruct (account_cancels r !! b); [done|]. cbn. apply lookup_insert_ne. congruence.
Qed.

Lemma start_jobs_cancels js r a :
  (forall j, j ∈ js -> job_account j <> Some a) ->
  account_cancels (start_jobs js r) !! a = account_cancels r !! a.
Proof.
  revert r. induction js as [|j js IH]; intros r H; [done|].
  change (start_jobs (j :: js) r) with (start_jobs js (start_job j r)).
  rewrite IH by set_solver. apply start_job_cancels. set_solver.
Qed.

Lemma finished_keeps_silenced a key ks r :
  flights_ok r (key :: ks) -> silenced a r -> silenced a (apply_finished key r).
Proof.
  intros (Hinv & _ & Hfl) (H1 & H2 & H3).
  destruct (apply_finished_signals key r) as (_ & _ & Hr). unfold apply_finished in *.
  assert (key ∈ in_flight (scheduler r)) as Hin by (rewrite Hfl; unfold flights; set_solver).
  pose proof (finished_spec _ _ Hinv Hin) as Hspec. destruct (finished _ _) as [s js].
  destruct Hspec as [[_ _ Hfrom _ Hw] _].
  destruct (start_jobs_same js (set_scheduler s r)) as (_ & _ & _ & _ & Hs & _).
  split; [by rewrite Hr|split].
  - rewrite Hs. cbn. intros k j Hj. rewrite Hw in Hj. case_bool_decide; [done|]. by eapply H2.
  - rewrite start_jobs_cancels; [done|]. intros j Hj. eapply H2. by apply Hfrom.
Qed.

Lemma finished_fold_silenced a ks r :
  flights_ok r ks -> silenced a r -> silenced a (foldl (fun r k => apply_finished k r) r ks).
Proof.
  revert r. induction ks as [|k ks IH]; intros r Hf Hs; [done|]. cbn.
  apply IH; [by apply apply_finished_ok|by eapply finished_keeps_silenced].
Qed.

Lemma foldl_eventually {A B} (I : B -> Prop) (f : B -> A -> B) l b a :
  a ∈ l -> (forall b, I (f b a)) -> (forall b a', I b -> I (f b a')) -> I (foldl f b l).
Proof.
  intros Ha Hset Hkeep. revert b. induction l as [|a' l IH]; intros b; [set_solver|]. cbn.
  apply elem_of_cons in Ha as [->|Ha]; [by apply foldl_inv|by apply IH].
Qed.

Lemma after_drops_silenced a r :
  a ∈ drop_accounts (control r) -> silenced a (after_drops r).
Proof.
  intros Ha. unfold after_drops.
  apply foldl_inv; [intros; by apply unseed_keeps_silenced|].
  apply foldl_inv; [intros; by apply drop_room_keeps_silenced|].
  apply (foldl_eventually _ _ _ _ a); [by apply elem_of_elements|apply drop_account_silences|].
  intros. by apply drop_account_keeps_silenced.
Qed.

(** Which tokens the drops cancel. *)
Lemma after_drops_cancelled r k :
  k ∈ cancelled (after_drops r) ->
  k ∈ cancelled r \/ exists a, a ∈ drop_accounts (control r) /\ account_cancels r !! a = Some k.
Proof.
  set (I r' := (forall a k, account_cancels r' !! a = Some k -> account_cancels r !! a = Some k) /\
    (forall k, k ∈ cancelled r' -> k ∈ cancelled r \/
       exists a, a ∈ drop_accounts (control r) /\ account_cancels r !! a = Some k)).
  enough (I (after_drops r)) as [_ H] by apply H. unfold after_drops.
  apply foldl_inv; [done|]. apply foldl_inv; [done|]. apply foldl_inv_in.
  - intros r' a Ha%elem_of_elements [H1 H2]. split; cbn.
    + intros b k' [_ ?]%lookup_delete_Some. auto.
    + intros k'. destruct (account_cancels r' !! a) as [k2|] eqn:Ea; [|auto].
      rewrite elem_of_union, elem_of_singleton. intros [->|?]; [|auto]. right. eauto.
  - split; cbn; auto.
Qed.

Lemma after_drops_tasks r : tasks (after_drops r) = tasks r.
Proof.
  unfold after_drops. repeat (apply (foldl_inv (fun r' => tasks r' = tasks r)); [done|]). done.
Qed.

(** Removing an account silences it: once the router has handled the
    signal, no room of the account is remembered, no job of it waits, and every
    send of it still running has a cancelled token; and no running send of an
    account that was not removed has been cancelled. *)
Theorem removed_account_is_silenced targets r a :
  router_reach targets r -> a ∈ drop_accounts (control r) ->
  (forall x, rooms (apply_control r) !! (a, x) = None) /\
  (forall k j, waiting (scheduler (apply_control r)) !! k = Some j -> job_account j <> Some a) /\
  (forall t, t ∈ tasks (apply_control r) -> job_account (t_job t) = Some a ->
     exists k, t_token t = Some k /\ k ∈ cancelled (apply_control r)) /\
  (forall t k b, t ∈ tasks r -> job_account (t_job t) = Some b -> t_token t = Some k ->
     b ∉ drop_accounts (control r) -> k ∉ cancelled r -> k ∉ cancelled (apply_control r)).
Proof.
  intros Hok%reach_ok Ha. pose proof Hok as [Hf Ht _].
  destruct (after_drops_ok r Hf Ht) as (H1 & H2 & _).
  destruct (finished_fold_ok _ _ H1 H2) as (_ & Htk & _ & Hc & _).
  destruct (finished_fold_silenced a _ _ H1 (after_drops_silenced a r Ha)) as (S1 & S2 & S3).
  rewrite <- apply_control_eq in *. split; [done|split; [done|split]].
  - intros t Hin Hacc. pose proof (tk_task _ Htk t Hin) as Htask. unfold job_account in Hacc.
    destruct (job_room (t_job t)) as [[b x]|]; [|done]. cbn in Hacc. injection Hacc as ->.
    destruct Htask as (k & Hk & _ & [Hcur|Hcan] & _); [congruence|eauto].
  - intros t k b Hin Hacc Htok Hb Hn. rewrite Hc.
    intros [?|(a' & Ha' & Hcur)]%after_drops_cancelled; [done|].
    pose proof (tk_task _ Ht t Hin) as Htask. unfold job_account in Hacc.
    destruct (job_room (t_job t)) as [[b' x]|]; [|done]. cbn in Hacc. injection Hacc as ->.
    destruct Htask as (k' & Hk & _ & _ & Hown). simplify_eq. apply Hown in Hcur. by subst.
Qed.

Definition removing_router : Router :=
  default demo_router (router_step (EAccountRemoved 7) demo_router).

Lemma removed_account_is_silenced_witness :
  length (tasks removing_router) = 2%nat /\
  forall k j, waiting (scheduler (apply_control removing_router)) !! k = Some j ->
              job_account j <> Some 7.
Proof.
  split; [vm_compute; reflexivity|].
  apply (removed_account_is_silenced [tgt 1 "apns" true; tgt 2 "fcm" false]).
  - apply (reach_step _ (EAccountRemoved 7) demo_router); [exact demo_router_reach|reflexivity].
  - cbn. apply elem_of_union_l, elem_of_singleton. reflexivity.
Defined.

(** ** What an observation sends *)

(** A stale slot is never sent: whatever an observation sends is one of
    its own messages, or the message the room's memory had slotted less than
    [SLOT_TTL] ago; and an observation refreshes the stamp only of a message it
    newly slots. *)
Theorem stale_slot_never_sent now after ms m :
  let '(m', d) := observe_memory now after ms m in
  (forall x, send d = Some x ->
     x ∈ ms \/ exists at0, m_slot m = Some {| value := x; at_ := at0 |} /\
                            sat_sub now at0 < SLOT_TTL) /\
  (forall s, m_slot m' = Some s ->
     (value s ∈ ms /\ at_ s = now) \/
     exists s0, m_slot m = Some s0 /\ value s0 = value s /\ at_ s = at_ s0 /\
                sat_sub now (at_ s) < SLOT_TTL).
Proof.
  unfold observe_memory.
  destruct (decide_origin (memory_state (expire now m)) after ms) as (_ & Hs & Hsl).
  set (d := PushDecision.decide _ _ _) in *.
  assert (forall x, slot (memory_state (expire now m)) = Some x -> exists s0,
    m_slot m = Some s0 /\ m_slot (expire now m) = Some s0 /\ value s0 = x /\
    sat_sub now (at_ s0) < SLOT_TTL) as Hfresh.
  { intros x. cbn. intros (s0 & H & ->)%fmap_Some. pose proof H as H'.
    apply bind_Some in H as (s1 & Hm & H). unfold still_fresh in H.
    destruct (SLOT_TTL <=? _) eqn:E; simplify_eq. b2p. eauto 10. }
  split.
  - intros x Hx. destruct (Hs x Hx) as [[? _]|Hold]; [by left|right].
    destruct (Hfresh x Hold) as ([v a0] & ? & _ & <- & ?). eauto.
  - cbn [m_slot]. intros s (x & Hx & ->)%fmap_Some. unfold restamp. cbn [value at_].
    destruct (m_slot (expire now m)) as [p|] eqn:Ep.
    + case_bool_decide as Hv.
      * right. destruct (Hfresh x) as (s0 & H0 & H0' & Hx0 & Hlt); [cbn in *; by rewrite Ep, <- Hv|].
        simplify_eq. eauto 10.
      * destruct (Hsl x Hx) as [[? _]|Hold]; [by left|]. cbn in *. rewrite Ep in Hold.
        cbn in Hold. congruence.
    + destruct (Hsl x Hx) as [[? _]|Hold]; [by left|]. cbn in *. by rewrite Ep in Hold.
Qed.

(** ** The fan-out of one observation *)

Lemma jobs_for_targets o snd fell targets j :
  j ∈ jobs_for o snd fell targets ->
  j_target j ∈ targets /\
  (job_key j = KRoom (ob_account o) (tg_id (j_target j)) (ob_room o) \/
   job_key j = KBadge (tg_id (j_target j))).
Proof.
  unfold jobs_for. destruct snd as [m|]; [|destruct fell as [c|]; [|set_solver]].
  - intros (t & -> & Ht)%list_elem_of_fmap. cbn. auto.
  - intros (t & Ht & H)%list_elem_of_omap. repeat case_match; simplify_eq; cbn; auto.
Qed.

Lemma jobs_for_nodup o snd fell targets :
  NoDup (tg_id <$> targets) -> NoDup ((fun j => tg_id (j_target j)) <$> jobs_for o snd fell targets).
Proof.
  unfold jobs_for. intros Hnd. destruct snd as [m|]; [|destruct fell as [c|]; [|constructor]].
  - change (map ?f targets) with (f <$> targets). by rewrite <- list_fmap_compose.
  - induction targets as [|t ts IH]; [constructor|]. cbn in Hnd. apply NoDup_cons in Hnd as [Hn Hnd].
    specialize (IH Hnd). cbn [omap list_omap].
    match goal with |- context [match ?x with Some _ => _ | None => _ end] => destruct x as [j|] eqn:E end;
      [|done].
    assert (j_target j = t) as Hj by (repeat case_match; by simplify_eq).
    cbn. rewrite Hj. constructor; [|done].
    intros (j' & He & Hj')%list_elem_of_fmap. apply Hn. rewrite He.
    apply list_elem_of_omap in Hj' as (t' & Ht' & Hf). apply list_elem_of_fmap.
    exists t'. split; [|done]. repeat case_match; by simplify_eq.
Qed.

Lemma key_target j j' : job_key j = job_key j' -> tg_id (j_target j) = tg_id (j_target j').
Proof. unfold job_key. repeat case_match; by intros [=]. Qed.

(** The fan-out: with distinct device ids an observation queues at most one
    job per device, all under different keys; an alert goes to every device;
    otherwise a fall queues a badge push for each badge-enabled APNs device and,
    when it reaches zero, a room-read message for each FCM device, and nothing
    else is queued. *)
Theorem jobs_for_fan_out o snd fell targets :
  NoDup (tg_id <$> targets) ->
  NoDup (keys (jobs_for o snd fell targets)) /\
  forall t w, {| j_target := t; j_work := w |} ∈ jobs_for o snd fell targets <->
    t ∈ targets /\
    match snd, fell with
    | Some m, _ => w = Alert (ob_account o) (ob_room o) m
    | None, None => False
    | None, Some count =>
        (w = Badge /\ tg_provider t = t! "apns" /\ tg_badge t = true) \/
        (w = RoomRead (ob_account o) (ob_room o) /\ tg_provider t = t! "fcm" /\ count = 0)
    end.
Proof.
  intros Hnd. split.
  - apply (jobs_for_nodup o snd fell) in Hnd. unfold keys.
    apply NoDup_fmap_2_strong; [|by eapply NoDup_fmap_1].
    intros j j' Hj Hj' He%key_target.
    apply list_elem_of_lookup in Hj as [i Hi], Hj' as [i' Hi'].
    assert (i = i') as ->; [|congruence].
    eapply NoDup_lookup; [exact Hnd| |]; rewrite list_lookup_fmap; [by rewrite Hi|].
    rewrite Hi'. cbn. by rewrite He.
  - intros t w. unfold jobs_for. destruct snd as [m|]; [|destruct fell as [c|]; [|set_solver]].
    + rewrite list_elem_of_fmap. split; [intros (t' & [= -> ->] & ?); done|].
      intros [? ->]. eauto.
    + rewrite list_elem_of_omap. split.
      * intros (t' & Ht & H). repeat case_match; simplify_eq; b2p;
          repeat match goal with H : bool_decide _ = true |- _ => apply bool_decide_eq_true in H end;
          auto 10.
      * intros [Ht Hw]. exists t. split; [done|].
        destruct Hw as [(-> & Hp & Hb)|(-> & Hp & ->)]; rewrite Hp; [by rewrite Hb|done].
Qed.

Lemma jobs_for_fan_out_witness :
  NoDup (keys (jobs_for {| ob_account := 7; ob_room := t! "!r"; ob_after := None; ob_messages := [] |}
    None (Some 0) [tgt 1 "apns" true; tgt 2 "fcm" false; tgt 3 "apns" false])).
Proof. apply jobs_for_fan_out. apply (bool_decide_unpack _). vm_compute. exact I. Defined.

(** A new rise to a remembered pair keeps the old rise's stamp: after 2 -> 3
    (time 0), 3 -> 2 and 2 -> 3 again (time 299 s), the second rise is gone two
    seconds later, and the message that should claim it is only slotted. *)
Example repeated_rise_keeps_old_stamp :
  let m0 := {| m_seeded := true; m_pair := (2, 0); m_slot := None; m_unpaired := None |} in
  let m1 := (observe_memory 0 (Some (3, 0)) [] m0).1 in
  let m2 := (observe_memory (secs 100) (Some (2, 0)) [] m1).1 in
  let m3 := (observe_memory (secs 299) (Some (3, 0)) [] m2).1 in
  m_unpaired m3 = Some {| value := (3, 0); at_ := 0 |} /\
  send (observe_memory (secs 301) None [note "$a" Notify] m3).2 = None.
Proof. vm_compute. done. Qed.
