(* ===== verification/PushDeliver.v ===== *)
(** * Push payloads and delivery

    Models [crates/axon-sync/src/push/payload.rs] (alert text and provider
    bodies) and [crates/axon-sync/src/push/deliver.rs] (liveness check, banner,
    provider requests, cached provider tokens, verdicts) as programs that ask
    the store, the clock, the shared cells and the network. *)

From stdpp Require Import base gmap sets list strings.
From Stdlib Require Import ZArith Lia.
From S2P Require Import Prelude Text Effects PushDecision PushRouter.

(** ** payload.rs *)

Definition CLIP : nat := 140.
Definition MAX_PAYLOAD_BYTES : Z := 4096.
Definition MESSAGE_CHANNEL_ID : text := t! "messages-v2".
Definition ROOM_READ_KIND : text := t! "room_read".

Record AlertText := { title : text; alert_body : text }.

(** ['…']. *)
Definition ellipsis : Z := 8230.

Definition clip (t : text) (limit : nat) : text :=
  if bool_decide (length t <= limit)%nat then t else take (limit - 1) t ++ [ellipsis].

Definition activity_text : AlertText := {| title := t! "Axon"; alert_body := t! "New activity" |}.

Definition preview_body (sender body : text) : text :=
  let txt := collapse_whitespace body in
  let who := trim sender in
  let clipped := clip txt CLIP in
  if bool_decide (who = []) then
    if bool_decide (clipped = []) then t! "New message" else clipped
  else if bool_decide (clipped = []) then who
  else who ++ t! ": " ++ clipped.

Definition alert_text (disclosure : text) (room_name : option text) (sender_display : text)
    (message : PushMessage) : AlertText :=
  if bool_decide (disclosure = t! "sender_and_room") then
    {| title := clip (default (t! "New message") room_name) CLIP;
       alert_body := clip (trim sender_display) CLIP |}
  else if bool_decide (disclosure = t! "preview") then
    {| title := clip (default (t! "New message") room_name) CLIP;
       alert_body := clip (preview_body sender_display (body message)) CLIP |}
  else activity_text.

Definition nibble (n : Z) : Z := if n <? 10 then 48 + n else 87 + n.
Definition hex2 (b : Z) : text := [nibble (b / 16); nibble (b mod 16)].

Section Payload.
(** serde_json's serializer and SHA-256. *)
Context (to_vec : json -> list Z) (sha256 : list Z -> list Z).

Definition collapse_id (room_id : text) : text :=
  take 16 (sha256 (utf8_encode room_id)) ≫= hex2.

(** An object; [option] entries are the ones set conditionally. *)
Definition obj (entries : list (option (text * json))) : json := JObj (omap id entries).
Definition jstr (k : string) (v : text) : option (text * json) := Some (lit k, JStr v).

Definition apns_json (t : AlertText) (account_id room_id : text) (message : PushMessage)
    (badge : option Z) : json :=
  obj [Some (t! "aps", obj [Some (t! "alert", obj [jstr "title" (title t); jstr "body" (alert_body t)]);
                            (fun b => (t! "badge", JInt b)) <$> badge]);
       jstr "account_id" account_id; jstr "room_id" room_id; jstr "event_id" (event_id message);
       (fun r => (t! "thread_root_id", JStr r)) <$> thread_root_id message].
Definition apns_body_for t account_id room_id message badge : list Z :=
  to_vec (apns_json t account_id room_id message badge).

Definition apns_badge_body (total : Z) : list Z :=
  to_vec (obj [Some (t! "aps", obj [Some (t! "badge", JInt total)])]).

Definition fcm_room_read_body (token account_id room_id collapse : text) : list Z :=
  to_vec (obj [Some (t! "message", obj [
    jstr "token" token;
    Some (t! "data", obj [jstr "axon_kind" ROOM_READ_KIND; jstr "account_id" account_id;
                          jstr "room_id" room_id; jstr "tag" collapse]);
    Some (t! "android", obj [jstr "priority" (t! "NORMAL")])])]).

Definition fcm_json (t : AlertText) (account_id room_id : text) (message : PushMessage)
    (token collapse : text) : json :=
  obj [Some (t! "message", obj [
    jstr "token" token;
    Some (t! "notification", obj [jstr "title" (title t); jstr "body" (alert_body t)]);
    Some (t! "data", obj [jstr "account_id" account_id; jstr "room_id" room_id;
                          jstr "event_id" (event_id message);
                          (fun r => (t! "thread_root_id", JStr r)) <$> thread_root_id message]);
    Some (t! "android", obj [
      jstr "priority" (t! "HIGH");
      Some (t! "notification", obj [jstr "channel_id" MESSAGE_CHANNEL_ID; jstr "tag" collapse])])])].
Definition fcm_body_for t account_id room_id message token collapse : list Z :=
  to_vec (fcm_json t account_id room_id message token collapse).

Record OutboundRequest := {
  o_provider : text;
  o_disclosure : text;
  o_room_name : option text;
  o_sender_display : text;
  o_account_id : text;
  o_room_id : text;
  o_message : PushMessage;
  o_fcm_token : text;
  o_badge : option Z;
}.

Definition provider_body (r : OutboundRequest) (t : AlertText) (collapse : text) : list Z :=
  if bool_decide (o_provider r = t! "fcm")
  then fcm_body_for t (o_account_id r) (o_room_id r) (o_message r) (o_fcm_token r) collapse
  else apns_body_for t (o_account_id r) (o_room_id r) (o_message r) (o_badge r).

Definition fit_outbound (r : OutboundRequest) : option (list Z * text) :=
  let collapse := collapse_id (o_room_id r) in
  let body := provider_body r (alert_text (o_disclosure r) (o_room_name r) (o_sender_display r)
                                 (o_message r)) collapse in
  if Z.of_nat (length body) <=? MAX_PAYLOAD_BYTES then Some (body, collapse)
  else
    let body := provider_body r activity_text collapse in
    if Z.of_nat (length body) <=? MAX_PAYLOAD_BYTES then Some (body, collapse) else None.
End Payload.

(** ** deliver.rs: verdicts *)

Definition APNS_JWT_TTL : Z := secs (50 * 60).
Definition FCM_REFRESH_SLACK : Z := secs 60.
Definition BODY_CAP : Z := 64 * 1024.

Inductive ProviderVerdict := Sent | Delete | Keep.
#[export] Instance ProviderVerdict_eq_dec : EqDecision ProviderVerdict.
Proof. solve_decision. Defined.

Record ParsedReason := { reason : option text; timestamp_ms : option Z }.

Section Verdict.
(** serde_json's parser. *)
Context (from_slice : list Z -> option json).

Definition parse_reason (body : list Z) : ParsedReason :=
  if BODY_CAP <? Z.of_nat (length body) then {| reason := None; timestamp_ms := None |}
  else match from_slice body with
       | None => {| reason := None; timestamp_ms := None |}
       | Some value =>
           {| reason := option_or (jget (t! "reason") value ≫= as_str)
                          ((jget (t! "error") value ≫= jget (t! "status")) ≫= as_str);
              timestamp_ms := jget (t! "timestamp") value ≫= as_i64 |}
       end.

Definition success (status : Z) : bool := (200 <=? status) && (status <? 300).

(** [DateTime::timestamp_millis] of a nanosecond timestamp. *)
Definition timestamp_millis (at_ns : Z) : Z := at_ns / 10 ^ 6.

Definition apns_verdict (status : Z) (body : list Z) (updated_at : Z) : ProviderVerdict :=
  if success status then Sent else
  let parsed := parse_reason body in
  if (status =? 410) && bool_decide (reason parsed = Some (t! "Unregistered")) then
    match timestamp_ms parsed with
    | None => Keep
    | Some timestamp => if timestamp_millis updated_at <? timestamp then Delete else Keep
    end
  else if (status =? 400) && bool_decide (reason parsed = Some (t! "BadDeviceToken")) then Delete
  else Keep.

Definition fcm_verdict (status : Z) (body : list Z) : ProviderVerdict :=
  if success status then Sent
  else if (status =? 404) && bool_decide (reason (parse_reason body) = Some (t! "UNREGISTERED"))
  then Delete
  else Keep.

Definition fcm_bearer_rejected (status : Z) : bool := status =? 401.

Definition apns_provider_token_rejected (status : Z) (body : list Z) : bool :=
  (status =? 403)
  && (bool_decide (reason (parse_reason body) = Some (t! "ExpiredProviderToken"))
      || bool_decide (reason (parse_reason body) = Some (t! "InvalidProviderToken"))).
End Verdict.

(** [form_encode]: percent-encoding. *)
Definition unreserved (b : Z) : bool :=
  is_ascii_alphanumeric b || (b =? 45) || (b =? 95) || (b =? 46) || (b =? 126).
Definition nibble_upper (n : Z) : Z := if n <? 10 then 48 + n else 55 + n.
Definition form_byte (b : Z) : text :=
  if unreserved b then [b] else [37; nibble_upper (b / 16); nibble_upper (b mod 16)].
Definition form_encode (t : text) : text := utf8_encode t ≫= form_byte.

(** ** deliver.rs: the effects *)

Record CachedJwt := { jwt_value : text; jwt_minted : Z }.
Record CachedFcm := { fcm_value : text; fcm_good_until : Z }.

(** [axon_core::{LoadedApns, LoadedFcm}]. *)
Record LoadedApns := { apns_team_id : text; apns_key_id : text; apns_private_key : text;
                       apns_bundle_id : text }.
Record LoadedFcm := { fcm_project_id : text; fcm_client_email : text; fcm_package_name : text;
                      fcm_private_key : text }.
Record PushMaterial := { m_apns : option LoadedApns; m_fcm : option LoadedFcm }.

(** [push_send_check] under [LIVENESS_TIMEOUT]: no answer in time, an error, or
    the row with whether its session is live. *)
Inductive CheckAnswer := CheckTimeout | CheckError | CheckRow (row : option (PushTarget * bool)).
Inductive PostAnswer := PostTimeout | PostError (kind : text) | PostResponse (status : Z) (body : list Z).

Inductive Question :=
| QCancelled
| QSendCheck (id : uuid)
| QDelete (id : uuid)
| QRoomName (account_id : uuid) (room_id : text)
| QMemberName (account_id : uuid) (room_id sender : text)
| QBadgeTotal
| QNamesGet | QNamesSet (names : option text * text)
| QBadgeGet | QBadgeSet (total : Z)
| QNow | QUtcNow
| QJwtGet | QJwtPut (cached : option CachedJwt)
| QFcmGet | QFcmPut (cached : option CachedFcm)
| QFcmLock | QFcmUnlock
| QSign (algorithm : text) (kid : option text) (claims : json) (key : text)
| QWarned (provider : text)
| QPost (url : text) (headers : list (text * text)) (body : list Z).

(** A store read that failed or timed out answers [None]; [QFcmLock] answers
    whether the lock came before the provider timeout; [QSign] answers the
    token, or [None] for a bad key. *)
Definition answer (q : Question) : Type :=
  match q with
  | QCancelled | QFcmLock | QWarned _ => bool
  | QSendCheck _ => CheckAnswer
  | QRoomName _ _ | QMemberName _ _ _ => option (option text)
  | QBadgeTotal | QBadgeGet => option Z
  | QNamesGet => option (option text * text)
  | QNow | QUtcNow => Z
  | QJwtGet => option CachedJwt
  | QFcmGet => option CachedFcm
  | QSign _ _ _ _ => option text
  | QPost _ _ _ => PostAnswer
  | QDelete _ | QNamesSet _ | QBadgeSet _ | QJwtPut _ | QFcmPut _ | QFcmUnlock => unit
  end.

Abbreviation push := (prog answer).
Abbreviation ask := (Effects.ask (ans := answer)).
Open Scope prog_scope.

(** What a step of a send comes to: a value, a [ProviderFailure], the provider
    timeout, or a panic (the clock overflows). *)
Inductive outcome (A : Type) :=
| OOk (a : A)
| OErr (status : option Z) (rsn : option text) (kind : text)
| OTimeout
| OPanic.
Arguments OOk {A}. Arguments OErr {A}. Arguments OTimeout {A}. Arguments OPanic {A}.

Definition obind {A B} (p : push (outcome A)) (f : A -> push (outcome B)) : push (outcome B) :=
  let! r := p in
  match r with
  | OOk a => f a
  | OErr s r k => Ret (OErr s r k)
  | OTimeout => Ret OTimeout
  | OPanic => Ret OPanic
  end.
Notation "'let?' x ':=' p 'in' q" := (obind p (fun x => q))
  (at level 10, x pattern, p at level 100, q at level 200) : prog_scope.
Definition fail {A} (kind : string) : push (outcome A) := Ret (OErr None None (lit kind)).

(** The largest [Instant] on the platforms the server runs on. *)
Definition instant_max : Z := secs (2 ^ 63) - 1.

Definition limited_body (bytes : list Z) : list Z :=
  if BODY_CAP <? Z.of_nat (length bytes) then [] else bytes.

Section Deliver.
Context (to_vec : json -> list Z) (from_slice : list Z -> option json)
        (sha256 : list Z -> list Z) (uuid_text : uuid -> text).

Definition post_json (url scheme bearer : text) (headers : list (text * text)) (body : list Z)
    : push (outcome (Z * list Z)) :=
  let! r := ask (QPost url
    ([(t! "authorization", scheme ++ t! " " ++ bearer); (t! "content-type", t! "application/json")]
     ++ headers) body) in
  match r with
  | PostTimeout => Ret OTimeout
  | PostError kind => Ret (OErr None None kind)
  | PostResponse status bytes => Ret (OOk (status, limited_body bytes))
  end.

Record ApnsHeaders := { priority : text; collapse : option text }.

Definition apns_request_headers (topic : text) (h : ApnsHeaders) : list (text * text) :=
  [(t! "apns-topic", topic); (t! "apns-push-type", t! "alert"); (t! "apns-priority", priority h)]
  ++ match collapse h with Some c => [(t! "apns-collapse-id", c)] | None => [] end.

Definition apns_jwt (apns : LoadedApns) : push (outcome text) :=
  let mint :=
    let! iat := ask QUtcNow in
    let! signed := ask (QSign (t! "ES256") (Some (apns_key_id apns))
      (obj [jstr "iss" (apns_team_id apns); Some (t! "iat", JInt iat)]) (apns_private_key apns)) in
    match signed with
    | None => fail "signing"
    | Some v =>
        let! now := ask QNow in
        let! _ := ask (QJwtPut (Some {| jwt_value := v; jwt_minted := now |})) in Ret (OOk v)
    end in
  let! cached := ask QJwtGet in
  match cached with
  | None => mint
  | Some c =>
      let! now := ask QNow in
      if sat_sub now (jwt_minted c) <? APNS_JWT_TTL then Ret (OOk (jwt_value c)) else mint
  end.

Definition fresh_fcm : push (option text) :=
  let! cached := ask QFcmGet in
  match cached with
  | None => Ret None
  | Some c => let! now := ask QNow in
              Ret (if now <? fcm_good_until c then Some (fcm_value c) else None)
  end.

Definition TOKEN_URL : text := t! "https://oauth2.googleapis.com/token".

Definition as_u64 (v : json) : option Z :=
  match v with JInt n => if (0 <=? n) && (n <=? u64_max) then Some n else None | _ => None end.

(** [expires_in], an hour when it is absent. *)
Definition expires_in (parsed : json) : Z :=
  default 3600 (jget (t! "expires_in") parsed ≫= as_u64).

(** The token request of [fcm_bearer], under the refresh lock. *)
Definition fcm_mint (fcm : LoadedFcm) : push (outcome text) :=
  let! now := ask QUtcNow in
  let! signed := ask (QSign (t! "RS256") None
    (obj [jstr "iss" (fcm_client_email fcm);
          jstr "scope" (t! "https://www.googleapis.com/auth/firebase.messaging");
          jstr "aud" TOKEN_URL; Some (t! "iat", JInt now); Some (t! "exp", JInt (now + 3600))])
    (fcm_private_key fcm)) in
  match signed with
  | None => fail "signing"
  | Some assertion =>
      let form := t! "grant_type=" ++ form_encode (t! "urn:ietf:params:oauth:grant-type:jwt-bearer")
                  ++ t! "&assertion=" ++ form_encode assertion in
      let! r := ask (QPost TOKEN_URL
        [(t! "content-type", t! "application/x-www-form-urlencoded")] (utf8_encode form)) in
      match r with
      | PostTimeout => Ret OTimeout
      | PostError kind => Ret (OErr None None kind)
      | PostResponse status bytes =>
          let body := limited_body bytes in
          if negb (success status)
          then Ret (OErr (Some status) (reason (parse_reason from_slice body)) (t! "status"))
          else match from_slice body with
          | None => fail "token"
          | Some parsed =>
              match jget (t! "access_token") parsed ≫= as_str with
              | None | Some [] => fail "token"
              | Some value =>
                  let e := secs (expires_in parsed) in
                  let slack := Z.min FCM_REFRESH_SLACK e in
                  let! now := ask QNow in
                  if instant_max <? now + e then Ret OPanic else
                  let! _ := ask (QFcmPut (Some {| fcm_value := value;
                                    fcm_good_until := now + e - slack |})) in
                  Ret (OOk value)
              end
          end
      end
  end.

Definition fcm_bearer (fcm : LoadedFcm) : push (outcome text) :=
  let! first := fresh_fcm in
  match first with
  | Some token => Ret (OOk token)
  | None =>
      let! locked := ask QFcmLock in
      if negb locked then Ret OTimeout else
      let! second := fresh_fcm in
      let! r := match second with Some token => Ret (OOk token) | None => fcm_mint fcm end in
      let! _ := ask QFcmUnlock in Ret r
  end.

Definition apns_host (environment : option text) : option text :=
  match environment with
  | None => None
  | Some e =>
      if bool_decide (e = t! "sandbox") then Some (t! "https://api.sandbox.push.apple.com")
      else if bool_decide (e = t! "production") then Some (t! "https://api.push.apple.com")
      else None
  end.

Definition send_apns (apns : LoadedApns) (target : PushTarget) (headers : ApnsHeaders)
    (body : list Z) : push (outcome ProviderVerdict) :=
  match apns_host (tg_environment target) with
  | None => Ret (OOk Keep)
  | Some host =>
      let? jwt := apns_jwt apns in
      let? (status, response) := post_json (host ++ t! "/3/device/" ++ form_encode (tg_token target))
        (t! "bearer") jwt (apns_request_headers (apns_bundle_id apns) headers) body in
      let! _ := if apns_provider_token_rejected from_slice status response
                then ask (QJwtPut None) else Ret tt in
      Ret (OOk (apns_verdict from_slice status response (tg_updated_at target)))
  end.

Definition send_fcm (fcm : LoadedFcm) (body : list Z) : push (outcome ProviderVerdict) :=
  let? bearer := fcm_bearer fcm in
  let? (status, response) := post_json (t! "https://fcm.googleapis.com/v1/projects/"
    ++ fcm_project_id fcm ++ t! "/messages:send") (t! "Bearer") bearer [] body in
  let! _ := if fcm_bearer_rejected status then ask (QFcmPut None) else Ret tt in
  Ret (OOk (fcm_verdict from_slice status response)).

(** A failure or the provider timeout keeps the row; [None] is a panic, which
    ends the send's task. *)
Definition settle (p : push (outcome ProviderVerdict)) : push (option ProviderVerdict) :=
  let! r := p in
  Ret (match r with OOk v => Some v | OErr _ _ _ | OTimeout => Some Keep | OPanic => None end).

Definition send_configured_apns (material : PushMaterial) (target : PushTarget)
    (headers : ApnsHeaders) (body : list Z) : push (option ProviderVerdict) :=
  match m_apns material with
  | None => let! _ := ask (QWarned (t! "apns")) in Ret (Some Keep)
  | Some apns => settle (send_apns apns target headers body)
  end.

Definition send_configured_fcm (material : PushMaterial) (body : list Z)
    : push (option ProviderVerdict) :=
  match m_fcm material with
  | None => let! _ := ask (QWarned (t! "fcm")) in Ret (Some Keep)
  | Some fcm => settle (send_fcm fcm body)
  end.

Definition delete_if_dead (verdict : option ProviderVerdict) (target : PushTarget) : push unit :=
  if bool_decide (verdict = Some Delete) then ask (QDelete (tg_id target)) else Ret tt.

Definition send_badge (material : PushMaterial) (target : PushTarget) (total : Z) : push unit :=
  let! verdict := send_configured_apns material target
    {| priority := t! "5"; collapse := None |} (apns_badge_body to_vec total) in
  delete_if_dead verdict target.

Definition resolve_target (snapshot : PushTarget) : push (option PushTarget) :=
  let! check := ask (QSendCheck (tg_id snapshot)) in
  match check with
  | CheckRow (Some (_, false)) => let! _ := ask (QDelete (tg_id snapshot)) in Ret None
  | CheckRow (Some (target, true)) => Ret (Some target)
  | CheckRow None => Ret None
  | CheckError | CheckTimeout => Ret (Some snapshot)
  end.

Definition banner_names (account_id : uuid) (room_id sender : text) : push (option text * text) :=
  let! room_name := ask (QRoomName account_id room_id) in
  let! member_name := ask (QMemberName account_id room_id sender) in
  Ret (default None room_name,
       match member_name with Some (Some name) => name | _ => at_localpart sender end).

Definition banner_resolve (account_id : uuid) (room_id sender : text) : push (option text * text) :=
  let! cell := ask QNamesGet in
  match cell with
  | Some names => Ret names
  | None =>
      let! names := banner_names account_id room_id sender in
      let! _ := ask (QNamesSet names) in Ret names
  end.

(** [keep_success]: only a read that succeeded is kept. *)
Definition banner_badge_total : push (option Z) :=
  let! cell := ask QBadgeGet in
  match cell with
  | Some total => Ret (Some total)
  | None =>
      let! total := ask QBadgeTotal in
      match total with
      | None => Ret None
      | Some n => let! _ := ask (QBadgeSet n) in Ret (Some n)
      end
  end.

Definition outbound (target : PushTarget) (account_id : uuid) (room_id : text)
    (message : PushMessage) (names : option text * text) (badge : option Z) : OutboundRequest :=
  {| o_provider := tg_provider target; o_disclosure := tg_disclosure target;
     o_room_name := names.1; o_sender_display := names.2; o_account_id := uuid_text account_id;
     o_room_id := room_id; o_message := message; o_fcm_token := tg_token target;
     o_badge := badge |}.

Definition deliver (material : PushMaterial) (snapshot : PushTarget) (account_id : uuid)
    (room_id : text) (message : PushMessage) : push unit :=
  let! cancelled := ask QCancelled in
  if cancelled then Ret tt else
  let! resolved := resolve_target snapshot in
  match resolved with
  | None => Ret tt
  | Some target =>
      let! cancelled := ask QCancelled in
      if cancelled then Ret tt else
      let! names := banner_resolve account_id room_id (sender message) in
      let! badge := if bool_decide (tg_provider target = t! "apns") && tg_badge target
                    then banner_badge_total else Ret None in
      match fit_outbound to_vec sha256 (outbound target account_id room_id message names badge) with
      | None =>
          match badge with
          | Some total => send_badge material target total
          | None => Ret tt
          end
      | Some (body, collapse) =>
          if bool_decide (tg_provider target = t! "apns") then
            let! verdict := send_configured_apns material target
              {| priority := t! "10"; collapse := Some collapse |} body in
            delete_if_dead verdict target
          else if bool_decide (tg_provider target = t! "fcm") then
            let! verdict := send_configured_fcm material body in
            delete_if_dead verdict target
          else Ret tt
      end
  end.

Definition deliver_badge (material : PushMaterial) (snapshot : PushTarget) : push unit :=
  let! cancelled := ask QCancelled in
  if cancelled then Ret tt else
  let! resolved := resolve_target snapshot in
  match resolved with
  | None => Ret tt
  | Some target =>
      if negb (bool_decide (tg_provider target = t! "apns")) || negb (tg_badge target)
      then Ret tt else
      let! cancelled := ask QCancelled in
      if cancelled then Ret tt else
      let! total := ask QBadgeTotal in
      match total with
      | None => Ret tt
      | Some n => send_badge material target n
      end
  end.

Definition deliver_room_read (material : PushMaterial) (snapshot : PushTarget)
    (account_id : uuid) (room_id : text) : push unit :=
  let! cancelled := ask QCancelled in
  if cancelled then Ret tt else
  let! resolved := resolve_target snapshot in
  match resolved with
  | None => Ret tt
  | Some target =>
      if negb (bool_decide (tg_provider target = t! "fcm")) then Ret tt else
      let! cancelled := ask QCancelled in
      if cancelled then Ret tt else
      let! verdict := send_configured_fcm material
        (fcm_room_read_body to_vec (tg_token target) (uuid_text account_id) room_id
           (collapse_id sha256 room_id)) in
      delete_if_dead verdict target
  end.

(** [run_send]'s choice of program. *)
Definition run_send (material : PushMaterial) (j : Job) : push unit :=
  match j_work j with
  | Alert account_id room_id message => deliver material (j_target j) account_id room_id message
  | RoomRead account_id room_id => deliver_room_read material (j_target j) account_id room_id
  | Badge => deliver_badge material (j_target j)
  end.
End Deliver.

(** ** Payload lemmas *)

Lemma clip_length t n : (0 < n)%nat -> (length (clip t n) <= n)%nat.
Proof.
  intros Hn. unfold clip. case_bool_decide; [done|]. rewrite length_app, length_take. simpl. lia.
Qed.

Lemma alert_text_disclosed disclosure room sender m m' :
  disclosure <> t! "preview" ->
  alert_text disclosure room sender m = alert_text disclosure room sender m' /\
  (disclosure <> t! "sender_and_room" ->
   alert_text disclosure room sender m = activity_text).
Proof.
  intros Hd. unfold alert_text. rewrite (bool_decide_eq_false_2 (disclosure = t! "preview")) by done.
  split; [done|]. intros Hs. by rewrite bool_decide_eq_false_2.
Qed.

(** Same message for routing purposes: everything but the body and the sender. *)
Definition same_route (m m' : PushMessage) : Prop :=
  event_id m = event_id m' /\ thread_root_id m = thread_root_id m'.

Lemma provider_body_route to_vec r r' t c :
  o_provider r = o_provider r' -> o_account_id r = o_account_id r' -> o_room_id r = o_room_id r' ->
  same_route (o_message r) (o_message r') -> o_fcm_token r = o_fcm_token r' ->
  o_badge r = o_badge r' ->
  provider_body to_vec r t c = provider_body to_vec r' t c.
Proof.
  intros E1 E2 E3 [E4 E5] E6 E7. unfold provider_body, fcm_body_for, fcm_json, apns_body_for, apns_json.
  by rewrite E1, E2, E3, E4, E5, E6, E7.
Qed.

(** What a push discloses: below the [preview] level the bytes sent do not
    depend on the message body, and below [sender_and_room] not on the room
    name or the sender either; and the bytes sent never exceed
    [MAX_PAYLOAD_BYTES], whatever the serializer. *)
Theorem payload_discloses_only_its_level to_vec sha256 r r' :
  o_provider r = o_provider r' -> o_disclosure r = o_disclosure r' ->
  o_account_id r = o_account_id r' -> o_room_id r = o_room_id r' ->
  same_route (o_message r) (o_message r') ->
  o_fcm_token r = o_fcm_token r' -> o_badge r = o_badge r' ->
  o_disclosure r <> t! "preview" ->
  (o_disclosure r = t! "sender_and_room" ->
     o_room_name r = o_room_name r' /\ o_sender_display r = o_sender_display r') ->
  fit_outbound to_vec sha256 r = fit_outbound to_vec sha256 r' /\
  (forall b c, fit_outbound to_vec sha256 r = Some (b, c) ->
     Z.of_nat (length b) <= MAX_PAYLOAD_BYTES).
Proof.
  intros E1 E2 E3 E4 E5 E6 E7 Hp Hs. split.
  - assert (alert_text (o_disclosure r) (o_room_name r) (o_sender_display r) (o_message r)
            = alert_text (o_disclosure r') (o_room_name r') (o_sender_display r') (o_message r')) as Ht.
    { destruct (base.decide (o_disclosure r = t! "sender_and_room")) as [Hd|Hd].
      - destruct (Hs Hd) as [-> ->]. rewrite <- E2. by apply alert_text_disclosed.
      - rewrite (proj2 (alert_text_disclosed _ _ _ _ (o_message r) Hp) Hd).
        rewrite E2 in Hp, Hd. by rewrite (proj2 (alert_text_disclosed _ _ _ _ (o_message r) Hp) Hd). }
    unfold fit_outbound. rewrite Ht, E4.
    by rewrite !(provider_body_route to_vec r r') by done.
  - intros b c. unfold fit_outbound. repeat case_match; intros; simplify_eq; by b2p.
Qed.

Definition demo_request (room : option text) (sender : text) (m : PushMessage) : OutboundRequest :=
  {| o_provider := t! "fcm"; o_disclosure := t! "activity"; o_room_name := room;
     o_sender_display := sender; o_account_id := t! "7"; o_room_id := t! "!r"; o_message := m;
     o_fcm_token := t! "tok"; o_badge := None |}.

Lemma payload_discloses_only_its_level_witness :
  let secret := {| event_id := t! "$a"; PushDecision.sender := t! "@eve:x"; body := t! "secret";
                   thread_root_id := None; class := Notify |} in
  fit_outbound (fun _ => [1]) (fun b => b) (demo_request (Some (t! "HR")) (t! "Eve") secret)
  = fit_outbound (fun _ => [1]) (fun b => b) (demo_request None (t! "Bob") (note "$a" Notify)).
Proof.
  apply payload_discloses_only_its_level; try reflexivity; [split; reflexivity| |];
    vm_compute; discriminate.
Defined.

(** Banner bounds: every title and body is at most [CLIP] characters, a text
    that fits is shown whole, and a longer one is its first [CLIP - 1]
    characters and an ellipsis; a preview shows the sender, a colon and the
    message's words. *)
Theorem banner_is_clipped disclosure room sender m :
  (length (title (alert_text disclosure room sender m)) <= CLIP)%nat /\
  (length (alert_body (alert_text disclosure room sender m)) <= CLIP)%nat /\
  (disclosure = t! "preview" -> trim sender <> [] -> split_whitespace (body m) <> [] ->
   alert_body (alert_text disclosure room sender m) =
     clip (trim sender ++ t! ": " ++ clip (join [32] (split_whitespace (body m))) CLIP) CLIP).
Proof.
  split; [|split].
  - unfold alert_text. repeat case_match; cbn [title]; try (apply clip_length; unfold CLIP; lia).
    vm_compute. lia.
  - unfold alert_text. repeat case_match; cbn [alert_body]; try (apply clip_length; unfold CLIP; lia).
    vm_compute. lia.
  - intros -> Hs Hb. unfold alert_text, preview_body. cbn [alert_body].
    rewrite bool_decide_eq_false_2 by (vm_compute; discriminate).
    rewrite bool_decide_eq_true_2 by done. cbn [alert_body]. rewrite collapse_words.
    rewrite bool_decide_eq_false_2 by done. rewrite bool_decide_eq_false_2; [done|].
    unfold clip. case_bool_decide; [by rewrite join_nil_iff by apply words_nonempty|].
    intros [_ ?]%app_eq_nil. done.
Qed.

Lemma banner_is_clipped_witness :
  alert_body (alert_text (t! "preview") None (t! " Bob ") (note "$a" Notify)) = t! "Bob: hi".
Proof.
  etransitivity; [apply banner_is_clipped; [reflexivity|vm_compute; discriminate..]|].
  vm_compute. reflexivity.
Defined.

(** ** Percent-encoding *)

Definition unhex (c : Z) : option Z :=
  if (48 <=? c) && (c <=? 57) then Some (c - 48)
  else if (65 <=? c) && (c <=? 70) then Some (c - 55) else None.

(** The standard decoding: [%XY] is a byte, any other character itself. *)
Fixpoint percent_decode (t : text) : option (list Z) :=
  match t with
  | [] => Some []
  | c :: t1 =>
      if c =? 37 then
        match t1 with
        | h :: l :: t2 =>
            h ← unhex h; l ← unhex l; rest ← percent_decode t2; Some (16 * h + l :: rest)
        | _ => None
        end
      else rest ← percent_decode t1; Some (c :: rest)
  end.

Lemma form_byte_spec b :
  0 <= b < 256 ->
  Forall (fun c => unreserved c = true \/ c = 37) (form_byte b) /\
  forall rest, percent_decode (form_byte b ++ rest) = (fun r => b :: r) <$> percent_decode rest.
Proof.
  intros Hb.
  assert (forallb (fun b => 
    forallb (fun c => unreserved c || (c =? 37)) (form_byte b) &&
    (if unreserved b then negb (b =? 37)
     else bool_decide (unhex (nibble_upper (b / 16)) = Some (b / 16))
          && bool_decide (unhex (nibble_upper (b mod 16)) = Some (b mod 16))))
    (seqZ 0 256) = true) as Hall by (vm_compute; reflexivity).
  rewrite forallb_forall in Hall. specialize (Hall b).
  destruct (andb_prop _ _ (Hall ltac:(apply list_elem_of_In, elem_of_seqZ; lia))) as [H1 H2].
  split.
  - rewrite Forall_forall. intros c Hc. rewrite forallb_forall in H1.
    specialize (H1 c (proj1 (list_elem_of_In _ _) Hc)). apply orb_prop in H1 as [?|H1]; [auto|].
    b2p. auto.
  - intros rest. unfold form_byte. destruct (unreserved b); cbn.
    + b2p. rewrite (proj2 (Z.eqb_neq _ _) H2). by destruct (percent_decode rest).
    + apply andb_prop in H2 as [E1%bool_decide_eq_true E2%bool_decide_eq_true].
      rewrite E1, E2. cbn. destruct (percent_decode rest); cbn; [|done].
      do 2 f_equal. pose proof (Z.div_mod b 16). lia.
Qed.

(** Percent-encoding is safe and lossless: a form value or path segment
    holds only unreserved characters and escapes, so it cannot end its field or
    its segment, and decoding it gives back the string's UTF-8 bytes. *)
Theorem form_encode_roundtrip t :
  Forall is_char t ->
  Forall (fun c => unreserved c = true \/ c = 37) (form_encode t) /\
  percent_decode (form_encode t) = Some (utf8_encode t).
Proof.
  intros H%utf8_encode_bytes. unfold form_encode.
  induction H as [|b bs Hb _ [IH1 IH2]]; [by split|].
  destruct (form_byte_spec b Hb) as [H1 H2]. cbn. split; [by apply Forall_app|].
  by rewrite H2, IH2.
Qed.

Lemma form_encode_roundtrip_witness :
  percent_decode (form_encode (t! "a/b?c" ++ [8230])) = Some (utf8_encode (t! "a/b?c" ++ [8230])).
Proof.
  apply form_encode_roundtrip. apply (bool_decide_unpack _). vm_compute. exact I.
Defined.

(** ** What a send may do *)

Section DeliverSafety.
Context (to_vec : json -> list Z) (from_slice : list Z -> option json)
        (sha256 : list Z -> list Z) (uuid_text : uuid -> text).

Abbreviation hist := (list (event answer)).

Definition is_push (e : event answer) : bool :=
  match projT1 e with QPost url _ _ => negb (bool_decide (url = TOKEN_URL)) | _ => false end.

(** An answer that forbids any push after it: the send was cancelled, or the
    registration is gone or belongs to a dead session. *)
Definition forbids (e : event answer) : bool :=
  match e with
  | existT q x =>
      match q return answer q -> bool with
      | QCancelled => fun c => c
      | QSendCheck _ => fun c =>
          match c with CheckRow None | CheckRow (Some (_, false)) => true | _ => false end
      | _ => fun _ => false
      end x
  end.

(** The row a send works on: the one re-read, or the snapshot when the read
    failed. *)
Definition resolved (snapshot target : PushTarget) (h : hist) : Prop :=
  ev (QSendCheck (tg_id snapshot)) (CheckRow (Some (target, true))) ∈ h \/
  (target = snapshot /\
   (ev (QSendCheck (tg_id snapshot)) CheckError ∈ h \/
    ev (QSendCheck (tg_id snapshot)) CheckTimeout ∈ h)).

(** The provider said, in answer to a push, that the target's token is dead. *)
Definition rejected (target : PushTarget) (h : hist) : Prop :=
  exists url headers body status response,
    ev (QPost url headers body) (PostResponse status response) ∈ h /\ url <> TOKEN_URL /\
    (apns_verdict from_slice status (limited_body response) (tg_updated_at target) = Delete \/
     fcm_verdict from_slice status (limited_body response) = Delete).

Definition allowed (snapshot : PushTarget) (q : Question) (h : hist) : Prop :=
  match q with
  | QDelete id =>
      (id = tg_id snapshot /\
       exists t, ev (QSendCheck (tg_id snapshot)) (CheckRow (Some (t, false))) ∈ h) \/
      (exists target, id = tg_id target /\ resolved snapshot target h /\ rejected target h)
  | QPost url _ _ =>
      url = TOKEN_URL \/
      (existsb is_push h = false /\ existsb forbids h = false /\
       exists target, resolved snapshot target h)
  | _ => True
  end.

(** Questions that neither push, delete, nor decide whether to go on. *)
Definition calm_q (q : Question) : bool :=
  match q with
  | QCancelled | QSendCheck _ | QDelete _ => false
  | QPost url _ _ => bool_decide (url = TOKEN_URL)
  | _ => true
  end.

Fixpoint calm {A} (p : push A) : Prop :=
  match p with
  | Ret _ => True
  | Ask q k => calm_q q = true /\ forall x, calm (k x)
  end.

Lemma calm_bind {A B} (p : push A) (f : A -> push B) :
  calm p -> (forall a, calm (f a)) -> calm (bind p f).
Proof. induction p as [a|q k IH]; cbn; [auto|]. intros [? H] Hf. split; [done|]. auto. Qed.

(** The push state of a history: nothing pushed, nothing forbidding a push. *)
Definition clear (h : hist) : Prop := existsb is_push h = false /\ existsb forbids h = false.

Lemma clear_snoc h e : clear h -> is_push e = false -> forbids e = false -> clear (h ++ [e]).
Proof.
  intros [H1 H2] H3 H4. unfold clear. rewrite !existsb_app, H1, H2. cbn. by rewrite H3, H4.
Qed.

Lemma calm_event q x : calm_q q = true -> is_push (ev q x) = false /\ forbids (ev q x) = false.
Proof.
  destruct q; cbn; try done. intros H. unfold is_push. cbn. by rewrite H.
Qed.

(** A calm program keeps the history clear and forgets nothing. *)
Lemma calm_wp {A} snapshot (p : push A) (h : hist) (post : A -> hist -> Prop) :
  calm p -> clear h ->
  (forall a h', clear h' -> h ⊆ h' -> post a h') -> wp (allowed snapshot) p h post.
Proof.
  revert h. induction p as [a|q k IH]; intros h; cbn [calm wp].
  - intros _ Hc Hpost. by apply Hpost.
  - intros [Hq Hk] Hc Hpost. split.
    + destruct q; cbn in *; try done. left. by apply bool_decide_eq_true in Hq.
    + intros x. destruct (calm_event q x Hq). apply IH; [done|by apply clear_snoc|].
      intros a h' Hc' Hsub. apply Hpost; [done|]. set_solver.
Qed.

Ltac calm_step :=
  repeat first
  [ exact I
  | progress cbn [calm bind obind fail Effects.ask]
  | match goal with
    | |- _ /\ _ => split
    | |- forall _, _ => intros ?
    | |- calm_q _ = true => first [reflexivity | by vm_compute]
    | |- calm (match ?x with _ => _ end) => destruct x
    | |- calm (bind _ _) => apply calm_bind
    | |- calm (obind _ _) => apply calm_bind
    end ].

Lemma calm_jwt apns : calm (apns_jwt apns).
Proof. unfold apns_jwt. calm_step. Qed.
Lemma calm_fresh : calm fresh_fcm.
Proof. unfold fresh_fcm. calm_step. Qed.
Lemma calm_mint fcm : calm (fcm_mint from_slice fcm).
Proof.
  unfold fcm_mint. calm_step; try (apply bool_decide_eq_true_2; reflexivity).
Qed.
Lemma calm_bearer fcm : calm (fcm_bearer from_slice fcm).
Proof.
  unfold fcm_bearer. apply calm_bind; [apply calm_fresh|]. intros [tok|]; [exact I|].
  calm_step; [apply calm_fresh|apply calm_mint].
Qed.
Lemma calm_banner a r s : calm (banner_resolve a r s).
Proof. unfold banner_resolve, banner_names. calm_step. Qed.
Lemma calm_badge : calm banner_badge_total.
Proof. unfold banner_badge_total. calm_step. Qed.

Lemma resolved_mono snapshot target (h h' : hist) :
  h ⊆ h' -> resolved snapshot target h -> resolved snapshot target h'.
Proof. unfold resolved. set_solver. Qed.

Lemma url_not_token (a b : text) n : take n a <> take n TOKEN_URL -> (n <= length a)%nat -> a ++ b <> TOKEN_URL.
Proof.
  intros Hne Hlen Heq. apply Hne. rewrite <- Heq. rewrite take_app_le by done. done.
Qed.

Lemma post_wp snapshot target url scheme bearer headers body (h : hist) :
  url <> TOKEN_URL -> clear h -> resolved snapshot target h ->
  wp (allowed snapshot) (post_json url scheme bearer headers body) h (fun r h' =>
    h ⊆ h' /\
    forall st b, r = OOk (st, b) -> exists hd resp, b = limited_body resp /\
      ev (QPost url hd body) (PostResponse st resp) ∈ h').
Proof.
  intros Hu Hc Hr. unfold post_json. cbn [bind Effects.ask wp]. split.
  { right. destruct Hc. eauto. }
  intros [| |st resp]; cbn [bind wp]; (split; [set_solver|]); intros st' b' [=]; subst.
  eexists _, resp. split; [done|]. apply elem_of_app. right. by left.
Qed.

Lemma rejected_intro target url hd body st resp (h : hist) :
  url <> TOKEN_URL -> ev (QPost url hd body) (PostResponse st resp) ∈ h ->
  apns_verdict from_slice st (limited_body resp) (tg_updated_at target) = Delete \/
  fcm_verdict from_slice st (limited_body resp) = Delete ->
  rejected target h.
Proof. unfold rejected. eauto 10. Qed.

Definition send_post (target : PushTarget) (h : hist) (r : outcome ProviderVerdict) (h' : hist) : Prop :=
  h ⊆ h' /\ (r = OOk Delete -> rejected target h').

Lemma obind_wp {A B} req (p : push (outcome A)) (f : A -> push (outcome B)) (h : hist) post :
  wp req p h (fun r h' =>
    match r with
    | OOk a => wp req (f a) h' post
    | OErr s r k => post (OErr s r k) h'
    | OTimeout => post OTimeout h'
    | OPanic => post OPanic h'
    end) -> wp req (obind p f) h post.
Proof.
  intros H. apply wp_bind. eapply wp_mono; [exact H|]. by intros [] h'.
Qed.

Lemma send_apns_wp snapshot apns target headers body (h : hist) :
  clear h -> resolved snapshot target h ->
  wp (allowed snapshot) (send_apns from_slice apns target headers body) h (send_post target h).
Proof.
  intros Hc Hr. unfold send_apns.
  destruct (apns_host (tg_environment target)) as [host|] eqn:Eh; [|by split].
  apply obind_wp, calm_wp; [apply calm_jwt|done|].
  assert (forall tl, host ++ t! "/3/device/" ++ tl <> TOKEN_URL) as Hu.
  { intros tl. apply (url_not_token _ _ 12); unfold apns_host in Eh;
      repeat case_match; simplify_eq; vm_compute; first [discriminate|lia]. }
  intros [jwt| | |] h1 Hc1 Hs1; try (by split).
  apply obind_wp. eapply wp_mono.
  { eapply post_wp; [apply Hu|done|by eapply resolved_mono]. }
  intros [[st b]| | |] h2 [Hs2 Hresp]; try (split; [clear -Hs1 Hs2; set_solver|done]).
  destruct (Hresp st b eq_refl) as (hd & resp & -> & Hin). apply wp_bind.
  destruct (apns_provider_token_rejected _ _ _); cbn; [split; [done|]; intros []|];
    (split; [clear -Hs1 Hs2; set_solver|]); intros Hv; injection Hv as Hv;
    (eapply rejected_intro; [apply Hu| |by eauto]);
    first [exact Hin|apply elem_of_app; left; exact Hin].
Qed.

Lemma send_fcm_wp snapshot fcm target body (h : hist) :
  clear h -> resolved snapshot target h ->
  wp (allowed snapshot) (send_fcm from_slice fcm body) h (send_post target h).
Proof.
  intros Hc Hr. unfold send_fcm.
  apply obind_wp, calm_wp; [apply calm_bearer|done|].
  intros [jwt| | |] h1 Hc1 Hs1; try (by split).
  apply obind_wp. eapply wp_mono.
  { eapply post_wp; [|done|by eapply resolved_mono].
    apply (url_not_token _ _ 12); vm_compute; first [discriminate|lia]. }
  intros [[st b]| | |] h2 [Hs2 Hresp]; try (split; [clear -Hs1 Hs2; set_solver|done]).
  destruct (Hresp st b eq_refl) as (hd & resp & -> & Hin). apply wp_bind.
  assert (t! "https://fcm.googleapis.com/v1/projects/" ++ fcm_project_id fcm ++ t! "/messages:send"
    <> TOKEN_URL) as Hu by (apply (url_not_token _ _ 12); vm_compute; first [discriminate|lia]).
  destruct (fcm_bearer_rejected _); cbn; [split; [done|]; intros []|];
    (split; [clear -Hs1 Hs2; set_solver|]); intros Hv; injection Hv as Hv;
    (eapply rejected_intro; [apply Hu| |by eauto]);
    first [exact Hin|apply elem_of_app; left; exact Hin].
Qed.

(** What a configured send leaves behind: a [Delete] verdict was earned. *)
Definition settle_post (target : PushTarget) (h : hist) (v : option ProviderVerdict) (h' : hist) : Prop :=
  h ⊆ h' /\ (v = Some Delete -> rejected target h').

Lemma settle_wp snapshot target p (h : hist) :
  wp (allowed snapshot) p h (send_post target h) ->
  wp (allowed snapshot) (settle p) h (settle_post target h).
Proof.
  intros H. apply wp_bind. eapply wp_mono; [exact H|]. intros r h' [Hs Hr]. split; [done|].
  intros Hv. apply Hr. by destruct r; simplify_eq.
Qed.

Lemma configured_apns_wp snapshot material target headers body (h : hist) :
  clear h -> resolved snapshot target h ->
  wp (allowed snapshot) (send_configured_apns from_slice material target headers body) h
    (settle_post target h).
Proof.
  intros Hc Hr. unfold send_configured_apns. destruct (m_apns material) as [apns|].
  - by apply settle_wp, send_apns_wp.
  - cbn. split; [done|]. intros x. split; [set_solver|done].
Qed.

Lemma configured_fcm_wp snapshot material target body (h : hist) :
  clear h -> resolved snapshot target h ->
  wp (allowed snapshot) (send_configured_fcm from_slice material body) h (settle_post target h).
Proof.
  intros Hc Hr. unfold send_configured_fcm. destruct (m_fcm material) as [fcm|].
  - by apply settle_wp, send_fcm_wp.
  - cbn. split; [done|]. intros x. split; [set_solver|done].
Qed.

(** Sending and then deleting a dead row. *)
Lemma send_and_settle_wp snapshot target p (h : hist) :
  resolved snapshot target h ->
  wp (allowed snapshot) p h (settle_post target h) ->
  wp (allowed snapshot) (let! v := p in delete_if_dead v target) h (fun _ _ => True).
Proof.
  intros Hr H. apply wp_bind. eapply wp_mono; [exact H|]. intros v h' [Hs Hv].
  unfold delete_if_dead. case_bool_decide as Hd; [|done]. cbn. split; [|done].
  right. exists target. split; [done|]. split; [by eapply resolved_mono|by apply Hv].
Qed.

(** The liveness check: a row comes back only from a clear history. *)
Lemma resolve_wp snapshot (h : hist) (post : option PushTarget -> hist -> Prop) :
  clear h ->
  (forall h', post None h') ->
  (forall target h', clear h' -> resolved snapshot target h' -> post (Some target) h') ->
  wp (allowed snapshot) (resolve_target snapshot) h post.
Proof.
  intros Hc Hnone Hsome. unfold resolve_target. cbn [bind Effects.ask wp]. split; [done|].
  intros [| |[[t []]|]]; cbn [bind Effects.ask wp].
  - apply Hsome; [by apply clear_snoc|]. right. set_solver.
  - apply Hsome; [by apply clear_snoc|]. right. set_solver.
  - apply Hsome; [by apply clear_snoc|]. left. set_solver.
  - split; [|intros; apply Hnone]. left. split; [done|]. exists t. set_solver.
  - apply Hnone.
Qed.

(** A cancellation check: going on keeps the history clear. *)
Lemma not_cancelled_wp {A} snapshot (p : push A) a (h : hist) post :
  clear h -> (forall h', post a h') ->
  (forall h', clear h' -> h ⊆ h' -> wp (allowed snapshot) p h' post) ->
  wp (allowed snapshot) (let! c := ask QCancelled in if c then Ret a else p) h post.
Proof.
  intros Hc Hret Hp. cbn. split; [done|]. intros []; cbn; [apply Hret|].
  apply Hp; [by apply clear_snoc|set_solver].
Qed.

Lemma badge_wp snapshot material target total (h : hist) :
  clear h -> resolved snapshot target h ->
  wp (allowed snapshot) (send_badge to_vec from_slice material target total) h (fun _ _ => True).
Proof. intros Hc Hr. apply send_and_settle_wp; [done|by apply configured_apns_wp]. Qed.

Lemma deliver_wp material snapshot a r m :
  wp (allowed snapshot) (deliver to_vec from_slice sha256 uuid_text material snapshot a r m) []
    (fun _ _ => True).
Proof.
  unfold deliver. apply not_cancelled_wp; [done|done|]. intros h Hc _.
  apply wp_bind, resolve_wp; [done|done|]. intros target h1 Hc1 Hr1.
  apply not_cancelled_wp; [done|done|]. intros h2 Hc2 Hs2. eapply resolved_mono in Hr1; [|exact Hs2].
  apply wp_bind, calm_wp; [apply calm_banner|done|]. intros names h3 Hc3 Hs3.
  eapply resolved_mono in Hr1; [|exact Hs3].
  apply wp_bind, calm_wp; [case_bool_decide; [|exact I]; cbn [andb]; destruct (tg_badge target);
    [apply calm_badge|exact I]|done|].
  intros badge h4 Hc4 Hs4. eapply resolved_mono in Hr1; [|exact Hs4].
  destruct (fit_outbound _ _ _) as [[body c]|].
  - repeat case_bool_decide; [| |done];
      (apply send_and_settle_wp; [done|]); [by apply configured_apns_wp|by apply configured_fcm_wp].
  - destruct badge; [by apply badge_wp|done].
Qed.

Lemma deliver_badge_wp material snapshot :
  wp (allowed snapshot) (deliver_badge to_vec from_slice material snapshot) [] (fun _ _ => True).
Proof.
  unfold deliver_badge. apply not_cancelled_wp; [done|done|]. intros h Hc _.
  apply wp_bind, resolve_wp; [done|done|]. intros target h1 Hc1 Hr1.
  destruct (_ || _); [done|].
  apply not_cancelled_wp; [done|done|]. intros h2 Hc2 Hs2. eapply resolved_mono in Hr1; [|exact Hs2].
  cbn. split; [done|]. intros [total|]; [|done].
  apply badge_wp; [by apply clear_snoc|]. eapply resolved_mono; [|exact Hr1]. set_solver.
Qed.

Lemma deliver_room_read_wp material snapshot a r :
  wp (allowed snapshot) (deliver_room_read to_vec from_slice sha256 uuid_text material snapshot a r) []
    (fun _ _ => True).
Proof.
  unfold deliver_room_read. apply not_cancelled_wp; [done|done|]. intros h Hc _.
  apply wp_bind, resolve_wp; [done|done|]. intros target h1 Hc1 Hr1.
  destruct (negb _); [done|].
  apply not_cancelled_wp; [done|done|]. intros h2 Hc2 Hs2. eapply resolved_mono in Hr1; [|exact Hs2].
  apply send_and_settle_wp; [done|by apply configured_fcm_wp].
Qed.

(** [C11] Every send keeps its promises, also when it is cut short: it makes at
    most one push request, and none after it saw itself cancelled, its
    registration gone or its session dead; and it deletes a registration only
    when the liveness check found the session dead or the provider answered
    that push with a verdict that the token is dead. *)
Theorem send_is_safe material j t t1 q x t2 :
  cut_run (run_send to_vec from_slice sha256 uuid_text material j) t ->
  t = t1 ++ ev q x :: t2 ->
  allowed (j_target j) q t1.
Proof.
  intros Hrun Ht.
  assert (wp (allowed (j_target j)) (run_send to_vec from_slice sha256 uuid_text material j) []
    (fun _ _ => True)) as Hwp.
  { unfold run_send. destruct (j_work j); [apply deliver_wp|apply deliver_room_read_wp|apply deliver_badge_wp]. }
  by apply (wp_cut_run _ _ _ _ _ _ _ _ _ Hwp Hrun Ht).
Qed.
End DeliverSafety.

(** ** Witness: a delivery against a small environment *)

Definition demo_target : PushTarget :=
  {| tg_id := 1; tg_provider := t! "apns"; tg_token := t! "device"; tg_environment := Some (t! "sandbox");
     tg_disclosure := t! "activity"; tg_badge := false; tg_updated_at := 0 |}.
Definition demo_material : PushMaterial :=
  {| m_apns := Some {| apns_team_id := t! "T"; apns_key_id := t! "K"; apns_private_key := t! "P";
                       apns_bundle_id := t! "B" |}; m_fcm := None |}.

(** Everything works; the provider answers the push with [status] and [resp]. *)
Definition demo_env (status : Z) (resp : list Z) (h : list (event answer)) (q : Question) : answer q :=
  match q with
  | QCancelled => false | QFcmLock => true | QWarned _ => false
  | QSendCheck _ => CheckRow (Some (demo_target, true))
  | QRoomName _ _ | QMemberName _ _ _ => None
  | QBadgeTotal | QBadgeGet => None
  | QNamesGet => None
  | QNow | QUtcNow => 0
  | QJwtGet => None | QFcmGet => None
  | QSign _ _ _ _ => Some (t! "jwt")
  | QPost _ _ _ => PostResponse status resp
  | QDelete _ | QNamesSet _ | QBadgeSet _ | QJwtPut _ | QFcmPut _ | QFcmUnlock => tt
  end.
Definition demo_parse (b : list Z) : option json :=
  Some (JObj [(t! "reason", JStr (t! "BadDeviceToken"))]).
Definition demo_job : Job :=
  {| j_target := demo_target; j_work := Alert 7 (t! "!r") (note "$a" Notify) |}.
Definition demo_send : push unit :=
  run_send (fun _ => [1]) demo_parse (fun b => b) (fun _ => t! "7") demo_material demo_job.
Definition demo_trace : list (event answer) := (exec (demo_env 400 []) [] demo_send).1.

Definition is_delete (e : event answer) : bool :=
  match projT1 e with QDelete _ => true | _ => false end.

Lemma send_is_safe_witness :
  existsb is_push demo_trace = true /\ existsb is_delete demo_trace = true /\
  allowed demo_parse demo_target (QDelete 1) (take 13 demo_trace).
Proof.
  split; [vm_compute; reflexivity|split; [vm_compute; reflexivity|]].
  apply (send_is_safe (fun _ => [1]) demo_parse (fun b => b) (fun _ => t! "7") demo_material demo_job
    demo_trace (take 13 demo_trace) (QDelete 1) tt (drop 14 demo_trace)).
  - eapply cut_runs, exec_runs.
  - vm_compute. reflexivity.
Defined.

(** ** Verdicts *)

Lemma parse_reason_some from_slice b s :
  reason (parse_reason from_slice b) = Some s <->
  Z.of_nat (length b) <= BODY_CAP /\ exists v, from_slice b = Some v /\
    (jget (t! "reason") v = Some (JStr s) \/
     ((jget (t! "reason") v ≫= as_str) = None /\
      (jget (t! "error") v ≫= jget (t! "status")) = Some (JStr s))).
Proof.
  unfold parse_reason. destruct (BODY_CAP <? _) eqn:E; b2p; cbn [reason].
  { split; [done|intros []; lia]. }
  destruct (from_slice b) as [v|]; cbn [reason]; [|split; [done|intros (_ & ? & ? & _); done]].
  split.
  - intros H. split; [done|]. exists v. split; [done|].
    destruct (jget (t! "reason") v ≫= as_str) as [s'|] eqn:E2; cbn in H.
    + left. apply bind_as_str. congruence.
    + right. split; [done|]. by apply bind_as_str.
  - intros (_ & v' & [= <-] & [H%bind_as_str|[H1 H2%bind_as_str]]); [by rewrite H|by rewrite H1].
Qed.

(** A registration is deleted for a provider answer in exactly three cases:
    APNs 400 [BadDeviceToken], APNs 410 [Unregistered] with a timestamp later
    than the registration's last update, and FCM 404 [UNREGISTERED]; a success,
    an unreadable body or any other answer keeps it. *)
Theorem provider_delete_iff from_slice status b updated_at :
  (apns_verdict from_slice status b updated_at = Delete <->
   (status = 400 /\ reason (parse_reason from_slice b) = Some (t! "BadDeviceToken")) \/
   (status = 410 /\ reason (parse_reason from_slice b) = Some (t! "Unregistered") /\
    exists ts, timestamp_ms (parse_reason from_slice b) = Some ts /\ timestamp_millis updated_at < ts)) /\
  (fcm_verdict from_slice status b = Delete <->
   status = 404 /\ reason (parse_reason from_slice b) = Some (t! "UNREGISTERED")) /\
  (forall s, reason (parse_reason from_slice b) = Some s ->
   Z.of_nat (length b) <= BODY_CAP /\ is_Some (from_slice b)).
Proof.
  split; [|split].
  - unfold apns_verdict, success. destruct ((200 <=? status) && (status <? 300)) eqn:Es.
    { split; [done|]. b2p. intros [[-> _]|[-> _]]; lia. }
    destruct (Z.eqb_spec status 410) as [->|H410]; cbn [andb].
    + case_bool_decide as Hr.
      * destruct (timestamp_ms _) as [ts|]; [|split; [done|intros [[? _]|(_ & _ & ? & ? & _)]; done]].
        destruct (_ <? ts) eqn:Elt; b2p; (split; [try done|]); intros HD; [by eauto 10|done|].
        destruct HD as [[? _]|(_ & _ & ts' & [= <-] & ?)]; lia.
      * change (410 =? 400) with false. cbn [andb]. split; [done|]. intros [[? _]|(_ & ? & _)]; done.
    + destruct (Z.eqb_spec status 400) as [->|H400]; cbn [andb].
      * case_bool_decide as Hr; (split; [try done|]); intros HD; [by auto|done|].
        destruct HD as [[_ ?]|[? _]]; done.
      * split; [done|]. intros [[? _]|[? _]]; done.
  - unfold fcm_verdict, success. destruct ((200 <=? status) && (status <? 300)) eqn:Es.
    { split; [done|]. b2p. intros [-> _]; lia. }
    destruct (Z.eqb_spec status 404) as [->|H404]; cbn [andb]; [|split; [done|by intros [? _]]].
    case_bool_decide as Hr; (split; [try done|]); [auto|by intros [_ ?]].
  - intros s (? & v & -> & _)%parse_reason_some. eauto.
Qed.

(** ** The FCM access token *)

Section Bearer.
Context (from_slice : list Z -> option json).

(** The token came from a cache entry that had not expired, or from a token
    response that also filled the cache, for at most its lifetime. *)
Definition fresh_token (v : text) (h : list (event answer)) : Prop :=
  (exists c (now : Z), ev QFcmGet (Some c) ∈ h /\ ev QNow now ∈ h /\ v = fcm_value c /\
                 now < fcm_good_until c) \/
  (exists hd b status resp parsed c (now lifetime : Z),
     ev (QPost TOKEN_URL hd b) (PostResponse status resp) ∈ h /\ success status = true /\
     from_slice (limited_body resp) = Some parsed /\
     jget (t! "access_token") parsed = Some (JStr v) /\ v <> [] /\
     lifetime = secs (expires_in parsed) /\
     ev QNow now ∈ h /\ ev (QFcmPut (Some c)) tt ∈ h /\ fcm_value c = v /\
     now <= fcm_good_until c <= now + lifetime /\
     (60 * nanos_per_sec <= lifetime -> fcm_good_until c = now + lifetime - 60 * nanos_per_sec)).

Definition is_post (e : event answer) : bool :=
  match projT1 e with QPost _ _ _ => true | _ => false end.
Definition no_post (h : list (event answer)) : Prop := existsb is_post h = false.

Lemma no_post_snoc h e : no_post h -> is_post e = false -> no_post (h ++ [e]).
Proof. unfold no_post. intros H He. rewrite existsb_app, H. cbn. by rewrite He. Qed.

(** A token request happens only under the refresh lock, once, after the cache
    was looked at again under it. *)
Definition mint_allowed (q : Question) (h : list (event answer)) : Prop :=
  match q with
  | QPost url _ _ =>
      url = TOKEN_URL /\ no_post h /\
      exists h1 h2, (h = h1 ++ ev QFcmLock true :: h2) /\ (ev QFcmUnlock tt ∉ h2) /\
        exists c, ev QFcmGet c ∈ h2
  | _ => True
  end.

Lemma fresh_fcm_wp (h : list (event answer)) :
  wp mint_allowed fresh_fcm h (fun r h' =>
    exists t, h' = h ++ t /\ no_post t /\ (ev QFcmUnlock tt ∉ t) /\ (exists c, ev QFcmGet c ∈ t) /\
      forall v, r = Some v -> fresh_token v h').
Proof.
  unfold fresh_fcm. cbn. split; [done|]. intros [c|]; cbn.
  - split; [done|]. intros now. cbn. eexists [_; _]. rewrite <- app_assoc. split; [done|].
    split; [done|split; [set_solver|split; [set_solver|]]]. intros v. case_match; [|done]. b2p.
    intros [= <-]. left. exists c, now. set_solver.
  - eexists [_]. split; [done|]. split; [done|split; [set_solver|split; [set_solver|done]]].
Qed.

Lemma as_u64_bound v n : as_u64 v = Some n -> 0 <= n.
Proof. destruct v; cbn; try done. case_match; [|done]. b2p. intros [= <-]. done. Qed.

Lemma slack_bounds e now : 0 <= e ->
  now <= now + secs e - Z.min FCM_REFRESH_SLACK (secs e) <= now + secs e /\
  (60 * nanos_per_sec <= secs e ->
   now + secs e - Z.min FCM_REFRESH_SLACK (secs e) = now + secs e - 60 * nanos_per_sec).
Proof. unfold FCM_REFRESH_SLACK, secs, nanos_per_sec. lia. Qed.

Lemma fcm_mint_wp fcm (h : list (event answer)) :
  no_post h -> (exists h1 h2, (h = h1 ++ ev QFcmLock true :: h2) /\ (ev QFcmUnlock tt ∉ h2) /\
    exists c, ev QFcmGet c ∈ h2) ->
  wp mint_allowed (fcm_mint from_slice fcm) h (fun r h' => forall v, r = OOk v -> fresh_token v h').
Proof.
  intros Hn (h1 & h2 & -> & Hu & c & Hc). unfold fcm_mint. cbn [bind Effects.ask wp].
  split; [done|]. intros utc. split; [done|]. intros [assertion|]; cbn [bind Effects.ask wp]; [|done].
  split.
  { split; [done|]. split; [by repeat apply no_post_snoc|].
    exists h1. eexists (h2 ++ [_; _]). rewrite <- !app_assoc. split; [done|].
    split; [set_solver|exists c; set_solver]. }
  intros [|k|status resp]; cbn [bind Effects.ask wp]; [done|done|].
  destruct (success status) eqn:Es; cbn [negb wp]; [|done].
  destruct (from_slice (limited_body resp)) as [parsed|] eqn:Ep; cbn [wp]; [|done].
  destruct (jget (t! "access_token") parsed ≫= as_str) as [[|ch value]|] eqn:Et; cbn [wp fail]; try done.
  apply bind_as_str in Et. split; [done|]. intros now. case_match; [done|].
  cbn [bind Effects.ask wp]. split; [done|]. intros [] v [= <-].
  assert (0 <= expires_in parsed) as He.
  { unfold expires_in. destruct (jget (t! "expires_in") parsed) as [x|]; cbn; [|lia].
    destruct (as_u64 x) eqn:Ex; cbn; [|lia]. by apply as_u64_bound in Ex. }
  destruct (slack_bounds (expires_in parsed) now He) as [Hb1 Hb2]. right.
  eexists _, _, status, resp, parsed, {| fcm_value := ch :: value; fcm_good_until := _ |}, now,
    (secs (expires_in parsed)).
  split; [|split; [done|split; [done|split; [done|split; [done|split; [done|split; [|split;
    [|split; [done|split; [exact Hb1|exact Hb2]]]]]]]]]]; rewrite !elem_of_app, !elem_of_cons; auto 10.
Qed.

(** The FCM bearer: a token is requested at most once, only under the
    refresh lock and after looking at the cache again; the token used is a
    cached one before its deadline or a newly issued one, and the deadline put
    in the cache is within the lifetime the provider gave, a minute early when
    the lifetime allows. *)
Theorem fcm_bearer_is_fresh fcm :
  (forall t t1 q x t2, cut_run (fcm_bearer from_slice fcm) t -> t = t1 ++ ev q x :: t2 ->
     mint_allowed q t1) /\
  (forall t v, runs (fcm_bearer from_slice fcm) t (OOk v) -> fresh_token v t).
Proof.
  assert (wp mint_allowed (fcm_bearer from_slice fcm) []
    (fun r h => forall v, r = OOk v -> fresh_token v h)) as Hwp.
  { unfold fcm_bearer. apply wp_bind. eapply wp_mono; [apply fresh_fcm_wp|].
    intros [v|] h1 (ta & -> & Hna & Hua & _ & Hf); [intros ? [= <-]; by apply Hf|]. cbn [app].
    cbn [bind Effects.ask wp]. split; [done|]. intros []; cbn [negb]; [|done].
    apply wp_bind. eapply wp_mono; [apply fresh_fcm_wp|].
    intros r h2 (tb & -> & Hnb & Hub & [c Hc] & Hf2). apply wp_bind.
    apply (wp_mono _ _ _ (fun r h => forall v, r = OOk v -> fresh_token v h)).
    - destruct r as [v|].
      + intros ? [= <-]. by apply Hf2.
      + apply fcm_mint_wp.
        * unfold no_post in *. rewrite !existsb_app, Hna, Hnb. done.
        * exists ta, tb. rewrite <- app_assoc. split; [done|]. eauto.
    - intros o h Ho. cbn. split; [done|]. intros [] v Hv. specialize (Ho v Hv).
      clear -Ho. destruct Ho as [(c & now & Ho)|Ho]; [left|right].
      + exists c, now. rewrite !elem_of_app. tauto.
      + destruct Ho as (hd & b & st & rs & p & c & now & l & Ho).
        exists hd, b, st, rs, p, c, now, l. rewrite !elem_of_app. tauto. }
  split.
  - intros t t1 q x t2 Hrun Ht. by apply (wp_cut_run _ _ _ _ _ _ _ _ _ Hwp Hrun Ht).
  - intros t v Hr. by apply (wp_runs _ _ _ _ _ _ Hwp Hr).
Qed.
End Bearer.

(** ** A healthy alert reaches the provider *)

Section Healthy.
Context (env : list (event answer) -> forall q, answer q).

(** The program's run contains an event with [P], wherever it starts. *)
Definition reaches {A} (P : event answer -> Prop) (p : push A) : Prop :=
  forall h, exists e, P e /\ e ∈ (exec env h p).1.

Lemma reaches_after {A B} P (p : push A) (f : A -> push B) :
  (forall a, reaches P (f a)) -> reaches P (bind p f).
Proof.
  intros H h. destruct (H (exec env h p).2 (h ++ (exec env h p).1)) as (e & He & Hin).
  exists e. split; [done|]. apply exec_bind_trace. by right.
Qed.

Lemma reaches_value {A B} P (p : push A) (f : A -> push B) a :
  (forall h, (exec env h p).2 = a) -> reaches P (f a) -> reaches P (bind p f).
Proof.
  intros Ha H h. destruct (H (h ++ (exec env h p).1)) as (e & He & Hin).
  exists e. split; [done|]. apply exec_bind_trace. right. by rewrite Ha.
Qed.

Lemma reaches_first {A B} P (p : push A) (f : A -> push B) : reaches P p -> reaches P (bind p f).
Proof.
  intros H h. destruct (H h) as (e & He & Hin). exists e. split; [done|]. apply exec_bind_trace. by left.
Qed.

Lemma reaches_ask {A} (P : event answer -> Prop) q (k : answer q -> push A) :
  (forall x, P (ev q x)) -> reaches P (Ask q k).
Proof.
  intros H h. exists (ev q (env h q)). split; [done|]. cbn. destruct (exec env _ _). by left.
Qed.
End Healthy.

(** The event of posting the alert to APNs: the device's URL, the fitted body. *)
Definition alert_post to_vec sha256 uuid_text (host : text) (target : PushTarget) (a : uuid)
    (r : text) (m : PushMessage) (e : event answer) : Prop :=
  exists names badge body col headers x,
    fit_outbound to_vec sha256 (outbound uuid_text target a r m names badge) = Some (body, col) /\
    e = ev (QPost (host ++ t! "/3/device/" ++ form_encode (tg_token target)) headers body) x.

(** Nothing is silently dropped: when the send is not cancelled, the row
    is live, APNs is configured for the row's environment, a provider token is
    cached and young enough, and the payload fits, the alert is posted to the
    device's URL with the fitted payload. *)
Theorem healthy_alert_is_pushed to_vec from_slice sha256 uuid_text
    (env : list (event answer) -> forall q, answer q) material snapshot a r m target apns host c :
  (forall h, env h QCancelled = false) ->
  (forall h, env h (QSendCheck (tg_id snapshot)) = CheckRow (Some (target, true))) ->
  tg_provider target = t! "apns" -> m_apns material = Some apns ->
  apns_host (tg_environment target) = Some host ->
  (forall h, env h QJwtGet = Some c) ->
  (forall h, sat_sub (env h QNow) (jwt_minted c) < APNS_JWT_TTL) ->
  (forall names badge, is_Some (fit_outbound to_vec sha256 (outbound uuid_text target a r m names badge))) ->
  exists e, alert_post to_vec sha256 uuid_text host target a r m e /\
    e ∈ (exec env [] (deliver to_vec from_slice sha256 uuid_text material snapshot a r m)).1.
Proof.
  intros Hc Hrow Hp Ha Hh Hj Hn Hfit. unfold deliver.
  refine (reaches_value env _ _ _ false _ _ []); [intros h; apply Hc|].
  apply reaches_value with (a := Some target); [intros h; cbn; by rewrite Hrow|].
  apply reaches_value with (a := false); [intros h; apply Hc|].
  apply reaches_after. intros names. apply reaches_after. intros badge.
  destruct (Hfit names badge) as [[body col] Hf]. rewrite Hf, bool_decide_eq_true_2 by done.
  apply reaches_first. unfold send_configured_apns, settle. rewrite Ha. apply reaches_first.
  unfold send_apns. rewrite Hh. apply reaches_value with (a := OOk (jwt_value c)).
  { intros h. unfold apns_jwt. cbn. rewrite Hj. cbn. by rewrite (proj2 (Z.ltb_lt _ _) (Hn _)). }
  apply reaches_first, reaches_ask. intros x. eexists names, badge, body, col, _, _. eauto.
Qed.

Lemma healthy_alert_is_pushed_witness :
  exists e, alert_post (fun _ => [1]) (fun b => b) (fun _ => t! "7")
      (t! "https://api.sandbox.push.apple.com") demo_target 7 (t! "!r") (note "$a" Notify) e /\
    e ∈ (exec (fun h q => match q return answer q with
                          | QJwtGet => Some {| jwt_value := t! "jwt"; jwt_minted := 0 |}
                          | q => demo_env 200 [] h q end) []
           (deliver (fun _ => [1]) demo_parse (fun b => b) (fun _ => t! "7") demo_material
              demo_target 7 (t! "!r") (note "$a" Notify))).1.
Proof.
  eapply (healthy_alert_is_pushed (fun _ => [1]) demo_parse (fun b => b) (fun _ => t! "7"));
    try reflexivity.
  intros names badge. vm_compute. eexists. reflexivity.
Defined.
