(* ===== verification/MediaIndex.v ===== *)
(** * The media cache's LRU index

    Models [Index] of [crates/axon-media/src/cache.rs]: entries, access order,
    byte total and sequence counter, and their refinement of an LRU list. *)

From stdpp Require Import base gmap sets list strings sorting.
From Stdlib Require Import ZArith Lia.
From S2P Require Import Prelude Text.

Abbreviation Key := (uuid * text)%type (only parsing).

Record Entry := { size_ : Z; seq : Z }.

(** [order] is a [BTreeMap]: its first key is the smallest. *)
Record Index := {
  entries : gmap (Z * list Z) Entry;
  order : gmap Z (Z * list Z);
  total_bytes : Z;
  next_seq : Z;
}.

Definition empty_index : Index :=
  {| entries := ∅; order := ∅; total_bytes := 0; next_seq := 0 |}.

Definition first_key {A} (m : gmap Z A) : option Z :=
  foldr (fun e acc => Some (match acc with None => e.1 | Some y => Z.min e.1 y end)) None
    (map_to_list m).

(** Put [key] at the most recently used position. *)
Definition push_entry (key : Key) (size : Z) (i : Index) : Index :=
  {| entries := <[key := {| size_ := size; seq := next_seq i |}]> (entries i);
     order := <[next_seq i := key]> (order i);
     total_bytes := wrap64 (total_bytes i + size);
     next_seq := wrap64 (next_seq i + 1) |}.

Definition record (key : Key) (size : Z) (i : Index) : Index :=
  let i := match entries i !! key with
           | Some existing =>
               {| entries := entries i; order := delete (seq existing) (order i);
                  total_bytes := wrap64 (total_bytes i - size_ existing); next_seq := next_seq i |}
           | None => i
           end in
  push_entry key size i.

Definition record_if_absent (key : Key) (size : Z) (i : Index) : Index :=
  match entries i !! key with Some _ => i | None => push_entry key size i end.

Definition touch (key : Key) (i : Index) : Index :=
  match entries i !! key with
  | None => i
  | Some e =>
      {| entries := <[key := {| size_ := size_ e; seq := next_seq i |}]> (entries i);
         order := <[next_seq i := key]> (delete (seq e) (order i));
         total_bytes := total_bytes i; next_seq := wrap64 (next_seq i + 1) |}
  end.

(** [collect_evictions]; [None] is the [expect] failing. *)
Fixpoint evict_loop (fuel : nat) (max_bytes : Z) (i : Index) : option (Index * list Key) :=
  match fuel with
  | O => Some (i, [])
  | S fuel =>
      if max_bytes <? total_bytes i then
        match first_key (order i) with
        | None => Some (i, [])
        | Some s =>
            key ← order i !! s;
            let i' :=
              {| entries := delete key (entries i); order := delete s (order i);
                 total_bytes := match entries i !! key with
                                | Some e => wrap64 (total_bytes i - size_ e)
                                | None => total_bytes i
                                end;
                 next_seq := next_seq i |} in
            '(i'', victims) ← evict_loop fuel max_bytes i';
            Some (i'', key :: victims)
        end
      else Some (i, [])
  end.
Definition collect_evictions (max_bytes : Z) (i : Index) : option (Index * list Key) :=
  evict_loop (S (size (order i))) max_bytes i.

Definition remove_entry (i : Index) (key : Key) : Index :=
  match entries i !! key with
  | Some e => {| entries := delete key (entries i); order := delete (seq e) (order i);
                 total_bytes := wrap64 (total_bytes i - size_ e); next_seq := next_seq i |}
  | None => i
  end.
Definition remove_account (account : uuid) (i : Index) : Index :=
  foldl remove_entry i (filter (fun k => k.1 = account) (map fst (map_to_list (entries i)))).

(** ** The abstract cache: keys and sizes from least to most recently used *)

Abbreviation LRU := (list (Key * Z)) (only parsing).

Definition lru_bytes (l : LRU) : Z := foldr (fun e n => e.2 + n) 0 l.
Definition lru_drop (key : Key) (l : LRU) : LRU := filter (fun e => e.1 <> key) l.
Definition lru_record (key : Key) (size : Z) (l : LRU) : LRU := lru_drop key l ++ [(key, size)].
Definition lru_touch (key : Key) (l : LRU) : LRU :=
  match list_find (fun e => e.1 = key) l with
  | Some (_, e) => lru_drop key l ++ [e]
  | None => l
  end.
Definition lru_record_if_absent (key : Key) (size : Z) (l : LRU) : LRU :=
  if bool_decide (key ∈ map fst l) then l else l ++ [(key, size)].
Definition lru_remove_account (account : uuid) (l : LRU) : LRU :=
  filter (fun e => e.1.1 <> account) l.

(** The entries dropped to get within [max_bytes]: the shortest prefix. *)
Fixpoint lru_evict (max_bytes : Z) (l : LRU) : LRU * list Key :=
  match l with
  | [] => ([], [])
  | e :: l' =>
      if max_bytes <? lru_bytes l
      then let '(r, victims) := lru_evict max_bytes l' in (r, e.1 :: victims)
      else (l, [])
  end.

(** [tracks i L]: the index holds exactly the entries of [L], a list of
    (sequence number, (key, size)) in increasing sequence order. *)
Record tracks (i : Index) (L : list (Z * (Key * Z))) : Prop := {
  t_sorted : StronglySorted Z.lt (map fst L);
  t_order s k : order i !! s = Some k <-> exists z, (s, (k, z)) ∈ L;
  t_entry k z s : entries i !! k = Some {| size_ := z; seq := s |} <-> (s, (k, z)) ∈ L;
  t_seq e : e ∈ L -> 0 <= e.1 < next_seq i;
  t_size e : e ∈ L -> 0 <= e.2.2;
  t_total : total_bytes i = lru_bytes (map snd L);
  t_bounds : total_bytes i < 2 ^ 64 /\ 0 <= next_seq i < 2 ^ 64;
}.

Definition implements (i : Index) (l : LRU) : Prop := exists L, tracks i L /\ map snd L = l.

(** ** Lemmas *)

Lemma lru_bytes_app a b : lru_bytes (a ++ b) = lru_bytes a + lru_bytes b.
Proof. induction a as [|e a IH]; simpl; lia. Qed.

Lemma lru_bytes_nonneg l : Forall (fun e => 0 <= e.2) l -> 0 <= lru_bytes l.
Proof. induction 1; simpl; lia. Qed.

Lemma map_snd_filter {A B} (P : B -> Prop) `{forall x, Decision (P x)} (l : list (A * B)) :
  map snd (filter (fun e => P e.2) l) = filter P (map snd l).
Proof.
  induction l as [|[a b] l IH]; [done|]. cbn [map]. rewrite !filter_cons. cbn [snd].
  case_decide; cbn [map snd]; by rewrite IH.
Qed.

Lemma lru_drop_absent k l : k ∉ map fst l -> lru_drop k l = l.
Proof.
  intros H. apply filter_all. rewrite Forall_forall. intros e He <-. apply H.
  by apply (list_elem_of_fmap_2 fst).
Qed.

Lemma lru_drop_bytes k z l :
  NoDup (map fst l) -> (k, z) ∈ l -> lru_bytes (lru_drop k l) = lru_bytes l - z.
Proof.
  induction l as [|[k' z'] l IH]; [set_solver|]. cbn [map fst]. rewrite NoDup_cons.
  intros [Hn Hnd] Hin. unfold lru_drop. rewrite filter_cons. cbn [fst].
  fold (lru_drop k l). apply elem_of_cons in Hin as [[= <- <-]|Hin].
  - rewrite decide_False by auto. rewrite lru_drop_absent by done. simpl. lia.
  - rewrite decide_True.
    + simpl. rewrite IH by done. lia.
    + intros ->. apply Hn. by apply (list_elem_of_fmap_2 fst _ (k, z)).
Qed.

Lemma first_key_spec {A} (m : gmap Z A) s x :
  m !! s = Some x -> (forall s' y, m !! s' = Some y -> s <= s') -> first_key m = Some s.
Proof.
  intros Hs Hmin. unfold first_key.
  assert (forall l : list (Z * A), Forall (fun e => s <= e.1) l ->
    match foldr (fun e acc => Some (match acc with None => e.1 | Some y => Z.min e.1 y end)) None l with
    | None => l = []
    | Some y => s <= y /\ (s ∈ map fst l -> y = s)
    end) as Hl.
  { induction 1 as [|e l He _ IH]; [done|]. cbn.
    destruct (foldr _ _ l) as [y|]; [|subst; cbn; split; [done|]; intros H%list_elem_of_singleton; done].
    destruct IH as [Hy IH]. split; [lia|]. intros [->|H]%elem_of_cons; [lia|]. rewrite (IH H). lia. }
  specialize (Hl (map_to_list m)).
  assert ((s, x) ∈ map_to_list m) as Hin by by apply elem_of_map_to_list.
  destruct (foldr _ _ _) as [y|].
  - f_equal. apply Hl.
    + rewrite Forall_forall. intros [s' y'] H%elem_of_map_to_list. by eapply Hmin.
    + by apply (list_elem_of_fmap_2 fst _ (s, x)).
  - rewrite Hl in Hin; [set_solver|].
    rewrite Forall_forall. intros [s' y'] H%elem_of_map_to_list. by eapply Hmin.
Qed.

Section Tracks.
Context {i : Index} {L : list (Z * (Key * Z))} (T : tracks i L).

Lemma tracks_same_key s k z s' z' : (s, (k, z)) ∈ L -> (s', (k, z')) ∈ L -> s = s' /\ z = z'.
Proof. rewrite <- !(t_entry _ _ T). intros -> [=]. done. Qed.

Lemma tracks_nodup_seq : NoDup (map fst L).
Proof.
  pose proof (t_sorted _ _ T) as H. induction (map fst L) as [|s l IH]; [constructor|].
  apply StronglySorted_inv in H as [H Hf]. constructor; [|auto].
  intros Hin. rewrite Forall_forall in Hf. specialize (Hf _ Hin). lia.
Qed.

Lemma tracks_nodup_key : NoDup (map fst (map snd L)).
Proof.
  assert (NoDup L) as Hnd by (eapply NoDup_fmap_1; apply tracks_nodup_seq).
  rewrite map_map. apply (NoDup_fmap_2_strong (fun x => x.2.1)); [|done].
  intros [s [k z]] [s' [k' z']] H1 H2 Heq. cbn in Heq. subst.
  by destruct (tracks_same_key _ _ _ _ _ H1 H2) as [-> ->].
Qed.

Lemma tracks_size_order : size (order i) = length L.
Proof.
  assert (order i = list_to_map ((fun e => (e.1, e.2.1)) <$> L)) as ->.
  { apply map_eq. intros s. apply option_eq. intros k. rewrite (t_order _ _ T).
    rewrite <- elem_of_list_to_map.
    - rewrite list_elem_of_fmap. split; [intros [z H]; by exists (s, (k, z))|].
      intros ([s' [k' z']] & [= -> ->] & H). eauto.
    - rewrite <- list_fmap_compose. apply tracks_nodup_seq. }
  rewrite map_size_list_to_map, length_fmap; [done|].
  rewrite <- list_fmap_compose. apply tracks_nodup_seq.
Qed.

Lemma tracks_nonneg : Forall (fun e => 0 <= e.2) (map snd L).
Proof.
  rewrite Forall_forall. intros e (x & -> & Hx)%list_elem_of_fmap. by apply (t_size _ _ T).
Qed.
End Tracks.

Lemma tracks_empty : tracks empty_index [].
Proof.
  split; cbn; [constructor| | |set_solver|set_solver|done|lia].
  - intros s k. rewrite lookup_empty. set_solver.
  - intros k z s. rewrite lookup_empty. set_solver.
Qed.

(** Dropping a tracked key. *)
Lemma remove_tracks i L k :
  tracks i L -> tracks (remove_entry i k) (filter (fun e => e.2.1 <> k) L).
Proof.
  intros T. unfold remove_entry. destruct (entries i !! k) as [[z s]|] eqn:Ek; cbn [seq size_].
  - pose proof (proj1 (t_entry _ _ T _ _ _) Ek) as Hin.
    assert (map snd (filter (fun e : Z * (Key * Z) => e.2.1 <> k) L) = lru_drop k (map snd L)) as Hd
      by exact (map_snd_filter (fun e : Key * Z => e.1 <> k) L).
    pose proof (lru_drop_bytes k z _ (tracks_nodup_key T) (list_elem_of_fmap_2 snd _ _ Hin)) as Hb.
    assert (0 <= lru_bytes (lru_drop k (map snd L))) as Hnn.
    { apply lru_bytes_nonneg. pose proof (tracks_nonneg T) as H. rewrite Forall_forall in H |- *.
      intros e [_ He]%list_elem_of_filter. auto. }
    pose proof (t_size _ _ T _ Hin) as Hz. cbn in Hz.
    pose proof (t_total _ _ T) as Htot. pose proof (t_bounds _ _ T) as [Hlt Hseq].
    assert (wrap64 (total_bytes i - z) = total_bytes i - z) as Hw by (apply wrap64_small; lia).
    split; cbn [entries order total_bytes next_seq].
    + pose proof (t_sorted _ _ T) as Hs. clear -Hs.
      induction L as [|e L IH]; [constructor|]. apply StronglySorted_inv in Hs as [Hs Hf].
      rewrite filter_cons. case_decide; [|auto]. constructor; [auto|].
      rewrite Forall_forall in Hf |- *. intros x (y & -> & [_ Hy]%list_elem_of_filter)%list_elem_of_fmap.
      apply Hf. by apply (list_elem_of_fmap_2 fst).
    + intros s' k'. rewrite lookup_delete_Some, (t_order _ _ T). setoid_rewrite list_elem_of_filter.
      cbn. split.
      * intros [Hne [z' H']]. exists z'. split; [|done]. intros ->.
        by destruct (tracks_same_key T _ _ _ _ _ Hin H').
      * intros [z' [Hne H']]. split; [|eauto]. intros ->.
        apply Hne. pose proof (proj2 (t_order _ _ T s' k') ltac:(eauto)) as E1.
        pose proof (proj2 (t_order _ _ T s' k) ltac:(eauto)) as E2. congruence.
    + intros k' z' s'. rewrite lookup_delete_Some, (t_entry _ _ T), list_elem_of_filter. cbn.
      naive_solver.
    + intros e [_ He]%list_elem_of_filter. by apply (t_seq _ _ T).
    + intros e [_ He]%list_elem_of_filter. by apply (t_size _ _ T).
    + rewrite Hw, Hd. lia.
    + rewrite Hw. lia.
  - rewrite filter_all; [done|]. rewrite Forall_forall. intros [s [k' z]] He. cbn. intros ->.
    apply (t_entry _ _ T) in He. congruence.
Qed.

(** Adding a key that is not tracked. *)
Lemma push_tracks i L k z :
  tracks i L -> k ∉ map fst (map snd L) -> 0 <= z ->
  lru_bytes (map snd L) + z < 2 ^ 64 -> next_seq i + 1 < 2 ^ 64 ->
  tracks (push_entry k z i) (L ++ [(next_seq i, (k, z))]).
Proof.
  intros T Hk Hz Hb Hs. pose proof (t_total _ _ T) as Htot. pose proof (t_bounds _ _ T) as [_ Hseq].
  assert (0 <= total_bytes i) as H0 by (rewrite Htot; apply lru_bytes_nonneg, (tracks_nonneg T)).
  assert (wrap64 (total_bytes i + z) = total_bytes i + z) as Hw by (apply wrap64_small; lia).
  assert (wrap64 (next_seq i + 1) = next_seq i + 1) as Hw' by (apply wrap64_small; lia).
  assert (forall s k' z', (s, (k', z')) ∈ L -> k' <> k /\ s <> next_seq i) as Hne.
  { intros s k' z' H. split.
    - intros ->. apply Hk. rewrite map_map. by apply (list_elem_of_fmap_2 (fun x => x.2.1) _ (s, (k, z'))).
    - apply (t_seq _ _ T) in H. cbn in H. lia. }
  split; cbn [push_entry entries order total_bytes next_seq].
  - rewrite map_app. apply StronglySorted_snoc; [apply T|].
    rewrite Forall_forall. intros x (e & -> & He)%list_elem_of_fmap.
    apply (t_seq _ _ T) in He. cbn. lia.
  - intros s k'. rewrite lookup_insert_Some, (t_order _ _ T). setoid_rewrite elem_of_app.
    setoid_rewrite list_elem_of_singleton. split.
    + intros [[<- <-]|[_ [z' H]]]; eauto.
    + intros [z' [H|[= -> -> ->]]]; [right|by left]. destruct (Hne _ _ _ H). eauto.
  - intros k' z' s. rewrite lookup_insert_Some, (t_entry _ _ T), elem_of_app, list_elem_of_singleton.
    split.
    + intros [[<- [= <- <-]]|[_ H]]; eauto.
    + intros [H|[= -> -> ->]]; [right|by left]. destruct (Hne _ _ _ H). eauto.
  - intros e [He|He%list_elem_of_singleton]%elem_of_app; rewrite Hw'.
    + apply (t_seq _ _ T) in He. lia.
    + subst. cbn. lia.
  - intros e [He|He%list_elem_of_singleton]%elem_of_app; [by apply (t_size _ _ T)|by subst].
  - rewrite Hw, map_app, lru_bytes_app. simpl. lia.
  - rewrite Hw, Hw'. lia.
Qed.

Lemma record_eq k z i : record k z i = push_entry k z (remove_entry i k).
Proof.
  unfold record, remove_entry, push_entry. destruct (entries i !! k) as [e|] eqn:E; [|done].
  cbn. by rewrite insert_delete_eq.
Qed.

Lemma drop_snd k (L : list (Z * (Key * Z))) :
  map snd (filter (fun e => e.2.1 <> k) L) = lru_drop k (map snd L).
Proof. exact (map_snd_filter (fun e : Key * Z => e.1 <> k) L). Qed.

Lemma drop_not_in k l : k ∉ map fst (lru_drop k l).
Proof. intros (e & -> & [H _]%list_elem_of_filter)%list_elem_of_fmap. done. Qed.

Lemma remove_entry_next i k : next_seq (remove_entry i k) = next_seq i.
Proof. unfold remove_entry. by destruct (entries i !! k). Qed.

Lemma lru_drop_bytes_le k i L :
  tracks i L -> 0 <= lru_bytes (lru_drop k (map snd L)) <= lru_bytes (map snd L).
Proof.
  intros T. pose proof (tracks_nonneg T) as Hnn. split.
  - apply lru_bytes_nonneg. rewrite Forall_forall in Hnn |- *. intros e [_ ?]%list_elem_of_filter. auto.
  - clear T. induction Hnn as [|e l He _ IH]; [done|]. unfold lru_drop in *. rewrite filter_cons.
    case_decide; simpl; lia.
Qed.

Lemma record_implements i l k z :
  implements i l -> 0 <= z -> lru_bytes (lru_drop k l) + z < 2 ^ 64 -> next_seq i + 1 < 2 ^ 64 ->
  implements (record k z i) (lru_record k z l).
Proof.
  intros (L & T & <-) Hz Hb Hs. rewrite record_eq.
  exists (filter (fun e => e.2.1 <> k) L ++ [(next_seq (remove_entry i k), (k, z))]). split.
  - apply push_tracks; [by apply remove_tracks| |done| |].
    + rewrite drop_snd. apply drop_not_in.
    + by rewrite drop_snd.
    + by rewrite remove_entry_next.
  - rewrite map_app, drop_snd. done.
Qed.

Lemma tracked_key i L k : tracks i L -> is_Some (entries i !! k) <-> k ∈ map fst (map snd L).
Proof.
  intros T. rewrite map_map. split.
  - intros [[z s] H%(t_entry _ _ T)]. by apply (list_elem_of_fmap_2 (fun x => x.2.1)) in H.
  - intros ([s [k' z]] & -> & H)%list_elem_of_fmap. apply (t_entry _ _ T) in H. eauto.
Qed.

Lemma record_if_absent_implements i l k z :
  implements i l -> 0 <= z -> lru_bytes l + z < 2 ^ 64 -> next_seq i + 1 < 2 ^ 64 ->
  implements (record_if_absent k z i) (lru_record_if_absent k z l).
Proof.
  intros (L & T & <-) Hz Hb Hs. unfold record_if_absent, lru_record_if_absent.
  pose proof (tracked_key i L k T) as Hk. destruct (entries i !! k) as [e|].
  - rewrite bool_decide_eq_true_2 by (apply Hk; eauto). by exists L.
  - rewrite bool_decide_eq_false_2 by (intros [? ?]%Hk; done).
    exists (L ++ [(next_seq i, (k, z))]). split; [|by rewrite map_app].
    apply push_tracks; auto. intros [? ?]%Hk. done.
Qed.

Lemma list_find_key (l : list (Key * Z)) k z :
  NoDup (map fst l) -> (k, z) ∈ l -> exists n, list_find (fun e => e.1 = k) l = Some (n, (k, z)).
Proof.
  intros Hnd Hin. destruct (list_find_elem_of (fun e : Key * Z => e.1 = k) l (k, z)) as [[n [k' z']] Hf];
    [done|done|].
  exists n. rewrite Hf. apply list_find_Some in Hf as (Hn & E & _). cbn in E. subst.
  apply list_elem_of_lookup in Hin as [m Hm].
  assert (m = n) as -> by (eapply NoDup_lookup; [exact Hnd|by rewrite list_lookup_fmap, Hm|
                                                 by rewrite list_lookup_fmap, Hn]).
  congruence.
Qed.

Lemma touch_implements i l k :
  implements i l -> next_seq i + 1 < 2 ^ 64 -> implements (touch k i) (lru_touch k l).
Proof.
  intros (L & T & <-) Hs. unfold touch, lru_touch. destruct (entries i !! k) as [[z s]|] eqn:E.
  - cbn [size_ seq]. pose proof (proj1 (t_entry _ _ T _ _ _) E) as Hin.
    destruct (list_find_key (map snd L) k z (tracks_nodup_key T)) as [n ->];
      [by apply (list_elem_of_fmap_2 snd) in Hin|].
    exists (filter (fun e => e.2.1 <> k) L ++ [(next_seq (remove_entry i k), (k, z))]). split.
    + pose proof (t_total _ _ T). pose proof (t_bounds _ _ T).
      pose proof (lru_drop_bytes_le k i L T). pose proof (t_size _ _ T _ Hin) as Hz. cbn in Hz.
      assert (lru_bytes (lru_drop k (map snd L)) = lru_bytes (map snd L) - z) as Hdb.
      { apply lru_drop_bytes; [apply (tracks_nodup_key T)|by apply (list_elem_of_fmap_2 snd) in Hin]. }
      replace {| entries := <[k:={| size_ := z; seq := next_seq i |}]> (entries i);
                 order := <[next_seq i:=k]> (delete s (order i)); total_bytes := total_bytes i;
                 next_seq := wrap64 (next_seq i + 1) |}
        with (push_entry k z (remove_entry i k)).
      * apply push_tracks; [by apply remove_tracks| |done| |by rewrite remove_entry_next];
          rewrite drop_snd; [apply drop_not_in|lia].
      * unfold push_entry, remove_entry. rewrite E. cbn. rewrite insert_delete_eq. f_equal.
        rewrite !wrap64_small; rewrite ?wrap64_small; lia.
    + rewrite map_app, drop_snd. done.
  - destruct (list_find _ _) as [[n e]|] eqn:Ef; [|by exists L]. exfalso.
    apply list_find_Some in Ef as (Hn & He & _). pose proof (tracked_key i L k T) as Hk.
    destruct (proj2 Hk) as [? ?]; [|congruence]. rewrite <- He.
    apply (list_elem_of_fmap_2 fst). by eapply list_elem_of_lookup_2.
Qed.

Lemma remove_fold_tracks ks i L :
  tracks i L -> tracks (foldl remove_entry i ks) (filter (fun e => e.2.1 ∉ ks) L).
Proof.
  revert i L. induction ks as [|k ks IH]; intros i L T; cbn [foldl].
  - rewrite filter_all; [done|]. rewrite Forall_forall. set_solver.
  - replace (filter (fun e : Z * (Key * Z) => e.2.1 ∉ k :: ks) L)
      with (filter (fun e : Z * (Key * Z) => e.2.1 ∉ ks) (filter (fun e => e.2.1 <> k) L)).
    + by apply IH, remove_tracks.
    + rewrite list_filter_filter. apply list_filter_iff. intros e. rewrite elem_of_cons. tauto.
Qed.

Lemma remove_account_implements i l a :
  implements i l -> implements (remove_account a i) (lru_remove_account a l).
Proof.
  intros (L & T & <-). unfold remove_account.
  set (ks := filter (fun k : Key => k.1 = a) (map fst (map_to_list (entries i)))).
  exists (filter (fun e => e.2.1 ∉ ks) L). split; [by apply remove_fold_tracks|].
  unfold lru_remove_account. rewrite <- (map_snd_filter (fun e : Key * Z => e.1.1 <> a) L).
  f_equal. apply filter_ext_in. intros [s [k z]] Hin. cbn.
  unfold ks. rewrite list_elem_of_filter. apply (t_entry _ _ T) in Hin.
  assert (k ∈ map fst (map_to_list (entries i))) as Hk.
  { apply (list_elem_of_fmap_2 fst _ (k, {| size_ := z; seq := s |})). by apply elem_of_map_to_list. }
  tauto.
Qed.

Lemma evict_step i s k z L :
  tracks i ((s, (k, z)) :: L) ->
  first_key (order i) = Some s /\ order i !! s = Some k /\
  {| entries := delete k (entries i); order := delete s (order i);
     total_bytes := match entries i !! k with
                    | Some e => wrap64 (total_bytes i - size_ e)
                    | None => total_bytes i
                    end;
     next_seq := next_seq i |} = remove_entry i k /\
  tracks (remove_entry i k) L.
Proof.
  intros T. assert (order i !! s = Some k) as Ho by (apply (t_order _ _ T); exists z; by left).
  assert (entries i !! k = Some {| size_ := z; seq := s |}) as He by (apply (t_entry _ _ T); by left).
  split; [|split; [done|split]].
  - apply (first_key_spec _ _ k); [done|]. intros s' y [z' Hin]%(t_order _ _ T).
    apply elem_of_cons in Hin as [[= -> -> ->]|Hin]; [lia|].
    pose proof (t_sorted _ _ T) as Hs. cbn in Hs. apply StronglySorted_inv in Hs as [_ Hf].
    rewrite Forall_forall in Hf.
    specialize (Hf s' (list_elem_of_fmap_2 fst L (s', (y, z')) Hin)). lia.
  - unfold remove_entry. by rewrite He.
  - pose proof (remove_tracks i _ k T) as T'. rewrite filter_cons, decide_False in T' by (cbn; auto).
    rewrite filter_all in T'; [done|]. rewrite Forall_forall. intros [s' [k' z']] Hin. cbn. intros ->.
    destruct (tracks_same_key T s k z s' z') as [<- _]; [by left|by right|].
    pose proof (tracks_nodup_seq T) as Hnd. cbn in Hnd. apply NoDup_cons in Hnd as [Hn _].
    apply Hn. by apply (list_elem_of_fmap_2 fst _ (s, (k, z'))).
Qed.

Lemma evict_implements max i L fuel :
  0 <= max -> tracks i L -> (length L < fuel)%nat ->
  exists i' victims, evict_loop fuel max i = Some (i', victims) /\
    lru_evict max (map snd L) = ((lru_evict max (map snd L)).1, victims) /\
    implements i' (lru_evict max (map snd L)).1.
Proof.
  intros Hmax. revert i L. induction fuel as [|fuel IH]; intros i L T Hf; [lia|]. cbn [evict_loop].
  pose proof (t_total _ _ T) as Ht. destruct L as [|[s [k z]] L].
  - cbn in *. rewrite (proj2 (Z.ltb_ge _ _)) by lia. exists i, []. split; [done|split; [done|by exists []]].
  - cbn [map snd] in Ht |- *. cbn [lru_evict]. rewrite <- Ht.
    destruct (max <? total_bytes i) eqn:E.
    + destruct (evict_step i s k z L T) as (-> & Ho & Heq & T'). rewrite Ho.
      cbn [mbind option_bind]. rewrite Heq.
      destruct (IH _ _ T') as (i' & vs & -> & Hv & Hi); [cbn in Hf; lia|].
      exists i', (k :: vs). cbn [mbind option_bind]. split; [done|].
      rewrite Hv. cbn. split; [done|exact Hi].
    + exists i, []. split; [done|split; [done|]]. by exists ((s, (k, z)) :: L).
Qed.

(** ** The theorems *)

(** What eviction means: it drops the least recently used entries, only as many
    as it must, and ends within the cap. *)
Lemma lru_evict_spec max l :
  0 <= max ->
  exists dropped, l = dropped ++ (lru_evict max l).1 /\ (lru_evict max l).2 = map fst dropped /\
    lru_bytes (lru_evict max l).1 <= max /\
    (forall d e, dropped = d ++ [e] -> max < lru_bytes (e :: (lru_evict max l).1)).
Proof.
  intros Hmax. induction l as [|e l IH]; cbn [lru_evict].
  - exists []. split; [done|split; [done|split; [cbn; lia|]]]. intros d x. by destruct d.
  - destruct (max <? lru_bytes (e :: l)) eqn:E; b2p.
    + destruct IH as (dr & Hl & Hv & Hb & Hm).
      destruct (lru_evict max l) as [r vs]. cbn in *. exists (e :: dr).
      split; [by rewrite Hl at 1|split; [by rewrite Hv|split; [done|]]].
      intros d x Heq. destruct dr as [|y dr] using rev_ind.
      * destruct d as [|? d]; [|by destruct d]. injection Heq as <-. cbn in Hl. by subst r.
      * clear IHdr. apply (Hm dr). f_equal.
        rewrite app_comm_cons in Heq. apply app_inj_2 in Heq as [_ [= <-]]; [done|done].
    + exists []. split; [done|split; [done|split; [done|]]]. intros d x. by destruct d.
Qed.

(** [C28] The index refines an LRU list: on an index that implements the list
    [l], recording, touching, merging the boot scan, removing an account and
    evicting do to [l] what they mean, the byte total stays the sum of the
    sizes, and [collect_evictions] does not hit its [expect].  The counters must
    have room: 2^64 accesses and bytes. *)
Theorem index_refines_lru i l :
  implements i l ->
  (forall k z, 0 <= z -> lru_bytes (lru_drop k l) + z < 2 ^ 64 -> next_seq i + 1 < 2 ^ 64 ->
     implements (record k z i) (lru_record k z l)) /\
  (forall k z, 0 <= z -> lru_bytes l + z < 2 ^ 64 -> next_seq i + 1 < 2 ^ 64 ->
     implements (record_if_absent k z i) (lru_record_if_absent k z l)) /\
  (forall k, next_seq i + 1 < 2 ^ 64 -> implements (touch k i) (lru_touch k l)) /\
  (forall a, implements (remove_account a i) (lru_remove_account a l)) /\
  (forall max, 0 <= max -> exists i', 
     collect_evictions max i = Some (i', (lru_evict max l).2) /\ implements i' (lru_evict max l).1) /\
  total_bytes i = lru_bytes l /\ NoDup (map fst l).
Proof.
  intros H. split; [|split; [|split; [|split; [|split; [|split]]]]].
  - intros. by apply record_implements.
  - intros. by apply record_if_absent_implements.
  - intros. by apply touch_implements.
  - intros. by apply remove_account_implements.
  - intros max Hmax. destruct H as (L & T & <-).
    destruct (evict_implements max i L (S (size (order i))) Hmax T) as (i' & vs & He & Hv & Hi).
    { rewrite (tracks_size_order T). lia. }
    exists i'. split; [|done]. unfold collect_evictions. rewrite He, Hv. done.
  - destruct H as (L & T & <-). apply T.
  - destruct H as (L & T & <-). apply (tracks_nodup_key T).
Qed.

Lemma implements_empty : implements empty_index [].
Proof. exists []. split; [apply tracks_empty|done]. Qed.

Definition demo_key (s : string) : Key := (1, lit s).
Definition demo_index : Index :=
  touch (demo_key "a") (record (demo_key "b") 5 (record (demo_key "a") 4 empty_index)).

Lemma demo_index_implements : implements demo_index [(demo_key "b", 5); (demo_key "a", 4)].
Proof.
  assert (implements (record (demo_key "a") 4 empty_index) [(demo_key "a", 4)]) as H1
    by (apply (record_implements _ _ (demo_key "a") 4 implements_empty); cbn; lia).
  assert (implements (record (demo_key "b") 5 (record (demo_key "a") 4 empty_index))
            [(demo_key "a", 4); (demo_key "b", 5)]) as H2
    by (apply (record_implements _ _ (demo_key "b") 5 H1); vm_compute; done).
  apply (touch_implements _ _ (demo_key "a") H2). vm_compute. done.
Qed.

Lemma index_refines_lru_witness :
  exists i', collect_evictions 6 demo_index = Some (i', [demo_key "b"]) /\
             implements i' [(demo_key "a", 4)].
Proof. apply (index_refines_lru _ _ demo_index_implements). lia. Defined.

(** Eviction is LRU, minimal and sufficient: the victims are the least
    recently used entries in order, what stays is within the cap, and keeping
    the last victim too would have been over it; with everything within the cap
    nothing is evicted. *)
Theorem eviction_is_minimal_lru i l max :
  implements i l -> 0 <= max ->
  exists i' dropped kept, collect_evictions max i = Some (i', map fst dropped) /\
    implements i' kept /\ l = dropped ++ kept /\ total_bytes i' <= max /\
    (forall d e, dropped = d ++ [e] -> max < lru_bytes (e :: kept)) /\
    (total_bytes i <= max -> dropped = []).
Proof.
  intros (L & T & <-) Hmax.
  destruct (evict_implements max i L (S (size (order i))) Hmax T) as (i' & vs & He & Hv & Hi).
  { rewrite (tracks_size_order T). lia. }
  destruct (lru_evict_spec max (map snd L) Hmax) as (dr & Hl & Hd & Hb & Hm).
  exists i', dr, (lru_evict max (map snd L)).1. rewrite Hv in Hd. cbn in Hd. subst vs.
  split; [done|split; [done|split; [done|split; [|split; [done|]]]]].
  - destruct Hi as (L' & T' & Heq). rewrite (t_total _ _ T'), Heq. done.
  - rewrite (t_total _ _ T). intros Hle. destruct dr as [|e d _] using rev_ind; [done|].
    specialize (Hm d e eq_refl). rewrite Hl, <- app_assoc, lru_bytes_app in Hle. cbn [app] in Hle.
    assert (0 <= lru_bytes d); [|lia]. apply lru_bytes_nonneg.
    pose proof (tracks_nonneg T) as Hnn. rewrite Hl, <- app_assoc in Hnn. by apply Forall_app in Hnn as [? _].
Qed.

Lemma eviction_is_minimal_lru_witness :
  exists i' dropped kept, collect_evictions 6 demo_index = Some (i', map fst dropped) /\
    implements i' kept /\ [(demo_key "b", 5); (demo_key "a", 4)] = dropped ++ kept /\
    total_bytes i' <= 6.
Proof.
  destruct (eviction_is_minimal_lru _ _ 6 demo_index_implements) as (i' & d & k & H1 & H2 & H3 & H4 & _);
    [lia|]. exists i', d, k. exact (conj H1 (conj H2 (conj H3 H4))).
Defined.
