(* ===== verification/MediaCache.v ===== *)
(** * The media cache

    Models [crates/axon-media/src/cache.rs] around its index: the single-flight
    groups, the request path, cache keys, and the promotion of a download
    against account purges and the boot rebuild. *)

From stdpp Require Import base gmap sets list strings sorting.
From Stdlib Require Import ZArith Lia.
From S2P Require Import Prelude Text Effects MediaIndex.

(** ** Single flight

    [flight] maps a key to its slot; a guard is a caller's [FlightGuard], with
    whether it still owns its reference; [holder] is the caller that locked a
    slot.  Slots stand for the [Arc]s. *)
Record FlightGuard := { g_key : Key; g_slot : nat; g_taken : bool }.

Record Flights := {
  flight : gmap (Z * list Z) nat;
  guards : gmap nat FlightGuard;
  holder : gmap nat nat;
  next_slot : nat;
  next_guard : nat;
}.

Definition no_flights : Flights :=
  {| flight := ∅; guards := ∅; holder := ∅; next_slot := 0; next_guard := 0 |}.

(** [Arc::strong_count]: the map's reference and the guards' that own one. *)
Definition strong_count (s : nat) (f : Flights) : nat :=
  S (size (filter (fun ig => g_slot ig.2 = s /\ g_taken ig.2 = false) (guards f))).

(** [FlightGuard::join] with [flight_slot]. *)
Definition join (key : Key) (f : Flights) : Flights :=
  let '(s, flight', next) :=
    match flight f !! key with
    | Some s => (s, flight f, next_slot f)
    | None => (next_slot f, <[key := next_slot f]> (flight f), S (next_slot f))
    end in
  {| flight := flight';
     guards := <[next_guard f := {| g_key := key; g_slot := s; g_taken := false |}]> (guards f);
     holder := holder f; next_slot := next; next_guard := S (next_guard f) |}.

(** [slot().lock().await] completing. *)
Definition lock_slot (g : nat) (f : Flights) : option Flights :=
  gd ← guards f !! g;
  if g_taken gd then None else
  match holder f !! g_slot gd with
  | Some _ => None
  | None => Some {| flight := flight f; guards := guards f;
                    holder := <[g_slot gd := g]> (holder f);
                    next_slot := next_slot f; next_guard := next_guard f |}
  end.

(** The slot's [MutexGuard] dropping. *)
Definition unlock_slot (g : nat) (f : Flights) : option Flights :=
  gd ← guards f !! g;
  if bool_decide (holder f !! g_slot gd = Some g)
  then Some {| flight := flight f; guards := guards f; holder := delete (g_slot gd) (holder f);
               next_slot := next_slot f; next_guard := next_guard f |}
  else None.

(** [FlightGuard::drop], first half: the reference is given up; the slot's
    [MutexGuard] dropped before. *)
Definition take_slot (g : nat) (f : Flights) : option Flights :=
  gd ← guards f !! g;
  if g_taken gd || bool_decide (holder f !! g_slot gd = Some g) then None else
  Some {| flight := flight f;
          guards := <[g := {| g_key := g_key gd; g_slot := g_slot gd; g_taken := true |}]> (guards f);
          holder := holder f; next_slot := next_slot f; next_guard := next_guard f |}.

(** [FlightGuard::drop], second half: [release_flight]. *)
Definition release_flight (g : nat) (f : Flights) : option Flights :=
  gd ← guards f !! g;
  if negb (g_taken gd) then None else
  Some {| flight := match flight f !! g_key gd with
                    | Some s => if bool_decide (strong_count s f = 1)%nat
                                then delete (g_key gd) (flight f) else flight f
                    | None => flight f
                    end;
          guards := delete g (guards f);
          holder := holder f; next_slot := next_slot f; next_guard := next_guard f |}.

Inductive flight_reach : Flights -> Prop :=
| flight_init : flight_reach no_flights
| flight_join f key : flight_reach f -> flight_reach (join key f)
| flight_lock f f' g : flight_reach f -> lock_slot g f = Some f' -> flight_reach f'
| flight_unlock f f' g : flight_reach f -> unlock_slot g f = Some f' -> flight_reach f'
| flight_take f f' g : flight_reach f -> take_slot g f = Some f' -> flight_reach f'
| flight_release f f' g : flight_reach f -> release_flight g f = Some f' -> flight_reach f'.

Record flights_ok (f : Flights) : Prop := {
  fo_active g gd : guards f !! g = Some gd -> g_taken gd = false ->
    flight f !! g_key gd = Some (g_slot gd);
  fo_used k s : flight f !! k = Some s -> (s < next_slot f)%nat /\
    exists g gd, guards f !! g = Some gd /\ g_key gd = k;
  fo_inj k k' s : flight f !! k = Some s -> flight f !! k' = Some s -> k = k';
  fo_fresh g : is_Some (guards f !! g) -> (g < next_guard f)%nat;
  fo_slot g gd : guards f !! g = Some gd -> (g_slot gd < next_slot f)%nat;
  fo_held s g : holder f !! s = Some g ->
    exists gd, guards f !! g = Some gd /\ g_slot gd = s /\ g_taken gd = false;
}.

Lemma join_ok key f : flights_ok f -> flights_ok (join key f).
Proof.
  intros [Ha Hu Hi Hf Hs Hh]. unfold join.
  assert (guards f !! next_guard f = None) as Hn.
  { destruct (guards f !! next_guard f) eqn:E; [|done]. specialize (Hf (next_guard f) ltac:(eauto)). lia. }
  destruct (flight f !! key) as [s|] eqn:Ek; split; cbn.
  - intros g gd [[<- <-]|[_ H]]%lookup_insert_Some Ht; [done|by eapply Ha].
  - intros k s' H. destruct (Hu k s' H) as (? & g & gd & Hg & Hk). split; [done|].
    exists g, gd. split; [|exact Hk]. apply lookup_insert_Some. right. split; [|done].
    intros <-. congruence.
  - done.
  - intros g [<-|H%Hf]%lookup_insert_is_Some'; lia.
  - intros g gd [[<- <-]|[_ H]]%lookup_insert_Some; [by apply (Hu key)|by eapply Hs].
  - intros s' g H. destruct (Hh s' g H) as (gd & Hg & ?). exists gd. split; [|done].
    apply lookup_insert_Some. right. split; [|done]. intros <-. congruence.
  - intros g gd [[<- <-]|[_ H]]%lookup_insert_Some Ht; cbn; [apply lookup_insert_eq|].
    specialize (Ha g gd H Ht). rewrite lookup_insert_ne; [done|]. intros He. congruence.
  - intros k s' [[<- <-]|[_ H]]%lookup_insert_Some.
    + split; [lia|]. eexists (next_guard f), _. split; [apply lookup_insert_eq|done].
    + destruct (Hu k s' H) as (? & g & gd & Hg & Hk). split; [lia|].
      exists g, gd. split; [|exact Hk]. apply lookup_insert_Some. right. split; [|done].
      intros <-. congruence.
  - intros k k' s' [[<- <-]|[_ H]]%lookup_insert_Some [[<- H']|[_ H']]%lookup_insert_Some;
      [done| | |by eapply Hi].
    + destruct (Hu _ _ H'). lia.
    + subst. destruct (Hu _ _ H). lia.
  - intros g [<-|H%Hf]%lookup_insert_is_Some'; lia.
  - intros g gd [[<- <-]|[_ H%Hs]]%lookup_insert_Some; cbn; lia.
  - intros s' g H. destruct (Hh s' g H) as (gd & Hg & ?). exists gd. split; [|done].
    apply lookup_insert_Some. right. split; [|done]. intros <-. congruence.
Qed.

Lemma strong_count_one s f :
  strong_count s f = 1%nat <->
  forall g gd, guards f !! g = Some gd -> g_slot gd = s -> g_taken gd = true.
Proof.
  unfold strong_count. split.
  - intros [= H%map_size_empty_inv] g gd Hg Hs. destruct (g_taken gd) eqn:Et; [done|].
    exfalso. assert (filter (fun ig : nat * FlightGuard => g_slot ig.2 = s /\ g_taken ig.2 = false)
      (guards f) !! g = Some gd) as Hin by (apply map_lookup_filter_Some; auto).
    by rewrite H, lookup_empty in Hin.
  - intros H. f_equal. apply map_size_empty_iff, map_empty. intros g.
    apply map_lookup_filter_None. right. intros gd Hg [Hs Ht]. cbn in Hs, Ht.
    rewrite (H g gd Hg Hs) in Ht. done.
Qed.

Lemma lock_ok g f f' : flights_ok f -> lock_slot g f = Some f' -> flights_ok f'.
Proof.
  intros [Ha Hu Hi Hf Hs Hh] (gd & Hg & H)%bind_Some.
  destruct (g_taken gd) eqn:Et; [done|]. destruct (holder f !! g_slot gd) eqn:Eh; simplify_eq.
  split; cbn; try done. intros s g' [[<- <-]|[_ H']]%lookup_insert_Some; [eauto|by apply Hh].
Qed.

Lemma unlock_ok g f f' : flights_ok f -> unlock_slot g f = Some f' -> flights_ok f'.
Proof.
  intros [Ha Hu Hi Hf Hs Hh] (gd & Hg & H)%bind_Some. case_bool_decide; simplify_eq.
  split; cbn; try done. intros s g' [_ H']%lookup_delete_Some. by apply Hh.
Qed.

Lemma flight_take_ok g f f' : flights_ok f -> take_slot g f = Some f' -> flights_ok f'.
Proof.
  intros [Ha Hu Hi Hf Hs Hh] (gd & Hg & H)%bind_Some.
  destruct (g_taken gd) eqn:Et; [done|]. case_bool_decide as Hn; [done|]. simplify_eq/=.
  split; cbn; try done.
  - intros g' gd' [[<- <-]|[_ H']]%lookup_insert_Some Ht; [done|by eapply Ha].
  - intros k s Hk. destruct (Hu k s Hk) as (? & g' & gd' & Hg' & Hkk). split; [done|].
    destruct (decide (g = g')) as [<-|Hne].
    + simplify_eq. eexists g, _. split; [apply lookup_insert_eq|done].
    + exists g', gd'. by rewrite lookup_insert_ne.
  - intros g' [<-|H']%lookup_insert_is_Some'; [apply Hf; eauto|auto].
  - intros g' gd' [[<- <-]|[_ H']]%lookup_insert_Some; cbn; by eapply Hs.
  - intros s g' H'. destruct (Hh s g' H') as (gd' & Hg' & Hsl & Htk).
    destruct (decide (g = g')) as [<-|Hne]; [simplify_eq|].
    exists gd'. by rewrite lookup_insert_ne.
Qed.

Lemma flight_release_ok g f f' : flights_ok f -> release_flight g f = Some f' -> flights_ok f'.
Proof.
  intros [Ha Hu Hi Hf Hs Hh] (gd & Hg & H)%bind_Some.
  destruct (g_taken gd) eqn:Et; [|done]. simplify_eq/=. 
  set (fl := match flight f !! g_key gd with
             | Some s => if bool_decide (strong_count s f = 1)%nat
                         then delete (g_key gd) (flight f) else flight f
             | None => flight f end).
  assert (forall k s, fl !! k = Some s -> flight f !! k = Some s) as Hsub.
  { unfold fl. intros k s. destruct (flight f !! g_key gd); [|done]. case_bool_decide; [|done].
    by intros [_ ?]%lookup_delete_Some. }
  split; cbn; fold fl.
  - intros g' gd' [_ Hg']%lookup_delete_Some Ht. pose proof (Ha g' gd' Hg' Ht) as Hfl.
    unfold fl. destruct (flight f !! g_key gd) as [s|] eqn:Ek; [|done].
    case_bool_decide as Hc; [|done]. rewrite lookup_delete_ne; [done|]. intros He.
    rewrite strong_count_one in Hc. rewrite (Hc g' gd' Hg') in Ht; [done|]. congruence.
  - intros k s Hk. pose proof (Hsub k s Hk) as Hk'. destruct (Hu k s Hk') as (? & g' & gd' & Hg' & Hkk).
    split; [done|]. destruct (decide (g = g')) as [<-|Hne].
    + simplify_eq. unfold fl in Hk. rewrite Hk' in Hk. case_bool_decide as Hc.
      { apply lookup_delete_Some in Hk as [? _]. done. }
      destruct (decide (map_Forall (fun _ gd => g_slot gd = s -> g_taken gd = true) (guards f)))
        as [Hall|Hex].
      * exfalso. apply Hc, strong_count_one. intros g' gd' Hg2. by apply (Hall g').
      * apply map_not_Forall in Hex as (g' & gd' & Hg2 & Hn); [|apply _].
        assert (g_slot gd' = s /\ g_taken gd' = false) as [E1 E2].
        { destruct (g_taken gd') eqn:E2; [exfalso; apply Hn; auto|].
          destruct (decide (g_slot gd' = s)); [auto|exfalso; apply Hn; done]. }
        exists g', gd'. split.
        -- rewrite lookup_delete_ne; [done|]. intros <-. congruence.
        -- apply (Hi _ _ s); [|done]. rewrite <- E1. by eapply Ha.
    + exists g', gd'. by rewrite lookup_delete_ne.
  - intros k k' s H1%Hsub H2%Hsub. by eapply Hi.
  - intros g' [? [_ H']%lookup_delete_Some]. apply Hf. eauto.
  - intros g' gd' [_ H']%lookup_delete_Some. by eapply Hs.
  - intros s g' H'. destruct (Hh s g' H') as (gd' & Hg' & Hsl & Htk).
    exists gd'. rewrite lookup_delete_ne; [done|]. intros <-. congruence.
Qed.

Lemma flight_reach_ok f : flight_reach f -> flights_ok f.
Proof.
  induction 1; [split; cbn; try (intros *; rewrite lookup_empty); try done; try (by intros [? ?])
               |by apply join_ok|by eapply lock_ok|by eapply unlock_ok|by eapply flight_take_ok
               |by eapply flight_release_ok].
Qed.

(** Single flight: however callers arrive, finish or are cancelled, two
    callers that hold their slot's lock for the same key are the same caller, so
    at most one download per key runs; and a key none of whose callers is left
    has no map entry, so nothing leaks. *)
Theorem single_flight f :
  flight_reach f ->
  (forall g g' gd gd', guards f !! g = Some gd -> guards f !! g' = Some gd' ->
     holder f !! g_slot gd = Some g -> holder f !! g_slot gd' = Some g' ->
     g_key gd = g_key gd' -> g = g') /\
  (forall k, (forall g gd, guards f !! g = Some gd -> g_key gd <> k) -> flight f !! k = None) /\
  (forall g g' gd gd', guards f !! g = Some gd -> guards f !! g' = Some gd' ->
     g_taken gd = false -> g_taken gd' = false -> g_key gd = g_key gd' -> g_slot gd = g_slot gd').
Proof.
  intros [Ha Hu Hi Hf Hs Hh]%flight_reach_ok.
  assert (forall g g' gd gd', guards f !! g = Some gd -> guards f !! g' = Some gd' ->
     g_taken gd = false -> g_taken gd' = false -> g_key gd = g_key gd' -> g_slot gd = g_slot gd')
    as Hslot.
  { intros g g' gd gd' H1 H2 T1 T2 Hk. pose proof (Ha _ _ H1 T1). pose proof (Ha _ _ H2 T2).
    congruence. }
  split; [|split; [|done]].
  - intros g g' gd gd' H1 H2 L1 L2 Hk.
    destruct (Hh _ _ L1) as (x & Hx & _ & T1), (Hh _ _ L2) as (y & Hy & _ & T2).
    simplify_eq. rewrite (Hslot _ _ _ _ H1 H2 T1 T2 Hk) in L1. congruence.
  - intros k Hno. destruct (flight f !! k) as [s|] eqn:E; [|done].
    destruct (Hu k s E) as (_ & g & gd & Hg & Hk). by destruct (Hno g gd Hg).
Qed.

(** Two callers of one key: the second waits, the first is cancelled. *)
Definition demo_flights : option Flights :=
  let f := join (demo_key "a") (join (demo_key "a") no_flights) in
  f ← lock_slot 0 f; f ← unlock_slot 0 f; f ← take_slot 0 f; f ← release_flight 0 f; lock_slot 1 f.

Lemma demo_flights_reach f : demo_flights = Some f -> flight_reach f.
Proof.
  unfold demo_flights. cbv zeta.
  intros (f1 & H1 & (f2 & H2 & (f3 & H3 & (f4 & H4 & H5)%bind_Some)%bind_Some)%bind_Some)%bind_Some.
  eapply flight_lock; [|exact H5]. eapply flight_release; [|exact H4].
  eapply flight_take; [|exact H3]. eapply flight_unlock; [|exact H2].
  eapply flight_lock; [|exact H1]. do 2 apply flight_join. constructor.
Qed.

Lemma single_flight_witness :
  match demo_flights with
  | Some f => flight f !! demo_key "a" = Some 0%nat /\ holder f !! 0%nat = Some 1%nat /\
              flight f !! demo_key "b" = None
  | None => False
  end.
Proof.
  pose proof demo_flights_reach as Hr. destruct demo_flights as [f|] eqn:E; [|vm_compute in E; discriminate].
  specialize (Hr f eq_refl). split; [|split].
  - vm_compute in E. injection E as <-. reflexivity.
  - vm_compute in E. injection E as <-. reflexivity.
  - apply (single_flight f Hr).
    assert (bool_decide (map_Forall (fun _ gd => g_key gd <> demo_key "b") (guards f)) = true) as Hb
      by (vm_compute in E; injection E as <-; vm_compute; reflexivity).
    exact (proj1 (bool_decide_eq_true _) Hb).
Defined.

(** ** Cache keys *)

Inductive ThumbnailMethod := Crop | Scale.
Record ThumbnailSpec := { width : Z; height : Z; method : ThumbnailMethod }.

Definition method_str (m : ThumbnailMethod) : text :=
  match m with Crop => t! "crop" | Scale => t! "scale" end.

(** The string [etag_for_thumbnail] hashes. *)
Definition thumb_preimage (mxc_url : text) (spec : ThumbnailSpec) : text :=
  t! "thumb:" ++ mxc_url ++ t! ":" ++ dec (width spec) ++ t! "x" ++ dec (height spec) ++ t! ":"
  ++ method_str (method spec).

Definition hex_lower (n : Z) : Z := if n <? 10 then 48 + n else 87 + n.
Definition hash_hex (sha256 : list Z -> list Z) (input : text) : text :=
  sha256 (utf8_encode input) ≫= (fun b => [hex_lower (b / 16); hex_lower (b mod 16)]).
Definition etag_for (sha256 : list Z -> list Z) (mxc_url : text) : text := hash_hex sha256 mxc_url.
Definition etag_for_thumbnail (sha256 : list Z -> list Z) (mxc_url : text) (spec : ThumbnailSpec)
    : text := hash_hex sha256 (thumb_preimage mxc_url spec).

Lemma elem_of_rev (x : Z) (l : text) : x ∈ rev l <-> x ∈ l.
Proof. rewrite !list_elem_of_In. symmetry. apply in_rev. Qed.

Lemma last_sep (c : Z) (a a' b b' : text) :
  a ++ c :: b = a' ++ c :: b' -> c ∉ b -> c ∉ b' -> a = a' /\ b = b'.
Proof.
  intros H Hb Hb'. apply (f_equal (@rev Z)) in H. rewrite !rev_app_distr in H. cbn in H.
  rewrite <- !app_assoc in H. cbn in H.
  assert (split_once c (rev b ++ c :: rev a) = Some (rev b, rev a)) as E1.
  { apply split_once_spec. split; [done|]. by rewrite elem_of_rev. }
  assert (split_once c (rev b' ++ c :: rev a') = Some (rev b', rev a')) as E2.
  { apply split_once_spec. split; [done|]. by rewrite elem_of_rev. }
  rewrite H in E1. rewrite E1 in E2. injection E2 as E3 E4.
  apply (f_equal (@rev Z)) in E3, E4. by rewrite !rev_involutive in E3, E4.
Qed.

Lemma dec_digits n : 0 <= n -> Forall (fun c => 48 <= c <= 57) (dec n).
Proof.
  intros Hn. unfold dec. rewrite (proj2 (Z.ltb_ge _ _)) by done. by apply dec_unsigned_chars.
Qed.

Lemma dec_inj n m : 0 <= n -> 0 <= m -> dec n = dec m -> n = m.
Proof.
  intros Hn Hm. unfold dec. rewrite !(proj2 (Z.ltb_ge _ _)) by done. intros H.
  apply dec_unsigned_parse in Hn, Hm. rewrite H in Hn. congruence.
Qed.

Lemma not_in_digits c t : Forall (fun c => 48 <= c <= 57) t -> (c < 48 \/ 57 < c) -> c ∉ t.
Proof. rewrite Forall_forall. intros H Hc Hin%H. lia. Qed.

(** Cache keys are distinct: the strings hashed for two thumbnails are equal
    only for the same media URI, dimensions and method, and the one of a
    thumbnail is never a media URI, which starts with [mxc:]. *)
Theorem cache_keys_distinct u u' s s' :
  0 <= width s -> 0 <= height s -> 0 <= width s' -> 0 <= height s' ->
  (thumb_preimage u s = thumb_preimage u' s' -> u = u' /\ s = s') /\
  (forall rest, thumb_preimage u s <> t! "mxc:" ++ rest).
Proof.
  intros Hw Hh Hw' Hh'. split; [|intros rest H; unfold thumb_preimage in H; by vm_compute in H].
  unfold thumb_preimage. intros H%app_inv_head.
  assert (forall m, 58 ∉ method_str m) as Hm by (intros []; by apply (bool_decide_unpack _)).
  assert (forall n, 0 <= n -> (58 ∉ dec n) /\ (120 ∉ dec n)) as Hd.
  { intros n Hn. split; (apply not_in_digits; [by apply dec_digits|lia]). }
  change (t! ":") with [58] in H. change (t! "x") with [120] in H.
  rewrite !(app_assoc [58]), <- !app_assoc in H. cbn [app] in H.
  assert (forall (u : text) w h m, u ++ 58 :: dec w ++ 120 :: dec h ++ 58 :: method_str m
     = (u ++ 58 :: dec w ++ 120 :: dec h) ++ 58 :: method_str m) as Hr1.
  { intros. by rewrite <- !app_assoc, <- !app_comm_cons, <- !app_assoc. }
  rewrite !Hr1 in H. apply last_sep in H as [H E1]; [|apply Hm|apply Hm].
  rewrite !app_comm_cons, !app_assoc in H.
  apply last_sep in H as [H E2]; [|by apply Hd|by apply Hd].
  apply last_sep in H as [-> E3]; [|by apply Hd|by apply Hd].
  split; [done|]. destruct s as [w h m], s' as [w' h' m']; cbn in *.
  rewrite (dec_inj _ _ Hw Hw' E3), (dec_inj _ _ Hh Hh' E2). f_equal.
  by destruct m, m'; vm_compute in E1.
Qed.

Lemma cache_keys_distinct_witness :
  thumb_preimage (t! "mxc://a/b") {| width := 64; height := 32; method := Crop |}
  <> t! "mxc:" ++ t! "//a/b".
Proof.
  apply (cache_keys_distinct (t! "mxc://a/b") (t! "mxc://a/b")
    {| width := 64; height := 32; method := Crop |} {| width := 64; height := 32; method := Crop |});
    discriminate.
Defined.

(** ** The request path

    [get_or_fetch_keyed] as a program; the file a request serves is an opaque
    [handle]. *)
Section Request.
Context {handle : Type} {fetch_error : Type}.

Inductive CacheError := Fetch (e : fetch_error) | TooLarge (len cap : Z) | Io.

Inductive RQuestion :=
| RTryHit | RJoin | RLockSlot | RPermit | RFetch
| RStore (len : Z).

(** [RFetch] answers the download's length or an error; [RStore] is
    [store_and_open], which fails only when no disk is writable. *)
Definition ranswer (q : RQuestion) : Type :=
  match q with
  | RTryHit => option handle
  | RJoin | RLockSlot | RPermit => unit
  | RFetch => (Z + fetch_error)%type
  | RStore _ => option handle
  end.

Definition fetch_capped (max_object_bytes : Z) : prog ranswer (Z + CacheError) :=
  bind (ask RPermit) (fun _ =>
  bind (ask RFetch) (fun r : ranswer RFetch =>
  match r with
  | inr e => Ret (inr (Fetch e))
  | inl len => Ret (if max_object_bytes <? len then inr (TooLarge len max_object_bytes) else inl len)
  end)).

Definition fetch_and_store (max_object_bytes : Z) : prog ranswer (handle + CacheError) :=
  bind (fetch_capped max_object_bytes) (fun r =>
  match r with
  | inr e => Ret (inr e)
  | inl len =>
      bind (ask (RStore len)) (fun h : ranswer (RStore len) =>
      Ret (match h with Some h => inl h | None => inr Io end))
  end).

Definition get_or_fetch_keyed (enabled : bool) (max_object_bytes : Z)
    : prog ranswer (handle + CacheError) :=
  if negb enabled then fetch_and_store max_object_bytes else
  bind (ask RTryHit) (fun hit : ranswer RTryHit =>
  match hit with
  | Some h => Ret (inl h)
  | None =>
      bind (ask RJoin) (fun _ => bind (ask RLockSlot) (fun _ =>
      bind (ask RTryHit) (fun hit : ranswer RTryHit =>
      match hit with
      | Some h => Ret (inl h)
      | None => fetch_and_store max_object_bytes
      end)))
  end).

(** What a request may do when: a lookup only with the cache enabled; one
    download, under the slot (or uncached), after a miss under it; one store, of
    that download and only within the per-object cap. *)
Definition request_allowed (enabled : bool) (cap : Z) (q : RQuestion) (h : list (event ranswer)) : Prop :=
  match q with
  | RTryHit => enabled = true
  | RFetch =>
      (forall x, ev RFetch x ∉ h) /\
      (enabled = true -> exists h1 h2, (h = h1 ++ ev RLockSlot tt :: h2) /\ (ev RTryHit None ∈ h2))
  | RStore len => len <= cap /\ (forall n x, ev (RStore n) x ∉ h) /\ ev RFetch (inl len) ∈ h
  | _ => True
  end.

Definition untouched (h : list (event ranswer)) : Prop :=
  (forall x, ev RFetch x ∉ h) /\ (forall n x, ev (RStore n) x ∉ h).

Lemma untouched_snoc h e :
  untouched h -> match projT1 e with RFetch | RStore _ => False | _ => True end -> untouched (h ++ [e]).
Proof.
  intros [H1 H2] He. split; intros *; rewrite elem_of_app, list_elem_of_singleton; intros [?|E];
    [by eapply H1| |by eapply H2|]; by rewrite <- E in He.
Qed.

Lemma fetch_and_store_wp enabled cap h post :
  untouched h ->
  (enabled = true -> exists h1 h2, (h = h1 ++ ev RLockSlot tt :: h2) /\ (ev RTryHit None ∈ h2)) ->
  (forall r h', post r h') ->
  wp (request_allowed enabled cap) (fetch_and_store cap) h post.
Proof.
  intros Hu He Hpost. unfold fetch_and_store, fetch_capped. cbn [bind ask wp].
  split; [done|]. intros x. assert (untouched (h ++ [ev RPermit x])) as Hu1 by by apply untouched_snoc.
  split.
  { split; [apply Hu1|]. intros E. destruct (He E) as (h1 & h2 & -> & Hin).
    exists h1, (h2 ++ [ev RPermit x]). rewrite <- app_assoc. split; [done|]. apply elem_of_app. by left. }
  intros [len|e]; cbn [bind wp]; [|apply Hpost].
  destruct (cap <? len) eqn:Ec; cbn [bind wp]; [apply Hpost|]. b2p.
  split; [|intros r; apply Hpost]. split; [done|split].
  - intros n y. rewrite elem_of_app, list_elem_of_singleton. intros [H|H]; [by apply Hu1 in H|].
    apply (f_equal (@projT1 _ _)) in H. done.
  - apply elem_of_app. right. by left.
Qed.

(** A request downloads at most once, with the cache enabled only while it
    holds its single-flight slot and after a second miss under it, stores at
    most once, only what it downloaded and only within the per-object cap; a
    disabled cache is never read. *)
Theorem request_path_is_safe enabled cap t t1 q x t2 :
  cut_run (get_or_fetch_keyed enabled cap) t -> t = t1 ++ ev q x :: t2 ->
  request_allowed enabled cap q t1.
Proof.
  intros Hrun Ht.
  assert (wp (request_allowed enabled cap) (get_or_fetch_keyed enabled cap) [] (fun _ _ => True)) as Hwp.
  { assert (untouched []) as H0 by (split; intros *; apply not_elem_of_nil).
    unfold get_or_fetch_keyed. destruct enabled; cbn [negb];
      [|by apply fetch_and_store_wp; [done|discriminate|]].
    cbn [bind ask wp]. split; [done|]. intros [hd|]; [done|]. cbn [bind ask wp].
    split; [done|]. intros []. split; [done|]. intros []. split; [done|]. intros [hd|]; [done|].
    apply fetch_and_store_wp; [by repeat apply untouched_snoc| |done].
    intros _. eexists [_; _], [_]. split; [done|]. by left. }
  by apply (wp_cut_run _ _ _ _ _ _ _ _ _ Hwp Hrun Ht).
Qed.
End Request.

Lemma request_path_is_safe_witness :
  request_allowed (handle := unit) (fetch_error := unit) true 10 (RStore 4)
    [ev RTryHit None; ev RJoin tt; ev RLockSlot tt; ev RTryHit None; ev RPermit tt; ev RFetch (inl 4)].
Proof.
  eapply (request_path_is_safe true 10 [_; _; _; _; _; _; ev (RStore 4) (Some tt)] _ _ _ []);
    [|reflexivity].
  eapply cut_runs. eexists _, _; split; [reflexivity|]. eexists _, _; split; [reflexivity|].
  eexists _, _; split; [reflexivity|]. eexists _, _; split; [reflexivity|].
  eexists _, _; split; [reflexivity|]. eexists _, _; split; [reflexivity|].
  eexists _, _; split; [reflexivity|]. split; reflexivity.
Defined.

(** ** Promotion, purge and rebuild *)

Record FileMeta := { f_len : Z; f_mtime : option Z }.

(** The phases of [store_and_open] from the account lock on, named by what the
    task does next. *)
Inductive StorePhase :=
| SLock | SCheck | SMkdir | SRename | SRecord | SEvict (victims : list Key).
Inductive PurgePhase := PLock | PTombstone | PIndex | PRmdir.
Inductive RebuildPhase := RScan (found : list (Key * FileMeta)) | REvict (victims : list Key).

Inductive CTask :=
| TStore (account : uuid) (hash : text) (meta : FileMeta) (ph : StorePhase)
| TPurge (account : uuid) (ph : PurgePhase)
| TRebuild (ph : RebuildPhase).

(** A filesystem call still running after its future was dropped. *)
Inductive BgOp :=
| BgMkdir (account : uuid) | BgRename (key : Key) (meta : FileMeta) | BgUnlink (key : Key)
| BgRmdir (account : uuid).

Record Cache := {
  files : gmap (Z * list Z) FileMeta;
  dirs : gset Z;
  index : Index;
  purged : gset Z;
  account_lock : gmap Z nat;
  ctasks : gmap nat CTask;
  next_task : nat;
  background : list BgOp;
  (** Bookkeeping of the model: accounts with a promotion cancelled in the
      middle of a filesystem call, and accounts whose purge failed. *)
  strayed : gset Z;
  purge_failed : gset Z;
}.

Definition locked_account (t : CTask) : option Z :=
  match t with
  | TStore a _ _ SLock | TPurge a PLock => None
  | TStore a _ _ _ | TPurge a _ => Some a
  | TRebuild _ => None
  end.

Definition mk (c : Cache) f d i p l t : Cache :=
  {| files := f; dirs := d; index := i; purged := p; account_lock := l; ctasks := t;
     next_task := next_task c; background := background c; strayed := strayed c;
     purge_failed := purge_failed c |}.

Definition set_task (tid : nat) (t : CTask) (c : Cache) : Cache :=
  mk c (files c) (dirs c) (index c) (purged c) (account_lock c) (<[tid := t]> (ctasks c)).
Definition set_files f (c : Cache) : Cache :=
  mk c f (dirs c) (index c) (purged c) (account_lock c) (ctasks c).
Definition set_index i (c : Cache) : Cache :=
  mk c (files c) (dirs c) i (purged c) (account_lock c) (ctasks c).

Definition set_background b (c : Cache) : Cache :=
  {| files := files c; dirs := dirs c; index := index c; purged := purged c;
     account_lock := account_lock c; ctasks := ctasks c; next_task := next_task c;
     background := b; strayed := strayed c; purge_failed := purge_failed c |}.

(** The removal of an account's directory, and its failure. *)
Definition remove_dir (a : Z) (c : Cache) : Cache :=
  mk c (filter (fun km => km.1.1 <> a) (files c)) (dirs c ∖ {[a]}) (index c)
     (purged c) (account_lock c) (ctasks c).
Definition fail_purge (a : Z) (c : Cache) : Cache :=
  {| files := files c; dirs := dirs c; index := index c; purged := purged c;
     account_lock := account_lock c; ctasks := ctasks c; next_task := next_task c;
     background := background c; strayed := strayed c; purge_failed := {[a]} ∪ purge_failed c |}.

(** The task is over; its account guard drops. *)
Definition end_task (tid : nat) (c : Cache) : Cache :=
  mk c (files c) (dirs c) (index c) (purged c)
     (match ctasks c !! tid ≫= locked_account with
      | Some a => delete a (account_lock c) | None => account_lock c end)
     (delete tid (ctasks c)).

(** Acquiring the account lock, then going on as [t]. *)
Definition take_lock (tid : nat) (a : Z) (t : CTask) (c : Cache) : option Cache :=
  match account_lock c !! a with
  | Some _ => None
  | None => Some (mk c (files c) (dirs c) (index c) (purged c) (<[a := tid]> (account_lock c))
                    (<[tid := t]> (ctasks c)))
  end.

Definition mtime_le (x y : Key * FileMeta) : Prop :=
  match f_mtime x.2, f_mtime y.2 with
  | None, _ => True
  | Some _, None => False
  | Some a, Some b => a <= b
  end.
#[export] Instance mtime_le_dec x y : Decision (mtime_le x y).
Proof. unfold mtime_le. destruct (f_mtime x.2), (f_mtime y.2); apply _. Defined.

(** [rebuild]'s merge: oldest first. *)
Definition merge_scan (found : list (Key * FileMeta)) (i : Index) : Index :=
  foldl (fun i e => record_if_absent e.1 (f_len e.2) i) i (merge_sort mtime_le found).

Section Machine.
Context (max_bytes : Z).

(** One step of task [tid]; [ok] is whether its filesystem call succeeds. *)
Definition advance (ok : bool) (tid : nat) (c : Cache) : option Cache :=
  t ← ctasks c !! tid;
  match t with
  | TStore a h m ph =>
      match ph with
      | SLock => take_lock tid a (TStore a h m SCheck) c
      | SCheck =>
          Some (if bool_decide (a ∈ purged c) then end_task tid c
                else set_task tid (TStore a h m SMkdir) c)
      | SMkdir =>
          Some (if ok then set_task tid (TStore a h m SRename)
                  (mk c (files c) ({[a]} ∪ dirs c) (index c) (purged c) (account_lock c) (ctasks c))
                else end_task tid c)
      | SRename =>
          Some (if ok && bool_decide (a ∈ dirs c)
                then set_task tid (TStore a h m SRecord) (set_files (<[(a, h) := m]> (files c)) c)
                else end_task tid c)
      | SRecord =>
          '(i, victims) ← collect_evictions max_bytes (record (a, h) (f_len m) (index c));
          Some (set_task tid (TStore a h m (SEvict victims)) (set_index i c))
      | SEvict [] => Some (end_task tid c)
      | SEvict (v :: vs) =>
          Some (set_task tid (TStore a h m (SEvict vs))
                  (if ok then set_files (delete v (files c)) c else c))
      end
  | TPurge a ph =>
      match ph with
      | PLock => take_lock tid a (TPurge a PTombstone) c
      | PTombstone =>
          Some (set_task tid (TPurge a PIndex)
            (mk c (files c) (dirs c) (index c) ({[a]} ∪ purged c) (account_lock c) (ctasks c)))
      | PIndex => Some (set_task tid (TPurge a PRmdir) (set_index (remove_account a (index c)) c))
      | PRmdir =>
          Some (end_task tid (if ok then remove_dir a c else fail_purge a c))
      end
  | TRebuild (RScan found) =>
      '(i, victims) ← collect_evictions max_bytes (merge_scan found (index c));
      Some (set_task tid (TRebuild (REvict victims)) (set_index i c))
  | TRebuild (REvict []) => Some (end_task tid c)
  | TRebuild (REvict (v :: vs)) =>
      Some (set_task tid (TRebuild (REvict vs))
              (if ok then set_files (delete v (files c)) c else c))
  end.

(** The filesystem call a task is waiting for, if any. *)
Definition pending_op (t : CTask) : option BgOp :=
  match t with
  | TStore a _ _ SMkdir => Some (BgMkdir a)
  | TStore a h m SRename => Some (BgRename (a, h) m)
  | TStore _ _ _ (SEvict (v :: _)) => Some (BgUnlink v)
  | TPurge a PRmdir => Some (BgRmdir a)
  | _ => None
  end.

(** A request's future dropped: its guard is released, its filesystem call runs
    on.  A purge awaits the account lock and the removal only. *)
Definition cancel (tid : nat) (c : Cache) : option Cache :=
  t ← ctasks c !! tid;
  let c' := end_task tid (set_background (background c ++ option_list (pending_op t)) c) in
  match t with
  | TStore a _ _ _ =>
      Some {| files := files c'; dirs := dirs c'; index := index c'; purged := purged c';
              account_lock := account_lock c'; ctasks := ctasks c'; next_task := next_task c';
              background := background c';
              strayed := if bool_decide (is_Some (pending_op t)) then {[a]} ∪ strayed c' else strayed c';
              purge_failed := purge_failed c' |}
  | TPurge _ (PLock | PRmdir) => Some c'
  | _ => None
  end.

Definition run_background (n : nat) (ok : bool) (c : Cache) : option Cache :=
  op ← background c !! n;
  let c := set_background (delete n (background c)) c in
  Some match op with
       | BgMkdir a =>
           if ok then mk c (files c) ({[a]} ∪ dirs c) (index c) (purged c) (account_lock c) (ctasks c)
           else c
       | BgRename k m =>
           if ok && bool_decide (k.1 ∈ dirs c) then set_files (<[k := m]> (files c)) c else c
       | BgUnlink k => if ok then set_files (delete k (files c)) c else c
       | BgRmdir a => if ok then remove_dir a c else fail_purge a c
       end.

Inductive CEvent :=
| CSpawn (t : CTask) | CFind (tid : nat) (k : Key) | CAdvance (tid : nat) (ok : bool)
| CCancel (tid : nat) | CBackground (n : nat) (ok : bool) | CTouch (k : Key).

Definition fresh_task (t : CTask) : bool :=
  match t with
  | TStore _ _ _ SLock | TPurge _ PLock | TRebuild (RScan []) => true
  | _ => false
  end.

Definition cache_step (e : CEvent) (c : Cache) : option Cache :=
  match e with
  | CSpawn t =>
      if fresh_task t then
        Some {| files := files c; dirs := dirs c; index := index c; purged := purged c;
                account_lock := account_lock c; ctasks := <[next_task c := t]> (ctasks c);
                next_task := S (next_task c); background := background c; strayed := strayed c;
                purge_failed := purge_failed c |}
      else None
  | CFind tid k =>
      match ctasks c !! tid, files c !! k with
      | Some (TRebuild (RScan found)), Some m =>
          Some (set_task tid (TRebuild (RScan (found ++ [(k, m)]))) c)
      | _, _ => None
      end
  | CAdvance tid ok => advance ok tid c
  | CCancel tid => cancel tid c
  | CBackground n ok => run_background n ok c
  | CTouch k => if bool_decide (is_Some (files c !! k)) then Some (set_index (touch k (index c)) c) else None
  end.

(** The cache right after [open]: whatever an earlier process left on disk. *)
Definition open_cache (fs : gmap (Z * list Z) FileMeta) (ds : gset Z) : Cache :=
  {| files := fs; dirs := ds; index := empty_index; purged := ∅; account_lock := ∅; ctasks := ∅;
     next_task := 0; background := []; strayed := ∅; purge_failed := ∅ |}.

Inductive cache_reach : Cache -> Prop :=
| cache_open fs ds :
    (forall k, is_Some (fs !! k) -> k.1 ∈ ds) -> cache_reach (open_cache fs ds)
| cache_next c c' e : cache_reach c -> cache_step e c = Some c' -> cache_reach c'.
End Machine.

(** ** The promotion's invariant *)

(** A store past its tombstone check, and a purge past its tombstone. *)
Definition promoting (t : CTask) (a : Z) : Prop :=
  match t with
  | TStore a' _ _ (SMkdir | SRename | SRecord | SEvict _) => a' = a
  | _ => False
  end.
Definition purging (t : CTask) (a : Z) : Prop :=
  match t with TPurge a' (PIndex | PRmdir) => a' = a | _ => False end.

Definition op_account (op : BgOp) : option Z :=
  match op with BgMkdir a => Some a | BgRename k _ => Some k.1 | _ => None end.

Record cache_ok (c : Cache) : Prop := {
  co_files k : is_Some (files c !! k) -> k.1 ∈ dirs c;
  co_lock tid t a : ctasks c !! tid = Some t -> locked_account t = Some a ->
    account_lock c !! a = Some tid;
  co_store tid t a : ctasks c !! tid = Some t -> promoting t a -> a ∉ purged c;
  co_fresh tid : is_Some (ctasks c !! tid) -> (tid < next_task c)%nat;
  co_bg op a : op ∈ background c -> op_account op = Some a -> a ∈ strayed c;
  co_gone a : a ∈ purged c -> a ∉ strayed c -> a ∉ purge_failed c ->
    (exists tid t, ctasks c !! tid = Some t /\ purging t a) \/
    (a ∉ dirs c \/ BgRmdir a ∈ background c);
}.

Lemma promoting_locked t a : promoting t a -> locked_account t = Some a.
Proof. destruct t as [a' ? ? []| |]; cbn; try done; by intros ->. Qed.
Lemma purging_locked t a : purging t a -> locked_account t = Some a.
Proof. destruct t as [|a' []|]; cbn; try done; by intros ->. Qed.

Lemma ok_set_files f c : cache_ok c -> (forall k, is_Some (f !! k) -> k.1 ∈ dirs c) ->
  cache_ok (set_files f c).
Proof. intros [] H. by split. Qed.

Lemma ok_set_index i c : cache_ok c -> cache_ok (set_index i c).
Proof. intros []. by split. Qed.

Lemma ok_insert_file k m c : cache_ok c -> k.1 ∈ dirs c -> cache_ok (set_files (<[k := m]> (files c)) c).
Proof.
  intros Hc Hk. apply ok_set_files; [done|]. intros k' [<-|H]%lookup_insert_is_Some'; [done|].
  by apply (co_files _ Hc).
Qed.

Lemma ok_delete_file k c : cache_ok c -> cache_ok (set_files (delete k (files c)) c).
Proof.
  intros Hc. apply ok_set_files; [done|]. intros k' [m [_ H]%lookup_delete_Some].
  apply (co_files _ Hc). eauto.
Qed.

Lemma ok_add_dir a c : cache_ok c -> a ∉ purged c \/ a ∈ strayed c ->
  cache_ok (mk c (files c) ({[a]} ∪ dirs c) (index c) (purged c) (account_lock c) (ctasks c)).
Proof.
  intros [Hf Hl Hs Hfr Hb Hg] Ha. split; cbn; try done.
  - intros k Hk. apply elem_of_union_r. by apply Hf.
  - intros b Hp Hst Hpf. destruct (Hg b Hp Hst Hpf) as [?|[Hd|?]]; [by left| |by right; right].
    right. left. rewrite elem_of_union, elem_of_singleton. intros [->|?]; [|done]. by destruct Ha.
Qed.

Lemma ok_set_task tid t t0 c :
  cache_ok c -> ctasks c !! tid = Some t0 -> locked_account t = locked_account t0 ->
  (forall a, promoting t a -> a ∉ purged c) ->
  (forall a, purging t0 a -> purging t a) -> cache_ok (set_task tid t c).
Proof.
  intros [Hf Hl Hs Hfr Hb Hg] Ht Hlk Hpr Hpu. split; cbn; try done.
  - intros tid' t' a [[<- <-]|[_ H]]%lookup_insert_Some Hlo; [|by eapply Hl].
    eapply Hl; [exact Ht|congruence].
  - intros tid' t' a [[<- <-]|[_ H]]%lookup_insert_Some Hp; [by apply Hpr|by eapply Hs].
  - intros tid' [<-|H]%lookup_insert_is_Some'; apply Hfr; eauto.
  - intros a Hp Hst Hpf. destruct (Hg a Hp Hst Hpf) as [(tid' & t' & H & Hpg)|?]; [left|by right].
    destruct (decide (tid = tid')) as [<-|Hne].
    + simplify_eq. exists tid, t. split; [apply lookup_insert_eq|auto].
    + exists tid', t'. by rewrite lookup_insert_ne.
Qed.

Lemma ok_end_task tid c :
  cache_ok c ->
  (forall t a, ctasks c !! tid = Some t -> purging t a ->
     a ∉ dirs c \/ BgRmdir a ∈ background c \/ a ∈ purge_failed c) ->
  cache_ok (end_task tid c).
Proof.
  intros [Hf Hl Hs Hfr Hb Hg] Hpu. split; cbn; try done.
  - intros tid' t' a [Hne H]%lookup_delete_Some Hlo. pose proof (Hl _ _ _ H Hlo) as Hlk.
    destruct (ctasks c !! tid) as [t|] eqn:Et; cbn; [|done].
    destruct (locked_account t) as [b|] eqn:Eb; [|done].
    rewrite lookup_delete_ne; [done|]. intros ->. pose proof (Hl _ _ _ Et Eb). congruence.
  - intros tid' t' a [_ H]%lookup_delete_Some. by eapply Hs.
  - intros tid' [t [_ H]%lookup_delete_Some]. apply Hfr. eauto.
  - intros a Hp Hst Hpf. destruct (Hg a Hp Hst Hpf) as [(tid' & t' & H & Hpg)|?]; [|by right].
    destruct (decide (tid = tid')) as [<-|Hne].
    + right. destruct (Hpu _ _ H Hpg) as [?|[?|?]]; [by left|by right|done].
    + left. exists tid', t'. by rewrite lookup_delete_ne.
Qed.

Lemma ok_take_lock tid a t t0 c c' :
  cache_ok c -> ctasks c !! tid = Some t0 -> locked_account t0 = None ->
  locked_account t = Some a -> (forall b, ~ promoting t b) ->
  take_lock tid a t c = Some c' -> cache_ok c'.
Proof.
  intros [Hf Hl Hs Hfr Hb Hg] Ht Hn Hlk Hpr H. unfold take_lock in H.
  destruct (account_lock c !! a) eqn:Ea; simplify_eq. split; cbn; try done.
  - intros tid' t' b [[<- <-]|[Hne H]]%lookup_insert_Some Hlo.
    + assert (a = b) as <- by congruence. apply lookup_insert_eq.
    + pose proof (Hl _ _ _ H Hlo) as Hb'. rewrite lookup_insert_ne; [done|]. intros ->. congruence.
  - intros tid' t' b [[<- <-]|[_ H]]%lookup_insert_Some Hp; [by apply Hpr in Hp|by eapply Hs].
  - intros tid' [<-|H]%lookup_insert_is_Some'; apply Hfr; eauto.
  - intros b Hp Hst Hpf. destruct (Hg b Hp Hst Hpf) as [(tid' & t' & H & Hpg)|?]; [left|by right].
    exists tid', t'. split; [|done]. rewrite lookup_insert_ne; [done|]. intros <-. simplify_eq.
    apply purging_locked in Hpg. congruence.
Qed.

Lemma ok_tombstone tid a c :
  cache_ok c -> ctasks c !! tid = Some (TPurge a PTombstone) ->
  cache_ok (set_task tid (TPurge a PIndex)
    (mk c (files c) (dirs c) (index c) ({[a]} ∪ purged c) (account_lock c) (ctasks c))).
Proof.
  intros [Hf Hl Hs Hfr Hb Hg] Ht. split; cbn; try done.
  - intros tid' t' b [[<- <-]|[_ H]]%lookup_insert_Some Hlo; [|by eapply Hl].
    cbn in Hlo. simplify_eq. by eapply Hl.
  - intros tid' t' b [[<- <-]|[Hne H]]%lookup_insert_Some Hp; [done|].
    rewrite elem_of_union, elem_of_singleton. intros [->|?]; [|by eapply Hs].
    pose proof (Hl _ _ _ H (promoting_locked _ _ Hp)). pose proof (Hl _ _ a Ht eq_refl). congruence.
  - intros tid' [<-|H]%lookup_insert_is_Some'; apply Hfr; eauto.
  - intros b Hp Hst Hpf. destruct (decide (a = b)) as [<-|Hne].
    + left. exists tid, (TPurge a PIndex). split; [apply lookup_insert_eq|done].
    + destruct (Hg b) as [(tid' & t' & H & Hpg)|?]; [set_solver|done|done| |by right]. left.
      exists tid', t'. split; [|done]. rewrite lookup_insert_ne; [done|]. intros <-. simplify_eq.
Qed.

Lemma ok_remove_dir a c : cache_ok c -> cache_ok (remove_dir a c).
Proof.
  intros [Hf Hl Hs Hfr Hb Hg]. split; cbn; try done.
  - intros k [m [Hk Hne]%map_lookup_filter_Some]. cbn in Hne.
    specialize (Hf k ltac:(eauto)). set_solver.
  - intros b Hp Hst Hpf.
    destruct (Hg b Hp Hst Hpf) as [?|[?|?]]; [by left|right; left; set_solver|by right; right].
Qed.

Lemma ok_fail_purge a c : cache_ok c -> cache_ok (fail_purge a c).
Proof.
  intros [Hf Hl Hs Hfr Hb Hg]. split; cbn; try done.
  intros b Hp Hst Hpf. apply Hg; [done|done|set_solver].
Qed.

(** A call that goes on in the background. *)
Lemma ok_add_background ops c :
  cache_ok c -> (forall op a, op ∈ ops -> op_account op = Some a -> a ∈ strayed c) ->
  cache_ok (set_background (background c ++ ops) c).
Proof.
  intros [Hf Hl Hs Hfr Hb Hg] Ho. split; cbn; try done.
  - intros op a [?|?]%elem_of_app; [by apply Hb|by apply Ho].
  - intros a Hp Hst Hpf. destruct (Hg a Hp Hst Hpf) as [?|[?|?]]; [by left|by right; left|].
    right. right. cbn. apply elem_of_app. by left.
Qed.

(** A background call that is over: a removal has removed, or failed. *)
Lemma ok_end_background n op c :
  cache_ok c -> background c !! n = Some op ->
  (forall a, op = BgRmdir a -> a ∉ dirs c \/ a ∈ purge_failed c) ->
  cache_ok (set_background (delete n (background c)) c).
Proof.
  intros [Hf Hl Hs Hfr Hb Hg] Hn Hop. split; cbn; try done.
  - intros op' a Hin. apply Hb. eapply elem_of_submseteq; [exact Hin|].
    apply sublist_submseteq, sublist_delete.
  - intros a Hp Hst Hpf. destruct (Hg a Hp Hst Hpf) as [?|[?|Hin]]; [by left|by right; left|].
    right. destruct (decide (a ∈ dirs c)) as [Hd|]; [right|by left]. cbn.
    assert (op <> BgRmdir a) as E by (intros E; by destruct (Hop a E)).
    apply list_elem_of_lookup in Hin as [j Hj].
    assert (j <> n) as Hjn by (intros ->; congruence). apply list_elem_of_lookup.
    destruct (decide (j < n)%nat).
    + exists j. by rewrite list_lookup_delete_lt.
    + exists (j - 1)%nat. rewrite list_lookup_delete_ge by lia.
      by replace (S (j - 1)) with j by lia.
Qed.

(** The task is not promoting, or not purging, by its phase. *)
Ltac by_phase := let H := fresh in intros ? H; cbn in H; contradiction.

Lemma advance_ok max ok tid c c' : cache_ok c -> advance max ok tid c = Some c' -> cache_ok c'.
Proof.
  intros Hc (t & Ht & H)%bind_Some.
  assert (forall u, ctasks c !! tid = Some u -> (forall a, ~ purging u a) -> cache_ok (end_task tid c))
    as Hend.
  { intros u Hu Hn. apply ok_end_task; [done|]. intros u' a Hu' Hp. simplify_eq. by apply Hn in Hp. }
  destruct t as [a h m ph|a ph|ph].
  - assert (cache_ok (end_task tid c)) as Hend' by (eapply Hend; [exact Ht|by_phase]).
    destruct ph as [| | | | |[|v vs]]; cbn in H.
    + eapply ok_take_lock; [exact Hc|exact Ht| | | |exact H]; [done|done|by_phase].
    + case_bool_decide as Hp; simplify_eq; [done|].
      eapply ok_set_task; [exact Hc|exact Ht|done| |by_phase]. intros b <-. done.
    + destruct ok; simplify_eq; [|done].
      eapply ok_set_task; [apply ok_add_dir; [exact Hc|]|exact Ht|done| |by_phase].
      * left. by eapply co_store.
      * intros b <-. cbn. by eapply co_store.
    + destruct (ok && _) eqn:E; simplify_eq; [|done].
      apply andb_prop in E as [_ E%bool_decide_eq_true].
      eapply ok_set_task; [by apply ok_insert_file|exact Ht|done| |by_phase].
      intros b <-. cbn. by eapply co_store.
    + apply bind_Some in H as ([i vs] & _ & H). simplify_eq.
      eapply ok_set_task; [by apply ok_set_index|exact Ht|done| |by_phase].
      intros b <-. cbn. by eapply co_store.
    + by simplify_eq.
    + simplify_eq. eapply ok_set_task; [|destruct ok; exact Ht|done| |by_phase].
      * destruct ok; [by apply ok_delete_file|done].
      * intros b <-. destruct ok; cbn; by eapply co_store.
  - destruct ph; cbn in H.
    + eapply ok_take_lock; [exact Hc|exact Ht| | | |exact H]; [done|done|by_phase].
    + simplify_eq. by apply ok_tombstone.
    + simplify_eq. eapply ok_set_task; [by apply ok_set_index|exact Ht|done|by_phase|done].
    + injection H as <-. apply ok_end_task.
      * destruct ok; [by apply ok_remove_dir|by apply ok_fail_purge].
      * destruct ok; cbn; intros u b Hu Hp; simplify_eq; cbn in Hp; subst; [left|right; right];
          set_solver.
  - destruct ph as [found|[|v vs]]; cbn in H.
    + apply bind_Some in H as ([i vs] & _ & H). simplify_eq.
      eapply ok_set_task; [by apply ok_set_index|exact Ht|done|by_phase|done].
    + simplify_eq. eapply Hend; [exact Ht|by_phase].
    + simplify_eq. eapply ok_set_task; [|destruct ok; exact Ht|done|by_phase|done].
      destruct ok; [by apply ok_delete_file|done].
Qed.

(** The dropped call of a promotion marks its account; then it goes on. *)
Lemma ok_stray a c : cache_ok c ->
  cache_ok {| files := files c; dirs := dirs c; index := index c; purged := purged c;
              account_lock := account_lock c; ctasks := ctasks c; next_task := next_task c;
              background := background c; strayed := {[a]} ∪ strayed c;
              purge_failed := purge_failed c |}.
Proof.
  intros [Hf Hl Hs Hfr Hb Hg]. split; cbn; try done.
  - intros op b ? ?. apply elem_of_union_r. by eapply Hb.
  - intros b Hp Hst Hpf. apply Hg; [done|set_solver|done].
Qed.

Lemma cancel_ok tid c c' : cache_ok c -> cancel tid c = Some c' -> cache_ok c'.
Proof.
  intros Hc (t & Ht & H)%bind_Some. destruct t as [a h m ph|a ph|ph]; [| |done].
  - injection H as <-.
    assert (forall d, cache_ok d -> ctasks d = ctasks c -> cache_ok (end_task tid d)) as Hend.
    { intros d Hd E. apply ok_end_task; [done|]. rewrite E. intros u b Hu Hp. by simplify_eq. }
    case_bool_decide as Hop.
    + refine (Hend (set_background (background c ++ option_list (pending_op (TStore a h m ph)))
        {| files := files c; dirs := dirs c; index := index c; purged := purged c;
           account_lock := account_lock c; ctasks := ctasks c; next_task := next_task c;
           background := background c; strayed := {[a]} ∪ strayed c;
           purge_failed := purge_failed c |}) _ eq_refl).
      apply (ok_add_background _ _ (ok_stray a c Hc)). cbn. intros op b Hin Hacc.
      destruct ph as [| | | | |[|v vs]]; cbn in Hin; try by apply not_elem_of_nil in Hin.
      all: apply list_elem_of_singleton in Hin; subst op; cbn in Hacc; simplify_eq; set_solver.
    + refine (Hend (set_background (background c ++ option_list (pending_op (TStore a h m ph))) c)
        _ eq_refl).
      apply ok_add_background; [done|]. intros op b Hin.
      destruct ph as [| | | | |[|v vs]]; cbn in Hop, Hin;
        try by apply not_elem_of_nil in Hin.
      all: by destruct Hop.
  - assert (cache_ok (set_background (background c ++ option_list (pending_op (TPurge a ph))) c)).
    { apply ok_add_background; [done|]. intros op b Hin. destruct ph; cbn in Hin; set_solver. }
    destruct ph; cbv zeta in H; simplify_eq; (apply ok_end_task; [done|]); cbn; intros u b Hu Hp; simplify_eq;
      cbn in Hp; [done|]. subst. right. left. set_solver.
Qed.

Lemma background_ok n ok c c' : cache_ok c -> run_background n ok c = Some c' -> cache_ok c'.
Proof.
  intros Hc (op & Hop & H)%bind_Some. injection H as <-.
  pose proof (ok_end_background n op) as Hend. destruct op as [a|k m|k|a].
  - assert (cache_ok (set_background (delete n (background c)) c)) as Hc1 by by apply Hend.
    destruct ok; [|done]. apply (ok_add_dir a _ Hc1). right.
    eapply (co_bg _ Hc); [by eapply list_elem_of_lookup_2|done].
  - assert (cache_ok (set_background (delete n (background c)) c)) as Hc1 by by apply Hend.
    destruct ok; [|done]. cbn [andb]. case_bool_decide; [|done].
    by apply (ok_insert_file k m (set_background (delete n (background c)) c)).
  - assert (cache_ok (set_background (delete n (background c)) c)) as Hc1 by by apply Hend.
    destruct ok; [|done].
    by apply (ok_delete_file k (set_background (delete n (background c)) c)).
  - destruct ok.
    + apply (Hend (remove_dir a c)); [by apply ok_remove_dir|done|].
      intros b [= ->]. left. cbn. set_solver.
    + apply (Hend (fail_purge a c)); [by apply ok_fail_purge|done|].
      intros b [= ->]. right. cbn. set_solver.
Qed.

Lemma cache_step_ok max e c c' : cache_ok c -> cache_step max e c = Some c' -> cache_ok c'.
Proof.
  intros Hc. destruct e; cbn [cache_step]; intros H.
  - destruct (fresh_task t) eqn:Et; simplify_eq.
    assert (forall a, locked_account t <> Some a /\ ~ promoting t a /\ ~ purging t a) as Hn.
    { intros a. destruct t as [? ? ? []|? []|[[]|]]; cbn in *; try discriminate; tauto || (split; [done|tauto]). }
    destruct Hc as [Hf Hl Hs Hfr Hb Hg]. 
    assert (ctasks c !! next_task c = None) as Hnone.
    { destruct (ctasks c !! next_task c) eqn:E; [|done]. specialize (Hfr (next_task c) ltac:(eauto)). lia. }
    split; cbn; try done.
    + intros tid u a [[<- <-]|[_ Hu]]%lookup_insert_Some Hlo; [by destruct (Hn a)|by eapply Hl].
    + intros tid u a [[<- <-]|[_ Hu]]%lookup_insert_Some Hp; [by destruct (Hn a) as (_ & ? & _)|by eapply Hs].
    + intros tid [<-|Hu]%lookup_insert_is_Some'; [lia|]. specialize (Hfr _ Hu). lia.
    + intros a Hp Hst Hpf. destruct (Hg a Hp Hst Hpf) as [(tid & u & Hu & Hpg)|?]; [left|by right].
      exists tid, u. split; [|done]. rewrite lookup_insert_ne; [done|]. intros <-. congruence.
  - destruct (ctasks c !! tid) as [[| |[found|]]|] eqn:Et; try done.
    destruct (files c !! k); simplify_eq.
    eapply ok_set_task; [exact Hc|exact Et|done|by_phase|done].
  - by eapply advance_ok.
  - by eapply cancel_ok.
  - by eapply background_ok.
  - case_bool_decide; simplify_eq. by apply ok_set_index.
Qed.

Lemma cache_reach_ok max c : cache_reach max c -> cache_ok c.
Proof.
  induction 1 as [fs ds Hfs|c c' e _ IH Hs]; [|by eapply cache_step_ok].
  split; cbn.
  - exact Hfs.
  - intros tid t a H. by rewrite lookup_empty in H.
  - intros tid t a H. by rewrite lookup_empty in H.
  - intros tid [? H]. by rewrite lookup_empty in H.
  - intros op a H. by apply not_elem_of_nil in H.
  - intros a H. set_solver.
Qed.

(** [C16] A purge is final: once an account has been purged and no purge of it
    is still at work - a removal that outlives its dropped purge included - its cache
    directory and files are gone and stay gone,
    whatever downloads were in flight, as long as its purge did not fail and no
    request of it was cancelled in the middle of a filesystem call; and a
    promotion that goes on never belongs to a purged account. *)
Theorem purge_is_final max c a :
  cache_reach max c -> a ∈ purged c -> a ∉ purge_failed c -> a ∉ strayed c ->
  (forall tid t, ctasks c !! tid = Some t -> ~ purging t a) -> BgRmdir a ∉ background c ->
  (a ∉ dirs c) /\ (forall h, files c !! (a, h) = None) /\
  (forall tid t, ctasks c !! tid = Some t -> ~ promoting t a).
Proof.
  intros Hok%cache_reach_ok Hp Hpf Hst Hno Hbg.
  assert (a ∉ dirs c) as Hd.
  { destruct (co_gone _ Hok a Hp Hst Hpf) as [(tid & t & Ht & Hpg)|[?|?]]; [|done..].
    by apply Hno in Ht. }
  split; [done|split].
  - intros h. destruct (files c !! (a, h)) eqn:E; [|done]. exfalso. apply Hd.
    apply (co_files _ Hok (a, h)). eauto.
  - intros tid t Ht Hpr. by eapply co_store.
Qed.

Fixpoint cache_run (max : Z) (es : list CEvent) (c : Cache) : option Cache :=
  match es with
  | [] => Some c
  | e :: es => cache_step max e c ≫= cache_run max es
  end.

Lemma cache_run_reach max es c c' : cache_reach max c -> cache_run max es c = Some c' -> cache_reach max c'.
Proof.
  revert c. induction es as [|e es IH]; intros c Hc; cbn; [by intros [= <-]|].
  intros (c1 & H1 & H2)%bind_Some. eapply IH; [|done]. by eapply cache_next.
Qed.

Definition meta (n : Z) : FileMeta := {| f_len := n; f_mtime := None |}.
Definition run_open (es : list CEvent) : Cache :=
  default (open_cache ∅ ∅) (cache_run 10 es (open_cache ∅ ∅)).

Lemma run_open_reach es : is_Some (cache_run 10 es (open_cache ∅ ∅)) -> cache_reach 10 (run_open es).
Proof.
  intros [c Hc]. unfold run_open. rewrite Hc. eapply cache_run_reach; [|exact Hc].
  apply cache_open. intros k [m H]. by rewrite lookup_empty in H.
Qed.

(** A second download is in flight while its account, with one file, is purged by a
    request that is dropped during the removal: nothing is promoted, and the removal
    goes on. *)
Definition purge_race : list CEvent :=
  [CSpawn (TStore 1 (t! "a") (meta 4) SLock)] ++ replicate 6 (CAdvance 0 true) ++
  [CSpawn (TStore 1 (t! "b") (meta 4) SLock); CSpawn (TPurge 1 PLock); CAdvance 2 true;
   CAdvance 2 true; CAdvance 2 true; CCancel 2; CAdvance 1 true; CAdvance 1 true;
   CBackground 0 true].

Lemma purge_is_final_witness :
  1 ∈ purged (run_open purge_race) /\ ctasks (run_open purge_race) = ∅ /\
  1 ∉ dirs (run_open purge_race).
Proof.
  split; [apply (bool_decide_unpack _); vm_compute; exact I|].
  assert (ctasks (run_open purge_race) = ∅) as He by (vm_compute; reflexivity).
  split; [exact He|].
  apply (purge_is_final 10 (run_open purge_race) 1).
  - apply run_open_reach. apply (bool_decide_unpack _). vm_compute. exact I.
  - apply (bool_decide_unpack _). vm_compute. exact I.
  - apply (bool_decide_unpack _). vm_compute. exact I.
  - apply (bool_decide_unpack _). vm_compute. exact I.
  - intros tid t Ht. rewrite He, lookup_empty in Ht. discriminate.
  - assert (background (run_open purge_race) = []) as -> by (vm_compute; reflexivity).
    apply not_elem_of_nil.
Defined.

(** A request cancelled while it creates the account directory: the call runs
    on after the purge and leaves the directory behind. *)
Example cancelled_promotion_recreates_directory :
  let c := run_open [CSpawn (TStore 1 (t! "a") (meta 4) SLock); CAdvance 0 true; CAdvance 0 true;
                     CCancel 0; CSpawn (TPurge 1 PLock); CAdvance 1 true; CAdvance 1 true;
                     CAdvance 1 true; CAdvance 1 true; CBackground 0 true] in
  bool_decide (1 ∈ purged c) = true /\ bool_decide (1 ∈ dirs c) = true /\ purge_failed c = ∅.
Proof. vm_compute. done. Qed.

(** A request cancelled between its eviction and the unlinks leaves the later
    victims on disk, tracked nowhere. *)
Example cancelled_eviction_leaks_files :
  let store n h z := [CSpawn (TStore 1 (lit h) (meta z) SLock); CAdvance n true; CAdvance n true;
                      CAdvance n true; CAdvance n true; CAdvance n true] in
  let c := run_open (store 0%nat "a"%string 4 ++ [CAdvance 0 true] ++ store 1%nat "b"%string 4
                     ++ [CAdvance 1 true] ++ store 2%nat "c"%string 10
                     ++ [CCancel 2; CBackground 0 true]) in
  files c !! (1, t! "b") = Some (meta 4) /\ entries (index c) !! (1, t! "b") = None /\
  background c = [] /\ ctasks c = ∅ /\ total_bytes (index c) = 10.
Proof. vm_compute. done. Qed.
