(* ===== verification/RoomDetails.v ===== *)
(** * Coalesced [room_details.changed] frames

    Models [crates/axon-sync/src/room_details.rs]: producers mark what changed in
    a room, and one flusher per account publishes a frame per room once the
    account has been quiet, or at the latest [MAX_DELAY] after it woke. *)

From stdpp Require Import base gmap sets list strings.
From Stdlib Require Import ZArith Lia.
From S2P Require Import Prelude Text.

(** ** The coalescer *)

Inductive RoomDetailSource := Metadata | MemberCounts | HomeserverDetails.

#[export] Instance RoomDetailSource_eq_dec : EqDecision RoomDetailSource.
Proof. solve_decision. Defined.
#[export] Instance RoomDetailSource_countable : Countable RoomDetailSource.
Proof.
  refine (inj_countable' (fun s => match s with
    | Metadata => 0%nat | MemberCounts => 1%nat | HomeserverDetails => 2%nat end)
    (fun n => match n with 0%nat => Metadata | 1%nat => MemberCounts | _ => HomeserverDetails end) _).
  by intros [].
Defined.

Definition QUIET : Z := millis 100.
Definition MAX_DELAY : Z := secs 1.
Definition MAX_PENDING_ROOMS : nat := 256.

Abbreviation Rooms := (gmap text (gset RoomDetailSource)).

Record Pending := MkPending { rooms : Rooms; marks : Z; closed : bool }.

Definition no_pending : Pending := MkPending ∅ 0 false.

(** [entry(room).or_default().insert(source)]. *)
Definition insert_source (room : text) (source : RoomDetailSource) (m : Rooms) : Rooms :=
  <[room := {[source]} ∪ default ∅ (m !! room)]> m.

(** What [mark] does after it released the lock. *)
Inductive MarkEffect := Publish (taken : Rooms) | Notify | Nothing.

Definition mark (room : text) (source : RoomDetailSource) (p : Pending) : Pending * MarkEffect :=
  let wake := bool_decide (rooms p = ∅) in
  let rooms' := insert_source room source (rooms p) in
  let publish := closed p || bool_decide (MAX_PENDING_ROOMS <= size rooms')%nat in
  let p' := MkPending (if publish then ∅ else rooms') (wrap64 (marks p + 1)) (closed p) in
  (p', if publish then Publish rooms' else if wake then Notify else Nothing).

Definition flush (p : Pending) : Pending * Rooms := (MkPending ∅ (marks p) (closed p), rooms p).
Definition close (p : Pending) : Pending * Rooms := (MkPending ∅ (marks p) true, rooms p).

(** One frame per room. *)
Definition publish (taken : Rooms) : list (text * gset RoomDetailSource) := map_to_list taken.

(** ** The flusher

    [Waiting]: on the wake-up.  [Woken first]: woken at [first], the mark count
    not yet read.  [Collecting first seen deadline]: asleep until [deadline].
    [Flushing first]: about to flush. *)
Inductive Flusher :=
| Waiting
| Woken (first : Z)
| Collecting (first seen deadline : Z)
| Flushing (first : Z)
| Stopped.

(** The sleep that starts at [now]. *)
Definition sleep_until (now first : Z) : Z :=
  now + Z.min QUIET (sat_sub MAX_DELAY (sat_sub now first)).

(** The flusher and the producers: [permit] is the stored wake-up of [Notify];
    [frames] are the frames published, [log] the marks made, each with its time
    and the number of frames published before it. *)
Record RWorld := MkRWorld {
  clock : Z;
  pend : Pending;
  permit : bool;
  phase : Flusher;
  cancelled : bool;
  frames : list (text * gset RoomDetailSource);
  log : list (text * RoomDetailSource * Z * nat);
}.

Definition init_rworld (t : Z) : RWorld := MkRWorld t no_pending false Waiting false [] [].

Definition do_mark (room : text) (source : RoomDetailSource) (w : RWorld) : RWorld :=
  let '(p, effect) := mark room source (pend w) in
  {| clock := clock w; pend := p;
     permit := match effect with Notify => true | _ => permit w end;
     phase := phase w; cancelled := cancelled w;
     frames := frames w ++ match effect with Publish taken => publish taken | _ => [] end;
     log := (room, source, clock w, length (frames w)) :: log w |}.

Definition set_phase (ph : Flusher) (w : RWorld) : RWorld :=
  MkRWorld (clock w) (pend w) (permit w) ph (cancelled w) (frames w) (log w).

(** The flusher's next step in [run], cancellation first ([biased]); [None] when
    it has nothing to do yet. *)
Definition flusher_step (w : RWorld) : option RWorld :=
  let stop :=
    let '(p, taken) := close (pend w) in
    MkRWorld (clock w) p (permit w) Stopped true (frames w ++ publish taken) (log w) in
  match phase w with
  | Waiting =>
      if cancelled w then Some stop
      else if permit w then
        Some (MkRWorld (clock w) (pend w) false (Woken (clock w)) (cancelled w) (frames w) (log w))
      else None
  | Woken first =>
      Some (set_phase (Collecting first (marks (pend w)) (sleep_until (clock w) first)) w)
  | Collecting first seen deadline =>
      if cancelled w then Some stop
      else if deadline <=? clock w then
        Some (set_phase
          (if (marks (pend w) =? seen) || (MAX_DELAY <=? sat_sub (clock w) first)
           then Flushing first
           else Collecting first (marks (pend w)) (sleep_until (clock w) first)) w)
      else None
  | Flushing _ =>
      let '(p, taken) := flush (pend w) in
      Some (MkRWorld (clock w) p (permit w) Waiting (cancelled w)
              (frames w ++ publish taken) (log w))
  | Stopped => None
  end.

(** Time passes only while the flusher has nothing to do, and not past the
    deadline it sleeps to. *)
Definition may_pass (t : Z) (w : RWorld) : Prop :=
  clock w <= t /\ flusher_step w = None /\
  match phase w with Collecting _ _ deadline => t <= deadline | _ => True end.

Inductive rstep : RWorld -> RWorld -> Prop :=
| RMark room source w : rstep w (do_mark room source w)
| RFlusher w w' : flusher_step w = Some w' -> rstep w w'
| RCancel w :
    rstep w (MkRWorld (clock w) (pend w) (permit w) (phase w) true (frames w) (log w))
| RPass t w :
    may_pass t w ->
    rstep w (MkRWorld t (pend w) (permit w) (phase w) (cancelled w) (frames w) (log w)).

(** ** No mark is lost, nor late *)

(** A frame of [room] with [source] was published after the first [n] frames. *)
Definition published_after (n : nat) (room : text) (source : RoomDetailSource) (w : RWorld) : Prop :=
  exists i sources, (n <= i)%nat /\ frames w !! i = Some (room, sources) /\ source ∈ sources.

Definition is_pending (room : text) (source : RoomDetailSource) (p : Pending) : Prop :=
  exists sources, rooms p !! room = Some sources /\ source ∈ sources.

(** The earliest a pending mark can have been made. *)
Definition base (w : RWorld) : Z :=
  match phase w with
  | Waiting | Stopped => clock w
  | Woken first | Collecting first _ _ | Flushing first => first
  end.

Definition log_ok (w : RWorld) : Prop :=
  forall room source t n, (room, source, t, n) ∈ log w ->
    (n <= length (frames w))%nat /\
    (published_after n room source w \/ is_pending room source (pend w) /\ base w <= t).

Definition rinv (w : RWorld) : Prop :=
  log_ok w /\
  base w <= clock w <= base w + MAX_DELAY /\
  match phase w with
  | Waiting => rooms (pend w) <> ∅ -> permit w = true
  | Woken first => clock w = first
  | Collecting first _ deadline => clock w <= deadline <= first + MAX_DELAY
  | Flushing _ => True
  | Stopped => rooms (pend w) = ∅
  end /\
  (closed (pend w) = true <-> phase w = Stopped) /\
  (size (rooms (pend w)) < MAX_PENDING_ROOMS)%nat.

Lemma insert_source_new room source m :
  exists sources, insert_source room source m !! room = Some sources /\ source ∈ sources.
Proof. unfold insert_source. rewrite lookup_insert_eq. eexists. split; [done|set_solver]. Qed.

Lemma insert_source_old room source m r s :
  (exists sources, m !! r = Some sources /\ s ∈ sources) ->
  exists sources, insert_source room source m !! r = Some sources /\ s ∈ sources.
Proof.
  intros (sources & Hm & Hs). unfold insert_source. destruct (decide (r = room)) as [->|Hne].
  - rewrite lookup_insert_eq, Hm. eexists. split; [done|]. simpl. set_solver.
  - rewrite lookup_insert_ne by done. eauto.
Qed.

(** Publishing everything pending publishes each pending mark. *)
Lemma publish_covers (taken : Rooms) n room source w w' :
  (exists sources, taken !! room = Some sources /\ source ∈ sources) ->
  (n <= length (frames w))%nat -> frames w' = frames w ++ publish taken ->
  published_after n room source w'.
Proof.
  intros (sources & Ht & Hs) Hn Hf. apply elem_of_map_to_list in Ht.
  apply list_elem_of_lookup in Ht as [i Hi]. exists (length (frames w) + i)%nat, sources.
  split; [lia|]. split; [|done]. rewrite Hf, lookup_app_r by lia.
  by replace (length (frames w) + i - length (frames w))%nat with i by lia.
Qed.

Lemma published_mono n room source w w' :
  frames w `prefix_of` frames w' -> published_after n room source w ->
  published_after n room source w'.
Proof.
  intros Hp (i & sources & ? & Hi & ?). exists i, sources. split; [done|].
  split; [|done]. by eapply prefix_lookup_Some.
Qed.

(** A step that publishes all that is pending, or keeps it, keeps the log's
    promise. *)
Lemma log_ok_take w w' :
  log_ok w -> log w' = log w -> frames w' = frames w ++ publish (rooms (pend w)) -> log_ok w'.
Proof.
  intros Hl El Ef room source t n Hin. rewrite El in Hin.
  destruct (Hl _ _ _ _ Hin) as [Hn H]. split; [rewrite Ef, length_app; lia|]. left.
  destruct H as [H|[H _]]; [|by eapply publish_covers].
  eapply published_mono; [|done]. rewrite Ef. by apply prefix_app_r.
Qed.

Lemma log_ok_keep w w' :
  log_ok w -> log w' = log w -> frames w' = frames w -> rooms (pend w') = rooms (pend w) ->
  (rooms (pend w) <> ∅ -> base w' <= base w) -> log_ok w'.
Proof.
  intros Hl El Ef Er Hb room source t n Hin. rewrite El in Hin.
  destruct (Hl _ _ _ _ Hin) as [Hn H]. rewrite Ef. split; [done|].
  destruct H as [(i & ss & ? & Hi & ?)|[(ss & Hr & Hs) Ht]].
  - left. exists i, ss. by rewrite Ef.
  - right. unfold is_pending. rewrite Er. split; [by eauto|].
    etrans; [apply Hb|done]. intros E. by rewrite E, lookup_empty in Hr.
Qed.

Lemma rinv_mark room source w : rinv w -> rinv (do_mark room source w).
Proof.
  intros (Hl & Hb & Hph & Hcl & Hsz). unfold do_mark, mark.
  set (rooms' := insert_source room source (rooms (pend w))).
  destruct (closed (pend w) || bool_decide (MAX_PENDING_ROOMS <= size rooms')%nat) eqn:Epub.
  - (* published at once *)
    split_and!; cbn [clock pend permit phase cancelled frames log rooms closed].
    + intros r s t n [[= -> -> -> ->]|Hin]%elem_of_cons; cbn [frames] in *.
      * split; [rewrite length_app; lia|]. left.
        eapply (publish_covers rooms' _ _ _ w); [apply insert_source_new|lia|done].
      * destruct (Hl _ _ _ _ Hin) as [Hn H]. split; [rewrite length_app; lia|]. left.
        destruct H as [H|[H _]].
        -- eapply published_mono; [|done]. by apply prefix_app_r.
        -- eapply (publish_covers rooms' _ _ _ w); [by apply insert_source_old|done|done].
    + unfold base in *. cbn. lia.
    + unfold base in *. cbn. lia.
    + destruct (phase w); [done|done|done|done|done].
    + done.
    + unfold MAX_PENDING_ROOMS. rewrite map_size_empty. lia.
  - apply orb_false_iff in Epub as [Ecl Esz]. apply bool_decide_eq_false in Esz.
    assert (phase w <> Stopped) as Hns by (intros E; apply Hcl in E; congruence).
    set (w' := MkRWorld _ _ _ _ _ _ _).
    assert (frames w' = frames w) as Ef
      by (cbn; destruct (bool_decide (rooms (pend w) = ∅)); apply app_nil_r).
    split_and!.
    + intros r s t n Hin. rewrite Ef. cbn [log w'] in Hin.
      apply elem_of_cons in Hin as [[= -> -> -> ->]|Hin].
      * split; [done|]. right. split; [apply insert_source_new|unfold base in *; cbn; lia].
      * destruct (Hl _ _ _ _ Hin) as [Hn [H|[H Ht]]]; (split; [done|]); [left|right].
        -- eapply published_mono; [|exact H]. by rewrite Ef.
        -- split; [apply insert_source_old, H|exact Ht].
    + unfold base in *. cbn. lia.
    + unfold base in *. cbn. lia.
    + cbn. destruct (phase w) eqn:Eph; try done. intros _.
      destruct (bool_decide (rooms (pend w) = ∅)) eqn:Ew; [done|].
      apply Hph. by apply bool_decide_eq_false in Ew.
    + done.
    + cbn. lia.
Qed.

Lemma sleep_until_bounds now first :
  0 <= now - first < MAX_DELAY -> now <= sleep_until now first <= first + MAX_DELAY.
Proof.
  unfold sleep_until, sat_sub. change QUIET with (10 ^ 8). change MAX_DELAY with (10 ^ 9). lia.
Qed.

Lemma rinv_flusher w w' : rinv w -> flusher_step w = Some w' -> rinv w'.
Proof.
  intros (Hl & Hb & Hph & Hcl & Hsz) Hs. unfold flusher_step in Hs.
  assert (rinv (MkRWorld (clock w) (MkPending ∅ (marks (pend w)) true) (permit w) Stopped true
                  (frames w ++ publish (rooms (pend w))) (log w))) as Hstop.
  { split_and!; try done; unfold base; cbn; try lia.
    - by eapply log_ok_take.
    - unfold MAX_PENDING_ROOMS. rewrite map_size_empty. lia. }
  destruct (phase w) as [|first|first seen deadline|first|] eqn:Eph; [..|done].
  - destruct (cancelled w); [by injection Hs as <-|]. destruct (permit w) eqn:Ep; [|done].
    injection Hs as <-. split_and!; cbn; try done; try (unfold base; cbn; lia).
    + eapply log_ok_keep; [done..|]. unfold base. rewrite Eph. cbn. lia.
    + rewrite Hcl. done.
  - assert (base w = first) as Eb by (unfold base; by rewrite Eph). rewrite Eb in Hb.
    assert (clock w <= sleep_until (clock w) first <= first + MAX_DELAY)
      by (apply sleep_until_bounds; change MAX_DELAY with (10 ^ 9); lia).
    injection Hs as <-. split_and!; cbn; try done; try (unfold base; cbn; lia); try lia.
    + eapply log_ok_keep; [done..|]. intros _. rewrite Eb. unfold base. cbn. lia.
    + by rewrite Hcl.
  - destruct (cancelled w); [by injection Hs as <-|]. destruct (deadline <=? clock w); [|done].
    injection Hs as <-.
    assert (base w = first) as Eb by (unfold base; by rewrite Eph). rewrite Eb in Hb.
    assert (forall ph', match ph' with Collecting f _ _ | Flushing f => f = first | _ => False end ->
      log_ok (set_phase ph' w)) as Hlog.
    { intros ph' Hp. eapply log_ok_keep; [done..|]. intros _. rewrite Eb. unfold base. cbn.
      destruct ph'; try done; subst; lia. }
    destruct ((marks (pend w) =? seen) || (MAX_DELAY <=? sat_sub (clock w) first)) eqn:Ef.
    + split_and!; cbn; try done; [by apply Hlog|unfold base; cbn; lia|unfold base; cbn; lia|].
      by rewrite Hcl.
    + assert (clock w <= sleep_until (clock w) first <= first + MAX_DELAY)
        by (b2p; unfold sat_sub in *; apply sleep_until_bounds; lia).
      split_and!; cbn; try done; try (unfold base; cbn; lia); try lia; [by apply Hlog|].
      by rewrite Hcl.
  - injection Hs as <-. split_and!; cbn; try done; try (unfold base; cbn; lia).
    + by eapply log_ok_take.
    + rewrite Hcl. done.
    + unfold MAX_PENDING_ROOMS. rewrite map_size_empty. lia.
Qed.

Lemma rinv_step w w' : rinv w -> rstep w w' -> rinv w'.
Proof.
  intros Hi Hs. destruct Hs as [room source w|w w' Hs|w|t w Hp].
  - by apply rinv_mark.
  - by eapply rinv_flusher.
  - destruct Hi as (Hl & ? & ? & ? & ?). split_and!; try done; unfold base in *; cbn; try lia.
  - destruct Hi as (Hl & Hb & Hph & Hcl & Hsz), Hp as (Ht & Hnone & Hdl).
    unfold flusher_step in Hnone. unfold base in *.
    destruct (phase w) as [|first|first seen deadline|first|] eqn:Eph; try done.
    + destruct (cancelled w); [done|]. destruct (permit w) eqn:Ep; [done|].
      assert (rooms (pend w) = ∅) as He.
      { destruct (decide (rooms (pend w) = ∅)); [done|]. by specialize (Hph n). }
      split_and!; cbn; rewrite ?Eph; try done; unfold base; cbn; rewrite ?Eph; cbn; try lia.
      eapply log_ok_keep; [done..|]. by rewrite He.
    + split_and!; cbn; rewrite ?Eph; try done; unfold base; cbn; rewrite ?Eph; cbn; try lia.
      eapply log_ok_keep; [done..|]. unfold base. cbn. rewrite Eph. lia.
    + split_and!; cbn; rewrite ?Eph; try done; unfold base; cbn; rewrite ?Eph; cbn; try lia.
      eapply log_ok_keep; [done..|]. by rewrite Hph.
Qed.

(** No change is lost or late, however producers, the flusher and its
    cancellation interleave.  At every reachable moment each mark made so far has
    either been published in a frame for its room and source sent after the mark,
    or is still pending and less than [MAX_DELAY] (one second) old as long as the
    flusher runs when it can; fewer than 256 rooms are pending; a flusher asleep
    with marks pending has a wake-up waiting; and once it has stopped nothing is
    pending. *)
Theorem marks_are_published t0 w :
  rtc rstep (init_rworld t0) w ->
  (forall room source t n, (room, source, t, n) ∈ log w ->
     published_after n room source w \/
     is_pending room source (pend w) /\ clock w <= t + MAX_DELAY) /\
  (size (rooms (pend w)) < MAX_PENDING_ROOMS)%nat /\
  (phase w = Waiting -> rooms (pend w) <> ∅ -> permit w = true) /\
  (phase w = Stopped -> rooms (pend w) = ∅ /\ closed (pend w) = true).
Proof.
  intros Hr. assert (rinv w) as (Hl & Hb & Hph & Hcl & Hsz).
  { remember (init_rworld t0) as w0 eqn:E. assert (rinv w0) as Hi.
    { subst. split_and!; try done; unfold base; cbn; try (change MAX_DELAY with (10 ^ 9); lia).
      - intros ???? H. by apply elem_of_nil in H.
      - by intros [].
      - rewrite map_size_empty. unfold MAX_PENDING_ROOMS. lia. }
    clear E. induction Hr as [|w0 w1 w2 Hs _ IH]; [done|]. apply IH. by eapply rinv_step. }
  split_and!; [|done|by intros E; rewrite E in Hph|].
  - intros room source t n Hin. destruct (Hl _ _ _ _ Hin) as [_ [H|[H Ht]]]; [by left|right].
    split; [done|lia].
  - intros E. rewrite E in Hph. split; [done|by apply Hcl].
Qed.

(** Two marks of one room and a second later mark are published together. *)
Definition busy_rworld : RWorld :=
  do_mark (t! "!a:x") MemberCounts (do_mark (t! "!a:x") Metadata (init_rworld 5)).

Lemma marks_are_published_witness :
  is_pending (t! "!a:x") Metadata (pend busy_rworld) \/
  published_after 0 (t! "!a:x") Metadata busy_rworld.
Proof.
  destruct (marks_are_published 5 busy_rworld) as [H _].
  - eapply rtc_l; [apply RMark|]. eapply rtc_l; [apply RMark|]. apply rtc_refl.
  - destruct (H (t! "!a:x") Metadata 5 0%nat) as [?|[? _]].
    + vm_compute. by right; left.
    + by right.
    + by left.
Defined.
