(* ===== verification/Acquisition.v ===== *)
(** * Acquisition of room details

    Models [crates/axon-sync/src/acquisition.rs], the paced worker that asks an
    account's homeserver for room details, and the cache rows it keeps
    ([crates/axon-store/src/room_detail_acquisition.rs]): the bounded job queue
    shared with the reads, the interpretation of replies, the row each outcome
    leaves, and the worker as a program. *)

From stdpp Require Import base gmap sets list strings relations.
From Stdlib Require Import ZArith Lia.
From S2P Require Import Prelude Text Effects HomeserverGate RoomDetails.
Open Scope prog_scope.

Definition QUEUE_CAPACITY : nat := 32.
Definition JOB_INTERVAL : Z := millis 250.
Definition MAX_LOCAL_ALIASES : nat := 256.
Definition AVAILABLE_TTL : Z := secs (15 * 60).
Definition CONCLUSIVE_DENIAL_TTL : Z := secs (60 * 60).
Definition ABSENCE_TTL : Z := secs (24 * 60 * 60).
Definition UNSUPPORTED_TTL : Z := secs (24 * 60 * 60).
Definition FAILURE_BACKOFF_MIN : Z := secs 60.
Definition FAILURE_BACKOFF_MAX : Z := secs (30 * 60).
Definition MAX_RETRY_AFTER : Z := secs (24 * 60 * 60).
Definition COOLDOWN_CAPACITY : nat := 2 * QUEUE_CAPACITY.

(** [ms]: whole milliseconds, saturating at [i64::MAX]. *)
Definition ms (duration : Z) : Z := Z.min (duration / 10 ^ 6) i64_max.

Inductive RoomDetailJob := LocalAliases | DirectoryVisibility | Absence.
Inductive JobActivity := IdleJob | QueuedJob | RunningJob.

#[export] Instance RoomDetailJob_eq_dec : EqDecision RoomDetailJob.
Proof. solve_decision. Defined.

Definition frame_source (job : RoomDetailJob) : RoomDetailSource :=
  match job with
  | Absence => Metadata
  | LocalAliases | DirectoryVisibility => HomeserverDetails
  end.

(** ** The queue *)

Record Entry := MkEntry { e_room : text; e_job : RoomDetailJob; observed : bool }.

Definition e_key (e : Entry) : text * RoomDetailJob := (e_room e, e_job e).

(** [Entry::is]. *)
Definition is_job (room : text) (job : RoomDetailJob) (e : Entry) : Prop := e_key e = (room, job).
#[export] Instance is_job_dec room job e : Decision (is_job room job e).
Proof. unfold is_job. apply _. Defined.

Record QueueState := MkQueue {
  queued : list Entry;
  running : option Entry;
  sending : bool;
  cooldown : list (text * RoomDetailJob * Z);
}.

Definition new_queue : QueueState := MkQueue [] None false [].

Definition running_is (room : text) (job : RoomDetailJob) (q : QueueState) : bool :=
  match running q with Some e => bool_decide (is_job room job e) | None => false end.

(** [Queue::push] at [now]: the new state, whether the worker is notified, and the
    dropped job. *)
Definition push (now : Z) (room : text) (job : RoomDetailJob) (q : QueueState)
    : QueueState * bool * option Entry :=
  let cooldown' := filter (fun c => now < c.2) (cooldown q) in
  let q := MkQueue (queued q) (running q) (sending q) cooldown' in
  if running_is room job q
     || bool_decide (Exists (is_job room job) (queued q))
     || bool_decide (Exists (fun c => c.1 = (room, job)) cooldown')
  then (q, false, None)
  else
    let '(dropped, rest) :=
      if bool_decide (QUEUE_CAPACITY <= length (queued q))%nat
      then match queued q with e :: rest => (Some e, rest) | [] => (None, []) end
      else (None, queued q) in
    (MkQueue (rest ++ [MkEntry room job false]) (running q) (sending q) cooldown', true, dropped).

(** The frame [push] marks for a dropped job that a read saw. *)
Definition dropped_mark (dropped : option Entry) : list (text * RoomDetailSource) :=
  match dropped with
  | Some e => if observed e then [(e_room e, frame_source (e_job e))] else []
  | None => []
  end.

Definition observe_entry (e : Entry) : Entry := MkEntry (e_room e) (e_job e) true.

(** [iter_mut().find(..)], setting [observed]. *)
Fixpoint observe_first (room : text) (job : RoomDetailJob) (l : list Entry) : option (list Entry) :=
  match l with
  | [] => None
  | e :: rest =>
      if decide (is_job room job e) then Some (observe_entry e :: rest)
      else cons e <$> observe_first room job rest
  end.

(** [Queue::observe]. *)
Definition observe (room : text) (job : RoomDetailJob) (q : QueueState) : QueueState * JobActivity :=
  match running q with
  | Some e =>
      if decide (is_job room job e)
      then (MkQueue (queued q) (Some (observe_entry e)) (sending q) (cooldown q),
            if sending q then RunningJob else QueuedJob)
      else match observe_first room job (queued q) with
           | Some l => (MkQueue l (running q) (sending q) (cooldown q), QueuedJob)
           | None => (q, IdleJob)
           end
  | None =>
      match observe_first room job (queued q) with
      | Some l => (MkQueue l (running q) (sending q) (cooldown q), QueuedJob)
      | None => (q, IdleJob)
      end
  end.

(** [Queue::next]'s look at the queue: the job taken, if any. *)
Definition take_next (q : QueueState) : QueueState * option (text * RoomDetailJob) :=
  match queued q with
  | e :: rest => (MkQueue rest (Some e) (sending q) (cooldown q), Some (e_key e))
  | [] => (q, None)
  end.

(** [Queue::sending]. *)
Definition set_sending (b : bool) (q : QueueState) : QueueState :=
  MkQueue (queued q) (running q) b (cooldown q).

(** [Queue::finish] at [now]; the answer is whether a read saw the job. *)
Definition finish (now : Z) (local_failure : bool) (q : QueueState) : QueueState * bool :=
  match running q with
  | None => (MkQueue (queued q) None false (cooldown q), false)
  | Some e =>
      let kept := if bool_decide (COOLDOWN_CAPACITY <= length (cooldown q))%nat
                  then tail (cooldown q) else cooldown q in
      (MkQueue (queued q) None false
         (if local_failure then kept ++ [(e_room e, e_job e, now + FAILURE_BACKOFF_MIN)]
          else cooldown q),
       observed e)
  end.

(** ** The queue between reads and the worker

    The worker is in [Queue::next] about to look ([Looking]) or waiting for the
    wake-up ([Asleep]), or runs the job it took.  [marked] lists the frames
    marked; [shown] the jobs a read reported as queued or running that no frame
    for their source has been marked for since. *)

Inductive WorkerPhase := Looking | Asleep | Busy (job : text * RoomDetailJob).

Record QWorld := MkQWorld {
  queue_of : QueueState;
  qclock : Z;
  wakeup : bool;
  worker : WorkerPhase;
  marked : list (text * RoomDetailSource);
  shown : list (text * RoomDetailJob);
}.

Definition init_qworld (t : Z) : QWorld := MkQWorld new_queue t false Looking [] [].

Definition silent_for (l : list (text * RoomDetailSource)) (s : list (text * RoomDetailJob)) :=
  filter (fun rj => (rj.1, frame_source rj.2) ∉ l) s.

Inductive qstep : QWorld -> QWorld -> Prop :=
| QRequest room job w q note dropped :
    push (qclock w) room job (queue_of w) = (q, note, dropped) ->
    qstep w (MkQWorld q (qclock w) (note || wakeup w) (worker w)
               (dropped_mark dropped ++ marked w) (silent_for (dropped_mark dropped) (shown w)))
| QObserve room job w q activity :
    observe room job (queue_of w) = (q, activity) ->
    qstep w (MkQWorld q (qclock w) (wakeup w) (worker w) (marked w)
               match activity with IdleJob => shown w | _ => (room, job) :: shown w end)
| QLook w q taken :
    worker w = Looking -> take_next (queue_of w) = (q, taken) ->
    qstep w (MkQWorld q (qclock w) (wakeup w)
               match taken with Some k => Busy k | None => Asleep end (marked w) (shown w))
| QWake w :
    worker w = Asleep -> wakeup w = true ->
    qstep w (MkQWorld (queue_of w) (qclock w) false Looking (marked w) (shown w))
| QSending b k w :
    worker w = Busy k ->
    qstep w (MkQWorld (set_sending b (queue_of w)) (qclock w) (wakeup w) (worker w) (marked w)
               (shown w))
| QFinish local_failure changed room job w q seen_ :
    worker w = Busy (room, job) -> finish (qclock w) local_failure (queue_of w) = (q, seen_) ->
    let m := if changed || seen_ then [(room, frame_source job)] else [] in
    qstep w (MkQWorld q (qclock w) (wakeup w) Looking (m ++ marked w) (silent_for m (shown w)))
| QPass t w :
    qclock w <= t ->
    qstep w (MkQWorld (queue_of w) t (wakeup w) (worker w) (marked w) (shown w)).

Definition run_key (q : QueueState) : list (text * RoomDetailJob) :=
  match running q with Some e => [e_key e] | None => [] end.

(** The keys waiting or running. *)
Definition job_keys (q : QueueState) : list (text * RoomDetailJob) :=
  map e_key (queued q) ++ run_key q.

Definition pending_entry (q : QueueState) (e : Entry) : Prop :=
  e ∈ queued q \/ running q = Some e.

Definition queue_ok (q : QueueState) : Prop :=
  (length (queued q) <= QUEUE_CAPACITY)%nat /\ NoDup (job_keys q) /\
  (length (cooldown q) <= COOLDOWN_CAPACITY)%nat /\
  (forall c, c ∈ cooldown q -> c.1 ∉ job_keys q).

Definition qinv (w : QWorld) : Prop :=
  queue_ok (queue_of w) /\
  match worker w with
  | Busy k => run_key (queue_of w) = [k]
  | Looking => running (queue_of w) = None /\ sending (queue_of w) = false
  | Asleep => running (queue_of w) = None /\ sending (queue_of w) = false /\
              (queued (queue_of w) <> [] -> wakeup w = true)
  end /\
  forall k, k ∈ shown w -> exists e, pending_entry (queue_of w) e /\ e_key e = k /\ observed e = true.

Lemma exists_is_job room job (l : list Entry) :
  Exists (is_job room job) l <-> (room, job) ∈ map e_key l.
Proof.
  rewrite Exists_exists, list_elem_of_fmap. unfold is_job. naive_solver.
Qed.

Lemma run_key_is room job q :
  running_is room job q = true <-> (room, job) ∈ run_key q.
Proof.
  unfold running_is, run_key. destruct (running q) as [e|]; [|set_solver].
  rewrite bool_decide_eq_true, list_elem_of_singleton. unfold is_job. naive_solver.
Qed.

(** [push] on its two branches. *)
Lemma push_cases now room job q q' note dropped :
  push now room job q = (q', note, dropped) -> queue_ok q ->
  let kept := filter (fun c => now < c.2) (cooldown q) in
  (q' = MkQueue (queued q) (running q) (sending q) kept /\ note = false /\ dropped = None) \/
  (note = true /\ ((room, job) ∉ job_keys q) /\ (forall c, c ∈ kept -> c.1 <> (room, job)) /\
   exists rest, queued q = option_list dropped ++ rest /\ (length rest < QUEUE_CAPACITY)%nat /\
     q' = MkQueue (rest ++ [MkEntry room job false]) (running q) (sending q) kept).
Proof.
  intros Hp (Hlen & _) kept. unfold push in Hp. fold kept in Hp. cbn [queued running sending cooldown] in Hp.
  destruct (running_is _ _ _ || _ || _) eqn:E; [injection Hp as <- <- <-; by left|]. right.
  apply orb_false_iff in E as [[E1 E2]%orb_false_iff E3].
  apply bool_decide_eq_false in E2, E3. rewrite exists_is_job in E2.
  assert ((room, job) ∉ run_key q) as Hrun.
  { intros H. apply run_key_is in H. unfold running_is in *. cbn in E1. congruence. }
  case_bool_decide as Ecap.
  - destruct (queued q) as [|e rest] eqn:Eq; [simpl in Ecap; unfold QUEUE_CAPACITY in Ecap; lia|].
    injection Hp as <- <- <-. split_and!; [done| |..].
    + unfold job_keys. rewrite Eq. by rewrite elem_of_app; intros [?|?].
    + intros c Hc Hk. apply E3, Exists_exists. by exists c.
    + exists rest. simpl in Hlen. split_and!; [done|lia|done].
  - injection Hp as <- <- <-. split_and!; [done| |..].
    + unfold job_keys. by rewrite elem_of_app; intros [?|?].
    + intros c Hc Hk. apply E3, Exists_exists. by exists c.
    + exists (queued q). split_and!; [done|lia|done].
Qed.

Lemma push_ok now room job q q' note dropped :
  queue_ok q -> push now room job q = (q', note, dropped) -> queue_ok q'.
Proof.
  intros Hok Hp. pose proof (push_cases _ _ _ _ _ _ _ Hp Hok) as Hc. cbv zeta in Hc.
  destruct Hok as (Hlen & Hnd & Hcl & Hcd).
  assert (forall c, c ∈ filter (fun c => now < c.2) (cooldown q) -> c ∈ cooldown q) as Hsub
    by (intros c; rewrite list_elem_of_filter; tauto).
  assert (length (filter (fun c => (now < c.2)%Z) (cooldown q)) <= COOLDOWN_CAPACITY)%nat
    by (etrans; [apply length_filter|done]).
  destruct Hc as [(-> & _ & _)|(_ & Hni & Hck & rest & Eq & Hl & ->)].
  - split_and!; cbn; try done. auto.
  - unfold job_keys in *. rewrite Eq, map_app in Hnd. cbn [queued running].
    unfold queue_ok, job_keys. cbn [queued running cooldown].
    rewrite Eq, map_app in Hni, Hcd.
    assert (run_key (MkQueue (rest ++ [MkEntry room job false]) (running q) (sending q)
      (filter (fun c => now < c.2) (cooldown q))) = run_key q) as -> by done.
    rewrite map_app, length_app. cbn [map e_key e_room e_job length].
    split_and!; [unfold QUEUE_CAPACITY in *; lia| |done|].
    + apply NoDup_app in Hnd as (H1 & H2 & H3). apply NoDup_app in H1 as (_ & _ & H1).
      rewrite <- app_assoc. apply NoDup_app. split_and!; [done| |].
      * intros k Hk [Hk'|Hk']%elem_of_app.
        -- apply list_elem_of_singleton in Hk' as ->. set_solver.
        -- eapply H2; [|done]. set_solver.
      * apply NoDup_app. split_and!; [apply NoDup_singleton| |done].
        intros k ->%list_elem_of_singleton. set_solver.
    + intros c Hc Hin. specialize (Hck c Hc). specialize (Hcd c (Hsub c Hc)).
      rewrite !elem_of_app, list_elem_of_singleton in Hin. rewrite !elem_of_app in Hcd. tauto.
Qed.

(** [observe] changes the [observed] flag of one pending entry only. *)
Lemma observe_first_spec room job l :
  match observe_first room job l with
  | Some l' => map e_key l' = map e_key l /\
      (exists e, e ∈ l' /\ e_key e = (room, job) /\ observed e = true) /\
      (forall e, e ∈ l -> observed e = true -> exists e', e' ∈ l' /\ e_key e' = e_key e /\ observed e' = true)
  | None => (room, job) ∉ map e_key l
  end.
Proof.
  induction l as [|e l IH]; cbn [observe_first]; [set_solver|].
  destruct (decide (is_job room job e)) as [Hi|Hi].
  - split_and!; [done|exists (observe_entry e); split; [left|by split]|].
    intros e' [->|He]%elem_of_cons Ho; [exists (observe_entry e)|exists e']; (split; [|done]);
      [by left|by right].
  - destruct (observe_first room job l) as [l'|]; cbn.
    + destruct IH as (IHk & (e0 & ? & ? & ?) & IHe). split_and!; [by rewrite IHk| |].
      * exists e0. split; [by right|done].
      * intros e' [->|He]%elem_of_cons Ho; [exists e; split; [by left|done]|].
        destruct (IHe e' He Ho) as (e1 & ? & ?). exists e1. split; [by right|done].
    + rewrite elem_of_cons. intros [E|E]; [|done]. by apply Hi.
Qed.

Definition observes (room : text) (job : RoomDetailJob) (q q' : QueueState) (activity : JobActivity)
    : Prop :=
  job_keys q' = job_keys q /\ run_key q' = run_key q /\
  length (queued q') = length (queued q) /\ cooldown q' = cooldown q /\ sending q' = sending q /\
  (running q = None -> running q' = None) /\ (queued q = [] -> queued q' = []) /\
  (forall e, pending_entry q e -> observed e = true ->
     exists e', pending_entry q' e' /\ e_key e' = e_key e /\ observed e' = true) /\
  (activity <> IdleJob ->
     exists e, pending_entry q' e /\ e_key e = (room, job) /\ observed e = true).

Lemma observe_spec room job q q' activity :
  observe room job q = (q', activity) -> observes room job q q' activity.
Proof.
  assert (match observe_first room job (queued q) with
    | Some l => (MkQueue l (running q) (sending q) (cooldown q), QueuedJob)
    | None => (q, IdleJob) end = (q', activity) -> observes room job q q' activity) as Hq.
  2: { unfold observe. destruct (running q) as [e|] eqn:Er; [|exact Hq].
    destruct (decide (is_job room job e)) as [Hi|]; [|exact Hq]. intros [= <- <-].
    unfold observes, job_keys, run_key, pending_entry. cbn [queued running sending cooldown].
    rewrite Er.
    split_and!; try done.
    - intros e0 [He|[= ->]] Ho; [by exists e0; split; [left|]|].
      exists (observe_entry e0). split; [by right|done].
    - intros _. exists (observe_entry e). split; [by right|done]. }
  pose proof (observe_first_spec room job (queued q)) as Hf.
  destruct (observe_first room job (queued q)) as [l|]; intros [= <- <-].
  - destruct Hf as (Hk & (e & He & ? & ?) & Hall).
    unfold observes, job_keys, pending_entry. cbn [queued running sending cooldown]. rewrite Hk.
    split_and!; try done.
    + by rewrite <- (length_map e_key), Hk, length_map.
    + intros Eq. rewrite Eq in Hk. by destruct l.
    + intros e0 [He0|He0] Ho; [|exists e0; split; [by right|done]].
      destruct (Hall e0 He0 Ho) as (e1 & ? & ?). exists e1. split; [by left|done].
    + intros _. exists e. split; [by left|done].
  - unfold observes. split_and!; try done. intros e He Ho. by exists e.
Qed.

Lemma elem_of_silent k m s :
  k ∈ silent_for m s <-> ((k.1, frame_source k.2) ∉ m) /\ k ∈ s.
Proof. unfold silent_for. by rewrite list_elem_of_filter. Qed.

Lemma take_next_ok q q' taken :
  queue_ok q -> running q = None -> take_next q = (q', taken) ->
  queue_ok q' /\ cooldown q' = cooldown q /\ sending q' = sending q /\
  run_key q' = option_list taken /\
  (taken = None -> q' = q /\ queued q = []) /\
  (forall e, pending_entry q e -> pending_entry q' e).
Proof.
  intros Hok Hr Ht. pose proof Hok as (Hlen & Hnd & Hcl & Hcd). unfold take_next in Ht.
  destruct (queued q) as [|e rest] eqn:Eq; injection Ht as <- <-.
  - split_and!; try done; unfold run_key; rewrite ?Hr; done.
  - assert (Permutation (job_keys (MkQueue rest (Some e) (sending q) (cooldown q))) (job_keys q))
      as Hperm.
    { unfold job_keys, run_key. cbn. rewrite Eq, Hr, app_nil_r. cbn. by rewrite Permutation_app_comm. }
    split_and!; try done.
    + split_and!; cbn; [simpl in Hlen; lia|by rewrite Hperm|done|].
      intros c Hc. rewrite Hperm. by apply Hcd.
    + intros e' [He|He]; [|congruence]. rewrite Eq in He.
      apply elem_of_cons in He as [->|He]; [by right|by left].
Qed.

Lemma finish_ok now lf q q' seen_ k :
  queue_ok q -> run_key q = [k] -> finish now lf q = (q', seen_) ->
  queue_ok q' /\ running q' = None /\ sending q' = false /\ queued q' = queued q /\
  (forall e, running q = Some e -> e_key e = k /\ seen_ = observed e).
Proof.
  intros (Hlen & Hnd & Hcl & Hcd) Hk Hf. unfold run_key in Hk. unfold finish in Hf.
  destruct (running q) as [e|] eqn:Er; [|done]. injection Hk as Hk. injection Hf as <- <-.
  unfold job_keys, run_key in *. rewrite Er in *. apply NoDup_app in Hnd as (Hnd & Hdis & _).
  assert (forall l : list (text * RoomDetailJob * Z), (forall c, c ∈ l -> c ∈ cooldown q) ->
    forall c, c ∈ l -> c.1 ∉ map e_key (queued q)) as Hsub.
  { intros l Hl c Hc Hin. apply (Hcd c (Hl c Hc)), elem_of_app. by left. }
  split_and!; try done; [|by intros e' [= <-]].
  unfold queue_ok, job_keys, run_key. cbn [queued running cooldown]. rewrite app_nil_r.
  split_and!; [done|done| |].
  - destruct lf; [|done]. rewrite length_app. cbn. case_bool_decide as Ec; [|lia].
    destruct (cooldown q) as [|c l]; simpl in *; unfold COOLDOWN_CAPACITY, QUEUE_CAPACITY in *; lia.
  - destruct lf; [|by apply Hsub]. intros c [Hc| ->%list_elem_of_singleton]%elem_of_app.
    + eapply Hsub; [|exact Hc]. intros c' Hc'. case_bool_decide; [|done].
      destruct (cooldown q); [done|by right].
    + cbn. intros Hin. eapply Hdis; [exact Hin|]. by apply list_elem_of_singleton.
Qed.

Lemma qinv_step w w' : qinv w -> qstep w w' -> qinv w'.
Proof.
  intros (Hok & Hw & Hsh) Hs.
  destruct Hs as [room job w q note dropped Hp|room job w q activity Ho|w q taken Hl Ht|w Ha Hwk
    |b k w Hb|lf changed room job w q seen_ Hb Hf m|t w Ht]; cbn [queue_of worker shown wakeup] in *.
  - pose proof (push_ok _ _ _ _ _ _ _ Hok Hp) as Hok'.
    destruct (push_cases _ _ _ _ _ _ _ Hp Hok) as
      [(-> & -> & ->)|(-> & _ & _ & rest & Eq & _ & ->)]; (split; [done|split]).
    + unfold run_key in *. cbn. by destruct (worker w).
    + intros k [_ Hk]%elem_of_silent. by apply Hsh.
    + unfold run_key in *. cbn. destruct (worker w); [done| |done]. naive_solver.
    + intros k [Hns Hk]%elem_of_silent. destruct (Hsh k Hk) as (e & He & <- & Ho).
      exists e. split; [|done]. destruct He as [He|He]; [|by right].
      rewrite Eq in He. apply elem_of_app in He as [He|He].
      * destruct dropped as [d|]; [|by apply elem_of_nil in He].
        apply list_elem_of_singleton in He as ->. exfalso. apply Hns. cbn. rewrite Ho.
        by apply list_elem_of_singleton.
      * left. cbn. apply elem_of_app. by left.
  - apply observe_spec in Ho as (Hk & Hrk & Hlen & Hc & Hsd & Hrun & Hnil & Hmap & Hnew).
    destruct Hok as (H1 & H2 & H3 & H4). split_and!.
    + unfold queue_ok. cbn [queue_of]. rewrite Hk, Hlen, Hc. done.
    + cbn [queue_of worker wakeup]. destruct (worker w); rewrite ?Hrk, ?Hsd; [naive_solver..|done].
    + intros k Hin. assert (k ∈ shown w \/ (activity <> IdleJob /\ k = (room, job))) as [Hin'|[Ha ->]]
        by (destruct activity; [by left|apply elem_of_cons in Hin as [->|?]; auto..]).
      * destruct (Hsh k Hin') as (e & He & <- & Hoe). by apply Hmap.
      * by apply Hnew.
  - rewrite Hl in Hw. destruct Hw as [Hr Hsd].
    destruct (take_next_ok _ _ _ Hok Hr Ht) as (Hok' & _ & Hsd' & Hrk & Hnone & Hpend).
    split_and!; [done| |].
    + destruct taken as [k|]; [done|]. destruct (Hnone eq_refl) as [-> Hq]. cbn.
      split_and!; [done|done|by rewrite Hq].
    + intros k Hk. destruct (Hsh k Hk) as (e & ? & ? & ?). exists e. auto.
  - rewrite Ha in Hw. split_and!; [done|by destruct Hw as (? & ? & _)|done].
  - rewrite Hb in *. split_and!; done.
  - rewrite Hb in Hw. destruct (finish_ok _ _ _ _ _ _ Hok Hw Hf) as (Hok' & Hr & Hsd & Hq & He).
    split_and!; [done|done|]. intros k [Hns Hk]%elem_of_silent.
    destruct (Hsh k Hk) as (e & Hp & <- & Ho). exists e. split; [|done]. left. cbn. rewrite Hq.
    destruct Hp as [Hp|Hp]; [done|]. destruct (He e Hp) as [Ek Es]. exfalso. apply Hns.
    unfold m. rewrite Es, Ho, orb_true_r, Ek. by apply list_elem_of_singleton.
  - split_and!; done.
Qed.

(** The job queue in every reachable state: at most 32 jobs wait, no job is
    waiting twice or while it runs, at most 64 are held back and none of those
    waits or runs; a worker asleep while jobs wait has a wake-up; and every job a
    read was told is queued or running, with no frame for its source since, is
    still waiting or running and will be announced, whether it is then run,
    finished or pushed out of the full queue. *)
Theorem acquisition_queue_ok t0 w :
  rtc qstep (init_qworld t0) w ->
  let q := queue_of w in
  (length (queued q) <= 32)%nat /\ NoDup (job_keys q) /\ (length (cooldown q) <= 64)%nat /\
  (forall c, c ∈ cooldown q -> c.1 ∉ job_keys q) /\
  (worker w = Asleep -> queued q <> [] -> wakeup w = true) /\
  (forall k, worker w = Busy k <-> run_key q = [k]) /\
  (sending q = true -> exists k, worker w = Busy k) /\
  (forall k, k ∈ shown w ->
     exists e, pending_entry q e /\ e_key e = k /\ observed e = true).
Proof.
  intros Hr q. assert (qinv w) as ((Hlen & Hnd & Hcl & Hcd) & Hw & Hsh).
  { remember (init_qworld t0) as w0 eqn:E. assert (qinv w0) as Hi.
    { subst. split; [|split; [done|]]; [|intros k Hk; by apply elem_of_nil in Hk].
      unfold queue_ok. cbn. split_and!; [lia|constructor|lia|].
      intros c Hc. by apply elem_of_nil in Hc. }
    clear E. induction Hr as [|w0 w1 w2 Hs _ IH]; [done|]. apply IH. by eapply qinv_step. }
  subst q. split_and!; try done.
  - intros E. rewrite E in Hw. by destruct Hw as (_ & _ & ?).
  - intros k. unfold run_key. destruct (worker w) as [| |k'] eqn:E.
    + destruct Hw as [-> _]. done.
    + destruct Hw as [-> _]. done.
    + unfold run_key in Hw. rewrite Hw. naive_solver.
  - intros Hs. destruct (worker w) as [| |k']; [|destruct Hw as (_ & Hw & _)|by eexists];
      [destruct Hw as [_ Hw]|]; congruence.
Qed.

(** A read sees its job queued while the queue is full; 31 newer jobs later it is
    still there. *)
Definition seen_qworld : QWorld :=
  MkQWorld (MkQueue [MkEntry (t! "!a:x") Absence true] None false []) 7 true Looking []
    [(t! "!a:x", Absence)].

Lemma acquisition_queue_ok_witness :
  exists e, pending_entry (queue_of seen_qworld) e /\ e_key e = (t! "!a:x", Absence) /\
            observed e = true.
Proof.
  apply (acquisition_queue_ok 7); [|by left].
  eapply rtc_l; [by apply (QRequest (t! "!a:x") Absence)|].
  eapply rtc_l; [by apply (QObserve (t! "!a:x") Absence)|]. apply rtc_refl.
Defined.

(** ** Replies *)

Inductive NoAnswer := NTimeout | NTransport | NUnauthorized.

Inductive Reply :=
| ROk (body : list Z)
| RTooLarge
| RStatus (status : Z) (errcode : option text) (retry_after_ms : option Z)
| RFailed (why : NoAnswer).

Inductive DetailKind := KLocalAliases | KDirectoryVisibility | KAbsence.

#[export] Instance DetailKind_eq_dec : EqDecision DetailKind.
Proof. solve_decision. Defined.

Inductive DetailOutcome :=
| DAnswer (status : text) (value : option json) (ttl_ms : Z)
| DPresent (retry_in_ms : Z)
| DFailure (category : text) (retry_after_ms : option Z) (min_backoff_ms max_backoff_ms : Z).

Definition gate_outcome (reply : Reply) : Outcome :=
  match reply with
  | ROk _ => Success
  | RTooLarge => Refused
  | RStatus status _ _ => if (status =? 429) || (status >=? 500) then Overloaded else Refused
  | RFailed NTimeout => TimedOut
  | RFailed NTransport => Overloaded
  | RFailed NUnauthorized => Local
  end.

(** [Option::max] on integers. *)
Definition option_max (a b : option Z) : option Z :=
  match a, b with
  | Some a, Some b => Some (Z.max a b)
  | Some a, None => Some a
  | None, b => b
  end.

Definition answer (status : text) (value : option json) (ttl : Z) : DetailOutcome :=
  DAnswer status value (ms ttl).
Definition failure (category : text) (retry_after_ms : option Z) : DetailOutcome :=
  DFailure category retry_after_ms (ms FAILURE_BACKOFF_MIN) (ms FAILURE_BACKOFF_MAX).
Definition invalid : DetailOutcome := failure (t! "invalid_response") None.

Section Replies.
(** [serde_json::from_slice], [OwnedRoomAliasId::try_from], and
    [DateTime::parse_from_rfc2822] in milliseconds. *)
Context (from_slice : list Z -> option json) (valid_alias : text -> bool).
Context (parse_from_rfc2822 : text -> option Z).

(** [retry_after] at [now_ms]. *)
Definition retry_after (value : text) (now_ms : Z) : option Z :=
  let value := trim value in
  match parse_u64 value with
  | Some seconds => Some (ms (secs seconds))
  | None => at_ ← parse_from_rfc2822 value; Some (Z.max (at_ - now_ms) 0)
  end.

(** [send]'s reading of a response other than 200: the [Retry-After] header and
    the error body, where they could be read. *)
Definition status_reply (status : Z) (header : option text) (body : option (list Z)) (now_ms : Z)
    : Reply :=
  let header_retry : option Z := header ≫= (fun value => retry_after value now_ms) in
  let body : option json := body ≫= from_slice in
  let errcode : option text := (body ≫= jget (t! "errcode")) ≫= as_str in
  let body_retry : option Z := (body ≫= jget (t! "retry_after_ms")) ≫= as_i64 in
  RStatus status errcode
    (option_map (fun retry => Z.max 0 (Z.min retry (ms MAX_RETRY_AFTER)))
       (option_max header_retry body_retry)).

Definition answer_body (kind : DetailKind) (body : json) : option DetailOutcome :=
  match kind with
  | KLocalAliases =>
      aliases ← jget (t! "aliases") body ≫= as_array;
      if bool_decide (MAX_LOCAL_ALIASES < length aliases)%nat
      then Some (answer (t! "too_large") None AVAILABLE_TTL)
      else
        let valid := filter (fun alias => valid_alias alias = true) (omap as_str aliases) in
        let status := if bool_decide (length valid = length aliases)
                      then t! "available" else t! "partial" in
        Some (answer status (Some (JArr (map JStr valid))) AVAILABLE_TTL)
  | KDirectoryVisibility =>
      visibility ← jget (t! "visibility") body ≫= as_str;
      if text_eqb visibility (t! "public") || text_eqb visibility (t! "private")
      then Some (answer (t! "available") (Some (JObj [(t! "visibility", JStr visibility)]))
                   AVAILABLE_TTL)
      else None
  | KAbsence => None
  end.

Definition interpret (kind : DetailKind) (reply : Reply) : DetailOutcome :=
  let absence := bool_decide (kind = KAbsence) in
  match reply with
  | RFailed NTimeout => failure (t! "timeout") None
  | RFailed NTransport => failure (t! "transport") None
  | RFailed NUnauthorized => failure (t! "unauthorized") None
  | RTooLarge => if absence then invalid else answer (t! "too_large") None AVAILABLE_TTL
  | ROk body =>
      if absence then DPresent (ms CONCLUSIVE_DENIAL_TTL)
      else default invalid (from_slice body ≫= answer_body kind)
  | RStatus status errcode retry_after_ms =>
      let not_found := bool_decide (errcode = Some (t! "M_NOT_FOUND")) in
      let unrecognized := bool_decide (errcode = None \/ errcode = Some (t! "M_UNRECOGNIZED")) in
      if status =? 401 then failure (t! "unauthorized") retry_after_ms
      else if status =? 403 then answer (t! "forbidden") None CONCLUSIVE_DENIAL_TTL
      else if (status =? 404) && not_found && absence
      then answer (t! "absent") None ABSENCE_TTL
      else if (status =? 404) && not_found
      then answer (t! "not_found") None CONCLUSIVE_DENIAL_TTL
      else if (status =? 404) && unrecognized || (status =? 405)
      then if absence then invalid else answer (t! "unsupported") None UNSUPPORTED_TTL
      else if status =? 429 then failure (t! "rate_limited") retry_after_ms
      else if (500 <=? status) && (status <=? 599)
      then failure (t! "server_error") retry_after_ms
      else invalid
  end.

End Replies.

(** ** The cached row *)

Record DetailRow := MkDetailRow {
  value_status : option text;
  value : option json;
  fetched_at : option Z;
  expires_at : option Z;
  d_failure : option text;
  failures : Z;
  next_attempt_at : option Z;
}.

(** [i64::saturating_add], [i64::saturating_mul] and [i32::saturating_add]. *)
Definition i64_sat (z : Z) : Z := Z.max i64_min (Z.min i64_max z).
Definition sat32 (z : Z) : Z := Z.max (- 2 ^ 31) (Z.min i32_max z).

Definition backoff_ms (failures min max : Z) : Z :=
  let doublings := Z.max 0 (Z.min 30 (sat32 (failures - 1))) in
  Z.min (i64_sat (min * Z.shiftl 1 doublings)) max.

(** [Next::from]. *)
Definition next_row (previous : option DetailRow) (outcome : DetailOutcome) (now : Z) : DetailRow :=
  match outcome with
  | DAnswer status value ttl_ms =>
      MkDetailRow (Some status) value (Some now) (Some (i64_sat (now + ttl_ms))) None 0 None
  | DPresent retry_in_ms =>
      MkDetailRow None None None None None 0 (Some (i64_sat (now + retry_in_ms)))
  | DFailure category retry_after_ms min max =>
      let failures := sat32 (match previous with Some old => failures old | None => 0 end + 1) in
      MkDetailRow (previous ≫= value_status) (previous ≫= value) (previous ≫= fetched_at)
        (previous ≫= expires_at) (Some category) failures
        (Some (i64_sat (now + Z.max (backoff_ms failures min max) (default 0 retry_after_ms))))
  end.

(** The [due] column of [room_detail_snapshot], and of [due_absence_types]. *)
Definition due (now : Z) (row : DetailRow) : bool :=
  match expires_at row with None => true | Some at_ => at_ <=? now end
  && match next_attempt_at row with None => true | Some at_ => at_ <=? now end.

(** *** What the rows do *)

Definition day_ms : Z := 24 * 60 * 60 * 1000.

(** A clock of the next millions of years: no sum with it saturates. *)
Definition sane_clock (now : Z) : Prop := 0 <= now <= 2 ^ 62.

Definition retry_clamped (reply : Reply) : Prop :=
  match reply with RStatus _ _ (Some r) => 0 <= r <= day_ms | _ => True end.

Lemma status_reply_clamped from_slice parse status header body now :
  retry_clamped (status_reply from_slice parse status header body now).
Proof.
  unfold status_reply, retry_clamped. destruct (option_max _ _) as [r|]; [|done]. cbn.
  change (ms MAX_RETRY_AFTER) with day_ms. unfold day_ms. lia.
Qed.

Lemma backoff_bounds n :
  ms FAILURE_BACKOFF_MIN <= backoff_ms n (ms FAILURE_BACKOFF_MIN) (ms FAILURE_BACKOFF_MAX)
    <= ms FAILURE_BACKOFF_MAX.
Proof.
  unfold backoff_ms. set (d := Z.max 0 (Z.min 30 (sat32 (n - 1)))).
  assert (1 <= Z.shiftl 1 d <= 2 ^ 30).
  { rewrite Z.shiftl_1_l. assert (0 <= d <= 30) by lia. split; [apply Z.pow_le_mono_r with (a := 2) (b := 0); lia|].
    apply Z.pow_le_mono_r; lia. }
  change (ms FAILURE_BACKOFF_MIN) with 60000. change (ms FAILURE_BACKOFF_MAX) with 1800000.
  unfold i64_sat, i64_min, i64_max. lia.
Qed.

(** The row of an outcome waits between a minute and a day. *)
Definition waits (o : DetailOutcome) : Prop :=
  match o with
  | DAnswer _ _ ttl => 60000 <= ttl <= day_ms
  | DPresent d => 60000 <= d <= day_ms
  | DFailure _ r lo hi =>
      0 <= default 0 r <= day_ms /\ lo = ms FAILURE_BACKOFF_MIN /\ hi = ms FAILURE_BACKOFF_MAX
  end.

Lemma answer_waits status v ttl :
  ttl ∈ [AVAILABLE_TTL; CONCLUSIVE_DENIAL_TTL; ABSENCE_TTL; UNSUPPORTED_TTL] ->
  waits (answer status v ttl).
Proof. unfold waits, answer. rewrite !elem_of_cons. intros [->|[->|[->|[->|[]%elem_of_nil]]]]; by vm_compute. Qed.

Lemma failure_waits c r : 0 <= default 0 r <= day_ms -> waits (failure c r).
Proof. intros Hr. exact (conj Hr (conj eq_refl eq_refl)). Qed.

Lemma interpret_waits from_slice valid_alias kind reply :
  retry_clamped reply -> waits (interpret from_slice valid_alias kind reply).
Proof.
  intros Hr. assert (0 <= default 0 (@None Z) <= day_ms) as Hn by by vm_compute.
  assert (waits invalid) as Hi by (apply failure_waits; exact Hn).
  unfold interpret. destruct reply as [body| |status errcode r|[]]; [..|apply failure_waits; exact Hn| |].
  - case_bool_decide; [by vm_compute|].
    destruct (from_slice body) as [v|]; [|exact Hi]. cbn [mbind option_bind].
    destruct (answer_body valid_alias kind v) as [o|] eqn:E; [|exact Hi]. cbn [default from_option id].
    unfold answer_body in E. destruct kind; [..|discriminate E].
    + destruct (jget _ v ≫= as_array) as [l|]; [|discriminate E]. cbn [mbind option_bind] in E.
      destruct (bool_decide (MAX_LOCAL_ALIASES < length l)%nat); injection E as <-;
        apply answer_waits; set_solver.
    + destruct (jget _ v ≫= as_str) as [l|]; [|discriminate E]. cbn [mbind option_bind] in E.
      destruct (_ || _); [|discriminate E]. injection E as <-. apply answer_waits; set_solver.
  - case_bool_decide; [exact Hi|apply answer_waits; set_solver].
  - assert (0 <= default 0 r <= day_ms) by (destruct r; [exact Hr|exact Hn]).
    repeat case_match; first [apply failure_waits; assumption|apply answer_waits; set_solver|exact Hi].
  - apply failure_waits; exact Hn.
  - apply failure_waits; exact Hn.
Qed.

Lemma next_row_quiet prev o now now' :
  waits o -> sane_clock now -> now <= now' < now + 60000 -> due now' (next_row prev o now) = false.
Proof.
  unfold waits, sane_clock, due, day_ms. intros Hw Hc Hn.
  destruct o as [st v ttl|d|c r lo hi]; cbn [next_row expires_at next_attempt_at]; apply andb_false_iff.
  - left. apply Z.leb_gt. unfold i64_sat, i64_min, i64_max. lia.
  - right. apply Z.leb_gt. unfold i64_sat, i64_min, i64_max. lia.
  - right. apply Z.leb_gt. destruct Hw as (Hr & -> & ->).
    pose proof (backoff_bounds (sat32 (match prev with Some old => failures old | None => 0 end + 1)))
      as Hb. change (ms FAILURE_BACKOFF_MIN) with 60000 in *.
    change (ms FAILURE_BACKOFF_MAX) with 1800000 in *. unfold i64_sat, i64_min, i64_max. lia.
Qed.

Lemma next_row_day prev o now now' :
  waits o -> sane_clock now -> now + day_ms <= now' ->
  (forall p e, prev = Some p -> expires_at p = Some e -> e <= now + day_ms) ->
  due now' (next_row prev o now) = true.
Proof.
  unfold waits, sane_clock, due. intros Hw Hc Hn Hp.
  destruct o as [st v ttl|d|c r lo hi]; cbn [next_row expires_at next_attempt_at]; apply andb_true_iff.
  - split; [|done]. apply Z.leb_le. unfold i64_sat, i64_min, i64_max. lia.
  - split; [done|]. apply Z.leb_le. unfold i64_sat, i64_min, i64_max. lia.
  - destruct Hw as (Hr & -> & ->). split.
    + destruct prev as [p|]; [|done]. cbn [mbind option_bind].
      destruct (expires_at p) as [e|] eqn:Ee; [|done]. apply Z.leb_le.
      specialize (Hp p e eq_refl Ee). lia.
    + apply Z.leb_le.
      pose proof (backoff_bounds (sat32 (match prev with Some old => failures old | None => 0 end + 1)))
        as Hb. change (ms FAILURE_BACKOFF_MIN) with 60000 in *.
      change (ms FAILURE_BACKOFF_MAX) with 1800000 in *. unfold i64_sat, i64_min, i64_max.
      unfold day_ms in *. lia.
Qed.

(** An answer that is load, a timeout or local never concludes anything. *)
Lemma load_is_failure from_slice valid_alias kind reply :
  gate_outcome reply ∈ [Overloaded; TimedOut; Local] ->
  exists c r, interpret from_slice valid_alias kind reply = failure c r /\
    match reply with RStatus s _ (Some r') => s = 429 \/ 500 <= s <= 599 -> r = Some r' | _ => True end.
Proof.
  intros Hg. destruct reply as [body| |status errcode r|[]]; cbn in Hg.
  1,2: set_solver.
  2-4: by eexists _, _.
  assert (status = 429 \/ 500 <= status) as Hs.
  { destruct (Z.eqb_spec status 429); [by left|]. rewrite Z.geb_leb in Hg.
    destruct (Z.leb_spec 500 status); [by right|]. cbn in Hg. set_solver. }
  cbn [interpret].
  rewrite (proj2 (Z.eqb_neq status 401)), (proj2 (Z.eqb_neq status 403)),
    (proj2 (Z.eqb_neq status 404)), (proj2 (Z.eqb_neq status 405)) by lia. cbn [andb orb].
  destruct (Z.eqb_spec status 429); [eexists _, _; split; [done|by destruct r]|].
  destruct ((500 <=? status) && (status <=? 599)) eqn:E.
  - eexists _, _. split; [done|by destruct r].
  - eexists _, _. split; [done|]. destruct r; [|done]. intros [?|?]; [done|].
    apply andb_false_iff in E as [E|E]; b2p; lia.
Qed.

Lemma absent_needs_not_found from_slice valid_alias kind reply v ttl :
  interpret from_slice valid_alias kind reply = DAnswer (t! "absent") v ttl ->
  kind = KAbsence /\ exists r, reply = RStatus 404 (Some (t! "M_NOT_FOUND")) r.
Proof.
  unfold interpret, answer. destruct reply as [body| |status errcode r|[]]; try done.
  - case_bool_decide; [done|]. destruct (from_slice body) as [b|]; [|done].
    cbn [mbind option_bind]. destruct (answer_body valid_alias kind b) as [o|] eqn:E; [|done].
    cbn [default from_option id]. intros ->. unfold answer_body, answer in E. destruct kind; [..|done].
    + destruct (jget _ b ≫= as_array) as [l|]; [|done]. cbn [mbind option_bind] in E.
      destruct (bool_decide (MAX_LOCAL_ALIASES < length l)%nat); [done|].
      destruct (bool_decide (length _ = length l)); done.
    + destruct (jget _ b ≫= as_str) as [l|]; [|done]. cbn [mbind option_bind] in E.
      by destruct (_ || _).
  - by case_bool_decide.
  - destruct (status =? 401); [done|]. destruct (status =? 403); [done|].
    destruct (bool_decide (kind = KAbsence)) eqn:Ek.
    + apply bool_decide_eq_true in Ek. destruct (Z.eqb_spec status 404) as [->|].
      * destruct (bool_decide (errcode = _)) eqn:En; cbn [andb].
        -- apply bool_decide_eq_true in En as ->. eauto.
        -- repeat case_match; done.
      * cbn [andb orb]. repeat case_match; done.
    + rewrite andb_false_r. repeat case_match; done.
Qed.

(** What a reply leaves in the cache.  No reply, whatever its kind, lets a
    read ask again within a minute, nor a rate-limiting or failing one before its
    [Retry-After]; none postpones the next request by more than a day.  Replies
    the load gate counts as overload, timeouts and local failures never replace
    or drop the cached value: they count one failure more.  An absence is
    recorded only on a [404 M_NOT_FOUND] answer to an absence request. *)
Theorem acquisition_replies from_slice valid_alias kind prev reply now :
  retry_clamped reply -> sane_clock now ->
  let row := next_row prev (interpret from_slice valid_alias kind reply) now in
  (forall now', now <= now' < now + 60000 -> due now' row = false) /\
  (forall s e r now', reply = RStatus s e (Some r) -> s = 429 \/ 500 <= s <= 599 ->
     now <= now' < now + r -> due now' row = false) /\
  (forall now', now + day_ms <= now' ->
     (forall p e, prev = Some p -> expires_at p = Some e -> e <= now + day_ms) ->
     due now' row = true) /\
  (gate_outcome reply ∈ [Overloaded; TimedOut; Local] ->
     value_status row = prev ≫= value_status /\ value row = prev ≫= value /\
     is_Some (d_failure row) /\
     (forall p, prev = Some p -> 0 <= failures p < i32_max -> failures row = failures p + 1)) /\
  (value_status row = Some (t! "absent") ->
     (kind = KAbsence /\ exists r, reply = RStatus 404 (Some (t! "M_NOT_FOUND")) r) \/
     prev ≫= value_status = Some (t! "absent")).
Proof.
  intros Hr Hc row. pose proof (interpret_waits from_slice valid_alias kind reply Hr) as Hw.
  split_and!.
  - intros now' Hn. by apply next_row_quiet.
  - intros s e r now' -> Hs Hn.
    destruct (load_is_failure from_slice valid_alias kind (RStatus s e (Some r))) as (c & r' & E & Hr').
    { cbn. rewrite Z.geb_leb. destruct Hs as [->|Hs]; [set_solver|].
      rewrite (proj2 (Z.leb_le 500 s)) by lia. rewrite orb_true_r. set_solver. }
    rewrite (Hr' Hs) in E. subst row. rewrite E. unfold due. apply andb_false_iff. right.
    cbn [failure next_row next_attempt_at default from_option id]. apply Z.leb_gt.
    unfold retry_clamped, day_ms, sane_clock in *. unfold i64_sat, i64_min, i64_max. lia.
  - intros now' Hn Hp. by apply next_row_day.
  - intros Hg. destruct (load_is_failure from_slice valid_alias kind reply Hg) as (c & r & E & _).
    subst row. rewrite E. cbn [failure next_row value_status value d_failure failures].
    split_and!; [done|done|by eexists|]. intros p -> Hf. unfold sat32, i32_max in *. lia.
  - subst row. destruct (interpret from_slice valid_alias kind reply) as [st v ttl|d|c r lo hi] eqn:E;
      cbn [next_row value_status]; [|done|by right].
    intros [= ->]. left. by eapply absent_needs_not_found.
Qed.

Definition demo_detail : DetailRow :=
  MkDetailRow (Some (t! "available")) (Some JNull) (Some 0) (Some 900000) None 0 None.

(** A 503 with [Retry-After: 120] on a row that had an answer. *)
Lemma acquisition_replies_witness :
  let reply := status_reply (fun _ => None) (fun _ => None) 503 (Some (t! "120")) None 1000000 in
  let row := next_row (Some demo_detail)
    (interpret (fun _ => None) (fun _ => true) KLocalAliases reply) 1000000 in
  due 1119999 row = false /\ value row = Some JNull /\ failures row = 1.
Proof.
  intros reply row.
  destruct (acquisition_replies (fun _ => None) (fun _ => true) KLocalAliases (Some demo_detail) reply
    1000000) as (_ & Hretry & _ & Hkeep & _).
  - apply status_reply_clamped.
  - split; vm_compute; discriminate.
  - split; [|].
    + apply (Hretry 503 None 120000); [by vm_compute|by right|by vm_compute].
    + destruct Hkeep as (_ & Hv & _ & Hf); [apply (bool_decide_unpack _); vm_compute; exact I|].
      split; [exact Hv|]. apply (Hf demo_detail); [done|by vm_compute].
Defined.

(** ** The worker *)

Inductive DetailWrite := Changed | Unchanged | Fenced.

#[export] Instance DetailWrite_eq_dec : EqDecision DetailWrite.
Proof. solve_decision. Defined.

Definition ABSENCE_ORDER : list text :=
  [t! "m.room.encryption"; t! "m.room.server_acl"; t! "m.room.join_rules";
   t! "m.room.history_visibility"; t! "m.room.guest_access"; t! "m.room.power_levels";
   t! "m.room.canonical_alias"; t! "m.room.create"].

(** What one request and one job did. *)
Record Requested := MkRequested { write : option DetailWrite; failed : bool }.
Record Ran := MkRan { changed : bool; local_failure : bool }.

Definition ran_record (write : option DetailWrite) (ran : Ran) : Ran :=
  match write with
  | Some Changed => MkRan true (local_failure ran)
  | Some _ => ran
  | None => MkRan (changed ran) true
  end.

(** What the worker asks of the queue, the store, the clock and the homeserver.
    [Get] waits for a gate permit first; it answers when the request was admitted
    (and the queue told so), when it ended, and the reply. *)
Inductive WQuestion :=
| NextJob
| JoinedEpoch (room : text)
| DetailDue (room : text) (kind : DetailKind)
| DueAbsenceTypes (room : text) (types : list text)
| SleepUntil (t : Z)
| Get (segments : list text) (read_body : bool)
| EndSending
| RecordDetail (room : text) (epoch : Z) (kind : DetailKind) (state_type : text)
    (outcome : DetailOutcome)
| FinishJob (local_failure : bool)
| MarkChanged (room : text) (source : RoomDetailSource).

(** A store call answers [None] when it failed.  [DetailDue] answers the [due]
    column of the first row, if there is one. *)
Definition wanswer (q : WQuestion) : Type :=
  match q with
  | NextJob => text * RoomDetailJob
  | JoinedEpoch _ => option (option Z)
  | DetailDue _ _ => option (option bool)
  | DueAbsenceTypes _ _ => option (list text)
  | SleepUntil _ => unit
  | Get _ _ => option Z * Z * Reply
  | EndSending => unit
  | RecordDetail _ _ _ _ _ => option DetailWrite
  | FinishJob _ => bool
  | MarkChanged _ _ => unit
  end.

Definition detail_segments (room : text) (kind : DetailKind) (state_type : text) : list text :=
  match kind with
  | KLocalAliases => [t! "rooms"; room; t! "aliases"]
  | KDirectoryVisibility => [t! "directory"; t! "list"; t! "room"; room]
  | KAbsence => [t! "rooms"; room; t! "state"; state_type; []]
  end.

Definition is_failure (o : DetailOutcome) : bool :=
  match o with DFailure _ _ _ _ => true | _ => false end.

Section Worker.
Context (from_slice : list Z -> option json) (valid_alias : text -> bool).

Abbreviation wprog := (prog wanswer).
Abbreviation wask q := (ask (ans := wanswer) q).

(** [Worker::request]; the worker's [last_request] is passed along. *)
Definition request (last : option Z) (room : text) (epoch : Z) (kind : DetailKind)
    (state_type : text) (segments : list text) : wprog (Requested * option Z) :=
  let! _ := match last with
            | Some l => let! _ := wask (SleepUntil (l + JOB_INTERVAL)) in Ret tt
            | None => Ret tt
            end in
  let! got := wask (Get segments (negb (bool_decide (kind = KAbsence)))) in
  let '(admitted_at, ended, reply) := got in
  let! _ := wask EndSending in
  let last := Some (default ended admitted_at) in
  let outcome := interpret from_slice valid_alias kind reply in
  let! write := wask (RecordDetail room epoch kind state_type outcome) in
  Ret (MkRequested write (is_failure outcome), last).

(** The loop over the due absence types. *)
Fixpoint absence_loop (last : option Z) (room : text) (epoch : Z) (ran : Ran) (types : list text)
    : wprog (Ran * option Z) :=
  match types with
  | [] => Ret (ran, last)
  | state_type :: rest =>
      let! r := request last room epoch KAbsence state_type
                  (detail_segments room KAbsence state_type) in
      let '(requested, last) := r in
      let ran := ran_record (write requested) ran in
      if failed requested || bool_decide (write requested = None) then Ret (ran, last)
      else if bool_decide (write requested = Some Fenced) then
        let! current := wask (JoinedEpoch room) in
        match current with
        | Some current =>
            if bool_decide (current = Some epoch)
            then absence_loop last room epoch ran rest
            else Ret (ran, last)
        | None => absence_loop last room epoch ran rest
        end
      else absence_loop last room epoch ran rest
  end.

Definition run_job (last : option Z) (room : text) (job : RoomDetailJob) : wprog (Ran * option Z) :=
  let ran := MkRan false false in
  let local := MkRan false true in
  let! joined := wask (JoinedEpoch room) in
  match joined with
  | None => Ret (local, last)
  | Some None => Ret (ran, last)
  | Some (Some epoch) =>
      let detail kind :=
        let! due := wask (DetailDue room kind) in
        match due with
        | None => Ret (local, last)
        | Some (Some false) => Ret (ran, last)
        | Some _ =>
            let! r := request last room epoch kind [] (detail_segments room kind []) in
            let '(requested, last) := r in
            Ret (ran_record (write requested) ran, last)
        end in
      match job with
      | LocalAliases => detail KLocalAliases
      | DirectoryVisibility => detail KDirectoryVisibility
      | Absence =>
          let! types := wask (DueAbsenceTypes room ABSENCE_ORDER) in
          match types with
          | None => Ret (local, last)
          | Some types => absence_loop last room epoch ran types
          end
      end
  end.

(** [Worker::step]. *)
Definition step_job (last : option Z) (room : text) (job : RoomDetailJob) : wprog (option Z) :=
  let! r := run_job last room job in
  let '(ran, last) := r in
  let! seen_ := wask (FinishJob (local_failure ran)) in
  if changed ran || seen_
  then let! _ := wask (MarkChanged room (frame_source job)) in Ret last
  else Ret last.

(** [Worker::run]: jobs until the run is cancelled, which may cut it anywhere; a
    run is a prefix of [jobs] of them. *)
Fixpoint run_worker (jobs : nat) (last : option Z) : wprog (option Z) :=
  match jobs with
  | O => Ret last
  | S jobs =>
      let! next := wask NextJob in
      let '(room, job) := next in
      let! last := step_job last room job in
      run_worker jobs last
  end.

End Worker.

(** ** What the worker may ask

    The job at hand: its room, the epoch read at its start, what the cache said
    is due, the last reply; and when the worker's last request was sent. *)

Record AWorld := MkAWorld {
  wnow : Z;
  job_room : text;
  job_epoch : option Z;
  job_left : bool;
  job_due : list (DetailKind * text);
  job_failed : bool;
  job_reply : option (list text * Reply);
  last_sent : option Z;
}.

Section WorkerSafe.
Context (from_slice : list Z -> option json) (valid_alias : text -> bool).

Definition set_now (t : Z) (w : AWorld) : AWorld :=
  MkAWorld t (job_room w) (job_epoch w) (job_left w) (job_due w) (job_failed w) (job_reply w)
    (last_sent w).

(** How a question and its answer change the world; time passes in between. *)
Definition after (w : AWorld) (q : WQuestion) : wanswer q -> AWorld :=
  match q with
  | NextJob => fun x => MkAWorld (wnow w) x.1 None false [] false None (last_sent w)
  | JoinedEpoch _ => fun x =>
      match x, job_epoch w with
      | Some joined, None =>
          MkAWorld (wnow w) (job_room w) joined (job_left w) (job_due w) (job_failed w)
            (job_reply w) (last_sent w)
      | Some joined, Some e =>
          MkAWorld (wnow w) (job_room w) (Some e) (negb (bool_decide (joined = Some e)))
            (job_due w) (job_failed w) (job_reply w) (last_sent w)
      | None, _ => w
      end
  | DetailDue _ kind => fun x =>
      MkAWorld (wnow w) (job_room w) (job_epoch w) (job_left w)
        (match x with Some None | Some (Some true) => [(kind, [])] | _ => [] end)
        (job_failed w) (job_reply w) (last_sent w)
  | DueAbsenceTypes _ _ => fun x =>
      MkAWorld (wnow w) (job_room w) (job_epoch w) (job_left w)
        (map (pair KAbsence) (default [] x)) (job_failed w) (job_reply w) (last_sent w)
  | SleepUntil _ => fun _ => w
  | Get segments _ => fun x =>
      MkAWorld (wnow w) (job_room w) (job_epoch w) (job_left w) (job_due w) (job_failed w)
        (Some (segments, x.2)) (Some (default x.1.2 x.1.1))
  | EndSending => fun _ => w
  | RecordDetail _ _ _ _ outcome => fun x =>
      MkAWorld (wnow w) (job_room w) (job_epoch w) (job_left w) (job_due w)
        (job_failed w || is_failure outcome || bool_decide (x = None)) (job_reply w) (last_sent w)
  | FinishJob _ => fun _ => w
  | MarkChanged _ _ => fun _ => w
  end.

(** Time passes; a sleep lasts until its instant, and a request is admitted and
    ends between its question and its answer. *)
Definition astep (w : AWorld) (q : WQuestion) (x : wanswer q) (w' : AWorld) : Prop :=
  exists t, wnow w <= t /\ w' = set_now t (after w q x) /\
  match q return wanswer q -> Prop with
  | SleepUntil u => fun _ => u <= t
  | Get _ _ => fun x =>
      wnow w <= default x.1.2 x.1.1 <= x.1.2 /\ x.1.2 <= t
  | _ => fun _ => True
  end x.

(** A request goes out for the job's room only, joined when the job began and not
    known left since; for a detail the cache calls due; at least [JOB_INTERVAL]
    after the one before; and not after a failure in the same job.  What is
    recorded is the interpretation of the reply to the request just made, under
    the epoch of the job's start. *)
Definition aallowed (q : WQuestion) (w : AWorld) : Prop :=
  match q with
  | Get segments read_body =>
      is_Some (job_epoch w) /\ job_left w = false /\ job_failed w = false /\
      (forall l, last_sent w = Some l -> l + JOB_INTERVAL <= wnow w) /\
      exists kind state_type, (kind, state_type) ∈ job_due w /\
        segments = detail_segments (job_room w) kind state_type /\
        read_body = negb (bool_decide (kind = KAbsence))
  | RecordDetail room epoch kind state_type outcome =>
      room = job_room w /\ job_epoch w = Some epoch /\ (kind, state_type) ∈ job_due w /\
      exists reply, job_reply w = Some (detail_segments room kind state_type, reply) /\
        outcome = interpret from_slice valid_alias kind reply
  | _ => True
  end.

Abbreviation asafe p w P := (swp astep aallowed p w P).

Lemma request_safe last room epoch kind st w (P : Requested * option Z -> AWorld -> Prop) :
  job_room w = room -> job_epoch w = Some epoch -> job_left w = false -> job_failed w = false ->
  (kind, st) ∈ job_due w -> last_sent w = last ->
  (forall r l w', job_room w' = room -> job_epoch w' = Some epoch -> job_left w' = false ->
     job_due w' = job_due w -> last_sent w' = l ->
     job_failed w' = failed r || bool_decide (write r = None) -> P (r, l) w') ->
  asafe (request from_slice valid_alias last room epoch kind st (detail_segments room kind st)) w P.
Proof.
  intros Hroom He Hl Hf Hd Hlast HP. unfold request. apply swp_bind.
  assert (forall w1, job_room w1 = room -> job_epoch w1 = Some epoch -> job_left w1 = false ->
    job_failed w1 = false -> job_due w1 = job_due w -> last_sent w1 = last ->
    (forall l, last = Some l -> l + JOB_INTERVAL <= wnow w1) ->
    asafe (let! got := ask (ans := wanswer)
                (Get (detail_segments room kind st) (negb (bool_decide (kind = KAbsence)))) in
           let '(admitted_at, ended, reply) := got in
           let! _ := ask (ans := wanswer) EndSending in
           let last := Some (default ended admitted_at) in
           let outcome := interpret from_slice valid_alias kind reply in
           let! write := ask (ans := wanswer) (RecordDetail room epoch kind st outcome) in
           Ret (MkRequested write (is_failure outcome), last)) w1 P) as Hsend.
  { intros w1 Hr1 He1 Hl1 Hf1 Hd1 Hs1 Hpace. apply swp_ask.
    { cbn [aallowed]. rewrite He1, Hs1, Hr1. split_and!; [by eexists|done|done|done|].
      exists kind, st. rewrite Hd1. done. }
    intros [[adm ended] reply] w2 (t2 & _ & -> & _). apply swp_ask; [done|].
    intros ? w3 (t3 & _ & -> & _). cbv zeta. apply swp_ask.
    { cbn. rewrite Hd1. split_and!; [done|done|done|]. exists reply. done. }
    intros wr w4 (t4 & _ & -> & _). cbn [swp]. apply HP; cbn; try done. by rewrite Hf1. }
  destruct last as [l|]; [|cbn [swp]; by apply Hsend].
  apply swp_ask; [done|]. intros ? w1 (t1 & Ht1 & -> & Hsl). cbn [swp].
  apply Hsend; try done. intros l' [= <-]. cbn. done.
Qed.

Lemma absence_loop_safe last room epoch ran types w (P : Ran * option Z -> AWorld -> Prop) :
  job_room w = room -> job_epoch w = Some epoch -> job_left w = false -> job_failed w = false ->
  (forall ty, ty ∈ types -> (KAbsence, ty) ∈ job_due w) -> last_sent w = last ->
  (forall r w', last_sent w' = r.2 -> P r w') ->
  asafe (absence_loop from_slice valid_alias last room epoch ran types) w P.
Proof.
  revert last ran w. induction types as [|ty rest IH]; intros last ran w Hroom He Hl Hf Hd Hlast HP.
  { cbn. by apply HP. }
  cbn [absence_loop]. apply swp_bind. apply request_safe; [done..|by apply Hd; left|done|].
  intros r l w1 Hr1 He1 Hl1 Hd1 Hs1 Hf1. cbv zeta.
  destruct (failed r || bool_decide (write r = None)) eqn:Efail; [cbn; by apply HP|].
  assert (forall w2, job_room w2 = room -> job_epoch w2 = Some epoch -> job_left w2 = false ->
    job_failed w2 = false -> job_due w2 = job_due w -> last_sent w2 = l ->
    asafe (absence_loop from_slice valid_alias l room epoch (ran_record (write r) ran) rest) w2 P)
    as Hrest.
  { intros w2 ? ? ? ? Ed ?. apply IH; try done. intros ty' Hty. rewrite Ed. apply Hd. by right. }
  destruct (bool_decide (write r = Some Fenced)); [|by apply Hrest].
  apply swp_ask; [done|]. intros current w2 (t2 & _ & -> & _). cbn [after]. rewrite He1.
  destruct current as [current|]; [|by apply Hrest].
  destruct (bool_decide (current = Some epoch)) eqn:Ec; [|cbn; by apply HP].
  by apply Hrest.
Qed.

Lemma run_job_safe last room job w (P : Ran * option Z -> AWorld -> Prop) :
  job_room w = room -> job_epoch w = None -> job_left w = false -> job_failed w = false ->
  last_sent w = last -> (forall r w', last_sent w' = r.2 -> P r w') ->
  asafe (run_job from_slice valid_alias last room job) w P.
Proof.
  intros Hroom He Hl Hf Hlast HP. unfold run_job. apply swp_ask; [done|].
  intros joined w1 (t1 & _ & -> & _). cbn [after]. rewrite He.
  destruct joined as [[epoch|]|]; [|by apply HP..].
  set (w1 := set_now t1 _).
  assert (forall kind, asafe (let! due := ask (ans := wanswer) (DetailDue room kind) in
      match due with
      | None => Ret (MkRan false true, last)
      | Some (Some false) => Ret (MkRan false false, last)
      | Some _ =>
          let! r := request from_slice valid_alias last room epoch kind []
                      (detail_segments room kind []) in
          let '(requested, last) := r in
          Ret (ran_record (write requested) (MkRan false false), last)
      end) w1 P) as Hdetail.
  { intros kind. apply swp_ask; [done|]. intros due w2 (t2 & _ & -> & _).
    destruct due as [[[]|]|]; [| |..]; try (cbn; by apply HP);
      (apply swp_bind, request_safe; [done..|by left|done|]; intros; cbn; by apply HP). }
  destruct job; [apply Hdetail..|].
  apply swp_ask; [done|]. intros types w2 (t2 & _ & -> & _).
  destruct types as [types|]; [|cbn; by apply HP].
  apply absence_loop_safe; try done. intros ty Hty. cbn. apply list_elem_of_fmap. eauto.
Qed.

Lemma run_worker_safe jobs last w :
  last_sent w = last ->
  asafe (run_worker from_slice valid_alias jobs last) w (fun _ _ => True).
Proof.
  revert last w. induction jobs as [|jobs IH]; intros last w Hlast; [done|]. cbn [run_worker].
  apply swp_ask; [done|]. intros [room job] w1 (t1 & _ & -> & _). apply swp_bind. unfold step_job.
  apply swp_bind, run_job_safe; try done. intros [ran l] w2 Hl.
  apply swp_ask; [done|]. intros seen_ w3 (t3 & _ & -> & _).
  destruct (changed ran || seen_); [|cbn; by apply IH].
  apply swp_ask; [done|]. intros ? w4 (t4 & _ & -> & _). cbn. by apply IH.
Qed.

(** However the queue, the store and the homeserver answer, and wherever the
    run is cut, each request the worker sends is for a room joined when its job
    began and not known left since, for a detail that is due, at least 250 ms
    after the previous one, and never after a failure in the same job; and each
    outcome it records is the interpretation of the reply to that very request,
    under the membership epoch read when the job began. *)
Theorem worker_requests_allowed jobs w q w' :
  last_sent w = None ->
  asks astep (run_worker from_slice valid_alias jobs None) w q w' -> aallowed q w'.
Proof. intros Hl Ha. eapply swp_asks; [|exact Ha]. by apply run_worker_safe. Qed.

End WorkerSafe.

Definition idle_worker : AWorld := MkAWorld 0 [] None false [] false None None.
Definition asking_worker : AWorld :=
  MkAWorld 3 (t! "!a:x") (Some 4) false [(KLocalAliases, [])] false None None.

Lemma demo_worker_asks from_slice valid_alias :
  asks astep (run_worker from_slice valid_alias 1 None) idle_worker
    (Get [t! "rooms"; t! "!a:x"; t! "aliases"] true) asking_worker.
Proof.
  cbn. right. exists (t! "!a:x", LocalAliases), (set_now 1 (after idle_worker NextJob (t! "!a:x", LocalAliases))).
  split; [exists 1; by split_and!|]. cbn.
  right. exists (Some (Some 4)), (MkAWorld 2 (t! "!a:x") (Some 4) false [] false None None).
  split; [exists 2; by split_and!|]. cbn.
  right. exists (Some (Some true)), asking_worker.
  split; [exists 3; by split_and!|]. cbn. by left.
Qed.

Lemma worker_requests_allowed_witness :
  aallowed (fun _ => None) (fun _ => true) (Get [t! "rooms"; t! "!a:x"; t! "aliases"] true) asking_worker.
Proof.
  apply (worker_requests_allowed (fun _ => None) (fun _ => true) 1 idle_worker); [reflexivity|].
  apply demo_worker_asks.
Defined.
