(* ===== verification/Cursor.v ===== *)
(** * Pagination cursors

    Models [crates/axon-api/src/cursor.rs]: the opaque timeline, search and
    space-hierarchy cursors.  Base64, serde_json and SHA-256 are third-party:
    an interface with their documented laws, and a concrete instance of base64
    for the witnesses. *)

From stdpp Require Import base gmap sets list strings.
From Stdlib Require Import ZArith Lia.
From S2P Require Import Prelude Text.

(** ** [URL_SAFE_NO_PAD] *)

Definition is_byte (b : Z) : Prop := 0 <= b < 256.
#[export] Instance is_byte_dec b : Decision (is_byte b).
Proof. unfold is_byte. apply _. Defined.

(** The base64 engine: decoding inverts encoding, and [n] bytes encode to
    [ceil (4 n / 3)] ASCII characters. *)
Class Base64 := {
  b64_encode : list Z -> text;
  b64_decode : text -> option (list Z);
  b64_roundtrip bs : Forall is_byte bs -> b64_decode (b64_encode bs) = Some bs;
  b64_length bs : Forall is_byte bs ->
    Z.of_nat (length (b64_encode bs)) = (4 * Z.of_nat (length bs) + 2) / 3;
  b64_ascii bs : Forall is_byte bs -> is_ascii (b64_encode bs);
}.

(** *** A concrete engine *)

Definition b64_char (n : Z) : Z :=
  if n <? 26 then 65 + n else if n <? 52 then 71 + n else if n <? 62 then n - 4
  else if n =? 62 then 45 else 95.
Definition b64_value (c : Z) : option Z :=
  if (65 <=? c) && (c <=? 90) then Some (c - 65)
  else if (97 <=? c) && (c <=? 122) then Some (c - 71)
  else if (48 <=? c) && (c <=? 57) then Some (c + 4)
  else if c =? 45 then Some 62 else if c =? 95 then Some 63 else None.

Fixpoint enc64 (bs : list Z) : text :=
  match bs with
  | [] => []
  | [a] => [b64_char (a / 4); b64_char (a mod 4 * 16)]
  | [a; b] => [b64_char (a / 4); b64_char (a mod 4 * 16 + b / 16); b64_char (b mod 16 * 4)]
  | a :: b :: c :: r =>
      b64_char (a / 4) :: b64_char (a mod 4 * 16 + b / 16)
      :: b64_char (b mod 16 * 4 + c / 64) :: b64_char (c mod 64) :: enc64 r
  end.

Fixpoint dec64 (t : text) : option (list Z) :=
  match t with
  | [] => Some []
  | [x; y] =>
      x ← b64_value x; y ← b64_value y;
      if y mod 16 =? 0 then Some [x * 4 + y / 16] else None
  | [x; y; z] =>
      x ← b64_value x; y ← b64_value y; z ← b64_value z;
      if z mod 4 =? 0 then Some [x * 4 + y / 16; y mod 16 * 16 + z / 4] else None
  | x :: y :: z :: w :: r =>
      x ← b64_value x; y ← b64_value y; z ← b64_value z; w ← b64_value w;
      rest ← dec64 r;
      Some (x * 4 + y / 16 :: y mod 16 * 16 + z / 4 :: z mod 4 * 64 + w :: rest)
  | _ => None
  end.

Lemma b64_char_spec n :
  0 <= n < 64 -> b64_value (b64_char n) = Some n /\ 0 <= b64_char n < 128.
Proof.
  intros Hn. assert (forallb (fun n => bool_decide (b64_value (b64_char n) = Some n)
    && (0 <=? b64_char n) && (b64_char n <? 128)) (seqZ 0 64) = true) as Hall
    by (vm_compute; reflexivity).
  rewrite forallb_forall in Hall.
  specialize (Hall n ltac:(apply list_elem_of_In, elem_of_seqZ; lia)). b2p.
  by apply bool_decide_eq_true in H.
Qed.

Lemma b64_value_char n : 0 <= n < 64 -> b64_value (b64_char n) = Some n.
Proof. apply b64_char_spec. Qed.

(** Induction three bytes at a time. *)
Lemma list_ind3 {A} (P : list A -> Prop) :
  P [] -> (forall a, P [a]) -> (forall a b, P [a; b]) ->
  (forall a b c r, P r -> P (a :: b :: c :: r)) -> forall l, P l.
Proof.
  intros H0 H1 H2 H3. fix IH 1. intros [|a [|b [|c r]]]; [done|done|done|]. apply H3, IH.
Qed.

Lemma digit_mod x k y : 0 <= y < k -> (x * k + y) mod k = y.
Proof. intros Hy. rewrite Z.add_comm, Z.mod_add by lia. by apply Z.mod_small. Qed.
Lemma digit_div x k y : 0 <= y < k -> (x * k + y) / k = x.
Proof. intros Hy. rewrite Z.div_add_l by lia. rewrite Z.div_small by done. lia. Qed.

(** The sextets of bytes are sextets, and put back together give the bytes. *)
Lemma nibble b : is_byte b -> 0 <= b / 16 < 16.
Proof. intros [? ?]. split; [apply Z.div_pos|apply Z.div_lt_upper_bound]; lia. Qed.
Lemma crumb c : is_byte c -> 0 <= c / 64 < 4.
Proof. intros [? ?]. split; [apply Z.div_pos|apply Z.div_lt_upper_bound]; lia. Qed.
Lemma sextet_hi a : is_byte a -> 0 <= a / 4 < 64.
Proof. intros [? ?]. split; [apply Z.div_pos|apply Z.div_lt_upper_bound]; lia. Qed.
Lemma sextet_2 a b : is_byte b -> 0 <= a mod 4 * 16 + b / 16 < 64.
Proof.
  intros [? ?]. pose proof (Z.mod_pos_bound a 4). pose proof (Z.div_pos b 16).
  pose proof (Z.div_lt_upper_bound b 16 16). lia.
Qed.
Lemma sextet_2' a : 0 <= a mod 4 * 16 < 64.
Proof. pose proof (Z.mod_pos_bound a 4). lia. Qed.
Lemma sextet_3 b c : is_byte c -> 0 <= b mod 16 * 4 + c / 64 < 64.
Proof.
  intros [? ?]. pose proof (Z.mod_pos_bound b 16). pose proof (Z.div_pos c 64).
  pose proof (Z.div_lt_upper_bound c 64 4). lia.
Qed.
Lemma sextet_3' b : 0 <= b mod 16 * 4 < 64.
Proof. pose proof (Z.mod_pos_bound b 16). lia. Qed.
Lemma sextet_lo c : 0 <= c mod 64 < 64.
Proof. apply Z.mod_pos_bound. lia. Qed.

#[export] Hint Resolve sextet_hi sextet_2 sextet_2' sextet_3 sextet_3' sextet_lo : axon.

Lemma join_1 a b : is_byte b -> a / 4 * 4 + (a mod 4 * 16 + b / 16) / 16 = a.
Proof. intros Hb. rewrite digit_div by by apply nibble. pose proof (Z.div_mod a 4). lia. Qed.
Lemma join_2 a b c : is_byte b -> is_byte c ->
  (a mod 4 * 16 + b / 16) mod 16 * 16 + (b mod 16 * 4 + c / 64) / 4 = b.
Proof.
  intros Hb Hc. rewrite digit_mod, digit_div by auto using nibble, crumb.
  pose proof (Z.div_mod b 16). lia.
Qed.
Lemma join_3 b c : is_byte c -> (b mod 16 * 4 + c / 64) mod 4 * 64 + c mod 64 = c.
Proof.
  intros Hc. rewrite digit_mod by by apply crumb. pose proof (Z.div_mod c 64). lia.
Qed.

Lemma enc64_roundtrip bs : Forall is_byte bs -> dec64 (enc64 bs) = Some bs.
Proof.
  induction bs as [|a|a b|a b c r IH] using list_ind3; intros H;
    repeat match goal with H : Forall _ (_ :: _) |- _ => apply Forall_cons in H as [? H] end; [done| | |].
  - cbn [enc64 dec64]. rewrite !b64_value_char by auto with axon.
    cbn [mbind option_bind]. rewrite Z.mod_mul, Z.eqb_refl, Z.div_mul by lia.
    pose proof (Z.div_mod a 4). do 2 f_equal. lia.
  - cbn [enc64 dec64]. rewrite !b64_value_char by auto with axon.
    cbn [mbind option_bind]. rewrite Z.mod_mul, Z.eqb_refl by lia. rewrite join_1 by done.
    pose proof (join_2 a b 0 ltac:(done) ltac:(unfold is_byte; lia)) as E.
    rewrite Z.div_0_l, Z.add_0_r in E by lia. by rewrite E.
  - cbn [enc64 dec64]. rewrite !b64_value_char by auto with axon.
    cbn [mbind option_bind]. rewrite IH by done. cbn [mbind option_bind].
    by rewrite join_1, join_2, join_3.
Qed.

Lemma enc64_length bs : Z.of_nat (length (enc64 bs)) = (4 * Z.of_nat (length bs) + 2) / 3.
Proof.
  induction bs as [|a|a b|a b c r IH] using list_ind3; [done|done|done|].
  cbn [enc64 length]. rewrite !Nat2Z.inj_succ, IH.
  replace (4 * Z.succ (Z.succ (Z.succ (Z.of_nat (length r)))) + 2)
    with (4 * Z.of_nat (length r) + 2 + 4 * 3) by lia.
  rewrite Z.div_add by lia. lia.
Qed.

Lemma enc64_ascii bs : Forall is_byte bs -> is_ascii (enc64 bs).
Proof.
  induction bs as [|a|a b|a b c r IH] using list_ind3; intros H;
    repeat match goal with H : Forall _ (_ :: _) |- _ => apply Forall_cons in H as [? H] end;
    cbn [enc64]; repeat (apply Forall_cons; split; [apply b64_char_spec; auto with axon|]);
    [constructor|constructor|constructor|by apply IH].
Qed.

#[export] Instance base64 : Base64 := {|
  b64_encode := enc64; b64_decode := dec64; b64_roundtrip := enc64_roundtrip;
  b64_length bs _ := enc64_length bs; b64_ascii := enc64_ascii;
|}.

(** ** Timeline cursors *)

Definition MAX_ENCODED_LEN : Z := 64.

(** The store's sort key; both fields are [i64]. *)
Record TimelineCursor := MkTimelineCursor { origin_ts : Z; id : Z }.

Definition is_i64 (n : Z) : Prop := i64_min <= n <= i64_max.
Definition is_u64 (n : Z) : Prop := 0 <= n <= u64_max.

Definition DOT : Z := 46.

Definition from_ts (ts : Z) : TimelineCursor := {| origin_ts := ts; id := i64_max |}.

(** ** Space-hierarchy cursors *)

Definition MAX_HIERARCHY_ENCODED_LEN : Z := 4096.
Definition MAX_HIERARCHY_ORDER_LEN : Z := 50.
Definition MAX_HIERARCHY_ROOM_ID_BYTES : Z := 255.

Record HierarchyCursorWire := MkHierarchyCursorWire {
  s : text;
  o : option text;
  t : Z;
  r : text;
}.

(** The store's keyset position [SpaceHierarchyCursor]. *)
Record SpaceHierarchyCursor := MkSpaceHierarchyCursor {
  order : option text;
  h_origin_ts : Z;
  room_id : text;
}.

(** [format!("{b:02x}")]. *)
Definition hex_digit (n : Z) : Z := if n <? 10 then 48 + n else 87 + n.
Definition hex_byte (b : Z) : text := [hex_digit (b / 16); hex_digit (b mod 16)].

(** The bounds the store issues positions within. *)
Definition order_ok (order : option text) : bool :=
  match order with
  | None => true
  | Some o =>
      (utf8_len o <=? MAX_HIERARCHY_ORDER_LEN)
      && forallb (fun b => (32 <=? b) && (b <=? 126)) (utf8_encode o)
  end.
Definition room_ok (r : text) : bool :=
  (utf8_len r <=? MAX_HIERARCHY_ROOM_ID_BYTES) && negb (bool_decide (0 ∈ r)).

Section Cursors.
Context `{Base64}.

Definition encode (cursor : TimelineCursor) : text :=
  b64_encode (utf8_encode (dec (origin_ts cursor) ++ DOT :: dec (id cursor))).

Definition decode (s : text) : option TimelineCursor :=
  if utf8_len s >? MAX_ENCODED_LEN then None
  else
    bytes ← b64_decode s;
    text ← utf8_decode bytes;
    '(ts, i) ← split_once DOT text;
    origin_ts ← parse_i64 ts;
    id ← parse_i64 i;
    Some {| origin_ts := origin_ts; id := id |}.

Definition encode_offset (offset : Z) : text := b64_encode (utf8_encode (dec offset)).

Definition decode_offset (s : text) : option Z :=
  if utf8_len s >? MAX_ENCODED_LEN then None
  else
    bytes ← b64_decode s;
    text ← utf8_decode bytes;
    parse_u64 text.

Definition decode_offset_bounded (s : text) (max : Z) : option Z :=
  offset ← decode_offset s;
  if offset <=? max then Some offset else None.

(** [sha2::Sha256] and [serde_json] on the wire struct. *)
Context (sha256 : list Z -> list Z).
Context (to_vec : HierarchyCursorWire -> list Z).
Context (from_slice : list Z -> option HierarchyCursorWire).

Definition hierarchy_scope (account_id : list Z) (space_room_id : text) : text :=
  take 8 (sha256 (account_id ++ utf8_encode space_room_id)) ≫= hex_byte.

Definition hierarchy_wire (account_id : list Z) (space_room_id : text)
    (cursor : SpaceHierarchyCursor) : HierarchyCursorWire :=
  {| s := hierarchy_scope account_id space_room_id;
     o := order cursor; t := h_origin_ts cursor; r := room_id cursor |}.

Definition encode_hierarchy (account_id : list Z) (space_room_id : text)
    (cursor : SpaceHierarchyCursor) : text :=
  b64_encode (to_vec (hierarchy_wire account_id space_room_id cursor)).

Definition decode_hierarchy (account_id : list Z) (space_room_id : text) (input : text)
    : option SpaceHierarchyCursor :=
  if utf8_len input >? MAX_HIERARCHY_ENCODED_LEN then None
  else
    bytes ← b64_decode input;
    wire ← from_slice bytes;
    if order_ok (o wire) && room_ok (r wire)
       && text_eqb (s wire) (hierarchy_scope account_id space_room_id)
    then Some {| order := o wire; h_origin_ts := t wire; room_id := r wire |}
    else None.

End Cursors.

(** ** The laws the cursors need *)

Lemma b64_utf8_len `{Base64} bs :
  Forall is_byte bs -> utf8_len (b64_encode bs) = (4 * Z.of_nat (length bs) + 2) / 3.
Proof.
  intros Hb. rewrite utf8_len_ascii; [by apply b64_length|].
  eapply Forall_impl; [by apply b64_ascii|]. simpl. lia.
Qed.

Lemma ascii_bytes u : is_ascii u -> Forall is_byte u.
Proof. intros Hu. eapply Forall_impl; [exact Hu|]. unfold is_byte. simpl. lia. Qed.

(** Short ASCII text wrapped in base64 is read back. *)
Lemma wrapped_ascii `{Base64} u :
  is_ascii u -> (length u <= 47)%nat ->
  (utf8_len (b64_encode (utf8_encode u)) >? MAX_ENCODED_LEN) = false /\
  b64_decode (b64_encode (utf8_encode u)) = Some u /\ utf8_decode u = Some u.
Proof.
  intros Hu Hl. rewrite utf8_encode_ascii by done. apply ascii_bytes in Hu as Hb.
  split_and!; [|by apply b64_roundtrip|by apply utf8_decode_ascii].
  rewrite b64_utf8_len by done. unfold MAX_ENCODED_LEN.
  assert ((4 * Z.of_nat (length u) + 2) / 3 < 64) by (apply Z.div_lt_upper_bound; lia).
  destruct (Z.gtb_spec ((4 * Z.of_nat (length u) + 2) / 3) 64); [lia|done].
Qed.

Lemma dec_ascii n : is_ascii (dec n).
Proof. eapply Forall_impl; [apply dec_chars|]. simpl. lia. Qed.

Lemma dec_no_dot n : DOT ∉ dec n.
Proof.
  intros Hin. pose proof (dec_chars n) as Hc. rewrite Forall_forall in Hc.
  apply Hc in Hin. unfold DOT in Hin. lia.
Qed.

Lemma parse_int_range lo hi u n : parse_int lo hi u = Some n -> lo <= n <= hi.
Proof.
  unfold parse_int. intros Hp. repeat case_match; try done; simplify_option_eq;
    repeat case_match; simplify_eq; b2p; lia.
Qed.

(** ** Timeline cursors *)

(** Every sort key the store can produce survives the wire: its cursor is
    within the length limit and decodes to the same key.  Conversely an accepted
    cursor is at most 64 bytes long and yields two [i64] fields. *)
Theorem timeline_cursor_roundtrip `{Base64} :
  (forall c, is_i64 (origin_ts c) -> is_i64 (id c) -> decode (encode c) = Some c) /\
  (forall input c, decode input = Some c ->
     utf8_len input <= MAX_ENCODED_LEN /\ is_i64 (origin_ts c) /\ is_i64 (id c)).
Proof.
  split.
  - intros [ts i] Hts Hi. cbn [origin_ts id] in *. unfold encode, decode. cbn [origin_ts id].
    assert (is_ascii (dec ts ++ DOT :: dec i)) as Ha.
    { apply Forall_app. split; [apply dec_ascii|]. constructor; [done|apply dec_ascii]. }
    destruct (wrapped_ascii _ Ha) as (-> & -> & Hu).
    { rewrite length_app. cbn [length]. pose proof (dec_i64_length ts Hts).
      pose proof (dec_i64_length i Hi). lia. }
    cbn [mbind option_bind]. rewrite Hu. cbn [mbind option_bind].
    rewrite (proj2 (split_once_spec DOT _ (dec ts) (dec i))) by (split; [done|apply dec_no_dot]).
    cbn [mbind option_bind]. unfold parse_i64.
    by rewrite !parse_int_dec by done.
  - intros input c Hd. unfold decode in Hd.
    destruct (utf8_len input >? MAX_ENCODED_LEN) eqn:E; [done|].
    simplify_option_eq. destruct H2 as [ts i]. simplify_option_eq.
    split; [|split; eapply parse_int_range; eassumption].
    rewrite Z.gtb_ltb in E. by apply Z.ltb_ge in E.
Qed.

Lemma timeline_cursor_roundtrip_witness :
  decode (encode {| origin_ts := i64_min; id := i64_max |})
    = Some {| origin_ts := i64_min; id := i64_max |}.
Proof.
  apply (proj1 timeline_cursor_roundtrip); (split; vm_compute; discriminate).
Defined.

(** ** Search offsets *)

Lemma dec_u64_length n : is_u64 n -> (length (dec n) <= 20)%nat.
Proof.
  unfold is_u64, u64_max. intros Hn. unfold dec.
  destruct (n <? 0) eqn:E; b2p; [lia|]. unfold dec_unsigned.
  etrans; [apply (digits_length _ _ _ 20); lia|]. simpl. lia.
Qed.

(** A search offset survives the wire exactly when it is within the caller's
    cap, and no string at all, forged ones included, decodes to an offset past
    the cap or outside [usize]. *)
Theorem offset_cursor_bounded `{Base64} max :
  (forall n, is_u64 n ->
     decode_offset_bounded (encode_offset n) max = if n <=? max then Some n else None) /\
  (forall input n, decode_offset_bounded input max = Some n ->
     is_u64 n /\ n <= max /\ utf8_len input <= MAX_ENCODED_LEN).
Proof.
  unfold decode_offset_bounded, decode_offset, encode_offset. split.
  - intros n Hn. destruct (wrapped_ascii (dec n) (dec_ascii n)) as (-> & -> & Hu).
    { pose proof (dec_u64_length n Hn). lia. }
    cbn [mbind option_bind]. rewrite Hu. cbn [mbind option_bind]. unfold parse_u64.
    by rewrite parse_int_dec by (unfold is_u64 in Hn; lia).
  - intros input n Hd. destruct (utf8_len input >? MAX_ENCODED_LEN) eqn:E; [done|].
    rewrite Z.gtb_ltb in E. apply Z.ltb_ge in E.
    simplify_option_eq. case_match; simplify_eq. b2p.
    split_and!; [by eapply parse_int_range|done|done].
Qed.

Lemma offset_cursor_bounded_witness :
  decode_offset_bounded (encode_offset u64_max) 10000 = None /\
  decode_offset_bounded (encode_offset 10000) 10000 = Some 10000.
Proof.
  split; rewrite (proj1 (offset_cursor_bounded 10000)) by (split; vm_compute; discriminate);
    reflexivity.
Defined.

(** ** Space-hierarchy cursors *)

Lemma hex_byte_ascii b : is_byte b -> is_ascii (hex_byte b).
Proof.
  intros Hb. apply nibble in Hb as Hh. pose proof (Z.mod_pos_bound b 16).
  unfold hex_byte, hex_digit.
  repeat (apply Forall_cons; split; [case_match; b2p; lia|]). constructor.
Qed.

Lemma hex_ascii l :
  Forall is_byte l ->
  is_ascii (l ≫= hex_byte) /\ length (l ≫= hex_byte) = (2 * length l)%nat.
Proof.
  induction 1 as [|b l Hb _ [IHa IHl]]; [split; [constructor|reflexivity]|].
  change ((b :: l) ≫= hex_byte) with (hex_byte b ++ (l ≫= hex_byte)).
  split; [apply Forall_app_2; [by apply hex_byte_ascii|exact IHa]|].
  rewrite length_app, IHl. cbn [length hex_byte]. lia.
Qed.

Lemma scope_ascii sha256 a sp :
  (forall m, Forall is_byte (sha256 m)) ->
  is_ascii (hierarchy_scope sha256 a sp) /\ (length (hierarchy_scope sha256 a sp) <= 16)%nat.
Proof.
  intros Hs. unfold hierarchy_scope. set (d := sha256 (a ++ utf8_encode sp)).
  destruct (hex_ascii (take 8 d)) as [Ha Hl]; [apply Forall_take, Hs|].
  split; [done|]. rewrite Hl, length_take. lia.
Qed.

(** What [serde_json] promises on a wire struct: it reads back what it wrote, in
    bytes, and spends at most six bytes on a byte of a string beside the
    punctuation and the integer. *)
Record serde_laws (to_vec : HierarchyCursorWire -> list Z)
    (from_slice : list Z -> option HierarchyCursorWire) (w : HierarchyCursorWire) : Prop := {
  serde_reads : from_slice (to_vec w) = Some w;
  serde_bytes : Forall is_byte (to_vec w);
  serde_length : Z.of_nat (length (to_vec w))
    <= 47 + 6 * (utf8_len (s w) + utf8_len (default [] (o w)) + utf8_len (r w));
}.

(** A position the store issued (its order printable and at most 50
    characters, its room id at most 255 bytes without a NUL) decodes to itself
    for the account and space it was issued for, since its cursor stays within
    the length limit, and is refused under any other scope.  And no input,
    minted or not, is accepted outside those bounds or without the scope's tag. *)
Theorem hierarchy_cursor_in_scope `{Base64} sha256 to_vec from_slice :
  (forall m, Forall is_byte (sha256 m)) ->
  (forall a sp c a' sp',
     order_ok (order c) = true -> room_ok (room_id c) = true ->
     serde_laws to_vec from_slice (hierarchy_wire sha256 a sp c) ->
     decode_hierarchy sha256 from_slice a' sp' (encode_hierarchy sha256 to_vec a sp c)
     = if text_eqb (hierarchy_scope sha256 a sp) (hierarchy_scope sha256 a' sp')
       then Some c else None) /\
  (forall a sp input c,
     decode_hierarchy sha256 from_slice a sp input = Some c ->
     order_ok (order c) = true /\ room_ok (room_id c) = true /\
     b64_decode input ≫= from_slice = Some (hierarchy_wire sha256 a sp c)).
Proof.
  intros Hsha. split.
  - intros a sp c a' sp' Ho Hr [Hrd Hby Hln].
    destruct (scope_ascii sha256 a sp Hsha) as [Hsa Hsl].
    unfold decode_hierarchy, encode_hierarchy.
    rewrite b64_roundtrip by done. rewrite b64_utf8_len by done.
    assert (utf8_len (room_id c) <= 255) as Hrl.
    { unfold room_ok, MAX_HIERARCHY_ROOM_ID_BYTES in Hr. b2p. lia. }
    assert (utf8_len (default [] (order c)) <= 50) as Hol.
    { destruct (order c) as [u|]; [|simpl; lia].
      unfold order_ok, MAX_HIERARCHY_ORDER_LEN in Ho. b2p. simpl. lia. }
    assert (utf8_len (hierarchy_scope sha256 a sp) <= 16) as Hscl.
    { rewrite utf8_len_ascii; [lia|]. eapply Forall_impl; [exact Hsa|]. simpl. lia. }
    cbn [hierarchy_wire s o r] in Hln.
    match goal with |- context [?x >? MAX_HIERARCHY_ENCODED_LEN] =>
      assert (x <= MAX_HIERARCHY_ENCODED_LEN) as Hle end.
    { apply Z.lt_succ_r, Z.div_lt_upper_bound; unfold MAX_HIERARCHY_ENCODED_LEN; lia. }
    rewrite Z.gtb_ltb, (proj2 (Z.ltb_ge _ _) Hle). cbn [mbind option_bind]. rewrite Hrd.
    cbn [mbind option_bind hierarchy_wire s o r t]. rewrite Ho, Hr. cbn [andb].
    by destruct c.
  - intros a sp input c Hd. unfold decode_hierarchy in Hd.
    destruct (utf8_len input >? MAX_HIERARCHY_ENCODED_LEN); [done|].
    destruct (b64_decode input) as [bs|]; [|done]. cbn [mbind option_bind] in *.
    destruct (from_slice bs) as [[ws wo wt wr]|]; [|done].
    cbn [mbind option_bind s o r t] in *.
    destruct (order_ok wo && room_ok wr && text_eqb ws (hierarchy_scope sha256 a sp)) eqn:E;
      [|done].
    simplify_eq. apply andb_true_iff in E as [[Ho Hr]%andb_true_iff He].
    apply bool_decide_eq_true in He as ->. by split_and!.
Qed.

(** *** Concrete parameters for the witness: a one-byte digest and a codec that
    separates the fields by NUL. *)
Definition toy_digest (m : list Z) : list Z := [foldl (fun a b => (31 * a + b) mod 256) 7 m].
Definition toy_vec (w : HierarchyCursorWire) : list Z :=
  utf8_encode (s w ++ [0] ++ dec (t w) ++ [0]
    ++ match o w with Some o => 43 :: o | None => [] end ++ [0] ++ r w).
Definition toy_slice (bs : list Z) : option HierarchyCursorWire :=
  text ← utf8_decode bs;
  '(s, u) ← split_once 0 text;
  '(t, u) ← split_once 0 u;
  '(o, r) ← split_once 0 u;
  t ← parse_i64 t;
  Some {| s := s; o := match o with _ :: o => Some o | [] => None end; t := t; r := r |}.

Lemma toy_digest_bytes m : Forall is_byte (toy_digest m).
Proof.
  unfold toy_digest. constructor; [|constructor]. unfold is_byte.
  induction m as [|b m _] using rev_ind; [simpl; lia|]. rewrite foldl_app. simpl.
  apply Z.mod_pos_bound. lia.
Qed.

Definition toy_position : SpaceHierarchyCursor :=
  {| order := Some (t! "a b"); h_origin_ts := -5; room_id := 33 :: t! "é:x" |}.

Lemma hierarchy_cursor_in_scope_witness :
  decode_hierarchy toy_digest toy_slice [1] (t! "!space:x")
    (encode_hierarchy toy_digest toy_vec [1] (t! "!space:x") toy_position)
    = Some toy_position /\
  decode_hierarchy toy_digest toy_slice [2] (t! "!space:x")
    (encode_hierarchy toy_digest toy_vec [1] (t! "!space:x") toy_position) = None.
Proof.
  split;
    (rewrite (proj1 (hierarchy_cursor_in_scope toy_digest toy_vec toy_slice toy_digest_bytes));
     [vm_compute; reflexivity|vm_compute; reflexivity|vm_compute; reflexivity|]);
    (split; [vm_compute; reflexivity| |vm_compute; discriminate]);
    apply (bool_decide_unpack _); vm_compute; exact I.
Defined.
