(* ===== verification/Backfill.v ===== *)
(** * History backfill

    Models [crates/axon-sync/src/backfill.rs], the task that pages each joined
    room's history backward, and the [room_backfill] table it keeps its progress
    in ([crates/axon-store/src/backfill.rs]).  The engine is a program over the
    store, the disk, the homeserver and the cancellation token; the table is a
    map from room to row whose operations are the SQL statements, and purges may
    delete its rows between any two of the task's questions. *)

From stdpp Require Import base gmap sets list strings.
From Stdlib Require Import ZArith Lia.
From Stdlib Require SpecFloat.
From S2P Require Import Prelude Text Effects.
Open Scope prog_scope.

(** ** Failure policy (ADR 0121) *)

Definition RETRY_BASE : Z := secs 60.
Definition RETRY_MAX : Z := secs (60 * 60).
Definition PARK_AFTER : Z := 5.
Definition PARK_FOR : Z := secs (24 * 60 * 60).

Inductive PageFailure := Rejected | Inaccessible | Retryable.

Inductive PageOutcome := Paged | Idle | Failed (failure : PageFailure) | Abandoned.

#[export] Instance PageFailure_eq_dec : EqDecision PageFailure.
Proof. solve_decision. Defined.

Definition failure_str (f : PageFailure) : text :=
  match f with
  | Rejected => t! "rejected"
  | Inaccessible => t! "inaccessible"
  | Retryable => t! "retryable"
  end.

(** [PageFailure::of_status]; [None] is a failure without a response. *)
Definition of_status (status : option Z) (had_token : bool) : PageFailure :=
  match status with
  | Some s =>
      if (s =? 400) && had_token then Rejected
      else if (s =? 403) || (s =? 404) then Inaccessible
      else Retryable
  | None => Retryable
  end.

(** [i32::saturating_add] and [saturating_sub] by one. *)
Definition i32_min : Z := - 2 ^ 31.
Definition i32_sat (z : Z) : Z := Z.max i32_min (Z.min i32_max z).

Definition retry_delay (failures : Z) : Z :=
  let doublings := Z.max 0 (Z.min 16 (i32_sat (failures - 1))) in
  Z.min (dur_saturating_mul RETRY_BASE (Z.shiftl 1 doublings)) RETRY_MAX.

Record RoomBackfillFailure := MkFailure {
  kind : text;
  retry_after : Z;
  f_parked : bool;
  clear_token : bool;
}.

Definition failure_record (failure : PageFailure) (prior prior_rejections : Z)
    : RoomBackfillFailure :=
  let failures := i32_sat (prior + 1) in
  let '(retry_after, parked, clear_token) :=
    match failure with
    | Rejected => if prior_rejections >? 0 then (PARK_FOR, true, true) else (0, false, true)
    | Inaccessible => (PARK_FOR, true, false)
    | Retryable =>
        if failures >=? PARK_AFTER then (PARK_FOR, true, false)
        else (retry_delay failures, false, false)
    end in
  {| kind := failure_str failure; retry_after := retry_after;
     f_parked := parked; clear_token := clear_token |}.

(** ** The [room_backfill] table

    The rows of one account, by room id; [retry_at] is a database time. *)

Record Row := MkRow {
  oldest_seen_token : option text;
  complete : bool;
  events_backfilled : Z;
  consecutive_failures : Z;
  last_failure : option text;
  retry_at : option Z;
  parked : bool;
  token_rejections : Z;
}.

(** The columns' defaults. *)
Definition new_row : Row := MkRow None false 0 0 None None false 0.

Abbreviation table := (gmap text Row).

(** [RoomBackfillState], what [CURSOR_COLUMNS] selects of a row. *)
Record RoomBackfillState := MkState {
  s_token : option text;
  s_complete : bool;
  s_events : Z;
  s_failures : Z;
  retry_due : bool;
  s_parked : bool;
  s_rejections : Z;
}.

(** [retry_at IS NULL OR retry_at <= now()]. *)
Definition due_at (now : Z) (row : Row) : bool :=
  match retry_at row with None => true | Some at_ => at_ <=? now end.

Definition state_of (now : Z) (row : Row) : RoomBackfillState :=
  {| s_token := oldest_seen_token row; s_complete := complete row;
     s_events := events_backfilled row; s_failures := consecutive_failures row;
     retry_due := due_at now row; s_parked := parked row;
     s_rejections := token_rejections row |}.

Definition list_room_backfill (now : Z) (tbl : table) : gmap text RoomBackfillState :=
  state_of now <$> tbl.

(** An [INTEGER] or [BIGINT] column's arithmetic, an error on overflow. *)
Definition sql_int (max : Z) (z : Z) : option Z := if z <=? max then Some z else None.

Definition save_room_backfill (room : text) (token : option text) (done_ : bool) (added : Z)
    (tbl : table) : option table :=
  let old := default new_row (tbl !! room) in
  total ← sql_int i64_max (events_backfilled old + added);
  Some (<[room :=
    {| oldest_seen_token := token; complete := done_; events_backfilled := total;
       consecutive_failures := 0; last_failure := None; retry_at := None; parked := false;
       token_rejections := token_rejections old |}]> tbl).

Definition record_room_backfill_failure (now : Z) (room : text) (f : RoomBackfillFailure)
    (tbl : table) : option table :=
  let old := default new_row (tbl !! room) in
  failures ← sql_int i32_max (consecutive_failures old + 1);
  rejections ← sql_int i32_max (token_rejections old + (if clear_token f then 1 else 0));
  Some (<[room :=
    {| oldest_seen_token := if clear_token f then None else oldest_seen_token old;
       complete := complete old; events_backfilled := events_backfilled old;
       consecutive_failures := failures; last_failure := Some (kind f);
       retry_at := Some (now + retry_after f); parked := f_parked f;
       token_rejections := rejections |}]> tbl).

Definition clear_room_backfill_failures (room : text) (tbl : table) : table :=
  alter (fun row =>
    {| oldest_seen_token := oldest_seen_token row; complete := complete row;
       events_backfilled := events_backfilled row; consecutive_failures := 0;
       last_failure := None; retry_at := None; parked := false;
       token_rejections := token_rejections row |}) room tbl.

(** ** Configuration *)

(** The [sync.backfill_*] settings the task reads, and [data_dir]. *)
Record SyncConfig := MkSyncConfig {
  backfill_page_size : Z;
  backfill_target_depth : Z;
  backfill_throttle_ms : Z;
  backfill_page_timeout_secs : Z;
  backfill_idle_poll_secs : Z;
  backfill_min_free_bytes : Z;
  backfill_min_free_percent : SpecFloat.spec_float;
  backfill_disk_guard_path : option text;
  data_dir : text;
}.

Record BackfillParams := MkParams {
  page_size : Z;
  target_depth : Z;
  throttle : Z;
  page_timeout : Z;
  idle_poll : Z;
  min_free_bytes : Z;
  min_free_percent : SpecFloat.spec_float;
  guard_path_ : text;
}.

Definition guard_path (c : SyncConfig) : text :=
  match backfill_disk_guard_path c with Some p => p | None => data_dir c end.

Definition from_config (c : SyncConfig) : BackfillParams :=
  {| page_size := Z.max (backfill_page_size c) 1;
     target_depth := backfill_target_depth c;
     throttle := millis (backfill_throttle_ms c);
     page_timeout := secs (Z.max (backfill_page_timeout_secs c) 1);
     idle_poll := secs (Z.max (backfill_idle_poll_secs c) 1);
     min_free_bytes := backfill_min_free_bytes c;
     min_free_percent := backfill_min_free_percent c;
     guard_path_ := guard_path c |}.

(** [f64] arithmetic: IEEE 754 binary64. *)
Definition f64_of_u64 (n : Z) : SpecFloat.spec_float := SpecFloat.binary_normalize 53 1024 n 0 false.
Definition f64_div := SpecFloat.SFdiv 53 1024.
Definition f64_mul := SpecFloat.SFmul 53 1024.

(** [disk_ok]'s test of the free and total bytes of the guarded filesystem. *)
Definition disk_low (params : BackfillParams) (free total : Z) : bool :=
  let pct :=
    if total >? 0 then f64_mul (f64_div (f64_of_u64 free) (f64_of_u64 total)) (f64_of_u64 100)
    else f64_of_u64 100 in
  (free <? min_free_bytes params) || SpecFloat.SFltb pct (min_free_percent params).

(** ** The engine *)

(** What ruma makes of a raw event, as far as [needs_decryption] looks. *)
Inductive TimelineKind := OriginalEncrypted | OtherEvent.

(** A failed [/messages] call: the status of the homeserver's answer, if it gave
    one; or the page timeout. *)
Inductive FetchError := Homeserver (status : option Z) | TimedOut.

Section Engine.
Context {Raw Event : Type}.
(** [Raw::deserialize_as], the SDK's [TimelineEvent::from_plaintext]. *)
Context (deserialize_as : Raw -> option TimelineKind).
Context (from_plaintext : Raw -> Event).
Context (params : BackfillParams).

(** [Room::messages]' request: the room, the page size and the [from] token. *)
Record Request := MkRequest { req_room : text; req_limit : Z; req_from : option text }.

(** What the task awaits or touches outside itself. *)
Inductive BQuestion :=
| IsCancelled
| ListCursors
| JoinedRooms
| Statvfs (path : text)
| SetPaused (p : bool)
| GateCall (timeout : Z) (request : Request)
| DecryptEvent (raw : Raw)
| Persist (room : text) (e : Event)
| SaveCursor (room : text) (token : option text) (done_ : bool) (added : Z)
| RecordFailure (room : text) (f : RoomBackfillFailure)
| ClearFailures (room : text)
| SleepFor (d : Z).

(** The answers.  A store call answers [false] when it failed.  [GateCall] and
    [DecryptEvent] are awaited inside a [select!] with the cancellation, whose
    branch is the answer [None]; so is a sleep, which answers whether it was
    cancelled. *)
Definition banswer (q : BQuestion) : Type :=
  match q with
  | IsCancelled => bool
  | ListCursors => option (gmap text RoomBackfillState)
  | JoinedRooms => list text
  | Statvfs _ => option (Z * Z)
  | SetPaused _ => bool
  | GateCall _ _ => option (sum FetchError (list Raw * option text))
  | DecryptEvent _ => option (option Event)
  | Persist _ _ => unit
  | SaveCursor _ _ _ _ => bool
  | RecordFailure _ _ => bool
  | ClearFailures _ => bool
  | SleepFor _ => bool
  end.

Abbreviation bprog := (prog banswer).

Definition set_paused (p : bool) : bprog bool := ask (ans := banswer) (SetPaused p).

(** [disk_ok]. *)
Definition disk_ok : bprog bool :=
  let! stats := ask (ans := banswer) (Statvfs (guard_path_ params)) in
  let paused := match stats with
    | Some (free, total) => disk_low params free total
    | None => false
    end in
  let! _ := set_paused paused in
  Ret (negb paused).

Definition needs_decryption (raw : Raw) : bool :=
  match deserialize_as raw with Some OriginalEncrypted => true | _ => false end.

(** [decrypt_paged_event]; [None] is a cancellation during the decryption. *)
Definition decrypt_paged_event (raw : Raw) : bprog (option Event) :=
  if needs_decryption raw then
    let! r := ask (ans := banswer) (DecryptEvent raw) in
    match r with
    | None => Ret None
    | Some (Some event) => Ret (Some event)
    | Some None => Ret (Some (from_plaintext raw))
    end
  else Ret (Some (from_plaintext raw)).

Fixpoint decrypt_chunk (chunk : list Raw) : bprog (option (list Event)) :=
  match chunk with
  | [] => Ret (Some [])
  | raw :: rest =>
      let! r := decrypt_paged_event raw in
      match r with
      | None => Ret None
      | Some event =>
          let! rs := decrypt_chunk rest in
          Ret (cons event <$> rs)
      end
  end.

(** [fetch_page] inside the caller's [select!]: [None] is a cancellation. *)
Definition fetch_page (request : Request)
    : bprog (option (sum FetchError (list Event * option text))) :=
  let! r := ask (ans := banswer) (GateCall (page_timeout params) request) in
  match r with
  | None => Ret None
  | Some (inl err) => Ret (Some (inl err))
  | Some (inr (chunk, end_)) =>
      let! events := decrypt_chunk chunk in
      Ret ((fun events => inr (events, end_)) <$> events)
  end.

(** The persisting loop; [false] when cancelled between two events. *)
Fixpoint persist_all (room : text) (events : list Event) : bprog bool :=
  match events with
  | [] => Ret true
  | e :: rest =>
      let! cancelled := ask (ans := banswer) IsCancelled in
      if cancelled then Ret false
      else let! _ := ask (ans := banswer) (Persist room e) in persist_all room rest
  end.

Definition backfill_room_page (room : text) (state : option RoomBackfillState) : bprog PageOutcome :=
  let '(from_token, done_, count, failing) :=
    match state with
    | Some s => (s_token s, s_complete s, s_events s, s_parked s || (s_failures s >? 0))
    | None => (None, false, 0, false)
    end in
  if done_ then Ret Idle
  else if negb (target_depth params =? 0) && (wrap64 count >=? target_depth params) then
    if failing then let! _ := ask (ans := banswer) (ClearFailures room) in Ret Idle
    else Ret Idle
  else
    let had_token := bool_decide (is_Some from_token) in
    let! r := fetch_page (MkRequest room (page_size params) from_token) in
    match r with
    | None => Ret Abandoned
    | Some (inl (Homeserver status)) => Ret (Failed (of_status status had_token))
    | Some (inl TimedOut) => Ret (Failed Retryable)
    | Some (inr (events, end_)) =>
        let! persisted := persist_all room events in
        if negb persisted then Ret Abandoned
        else
          let fetched := Z.of_nat (length events) in
          let! saved := ask (ans := banswer)
            (SaveCursor room end_ (bool_decide (end_ = None)) fetched) in
          if negb saved then Ret Abandoned
          else Ret (if fetched >? 0 then Paged else Idle)
    end.

(** [record_failure], less its log lines. *)
Definition record_failure (room : text) (state : option RoomBackfillState)
    (failure : PageFailure) : bprog unit :=
  let prior := match state with Some s => s_failures s | None => 0 end in
  let prior_rejections := match state with Some s => s_rejections s | None => 0 end in
  let! _ := ask (ans := banswer)
    (RecordFailure room (failure_record failure prior prior_rejections)) in
  Ret tt.

(** How a sweep over the rooms ended: the task returned on a cancellation, or the
    loop was left with its [progressed] flag. *)
Inductive SweepEnd := Returned | Swept (progressed : bool).

Fixpoint sweep (cursors : gmap text RoomBackfillState) (rooms : list text) (progressed : bool)
    : bprog SweepEnd :=
  match rooms with
  | [] => Ret (Swept progressed)
  | room :: rest =>
      let! cancelled := ask (ans := banswer) IsCancelled in
      if cancelled then Ret Returned
      else
        let state := cursors !! room in
        if match state with Some s => s_complete s | None => false end
        then sweep cursors rest progressed
        else if match state with Some s => negb (retry_due s) | None => false end
        then sweep cursors rest progressed
        else
          let! ok := disk_ok in
          if negb ok then Ret (Swept progressed)
          else
            let! outcome := backfill_room_page room state in
            match outcome with
            | Paged =>
                let! cancelled := ask (ans := banswer) (SleepFor (throttle params)) in
                if cancelled then Ret Returned else sweep cursors rest true
            | Idle | Abandoned => sweep cursors rest progressed
            | Failed failure =>
                let! _ := record_failure room state failure in
                sweep cursors rest progressed
            end
  end.

(** One turn of [run]'s loop; [true] when the task returned. *)
Definition run_turn : bprog bool :=
  let! cancelled := ask (ans := banswer) IsCancelled in
  if cancelled then Ret true
  else
    let! listed := ask (ans := banswer) ListCursors in
    match listed with
    | None => ask (ans := banswer) (SleepFor (idle_poll params))
    | Some cursors =>
        let! rooms := ask (ans := banswer) JoinedRooms in
        let! swept := sweep cursors rooms false in
        match swept with
        | Returned => Ret true
        | Swept true => Ret false
        | Swept false => ask (ans := banswer) (SleepFor (idle_poll params))
        end
    end.

(** [run]: turns until the task returns; the loop has no bound, so a run is a
    prefix of [turns] of it.  [true] when the task returned. *)
Fixpoint run (turns : nat) : bprog bool :=
  match turns with
  | O => Ret false
  | S turns =>
      let! returned := run_turn in
      if returned then Ret true else run turns
  end.

End Engine.

(** ** The world the task runs in

    The database (its clock and the account's rows), the last answer about the
    disk, whether the task has seen its cancellation, and the rows its last listing
    read.  Only this task writes rows, but a purge of a room or of the account
    ([purge_room], [delete_event_batches]) may delete them at any time. *)

Record BWorld := MkWorld {
  now : Z;
  tbl : table;
  disk : option (option (Z * Z));
  seen : bool;
  listed : table;
}.

Section World.
Context {Raw Event : Type}.
Context (deserialize_as : Raw -> option TimelineKind) (from_plaintext : Raw -> Event).
Context (params : BackfillParams).

Abbreviation question := (@BQuestion Raw Event).
Abbreviation answer := (@banswer Raw Event).

(** A write that failed may have been applied. *)
Definition written (ok : bool) (update : option table) (t t' : table) : Prop :=
  Some t' = update \/ (ok = false /\ t' = t).

(** A statement of the task among the deletions of others. *)
Definition wrote (w w' : BWorld) (ok : bool) (update : table -> option table) : Prop :=
  exists t t', t ⊆ tbl w /\ written ok (update t) t t' /\ tbl w' ⊆ t'.

(** What the environment may answer.  Any time may pass, and rows may be deleted, at
    every question; a cancelled token stays cancelled; [joined_rooms] lists a room
    once; every other answer is free. *)
Definition wstep (w : BWorld) (q : question) : answer q -> BWorld -> Prop :=
  let kept (w' : BWorld) := tbl w' ⊆ tbl w /\ disk w' = disk w /\ listed w' = listed w in
  match q with
  | IsCancelled => fun x w' =>
      now w <= now w' /\ kept w' /\ (seen w = true -> x = true) /\ seen w' = x
  | ListCursors => fun x w' =>
      now w <= now w' /\ disk w' = disk w /\ seen w' = seen w /\
      ((x = None /\ tbl w' ⊆ tbl w /\ listed w' = listed w) \/
       exists at_, now w <= at_ <= now w' /\ x = Some (list_room_backfill at_ (listed w')) /\
         listed w' ⊆ tbl w /\ tbl w' ⊆ listed w')
  | JoinedRooms => fun x w' => now w <= now w' /\ kept w' /\ seen w' = seen w /\ NoDup x
  | Statvfs _ => fun x w' =>
      now w <= now w' /\ tbl w' ⊆ tbl w /\ listed w' = listed w /\ disk w' = Some x /\ seen w' = seen w
  | SetPaused _ => fun x w' => now w <= now w' /\ kept w' /\ seen w' = seen w
  | GateCall _ _ => fun x w' =>
      now w <= now w' /\ kept w' /\ seen w' = seen w || bool_decide (x = None)
  | DecryptEvent _ => fun x w' =>
      now w <= now w' /\ kept w' /\ seen w' = seen w || bool_decide (x = None)
  | Persist _ _ => fun x w' => now w <= now w' /\ kept w' /\ seen w' = seen w
  | SaveCursor room token done_ added => fun ok w' =>
      now w <= now w' /\ disk w' = disk w /\ listed w' = listed w /\ seen w' = seen w /\
      wrote w w' ok (save_room_backfill room token done_ added)
  | RecordFailure room f => fun ok w' =>
      now w <= now w' /\ disk w' = disk w /\ listed w' = listed w /\ seen w' = seen w /\
      wrote w w' ok (record_room_backfill_failure (now w') room f)
  | ClearFailures room => fun ok w' =>
      now w <= now w' /\ disk w' = disk w /\ listed w' = listed w /\ seen w' = seen w /\
      wrote w w' ok (fun t => Some (clear_room_backfill_failures room t))
  | SleepFor d => fun cancelled w' =>
      kept w' /\ seen w' = seen w || cancelled /\
      now w + (if cancelled then 0 else Z.max 0 d) <= now w'
  end.

(** ** What the task may ask *)

Definition row_of (t : table) (room : text) : Row := default new_row (t !! room).

(** A row is still the one that was read, or a purge has deleted it. *)
Definition current (w : BWorld) (room : text) : Prop :=
  tbl w !! room = listed w !! room \/ tbl w !! room = None.

(** The rows' invariant: a room with no recorded failure is neither parked nor
    waiting, a failing one has a class and a retry time, and a complete room has
    neither token nor failures. *)
Definition row_ok (r : Row) : Prop :=
  0 <= events_backfilled r <= i64_max /\
  0 <= consecutive_failures r <= i32_max /\ 0 <= token_rejections r <= i32_max /\
  (consecutive_failures r = 0 <-> retry_at r = None) /\
  (consecutive_failures r = 0 <-> last_failure r = None) /\
  (parked r = true -> 0 < consecutive_failures r) /\
  (complete r = true -> oldest_seen_token r = None /\ consecutive_failures r = 0).

Definition table_ok (t : table) : Prop := map_Forall (fun _ r => row_ok r) t.

Definition at_cap (r : Row) : bool :=
  negb (target_depth params =? 0) && (wrap64 (events_backfilled r) >=? target_depth params).

(** The last [statvfs] failed or found enough room. *)
Definition disk_allows (w : BWorld) : Prop :=
  match disk w with
  | Some (Some (free, total)) => disk_low params free total = false
  | Some None => True
  | None => False
  end.

(** A request asks for one page of an unfinished room below its cap, from the
    token of its row, with the room's backoff or park interval over, and the disk not
    low.  The row is the one this sweep read; the database still holds it, unless a
    purge deleted it since. *)
Definition page_allowed (w : BWorld) (timeout : Z) (r : Request) : Prop :=
  let row := row_of (listed w) (req_room r) in
  timeout = page_timeout params /\ req_limit r = page_size params /\
  req_from r = oldest_seen_token row /\
  complete row = false /\ at_cap row = false /\ due_at (now w) row = true /\
  disk_allows w /\ current w (req_room r).

Definition allowed (q : question) (w : BWorld) : Prop :=
  table_ok (tbl w) /\
  (seen w = true -> match q with IsCancelled | SleepFor _ => True | _ => False end) /\
  match q with
  | GateCall timeout r => page_allowed w timeout r
  | SaveCursor room token done_ added =>
      complete (row_of (tbl w) room) = false /\ current w room /\ (done_ = true <-> token = None) /\ 0 <= added
  | RecordFailure room f =>
      let row := row_of (listed w) room in
      complete (row_of (tbl w) room) = false /\ current w room /\
      exists failure, f = failure_record failure (consecutive_failures row) (token_rejections row)
  | ClearFailures room => at_cap (row_of (listed w) room) = true /\ current w room
  | _ => True
  end.

End World.

(** ** The statements keep the rows in order *)

Lemma row_of_ok t room : table_ok t -> row_ok (row_of t room).
Proof.
  intros Ht. unfold row_of. destruct (t !! room) as [r|] eqn:E; simpl; [by eapply Ht|].
  repeat split; simpl; try done; try lia; unfold i64_max, i32_max; lia.
Qed.

Lemma table_ok_sub t t' : t' ⊆ t -> table_ok t -> table_ok t'.
Proof. intros Hs Ht r row E. eapply Ht, lookup_weaken; done. Qed.

(** A deletion leaves a row as it was, or takes it. *)
Lemma sub_row (t t' : table) room : t' ⊆ t -> t' !! room = t !! room \/ t' !! room = None.
Proof.
  intros Hs. destruct (t' !! room) as [r|] eqn:E; [left|by right]. symmetry. by eapply lookup_weaken.
Qed.

Lemma sub_unfinished t t' room :
  t' ⊆ t -> complete (row_of t room) = false -> complete (row_of t' room) = false.
Proof. intros Hs. unfold row_of. by destruct (sub_row t t' room Hs) as [->| ->]. Qed.

Lemma sql_int_spec max z n : sql_int max z = Some n -> n = z /\ z <= max.
Proof. unfold sql_int. case_match; [|done]. intros [= ->]. b2p. done. Qed.

Lemma save_table_ok room token done_ added t t' :
  table_ok t -> (done_ = true <-> token = None) -> 0 <= added ->
  save_room_backfill room token done_ added t = Some t' -> table_ok t'.
Proof.
  intros Ht Hd Ha Hs. pose proof (row_of_ok t room Ht) as (He & _ & Hrej & _). unfold row_of in *.
  unfold save_room_backfill in Hs. destruct (sql_int _ _) as [n|] eqn:En; [|done].
  apply sql_int_spec in En as [-> ?]. injection Hs as <-. apply map_Forall_insert_2; [|done].
  repeat split; simpl; try done; try lia; try (unfold i32_max; lia); try apply Hrej; naive_solver.
Qed.

Lemma record_table_ok at_ room f t t' :
  table_ok t -> complete (row_of t room) = false ->
  record_room_backfill_failure at_ room f t = Some t' -> table_ok t'.
Proof.
  intros Ht Hc Hs. pose proof (row_of_ok t room Ht) as (He & Hf & Hrej & _). unfold row_of in *.
  unfold record_room_backfill_failure in Hs.
  destruct (sql_int _ (consecutive_failures _ + 1)) as [n|] eqn:En; [|done].
  cbn [mbind option_bind] in Hs.
  destruct (sql_int _ (token_rejections _ + _)) as [m|] eqn:Em; [|done].
  apply sql_int_spec in En as [-> ?], Em as [-> ?]. injection Hs as <-.
  apply map_Forall_insert_2; [|done].
  repeat split; simpl; try done; try lia; try (destruct (clear_token f); lia);
    simpl in *; congruence.
Qed.

Lemma clear_table_ok room t : table_ok t -> table_ok (clear_room_backfill_failures room t).
Proof.
  intros Ht r row. unfold clear_room_backfill_failures.
  destruct (decide (r = room)) as [->|Hne]; [|rewrite lookup_alter_ne by done; apply Ht].
  rewrite lookup_alter_eq. destruct (t !! room) as [old|] eqn:E; [|done]. intros [= <-].
  destruct (Ht _ _ E) as (? & ? & ? & _ & _ & _ & Hc).
  repeat split; simpl; try done; try lia; try (unfold i32_max; lia); by apply Hc.
Qed.

(** The statements touch their own room's row only. *)
Lemma save_other room token done_ added t t' r :
  save_room_backfill room token done_ added t = Some t' -> r <> room -> t' !! r = t !! r.
Proof.
  unfold save_room_backfill. destruct (sql_int _ _); [|done]. intros [= <-] ?.
  by rewrite lookup_insert_ne.
Qed.
Lemma record_other at_ room f t t' r :
  record_room_backfill_failure at_ room f t = Some t' -> r <> room -> t' !! r = t !! r.
Proof.
  unfold record_room_backfill_failure.
  destruct (sql_int _ (consecutive_failures _ + 1)); [|done]. cbn [mbind option_bind].
  destruct (sql_int _ _); [|done]. intros [= <-] ?. by rewrite lookup_insert_ne.
Qed.
Lemma clear_other room t r : r <> room -> clear_room_backfill_failures room t !! r = t !! r.
Proof. intros. unfold clear_room_backfill_failures. by rewrite lookup_alter_ne. Qed.

(** ** The engine only asks what it may *)

Section Safe.
Context {Raw Event : Type}.
Context (deserialize_as : Raw -> option TimelineKind) (from_plaintext : Raw -> Event).
Context (params : BackfillParams).

Abbreviation safe p w P :=
  (swp (@wstep Raw Event) (allowed params) p w P).

(** Nothing was written; some time passed, and rows may have been deleted. *)
Definition steady (w w' : BWorld) : Prop :=
  tbl w' ⊆ tbl w /\ disk w' = disk w /\ listed w' = listed w /\ now w <= now w'.

Lemma steady_trans w1 w2 w3 : steady w1 w2 -> steady w2 w3 -> steady w1 w3.
Proof.
  unfold steady. intros (? & ? & ? & ?) (? & ? & ? & ?).
  split_and!; [by etrans|congruence|congruence|lia].
Qed.
Lemma steady_refl w : steady w w.
Proof. by unfold steady. Qed.

(** Only the row of [room] was written. *)
Definition follows (room : text) (w w' : BWorld) : Prop :=
  now w <= now w' /\ table_ok (tbl w') /\ listed w' = listed w /\
  forall r, r <> room -> tbl w' !! r = tbl w !! r \/ tbl w' !! r = None.

Lemma follows_steady room w w' : table_ok (tbl w) -> steady w w' -> follows room w w'.
Proof.
  intros Ht (E & _ & ? & ?). split_and!; [done|by eapply table_ok_sub|done|].
  intros r _. by apply sub_row.
Qed.
Lemma follows_trans room w1 w2 w3 : follows room w1 w2 -> follows room w2 w3 -> follows room w1 w3.
Proof.
  intros (? & _ & ? & H1) (? & ? & ? & H2). split_and!; [lia|done|congruence|]. intros r Hr.
  destruct (H1 r Hr), (H2 r Hr); [left; congruence|by right|right; congruence|by right].
Qed.
Lemma follows_current room w w' r : follows room w w' -> r <> room -> current w r -> current w' r.
Proof.
  unfold current. intros (_ & _ & -> & H) Hr [E|E]; destruct (H r Hr) as [E'|E'];
    [left|right..]; congruence.
Qed.
Lemma steady_current w w' r : steady w w' -> current w r -> current w' r.
Proof.
  unfold current. intros (Hs & _ & -> & _) [E|E]; destruct (sub_row _ _ r Hs) as [E'|E'];
    [left|right..]; congruence.
Qed.

(** Discharge the permission to ask the question at hand. *)
Ltac same_table :=
  first [assumption
        |match goal with E : tbl ?w ⊆ _ |- table_ok (tbl ?w) =>
           apply (table_ok_sub _ _ E); clear E; same_table end].
Ltac permit := split; [split; [same_table|split; [congruence|try done]]|].

Lemma disk_ok_safe w :
  table_ok (tbl w) -> seen w = false ->
  safe (disk_ok params) w (fun ok w' =>
    tbl w' ⊆ tbl w /\ listed w' = listed w /\ now w <= now w' /\ seen w' = false /\
    (ok = true -> disk_allows params w')).
Proof.
  intros Ht Hs. cbn. permit. intros x w1 (? & E & El & Hd & Hs1).
  permit. intros p w2 (? & (E2 & Hd2 & El2) & Hs2).
  split_and!; [by etrans|congruence|lia|congruence|]. unfold disk_allows. rewrite Hd2, Hd.
  destruct x as [[free total]|]; [|done]. by intros ->%negb_true_iff.
Qed.

Lemma decrypt_chunk_safe chunk w :
  table_ok (tbl w) -> seen w = false ->
  safe (decrypt_chunk deserialize_as from_plaintext chunk) w (fun r w' =>
    steady w w' /\ (r <> None -> seen w' = false)).
Proof.
  revert w. induction chunk as [|raw rest IH]; intros w Ht Hs.
  { cbn. split; [apply steady_refl|done]. }
  cbn [decrypt_chunk]. apply swp_bind. unfold decrypt_paged_event.
  assert (forall w' e, steady w w' -> seen w' = false ->
    safe (bind (decrypt_chunk deserialize_as from_plaintext rest)
           (fun rs => Ret (cons e <$> rs))) w'
      (fun r w' => steady w w' /\ (r <> None -> seen w' = false))) as Hrest.
  { intros w' e Hw Hs'. apply swp_bind. eapply swp_mono; [apply IH|].
    - destruct Hw as [? _]. same_table.
    - done.
    - intros rs w2 [H2 Hrs]. cbn. split; [by eapply steady_trans|]. destruct rs; [by auto|done]. }
  destruct (needs_decryption deserialize_as raw); [|cbn; by apply Hrest; [apply steady_refl|]].
  cbn. permit. intros x w' (? & (? & ? & ?) & Hs'). rewrite Hs in Hs'.
  assert (steady w w') by by unfold steady.
  destruct x as [[e|]|]; cbn in *; [by apply Hrest..|]. by split.
Qed.

Lemma fetch_page_safe request w :
  table_ok (tbl w) -> seen w = false ->
  page_allowed params w (page_timeout params) request ->
  safe (fetch_page deserialize_as from_plaintext params request) w (fun r w' =>
    steady w w' /\ (r <> None -> seen w' = false)).
Proof.
  intros Ht Hs Hp. cbn. permit. intros x w1 (? & (? & ? & ?) & Hs1).
  rewrite Hs in Hs1. assert (steady w w1) as Hw1 by by unfold steady.
  destruct x as [[err|[chunk end_]]|]; cbn in *; [by split|..|by split].
  apply swp_bind. eapply swp_mono; [apply decrypt_chunk_safe; [same_table|done]|].
  intros r w2 [Hw2 Hr]. cbn. split; [by eapply steady_trans|]. destruct r; [by auto|done].
Qed.

Lemma persist_all_safe room events w :
  table_ok (tbl w) -> seen w = false ->
  safe (persist_all (Raw := Raw) room events) w (fun ok w' =>
    steady w w' /\ (ok = true -> seen w' = false)).
Proof.
  revert w. induction events as [|e rest IH]; intros w Ht Hs; [by repeat split|].
  cbn. permit. intros c w1 (? & (E & Hd & El) & _ & Hs1).
  assert (steady w w1) as Hw1 by by unfold steady.
  destruct c; [by split|]. cbn. permit. intros _ w2 (? & (E2 & Hd2 & El2) & Hs2).
  assert (steady w1 w2) as Hw12 by by unfold steady.
  eapply swp_mono; [apply IH; [same_table|congruence]|]. intros ok w3 [Hw3 Hok]. split; [|done].
  by eapply steady_trans; [|eapply steady_trans].
Qed.

(** The sweep read [state] of the row it listed, and the row is still current. *)
Definition synced (room : text) (state : option RoomBackfillState) (w : BWorld) : Prop :=
  current w room /\ exists t, t <= now w /\ state = state_of t <$> listed w !! room.

Lemma synced_steady room state w w' : synced room state w -> steady w w' -> synced room state w'.
Proof.
  intros (Hc & t & ? & ->) Hs. split; [by eapply steady_current|]. exists t.
  destruct Hs as (_ & _ & -> & ?). split; [lia|done].
Qed.

(** What a synced state says of the row. *)
Lemma synced_row room state w :
  synced room state w ->
  match state with Some s => s_token s | None => None end
    = oldest_seen_token (row_of (listed w) room) /\
  match state with Some s => s_complete s | None => false end
    = complete (row_of (listed w) room) /\
  match state with Some s => s_events s | None => 0 end
    = events_backfilled (row_of (listed w) room) /\
  match state with Some s => s_failures s | None => 0 end
    = consecutive_failures (row_of (listed w) room) /\
  match state with Some s => s_rejections s | None => 0 end
    = token_rejections (row_of (listed w) room) /\
  (match state with Some s => negb (retry_due s) | None => false end = false ->
   due_at (now w) (row_of (listed w) room) = true).
Proof.
  intros (_ & t & Ht & ->). unfold row_of. destruct (listed w !! room) as [r|]; simpl; [|done].
  split_and!; try done. intros Hd%negb_false_iff. unfold due_at in *.
  destruct (retry_at r); [|done]. apply Z.leb_le in Hd. apply Z.leb_le. lia.
Qed.

(** A current row is unfinished if the listed one is: a deleted row is as good as new. *)
Lemma current_unfinished w room :
  current w room -> complete (row_of (listed w) room) = false ->
  complete (row_of (tbl w) room) = false.
Proof. unfold current, row_of. by intros [->| ->]. Qed.

Lemma wrote_follows room ok u w w' :
  table_ok (tbl w) -> now w <= now w' -> listed w' = listed w -> wrote w w' ok u ->
  (forall t t', t ⊆ tbl w -> table_ok t -> u t = Some t' ->
     table_ok t' /\ forall r, r <> room -> t' !! r = t !! r) ->
  follows room w w'.
Proof.
  intros Ht Hn Hl (t & t' & Hs & Hw & Hs') Hu.
  assert (table_ok t) as Htt by by eapply table_ok_sub.
  assert (table_ok t' /\ forall r, r <> room -> t' !! r = t !! r) as [Ht' Ho].
  { destruct Hw as [E|[_ ->]]; [|done]. by eapply Hu. }
  split_and!; [done|by eapply table_ok_sub|done|]. intros r Hr.
  destruct (sub_row _ _ r Hs') as [->|]; [|by right]. rewrite Ho by done. by apply sub_row.
Qed.

(** The state the engine works with, as the row has it. *)
Lemma synced_state room state w :
  synced room state w ->
  match state with Some s => s_complete s | None => false end = false ->
  exists failing, match state with
    | Some s => (s_token s, s_complete s, s_events s, s_parked s || (s_failures s >? 0))
    | None => (None, false, 0, false)
    end = (oldest_seen_token (row_of (listed w) room), false,
           events_backfilled (row_of (listed w) room), failing).
Proof.
  intros Hsy Hc. destruct (synced_row _ _ _ Hsy) as (Etok & _ & Eev & _).
  destruct state as [st|]; eexists; by rewrite <- Etok, <- Eev, ?Hc.
Qed.

Lemma room_page_safe room state w :
  table_ok (tbl w) -> seen w = false -> synced room state w ->
  match state with Some s => s_complete s | None => false end = false ->
  match state with Some s => negb (retry_due s) | None => false end = false ->
  disk_allows params w ->
  safe (backfill_room_page deserialize_as from_plaintext params room state) w
    (fun outcome w' => follows room w w' /\
       (forall failure, outcome = Failed failure -> seen w' = false /\ steady w w')).
Proof.
  intros Ht Hs Hsy Hc Hd Hdisk.
  destruct (synced_row _ _ _ Hsy) as (_ & Ecomp & _ & _ & _ & Edue).
  specialize (Edue Hd). rewrite Hc in Ecomp. unfold backfill_room_page.
  destruct (synced_state _ _ _ Hsy Hc) as [failing ->]. destruct Hsy as [Hcur _].
  change (negb (target_depth params =? 0) &&
    (wrap64 (events_backfilled (row_of (listed w) room)) >=? target_depth params))
    with (at_cap params (row_of (listed w) room)).
  destruct (at_cap params (row_of (listed w) room)) eqn:Ecap.
  { destruct failing; cbn; [|by split; [apply follows_steady; [|apply steady_refl]|]].
    permit. intros ok w' (? & _ & ? & _ & Hw). split; [|done].
    eapply wrote_follows; [done..|]. intros t t' _ Htt [= <-]. split; [by apply clear_table_ok|].
    intros. by apply clear_other. }
  apply swp_bind. eapply swp_mono; [apply fetch_page_safe; [done|done|by split_and!]|].
  intros r w1 [H1 Hr]. destruct r as [[[status|]|[events end_]]|]; cbn.
  1,2: split; [by apply follows_steady|]; intros ? _; split; [by apply Hr|apply H1].
  2: split; [by apply follows_steady|done].
  apply swp_bind. eapply swp_mono; [apply persist_all_safe|]; [|by apply Hr|].
  { destruct H1 as [? _]. same_table. }
  intros ok w2 [H2 Hok]. pose proof (steady_trans _ _ _ H1 H2) as H12.
  destruct ok; cbn; [|split; [by apply follows_steady|done]].
  pose proof (steady_current _ _ _ H12 Hcur) as Hcur2.
  pose proof H12 as (E & _ & El & Hn).
  split; [split_and!|]; [same_table|by rewrite Hok|..].
  { apply current_unfinished; [done|by rewrite El]. }
  { done. }
  { by rewrite bool_decide_eq_true. }
  { lia. }
  intros saved w3 (Hn3 & _ & El3 & _ & Hw).
  assert (follows room w w3) as Hf.
  { eapply follows_trans; [by apply follows_steady|].
    eapply wrote_follows; [same_table|lia|done|exact Hw|].
    intros t t' _ Htt Hsv. split; [eapply save_table_ok; [exact Htt| | |exact Hsv]|].
    - by rewrite bool_decide_eq_true.
    - lia.
    - intros r. by eapply save_other. }
  destruct saved; cbn; (split; [done|]); intros failure; [|done].
  by destruct (Z.of_nat (length events) >? 0).
Qed.

Lemma record_failure_safe room state failure w :
  table_ok (tbl w) -> seen w = false -> synced room state w ->
  match state with Some s => s_complete s | None => false end = false ->
  safe (record_failure (Raw := Raw) (Event := Event) room state failure) w
    (fun _ w' => follows room w w').
Proof.
  intros Ht Hs Hsy Hc. destruct (synced_row _ _ _ Hsy) as (_ & Ecomp & _ & Efl & Erj & _).
  rewrite Hc in Ecomp. unfold record_failure. rewrite Efl, Erj. destruct Hsy as [Hcur _].
  assert (complete (row_of (tbl w) room) = false) as Hun by by apply current_unfinished.
  cbn. permit. { split_and!; [done|done|]. by eexists. }
  intros ok w' (? & _ & ? & _ & Hw). eapply wrote_follows; [done..|].
  intros t t' Hsub Htt Hr. split; [|intros r; by eapply record_other].
  eapply record_table_ok; [done| |done]. by eapply sub_unfinished.
Qed.

Lemma sweep_safe cursors rooms progressed w t :
  table_ok (tbl w) -> t <= now w -> NoDup rooms ->
  (forall room, room ∈ rooms ->
     current w room /\ cursors !! room = state_of t <$> listed w !! room) ->
  safe (sweep deserialize_as from_plaintext params cursors rooms progressed) w
    (fun _ w' => table_ok (tbl w')).
Proof.
  revert progressed w. induction rooms as [|room rest IH]; intros progressed w Ht Htn Hnd Hc;
    [done|].
  apply NoDup_cons in Hnd as [Hni Hnd]. cbn [sweep].
  apply swp_ask; [by split; [done|split; [by intros|done]]|].
  intros c w1 (Hn1 & (E1 & Hd1 & El1) & _ & Hs1). destruct c; [cbn; same_table|]. cbv zeta.
  assert (steady w w1) as H1 by by unfold steady.
  assert (forall progressed w', follows room w1 w' ->
    safe (sweep deserialize_as from_plaintext params cursors rest progressed) w'
      (fun _ w' => table_ok (tbl w'))) as Hrest.
  { intros pr w' Hf. pose proof Hf as (Hn & Ht' & El & _). apply IH; [done|lia|done|].
    intros r Hr. destruct (Hc r) as [Hcur Ecur]; [by right|]. split; [|by rewrite El, El1].
    eapply follows_current; [done|by intros ->|]. by eapply steady_current. }
  assert (table_ok (tbl w1)) as Ht1 by same_table.
  assert (synced room (cursors !! room) w1) as Hsy.
  { destruct (Hc room) as [Hcur Ecur]; [by left|]. split; [by eapply steady_current|].
    exists t. rewrite El1. split; [lia|done]. }
  destruct (match cursors !! room with Some s => s_complete s | None => false end) eqn:Ecomp.
  { by apply Hrest, follows_steady, steady_refl. }
  destruct (match cursors !! room with Some s => negb (retry_due s) | None => false end) eqn:Edue.
  { by apply Hrest, follows_steady, steady_refl. }
  apply swp_bind. eapply swp_mono; [by apply disk_ok_safe|].
  intros ok w2 (E2 & El2 & Hn2 & Hs2 & Hok). destruct ok; [|cbn; same_table]. cbn [negb].
  assert (synced room (cursors !! room) w2) as Hsy2.
  { destruct Hsy as (Hcur & t0 & ? & Est). split; [|exists t0; rewrite El2; split; [lia|done]].
    unfold current in *. rewrite El2. destruct (sub_row _ _ room E2) as [->|]; [done|by right]. }
  apply swp_bind. eapply swp_mono.
  { apply room_page_safe; [same_table|done|done|done|done|by apply Hok]. }
  intros outcome w3 [Hf Hfail].
  assert (follows room w1 w3) as Hf13.
  { destruct Hf as (? & ? & ? & Ho). split_and!; [lia|done|congruence|]. intros r Hr.
    destruct (Ho r Hr) as [->|]; [by apply sub_row|by right]. }
  destruct outcome as [| |failure|]; [| by apply Hrest| |by apply Hrest].
  - pose proof Hf13 as (Hn & Ht3 & _).
    apply swp_ask; [by split; [done|]|]. intros c w4 ((E4 & Hd4 & El4) & _ & Hn4).
    destruct c; [cbn; same_table|]. apply Hrest. eapply follows_trans; [done|].
    apply follows_steady; [done|]. unfold steady. split_and!; [done..|lia].
  - destruct (Hfail failure eq_refl) as [Hs3 H3]. apply swp_bind. eapply swp_mono.
    { apply record_failure_safe; [apply Hf|done|by eapply synced_steady|done]. }
    intros ? w4 H4. apply Hrest. by eapply follows_trans.
Qed.

Lemma run_turn_safe w :
  table_ok (tbl w) ->
  safe (run_turn deserialize_as from_plaintext params) w (fun _ w' => table_ok (tbl w')).
Proof.
  intros Ht. unfold run_turn. apply swp_ask; [by split; [done|split; [by intros|done]]|].
  intros c w1 (_ & (E1 & _) & _ & Hs1). destruct c; [cbn; same_table|].
  apply swp_ask; [split; [same_table|by rewrite Hs1]|]. intros x w2 (Hn2 & _ & Hs2 & Hl).
  assert (forall w', table_ok (tbl w') ->
    safe (ask (ans := banswer) (SleepFor (idle_poll params))) w'
      (fun _ w' => table_ok (tbl w'))) as Hsleep.
  { intros w' Ht'. cbn. split; [by split|]. intros c w3 ((? & _) & _). same_table. }
  destruct Hl as [(-> & E2 & _)|(at_ & Hat & -> & Hl1 & Hl2)]; [apply Hsleep; same_table|].
  assert (table_ok (tbl w2)) as Ht2.
  { apply (table_ok_sub _ _ Hl2), (table_ok_sub _ _ Hl1). same_table. }
  apply swp_ask; [split; [done|by rewrite Hs2, Hs1]|].
  intros rooms w3 (Hn3 & (E3 & _ & El3) & _ & Hnd). apply swp_bind. eapply swp_mono.
  - apply (sweep_safe _ _ _ _ at_); [same_table|lia|done|]. intros room _.
    unfold list_room_backfill, current. rewrite lookup_fmap, El3. split; [|done].
    apply sub_row. by etrans.
  - intros e w4 Ht4. destruct e as [|[]]; [done|done|by apply Hsleep].
Qed.

Lemma run_safe turns w :
  table_ok (tbl w) ->
  safe (run deserialize_as from_plaintext params turns) w (fun _ w' => table_ok (tbl w')).
Proof.
  revert w. induction turns as [|turns IH]; intros w Ht; [done|]. cbn [run].
  apply swp_bind. eapply swp_mono; [by apply run_turn_safe|]. intros [] w' Ht'; [done|by apply IH].
Qed.

(** [C21] Whatever the homeserver, the store, the disk and the cancellation do, and
    whichever rows purges delete meanwhile, the task sends a [/messages] request only
    for a room whose row, as this sweep listed it, is unfinished, below the depth cap
    and past its backoff or park interval; from the token of that row; with the last
    look at the disk not low; and never once it has seen its cancellation.  At that
    moment the database still holds that very row (or none, where it listed none),
    unless a purge has deleted it since the listing. *)
Theorem backfill_requests_allowed turns w timeout r w' :
  table_ok (tbl w) ->
  asks wstep (run deserialize_as from_plaintext params turns) w (GateCall timeout r) w' ->
  page_allowed params w' timeout r /\ seen w' = false.
Proof.
  intros Ht Ha. eapply swp_asks in Ha; [|by apply run_safe]. destruct Ha as (_ & Hs & Hp).
  split; [done|]. destruct (seen w'); [by destruct (Hs eq_refl)|done].
Qed.

(** At every moment of every run the rows are in order (a failing room has a
    class and a retry time, a complete one neither token nor failures); progress
    is saved for unfinished rooms only, complete exactly when the page had no end
    token; and a failure is recorded as the policy rules for the failure counts
    of the row the sweep listed, which the database still holds unless a purge
    deleted it. *)
Theorem backfill_rows_ok turns w q w' :
  table_ok (tbl w) ->
  asks wstep (run deserialize_as from_plaintext params turns) w q w' ->
  table_ok (tbl w') /\
  match q with
  | SaveCursor room token done_ added =>
      complete (row_of (tbl w') room) = false /\ current w' room /\
      (done_ = true <-> token = None) /\ 0 <= added
  | RecordFailure room f =>
      let row := row_of (listed w') room in
      complete (row_of (tbl w') room) = false /\ current w' room /\
      exists failure, f = failure_record failure (consecutive_failures row) (token_rejections row)
  | ClearFailures room => at_cap params (row_of (listed w') room) = true /\ current w' room
  | _ => True
  end.
Proof.
  intros Ht Ha. eapply swp_asks in Ha; [|by apply run_safe]. destruct Ha as (Ht' & _ & Hq).
  split; [done|]. by destruct q.
Qed.
End Safe.

(** ** The retry schedule *)

(** The row after its room's page failed at [at_], as the engine records it. *)
Definition fail_at (row : Row) (failure : PageFailure) (at_ : Z) : Row :=
  let t : table := {[ t! "r" := row ]} in
  match record_room_backfill_failure at_ (t! "r")
          (failure_record failure (consecutive_failures row) (token_rejections row)) t with
  | Some t' => default row (t' !! t! "r")
  | None => row
  end.

Lemma fail_at_eq row failure at_ :
  row_ok row -> consecutive_failures row < i32_max -> token_rejections row < i32_max ->
  fail_at row failure at_ =
    let f := failure_record failure (consecutive_failures row) (token_rejections row) in
    MkRow (if clear_token f then None else oldest_seen_token row) (complete row)
      (events_backfilled row) (consecutive_failures row + 1) (Some (kind f))
      (Some (at_ + retry_after f)) (f_parked f)
      (token_rejections row + if clear_token f then 1 else 0).
Proof.
  intros (He & Hf & Hr & _) Hf1 Hr1. unfold fail_at, record_room_backfill_failure.
  rewrite lookup_singleton_eq. cbn [default from_option id]. unfold sql_int.
  rewrite (proj2 (Z.leb_le (consecutive_failures row + 1) _)) by lia.
  cbn [mbind option_bind]. rewrite (proj2 (Z.leb_le _ i32_max)) by (case_match; lia).
  cbn [mbind option_bind]. by rewrite lookup_insert_eq.
Qed.

Lemma retry_delay_doubles failures :
  1 <= failures <= 5 -> retry_delay failures = secs (60 * 2 ^ (failures - 1)).
Proof.
  intros Hf. assert (failures = 1 \/ failures = 2 \/ failures = 3 \/ failures = 4 \/ failures = 5)
    as [-> |[-> |[-> |[-> | ->]]]] by lia; reflexivity.
Qed.

(** What a failed page does to its room.  The [k]-th retryable failure in a row
    waits 60 s doubled [k - 1] times, and from the fifth on parks the room for a
    day; a refused room is parked at once; neither ever drops the token.  A
    rejected token is dropped and the room restarts from its live end at once the
    first time, but is parked from the second rejection on, successful pages in
    between or not.  The progress count is never touched, and a room is classed as
    rejected only on a 400 to a request that carried a token. *)
Theorem failure_schedule row failure at_ :
  row_ok row -> complete row = false ->
  consecutive_failures row < i32_max -> token_rejections row < i32_max ->
  let k := consecutive_failures row + 1 in
  let row' := fail_at row failure at_ in
  let park := match failure with
    | Retryable => 5 <=? k | Inaccessible => true | Rejected => 0 <? token_rejections row
    end in
  row_ok row' /\ consecutive_failures row' = k /\ last_failure row' = Some (failure_str failure) /\
  parked row' = park /\
  retry_at row' = Some (at_ + if park then secs 86400 else
    match failure with Retryable => secs (60 * 2 ^ (k - 1)) | _ => 0 end) /\
  oldest_seen_token row' = match failure with Rejected => None | _ => oldest_seen_token row end /\
  token_rejections row' = token_rejections row + match failure with Rejected => 1 | _ => 0 end /\
  events_backfilled row' = events_backfilled row /\ complete row' = false /\
  (forall status had_token, of_status status had_token = Rejected <->
     status = Some 400 /\ had_token = true).
Proof.
  intros Hok Hc Hf Hr k row' park. subst row'. rewrite fail_at_eq by done. cbv zeta.
  destruct Hok as (He & Hf0 & Hr0 & _). rewrite Hc.
  assert (failure_record failure (consecutive_failures row) (token_rejections row) =
    MkFailure (failure_str failure)
      (if park then secs 86400 else
         match failure with Retryable => secs (60 * 2 ^ (k - 1)) | _ => 0 end) park
      (match failure with Rejected => true | _ => false end)) as ->.
  { unfold failure_record, park, PARK_AFTER. fold k.
    assert (i32_sat k = k) as -> by (unfold i32_sat, i32_min, i32_max in *; lia).
    destruct failure; [|done|].
    - rewrite Z.gtb_ltb. by destruct (0 <? token_rejections row).
    - rewrite Z.geb_leb. destruct (5 <=? k) eqn:E; [done|]. b2p.
      by rewrite retry_delay_doubles by (unfold k in *; lia). }
  cbn [oldest_seen_token complete events_backfilled consecutive_failures last_failure retry_at
    parked token_rejections kind retry_after f_parked clear_token].
  split_and!; try done; try (by destruct failure).
  - unfold row_ok. cbn. split_and!; try done; try (destruct failure; lia);
      try (split; [lia|done]); intros; lia.
  - intros status had_token. unfold of_status. destruct status as [s|]; [|naive_solver].
    destruct (Z.eqb_spec s 400) as [->|]; [destruct had_token; naive_solver|].
    cbn [andb]. destruct ((s =? 403) || (s =? 404)); naive_solver.
Qed.

Definition late_row : Row := MkRow (Some (t! "t7")) false 700 3 (Some (t! "retryable")) (Some 1) false 0.
Definition rejected_row : Row := MkRow None false 0 0 None None false 1.

Lemma demo_rows_ok : row_ok late_row /\ row_ok rejected_row.
Proof. by unfold row_ok, i64_max, i32_max; cbn; split_and!. Qed.

Lemma failure_schedule_witness :
  retry_at (fail_at late_row Retryable 1000) = Some (1000 + secs 480) /\
  parked (fail_at rejected_row Rejected 5) = true.
Proof.
  split.
  - destruct (failure_schedule late_row Retryable 1000 (proj1 demo_rows_ok)) as (_ & _ & _ & _ & H & _);
      [done..|exact H].
  - destruct (failure_schedule rejected_row Rejected 5 (proj2 demo_rows_ok)) as (_ & _ & _ & H & _);
      [done..|exact H].
Defined.

(** ** A serving homeserver

    An environment in which nothing fails: every joined room has a finite
    history of pages, newest first, the page [k]'s token being the number [k];
    the store, the disk and the gate always answer, and nothing is purged.  It
    records what the task persists.  The table it starts with is that of an earlier
    run: empty, or with rows that point into the histories. *)

Section Serving.
Context {Raw Event : Type}.
Context (deserialize_as : Raw -> option TimelineKind) (from_plaintext : Raw -> Event).
Context (params : BackfillParams).
Context (rooms : list text) (history : text -> list (list Raw)).
Context (decrypt_event : Raw -> option Event) (stats : option (Z * Z)).
Context (now0 : Z) (tbl0 : table).

(** What the history's events become. *)
Definition ingested (raw : Raw) : Event :=
  if needs_decryption deserialize_as raw then default (from_plaintext raw) (decrypt_event raw)
  else from_plaintext raw.

Definition token (k : nat) : text := dec (Z.of_nat k).

(** The page a token stands for; no token is the newest. *)
Definition page_index (from : option text) : nat :=
  match from with Some t => Z.to_nat (default 0 (parse_u64 t)) | None => 0%nat end.

Definition page (room : text) (from : option text) : list Raw * option text :=
  let k := page_index from in
  (nth k (history room) [],
   if (S k <? length (history room))%nat then Some (token (S k)) else None).

Record SWorld := MkSWorld { base_world : BWorld; persisted : list (text * Event) }.

Definition with_world (w : SWorld) (b : BWorld) : SWorld := MkSWorld b (persisted w).
Definition with_table (w : SWorld) (t : table) : SWorld :=
  with_world w (MkWorld (now (base_world w)) t (disk (base_world w)) (seen (base_world w))
                  (listed (base_world w))).

Definition serve (w : SWorld) (q : @BQuestion Raw Event) : banswer q * SWorld :=
  let b := base_world w in
  match q with
  | IsCancelled => (false, w)
  | ListCursors =>
      (Some (list_room_backfill (now b) (tbl b)),
       with_world w (MkWorld (now b) (tbl b) (disk b) (seen b) (tbl b)))
  | JoinedRooms => (rooms, w)
  | Statvfs _ => (stats, with_world w (MkWorld (now b) (tbl b) (Some stats) (seen b) (listed b)))
  | SetPaused p => (false, w)
  | GateCall _ r => (Some (inr (page (req_room r) (req_from r))), w)
  | DecryptEvent raw => (Some (decrypt_event raw), w)
  | Persist room e => (tt, MkSWorld b (persisted w ++ [(room, e)]))
  | SaveCursor room t done_ added =>
      match save_room_backfill room t done_ added (tbl b) with
      | Some t' => (true, with_table w t')
      | None => (false, w)
      end
  | RecordFailure room f =>
      match record_room_backfill_failure (now b) room f (tbl b) with
      | Some t' => (true, with_table w t')
      | None => (false, w)
      end
  | ClearFailures room => (true, with_table w (clear_room_backfill_failures room (tbl b)))
  | SleepFor d =>
      (false, with_world w (MkWorld (now b + Z.max 0 d) (tbl b) (disk b) (seen b) (listed b)))
  end.

Abbreviation srun_ p w := (srun serve p w).

(** What a room has left when the task starts, and how many pages of it the depth cap
    lets through: paging stops before the first page at which the count has reached
    the cap. *)
Definition position (room : text) : nat :=
  let row := row_of tbl0 room in
  if complete row then length (history room) else page_index (oldest_seen_token row).

Definition rest (room : text) : list (list Raw) := drop (position room) (history room).
Definition count0 (room : text) : Z := events_backfilled (row_of tbl0 room).

Definition capped (count : Z) : bool :=
  negb (target_depth params =? 0) && (target_depth params <=? count).

Fixpoint reach (count : Z) (pages : list (list Raw)) : nat :=
  match pages with
  | [] => 0
  | p :: pages => if capped count then 0 else S (reach (count + Z.of_nat (length p)) pages)
  end.

Definition stop (room : text) : nat := reach (count0 room) (rest room).

(** A room once [n] more pages of it are in: its count, its events, its row. *)
Definition count_after (room : text) (n : nat) : Z :=
  count0 room + Z.of_nat (length (concat (take n (rest room)))).

Definition events_upto (room : text) (n : nat) : list Event :=
  map ingested (concat (take n (rest room))).

Definition row_after (room : text) (n : nat) : option Row :=
  match n with
  | O => tbl0 !! room
  | S _ =>
      let last := (length (rest room) <=? n)%nat in
      Some (MkRow (if last then None else Some (token (position room + n))) last
              (count_after room n) 0 None None false (token_rejections (row_of tbl0 room)))
  end.

Definition events_of (room : text) (w : SWorld) : list Event :=
  map snd (filter (fun p => p.1 = room) (persisted w)).

(** [n] more pages of [room] are in, or all it may have if those are fewer. *)
Definition at_page (n : nat) (room : text) (w : SWorld) : Prop :=
  let n := Nat.min n (stop room) in
  tbl (base_world w) !! room = row_after room n /\ events_of room w = events_upto room n.

Hypothesis roomy : match stats with Some (f, t) => disk_low params f t = false | None => True end.
(** An unfinished room's token points at a page of its history. *)
Hypothesis pointed : forall room,
  complete (row_of tbl0 room) = false -> (position room < length (history room))%nat.
Hypothesis bounded : forall room,
  0 <= count0 room /\ count0 room + Z.of_nat (length (concat (rest room))) <= i64_max /\
  Z.of_nat (length (history room)) <= i64_max.
(** Failures on record are over, and none is a capped room's. *)
Hypothesis failures_over : forall room,
  due_at now0 (row_of tbl0 room) = true /\
  (capped (count0 room) = true ->
     parked (row_of tbl0 room) = false /\ consecutive_failures (row_of tbl0 room) <= 0).

(** *** The pages let through *)

Lemma reach_le count pages : (reach count pages <= length pages)%nat.
Proof.
  revert count. induction pages as [|p l IH]; intros c; cbn; [done|].
  destruct (capped c); [lia|]. apply le_n_S, IH.
Qed.

(** The cap holds back no page before the stop, and the one there. *)
Lemma reach_capped pages : forall count n,
  let c := count + Z.of_nat (length (concat (take n pages))) in
  ((n < reach count pages)%nat -> capped c = false) /\
  (n = reach count pages -> (n < length pages)%nat -> capped c = true).
Proof.
  induction pages as [|p l IH]; intros c n; cbn; [lia|].
  destruct (capped c) eqn:E; [split; [lia|]; intros -> _; by rewrite Z.add_0_r|].
  destruct n as [|n]; cbn; [split; [by rewrite Z.add_0_r|done]|].
  rewrite length_app, Nat2Z.inj_add, Z.add_assoc.
  destruct (IH (c + Z.of_nat (length p)) n) as [H1 H2]. split; intros; [apply H1|apply H2]; lia.
Qed.

Lemma reach_uncapped count pages : target_depth params = 0 -> reach count pages = length pages.
Proof.
  intros H. revert count. induction pages as [|p l IH]; intros c; cbn; [done|].
  unfold capped. rewrite H. cbn. by rewrite IH.
Qed.

Lemma at_cap_capped r : 0 <= events_backfilled r <= i64_max -> at_cap params r = capped (events_backfilled r).
Proof.
  intros. unfold at_cap, capped. rewrite wrap64_small by (unfold i64_max in *; lia).
  by rewrite Z.geb_leb.
Qed.

Lemma rest_complete room : (length (rest room) <=? 0)%nat = complete (row_of tbl0 room).
Proof.
  unfold rest. rewrite length_drop. destruct (complete (row_of tbl0 room)) eqn:E.
  - unfold position. rewrite E, Nat.sub_diag. done.
  - specialize (pointed _ E). apply Nat.leb_gt. lia.
Qed.

Lemma count_after_bound room n : 0 <= count_after room n <= i64_max.
Proof.
  unfold count_after. destruct (bounded room) as (? & Hb & _). split; [lia|].
  etrans; [|exact Hb]. apply Z.add_le_mono_l, inj_le.
  rewrite <- (take_drop n (rest room)) at 2. rewrite concat_app, length_app. lia.
Qed.

Lemma row_of_after room n :
  let r := default new_row (row_after room n) in
  complete r = (length (rest room) <=? n)%nat /\ events_backfilled r = count_after room n /\
  token_rejections r = token_rejections (row_of tbl0 room) /\
  (n <> 0%nat -> retry_at r = None /\ parked r = false /\ consecutive_failures r = 0) /\
  ((n < length (rest room))%nat -> page_index (oldest_seen_token r) = (position room + n)%nat).
Proof.
  destruct n as [|n]; cbn zeta; cbn [row_after].
  - change (default new_row (tbl0 !! room)) with (row_of tbl0 room).
    split_and!; [by rewrite rest_complete| |done|done|].
    + unfold count_after. cbn. by rewrite Z.add_0_r.
    + intros Hn%Nat.leb_gt. rewrite rest_complete in Hn. unfold position. rewrite Hn. lia.
  - cbn. split_and!; try done. intros Hn. rewrite (proj2 (Nat.leb_gt _ _)) by done.
    destruct (bounded room) as (_ & _ & Hb). unfold rest in Hn. rewrite length_drop in Hn.
    unfold page_index, token, parse_u64. rewrite parse_int_dec; [apply Nat2Z.id|done|].
    unfold i64_max, u64_max in *. lia.
Qed.

Lemma events_upto_S room n :
  (n < length (rest room))%nat ->
  concat (take (S n) (rest room)) = concat (take n (rest room)) ++ nth n (rest room) [].
Proof.
  intros Hn. destruct (lookup_lt_is_Some_2 _ _ Hn) as [chunk Hc].
  rewrite (take_S_r _ _ chunk), concat_app by done. cbn. rewrite app_nil_r.
  by rewrite (nth_lookup_Some _ _ _ _ Hc).
Qed.

(** *** The turns *)

Lemma srun_decrypt chunk w :
  srun_ (decrypt_chunk deserialize_as from_plaintext chunk) w = (Some (map ingested chunk), w).
Proof.
  induction chunk as [|raw tail IH]; [done|]. cbn [decrypt_chunk].
  rewrite srun_bind. unfold decrypt_paged_event. cbn [map]. unfold ingested at 1.
  destruct (needs_decryption deserialize_as raw); [|cbn; by rewrite srun_bind, IH].
  rewrite srun_ask. cbn [serve fst snd].
  destruct (decrypt_event raw); cbn; by rewrite srun_bind, IH.
Qed.

Lemma srun_persist room events w :
  srun_ (persist_all room events) w
  = (true, MkSWorld (base_world w) (persisted w ++ map (pair room) events)).
Proof.
  revert w. induction events as [|e tail IH]; intros w; cbn [persist_all map].
  - rewrite app_nil_r. by destruct w.
  - rewrite srun_ask. cbn [serve fst snd]. rewrite srun_ask. cbn [serve fst snd].
    rewrite IH. cbn. by rewrite <- app_assoc.
Qed.

Lemma events_of_app room r es b l :
  events_of r (MkSWorld b (l ++ map (pair room) es))
  = events_of r (MkSWorld b l) ++ (if bool_decide (r = room) then es else []).
Proof.
  unfold events_of. cbn [persisted]. rewrite filter_app, map_app. f_equal.
  case_bool_decide as E.
  - subst r. induction es as [|e es IH]; [done|]. cbn [map]. rewrite filter_cons_True by done.
    cbn [map snd]. by rewrite IH.
  - induction es as [|e es IH]; [done|]. cbn [map].
    by rewrite filter_cons_False by (by intros <-).
Qed.

(** The page the row points at. *)
Lemma page_at room n :
  (n < length (rest room))%nat ->
  page room (oldest_seen_token (default new_row (row_after room n)))
  = (nth n (rest room) [],
     if (S n <? length (rest room))%nat then Some (token (position room + S n)) else None).
Proof.
  intros Hn. destruct (row_of_after room n) as (_ & _ & _ & _ & Hp). unfold page.
  rewrite (Hp Hn). unfold rest in *. rewrite length_drop in *. f_equal.
  - rewrite <- nth_skipn. done.
  - rewrite Nat.add_succ_r. destruct (Nat.ltb_spec (S n) (length (history room) - position room)),
      (Nat.ltb_spec (S (position room + n)) (length (history room))); [done|lia..|done].
Qed.

Lemma save_next room n tb :
  (n < length (rest room))%nat -> tb !! room = row_after room n ->
  let end_ := if (S n <? length (rest room))%nat then Some (token (position room + S n)) else None in
  save_room_backfill room end_ (bool_decide (end_ = None))
    (Z.of_nat (length (map ingested (nth n (rest room) [])))) tb
  = (fun row => <[room := row]> tb) <$> row_after room (S n).
Proof.
  intros Hn Hrow end_. unfold save_room_backfill. rewrite Hrow.
  destruct (row_of_after room n) as (_ & -> & -> & _). rewrite length_map.
  assert (count_after room n + Z.of_nat (length (nth n (rest room) [])) = count_after room (S n)) as ->.
  { unfold count_after. rewrite events_upto_S, length_app by done. lia. }
  unfold sql_int. rewrite (proj2 (Z.leb_le _ _)) by apply count_after_bound.
  cbn [mbind option_bind row_after fmap option_fmap option_map]. do 3 f_equal; unfold end_;
    destruct (Nat.ltb_spec (S n) (length (rest room)));
    first [by rewrite (proj2 (Nat.leb_gt _ _)) by lia|by rewrite (proj2 (Nat.leb_le _ _)) by lia].
Qed.

(** The engine's reading of a row that was listed. *)
Lemma state_fields t (o : option Row) :
  let r := default new_row o in let s := state_of t <$> o in
  complete r = false ->
  match s with Some s => s_complete s | None => false end = false /\
  match s with
  | Some s => (s_token s, s_complete s, s_events s, s_parked s || (s_failures s >? 0))
  | None => (None, false, 0, false)
  end = (oldest_seen_token r, false, events_backfilled r,
         parked r || (consecutive_failures r >? 0)) /\
  match s with Some s => negb (retry_due s) | None => false end = negb (due_at t r).
Proof. destruct o as [r|]; cbn; [|done]. by intros ->. Qed.

(** Nothing but [room] moved, and time went forward. *)
Definition only (room : text) (w w' : SWorld) : Prop :=
  now (base_world w) <= now (base_world w') /\
  forall r, r <> room -> tbl (base_world w') !! r = tbl (base_world w) !! r /\
                         events_of r w' = events_of r w.

(** One page of one room; none where the depth cap stands. *)
Lemma srun_page room n t w :
  (Nat.min n (stop room) < length (rest room))%nat -> at_page n room w ->
  exists outcome w',
    srun_ (backfill_room_page deserialize_as from_plaintext params room
             (state_of t <$> tbl (base_world w) !! room)) w = (outcome, w') /\
    (outcome = Paged \/ outcome = Idle) /\ at_page (S n) room w' /\ only room w w'.
Proof.
  intros Hn Hat. pose proof Hat as [Hrow Hev]. revert Hn Hrow Hev. cbv zeta.
  set (m := Nat.min n (stop room)). intros Hn Hrow Hev. rewrite Hrow.
  destruct (row_of_after room m) as (Hc & Hcount & _ & Hclean & _).
  rewrite (proj2 (Nat.leb_gt _ _)) in Hc by done.
  destruct (state_fields t (row_after room m) Hc) as (_ & Hst & _). unfold backfill_room_page.
  rewrite Hst. set (r := default new_row (row_after room m)) in *.
  change (negb (target_depth params =? 0) && (wrap64 (events_backfilled r) >=? target_depth params))
    with (at_cap params r).
  rewrite at_cap_capped by (rewrite Hcount; apply count_after_bound). rewrite Hcount.
  destruct (reach_capped (rest room) (count0 room) m) as [Hlt Heq].
  fold (count_after room m) in Hlt, Heq. fold (stop room) in Hlt, Heq.
  destruct (decide (m < stop room)%nat) as [Hms|Hms].
  - rewrite (Hlt Hms). assert (m = n) as -> by lia. unfold fetch_page.
    rewrite srun_bind, srun_ask. cbn [serve fst snd req_room req_from].
    unfold r. rewrite page_at by done. rewrite srun_bind, srun_decrypt.
    cbn [srun fmap option_fmap option_map].
    rewrite srun_bind, srun_persist. cbn [negb]. rewrite srun_ask.
    cbn [serve base_world]. rewrite (save_next room n) by done.
    cbn [row_after fmap option_fmap option_map fst snd negb srun].
    eexists _, _. split; [reflexivity|]. split; [destruct (Z.of_nat _ >? 0); auto|].
    unfold at_page, only, with_table, with_world. cbn [base_world tbl persisted now]. cbv zeta.
    rewrite Nat.min_l by lia. split_and!; [| |done|].
    + by rewrite lookup_insert_eq.
    + rewrite events_of_app, bool_decide_eq_true_2 by done. unfold events_upto.
      rewrite events_upto_S, map_app by done. f_equal. destruct w. exact Hev.
    + intros r' Hr. rewrite lookup_insert_ne by done. split; [done|].
      rewrite events_of_app, bool_decide_eq_false_2, app_nil_r by done. by destruct w.
  - assert (m = stop room) as Em by lia. rewrite (Heq Em Hn).
    assert (parked r || (consecutive_failures r >? 0) = false) as ->.
    { apply orb_false_iff. rewrite Z.gtb_ltb, Z.ltb_ge. destruct (decide (m = 0%nat)) as [E0|E0].
      - specialize (Heq Em Hn). revert Heq. unfold r, count_after. rewrite E0. cbn.
        rewrite Z.add_0_r. apply failures_over.
      - destruct (Hclean E0) as (_ & -> & ->). done. }
    eexists _, _. split; [reflexivity|]. split; [auto|]. split; [|done].
    unfold at_page in *. replace (Nat.min (S n) (stop room)) with m by lia. done.
Qed.

Lemma srun_disk w :
  srun_ (disk_ok params) w =
    (true, with_world w (MkWorld (now (base_world w)) (tbl (base_world w)) (Some stats)
                           (seen (base_world w)) (listed (base_world w)))).
Proof.
  unfold disk_ok. rewrite srun_ask. unfold set_paused, ask. cbn.
  destruct stats as [[f t]|]; [|done]. by rewrite roomy.
Qed.

Lemma at_page_ext n room w w' :
  tbl (base_world w') !! room = tbl (base_world w) !! room ->
  events_of room w' = events_of room w -> at_page n room w -> at_page n room w'.
Proof. unfold at_page. by intros -> ->. Qed.

(** A pass over the rooms takes its first room one page further. *)
Lemma srun_sweep_room cursors t n room tail progressed w :
  now0 <= t -> cursors !! room = state_of t <$> tbl (base_world w) !! room -> at_page n room w ->
  exists progressed' w',
    srun_ (sweep deserialize_as from_plaintext params cursors (room :: tail) progressed) w
      = srun_ (sweep deserialize_as from_plaintext params cursors tail progressed') w' /\
    at_page (S n) room w' /\ only room w w'.
Proof.
  intros Ht Ecur Hat. cbn [sweep]. rewrite srun_ask. cbn [serve fst snd]. rewrite Ecur.
  pose proof Hat as [Hrow _]. revert Hrow. cbv zeta. set (m := Nat.min n (stop room)). intros Hrow.
  destruct (row_of_after room m) as (Hc & _ & _ & Hclean & _).
  destruct (decide (m < length (rest room))%nat) as [Hn|Hn].
  - rewrite (proj2 (Nat.leb_gt _ _)) in Hc by done.
    assert (due_at t (default new_row (row_after room m)) = true) as Hdue.
    { destruct (decide (m = 0%nat)) as [->|E]; [|by unfold due_at; destruct (Hclean E) as (-> & _)].
      destruct (failures_over room) as [Hd _]. unfold due_at in *. cbn [row_after].
      change (default new_row (tbl0 !! room)) with (row_of tbl0 room).
      destruct (retry_at _); [|done]. apply Z.leb_le in Hd. apply Z.leb_le. lia. }
    destruct (state_fields t (row_after room m) Hc) as (Hs1 & _ & Hs2). rewrite Hdue in Hs2.
    rewrite Hrow. rewrite Hs1, Hs2. cbn [negb]. rewrite srun_bind, srun_disk. cbn [negb].
    rewrite srun_bind, <- Hrow.
    destruct (srun_page room n t (with_world w (MkWorld (now (base_world w))
      (tbl (base_world w)) (Some stats) (seen (base_world w)) (listed (base_world w)))) Hn Hat)
      as (outcome & w' & Epage & Hout & Hat' & Ho & Hoth).
    cbn [with_world base_world tbl] in Epage. rewrite Epage.
    destruct Hout as [-> | ->]; [rewrite srun_ask; cbn [serve fst snd]|];
      (eexists _, _; split; [reflexivity|]; split; [by eapply at_page_ext; [..|exact Hat']|]).
    + split; [|exact Hoth]. cbn in *. lia.
    + by split.
  - assert (stop room <= length (rest room))%nat by apply reach_le.
    rewrite (proj2 (Nat.leb_le _ _)) in Hc by lia.
    rewrite Hrow. destruct (row_after room m) as [r|]; [|done]. cbn in Hc |- *. rewrite Hc.
    eexists _, _. split; [reflexivity|]. split; [|done].
    unfold at_page in *. replace (Nat.min (S n) (stop room)) with m by lia. done.
Qed.

(** One pass over the rooms: each gets one page further. *)
Lemma srun_sweep cursors t n rs progressed w :
  NoDup rs -> now0 <= t ->
  (forall r, r ∈ rs -> cursors !! r = state_of t <$> tbl (base_world w) !! r /\ at_page n r w) ->
  exists progressed' w',
    srun_ (sweep deserialize_as from_plaintext params cursors rs progressed) w
      = (Swept progressed', w') /\
    (forall r, r ∈ rs -> at_page (S n) r w') /\ now (base_world w) <= now (base_world w') /\
    forall r, r ∉ rs -> tbl (base_world w') !! r = tbl (base_world w) !! r /\
                        events_of r w' = events_of r w.
Proof.
  intros Hnd Ht. revert progressed w. induction rs as [|room tail IH]; intros progressed w Hc.
  { eexists _, _. split; [reflexivity|]. split; [set_solver|done]. }
  apply NoDup_cons in Hnd as [Hni Hnd]. destruct (Hc room) as [Ecur Hat]; [by left|].
  destruct (srun_sweep_room cursors t n room tail progressed w Ht Ecur Hat)
    as (pr & w1 & -> & Hat1 & Hn1 & Ho1).
  destruct (IH Hnd pr w1) as (pr' & w2 & -> & Hin & Hn2 & Hout).
  { intros r Hr. assert (r <> room) as Hne by (by intros ->). destruct (Ho1 r Hne) as [Et Ee].
    destruct (Hc r) as [Er Ha]; [by right|]. rewrite Et. split; [done|]. by eapply at_page_ext. }
  eexists _, _. split; [reflexivity|]. split_and!; [|lia|].
  - intros r [->|Hr]%elem_of_cons; [|by apply Hin].
    destruct (Hout room Hni) as [Et Ee]. by eapply at_page_ext.
  - intros r [Hne Hr]%not_elem_of_cons. destruct (Hout r Hr) as [-> ->]. by apply Ho1.
Qed.

(** Each turn of the loop gets every room one page further. *)
Lemma srun_run turns n w :
  NoDup rooms -> now0 <= now (base_world w) -> (forall r, r ∈ rooms -> at_page n r w) ->
  exists w', srun_ (run deserialize_as from_plaintext params turns) w = (false, w') /\
             forall r, r ∈ rooms -> at_page (n + turns) r w'.
Proof.
  intros Hnd. revert n w. induction turns as [|turns IH]; intros n w Hnow Hat.
  { eexists. split; [reflexivity|]. by rewrite Nat.add_0_r. }
  cbn [run]. rewrite srun_bind. unfold run_turn. rewrite srun_ask. cbn [serve fst snd].
  rewrite srun_ask. cbn [serve fst snd]. rewrite srun_ask. cbn [serve fst snd].
  rewrite srun_bind. set (w0 := with_world w _).
  destruct (srun_sweep (list_room_backfill (now (base_world w)) (tbl (base_world w)))
    (now (base_world w)) n rooms false w0 Hnd Hnow) as (pr & w' & -> & Hin & Hn' & _).
  { intros r Hr. split; [|by apply Hat]. unfold list_room_backfill. by rewrite lookup_fmap. }
  cbn [w0 with_world base_world now] in Hn'.
  rewrite Nat.add_succ_r. destruct pr; [apply (IH (S n)); [lia|done]|].
  apply (IH (S n)); [cbn; lia|].
  intros r Hr. eapply at_page_ext; [..|by apply Hin]; done.
Qed.

(** [C38] If the homeserver serves, the store works, the disk allows it and nothing is
    purged, backfill goes as far as its depth cap lets it and misses nothing on the
    way.  It resumes from the rows an earlier run left, whose failures are over: the
    task pages each joined room until its history ends or its count has reached the cap, one
    page per turn of the loop, so after as many turns as the longest of these takes
    the events persisted for a room are exactly those of these pages, each once, newest
    page first, decrypted where they were encrypted; its row has the right count and
    token; and it is marked complete exactly when its history ended.  A room that
    stops short of that has reached the cap; without a cap every room completes. *)
Theorem backfill_completes turns :
  NoDup rooms -> (forall r, r ∈ rooms -> (stop r <= turns)%nat) ->
  exists w',
    srun_ (run deserialize_as from_plaintext params turns)
      (MkSWorld (MkWorld now0 tbl0 None false ∅) []) = (false, w') /\
    forall r, r ∈ rooms ->
      let row := row_of (tbl (base_world w')) r in
      let fetched := take (stop r) (rest r) in
      tbl (base_world w') !! r = row_after r (stop r) /\
      events_of r w' = map ingested (concat fetched) /\
      events_backfilled row = count0 r + Z.of_nat (length (concat fetched)) /\
      (complete row = true <-> fetched = rest r) /\
      (complete row = false ->
         target_depth params <> 0 /\ target_depth params <= events_backfilled row).
Proof.
  intros Hnd Hlen.
  destruct (srun_run turns 0 (MkSWorld (MkWorld now0 tbl0 None false ∅) []) Hnd) as (w' & -> & Hat).
  { done. }
  { intros r _. unfold at_page. by cbn. }
  eexists. split; [reflexivity|]. intros r Hr. destruct (Hat r Hr) as [Hrow Hev].
  rewrite Nat.add_0_l, Nat.min_r in Hrow, Hev by by apply Hlen. cbv zeta.
  unfold row_of. rewrite Hrow. destruct (row_of_after r (stop r)) as (-> & -> & _).
  split_and!; [done|done|done| |].
  - rewrite Nat.leb_le. split; [apply take_ge|]. intros E%(f_equal length).
    rewrite length_take in E. lia.
  - intros Hlt%Nat.leb_gt. destruct (reach_capped (rest r) (count0 r) (stop r)) as [_ Hcap].
    specialize (Hcap eq_refl Hlt). unfold capped in Hcap. apply andb_true_iff in Hcap as [? ?].
    unfold count_after. b2p. split; [|lia]. intros E. by rewrite E in *.
Qed.

End Serving.

(** ** Concrete runs *)

Definition demo_config : SyncConfig :=
  MkSyncConfig 100 0 1000 30 45 (2 * 1024 * 1024 * 1024) (f64_of_u64 5) None (t! "/data").
Definition demo_params : BackfillParams := from_config demo_config.
(** The same under a depth cap of three events. *)
Definition capped_params : BackfillParams :=
  from_config (MkSyncConfig 100 3 1000 30 45 0 (f64_of_u64 5) None (t! "/data")).
(** 40 GB free of 100 GB. *)
Definition demo_stats : option (Z * Z) := Some (40 * 10 ^ 9, 100 * 10 ^ 9).
(** One room is new, the other was left after its first page, its retry due. *)
Definition demo_history (room : text) : list (list Z) :=
  if text_eqb room (t! "!a:x") then [[1; 2]; []; [3]; [5]] else [[4]; [6]].
Definition demo_rows : table :=
  {[ t! "!b:x" := MkRow (Some (t! "1")) false 1 2 (Some (t! "retryable")) (Some 7) false 0 ]}.
Definition demo_kind (raw : Z) : option TimelineKind :=
  if raw =? 3 then Some OriginalEncrypted else Some OtherEvent.

(** The valve: 4 GB of 100 GB is under five percent, 1 GiB under the byte floor. *)
Example disk_valve :
  disk_low demo_params (40 * 10 ^ 9) (100 * 10 ^ 9) = false /\
  disk_low demo_params (4 * 10 ^ 9) (100 * 10 ^ 9) = true /\
  disk_low demo_params (2 ^ 30) (10 * 2 ^ 30) = true /\
  disk_low demo_params (3 * 2 ^ 30) 0 = false.
Proof. by vm_compute. Qed.

Lemma demo_row room :
  row_of demo_rows room = new_row \/ room = t! "!b:x".
Proof.
  unfold row_of, demo_rows. destruct (decide (room = t! "!b:x")) as [->|E]; [by right|left].
  by rewrite lookup_singleton_ne.
Qed.
Lemma demo_pointed room :
  complete (row_of demo_rows room) = false ->
  (position demo_history demo_rows room < length (demo_history room))%nat.
Proof.
  intros _. unfold position. destruct (demo_row room) as [->| ->]; [|vm_compute; lia].
  cbn. unfold demo_history. case_match; simpl; lia.
Qed.
Lemma demo_bounded room :
  0 <= count0 demo_rows room /\
  count0 demo_rows room + Z.of_nat (length (concat (rest demo_history demo_rows room))) <= i64_max /\
  Z.of_nat (length (demo_history room)) <= i64_max.
Proof.
  unfold rest, position, count0. destruct (demo_row room) as [->| ->].
  - unfold demo_history. destruct (text_eqb room _); split_and!; vm_compute; discriminate.
  - split_and!; vm_compute; discriminate.
Qed.
Lemma demo_failures_over room :
  due_at 7 (row_of demo_rows room) = true /\
  (capped capped_params (count0 demo_rows room) = true ->
     parked (row_of demo_rows room) = false /\ consecutive_failures (row_of demo_rows room) <= 0).
Proof. unfold count0. destruct (demo_row room) as [->| ->]; by vm_compute. Qed.

Lemma backfill_completes_witness :
  exists w',
    srun (serve [t! "!a:x"; t! "!b:x"] demo_history (fun raw => Some (raw + 100)) demo_stats)
      (run demo_kind (fun raw => raw) capped_params 3)
      (MkSWorld (MkWorld 7 demo_rows None false ∅) []) = (false, w') /\
    events_of (t! "!a:x") w' = [1; 2; 103] /\ events_of (t! "!b:x") w' = [6] /\
    tbl (base_world w') !! t! "!a:x" = Some (MkRow (Some (t! "3")) false 3 0 None None false 0) /\
    tbl (base_world w') !! t! "!b:x" = Some (MkRow None true 2 0 None None false 0).
Proof.
  destruct (backfill_completes demo_kind (fun raw => raw) capped_params [t! "!a:x"; t! "!b:x"]
    demo_history (fun raw => Some (raw + 100)) demo_stats 7 demo_rows
    ltac:(vm_compute; reflexivity) demo_pointed demo_bounded demo_failures_over 3) as (w' & Hr & Hall).
  - apply (bool_decide_unpack _). vm_compute. exact I.
  - intros r [-> |[-> |[]%not_elem_of_nil]%elem_of_cons]%elem_of_cons; vm_compute; lia.
  - exists w'. split; [exact Hr|].
    destruct (Hall (t! "!a:x") ltac:(by left)) as (-> & -> & _).
    destruct (Hall (t! "!b:x") ltac:(by right; left)) as (-> & -> & _).
    split_and!; vm_compute; reflexivity.
Defined.

(** A run in which the listed row is purged before its page is asked for; the [statvfs]
    fails, which lets the task proceed. *)
Definition first_world : BWorld := MkWorld 9 demo_rows None false ∅.
Definition rows_listed : BWorld := MkWorld 9 demo_rows None false demo_rows.
Definition row_purged : BWorld := MkWorld 9 ∅ None false demo_rows.
Definition seen_disk : BWorld := MkWorld 9 ∅ (Some None) false demo_rows.

Lemma first_rows_ok : table_ok (tbl first_world).
Proof.
  apply map_Forall_singleton. unfold row_ok, i64_max, i32_max. cbn.
  by split_and!; try lia; split; intros.
Qed.

Lemma demo_asks :
  asks wstep (run (Event := Z) demo_kind (fun raw => raw) demo_params 1) first_world
    (GateCall (secs 30) (MkRequest (t! "!b:x") 100 (Some (t! "1")))) seen_disk.
Proof.
  cbn. right. exists false, first_world. split; [done|].
  right. exists (Some (list_room_backfill 9 demo_rows)), rows_listed. split.
  { split_and!; [done..|right]. by exists 9. }
  right. exists [t! "!b:x"], row_purged.
  split; [split_and!; try done; [apply map_empty_subseteq|apply NoDup_singleton]|].
  right. exists false, row_purged. split; [done|].
  right. exists None, seen_disk. split; [done|].
  right. exists false, seen_disk. split; [done|].
  left. split; [vm_compute; reflexivity|reflexivity].
Qed.

Lemma backfill_requests_allowed_witness :
  page_allowed demo_params seen_disk (secs 30) (MkRequest (t! "!b:x") 100 (Some (t! "1"))).
Proof.
  apply (backfill_requests_allowed (Event := Z) demo_kind (fun raw => raw) demo_params 1
    first_world); [apply first_rows_ok|apply demo_asks].
Defined.

Lemma backfill_rows_ok_witness : table_ok (tbl seen_disk).
Proof.
  apply (backfill_rows_ok (Event := Z) demo_kind (fun raw => raw) demo_params 1 first_world
    (GateCall (secs 30) (MkRequest (t! "!b:x") 100 (Some (t! "1")))) seen_disk);
    [apply first_rows_ok|apply demo_asks].
Defined.

(** A homeserver that serves, but the account's rows are purged while a page is on its
    way.  Saving the page's cursor writes the row anew, deep token and all, so the
    history the purge deleted is not paged again. *)
Definition purge_during_page (w : SWorld) (q : @BQuestion Z Z) : banswer q * SWorld :=
  let served := serve [t! "!a:x"] demo_history Some demo_stats w q in
  match q with GateCall _ _ => (served.1, with_table served.2 ∅) | _ => served end.

Example purged_cursor_comes_back :
  let row := MkRow (Some (t! "2")) false 2 0 None None false 0 in
  let w := MkSWorld (MkWorld 0 {[ t! "!a:x" := row ]} None false ∅) [] in
  let '(_, w') := srun purge_during_page (run_turn demo_kind (fun raw => raw) demo_params) w in
  tbl (base_world w') !! t! "!a:x" = Some (MkRow (Some (t! "3")) false 1 0 None None false 0).
Proof. by vm_compute. Qed.
