(* ===== verification/FlowLease.v ===== *)
(** * The lifetime of a Matrix OAuth login flow

    Models [crates/axon-sync/src/matrix_oauth_flow.rs]: the capacity lease that
    acquisition and grant flows share, its finalization fence and the retention of
    terminal flows.  [GrantRegistry] builds on it. *)

From stdpp Require Import base gmap sets list.
From Stdlib Require Import ZArith Lia.
From S2P Require Import Prelude.

Definition MAX_CONCURRENT_FLOWS : nat := 8.
Definition MAX_RETAINED_FLOWS : nat := 256.
#[global] Arguments MAX_CONCURRENT_FLOWS : simpl never.
#[global] Arguments MAX_RETAINED_FLOWS : simpl never.
Definition FLOW_TTL : Z := secs (10 * 60).
Definition BROWSER_FLOW_TTL : Z := secs (30 * 60).
Definition TERMINAL_RETENTION : Z := secs (2 * 60).

(** [has_permit]: the lease still owns its permit of the capacity semaphore. *)
Record FlowLease := MkLease {
  has_permit : bool;
  terminal_at : option Z;
  finalizing : bool;
}.

Definition new_lease : FlowLease := MkLease true None false.

Definition lease_is_live (l : FlowLease) : bool := has_permit l.
Definition lease_is_finalizing (l : FlowLease) : bool := finalizing l.

(** Each transition returns whether it happened, and the lease after it. *)
Definition claim_finalization (l : FlowLease) : bool * FlowLease :=
  if negb (lease_is_live l) || finalizing l then (false, l)
  else (true, MkLease (has_permit l) (terminal_at l) true).

Definition lease_finish (now : Z) (l : FlowLease) : bool * FlowLease :=
  if has_permit l then (true, MkLease false (Some now) (finalizing l)) else (false, l).

Definition lease_cancel (now : Z) (l : FlowLease) : bool * FlowLease :=
  if finalizing l then (false, l) else lease_finish now l.

Definition is_retained_at (now : Z) (l : FlowLease) : bool :=
  match terminal_at l with
  | None => true
  | Some at_ => sat_sub now at_ <? TERMINAL_RETENTION
  end.

(** ** The lease over time *)

Inductive LeaseOp := Claim | Finish (now : Z) | CancelLease (now : Z).

Definition lease_op (l : FlowLease) (o : LeaseOp) : bool * FlowLease :=
  match o with
  | Claim => claim_finalization l
  | Finish now => lease_finish now l
  | CancelLease now => lease_cancel now l
  end.

Definition lease_run (ops : list LeaseOp) : FlowLease :=
  foldl (fun l o => (lease_op l o).2) new_lease ops.

(** A lease is over exactly when it has a terminal time. *)
Definition lease_ok (l : FlowLease) : Prop := has_permit l = bool_decide (terminal_at l = None).

Lemma lease_op_ok l o : lease_ok l -> lease_ok (lease_op l o).2.
Proof.
  unfold lease_ok. destruct l as [[] [t|] []], o as [|now|now]; cbn; try done.
Qed.

Lemma lease_op_over l o : has_permit l = false -> lease_op l o = (false, l).
Proof. by destruct l as [[] t []], o. Qed.

(** Which operations of a run succeeded. *)
Fixpoint successes (l : FlowLease) (ops : list LeaseOp) : list LeaseOp :=
  match ops with
  | [] => []
  | o :: ops => let '(b, l') := lease_op l o in (if b then [o] else []) ++ successes l' ops
  end.

Definition ends_lease (o : LeaseOp) : bool := match o with Claim => false | _ => true end.
Definition is_cancel (o : LeaseOp) : bool := match o with CancelLease _ => true | _ => false end.

Lemma successes_over l ops : has_permit l = false -> successes l ops = [].
Proof.
  intros Hl. induction ops as [|o ops IH]; [done|]. cbn. by rewrite lease_op_over.
Qed.

(** Over any sequence of attempts a lease ends at most once, and no cancellation
    succeeds after the finalization claim. *)
Lemma lease_ends_once ops :
  (length (filter ends_lease (successes new_lease ops)) <= 1)%nat /\
  forall a b, successes new_lease ops = a ++ Claim :: b -> Forall (fun o => is_cancel o = false) b.
Proof.
  assert (forall fin ops, let l := MkLease true None fin in
    (length (filter ends_lease (successes l ops)) <= 1)%nat /\
    (fin = true -> Forall (fun o => is_cancel o = false) (successes l ops)) /\
    forall a b, successes l ops = a ++ Claim :: b -> Forall (fun o => is_cancel o = false) b) as H.
  { clear ops. intros fin ops. revert fin. induction ops as [|o ops IH]; intros fin l; subst l.
    { repeat split; [vm_compute; lia|by constructor|by intros [] b]. }
    destruct o as [|now|now], fin; cbn [successes lease_op].
    all: unfold claim_finalization, lease_finish, lease_cancel; cbn.
    all: try (rewrite successes_over by done).
    - apply (IH true).
    - destruct (IH true) as (H1 & H2 & H3). repeat split.
      + done.
      + done.
      + intros [|x a] b Hab; simplify_eq/=; eauto.
    - repeat split; [vm_compute; lia|by repeat constructor|].
      intros [|x [|y a]] b Hab; simplify_eq/=.
    - repeat split; [vm_compute; lia|done|]. intros [|x [|y a]] b Hab; simplify_eq/=.
    - apply (IH true).
    - repeat split; [vm_compute; lia|done|]. intros [|x [|y a]] b Hab; simplify_eq/=. }
  destruct (H false ops) as (H1 & _ & H3). done.
Qed.
