(* ===== verification/GrantRegistry.v ===== *)
(** * Matrix OAuth login grants: flows and their registry

    Models [crates/axon-sync/src/matrix_oauth_grant.rs]: the state a flow
    publishes, its single-use inputs, and the registry that owns every flow.  A
    step of [gstep] is one critical section, so calls of [create], [cancel],
    [cancel_account], the reaper and the drivers interleave at every point where
    the code holds no lock.  The driver itself is in [GrantDriver]. *)

From stdpp Require Import base gmap sets list strings.
From Stdlib Require Import ZArith Lia.
From S2P Require Import Prelude Text FlowLease.

(** ** What a flow publishes *)

Inductive Presentation := Display | Scan.

Inductive Stage :=
| Starting | QrReady | CheckCodeToDisplay | CheckCodeRequired | WaitingForAuthorization
| SyncingSecrets | Done | Failed | Cancelled.

#[export] Instance Presentation_eq_dec : EqDecision Presentation.
Proof. solve_decision. Defined.
#[export] Instance Stage_eq_dec : EqDecision Stage.
Proof. solve_decision. Defined.

Definition is_terminal (s : Stage) : bool :=
  match s with Done | Failed | Cancelled => true | _ => false end.

Record GrantState := MkGrantState {
  flow_id : uuid;
  account_id : uuid;
  presentation : Presentation;
  stage : Stage;
  qr_code_data : option text;
  check_code : option text;
  verification_uri : option text;
  error_code : option text;
}.

Definition new_state (flow account : uuid) (p : Presentation) : GrantState :=
  MkGrantState flow account p Starting None None None None.

Definition set_stage (s : Stage) (g : GrantState) : GrantState :=
  MkGrantState (flow_id g) (account_id g) (presentation g) s None None None None.

Inductive GrantError :=
| AccountNotFound (account : uuid)
| AccountNotActive (account : uuid)
| AccountBeingDeleted (account : uuid)
| DeviceNotTrusted
| SecretsUnavailable
| FlowAlreadyExists
| Capacity
| NotFound (flow : uuid)
| WrongStage
| InvalidInput
| Unavailable
| Internal.

(** The updates the driver publishes. *)
Inductive StableGrantUpdate :=
| UQrReady (qr : text)
| UCheckCodeToDisplay (code : text)
| UCheckCodeRequired
| UWaitingForAuthorization (uri : text)
| USyncingSecrets.

Definition apply_update (u : StableGrantUpdate) (g : GrantState) : GrantState :=
  match u with
  | UQrReady qr =>
      let g := set_stage QrReady g in
      MkGrantState (flow_id g) (account_id g) (presentation g) (stage g) (Some qr)
        (check_code g) (verification_uri g) (error_code g)
  | UCheckCodeToDisplay code =>
      let g := set_stage CheckCodeToDisplay g in
      MkGrantState (flow_id g) (account_id g) (presentation g) (stage g) (qr_code_data g)
        (Some code) (verification_uri g) (error_code g)
  | UCheckCodeRequired => set_stage CheckCodeRequired g
  | UWaitingForAuthorization uri =>
      let g := set_stage WaitingForAuthorization g in
      MkGrantState (flow_id g) (account_id g) (presentation g) (stage g) (qr_code_data g)
        (check_code g) (Some uri) (error_code g)
  | USyncingSecrets => set_stage SyncingSecrets g
  end.

(** ** A flow

    [scan_tx], [check_code_tx]: the oneshot senders still there.  [scan_rx] and
    [check_code_rx] are the receiving ends, which the driver owns. *)

Section Flow.
Context {Qr : Type}.

Inductive Rx (A : Type) := RxOpen | RxSent (value : A) | RxDropped.
Arguments RxOpen {A}.
Arguments RxSent {A}.
Arguments RxDropped {A}.

(** [oneshot::Sender::send]: fails when the receiver is gone. *)
Definition oneshot_send {A} (value : A) (rx : Rx A) : option (Rx A) :=
  match rx with RxOpen => Some (RxSent value) | _ => None end.

(** How [drive] ends a flow. *)
Inductive Ending := EDone | EFailed (code : text) | ECancelled.

Definition ending_stage (e : Ending) : Stage :=
  match e with EDone => Done | EFailed _ => Failed | ECancelled => Cancelled end.
Definition ending_code (e : Ending) : option text :=
  match e with EFailed code => Some code | _ => None end.

Record Flow := MkFlow {
  f_state : GrantState;
  scan_tx : bool;
  check_code_tx : bool;
  f_lease : FlowLease;
  scan_rx : Rx Qr;
  check_code_rx : Rx Z;
  f_cancel : bool;
}.

Definition set_state (g : GrantState) (f : Flow) : Flow :=
  MkFlow g (scan_tx f) (check_code_tx f) (f_lease f) (scan_rx f) (check_code_rx f) (f_cancel f).

(** [Flow::update] with one of the driver's updates. *)
Definition publish_stable_update (u : StableGrantUpdate) (f : Flow) : Flow :=
  if lease_is_live (f_lease f) && negb (is_terminal (stage (f_state f)))
  then set_state (apply_update u (f_state f)) f else f.

Definition flow_terminal_at (s : Stage) (code : option text) (now : Z) (f : Flow) : bool * Flow :=
  let '(ok, l) := lease_finish now (f_lease f) in
  if ok then
    let g := set_stage s (f_state f) in
    (true, MkFlow (MkGrantState (flow_id g) (account_id g) (presentation g) (stage g)
                     (qr_code_data g) (check_code g) (verification_uri g) code)
             false false l (scan_rx f) (check_code_rx f) (f_cancel f))
  else (false, f).

Definition flow_cancel (now : Z) (f : Flow) : bool * Flow :=
  let '(ok, f') := flow_terminal_at Cancelled None now f in
  if ok then (true, MkFlow (f_state f') (scan_tx f') (check_code_tx f') (f_lease f')
                      (scan_rx f') (check_code_rx f') true)
  else (false, f).

Definition accept_scan (parsed : Qr) (f : Flow) : (GrantState + GrantError) * Flow :=
  if negb (bool_decide (presentation (f_state f) = Scan))
     || negb (bool_decide (stage (f_state f) = Starting))
     || negb (lease_is_live (f_lease f))
  then (inr WrongStage, f)
  else if scan_tx f then
    let taken rx := MkFlow (f_state f) false (check_code_tx f) (f_lease f) rx (check_code_rx f)
                      (f_cancel f) in
    match oneshot_send parsed (scan_rx f) with
    | Some rx => (inl (f_state f), taken rx)
    | None => (inr WrongStage, taken (scan_rx f))
    end
  else (inr WrongStage, f).

Definition accept_check_code (value : Z) (f : Flow) : (GrantState + GrantError) * Flow :=
  if negb (bool_decide (presentation (f_state f) = Display))
     || negb (bool_decide (stage (f_state f) = CheckCodeRequired))
     || negb (lease_is_live (f_lease f))
  then (inr WrongStage, f)
  else if check_code_tx f then
    let taken rx := MkFlow (f_state f) (scan_tx f) false (f_lease f) (scan_rx f) rx
                      (f_cancel f) in
    match oneshot_send value (check_code_rx f) with
    | Some rx => (inl (f_state f), taken rx)
    | None => (inr WrongStage, taken (check_code_rx f))
    end
  else (inr WrongStage, f).

Definition new_flow (flow account : uuid) (p : Presentation) : Flow :=
  MkFlow (new_state flow account p) true true new_lease RxOpen RxOpen false.

(** ** The registry

    [heap] holds every [Arc<Flow>] by flow id; [retained] are the keys of
    [RegistryInner::flows]; [capacity] counts the semaphore's free permits.
    [creations] are the [create] calls that hold a permit, [todo] the second
    critical sections still to come of calls that have left their first one, and
    [issued] the ids [Uuid::new_v4] has returned. *)

Inductive Creation :=
| Permitted (account : uuid) (p : Presentation)
| Reserved (account flow : uuid) (p : Presentation).

Inductive Todo := ThenCancel (flow : uuid) | ThenRelease (account flow : uuid).

Record GWorld := MkGWorld {
  g_now : Z;
  heap : gmap uuid Flow;
  retained : gset uuid;
  account_owners : gmap uuid uuid;
  capacity : nat;
  creations : gmap nat Creation;
  todo : list Todo;
  issued : gset uuid;
  engine_cancel : bool;
}.

Definition new_registry (now : Z) : GWorld :=
  MkGWorld now ∅ ∅ ∅ MAX_CONCURRENT_FLOWS ∅ [] ∅ false.

Definition set_heap (h : gmap uuid Flow) (w : GWorld) : GWorld :=
  MkGWorld (g_now w) h (retained w) (account_owners w) (capacity w) (creations w) (todo w)
    (issued w) (engine_cancel w).
Definition set_retained (r : gset uuid) (w : GWorld) : GWorld :=
  MkGWorld (g_now w) (heap w) r (account_owners w) (capacity w) (creations w) (todo w)
    (issued w) (engine_cancel w).
Definition set_owners (o : gmap uuid uuid) (w : GWorld) : GWorld :=
  MkGWorld (g_now w) (heap w) (retained w) o (capacity w) (creations w) (todo w)
    (issued w) (engine_cancel w).
Definition set_capacity (c : nat) (w : GWorld) : GWorld :=
  MkGWorld (g_now w) (heap w) (retained w) (account_owners w) c (creations w) (todo w)
    (issued w) (engine_cancel w).
Definition set_creations (c : gmap nat Creation) (w : GWorld) : GWorld :=
  MkGWorld (g_now w) (heap w) (retained w) (account_owners w) (capacity w) c (todo w)
    (issued w) (engine_cancel w).
Definition set_todo (t : list Todo) (w : GWorld) : GWorld :=
  MkGWorld (g_now w) (heap w) (retained w) (account_owners w) (capacity w) (creations w) t
    (issued w) (engine_cancel w).
Definition set_issued (i : gset uuid) (w : GWorld) : GWorld :=
  MkGWorld (g_now w) (heap w) (retained w) (account_owners w) (capacity w) (creations w) (todo w)
    i (engine_cancel w).

(** A flow stays listed while it is live and for a while after it ended. *)
Definition kept_at (w : GWorld) (id : uuid) : Prop :=
  match heap w !! id with Some f => is_retained_at (g_now w) (f_lease f) = true | None => False end.
#[global] Instance kept_at_dec w id : Decision (kept_at w id).
Proof. unfold kept_at. destruct (heap w !! id); apply _. Defined.

Definition reap_expired (w : GWorld) : GWorld := set_retained (filter (kept_at w) (retained w)) w.

(** [reserve]: reap, take a permit, then claim the account under the lock. *)
Definition reserve_permit (w : GWorld) : GWorld + GrantError :=
  let w := reap_expired w in
  match capacity w with
  | O => inr Capacity
  | S n => inl (set_capacity n w)
  end.

Definition reserve_claim (account flow : uuid) (w : GWorld) : GWorld + GrantError :=
  if (MAX_RETAINED_FLOWS <=? size (retained w))%nat then inr Capacity
  else if bool_decide (is_Some (account_owners w !! account)) then inr FlowAlreadyExists
  else inl (set_owners (<[account := flow]> (account_owners w)) w).

Definition commit_reservation (flow : Flow) (w : GWorld) : GWorld + GrantError :=
  let s := f_state flow in
  if negb (bool_decide (account_owners w !! account_id s = Some (flow_id s)))
  then inr Unavailable
  else if (MAX_RETAINED_FLOWS <=? size (retained w))%nat then inr Capacity
  else inl (set_retained ({[flow_id s]} ∪ retained w) w).

(** [abandon_reservation] and [release_account_owner]. *)
Definition release_account_owner (account flow : uuid) (w : GWorld) : GWorld :=
  if bool_decide (account_owners w !! account = Some flow)
  then set_owners (delete account (account_owners w)) w else w.

(** [flow]: the flow with this id, if it is listed and belongs to the account. *)
Definition registry_flow (account flow : uuid) (w : GWorld) : GWorld * (Flow + GrantError) :=
  let w := reap_expired w in
  (w, match heap w !! flow with
      | Some f =>
          if bool_decide (flow ∈ retained w) && (account_id (f_state f) =? account)
          then inl f else inr (NotFound flow)
      | None => inr (NotFound flow)
      end).

(** [cancel_account], before and after it released the lock. *)
Definition cancel_account_take (account : uuid) (w : GWorld) : GWorld * option uuid :=
  match account_owners w !! account with
  | None => (w, None)
  | Some flow =>
      (set_owners (delete account (account_owners w)) w,
       if bool_decide (flow ∈ retained w) then Some flow else None)
  end.

(** [Flow::cancel] and [Flow::terminal] on a flow of the heap: a permit a flow
    gives up goes back to the semaphore. *)
Definition on_flow (flow : uuid) (op : Flow -> bool * Flow) (w : GWorld) : bool * GWorld :=
  match heap w !! flow with
  | None => (false, w)
  | Some f =>
      let '(ok, f') := op f in
      let w := set_heap (<[flow := f']> (heap w)) w in
      (ok, if ok then set_capacity (S (capacity w)) w else w)
  end.

Definition cancel_flow (flow : uuid) (w : GWorld) : bool * GWorld :=
  on_flow flow (flow_cancel (g_now w)) w.
Definition end_flow (e : Ending) (flow : uuid) (w : GWorld) : bool * GWorld :=
  on_flow flow (flow_terminal_at (ending_stage e) (ending_code e) (g_now w)) w.

(** The flow's token is a child of the engine's. *)
Definition flow_cancelled (w : GWorld) (f : Flow) : bool := f_cancel f || engine_cancel w.

(** [MatrixOAuthGrantEngine::cancel], the DELETE request. *)
Definition cancel_grant (account flow : uuid) (w : GWorld) : GWorld :=
  let '(w, r) := registry_flow account flow w in
  match r with
  | inr _ => w
  | inl _ =>
      let '(ok, w) := cancel_flow flow w in
      if ok then release_account_owner account flow w else w
  end.

(** ** Requests *)

(** [parse_check_code]: exactly two decimal digits, as a [u8]. *)
Definition parse_check_code (value : text) : option Z :=
  if negb (utf8_len value =? 2) || negb (forallb is_ascii_digit (utf8_encode value)) then None
  else parse_int 0 255 value.

Definition on_accept {A} (flow : uuid) (op : Flow -> A * Flow) (w : GWorld) : option (A * GWorld) :=
  match heap w !! flow with
  | None => None
  | Some f => let '(r, f') := op f in Some (r, set_heap (<[flow := f']> (heap w)) w)
  end.

(** The requests about a flow: parse, look the flow up, then lock it. *)
Definition submit {A} (parsed : option A) (accept : A -> Flow -> (GrantState + GrantError) * Flow)
    (account flow : uuid) (w : GWorld) : GWorld * (GrantState + GrantError) :=
  match parsed with
  | None => (w, inr InvalidInput)
  | Some value =>
      let '(w, r) := registry_flow account flow w in
      match r with
      | inr e => (w, inr e)
      | inl _ =>
          match on_accept flow (accept value) w with
          | Some (r, w) => (w, r)
          | None => (w, inr (NotFound flow))
          end
      end
  end.

Definition submit_check_code (account flow : uuid) (code : text) : GWorld -> _ :=
  submit (parse_check_code code) accept_check_code account flow.
Definition submit_scan (parse_grant_qr_payload : text -> option Qr) (account flow : uuid)
    (data : text) : GWorld -> _ :=
  submit (parse_grant_qr_payload data) accept_scan account flow.

Definition get_grant (account flow : uuid) (w : GWorld) : GWorld * (GrantState + GrantError) :=
  let '(w, r) := registry_flow account flow w in
  (w, match r with inl f => inl (f_state f) | inr e => inr e end).

(** ** Interleavings *)

Inductive GEvent :=
| GTick (d : Z)
| GReap
| GReserve (c : nat) (account : uuid) (p : Presentation)
| GClaim (c : nat) (flow : uuid)
| GCommit (c : nat)
| GFail (c : nat)
| GDropped (c : nat)
| GCancelAccount (account : uuid)
| GDelete (flow : uuid)
| GScan (flow : uuid) (qr : Qr)
| GCode (flow : uuid) (code : Z)
| GPublish (flow : uuid) (u : StableGrantUpdate)
| GEnd (flow : uuid) (end_ : Ending)
| GDriverGone (flow : uuid)
| GTodo (i : nat)
| GEngineCancel.

(** The call [c] of [create] is over without a flow; [then_] is what it still
    has to do. *)
Definition end_creation (c : nat) (then_ : list Todo) (w : GWorld) : GWorld :=
  set_todo (todo w ++ then_)
    (set_capacity (S (capacity w)) (set_creations (delete c (creations w)) w)).

(** After [Flow::terminal] or [Flow::cancel]: the winner releases the account. *)
Definition then_release (flow : uuid) (r : bool * GWorld) : GWorld :=
  let '(ok, w) := r in
  match ok, heap w !! flow with
  | true, Some f => set_todo (todo w ++ [ThenRelease (account_id (f_state f)) flow]) w
  | _, _ => w
  end.

Definition drop_receivers (f : Flow) : Flow :=
  MkFlow (f_state f) (scan_tx f) (check_code_tx f) (f_lease f) RxDropped RxDropped (f_cancel f).

Definition do_todo (t : Todo) (w : GWorld) : GWorld :=
  match t with
  | ThenCancel flow => (cancel_flow flow w).2
  | ThenRelease account flow => release_account_owner account flow w
  end.

(** [None]: the event cannot happen now.  A dropped [create] future (its client
    disconnected) gives its permit back and does nothing else. *)
Definition gstep (w : GWorld) (e : GEvent) : option GWorld :=
  match e with
  | GTick d =>
      if d <? 0 then None else
      Some (MkGWorld (g_now w + d) (heap w) (retained w) (account_owners w) (capacity w)
              (creations w) (todo w) (issued w) (engine_cancel w))
  | GReap => Some (reap_expired w)
  | GReserve c account p =>
      match creations w !! c, reserve_permit w with
      | Some _, _ => None
      | None, inl w => Some (set_creations (<[c := Permitted account p]> (creations w)) w)
      | None, inr _ => Some (reap_expired w)
      end
  | GClaim c flow =>
      match creations w !! c with
      | Some (Permitted account p) =>
          if bool_decide (flow ∈ issued w) then None else
          match reserve_claim account flow w with
          | inl w => Some (set_issued ({[flow]} ∪ issued w)
                       (set_creations (<[c := Reserved account flow p]> (creations w)) w))
          | inr _ => Some (end_creation c [] w)
          end
      | _ => None
      end
  | GCommit c =>
      match creations w !! c with
      | Some (Reserved account flow p) =>
          let f := new_flow flow account p in
          match commit_reservation f w with
          | inl w => Some (set_heap (<[flow := f]> (heap w))
                       (set_creations (delete c (creations w)) w))
          | inr _ => Some (end_creation c [ThenRelease account flow] w)
          end
      | _ => None
      end
  | GFail c =>
      match creations w !! c with
      | Some (Reserved account flow _) => Some (end_creation c [ThenRelease account flow] w)
      | _ => None
      end
  | GDropped c =>
      match creations w !! c with
      | Some (Reserved _ _ _) => Some (end_creation c [] w)
      | _ => None
      end
  | GCancelAccount account =>
      let '(w, r) := cancel_account_take account w in
      Some (match r with Some flow => set_todo (todo w ++ [ThenCancel flow]) w | None => w end)
  | GDelete flow => Some (then_release flow (cancel_flow flow w))
  | GScan flow qr => snd <$> on_accept flow (accept_scan qr) w
  | GCode flow code => snd <$> on_accept flow (accept_check_code code) w
  | GPublish flow u =>
      snd <$> on_accept flow (fun f => (tt, publish_stable_update u f)) w
  | GEnd flow end_ => Some (then_release flow (end_flow end_ flow w))
  | GDriverGone flow => snd <$> on_accept flow (fun f => (tt, drop_receivers f)) w
  | GTodo i =>
      match todo w !! i with
      | Some t => Some (do_todo t (set_todo (delete i (todo w)) w))
      | None => None
      end
  | GEngineCancel =>
      Some (MkGWorld (g_now w) (heap w) (retained w) (account_owners w) (capacity w)
              (creations w) (todo w) (issued w) true)
  end.

Inductive g_reach (now : Z) : GWorld -> Prop :=
| g_reach_init : g_reach now (new_registry now)
| g_reach_step w e w' : g_reach now w -> gstep w e = Some w' -> g_reach now w'.

Fixpoint g_run (w : GWorld) (es : list GEvent) : option GWorld :=
  match es with
  | [] => Some w
  | e :: es => gstep w e ≫= fun w' => g_run w' es
  end.

Lemma g_run_reach now w es w' : g_reach now w -> g_run w es = Some w' -> g_reach now w'.
Proof.
  revert w. induction es as [|e es IH]; intros w Hw H; simplify_eq/=; [done|].
  destruct (gstep w e) as [w1|] eqn:E; simplify_eq/=. eapply IH; [|done]. by econstructor.
Qed.

(** ** Flows are well formed

    Each stage has exactly its own data. *)
Definition state_ok (g : GrantState) : Prop :=
  (is_Some (qr_code_data g) <-> stage g = QrReady) /\
  (is_Some (check_code g) <-> stage g = CheckCodeToDisplay) /\
  (is_Some (verification_uri g) <-> stage g = WaitingForAuthorization) /\
  (is_Some (error_code g) <-> stage g = Failed).

Definition unsent {A} (rx : Rx A) : Prop := match rx with RxSent _ => False | _ => True end.

(** Over exactly when in a terminal stage, and then without inputs; an input
    that is still open has not been sent. *)
Definition flow_ok (f : Flow) : Prop :=
  state_ok (f_state f) /\ lease_ok (f_lease f) /\ finalizing (f_lease f) = false /\
  is_terminal (stage (f_state f)) = negb (has_permit (f_lease f)) /\
  (has_permit (f_lease f) = false -> scan_tx f = false /\ check_code_tx f = false) /\
  (scan_tx f = true -> unsent (scan_rx f)) /\
  (check_code_tx f = true -> unsent (check_code_rx f)).

(** A value that was sent is not replaced. *)
Definition stays {A} (rx rx' : Rx A) : Prop :=
  match rx with
  | RxOpen => True
  | RxSent v => rx' = RxSent v \/ rx' = RxDropped
  | RxDropped => rx' = RxDropped
  end.

(** What any operation may do to a flow: nothing once it is over, and its inputs
    are sent at most once. *)
Definition evolves (f f' : Flow) : Prop :=
  flow_id (f_state f') = flow_id (f_state f) /\
  account_id (f_state f') = account_id (f_state f) /\
  presentation (f_state f') = presentation (f_state f) /\
  (has_permit (f_lease f) = false ->
     f_state f' = f_state f /\ f_lease f' = f_lease f /\
     scan_tx f' = scan_tx f /\ check_code_tx f' = check_code_tx f) /\
  (has_permit (f_lease f') = true -> has_permit (f_lease f) = true) /\
  stays (scan_rx f) (scan_rx f') /\ stays (check_code_rx f) (check_code_rx f').

Ltac state_cases :=
  unfold state_ok; cbn; repeat split; first
    [ by intros [? ?] | done | by (intros; simplify_eq; eauto) | by (intros; eexists) ].

Lemma new_flow_ok flow account p : flow_ok (new_flow flow account p).
Proof. unfold flow_ok. split_and!; cbn; try done. state_cases. Qed.

Lemma stays_refl {A} (rx : Rx A) : stays rx rx.
Proof. destruct rx; cbn; auto. Qed.

Lemma stays_trans {A} (r1 r2 r3 : Rx A) : stays r1 r2 -> stays r2 r3 -> stays r1 r3.
Proof.
  destruct r1; cbn; [done| |by intros ->]. intros [-> | ->]; cbn; auto.
Qed.

Lemma evolves_refl f : evolves f f.
Proof. unfold evolves. split_and!; auto using stays_refl. Qed.

Lemma evolves_trans f1 f2 f3 : evolves f1 f2 -> evolves f2 f3 -> evolves f1 f3.
Proof.
  intros (A1 & A2 & A3 & A4 & A5 & A6 & A7) (B1 & B2 & B3 & B4 & B5 & B6 & B7). unfold evolves.
  rewrite B1, B2, B3. split_and!; eauto using stays_trans. intros H. destruct (A4 H) as (? & HL & ? & ?). rewrite HL in B4.
  destruct (B4 H) as (? & ? & ? & ?). repeat split; congruence.
Qed.

Lemma apply_update_ok u g : state_ok (apply_update u g).
Proof. destruct u; state_cases. Qed.

Lemma apply_update_same u g :
  flow_id (apply_update u g) = flow_id g /\ account_id (apply_update u g) = account_id g /\
  presentation (apply_update u g) = presentation g /\
  is_terminal (stage (apply_update u g)) = false.
Proof. by destruct u. Qed.

Ltac flow_cases Hf :=
  destruct Hf as (Hst & HL & Hfin & Ht & Hover & Hs & Hc);
  split; [unfold flow_ok|unfold evolves]; split_and!; cbn; try done; try congruence;
  try apply stays_refl.

Lemma publish_ok u f : flow_ok f ->
  flow_ok (publish_stable_update u f) /\ evolves f (publish_stable_update u f).
Proof.
  intros Hf. unfold publish_stable_update, lease_is_live.
  destruct (has_permit (f_lease f)) eqn:El; cbn; [|split; [done|apply evolves_refl]].
  destruct (is_terminal _) eqn:Et; cbn; [split; [done|apply evolves_refl]|].
  destruct (apply_update_same u (f_state f)) as (H1 & H2 & H3 & H4).
  flow_cases Hf; first [apply apply_update_ok|by rewrite H4, El].
Qed.

Lemma terminal_state_ok e g :
  state_ok (MkGrantState (flow_id g) (account_id g) (presentation g) (ending_stage e)
              None None None (ending_code e)).
Proof. destruct e; state_cases. Qed.

Lemma terminal_ok e now f : flow_ok f ->
  let r := flow_terminal_at (ending_stage e) (ending_code e) now f in
  flow_ok r.2 /\ evolves f r.2 /\ r.1 = has_permit (f_lease f) /\ has_permit (f_lease r.2) = false.
Proof.
  intros Hf. unfold flow_terminal_at, lease_finish.
  destruct (has_permit (f_lease f)) eqn:El; cbn.
  - match goal with |- flow_ok ?x /\ _ => assert (flow_ok x /\ evolves f x) as [? ?] end.
    { flow_cases Hf; first [apply (terminal_state_ok e (f_state f))|by destruct e]. }
    split_and!; done.
  - split_and!; try done; apply evolves_refl.
Qed.

Lemma flow_cancel_ok now f : flow_ok f ->
  let r := flow_cancel now f in
  flow_ok r.2 /\ evolves f r.2 /\ r.1 = has_permit (f_lease f) /\ has_permit (f_lease r.2) = false /\
  (r.1 = true -> f_cancel r.2 = true).
Proof.
  intros Hf. pose proof (terminal_ok ECancelled now f Hf) as (H1 & H2 & H3 & H4).
  unfold flow_cancel. cbn in *.
  destruct (flow_terminal_at Cancelled None now f) as [[] f'] eqn:E; cbn in *.
  - split_and!; done.
  - split_and!; try done; apply evolves_refl.
Qed.

Lemma accept_scan_ok qr f : flow_ok f ->
  flow_ok (accept_scan qr f).2 /\ evolves f (accept_scan qr f).2.
Proof.
  intros Hf. unfold accept_scan.
  destruct (negb _ || _ || _) eqn:E; [split; [done|apply evolves_refl]|].
  destruct (scan_tx f) eqn:Et; [|split; [done|apply evolves_refl]].
  unfold lease_is_live in *. apply orb_false_iff in E as [E1 E2%negb_false_iff].
  destruct (oneshot_send qr (scan_rx f)) eqn:Es; flow_cases Hf.
  by destruct (scan_rx f).
Qed.

Lemma accept_check_code_ok v f : flow_ok f ->
  flow_ok (accept_check_code v f).2 /\ evolves f (accept_check_code v f).2.
Proof.
  intros Hf. unfold accept_check_code.
  destruct (negb _ || _ || _) eqn:E; [split; [done|apply evolves_refl]|].
  destruct (check_code_tx f) eqn:Et; [|split; [done|apply evolves_refl]].
  unfold lease_is_live in *. apply orb_false_iff in E as [E1 E2%negb_false_iff].
  destruct (oneshot_send v (check_code_rx f)) eqn:Es; flow_cases Hf.
  by destruct (check_code_rx f).
Qed.

Lemma drop_receivers_ok f : flow_ok f -> flow_ok (drop_receivers f) /\ evolves f (drop_receivers f).
Proof.
  intros Hf. flow_cases Hf; [by destruct (scan_rx f); cbn; auto|].
  by destruct (check_code_rx f); cbn; auto.
Qed.

(** Operations that end nothing leave the lease alone. *)
Lemma publish_lease u f : f_lease (publish_stable_update u f) = f_lease f.
Proof. unfold publish_stable_update. by destruct (_ && _). Qed.

Lemma accept_scan_lease qr f : f_lease (accept_scan qr f).2 = f_lease f.
Proof.
  unfold accept_scan. destruct (_ || _); [done|]. destruct (scan_tx f); [|done].
  by destruct (oneshot_send _ _).
Qed.

Lemma accept_check_code_lease v f : f_lease (accept_check_code v f).2 = f_lease f.
Proof.
  unfold accept_check_code. destruct (_ || _); [done|]. destruct (check_code_tx f); [|done].
  by destruct (oneshot_send _ _).
Qed.

(** ** The registry's invariant *)

Definition live (f : Flow) : Prop := has_permit (f_lease f) = true.
Definition live_ids (h : gmap uuid Flow) : gset uuid :=
  dom (filter (fun kv => live kv.2) h).

Lemma elem_of_live_ids h id : id ∈ live_ids h <-> exists f, h !! id = Some f /\ live f.
Proof.
  unfold live_ids. rewrite elem_of_dom. split.
  - intros [f [H1 H2]%map_lookup_filter_Some]. eauto.
  - intros (f & H1 & H2). exists f. by apply map_lookup_filter_Some.
Qed.

Record ginv (w : GWorld) : Prop := {
  gi_flows id f : heap w !! id = Some f ->
    flow_ok f /\ flow_id (f_state f) = id /\ id ∈ issued w;
  gi_capacity : (capacity w + size (creations w) + size (live_ids (heap w)))%nat
                = MAX_CONCURRENT_FLOWS;
  gi_retained id : id ∈ retained w -> is_Some (heap w !! id);
  gi_retained_size : (size (retained w) <= MAX_RETAINED_FLOWS)%nat;
  gi_live id f : heap w !! id = Some f -> live f ->
    id ∈ retained w /\
    (account_owners w !! account_id (f_state f) = Some id \/ ThenCancel id ∈ todo w);
  gi_creations c a id p : creations w !! c = Some (Reserved a id p) ->
    id ∈ issued w /\ heap w !! id = None /\ forall a', ThenRelease a' id ∉ todo w;
  gi_distinct c1 c2 a1 a2 id p1 p2 : creations w !! c1 = Some (Reserved a1 id p1) ->
    creations w !! c2 = Some (Reserved a2 id p2) -> c1 = c2;
  gi_todo a id : ThenRelease a id ∈ todo w ->
    id ∈ issued w /\ forall f, heap w !! id = Some f -> ~ live f;
  gi_cancels id : ThenCancel id ∈ todo w -> is_Some (heap w !! id);
  gi_owners a id : account_owners w !! a = Some id -> id ∈ issued w;
}.

Lemma ginv_init now : ginv (new_registry now).
Proof.
  split; unfold new_registry;
    cbn [heap retained account_owners capacity creations todo issued];
    try (intros *; rewrite ?lookup_empty; done).
  all: try (intros *; by intros ?%elem_of_nil).
  all: try (intros *; set_solver).
  all: rewrite ?size_empty; unfold MAX_RETAINED_FLOWS; lia.
Qed.

Lemma ginv_flow_op w id f f' : ginv w -> heap w !! id = Some f ->
  flow_ok f' /\ evolves f f' -> f_lease f' = f_lease f -> ginv (set_heap (<[id := f']> (heap w)) w).
Proof.
  intros I Hf [Hok (E1 & E2 & _)] EL.
  assert (forall i g, <[id := f']> (heap w) !! i = Some g ->
    exists g0, heap w !! i = Some g0 /\ flow_id (f_state g) = flow_id (f_state g0) /\
      account_id (f_state g) = account_id (f_state g0) /\ f_lease g = f_lease g0) as Hback.
  { intros i g. destruct (decide (i = id)) as [->|].
    - rewrite lookup_insert_eq. intros [= <-]. eauto 6.
    - rewrite lookup_insert_ne by done. eauto 6. }
  assert (forall i, is_Some (heap w !! i) -> is_Some (<[id := f']> (heap w) !! i)) as Hsome
    by (intros i Hi; apply lookup_insert_is_Some'; auto).
  split; cbn.
  - intros i g Hg. destruct (Hback i g Hg) as (g0 & Hg0 & -> & _).
    destruct (gi_flows _ I _ _ Hg0) as (? & -> & ?). split; [|done].
    destruct (decide (i = id)) as [->|]; [rewrite lookup_insert_eq in Hg; by simplify_eq|].
    rewrite lookup_insert_ne in Hg by done. by simplify_eq.
  - rewrite <- (gi_capacity _ I). do 2 f_equal. apply set_eq. intros i.
    rewrite !elem_of_live_ids. unfold live. split; intros (g & Hg & Hl).
    + destruct (Hback i g Hg) as (g0 & Hg0 & _ & _ & HL). rewrite HL in Hl. eauto.
    + destruct (decide (i = id)) as [->|].
      * exists f'. rewrite lookup_insert_eq, EL. simplify_eq. eauto.
      * exists g. by rewrite lookup_insert_ne.
  - intros i Hi. by apply Hsome, (gi_retained _ I).
  - apply (gi_retained_size _ I).
  - intros i g Hg Hl. destruct (Hback i g Hg) as (g0 & Hg0 & _ & -> & HL).
    apply (gi_live _ I i g0); [done|]. by unfold live in *; rewrite <- HL.
  - intros c a i p Hc. destruct (gi_creations _ I _ _ _ _ Hc) as (? & Hn & ?). split_and!; try done.
    rewrite lookup_insert_ne; [done|]. intros ->. congruence.
  - apply (gi_distinct _ I).
  - intros a i Hi. destruct (gi_todo _ I a i Hi) as [? H]. split; [done|]. intros g Hg Hl.
    destruct (Hback i g Hg) as (g0 & Hg0 & _ & _ & HL). apply (H g0 Hg0). by unfold live in *; rewrite <- HL.
  - intros i Hi. by apply Hsome, (gi_cancels _ I).
  - apply (gi_owners _ I).
Qed.

(** A flow that ends gives its permit back. *)
Lemma ginv_end w id f f' : ginv w -> heap w !! id = Some f -> live f ->
  flow_ok f' -> evolves f f' -> ~ live f' ->
  ginv (set_capacity (S (capacity w)) (set_heap (<[id := f']> (heap w)) w)).
Proof.
  intros I Hf Hl Hok (E1 & E2 & _) Hl'.
  assert (forall i g, <[id := f']> (heap w) !! i = Some g -> live g ->
    heap w !! i = Some g /\ i <> id) as Hback.
  { intros i g. destruct (decide (i = id)) as [->|]; [|by rewrite lookup_insert_ne by done].
    rewrite lookup_insert_eq. by intros [= <-]. }
  assert (forall i, is_Some (heap w !! i) -> is_Some (<[id := f']> (heap w) !! i)) as Hsome
    by (intros i Hi; apply lookup_insert_is_Some'; auto).
  split; cbn.
  - intros i g. destruct (decide (i = id)) as [->|]; [|rewrite lookup_insert_ne by done; apply (gi_flows _ I)].
    rewrite lookup_insert_eq. intros [= <-]. destruct (gi_flows _ I _ _ Hf) as (? & <- & ?). done.
  - rewrite <- (gi_capacity _ I).
    replace (live_ids (<[id := f']> (heap w))) with (live_ids (heap w) ∖ {[id]}).
    + assert ({[id]} ⊆ live_ids (heap w)) as Hsub.
      { apply singleton_subseteq_l, elem_of_live_ids. eauto. }
      rewrite size_difference, size_singleton by done. apply subseteq_size in Hsub.
      rewrite size_singleton in Hsub. lia.
    + apply set_eq. intros i. rewrite elem_of_difference, elem_of_singleton, !elem_of_live_ids.
      split.
      * intros [(g & Hg & Hgl) Hne]. exists g. by rewrite lookup_insert_ne.
      * intros (g & Hg & Hgl). destruct (Hback i g Hg Hgl). eauto.
  - intros i Hi. by apply Hsome, (gi_retained _ I).
  - apply (gi_retained_size _ I).
  - intros i g Hg Hgl. destruct (Hback i g Hg Hgl) as [Hg0 _]. by apply (gi_live _ I).
  - intros c a i p Hc. destruct (gi_creations _ I _ _ _ _ Hc) as (? & Hn & ?). split_and!; try done.
    rewrite lookup_insert_ne; [done|]. intros ->. congruence.
  - apply (gi_distinct _ I).
  - intros a i Hi. destruct (gi_todo _ I a i Hi) as [? H]. split; [done|]. intros g Hg Hgl.
    destruct (Hback i g Hg Hgl) as [Hg0 _]. by apply (H g).
  - intros i Hi. by apply Hsome, (gi_cancels _ I).
  - apply (gi_owners _ I).
Qed.

Lemma live_dec_false f : ~ live f <-> has_permit (f_lease f) = false.
Proof. unfold live. by destruct (has_permit _). Qed.

(** Both ways a flow can end, from any interleaving. *)
Lemma ginv_on_flow w id (op : Flow -> bool * Flow) :
  (forall f, flow_ok f -> flow_ok (op f).2 /\ evolves f (op f).2 /\
     (op f).1 = has_permit (f_lease f) /\ has_permit (f_lease (op f).2) = false) ->
  ginv w -> ginv (on_flow id op w).2.
Proof.
  intros Hop I. unfold on_flow. destruct (heap w !! id) as [f|] eqn:Ef; [|done].
  destruct (gi_flows _ I _ _ Ef) as [Hok _]. destruct (Hop f Hok) as (H1 & H2 & H3 & H4).
  destruct (op f) as [ok f']; cbn in *. destruct ok; cbn.
  - apply ginv_end with f; try done. by apply live_dec_false.
  - apply ginv_flow_op with f; try done. symmetry in H3. destruct H2 as (_ & _ & _ & H2 & _).
    by apply H2.
Qed.

Lemma ginv_cancel_flow w id : ginv w -> ginv (cancel_flow id w).2.
Proof.
  intros I. apply ginv_on_flow; [|done]. intros f Hf. destruct (flow_cancel_ok (g_now w) f Hf). naive_solver.
Qed.

Lemma ginv_end_flow e w id : ginv w -> ginv (end_flow e id w).2.
Proof. intros I. apply ginv_on_flow; [|done]. intros f Hf. apply (terminal_ok e (g_now w) f Hf). Qed.

(** After either the flow is over. *)
Lemma on_flow_over w id (op : Flow -> bool * Flow) :
  (forall f, flow_ok f -> has_permit (f_lease (op f).2) = false) ->
  ginv w -> forall f, heap (on_flow id op w).2 !! id = Some f -> ~ live f.
Proof.
  intros Hop I f. unfold on_flow. destruct (heap w !! id) as [g|] eqn:Eg; cbn; [|congruence].
  destruct (gi_flows _ I _ _ Eg) as [Hok _]. specialize (Hop g Hok).
  destruct (op g) as [ok g']; cbn in *. rewrite live_dec_false.
  destruct ok; cbn; rewrite lookup_insert_eq; congruence.
Qed.

(** Adding the release of a flow that is over, or of an id that has no flow. *)
Lemma ginv_add_release w a id : ginv w -> id ∈ issued w ->
  (forall f, heap w !! id = Some f -> ~ live f) ->
  (forall c a' p, creations w !! c <> Some (Reserved a' id p)) ->
  ginv (set_todo (todo w ++ [ThenRelease a id]) w).
Proof.
  intros I Hi Hl Hc. destruct I. split; cbn; try done.
  - intros i f Hf Hlf. destruct (gi_live0 i f Hf Hlf) as [? [?|?]]; split; auto.
    right. rewrite elem_of_app. by left.
  - intros c a' i p H. destruct (gi_creations0 c a' i p H) as (? & ? & Hr). split_and!; try done.
    intros a2 [?|Ha]%elem_of_app; [by eapply Hr|]. apply list_elem_of_singleton in Ha. simplify_eq.
    by eapply Hc.
  - intros a' i [Ha|Ha]%elem_of_app; [by apply (gi_todo0 a')|].
    apply list_elem_of_singleton in Ha. by simplify_eq.
  - intros i [Ha|Ha]%elem_of_app; [by apply gi_cancels0|].
    by apply list_elem_of_singleton in Ha.
Qed.

Lemma ginv_then_release w id (op : Flow -> bool * Flow) :
  (forall f, flow_ok f -> flow_ok (op f).2 /\ evolves f (op f).2 /\
     (op f).1 = has_permit (f_lease f) /\ has_permit (f_lease (op f).2) = false) ->
  ginv w -> ginv (then_release id (on_flow id op w)).
Proof.
  intros Hop I. pose proof (ginv_on_flow w id op Hop I) as I'.
  pose proof (on_flow_over w id op ltac:(intros f Hf; by apply Hop) I) as Hover.
  unfold then_release. destruct (on_flow id op w) as [[] w'] eqn:E; cbn in *; [|done].
  destruct (heap w' !! id) as [f|] eqn:Ef; [|done].
  apply ginv_add_release; try done.
  - by apply (gi_flows _ I' id f).
  - intros g Hg. apply Hover. congruence.
  - intros c a' p Hc. apply (gi_creations _ I') in Hc as (_ & Hn & _). congruence.
Qed.

(** Leaving the registry lock with the creation over. *)
Lemma ginv_end_creation w c : ginv w -> is_Some (creations w !! c) ->
  ginv (end_creation c [] w).
Proof.
  intros I [cr Hc]. destruct I. split; cbn; rewrite ?app_nil_r; try done.
  - rewrite map_size_delete_Some by eauto. assert (size (creations w) <> 0)%nat.
    { rewrite map_size_non_empty_iff. intros H. by rewrite H, lookup_empty in Hc. }
    lia.
  - intros c' a i p [_ H]%lookup_delete_Some. eauto.
  - intros c1 c2 a1 a2 i p1 p2 [_ H1]%lookup_delete_Some [_ H2]%lookup_delete_Some. eauto.
Qed.

Lemma ginv_fail_creation w c a id p : ginv w -> creations w !! c = Some (Reserved a id p) ->
  ginv (end_creation c [ThenRelease a id] w).
Proof.
  intros I Hc. pose proof (ginv_end_creation w c I ltac:(eauto)) as I'.
  destruct (gi_creations _ I _ _ _ _ Hc) as (Hi & Hn & _).
  pose proof (ginv_add_release _ a id I' Hi) as H. cbn in H. rewrite app_nil_r in H.
  apply H; [congruence|]. intros c' a' p' [Hne H']%lookup_delete_Some.
  by destruct (gi_distinct _ I _ _ _ _ _ _ _ Hc H').
Qed.

(** A todo leaves the list once it no longer matters. *)
Lemma ginv_drop_todo w i : ginv w ->
  (forall id f, todo w !! i = Some (ThenCancel id) -> heap w !! id = Some f -> ~ live f) ->
  ginv (set_todo (delete i (todo w)) w).
Proof.
  intros I Hd. destruct I.
  assert (forall t, t ∈ delete i (todo w) -> t ∈ todo w) as Hsub.
  { intros t. apply list_subseteq_delete. }
  split; cbn; try done.
  - intros id f Hf Hl. destruct (gi_live0 id f Hf Hl) as [? [?|Ht]]; split; auto. right.
    apply list_elem_of_lookup in Ht as [j Hj].
    assert (j <> i) as Hne by (intros ->; by eapply Hd).
    apply list_elem_of_lookup. destruct (decide (j < i)%nat).
    + exists j. by rewrite list_lookup_delete_lt.
    + exists (j - 1)%nat. rewrite list_lookup_delete_ge by lia. by replace (S (j - 1)) with j by lia.
  - intros c a id p H. destruct (gi_creations0 c a id p H) as (? & ? & Hr). split_and!; try done.
    intros a' Ha%Hsub. by eapply Hr.
  - intros a id H%Hsub. eauto.
  - intros id H%Hsub. eauto.
Qed.

Lemma ginv_reap w : ginv w -> ginv (reap_expired w).
Proof.
  intros I. pose proof (gi_retained_size _ I) as Hsz. destruct I. split; cbn; try done.
  - intros id [_ Hid]%elem_of_filter. auto.
  - etrans; [|apply Hsz]. apply subseteq_size. intros x [_ ?]%elem_of_filter. done.
  - intros id f Hf Hl. destruct (gi_live0 id f Hf Hl) as [? ?]. split; [|done].
    apply elem_of_filter. split; [|done]. unfold kept_at. rewrite Hf.
    destruct (gi_flows0 id f Hf) as [(_ & HL & _) _].
    unfold live, lease_ok in *. rewrite Hl in HL. unfold is_retained_at.
    destruct (terminal_at (f_lease f)); [|done]. symmetry in HL. by apply bool_decide_eq_true in HL.
Qed.

Lemma ginv_claim w c a id p w' : ginv w -> creations w !! c = Some (Permitted a p) ->
  id ∉ issued w -> reserve_claim a id w = inl w' ->
  ginv (set_issued ({[id]} ∪ issued w')
          (set_creations (<[c := Reserved a id p]> (creations w')) w')).
Proof.
  intros I Hc Hi. unfold reserve_claim.
  destruct (MAX_RETAINED_FLOWS <=? size (retained w))%nat; [done|]. case_bool_decide as Ho; [done|].
  intros [= <-]. pose proof (gi_flows _ I) as Hfl. destruct I. split; cbn; try done.
  - intros i f Hf. destruct (Hfl i f Hf) as (? & ? & ?). split; [done|]. split; [done|]. by apply elem_of_union_r.
  - rewrite map_size_insert_Some by eauto. done.
  - intros i f Hf Hl. destruct (gi_live0 i f Hf Hl) as [? [H'|?]]; split; auto. left.
    rewrite lookup_insert_ne; [done|]. intros ->. by destruct Ho.
  - intros c' a' i p' [[<- [= <- <- <-]]|[Hne H']]%lookup_insert_Some.
    + split; [by apply elem_of_union_l, elem_of_singleton|]. split.
      * destruct (heap w !! id) eqn:E; [|done]. by apply Hfl in E as (_ & _ & ?).
      * intros a' Ht. by apply gi_todo0 in Ht as [? _].
    + destruct (gi_creations0 _ _ _ _ H') as (? & ? & ?). split; [by apply elem_of_union_r|done].
  - intros c1 c2 a1 a2 i p1 p2 [[<- [= <- <- <-]]|[Hn1 H1]]%lookup_insert_Some
      [[<- E2]|[Hn2 H2]]%lookup_insert_Some; try done.
    + by apply gi_creations0 in H2 as (? & _).
    + simplify_eq. by apply gi_creations0 in H1 as (? & _).
    + eauto.
  - intros a' i Ht. apply gi_todo0 in Ht as [? ?]. split; [by apply elem_of_union_r|done].
  - intros a' i [[<- <-]|[Hne H']]%lookup_insert_Some.
    + by apply elem_of_union_l, elem_of_singleton.
    + apply elem_of_union_r. eauto.
Qed.

Lemma live_ids_insert_live h id f : h !! id = None -> live f ->
  live_ids (<[id := f]> h) = {[id]} ∪ live_ids h.
Proof.
  intros Hn Hl. apply set_eq. intros i. rewrite elem_of_union, elem_of_singleton, !elem_of_live_ids.
  destruct (decide (i = id)) as [->|].
  - rewrite lookup_insert_eq. split; eauto.
  - rewrite lookup_insert_ne by done. naive_solver.
Qed.

Lemma ginv_commit w c a id p w' : ginv w -> creations w !! c = Some (Reserved a id p) ->
  commit_reservation (new_flow id a p) w = inl w' ->
  ginv (set_heap (<[id := new_flow id a p]> (heap w')) (set_creations (delete c (creations w')) w')).
Proof.
  intros I Hc. pose proof (ginv_end_creation w c I ltac:(eauto)) as I'.
  unfold commit_reservation. cbn. case_bool_decide as Ho; [cbn|done].
  destruct (MAX_RETAINED_FLOWS <=? size (retained w))%nat eqn:Hs; [done|].
  intros [= <-]. apply Nat.leb_gt in Hs.
  destruct (gi_creations _ I _ _ _ _ Hc) as (Hi & Hn & Hr).
  pose proof (gi_capacity _ I') as Hcap. pose proof (gi_distinct _ I) as Hdist.
  assert (forall i f, <[id := new_flow id a p]> (heap w) !! i = Some f ->
    (i = id /\ f = new_flow id a p) \/ (i <> id /\ heap w !! i = Some f)) as Hback.
  { intros i f [[<- <-]|[? ?]]%lookup_insert_Some; auto. }
  destruct I. split; cbn; try done.
  - intros i f [[-> ->]|[_ H]]%Hback; [|eauto]. split; [apply new_flow_ok|done].
  - cbn in Hcap. rewrite live_ids_insert_live, size_union, size_singleton by
      (first [done | intros x ->%elem_of_singleton (f & Hf & _)%elem_of_live_ids; congruence]). lia.
  - intros i [->%elem_of_singleton|H]%elem_of_union; [by rewrite lookup_insert_eq|].
    apply lookup_insert_is_Some'. right. eauto.
  - rewrite size_union, size_singleton; [lia|]. intros x ->%elem_of_singleton Hx.
    apply gi_retained0 in Hx as [? ?]. congruence.
  - intros i f [[-> ->]|[_ H]]%Hback Hl.
    + split; [by apply elem_of_union_l, elem_of_singleton|by left].
    + destruct (gi_live0 i f H Hl). split; [by apply elem_of_union_r|done].
  - intros c' a' i p' [Hne H]%lookup_delete_Some.
    destruct (gi_creations0 _ _ _ _ H) as (? & ? & ?). split_and!; try done.
    rewrite lookup_insert_ne; [done|]. intros <-. by destruct (Hdist _ _ _ _ _ _ _ Hc H).
  - intros c1 c2 a1 a2 i p1 p2 [_ H1]%lookup_delete_Some [_ H2]%lookup_delete_Some. eauto.
  - intros a' i Ht. destruct (gi_todo0 _ _ Ht) as [? Hx]. split; [done|].
    intros f [[-> ->]|[_ Hf]]%Hback; [by apply Hr in Ht|eauto].
  - intros i H. apply lookup_insert_is_Some'. right. eauto.
Qed.

Lemma ginv_release w a id : ginv w -> (forall f, heap w !! id = Some f -> ~ live f) ->
  ginv (release_account_owner a id w).
Proof.
  intros I Hl. unfold release_account_owner. case_bool_decide as Ho; [|done].
  destruct I. split; cbn; try done.
  - intros i f Hf Hfl. destruct (gi_live0 i f Hf Hfl) as [? [H|?]]; split; auto. left.
    rewrite lookup_delete_ne; [done|]. intros ->. rewrite Ho in H. simplify_eq. by eapply Hl.
  - intros a' i [_ H]%lookup_delete_Some. eauto.
Qed.

Lemma ginv_cancel_take w a : ginv w ->
  let '(w', r) := cancel_account_take a w in
  ginv (match r with Some id => set_todo (todo w' ++ [ThenCancel id]) w' | None => w' end).
Proof.
  intros I. unfold cancel_account_take. destruct (account_owners w !! a) as [id|] eqn:Ho; [|done].
  assert (forall t, t ∈ todo w -> t ∈ todo w ++ [ThenCancel id]) as Hin
    by (intros t Ht; apply elem_of_app; by left).
  destruct I. case_bool_decide as Hr; split; cbn; try done.
  - intros i f Hf Hl. destruct (gi_live0 i f Hf Hl) as [? [H|?]]; split; auto.
    destruct (decide (account_id (f_state f) = a)) as [<-|].
    + right. rewrite Ho in H. simplify_eq. apply elem_of_app. right. by left.
    + left. by rewrite lookup_delete_ne.
  - intros c a' i p H. destruct (gi_creations0 _ _ _ _ H) as (? & ? & Hx). split_and!; try done.
    intros a2 [?|Ha]%elem_of_app; [by eapply Hx|]. by apply list_elem_of_singleton in Ha.
  - intros a' i [?|Ha]%elem_of_app; [eauto|]. by apply list_elem_of_singleton in Ha.
  - intros i [?|Ha]%elem_of_app; [eauto|]. apply list_elem_of_singleton in Ha as [= ->]. eauto.
  - intros a' i [_ H]%lookup_delete_Some. eauto.
  - intros i f Hf Hl. destruct (gi_live0 i f Hf Hl) as [Hx [H|?]]; split; auto. left.
    rewrite lookup_delete_ne; [done|]. intros ->. rewrite Ho in H. by simplify_eq.
  - intros a' i [_ H]%lookup_delete_Some. eauto.
Qed.

Lemma ginv_on_accept {A} w id (op : Flow -> A * Flow) r w' :
  (forall f, flow_ok f -> (flow_ok (op f).2 /\ evolves f (op f).2) /\ f_lease (op f).2 = f_lease f) ->
  ginv w -> on_accept id op w = Some (r, w') -> ginv w'.
Proof.
  intros Hop I. unfold on_accept. destruct (heap w !! id) as [f|] eqn:Ef; [|done].
  destruct (gi_flows _ I _ _ Ef) as [Hok _]. destruct (Hop f Hok).
  destruct (op f) as [r' f']; cbn in *. intros [= <- <-]. by apply ginv_flow_op with f.
Qed.

Lemma ginv_todo w i t : ginv w -> todo w !! i = Some t ->
  ginv (do_todo t (set_todo (delete i (todo w)) w)).
Proof.
  intros I Ht. destruct t as [id|a id]; cbn.
  - replace (cancel_flow id (set_todo (delete i (todo w)) w)).2
      with (set_todo (delete i (todo w)) (cancel_flow id w).2).
    + assert (todo (cancel_flow id w).2 = todo w) as <-.
      { unfold cancel_flow, on_flow. destruct (heap w !! id); [|done].
        destruct (flow_cancel _ _) as [[] ?]; done. }
      apply ginv_drop_todo; [by apply ginv_cancel_flow|]. intros id' f Hi.
      assert (todo (cancel_flow id w).2 = todo w) as E.
      { unfold cancel_flow, on_flow. destruct (heap w !! id); [|done].
        destruct (flow_cancel _ _) as [[] ?]; done. }
      rewrite E, Ht in Hi. simplify_eq. apply on_flow_over; [|done].
      intros g Hg. apply (flow_cancel_ok (g_now w) g Hg).
    + unfold cancel_flow, on_flow. cbn. destruct (heap w !! id); [|done].
      destruct (flow_cancel _ _) as [[] ?]; done.
  - apply ginv_release.
    + apply ginv_drop_todo; [done|]. intros id' f Hi. congruence.
    + cbn. apply (gi_todo _ I a). by apply list_elem_of_lookup_2 in Ht.
Qed.

Lemma gstep_inv w e w' : ginv w -> gstep w e = Some w' -> ginv w'.
Proof.
  intros I H.
  destruct e as [d| |c a p|c id|c|c|c|a|id|id qr|id v|id u|id e|id|i|]; cbn in H.
  - case_match; [done|]. simplify_eq. by destruct I.
  - simplify_eq. by apply ginv_reap.
  - destruct (creations w !! c) eqn:Hc; [done|]. unfold reserve_permit in H.
    destruct (capacity (reap_expired w)) as [|n] eqn:En; simplify_eq; [by apply ginv_reap|].
    apply ginv_reap in I. assert (creations (reap_expired w) !! c = None) as Hc' by done.
    revert I Hc' En. generalize (reap_expired w). intros w1 I Hc1 En. destruct I.
    split; cbn; try done.
    + rewrite map_size_insert_None by done. lia.
    + intros c' a' i p' [[_ ?]|[_ ?]]%lookup_insert_Some; [done|eauto].
    + intros c1 c2 a1 a2 i p1 p2 [[_ ?]|[_ ?]]%lookup_insert_Some [[_ ?]|[_ ?]]%lookup_insert_Some;
        try done. eauto.
  - destruct (creations w !! c) as [[a p|]|] eqn:Hc; try done. case_bool_decide; [done|].
    destruct (reserve_claim a id w) eqn:Hr; simplify_eq.
    + by eapply ginv_claim.
    + apply ginv_end_creation; eauto.
  - destruct (creations w !! c) as [[|a id p]|] eqn:Hc; try done.
    destruct (commit_reservation _ w) eqn:Hr; simplify_eq; [by eapply ginv_commit|].
    by eapply ginv_fail_creation.
  - destruct (creations w !! c) as [[|a id p]|] eqn:Hc; simplify_eq. by eapply ginv_fail_creation.
  - destruct (creations w !! c) as [[|a id p]|] eqn:Hc; simplify_eq. apply ginv_end_creation; eauto.
  - pose proof (ginv_cancel_take w a I) as H'. destruct (cancel_account_take a w). by simplify_eq.
  - simplify_eq. apply ginv_then_release; [|done].
    intros f Hf. destruct (flow_cancel_ok (g_now w) f Hf). naive_solver.
  - apply fmap_Some in H as ([r w1] & H & ->). eapply ginv_on_accept, H; [|done].
    intros f Hf. split; [by apply accept_scan_ok|apply accept_scan_lease].
  - apply fmap_Some in H as ([r w1] & H & ->). eapply ginv_on_accept, H; [|done].
    intros f Hf. split; [by apply accept_check_code_ok|apply accept_check_code_lease].
  - apply fmap_Some in H as ([r w1] & H & ->). eapply ginv_on_accept, H; [|done].
    intros f Hf. split; [by apply publish_ok|apply publish_lease].
  - simplify_eq. apply ginv_then_release; [|done]. intros f Hf. apply (terminal_ok e (g_now w) f Hf).
  - apply fmap_Some in H as ([r w1] & H & ->). eapply ginv_on_accept, H; [|done].
    intros f Hf. split; [by apply drop_receivers_ok|done].
  - destruct (todo w !! i) as [t|] eqn:Ht; simplify_eq. by apply ginv_todo.
  - simplify_eq. by destruct I.
Qed.

Lemma g_reach_inv now w : g_reach now w -> ginv w.
Proof. induction 1; [apply ginv_init|]. by eapply gstep_inv. Qed.

(** ** What a step does to the flows *)

Definition heap_evolves (h h' : gmap uuid Flow) : Prop :=
  forall id f, h !! id = Some f -> exists f', h' !! id = Some f' /\ evolves f f'.

Lemma heap_evolves_refl h : heap_evolves h h.
Proof. intros id f Hf. eauto using evolves_refl. Qed.
Hint Resolve heap_evolves_refl : core.

Lemma heap_evolves_insert h id f' :
  (forall f, h !! id = Some f -> evolves f f') -> heap_evolves h (<[id := f']> h).
Proof.
  intros H i f Hf. destruct (decide (i = id)) as [->|].
  - exists f'. rewrite lookup_insert_eq. auto.
  - exists f. rewrite lookup_insert_ne by done. eauto using evolves_refl.
Qed.

Lemma on_flow_evolves w id op : (forall f, heap w !! id = Some f -> flow_ok f) ->
  (forall f, flow_ok f -> evolves f (op f).2) -> heap_evolves (heap w) (heap (on_flow id op w).2).
Proof.
  intros I Hop. unfold on_flow. destruct (heap w !! id) as [f|] eqn:Ef; [|done].
  assert (evolves f (op f).2) as He by (by apply Hop, I).
  destruct (op f) as [[] f']; cbn in *; apply heap_evolves_insert; intros g Hg; by simplify_eq.
Qed.

Lemma on_accept_evolves {A} w id (op : Flow -> A * Flow) r w' :
  (forall f, heap w !! id = Some f -> flow_ok f) -> (forall f, flow_ok f -> evolves f (op f).2) -> on_accept id op w = Some (r, w') ->
  heap_evolves (heap w) (heap w').
Proof.
  intros I Hop. unfold on_accept. destruct (heap w !! id) as [f|] eqn:Ef; [|done].
  assert (evolves f (op f).2) as He by (by apply Hop, I).
  destruct (op f) as [x f']; cbn in *. intros [= <- <-]. apply heap_evolves_insert.
  intros g Hg. by simplify_eq.
Qed.

Lemma then_release_heap id r : heap (then_release id r) = heap r.2.
Proof. destruct r as [[] w]; cbn; [|done]. by destruct (heap w !! id). Qed.

Lemma gstep_evolves w e w' : ginv w -> gstep w e = Some w' -> heap_evolves (heap w) (heap w').
Proof.
  intros I H.
  assert (forall id f, heap w !! id = Some f -> flow_ok f) as Hok
    by (intros id f Hf; by apply (gi_flows _ I id)).
  destruct e as [d| |c a p|c id|c|c|c|a|id|id qr|id v|id u|id e|id|i|]; cbn in H.
  - by destruct (d <? 0); simplify_eq.
  - by simplify_eq.
  - destruct (creations w !! c); [done|]. unfold reserve_permit in H.
    by destruct (capacity (reap_expired w)); simplify_eq.
  - destruct (creations w !! c) as [[a p|]|]; try done. case_bool_decide; [done|].
    unfold reserve_claim in H. destruct (_ <=? _)%nat; simplify_eq; [done|].
    by case_bool_decide; simplify_eq.
  - destruct (creations w !! c) as [[|a id p]|] eqn:Hc; try done.
    unfold commit_reservation in H. destruct (negb _); simplify_eq; [done|].
    destruct (_ <=? _)%nat; simplify_eq; [done|]. cbn. apply heap_evolves_insert.
    intros f Hf. apply (gi_creations _ I) in Hc as (_ & Hn & _). congruence.
  - by destruct (creations w !! c) as [[|a id p]|]; simplify_eq.
  - by destruct (creations w !! c) as [[|a id p]|]; simplify_eq.
  - unfold cancel_account_take in H. destruct (account_owners w !! a) as [id|]; simplify_eq; [|done].
    by case_bool_decide; simplify_eq.
  - simplify_eq. rewrite then_release_heap. apply on_flow_evolves; [apply Hok|].
    intros f Hf. apply (flow_cancel_ok (g_now w) f Hf).
  - apply fmap_Some in H as ([r w1] & H & ->). eapply on_accept_evolves, H; [apply Hok|].
    intros f Hf. by apply accept_scan_ok.
  - apply fmap_Some in H as ([r w1] & H & ->). eapply on_accept_evolves, H; [apply Hok|].
    intros f Hf. by apply accept_check_code_ok.
  - apply fmap_Some in H as ([r w1] & H & ->). eapply on_accept_evolves, H; [apply Hok|].
    intros f Hf. by apply publish_ok.
  - simplify_eq. rewrite then_release_heap. apply on_flow_evolves; [apply Hok|].
    intros f Hf. apply (terminal_ok e (g_now w) f Hf).
  - apply fmap_Some in H as ([r w1] & H & ->). eapply on_accept_evolves, H; [apply Hok|].
    intros f Hf. by apply drop_receivers_ok.
  - destruct (todo w !! i) as [[id|a id]|]; simplify_eq; cbn.
    + change (heap w) with (heap (set_todo (delete i (todo w)) w)) at 1. apply on_flow_evolves; [apply Hok|].
      intros f Hf. apply (flow_cancel_ok (g_now w) f Hf).
    + unfold release_account_owner. by case_bool_decide.
  - by simplify_eq.
Qed.

Lemma g_run_evolves now w es w' : g_reach now w -> g_run w es = Some w' ->
  heap_evolves (heap w) (heap w').
Proof.
  revert w. induction es as [|e es IH]; intros w Hw H; simplify_eq/=; [done|].
  destruct (gstep w e) as [w1|] eqn:E; simplify_eq/=.
  pose proof (gstep_evolves w e w1 (g_reach_inv _ _ Hw) E) as H1.
  assert (g_reach now w1) as Hw1 by (by econstructor).
  intros id f Hf. destruct (H1 id f Hf) as (f1 & Hf1 & He1).
  destruct (IH w1 Hw1 H id f1 Hf1) as (f2 & Hf2 & He2). eauto using evolves_trans.
Qed.

(** ** Who owns an account

    An owner entry belongs to one account; once its flow is over, the release is
    still to come. *)
Record oinv (w : GWorld) : Prop := {
  oi_flow a id f : account_owners w !! a = Some id -> heap w !! id = Some f ->
    account_id (f_state f) = a /\ (live f \/ ThenRelease a id ∈ todo w);
  oi_creation a id c a' p : account_owners w !! a = Some id ->
    creations w !! c = Some (Reserved a' id p) -> a' = a;
  oi_inj a1 a2 id : account_owners w !! a1 = Some id -> account_owners w !! a2 = Some id -> a1 = a2;
  oi_cancel a id : ThenCancel id ∈ todo w -> account_owners w !! a <> Some id;
}.

(** Steps that leave owners, creations and todo alone, and end no flow. *)
Lemma oinv_heap w w' : oinv w ->
  account_owners w' = account_owners w -> creations w' = creations w ->
  (forall t, t ∈ todo w -> t ∈ todo w') -> (forall id, ThenCancel id ∈ todo w' -> ThenCancel id ∈ todo w) ->
  (forall id f', heap w' !! id = Some f' -> exists f, heap w !! id = Some f /\
     account_id (f_state f') = account_id (f_state f) /\
     (live f -> live f' \/ ThenRelease (account_id (f_state f)) id ∈ todo w')) ->
  oinv w'.
Proof.
  intros [O1 O2 O3 O4] Eo Ec Et Et' Eh. split; rewrite ?Eo, ?Ec; try done.
  - intros a id f' Ha Hf'. destruct (Eh id f' Hf') as (f & Hf & -> & Hl).
    destruct (O1 a id f Ha Hf) as [<- [H|H]]; [|by auto]. auto.
  - intros a id H%Et'. eauto.
Qed.

(** Removing owners keeps it. *)
Lemma oinv_delete_owner w a t : oinv w ->
  (forall id, ThenCancel id ∈ t -> account_owners w !! a = Some id) ->
  oinv (set_todo (todo w ++ t) (set_owners (delete a (account_owners w)) w)).
Proof.
  intros [O1 O2 O3 O4] Ht. split; cbn.
  - intros a' id f [_ Ha]%lookup_delete_Some Hf. destruct (O1 a' id f Ha Hf) as [? [?|?]]; split; auto.
    right. apply elem_of_app. by left.
  - intros a' id c a2 p [_ Ha]%lookup_delete_Some Hc. eauto.
  - intros a1 a2 id [_ H1]%lookup_delete_Some [_ H2]%lookup_delete_Some. eauto.
  - intros a' id [H|H]%elem_of_app [Hne H2]%lookup_delete_Some; [by eapply O4|].
    apply Hne. eauto.
Qed.

Lemma oinv_release w a id : oinv w -> oinv (release_account_owner a id w).
Proof.
  intros O. unfold release_account_owner. case_bool_decide; [|done].
  pose proof (oinv_delete_owner w a [] O) as H'. rewrite app_nil_r in H'.
  destruct w. apply H'. by intros i ?%elem_of_nil.
Qed.

(** A release leaves the list when it is carried out. *)
Lemma oinv_drop_todo w i : oinv w ->
  (forall a id, todo w !! i = Some (ThenRelease a id) -> account_owners w !! a <> Some id) ->
  oinv (set_todo (delete i (todo w)) w).
Proof.
  intros [O1 O2 O3 O4] Hi. split; cbn; try done.
  - intros a id f Ha Hf. destruct (O1 a id f Ha Hf) as [? [?|Ht]]; split; auto. right.
    apply list_elem_of_lookup in Ht as [j Hj].
    assert (j <> i) as Hne by (intros ->; by eapply Hi).
    apply list_elem_of_lookup. destruct (decide (j < i)%nat).
    + exists j. by rewrite list_lookup_delete_lt.
    + exists (j - 1)%nat. rewrite list_lookup_delete_ge by lia. by replace (S (j - 1)) with j by lia.
  - intros a id H. apply O4. by apply (list_subseteq_delete i).
Qed.

Lemma oinv_on_accept {A} w id (op : Flow -> A * Flow) r w' :
  (forall f, flow_ok f -> (flow_ok (op f).2 /\ evolves f (op f).2) /\ f_lease (op f).2 = f_lease f) ->
  ginv w -> oinv w -> on_accept id op w = Some (r, w') -> oinv w'.
Proof.
  intros Hop I O. unfold on_accept. destruct (heap w !! id) as [f|] eqn:Ef; [|done].
  destruct (gi_flows _ I _ _ Ef) as [Hok _]. destruct (Hop f Hok) as [[_ (_ & Ha & _)] HL].
  destruct (op f) as [r' f']; cbn in *. intros [= <- <-]. apply (oinv_heap w); try done.
  cbn. intros i g [[<- <-]|[? ?]]%lookup_insert_Some; [|eauto 6].
  exists f. split_and!; try done. unfold live. rewrite HL. auto.
Qed.

Lemma oinv_then_release w id (op : Flow -> bool * Flow) :
  (forall f, flow_ok f -> flow_ok (op f).2 /\ evolves f (op f).2 /\
     (op f).1 = has_permit (f_lease f) /\ has_permit (f_lease (op f).2) = false) ->
  ginv w -> oinv w -> oinv (then_release id (on_flow id op w)).
Proof.
  intros Hop I O. unfold on_flow. destruct (heap w !! id) as [f|] eqn:Ef; [|done].
  destruct (gi_flows _ I _ _ Ef) as [Hok _]. destruct (Hop f Hok) as (_ & (_ & Ha & _) & H1 & H2).
  destruct (op f) as [ok f']; cbn in *. subst ok.
  destruct (has_permit (f_lease f)) eqn:El; unfold then_release; cbn.
  - rewrite lookup_insert_eq. apply (oinv_heap w); cbn; try done.
    + intros t Ht. apply elem_of_app. by left.
    + intros i [?|?%list_elem_of_singleton]%elem_of_app; done.
    + intros i g [[<- <-]|[? ?]]%lookup_insert_Some; [|eauto 6].
      exists f. split_and!; try done. intros _. right. rewrite Ha. apply elem_of_app. right. by left.
  - apply (oinv_heap w); try done. cbn.
    intros i g [[<- <-]|[? ?]]%lookup_insert_Some; [|eauto 6].
    exists f. split_and!; try done. unfold live. by rewrite El.
Qed.

Lemma oinv_end_creation w c t : oinv w -> (forall id, ThenCancel id ∉ t) ->
  oinv (end_creation c t w).
Proof.
  intros [O1 O2 O3 O4] Ht. split; cbn; try done.
  - intros a id f Ha Hf. destruct (O1 a id f Ha Hf) as [? [?|?]]; split; auto.
    right. apply elem_of_app. by left.
  - intros a id c' a' p Ha [_ Hc]%lookup_delete_Some. eauto.
  - intros a id [H|H]%elem_of_app; [eauto|by apply Ht in H].
Qed.

Lemma oinv_todo w i t : ginv w -> oinv w -> todo w !! i = Some t ->
  oinv (do_todo t (set_todo (delete i (todo w)) w)).
Proof.
  intros I O Ht. destruct t as [id|a id]; cbn.
  - assert (oinv (set_todo (delete i (todo w)) w)) as O'.
    { apply oinv_drop_todo; [done|]. intros a' id' H. congruence. }
    unfold cancel_flow, on_flow. destruct (heap _ !! id) as [f|] eqn:Ef; [|done].
    destruct (gi_flows _ I _ _ Ef) as [Hok _].
    destruct (flow_cancel_ok (g_now (set_todo (delete i (todo w)) w)) f Hok) as (_ & (_ & Ha & _) & _).
    destruct (flow_cancel _ f) as [ok f']; cbn in *.
    assert (ThenCancel id ∈ todo w) as Hid by (by eapply list_elem_of_lookup_2).
    destruct O' as [O1 O2 O3 O4], O as [_ _ _ P4].
    destruct ok; split; cbn in *; try done;
      intros a2 i2 g Hg [[<- <-]|[? ?]]%lookup_insert_Some; (by apply P4 in Hg) || eauto.
  - assert (oinv (release_account_owner a id w)) as O' by (by apply oinv_release).
    replace (release_account_owner a id (set_todo (delete i (todo w)) w))
      with (set_todo (delete i (todo (release_account_owner a id w))) (release_account_owner a id w)).
    + apply oinv_drop_todo; [done|]. intros a' id'.
      unfold release_account_owner. case_bool_decide as Ho; cbn; rewrite Ht; intros [= <- <-].
      * by rewrite lookup_delete_eq.
      * done.
    + unfold release_account_owner. cbn. by case_bool_decide.
Qed.

Lemma gstep_oinv w e w' : ginv w -> oinv w -> gstep w e = Some w' -> oinv w'.
Proof.
  intros I O H.
  destruct e as [d| |c a p|c id|c|c|c|a|id|id qr|id v|id u|id e|id|i|]; cbn in H.
  - destruct (d <? 0); simplify_eq. by destruct O.
  - simplify_eq. by destruct O.
  - destruct (creations w !! c) eqn:Hc; [done|]. unfold reserve_permit in H.
    destruct (capacity (reap_expired w)); simplify_eq; destruct O as [O1 O2 O3 O4]; split; cbn; try done.
    intros a' id c' a2 p' Ha [[_ ?]|[_ ?]]%lookup_insert_Some; [done|eauto].
  - destruct (creations w !! c) as [[a p|]|] eqn:Hc; try done.
    case_bool_decide as Hid; [done|]. unfold reserve_claim in H.
    destruct (_ <=? _)%nat; simplify_eq.
    { apply oinv_end_creation; [done|]. by intros ? ?%elem_of_nil. }
    case_bool_decide as Ha; simplify_eq.
    { apply oinv_end_creation; [done|]. by intros ? ?%elem_of_nil. }
    pose proof (gi_owners _ I) as Hown. destruct O as [O1 O2 O3 O4]. split; cbn.
    + intros a' i f [[<- <-]|[_ Ho]]%lookup_insert_Some Hf; [|eauto].
      by apply (gi_flows _ I) in Hf as (_ & _ & ?).
    + intros a' i c' a2 p' [[<- <-]|[Hne Ho]]%lookup_insert_Some [[<- E]|[_ Hc']]%lookup_insert_Some.
      * by simplify_eq.
      * by apply (gi_creations _ I) in Hc' as [? _].
      * simplify_eq. by apply Hown in Ho.
      * eauto.
    + intros a1 a2 i [[<- <-]|[_ H1]]%lookup_insert_Some [[<- E]|[_ H2]]%lookup_insert_Some;
        subst; try done; try (by apply Hown in H1); try (by apply Hown in H2). eauto.
    + intros a' i Ht [[<- <-]|[_ Ho]]%lookup_insert_Some; [|by eapply O4].
      apply (gi_cancels _ I) in Ht as [f Hf]. by apply (gi_flows _ I) in Hf as (_ & _ & ?).
  - destruct (creations w !! c) as [[|a id p]|] eqn:Hc; try done.
    unfold commit_reservation in H. cbn in H. case_bool_decide as Ho; cbn in H.
    2:{ simplify_eq. apply oinv_end_creation; [done|]. by intros ? ?%list_elem_of_singleton. }
    destruct (_ <=? _)%nat; simplify_eq.
    { apply oinv_end_creation; [done|]. by intros ? ?%list_elem_of_singleton. }
    destruct O as [O1 O2 O3 O4]. split; cbn; try done.
    + intros a' i f Ha [[<- <-]|[_ Hf]]%lookup_insert_Some; [|eauto].
      split; [by eapply O2|by left].
    + intros a' i c' a2 p' Ha [_ Hc']%lookup_delete_Some. eauto.
  - destruct (creations w !! c) as [[|a id p]|] eqn:Hc; simplify_eq.
    apply oinv_end_creation; [done|]. by intros ? ?%list_elem_of_singleton.
  - destruct (creations w !! c) as [[|a id p]|] eqn:Hc; simplify_eq.
    apply oinv_end_creation; [done|]. by intros ? ?%elem_of_nil.
  - unfold cancel_account_take in H. destruct (account_owners w !! a) as [id|] eqn:Ho; simplify_eq; [|done].
    case_bool_decide; simplify_eq.
    + apply (oinv_delete_owner w a [ThenCancel id] O). by intros i [= ->]%list_elem_of_singleton.
    + pose proof (oinv_delete_owner w a [] O) as H'. rewrite app_nil_r in H'. destruct w.
      apply H'. by intros i ?%elem_of_nil.
  - simplify_eq. apply oinv_then_release; [|done..].
    intros f Hf. destruct (flow_cancel_ok (g_now w) f Hf). naive_solver.
  - apply fmap_Some in H as ([r w1] & H & ->). eapply oinv_on_accept, H; [|done..].
    intros f Hf. split; [by apply accept_scan_ok|apply accept_scan_lease].
  - apply fmap_Some in H as ([r w1] & H & ->). eapply oinv_on_accept, H; [|done..].
    intros f Hf. split; [by apply accept_check_code_ok|apply accept_check_code_lease].
  - apply fmap_Some in H as ([r w1] & H & ->). eapply oinv_on_accept, H; [|done..].
    intros f Hf. split; [by apply publish_ok|apply publish_lease].
  - simplify_eq. apply oinv_then_release; [|done..]. intros f Hf. apply (terminal_ok e (g_now w) f Hf).
  - apply fmap_Some in H as ([r w1] & H & ->). eapply oinv_on_accept, H; [|done..].
    intros f Hf. split; [by apply drop_receivers_ok|done].
  - destruct (todo w !! i) as [t|] eqn:Ht; simplify_eq. by apply oinv_todo.
  - simplify_eq. by destruct O.
Qed.

Lemma g_reach_oinv now w : g_reach now w -> oinv w.
Proof.
  induction 1 as [|w e w' Hr IH Hs].
  - split; cbn; intros *; rewrite ?lookup_empty; done.
  - eapply gstep_oinv; [|done..]. by eapply g_reach_inv.
Qed.

(** ** Properties *)

(** The registry bounds what an instance holds: at any interleaving of
    [create], [cancel], [cancel_account], the reaper and the drivers, at most
    eight flows are live (each holds one of the eight permits, and the free
    permits, the permits of [create] calls under way and the live flows add up
    to eight), at most 256 are listed, every live flow is listed, and of two
    live flows of one account one is about to be cancelled. *)
Theorem grant_registry_bounded now w : g_reach now w ->
  (capacity w + size (creations w) + size (live_ids (heap w)))%nat = MAX_CONCURRENT_FLOWS /\
  (size (retained w) <= MAX_RETAINED_FLOWS)%nat /\ live_ids (heap w) ⊆ retained w /\
  forall id1 id2 f1 f2, heap w !! id1 = Some f1 -> heap w !! id2 = Some f2 -> live f1 -> live f2 ->
    account_id (f_state f1) = account_id (f_state f2) -> id1 <> id2 ->
    ThenCancel id1 ∈ todo w \/ ThenCancel id2 ∈ todo w.
Proof.
  intros Hr. pose proof (g_reach_inv _ _ Hr) as I.
  split; [apply I|]. split; [apply I|]. split.
  - intros id (f & Hf & Hl)%elem_of_live_ids. by apply (gi_live _ I id f).
  - intros id1 id2 f1 f2 H1 H2 L1 L2 Ha Hne.
    destruct (gi_live _ I id1 f1 H1 L1) as [_ [O1|?]]; [|auto].
    destruct (gi_live _ I id2 f2 H2 L2) as [_ [O2|?]]; [|auto]. congruence.
Qed.

(** [C40] What a flow publishes fits its stage: a QR code only while one is to be
    shown, a check code only while one is to be displayed, a link only while
    waiting for the authorization, an error code exactly on failure; the flow is
    in a terminal stage exactly when its lease is over, and then takes no input. *)
Theorem grant_stage_data now w id f : g_reach now w -> heap w !! id = Some f ->
  (is_Some (qr_code_data (f_state f)) <-> stage (f_state f) = QrReady) /\
  (is_Some (check_code (f_state f)) <-> stage (f_state f) = CheckCodeToDisplay) /\
  (is_Some (verification_uri (f_state f)) <-> stage (f_state f) = WaitingForAuthorization) /\
  (is_Some (error_code (f_state f)) <-> stage (f_state f) = Failed) /\
  (is_terminal (stage (f_state f)) = true <-> terminal_at (f_lease f) <> None) /\
  (is_terminal (stage (f_state f)) = true -> scan_tx f = false /\ check_code_tx f = false) /\
  flow_id (f_state f) = id.
Proof.
  intros Hr Hf. destruct (gi_flows _ (g_reach_inv _ _ Hr) id f Hf) as (Hok & Hid & _).
  destruct Hok as ((S1 & S2 & S3 & S4) & HL & _ & Ht & Hover & _).
  unfold lease_ok in HL. rewrite Ht, HL in *.
  split; [done|]. split; [done|]. split; [done|]. split; [done|].
  case_bool_decide; cbn in *; naive_solver.
Qed.

(** A flow ends once: whatever happens after it ended (a late completion, a
    second DELETE, a lifecycle cancellation, an update of its driver), the state
    it publishes stays the same; and at any time, an input that was sent to its
    driver is never replaced by another one. *)
Theorem grant_ends_once now w es w' id f : g_reach now w -> heap w !! id = Some f ->
  g_run w es = Some w' ->
  exists f', heap w' !! id = Some f' /\
    (is_terminal (stage (f_state f)) = true -> f_state f' = f_state f /\ f_lease f' = f_lease f) /\
    (forall qr, scan_rx f = RxSent qr -> scan_rx f' = RxSent qr \/ scan_rx f' = RxDropped) /\
    (forall c, check_code_rx f = RxSent c -> check_code_rx f' = RxSent c \/ check_code_rx f' = RxDropped).
Proof.
  intros Hr Hf Hrun. destruct (g_run_evolves _ _ _ _ Hr Hrun id f Hf) as (f' & Hf' & He).
  destruct (gi_flows _ (g_reach_inv _ _ Hr) id f Hf) as ((_ & _ & _ & Ht & _) & _).
  destruct He as (_ & _ & _ & Hover & _ & Hs & Hc). exists f'. split; [done|]. split; [|split].
  - rewrite Ht. intros Hl%negb_true_iff. by destruct (Hover Hl) as (-> & -> & _).
  - intros qr E. by rewrite E in Hs.
  - intros c E. by rewrite E in Hc.
Qed.

(** An account is handed back: once the calls under way have finished their
    second critical section, no finished flow owns an account, so its next
    [reserve] is not refused for it; and a live flow owns its account. *)
Theorem grant_owner_is_live now w : g_reach now w -> todo w = [] ->
  (forall a id f, account_owners w !! a = Some id -> heap w !! id = Some f ->
     is_terminal (stage (f_state f)) = false /\ account_id (f_state f) = a) /\
  (forall id f, heap w !! id = Some f -> is_terminal (stage (f_state f)) = false ->
     account_owners w !! account_id (f_state f) = Some id).
Proof.
  intros Hr Ht. pose proof (g_reach_inv _ _ Hr) as I. pose proof (g_reach_oinv _ _ Hr) as O.
  assert (forall id f, heap w !! id = Some f -> is_terminal (stage (f_state f)) = negb (has_permit (f_lease f)))
    as Hterm by (intros id f Hf; by destruct (gi_flows _ I id f Hf) as ((_ & _ & _ & ? & _) & _)).
  split.
  - intros a id f Ha Hf. destruct (oi_flow _ O a id f Ha Hf) as [<- [Hl|H]].
    + by rewrite (Hterm id f Hf), Hl.
    + rewrite Ht in H. by apply elem_of_nil in H.
  - intros id f Hf. rewrite (Hterm id f Hf). intros Hl%negb_false_iff.
    destruct (gi_live _ I id f Hf Hl) as [_ [?|H]]; [done|].
    rewrite Ht in H. by apply elem_of_nil in H.
Qed.

(** ** A [create] call that is dropped

    When the client of a [create] request disconnects, the future is dropped at
    one of its awaits: its permit is returned, but nothing abandons its
    reservation. *)
Record stuck (a id : uuid) (w : GWorld) : Prop := {
  st_owner : account_owners w !! a = Some id;
  st_heap : heap w !! id = None;
  st_issued : id ∈ issued w;
  st_creations c a' p : creations w !! c <> Some (Reserved a' id p);
  st_todo a' : ThenRelease a' id ∉ todo w;
}.

Lemma stuck_same a id w w' : stuck a id w ->
  account_owners w' = account_owners w -> heap w' !! id = None -> id ∈ issued w' ->
  (forall c a' p, creations w' !! c = Some (Reserved a' id p) -> creations w !! c = Some (Reserved a' id p)) ->
  (forall a', ThenRelease a' id ∈ todo w' -> ThenRelease a' id ∈ todo w) -> stuck a id w'.
Proof.
  intros [S1 S2 S3 S4 S5] Eo Eh Ei Ec Et. split; rewrite ?Eo; try done.
  - intros c a' p H%Ec. by eapply S4.
  - intros a' H%Et. by eapply S5.
Qed.

Lemma stuck_on_flow a id w i op : stuck a id w -> stuck a id (on_flow i op w).2.
Proof.
  intros S. unfold on_flow. destruct (heap w !! i) as [f|] eqn:Ef; [|done].
  assert (i <> id) as Hne by (intros ->; rewrite (st_heap _ _ _ S) in Ef; done).
  destruct (op f) as [[] f']; cbn; apply (stuck_same a id w); try done; cbn;
    rewrite ?lookup_insert_ne by done; apply S.
Qed.

Lemma stuck_then_release a id w i op : stuck a id w -> stuck a id (then_release i (on_flow i op w)).
Proof.
  intros S. pose proof (stuck_on_flow a id w i op S) as S'.
  unfold then_release. destruct (on_flow i op w) as [[] w1] eqn:E; cbn in *; [|done].
  destruct (heap w1 !! i) as [f|] eqn:Ef; [|done].
  apply (stuck_same a id w1); try done; cbn; try apply S'.
  intros a' [?|H]%elem_of_app; [done|]. apply list_elem_of_singleton in H. simplify_eq.
  by rewrite (st_heap _ _ _ S') in Ef.
Qed.

Lemma stuck_on_accept {A} a id w i (op : Flow -> A * Flow) r w' : stuck a id w ->
  on_accept i op w = Some (r, w') -> stuck a id w'.
Proof.
  intros S. unfold on_accept. destruct (heap w !! i) as [f|] eqn:Ef; [|done].
  assert (i <> id) as Hne by (intros ->; rewrite (st_heap _ _ _ S) in Ef; done).
  destruct (op f) as [r' f']. intros [= <- <-]. apply (stuck_same a id w); try done; cbn;
    rewrite ?lookup_insert_ne by done; apply S.
Qed.

Lemma stuck_end_creation a id w c t : stuck a id w ->
  (forall a', ThenRelease a' id ∉ t) -> stuck a id (end_creation c t w).
Proof.
  intros S Ht. apply (stuck_same a id w); try done; cbn; try apply S.
  - by intros c' a' p [_ H]%lookup_delete_Some.
  - intros a' [?|H]%elem_of_app; [done|]. by apply Ht in H.
Qed.

Lemma stuck_step a id w e w' : stuck a id w -> e <> GCancelAccount a -> gstep w e = Some w' ->
  stuck a id w'.
Proof.
  intros S He H.
  destruct e as [d| |c b p|c i|c|c|c|b|i|i qr|i v|i u|i e|i|n|]; cbn in H.
  - destruct (d <? 0); simplify_eq. by destruct S.
  - simplify_eq. by destruct S.
  - destruct (creations w !! c) eqn:Hc; [done|]. unfold reserve_permit in H.
    destruct (capacity (reap_expired w)); simplify_eq; apply (stuck_same a id w); try done; cbn;
      try apply S. by intros c' a' p' [[_ ?]|[_ ?]]%lookup_insert_Some.
  - destruct (creations w !! c) as [[b p|]|] eqn:Hc; try done.
    case_bool_decide as Hi; [done|]. unfold reserve_claim in H.
    assert (stuck a id (end_creation c [] w)) as Hend
      by (apply stuck_end_creation; [done|]; by intros ? ?%elem_of_nil).
    destruct (_ <=? _)%nat; simplify_eq; [done|].
    case_bool_decide as Hb; simplify_eq; [done|].
    destruct S as [S1 S2 S3 S4 S5]. split; cbn; try done.
    + rewrite lookup_insert_ne; [done|]. intros ->. apply Hb. eauto.
    + by apply elem_of_union_r.
    + intros c' a' p' [[_ ?]|[_ ?]]%lookup_insert_Some; [simplify_eq|by eapply S4].
  - destruct (creations w !! c) as [[|b i p]|] eqn:Hc; try done.
    assert (i <> id) as Hne by (intros ->; by eapply (st_creations _ _ _ S)).
    unfold commit_reservation in H. cbn in H.
    assert (stuck a id (end_creation c [ThenRelease b i] w)) as Hend.
    { apply stuck_end_creation; [done|]. intros a' H'%list_elem_of_singleton. by simplify_eq. }
    destruct (negb _); simplify_eq; [done|]. destruct (_ <=? _)%nat; simplify_eq; [done|].
    apply (stuck_same a id w); try done; cbn; rewrite ?lookup_insert_ne by done; try apply S.
    by intros c' a' p' [_ ?]%lookup_delete_Some.
  - destruct (creations w !! c) as [[|b i p]|] eqn:Hc; simplify_eq.
    apply stuck_end_creation; [done|]. intros a' H'%list_elem_of_singleton. simplify_eq.
    by eapply (st_creations _ _ _ S).
  - destruct (creations w !! c) as [[|b i p]|] eqn:Hc; simplify_eq.
    apply stuck_end_creation; [done|]. by intros ? ?%elem_of_nil.
  - assert (b <> a) as Hne by congruence. unfold cancel_account_take in H.
    destruct (account_owners w !! b) as [i|] eqn:Ho; simplify_eq; [|done].
    destruct S as [S1 S2 S3 S4 S5].
    case_bool_decide; simplify_eq; split; cbn; try done; rewrite ?lookup_delete_ne by done; try done.
    intros a' [?|H']%elem_of_app; [by eapply S5|]. by apply list_elem_of_singleton in H'.
  - simplify_eq. by apply stuck_then_release.
  - apply fmap_Some in H as ([r w1] & H & ->). by eapply stuck_on_accept.
  - apply fmap_Some in H as ([r w1] & H & ->). by eapply stuck_on_accept.
  - apply fmap_Some in H as ([r w1] & H & ->). by eapply stuck_on_accept.
  - simplify_eq. by apply stuck_then_release.
  - apply fmap_Some in H as ([r w1] & H & ->). by eapply stuck_on_accept.
  - destruct (todo w !! n) as [t|] eqn:Ht; simplify_eq.
    assert (stuck a id (set_todo (delete n (todo w)) w)) as S'.
    { apply (stuck_same a id w); try done; cbn; try apply S. intros a' ?.
      by apply (list_subseteq_delete n). }
    apply list_elem_of_lookup_2 in Ht. destruct t as [i|b i]; cbn; [by apply stuck_on_flow|].
    unfold release_account_owner. case_bool_decide as Ho; [|done].
    destruct (decide (b = a)) as [->|Hne].
    + cbn in Ho. rewrite (st_owner _ _ _ S) in Ho. simplify_eq. by apply S in Ht.
    + destruct S' as [S1 S2 S3 S4 S5]. split; cbn in *; try done. by rewrite lookup_delete_ne.
  - simplify_eq. by destruct S.
Qed.

(** Such a drop leaves the account claimed by an id that names no flow: every
    later [reserve] for it is refused, whatever happens, until the account's
    lifecycle (logout, deletion, a client restart) cancels it. *)
Lemma dropped_create_blocks_account now w c a id p w1 es w2 flow :
  g_reach now w -> creations w !! c = Some (Reserved a id p) -> account_owners w !! a = Some id ->
  gstep w (GDropped c) = Some w1 -> g_run w1 es = Some w2 -> GCancelAccount a ∉ es ->
  heap w2 !! id = None /\
  (reserve_claim a flow w2 = inr FlowAlreadyExists \/ reserve_claim a flow w2 = inr Capacity).
Proof.
  intros Hr Hc Ho Hd Hrun Hes. pose proof (g_reach_inv _ _ Hr) as I.
  assert (stuck a id w1) as S.
  { cbn in Hd. rewrite Hc in Hd. simplify_eq. destruct (gi_creations _ I _ _ _ _ Hc) as (? & ? & Ht).
    split; cbn; rewrite ?app_nil_r; try done. intros c' a' p' [Hne H']%lookup_delete_Some.
    by destruct (gi_distinct _ I _ _ _ _ _ _ _ Hc H'). }
  clear Hr Hc Ho Hd I. revert w1 S Hrun. induction es as [|e es IH]; intros w1 S Hrun; simplify_eq/=.
  - split; [apply S|]. unfold reserve_claim. destruct (_ <=? _)%nat; [by right|left].
    rewrite bool_decide_true; [done|]. rewrite (st_owner _ _ _ S). eauto.
  - destruct (gstep w1 e) as [w3|] eqn:E; simplify_eq/=. apply (IH ltac:(set_solver) w3); [|done].
    eapply stuck_step, E; [done|set_solver].
Qed.
End Flow.
Arguments RxOpen {A}.
Arguments RxSent {A}.
Arguments RxDropped {A}.

(** ** Concrete runs *)

(** Account 7 starts a grant (flow 70), which shows a QR code, asks for the check
    code, receives it, and is done; account 8 reserves and is dropped. *)
Definition demo_grant_events : list (@GEvent text) :=
  [GReserve 0 7 Display; GClaim 0 70; GCommit 0; GTick (secs 1);
   GPublish 70 (UQrReady (t! "qr")); GPublish 70 UCheckCodeRequired; GCode 70 42;
   GReserve 1 8 Scan; GClaim 1 80].
Definition demo_grant_end : list (@GEvent text) :=
  [GEnd 70 EDone; GPublish 70 (UQrReady (t! "late")); GTodo 0; GDropped 1].
Definition demo_grant (es : list (@GEvent text)) : @GWorld text :=
  default (new_registry 0) (g_run (new_registry 0) es).

Lemma demo_grant_reach : g_reach 0 (demo_grant demo_grant_events).
Proof.
  apply (g_run_reach 0 (new_registry 0) demo_grant_events); [constructor|]. by vm_compute.
Qed.

Lemma demo_grant_reach_end : g_reach 0 (demo_grant (demo_grant_events ++ demo_grant_end)).
Proof.
  apply (g_run_reach 0 (new_registry 0) (demo_grant_events ++ demo_grant_end)); [constructor|].
  by vm_compute.
Qed.

Lemma grant_registry_bounded_witness :
  live_ids (heap (demo_grant demo_grant_events)) ⊆ retained (demo_grant demo_grant_events).
Proof. exact (proj1 (proj2 (proj2 (grant_registry_bounded 0 _ demo_grant_reach)))). Defined.

Lemma grant_stage_data_witness :
  exists f, heap (demo_grant demo_grant_events) !! 70 = Some f /\ flow_id (f_state f) = 70.
Proof.
  destruct (heap (demo_grant demo_grant_events) !! 70) as [f|] eqn:E; [|by vm_compute in E].
  exists f. split; [done|]. apply (grant_stage_data 0 _ 70 f demo_grant_reach E).
Defined.

Lemma grant_ends_once_witness :
  exists f', heap (demo_grant (demo_grant_events ++ demo_grant_end)) !! 70 = Some f' /\
    (check_code_rx f' = RxSent 42 \/ check_code_rx f' = RxDropped).
Proof.
  destruct (heap (demo_grant demo_grant_events) !! 70) as [f|] eqn:E; [|by vm_compute in E].
  destruct (grant_ends_once 0 (demo_grant demo_grant_events) demo_grant_end
    (demo_grant (demo_grant_events ++ demo_grant_end)) 70 f demo_grant_reach E)
    as (f' & Hf' & _ & _ & Hc); [by vm_compute|].
  exists f'. split; [done|]. apply Hc. vm_compute in E. by injection E as <-.
Defined.

Lemma grant_owner_is_live_witness :
  account_owners (demo_grant demo_grant_events) !! 7 = Some 70.
Proof.
  destruct (heap (demo_grant demo_grant_events) !! 70) as [f|] eqn:E; [|by vm_compute in E].
  destruct (grant_owner_is_live 0 _ demo_grant_reach) as [_ H]; [by vm_compute|].
  specialize (H 70 f E). vm_compute in E. injection E as <-. by apply H.
Defined.

Lemma dropped_create_blocks_account_witness :
  reserve_claim 8 81 (demo_grant (demo_grant_events ++ demo_grant_end)) = inr FlowAlreadyExists.
Proof.
  destruct (dropped_create_blocks_account 0
    (demo_grant (demo_grant_events ++ [GEnd 70 EDone; GPublish 70 (UQrReady (t! "late")); GTodo 0]))
    1 8 80 Scan (demo_grant (demo_grant_events ++ demo_grant_end)) []
    (demo_grant (demo_grant_events ++ demo_grant_end)) 81) as [_ [H|H]]; try by vm_compute.
  - apply (g_run_reach 0 (new_registry 0)
      (demo_grant_events ++ [GEnd 70 EDone; GPublish 70 (UQrReady (t! "late")); GTodo 0]));
      [constructor|]. by vm_compute.
  - by apply not_elem_of_nil.
Defined.
