(* ===== verification/GrantDriver.v ===== *)
(** * Matrix OAuth login grants: creating and driving a flow

    Models the asynchronous half of
    [crates/axon-sync/src/matrix_oauth_grant.rs]: [create], the driver that polls
    the SDK's grant future under the account's identity lock, and the errors they
    report.  The registry operations they call are in [GrantRegistry]; here they
    are questions like the reads of the store and of the SDK. *)

From stdpp Require Import base gmap sets list strings sorting.
From Stdlib Require Import ZArith Lia.
From S2P Require Import Prelude Text Effects FlowLease GrantRegistry.

(** ** Host addresses

    [str::parse::<IpAddr>] of the standard library, for the loopback test. *)

Definition hex_value (c : Z) : option Z :=
  if is_ascii_digit c then Some (c - 48)
  else if (97 <=? c) && (c <=? 102) then Some (c - 87)
  else if (65 <=? c) && (c <=? 70) then Some (c - 55) else None.
Definition dec_value (c : Z) : option Z := if is_ascii_digit c then Some (c - 48) else None.

(** The digits at the front of [t], at most [n] of them. *)
Fixpoint take_digits (digit : Z -> option Z) (n : nat) (t : text) : list Z * text :=
  match n, t with
  | S n, c :: t' =>
      match digit c with
      | Some d => let '(ds, r) := take_digits digit n t' in (d :: ds, r)
      | None => ([], t)
      end
  | _, _ => ([], t)
  end.

Definition of_digits (radix : Z) (ds : list Z) : Z := foldl (fun n d => radix * n + d) 0 ds.

(** An octet: up to three digits, no leading zero, at most 255. *)
Definition read_octet (t : text) : option (Z * text) :=
  let '(ds, r) := take_digits dec_value 4 t in
  match ds with
  | [] => None
  | d :: ds' =>
      if (4 <=? length ds)%nat || ((d =? 0) && negb (bool_decide (ds' = [])))
         || (255 <? of_digits 10 ds) then None
      else Some (of_digits 10 ds, r)
  end.

Definition read_char (c : Z) (t : text) : option text := strip_prefix_char c t.

Definition read_ipv4 (t : text) : option (list Z * text) :=
  '(a, t) ← read_octet t; t ← read_char 46 t;
  '(b, t) ← read_octet t; t ← read_char 46 t;
  '(c, t) ← read_octet t; t ← read_char 46 t;
  '(d, t) ← read_octet t; Some ([a; b; c; d], t).

(** A group: up to four hexadecimal digits. *)
Definition read_group (t : text) : option (Z * text) :=
  let '(ds, r) := take_digits hex_value 5 t in
  if bool_decide (ds = []) || (5 <=? length ds)%nat then None else Some (of_digits 16 ds, r).

(** [read_groups]: up to [limit] groups separated by colons, the last two of
    which may be written as an IPv4 address; whether they were. *)
Fixpoint read_groups (limit : nat) (first : bool) (t : text) : list Z * bool * text :=
  match limit with
  | O => ([], false, t)
  | S n =>
      match (if first then Some t else read_char 58 t) with
      | None => ([], false, t)
      | Some t1 =>
          match (match n with O => None | S _ => read_ipv4 t1 end) with
          | Some ([a; b; c; d], r) => ([256 * a + b; 256 * c + d], true, r)
          | _ =>
              match read_group t1 with
              | Some (g, r) => let '(gs, v4, r) := read_groups n false r in (g :: gs, v4, r)
              | None => ([], false, t)
              end
          end
      end
  end.

Definition read_ipv6 (t : text) : option (list Z * text) :=
  let '(head, v4, r) := read_groups 8 true t in
  if (length head =? 8)%nat then Some (head, r)
  else if v4 then None else
    match r with
    | 58 :: 58 :: r =>
        let '(tail, _, r) := read_groups (8 - (length head + 1)) true r in
        Some (head ++ repeat 0 (8 - length head - length tail) ++ tail, r)
    | _ => None
    end.

(** [IpAddr::from_str(..).is_ok_and(is_loopback)]. *)
Definition is_loopback_ip (t : text) : bool :=
  match read_ipv4 t with
  | Some (a, []) => bool_decide (head a = Some 127)
  | Some (_, _) => false
  | None =>
      match read_ipv6 t with
      | Some (gs, []) => bool_decide (gs = [0; 0; 0; 0; 0; 0; 0; 1])
      | _ => false
      end
  end.

(** The parts of a [url::Url] the code reads. *)
Record Url := MkUrl {
  url_text : text;
  url_scheme : text;
  url_host : option text;
  url_username : text;
  url_password : option text;
}.

Fixpoint trim_start_char (c : Z) (t : text) : text :=
  match t with d :: t' => if d =? c then trim_start_char c t' else t | [] => [] end.
Definition trim_end_char (c : Z) (t : text) : text := rev (trim_start_char c (rev t)).

(** [validate_qr_url]: https, or http to this machine, and no credentials. *)
Definition validate_qr_url (u : Url) : bool :=
  match url_host u with
  | None => false
  | Some host =>
      let host := trim_end_char 93 (trim_start_char 91 host) in
      let loopback := text_eqb host (t! "localhost") || is_loopback_ip host in
      let safe := text_eqb (url_scheme u) (t! "https")
                  || (text_eqb (url_scheme u) (t! "http") && loopback) in
      safe && bool_decide (url_username u = []) && bool_decide (url_password u = None)
  end.

Example loopback_examples :
  map is_loopback_ip (map lit ["127.0.0.1"; "127.9.9.9"; "128.0.0.1"; "127.0.0.01"; "127.0.0.256";
    "::1"; "0:0:0:0:0:0:0:1"; "0::1"; "::0.0.0.1"; "::2"; "::ffff:127.0.0.1"; "1::1::1"; "::1 ";
    "127.0.0"; "0:0:0:0:0:0:0:0:1"; ":::1"]%string)
  = [true; true; false; false; false; true; true; true; true; false; false; false; false;
     false; false; false].
Proof. by vm_compute. Qed.

(** ** What the code asks *)

Definition ACTIVE_ACCOUNT_RECHECK_INTERVAL : Z := secs 5.

Inductive AccountState := Active | Deactivated | Deleting.
#[export] Instance AccountState_eq_dec : EqDecision AccountState.
Proof. solve_decision. Defined.

Record Account := MkAccount {
  user_id : text;
  homeserver_url : text;
  acct_state : AccountState;
}.

(** A client is known by its user id and device id. *)
Record ClientRun := MkClient { client_user : option text; client_device : option text }.

(** The SDK's grant errors, as far as the code tells them apart. *)
Inductive SdkGrantError :=
| MissingSecretsBackup | SdkInvalidCheckCode | SdkNotFound | UnsupportedProtocol
| DeviceIDAlreadyInUse | SdkDeviceNotFound
| SecureChannelRendezvous (endpoint_not_implemented : bool)
| SecureChannelOther | UnexpectedMessage | LoginFailure | SdkUnknown.

Inductive Polled := PollPending | PollReady (result : unit + SdkGrantError).

(** The progress stream's updates, of a scanned ([POQr]) or a generated QR code. *)
Inductive Progress :=
| PStarting
| PQrCheckCode (check_code : Z)
| PGeneratedQr (base64 : text)
| PQrScanned
| PWaitingForAuth (uri : Url)
| PSyncingSecrets
| PDone.

(** The outcome of a [select!] over cancellation, deadline and a third branch. *)
Inductive Select (A : Type) := SelCancelled | SelTimeout | SelGot (value : A).
Arguments SelCancelled {A}.
Arguments SelTimeout {A}.
Arguments SelGot {A}.

(** The driver's last [select!]: woken, or a check code ([None]: its sender is
    gone). *)
Inductive Woken := Notified | CodeReceived (code : option Z).

Inductive Export := ExportTimeout | ExportError | Exported (bundle_user : option text).

Inductive GQuestion :=
| QReserve (account : uuid)
| QAbandon (account flow : uuid)
| QGetAccount (account : uuid)
| QLockIdentity (user homeserver : text)
| QUnlock
| QClient (account : uuid)
| QTrusted
| QExport (account : uuid)
| QCommit (account flow : uuid)
| QSpawn (flow : uuid)
| QLockOrEnd
| QScan
| QInstant
| QNow
| QIsCancelled
| QPoll
| QProgress
| QPublish (u : StableGrantUpdate)
| QConfirm
| QPark (check_sender : bool)
| QSendCode (code : Z)
| QTerminal (e : Ending)
| QRelease.

(** A refused or timed-out client or trust read is [None] or [false]. *)
Definition ganswer (q : GQuestion) : Type :=
  match q with
  | QReserve _ => uuid + GrantError
  | QGetAccount _ => option (option Account)
  | QClient _ => option ClientRun
  | QTrusted => bool
  | QExport _ => Export
  | QCommit _ _ => unit + GrantError
  | QLockOrEnd => Select unit
  | QScan => Select bool
  | QInstant | QNow => Z
  | QIsCancelled => bool
  | QPoll => Polled
  | QProgress => option Progress
  | QConfirm => bool
  | QPark _ => Select Woken
  | QSendCode _ => bool
  | QTerminal _ => bool
  | QAbandon _ _ | QLockIdentity _ _ | QUnlock | QSpawn _ | QPublish _ | QRelease => unit
  end.

Abbreviation gprog := (prog ganswer).
Abbreviation ask := (@Effects.ask GQuestion ganswer).

(** ** Results *)

(** [?]: go on with a value, return an error (mapped by [conv]). *)
Definition try_ {A B E F} (conv : E -> F) (p : gprog (A + E)) (f : A -> gprog (B + F))
    : gprog (B + F) :=
  bind p (fun r => match r with inl a => f a | inr e => Ret (inr (conv e)) end).

(** ** Authority *)

Definition require_active_account (account : uuid) (s : AccountState) : unit + GrantError :=
  match s with
  | Active => inl tt
  | Deactivated => inr (AccountNotActive account)
  | Deleting => inr (AccountBeingDeleted account)
  end.

Definition require_trusted_device (trusted : bool) : unit + GrantError :=
  if trusted then inl tt else inr DeviceNotTrusted.

Definition same_client_run (expected current : ClientRun) : bool :=
  bool_decide (client_user expected = client_user current)
  && bool_decide (client_device expected = client_device current).

Definition load_active_account (account : uuid) : gprog (Account + GrantError) :=
  bind (ask (QGetAccount account)) (fun r =>
    match r with
    | None => Ret (inr Internal)
    | Some None => Ret (inr (AccountNotFound account))
    | Some (Some a) =>
        Ret (match require_active_account account (acct_state a) with
             | inl _ => inl a
             | inr e => inr e
             end)
    end).

Definition validate_current_trusted_client (account : uuid) (expected : option ClientRun)
    : gprog (ClientRun + GrantError) :=
  bind (ask (QClient account)) (fun r =>
    match r with
    | None => Ret (inr Unavailable)
    | Some client =>
        if match expected with Some e => negb (same_client_run e client) | None => false end
        then Ret (inr (AccountNotActive account))
        else bind (ask QTrusted) (fun trusted =>
          Ret (match require_trusted_device trusted with inl _ => inl client | inr e => inr e end))
    end).

Definition validate_authority (account : uuid) (expected : option ClientRun)
    : gprog ((Account * ClientRun) + GrantError) :=
  try_ id (load_active_account account) (fun a =>
  try_ id (validate_current_trusted_client account expected) (fun client =>
    Ret (inl (a, client)))).

(** [validate_poll_authority]: returns when the account is next to be read. *)
Definition validate_poll_authority (account : uuid) (expected : ClientRun) (next_check : Z)
    : gprog (Z + GrantError) :=
  bind (ask QInstant) (fun now =>
  try_ id
    (if next_check <=? now then
       try_ id (load_active_account account) (fun _ =>
       bind (ask QInstant) (fun now => Ret (inl (now + ACTIVE_ACCOUNT_RECHECK_INTERVAL))))
     else Ret (inl next_check)) (fun next_check =>
  try_ id (validate_current_trusted_client account (Some expected)) (fun _ =>
    Ret (inl next_check)))).

(** [validate_exportable]: the secrets bundle is there, and is this user's. *)
Definition validate_exportable (account : uuid) (client : ClientRun) : gprog (unit + GrantError) :=
  bind (ask (QExport account)) (fun r =>
    Ret (match r with
         | ExportTimeout => inr Unavailable
         | ExportError => inr SecretsUnavailable
         | Exported None => inr SecretsUnavailable
         | Exported (Some user) =>
             if bool_decide (Some user = client_user client) then inl tt else inr SecretsUnavailable
         end)).

(** ** [create] *)

Definition create_under_reservation (flow account : uuid) (p : Presentation)
    : gprog (GrantState + GrantError) :=
  bind (ask (QGetAccount account)) (fun r =>
    match r with
    | None => Ret (inr Internal)
    | Some None => Ret (inr (AccountNotFound account))
    | Some (Some a) =>
        bind (ask (QLockIdentity (user_id a) (homeserver_url a))) (fun _ =>
        bind
          (try_ id (validate_authority account None) (fun '(a, client) =>
           try_ id (validate_exportable account client) (fun _ =>
           try_ id (ask (QCommit account flow)) (fun _ =>
           bind (ask (QSpawn flow)) (fun _ => Ret (inl (new_state flow account p)))))))
          (fun r => bind (ask QUnlock) (fun _ => Ret r)))
    end).

Definition create (account : uuid) (p : Presentation) : gprog (GrantState + GrantError) :=
  try_ id (ask (QReserve account)) (fun flow =>
  bind (create_under_reservation flow account p) (fun r =>
    match r with
    | inl s => Ret (inl s)
    | inr e => bind (ask (QAbandon account flow)) (fun _ => Ret (inr e))
    end)).

(** ** The driver *)

Inductive DriverFailure :=
| DCancelled | DTimeout | DUnsupported | DInvalidCheckCode | DRendezvousExpired
| DDeviceConflict | DDeviceNotFound | DTrustLost | DSecretsUnavailable | DUpstream | DInternal.

Definition failure_code (f : DriverFailure) : text :=
  match f with
  | DCancelled => t! "cancelled"
  | DTimeout => t! "timeout"
  | DUnsupported => t! "unsupported"
  | DInvalidCheckCode => t! "invalid_check_code"
  | DRendezvousExpired => t! "rendezvous_expired"
  | DDeviceConflict => t! "device_conflict"
  | DDeviceNotFound => t! "device_not_found"
  | DTrustLost => t! "trust_lost"
  | DSecretsUnavailable => t! "secrets_unavailable"
  | DUpstream => t! "upstream"
  | DInternal => t! "internal"
  end.

Definition classify_authority_error (e : GrantError) : DriverFailure :=
  match e with
  | DeviceNotTrusted => DTrustLost
  | SecretsUnavailable => DSecretsUnavailable
  | Unavailable => DTimeout
  | AccountNotFound _ | AccountNotActive _ | AccountBeingDeleted _ => DCancelled
  | Internal => DInternal
  | _ => DInternal
  end.

Definition classify_grant_error (e : SdkGrantError) : DriverFailure :=
  match e with
  | MissingSecretsBackup => DSecretsUnavailable
  | SdkInvalidCheckCode => DInvalidCheckCode
  | SdkNotFound => DRendezvousExpired
  | UnsupportedProtocol => DUnsupported
  | DeviceIDAlreadyInUse => DDeviceConflict
  | SdkDeviceNotFound => DDeviceNotFound
  | SecureChannelRendezvous true => DUnsupported
  | SecureChannelRendezvous false | SecureChannelOther | UnexpectedMessage | LoginFailure
  | SdkUnknown => DUpstream
  end.

(** Two decimal digits: [format!("{:02}")] of a [u8]. *)
Definition pad2 (n : Z) : text := if n <? 10 then 48 :: dec n else dec n.

(** [GrantLoginProgress::apply]: the check-code sender and the continuation after
    it. *)
Definition apply_progress (u : Progress) (check_sender continuation : bool)
    : gprog ((bool * bool) + DriverFailure) :=
  match u with
  | PStarting | PDone => Ret (inl (check_sender, continuation))
  | PQrCheckCode c =>
      bind (ask (QPublish (UCheckCodeToDisplay (pad2 c)))) (fun _ =>
        Ret (inl (check_sender, continuation)))
  | PGeneratedQr qr =>
      bind (ask (QPublish (UQrReady qr))) (fun _ => Ret (inl (false, continuation)))
  | PQrScanned =>
      bind (ask (QPublish UCheckCodeRequired)) (fun _ => Ret (inl (true, continuation)))
  | PWaitingForAuth uri =>
      if validate_qr_url uri then
        bind (ask (QPublish (UWaitingForAuthorization (url_text uri)))) (fun _ =>
          Ret (inl (check_sender, true)))
      else Ret (inr DUpstream)
  | PSyncingSecrets =>
      bind (ask (QPublish USyncingSecrets)) (fun _ => Ret (inl (check_sender, continuation)))
  end.

(** The updates that are ready; [None] when more than [fuel] are. *)
Fixpoint drain_progress (fuel : nat) (check_sender continuation : bool)
    : gprog (option ((bool * bool) + DriverFailure)) :=
  match fuel with
  | O => Ret None
  | S fuel =>
      bind (ask QProgress) (fun r =>
        match r with
        | None => Ret (Some (inl (check_sender, continuation)))
        | Some u =>
            bind (apply_progress u check_sender continuation) (fun r =>
              match r with
              | inl (check_sender, continuation) => drain_progress fuel check_sender continuation
              | inr e => Ret (Some (inr e))
              end)
        end)
  end.

(** [poll_sdk_once]: never after a cancellation or the deadline. *)
Definition poll_sdk_once (deadline : Z) : gprog (Polled + DriverFailure) :=
  bind (ask QIsCancelled) (fun cancelled =>
    if cancelled then Ret (inr DCancelled) else
    bind (ask QNow) (fun now =>
      if deadline <=? now then Ret (inr DTimeout) else
      bind (ask QPoll) (fun r => Ret (inl r)))).

(** The rest of an iteration: confirm the continuation, then wait. *)
Definition confirm_and_park (check_sender continuation : bool) : gprog (bool + DriverFailure) :=
  bind (if continuation then bind (ask QConfirm) (fun ok => Ret ok) else Ret true) (fun ok =>
    if negb ok then Ret (inr DInternal) else
    bind (ask (QPark check_sender)) (fun r =>
      match r with
      | SelCancelled => Ret (inr DCancelled)
      | SelTimeout => Ret (inr DTimeout)
      | SelGot Notified => Ret (inl check_sender)
      | SelGot (CodeReceived code) =>
          if check_sender then
            match code with
            | None => Ret (inr DCancelled)
            | Some c =>
                bind (ask (QSendCode c)) (fun ok =>
                  Ret (if ok : bool then inl false else inr DInvalidCheckCode))
            end
          else Ret (inl check_sender)
      end)).

(** [drive_sdk_future]: [None] when the loop runs out of [fuel]. *)
Fixpoint drive_sdk_future (fuel : nat) (account : uuid) (expected : ClientRun) (deadline : Z)
    (next_check : Z) (check_sender : bool) : gprog (option (unit + DriverFailure)) :=
  match fuel with
  | O => Ret None
  | S fuel =>
      bind (validate_poll_authority account expected next_check) (fun r =>
        match r with
        | inr e => Ret (Some (inr (classify_authority_error e)))
        | inl next_check =>
            bind (poll_sdk_once deadline) (fun r =>
              match r with
              | inr e => Ret (Some (inr e))
              | inl (PollReady (inl _)) => Ret (Some (inl tt))
              | inl (PollReady (inr e)) => Ret (Some (inr (classify_grant_error e)))
              | inl PollPending =>
                  bind (drain_progress fuel check_sender false) (fun r =>
                    match r with
                    | None => Ret None
                    | Some (inr e) => Ret (Some (inr e))
                    | Some (inl (check_sender, continuation)) =>
                        bind (confirm_and_park check_sender continuation) (fun r =>
                          match r with
                          | inr e => Ret (Some (inr e))
                          | inl check_sender =>
                              drive_sdk_future fuel account expected deadline next_check check_sender
                          end)
                    end)
              end)
        end)
  end.

(** [drive_under_identity_lock]; the guard is dropped on every way out. *)
Definition drive_under_identity_lock (fuel : nat) (account : uuid) (p : Presentation)
    (deadline : Z) : gprog (option (unit + DriverFailure)) :=
  let start (client : ClientRun) :=
    bind (ask QInstant) (fun now =>
      drive_sdk_future fuel account client deadline now false) in
  bind (ask QLockOrEnd) (fun r =>
    match r with
    | SelCancelled => Ret (Some (inr DCancelled))
    | SelTimeout => Ret (Some (inr DTimeout))
    | SelGot _ =>
        bind
          (bind (validate_authority account None) (fun r =>
             match r with
             | inr e => Ret (Some (inr (classify_authority_error e)))
             | inl (_, client) =>
                 match p with
                 | Scan =>
                     bind (ask QScan) (fun r =>
                       match r with
                       | SelCancelled => Ret (Some (inr DCancelled))
                       | SelTimeout => Ret (Some (inr DTimeout))
                       | SelGot false => Ret (Some (inr DCancelled))
                       | SelGot true => start client
                       end)
                 | Display => start client
                 end
             end))
          (fun r => bind (ask QUnlock) (fun _ => Ret r))
    end).

Definition ending_of (r : unit + DriverFailure) : Ending :=
  match r with
  | inl _ => EDone
  | inr DCancelled => ECancelled
  | inr e => EFailed (failure_code e)
  end.

(** [drive]: the winner of the terminal transition releases the account. *)
Definition drive (fuel : nat) (account : uuid) (p : Presentation) : gprog (option Ending) :=
  bind (ask QNow) (fun now =>
  bind (drive_under_identity_lock fuel account p (now + FLOW_TTL)) (fun r =>
    match r with
    | None => Ret None
    | Some r =>
        bind (ask (QTerminal (ending_of r))) (fun won =>
        bind (if won : bool then ask QRelease else Ret tt) (fun _ => Ret (Some (ending_of r))))
    end)).

(** ** What a run shows *)

Definition instant_of (e : event ganswer) : option Z :=
  match e with
  | existT q x =>
      match q return ganswer q -> option Z with QInstant => fun t => Some t | _ => fun _ => None end x
  end.
Definition instants (h : list (event ganswer)) : list Z := omap instant_of h.

(** The process's monotonic clock. *)
Definition clock_ok (h : list (event ganswer)) : Prop := StronglySorted Z.le (instants h).

(** The driver holds the identity lock. *)
Definition lock_step (held : bool) (e : event ganswer) : bool :=
  match e with
  | existT q x =>
      match q return ganswer q -> bool with
      | QLockOrEnd => fun r => match r with SelGot _ => true | _ => held end
      | QUnlock => fun _ => false
      | _ => fun _ => held
      end x
  end.
Definition held (h : list (event ganswer)) : bool := foldl lock_step false h.

Section Driver.
Context (account : uuid) (deadline : Z).

(** The account was read as active, and the reading recorded at [t]. *)
Definition active_read (h : list (event ganswer)) (t : Z) : Prop :=
  exists ha a hb, h = ha ++ ev (QGetAccount account) (Some (Some a)) :: ev QInstant t :: hb /\
    acct_state a = Active.

(** The client the driver started with, found trusted before any other. *)
Definition started_with (h : list (event ganswer)) (c : ClientRun) : Prop :=
  exists ha hb, h = ha ++ ev (QClient account) (Some c) :: ev QTrusted true :: hb /\
    Forall (fun e => forall x, e <> ev (QClient account) x) ha.

(** The account check of an iteration: the row is read now, as active; or it was read so
    before and the reading recorded less than five seconds before this check begins.
    The lookup of the client and its trust check come after it, each with a timeout of
    its own, so at the poll the reading may be older. *)
Definition account_checked (h0 tr : list (event ganswer)) : Prop :=
  (exists t1 a t2, tr = [ev QInstant t1; ev (QGetAccount account) (Some (Some a)); ev QInstant t2] /\
     acct_state a = Active) \/
  (exists t1 t2, tr = [ev QInstant t1] /\ active_read h0 t2 /\
     t1 < t2 + ACTIVE_ACCOUNT_RECHECK_INTERVAL).

Definition poll_ok (h : list (event ganswer)) : Prop :=
  held h = true /\
  exists c0 h0 tr c t,
    h = h0 ++ tr ++ [ev (QClient account) (Some c); ev QTrusted true;
                     ev QIsCancelled false; ev QNow t] /\
    started_with h0 c0 /\ same_client_run c0 c = true /\ account_checked h0 tr /\ t < deadline.

Definition drive_allowed (q : GQuestion) (h : list (event ganswer)) : Prop :=
  match q with
  | QPoll => clock_ok h -> poll_ok h
  | QPublish (UWaitingForAuthorization t) => exists u, url_text u = t /\ validate_qr_url u = true
  | QTerminal _ => held h = false
  | _ => True
  end.

Lemma held_app h1 h2 : held (h1 ++ h2) = foldl lock_step (held h1) h2.
Proof. unfold held. by rewrite foldl_app. Qed.

Lemma held_snoc h e : lock_step true e = true -> held h = true -> held (h ++ [e]) = true.
Proof. intros He Hh. by rewrite held_app, Hh. Qed.

Lemma clock_ok_app h1 h2 : clock_ok (h1 ++ h2) -> clock_ok h1.
Proof. unfold clock_ok, instants. rewrite omap_app. by apply StronglySorted_app_1_l. Qed.

Lemma active_read_app h1 h2 t : active_read h1 t -> active_read (h1 ++ h2) t.
Proof.
  intros (ha & a & hb & -> & Ha). exists ha, a, (hb ++ h2). split; [|done].
  by rewrite <- app_assoc.
Qed.

Lemma started_with_app h1 h2 c : started_with h1 c -> started_with (h1 ++ h2) c.
Proof.
  intros (ha & hb & -> & Ha). exists ha, (hb ++ h2). split; [|done]. by rewrite <- app_assoc.
Qed.

(** Between iterations. *)
Definition driving (c : ClientRun) (next_check : Z) (h : list (event ganswer)) : Prop :=
  held h = true /\ started_with h c /\
  (next_check ∈ instants h \/
   exists t2, active_read h t2 /\ next_check = t2 + ACTIVE_ACCOUNT_RECHECK_INTERVAL).

Lemma driving_app c n h h' : driving c n h -> held (h ++ h') = true -> driving c n (h ++ h').
Proof.
  intros (H1 & H2 & H3) Hh. split_and!; [done|by apply started_with_app|].
  destruct H3 as [H|(t2 & H & ->)].
  - left. unfold instants. rewrite omap_app. apply elem_of_app. by left.
  - right. eauto using active_read_app.
Qed.

Abbreviation wpd := (wp drive_allowed).

(** Extending the history by questions that leave the lock alone. *)
Ltac hist := repeat rewrite <- app_assoc; cbn [app].

Lemma wp_poll_authority c n h : held h = true -> (clock_ok h -> driving c n h) ->
  wpd (validate_poll_authority account c n) h (fun r h' =>
    match r with
    | inl n' => exists tr c', h' = h ++ tr ++ [ev (QClient account) (Some c'); ev QTrusted true] /\
        same_client_run c c' = true /\ held h' = true /\
        (clock_ok h' -> account_checked h tr /\ driving c n' h')
    | inr _ => exists tr, h' = h ++ tr /\ held h' = true
    end).
Proof.
  intros Hh D. unfold validate_poll_authority.
  split; [done|]. intros t1. unfold try_. apply wp_bind.
  assert (forall tr, Forall (fun e => lock_step true e = true) tr -> held (h ++ tr) = true) as Hkeep.
  { intros tr Htr. rewrite held_app, Hh. induction Htr as [|e tr He _ IH]; [done|]. cbn. by rewrite He. }
  assert (forall n' tr h1, h1 = h ++ tr -> Forall (fun e => lock_step true e = true) tr ->
    (clock_ok h1 -> account_checked h tr /\
       (n' ∈ instants h1 \/ exists t2, active_read h1 t2 /\ n' = t2 + ACTIVE_ACCOUNT_RECHECK_INTERVAL)) ->
    wpd (bind (validate_current_trusted_client account (Some c)) (fun r =>
      match r with inl _ => Ret (inl n') | inr e => Ret (inr (id e)) end)) h1 (fun r h' =>
    match r with
    | inl n' => exists tr c', h' = h ++ tr ++ [ev (QClient account) (Some c'); ev QTrusted true] /\
        same_client_run c c' = true /\ held h' = true /\
        (clock_ok h' -> account_checked h tr /\ driving c n' h')
    | inr _ => exists tr, h' = h ++ tr /\ held h' = true
    end)) as Hclient.
  { intros n' tr h1 -> Htr Hck. apply wp_bind. unfold validate_current_trusted_client.
    split; [done|]. intros [c'|]; cbn -[ganswer].
    2:{ eexists (tr ++ [_]). rewrite <- app_assoc. split; [done|]. apply Hkeep.
        apply Forall_app; split; [done|by repeat constructor]. }
    destruct (same_client_run c c') eqn:Ec; cbn -[ganswer].
    2:{ eexists (tr ++ [_]). rewrite <- app_assoc. split; [done|]. apply Hkeep.
        apply Forall_app; split; [done|by repeat constructor]. }
    split; [done|]. intros []; cbn -[ganswer].
    2:{ eexists (tr ++ [_; _]). hist. split; [done|]. apply Hkeep.
        apply Forall_app; split; [done|by repeat constructor]. }
    assert (held (h ++ tr ++ [ev (QClient account) (Some c'); ev QTrusted true]) = true) as Hh'.
    { apply Hkeep, Forall_app; split; [done|by repeat constructor]. }
    exists tr, c'. hist. split_and!; try done. intros Hclock.
    rewrite app_assoc in Hclock. destruct (Hck (clock_ok_app _ _ Hclock)) as [? Hn'].
    destruct (D (clock_ok_app _ _ (clock_ok_app _ _ Hclock))) as (_ & Hs & _).
    split; [done|]. split; [done|]. split; [by apply started_with_app|].
    destruct Hn' as [Hi|(t2 & Ht & ->)].
    - left. unfold instants in *. rewrite app_assoc, omap_app. apply elem_of_app. by left.
    - right. exists t2. split; [|done]. rewrite app_assoc. by apply active_read_app. }
  unfold try_, load_active_account. cbn -[ganswer validate_current_trusted_client].
  destruct (n <=? t1) eqn:En; cbn -[ganswer validate_current_trusted_client].
  - split; [done|]. intros [[a|]|]; cbn -[ganswer validate_current_trusted_client].
    2-3: eexists [_; _]; hist; split; [done|]; apply Hkeep; by repeat constructor.
    destruct (acct_state a) eqn:Ea; cbn -[ganswer validate_current_trusted_client].
    2-3: eexists [_; _]; hist; split; [done|]; apply Hkeep; by repeat constructor.
    split; [done|]. intros t2. hist. eapply Hclient; [done|by repeat constructor|].
    intros _. split; [left; eauto 6|]. right. exists t2. split; [|done].
    exists (h ++ [ev QInstant t1]), a, []. hist. done.
  - hist. eapply Hclient; [done|by repeat constructor|]. intros Hclock. apply Z.leb_gt in En.
    destruct (D (clock_ok_app _ _ Hclock)) as (_ & _ & [Hi|(t2 & Ht & ->)]).
    + exfalso. unfold clock_ok, instants in Hclock. rewrite omap_app in Hclock.
      pose proof (StronglySorted_app_1_elem_of Z.le _ _ n t1 Hclock Hi ltac:(by left)). lia.
    + split; [right; exists t1, t2; by split_and!|]. right. exists t2. split; [|done].
      by apply active_read_app.
Qed.

(** Steps that only add events which leave the lock alone. *)
Definition carries c n h : Prop := held h = true /\ (clock_ok h -> driving c n h).

Lemma carries_snoc c n h e : lock_step true e = true -> carries c n h -> carries c n (h ++ [e]).
Proof.
  intros He [Hh D]. assert (held (h ++ [e]) = true) as Hh' by (by rewrite held_app, Hh).
  split; [done|]. intros Hc. apply driving_app; [|done]. by apply D, clock_ok_app with [e].
Qed.

Ltac keep_lock := repeat (apply held_snoc; [reflexivity|]); assumption.
Ltac carry := repeat first [eassumption | apply carries_snoc; [reflexivity|]].

Lemma wp_apply_progress c n h u s k : carries c n h ->
  wpd (apply_progress u s k) h (fun _ h' => carries c n h').
Proof.
  intros C. destruct u; cbn -[ganswer validate_qr_url]; try (split; [done|intros []; carry]); try done.
  destruct (validate_qr_url uri) eqn:Eu; cbn -[ganswer validate_qr_url]; [|done].
  split; [eauto|]. intros []. carry.
Qed.

Lemma wp_drain c n fuel h s k : carries c n h ->
  wpd (drain_progress fuel s k) h (fun _ h' => carries c n h').
Proof.
  revert h s k. induction fuel as [|fuel IH]; intros h s k C; [done|].
  cbn [drain_progress]. apply wp_ask; [done|]. intros [u|]; [|cbn; carry].
  apply wp_bind. eapply wp_mono; [apply wp_apply_progress; carry|].
  intros [[s' k']|e] h' C'; [by apply IH|done].
Qed.

Lemma wp_confirm_and_park c n h s k : carries c n h ->
  wpd (confirm_and_park s k) h (fun _ h' => carries c n h').
Proof.
  intros C. unfold confirm_and_park. apply wp_bind.
  apply wp_mono with (fun _ h' => carries c n h').
  { destruct k; [|done]. split; [done|]. intros x. cbn. carry. }
  intros ok h1 C1. destruct ok; [|done]. cbn -[ganswer]. split; [done|].
  intros [| |[|[v|]]]; cbn -[ganswer]; try carry; destruct s; cbn -[ganswer]; try carry.
  split; [done|]. intros [|]; cbn; carry.
Qed.

Lemma wp_drive_sdk_future fuel c n h s : carries c n h ->
  wpd (drive_sdk_future fuel account c deadline n s) h (fun _ h' => held h' = true).
Proof.
  revert n h s. induction fuel as [|fuel IH]; intros n h s C; [by destruct C|].
  cbn [drive_sdk_future]. apply wp_bind. destruct C as [Hh D].
  eapply wp_mono; [by apply wp_poll_authority|]. cbn beta.
  intros [n'|e] h1; [|by intros (tr & -> & Ht)].
  intros (tr & c' & -> & Hc & Hh1 & Hck). apply wp_bind. split; [done|].
  intros []; cbn -[ganswer]; [keep_lock|]. split; [done|]. intros t.
  destruct (deadline <=? t) eqn:Et; cbn -[ganswer]; [keep_lock|].
  apply Z.leb_gt in Et. split.
  { intros Hclock. split; [keep_lock|].
    destruct (Hck (clock_ok_app _ _ (clock_ok_app _ _ Hclock))) as [Hacc _].
    destruct (D (clock_ok_app _ _ (clock_ok_app _ _ (clock_ok_app _ _ Hclock)))) as (_ & Hs & _).
    exists c, h, tr, c', t. hist. done. }
  intros r.
  assert (carries c n' (h ++ tr ++ [ev (QClient account) (Some c'); ev QTrusted true])) as C1.
  { split; [done|]. intros Hclock. by apply Hck. }
  assert (carries c n' ((((h ++ tr ++ [ev (QClient account) (Some c'); ev QTrusted true]) ++
    [ev QIsCancelled false]) ++ [ev QNow t]) ++ [ev QPoll r])) as C2 by carry.
  destruct r as [|[[]|e]]; cbn -[ganswer confirm_and_park drain_progress]; [|by destruct C2..].
  apply wp_bind. eapply wp_mono; [by apply wp_drain|].
  intros [[[s' k']|e]|] h2 [Hh2 D2]; try done.
  apply wp_bind. eapply wp_mono; [by apply wp_confirm_and_park|].
  intros [s2|e] h3 C3; [by apply IH|by destruct C3].
Qed.

(** The driver starts with the first client it is given, once that is trusted. *)
Lemma wp_start fuel c h :
  held h = true -> started_with h c ->
  wpd (bind (ask QInstant) (fun now => drive_sdk_future fuel account c deadline now false)) h
    (fun _ h' => held h' = true).
Proof.
  intros Hh Hs. apply wp_ask; [done|]. intros now. apply wp_drive_sdk_future.
  split; [keep_lock|]. intros _. split_and!; [keep_lock|by apply started_with_app|].
  left. unfold instants. rewrite omap_app. apply elem_of_app. right. by left.
Qed.

Lemma wp_drive_locked fuel p h :
  Forall (fun e => forall x, e <> ev (QClient account) x) h -> held h = true ->
  wpd (bind (validate_authority account None) (fun r =>
     match r with
     | inr e => Ret (Some (inr (classify_authority_error e)))
     | inl (_, client) =>
         match p with
         | Scan =>
             bind (ask QScan) (fun r =>
               match r with
               | SelCancelled => Ret (Some (inr DCancelled))
               | SelTimeout => Ret (Some (inr DTimeout))
               | SelGot false => Ret (Some (inr DCancelled))
               | SelGot true => bind (ask QInstant) (fun now =>
                   drive_sdk_future fuel account client deadline now false)
               end)
         | Display => bind (ask QInstant) (fun now =>
             drive_sdk_future fuel account client deadline now false)
         end
     end)) h (fun _ h' => held h' = true).
Proof.
  intros Hno Hh. unfold validate_authority, try_, load_active_account.
  cbn -[ganswer drive_sdk_future]. split; [done|].
  intros [[a|]|]; cbn -[ganswer drive_sdk_future]; try keep_lock.
  destruct (acct_state a); cbn -[ganswer drive_sdk_future]; try keep_lock.
  split; [done|]. intros [c|]; cbn -[ganswer drive_sdk_future]; try keep_lock.
  split; [done|]. intros []; cbn -[ganswer drive_sdk_future]; try keep_lock.
  set (h1 := ((h ++ [_]) ++ [_]) ++ [_]).
  assert (held h1 = true) as Hh1 by keep_lock.
  assert (started_with h1 c) as Hs.
  { exists (h ++ [ev (QGetAccount account) (Some (Some a))]), []. unfold h1. hist. split; [done|].
    apply Forall_app; split; [done|]. by repeat constructor. }
  destruct p; [by apply (wp_start fuel c h1)|]. split; [done|].
  intros [| |[]]; cbn -[ganswer drive_sdk_future]; try keep_lock.
  apply (wp_start fuel c); [keep_lock|by apply started_with_app].
Qed.

Lemma wp_drive_under_identity_lock fuel p h :
  Forall (fun e => forall x, e <> ev (QClient account) x) h -> held h = false ->
  wpd (drive_under_identity_lock fuel account p deadline) h (fun _ h' => held h' = false).
Proof.
  intros Hno Hh. unfold drive_under_identity_lock. apply wp_ask; [done|].
  intros [| |[]]; [by cbn; rewrite held_app, Hh..|]. apply wp_bind.
  eapply wp_mono; [apply wp_drive_locked|].
  - apply Forall_app; split; [done|]. by repeat constructor.
  - by rewrite held_app, Hh.
  - intros r h' _. apply wp_ask; [done|]. intros []. by cbn; rewrite held_app.
Qed.

End Driver.

Lemma wp_drive fuel account p now :
  wp (drive_allowed account (now + FLOW_TTL))
    (bind (drive_under_identity_lock fuel account p (now + FLOW_TTL)) (fun r =>
      match r with
      | None => Ret None
      | Some r =>
          bind (ask (QTerminal (ending_of r))) (fun won =>
          bind (if won : bool then ask QRelease else Ret tt) (fun _ => Ret (Some (ending_of r))))
      end)) [ev QNow now] (fun _ _ => True).
Proof.
  apply wp_bind. eapply wp_mono; [apply wp_drive_under_identity_lock|]; [by repeat constructor|done|].
  intros [r|] h Hh; [|done]. apply wp_ask; [done|]. intros []; [|done]. by split.
Qed.

(** ** Properties *)

(** [C25] The SDK's grant future is polled only with the account's identity lock
    held, before the deadline, on a check that no cancellation has arrived, right
    after the current client was found to be the one the grant started with and
    still trusted.  The iteration that polls begins with its account check: the row
    is read as active there, or was recorded as read so less than five seconds before that
    check; the client lookup and the trust check, which take their own time, lie between
    it and the poll.  Only https or loopback links are published; and the flow is ended
    after the identity lock was released.  A run may be cut at any question. *)
Theorem grant_polls_are_authorized fuel account p tr h q x t2 :
  cut_run (drive fuel account p) tr -> tr = h ++ ev q x :: t2 ->
  match q with
  | QPoll => clock_ok h -> exists now, head h = Some (ev QNow now) /\
      poll_ok account (now + FLOW_TTL) h
  | QPublish (UWaitingForAuthorization link) =>
      exists u, url_text u = link /\ validate_qr_url u = true
  | QTerminal _ => held h = false
  | _ => True
  end.
Proof.
  intros Hrun Htr. subst tr. cbn in Hrun. destruct Hrun as [H|(now & t & Ht & Hrun)]; [by destruct h|].
  destruct h as [|e h].
  { apply (f_equal (fun l => @projT1 GQuestion ganswer <$> head l)) in Ht. cbn in Ht.
    injection Ht as ->. done. }
  injection Ht as -> <-.
  pose proof (wp_cut_run _ _ _ _ _ h q x t2 (wp_drive fuel account p now) Hrun eq_refl) as H.
  destruct q; try exact H; try done.
  intros Hc. exists now. split; [done|]. by apply H.
Qed.

(** ** Stopping *)

Definition cleared (h : list (event ganswer)) : Prop := ev QIsCancelled false ∈ h.

Definition stop_allowed (q : GQuestion) (h : list (event ganswer)) : Prop :=
  match q with QPoll => cleared h | _ => True end.

Lemma cleared_app h1 h2 : cleared h1 -> cleared (h1 ++ h2).
Proof. intros H. apply elem_of_app. by left. Qed.
Hint Resolve cleared_app : core.

Abbreviation wps := (wp stop_allowed).

(** A program that asks no poll meets any such condition. *)
Lemma wps_poll_authority account c n h :
  wps (validate_poll_authority account c n) h (fun _ _ => True).
Proof.
  unfold validate_poll_authority, try_, load_active_account, validate_current_trusted_client.
  split; [done|]. intros t. cbn -[ganswer].
  destruct (n <=? t); cbn -[ganswer].
  - split; [done|]. intros [[a|]|]; cbn -[ganswer]; try done.
    destruct (acct_state a); cbn -[ganswer]; try done.
    split; [done|]. intros t2. split; [done|]. intros [c'|]; cbn -[ganswer]; try done.
    destruct (same_client_run c c'); cbn -[ganswer]; try done. split; [done|].
    by intros [].
  - split; [done|]. intros [c'|]; cbn -[ganswer]; try done.
    destruct (same_client_run c c'); cbn -[ganswer]; try done. split; [done|].
    by intros [].
Qed.

Lemma wps_cleared {A} (p : gprog A) h : cleared h -> wps p h (fun _ h' => cleared h').
Proof.
  revert h. induction p as [a|q k IH]; intros h Hc; [done|]. split; [by destruct q|].
  intros x. apply IH. auto.
Qed.

Lemma wps_drive_sdk_future fuel account c deadline n s h :
  wps (drive_sdk_future (S fuel) account c deadline n s) h (fun r h' => r = None -> cleared h').
Proof.
  cbn [drive_sdk_future]. apply wp_bind. eapply wp_mono; [apply wps_poll_authority|].
  intros [n'|e] h1 _; [|done]. apply wp_bind. apply wp_ask; [done|].
  intros []; cbn -[ganswer]; [done|]. split; [done|]. intros t.
  destruct (deadline <=? t); cbn -[ganswer]; [done|].
  assert (cleared ((h1 ++ [ev QIsCancelled false]) ++ [ev QNow t])) as Hc.
  { apply cleared_app. unfold cleared. rewrite elem_of_app. right. by apply list_elem_of_singleton. }
  split; [done|]. intros r. eapply wp_mono; [by apply wps_cleared, cleared_app|]. done.
Qed.

Lemma wps_drive fuel account p h :
  wps (drive (S fuel) account p) h (fun r h' => r = None -> cleared h').
Proof.
  unfold drive. apply wp_ask; [done|]. intros now. apply wp_bind.
  apply wp_mono with (fun r h' => r = None -> cleared h').
  2:{ intros [r|] h1 H1; [|intros _; by apply H1]. apply wp_ask; [done|]. intros []; [|done]. by split. }
  unfold drive_under_identity_lock. apply wp_ask; [done|]. intros [| |[]]; [done..|].
  apply wp_bind. apply wp_mono with (fun r h' => r = None -> cleared h').
  2:{ intros r h1 H1. apply wp_ask; [done|]. intros [] E. by apply cleared_app, H1. }
  unfold validate_authority, try_, load_active_account. cbn -[ganswer drive_sdk_future].
  split; [done|]. intros [[a|]|]; cbn -[ganswer drive_sdk_future]; try done.
  destruct (acct_state a); cbn -[ganswer drive_sdk_future]; try done.
  split; [done|]. intros [c|]; cbn -[ganswer drive_sdk_future]; try done.
  split; [done|]. intros []; cbn -[ganswer drive_sdk_future]; try done.
  destruct p; cbn -[ganswer drive_sdk_future].
  - split; [done|]. intros t. apply wps_drive_sdk_future.
  - split; [done|]. intros [| |[]]; cbn -[ganswer drive_sdk_future]; try done.
    split; [done|]. intros t. apply wps_drive_sdk_future.
Qed.

(** A cancelled grant stops: if every check of the cancellation finds it set,
    the driver never polls the SDK and always returns, without waiting for the
    loop's fuel, in one iteration. *)
Theorem cancelled_grant_stops fuel account p tr :
  ev QIsCancelled false ∉ tr ->
  (cut_run (drive (S fuel) account p) tr -> forall r, ev QPoll r ∉ tr) /\
  (forall r, runs (drive (S fuel) account p) tr r -> is_Some r).
Proof.
  intros Hno. split.
  - intros Hcut r Hr. apply list_elem_of_split in Hr as (h & t2 & Htr).
    pose proof (wp_cut_run _ _ _ _ _ h QPoll r t2 (wps_drive fuel account p []) Hcut Htr) as H.
    apply Hno. rewrite Htr. apply elem_of_app. by left.
  - intros r Hr. pose proof (wp_runs _ _ _ _ _ _ (wps_drive fuel account p []) Hr) as H.
    destruct r; [done|]. exfalso. by apply Hno, H.
Qed.

(** ** Creation *)

Definition is_spawn (e : event ganswer) : bool :=
  match e with existT (QSpawn _) _ => true | _ => false end.

Ltac fail_case flow :=
  repeat (split; [done|]; intros []; cbn -[ganswer]); split; [done|];
  right; exists flow;
  match goal with
  | |- exists tr', _ :: ?l = _ :: tr' ++ [?x] =>
      let t := eval cbv [removelast] in (removelast l) in exists t; reflexivity
  end.

(** [create] fails closed.  It reports a flow only after the account was read
    as active under its identity lock, its current client was trusted and its
    secrets bundle was the client's own, and after the registry committed the
    reservation; on every other answer it starts no driver, and abandons the
    reservation it had made. *)
Theorem create_fails_closed account p tr r :
  runs (create account p) tr r ->
  match r with
  | inl s =>
      exists flow a0 a c user,
        tr = [ev (QReserve account) (inl flow); ev (QGetAccount account) (Some (Some a0));
              ev (QLockIdentity (user_id a0) (homeserver_url a0)) tt;
              ev (QGetAccount account) (Some (Some a)); ev (QClient account) (Some c);
              ev QTrusted true; ev (QExport account) (Exported (Some user));
              ev (QCommit account flow) (inl tt); ev (QSpawn flow) tt; ev QUnlock tt] /\
        acct_state a = Active /\ client_user c = Some user /\ s = new_state flow account p
  | inr e =>
      forallb (fun ev => negb (is_spawn ev)) tr = true /\
      (tr = [ev (QReserve account) (inr e)] \/
       exists flow tr', tr = ev (QReserve account) (inl flow) :: tr' ++ [ev (QAbandon account flow) tt])
  end.
Proof.
  intros Hrun. pattern r, tr.
  match goal with |- ?P r tr =>
    enough (wp (fun _ _ => True) (create account p) [] P) as W
      by exact (wp_runs _ _ [] P tr r W Hrun) end.
  clear Hrun tr r.
  unfold create, try_, create_under_reservation, validate_authority, load_active_account,
    validate_current_trusted_client, validate_exportable, try_, load_active_account.
  cbn -[ganswer]. split; [done|]. intros [flow|e]; cbn -[ganswer]; [|by auto].
  split; [done|]. intros [[a0|]|]; cbn -[ganswer]; [|fail_case flow..].
  split; [done|]. intros []. split; [done|].
  intros [[a|]|]; cbn -[ganswer]; [|fail_case flow..].
  destruct (acct_state a) eqn:Ea; cbn -[ganswer]; [|fail_case flow..].
  split; [done|]. intros [c|]; cbn -[ganswer]; [|fail_case flow].
  split; [done|]. intros []; cbn -[ganswer]; [|fail_case flow].
  split; [done|]. intros [| |[user|]]; cbn -[ganswer]; [fail_case flow..| |fail_case flow].
  case_bool_decide as Eu; cbn -[ganswer]; [|fail_case flow].
  split; [done|]. intros [[]|e]; cbn -[ganswer]; [|fail_case flow].
  split; [done|]. intros []. split; [done|]. intros [].
  exists flow, a0, a, c, user. by rewrite Ea.
Qed.

(** ** Concrete runs *)

Definition demo_account : Account := MkAccount (t! "@a:hs") (t! "https://hs") Active.
Definition demo_client : ClientRun := MkClient (Some (t! "@a:hs")) (Some (t! "DEV")).

(** Everything is in order, and the SDK finishes at the first poll. *)
Definition demo_answers (cancelled : bool) (h : list (event ganswer)) (q : GQuestion) : ganswer q :=
  match q with
  | QReserve _ => inl 70
  | QGetAccount _ => Some (Some demo_account)
  | QClient _ => Some demo_client
  | QTrusted => true
  | QExport _ => Exported (Some (t! "@a:hs"))
  | QCommit _ _ => inl tt
  | QLockOrEnd => SelGot tt
  | QScan => SelGot true
  | QInstant => 10
  | QNow => 100
  | QIsCancelled => cancelled
  | QPoll => PollReady (inl tt)
  | QProgress => None
  | QConfirm => true
  | QPark _ => SelCancelled
  | QSendCode _ => true
  | QTerminal _ => true
  | QAbandon _ _ | QLockIdentity _ _ | QUnlock | QSpawn _ | QPublish _ | QRelease => tt
  end.

Definition now_of (e : event ganswer) : option Z :=
  match e with
  | existT q x =>
      match q return ganswer q -> option Z with QNow => Some | _ => fun _ => None end x
  end.
Definition is_clear (e : event ganswer) : bool :=
  match e with
  | existT q x =>
      match q return ganswer q -> bool with QIsCancelled => negb | _ => fun _ => false end x
  end.
Definition demo_drive (cancelled : bool) := exec (demo_answers cancelled) [] (drive 1 7 Scan).
Definition demo_create := exec (demo_answers false) [] (create 7 Scan).

Lemma grant_polls_are_authorized_witness :
  poll_ok 7 (100 + FLOW_TTL) (take 14 (demo_drive false).1).
Proof.
  destruct (grant_polls_are_authorized 1 7 Scan (demo_drive false).1 (take 14 (demo_drive false).1)
    QPoll (PollReady (inl tt)) (drop 15 (demo_drive false).1)) as (now & Hnow & H).
  - eapply cut_runs, exec_runs.
  - by vm_compute.
  - unfold clock_ok. replace (instants (take 14 (demo_drive false).1)) with [10; 10; 10]
      by (by vm_compute). repeat constructor; lia.
  - apply (f_equal (fun o => default 0 (o ≫= now_of))) in Hnow. vm_compute in Hnow. by subst now; apply H.
Defined.

Lemma cancelled_grant_stops_witness :
  is_Some (demo_drive true).2 /\ forall r, ev QPoll r ∉ (demo_drive true).1.
Proof.
  assert (runs (drive 1 7 Scan) (demo_drive true).1 (demo_drive true).2) as Hr by apply exec_runs.
  destruct (cancelled_grant_stops 0 7 Scan (demo_drive true).1) as [H1 H2].
  - intros H. enough (existsb is_clear (demo_drive true).1 = true) as E by (by vm_compute in E).
    apply existsb_exists. exists (ev QIsCancelled false). by rewrite <- list_elem_of_In.
  - split; [by apply H2|]. apply H1. by eapply cut_runs.
Defined.

Lemma create_fails_closed_witness :
  exists flow a c user,
    length demo_create.1 = 10%nat /\ acct_state a = Active /\ client_user c = Some user /\
    new_state 70 7 Scan = new_state flow 7 Scan.
Proof.
  pose proof (create_fails_closed 7 Scan demo_create.1 demo_create.2 (exec_runs _ _ _)) as H.
  change (demo_create.2) with (inl (new_state 70 7 Scan) : GrantState + GrantError) in H.
  destruct H as (flow & a0 & a & c & user & Htr & Ha & Hc & Hs).
  exists flow, a, c, user. by rewrite Htr.
Defined.
