(* ===== verification/RoomSweep.v ===== *)
(** * Room sweeps

    Models [crates/axon-sync/src/room_sweep.rs]: the bounded traversal of an
    account's rooms that the local reconciliation workers share, the bounded
    reading of room hints, and the query behind a page
    ([Store::state_reconciliation_rooms]).  A worker embeds the sweep's questions
    in its own ([Effects.Embeds]). *)

From stdpp Require Import base gmap sets list strings sorting lexico.
From Stdlib Require Import ZArith Lia.
From S2P Require Import Prelude Text Effects.
Open Scope prog_scope.

(** An await inside a deadline inside a [select!] with the cancellation. *)
Inductive awaited (A : Type) := Ready (a : A) | Deadline | Cancelled.
Arguments Ready {A}.
Arguments Deadline {A}.
Arguments Cancelled {A}.

(** ** Hints *)

Inductive HintRead := Room (room : text) | Empty | Closed | Lagged.

#[export] Instance HintRead_eq_dec : EqDecision HintRead.
Proof. solve_decision. Defined.

Record HintBatch := MkBatch { rooms : gset text; closed : bool; lagged : bool }.

Definition no_hints : HintBatch := MkBatch ∅ false false.

Definition MAX_RECEIVES : nat := 32.
Definition MAX_HINTED : nat := 4.

Section Hints.
Context {Q : Type} {ans : Q -> Type} (receive : prog ans HintRead).

Fixpoint take_hints_loop (n : nat) (batch : HintBatch) : prog ans HintBatch :=
  match n with
  | O => Ret batch
  | S n =>
      if decide (size (rooms batch) = MAX_HINTED) then Ret batch
      else
        let! r := receive in
        match r with
        | Room room => take_hints_loop n (MkBatch ({[room]} ∪ rooms batch) (closed batch) (lagged batch))
        | Empty => Ret batch
        | Closed => Ret (MkBatch (rooms batch) true (lagged batch))
        | Lagged => Ret (MkBatch (rooms batch) (closed batch) true)
        end
  end.

Definition take_hints : prog ans HintBatch := take_hints_loop MAX_RECEIVES no_hints.
End Hints.

(** ** The sweep *)

Record RoomSweep := MkSweep {
  cursor : text;
  next : Z;
  repeat_ : bool;
  started : option Z;
  visited : Z;
}.

Inductive SweepQuestion := IsCancelled | Now | SelectPage (after : text).

(** A page is [None] when the store failed. *)
Definition sanswer (q : SweepQuestion) : Type :=
  match q with
  | IsCancelled => bool
  | Now => Z
  | SelectPage _ => awaited (option (list text))
  end.

Abbreviation sprog := (prog sanswer).

Definition now_ : sprog Z := ask (ans := sanswer) Now.

Definition new : sprog RoomSweep :=
  let! t := now_ in Ret (MkSweep [] t false None 0).

Definition wake (s : RoomSweep) : sprog RoomSweep :=
  let! t := now_ in
  Ret (MkSweep (cursor s) t (repeat_ s || negb (bool_decide (cursor s = []))) (started s) (visited s)).

Definition REST : Z := secs 300.

Definition advance (page : list text) (s : RoomSweep) : sprog RoomSweep :=
  match last page with
  | Some room => Ret (MkSweep room (next s) (repeat_ s) (started s) (visited s))
  | None =>
      let! t := now_ in
      Ret (MkSweep [] (t + (if repeat_ s then 0 else REST)) false (started s) (visited s))
  end.

Definition is_idle (s : RoomSweep) : sprog bool :=
  if decide (cursor s = []) then let! t := now_ in Ret (t <? next s) else Ret false.

Section Page.
(** [OwnedRoomId]'s parser. *)
Context (parse : text -> option text).

Definition start (s : RoomSweep) : sprog RoomSweep :=
  match started s with
  | Some _ => Ret s
  | None => let! t := now_ in Ret (MkSweep (cursor s) (next s) (repeat_ s) (Some t) 0)
  end.

(** The page arrived. *)
Definition arrived (page : list text) (s : RoomSweep) : sprog (option (list text) * RoomSweep) :=
  let s := MkSweep (cursor s) (next s) (repeat_ s)
    (if decide (page = []) then None else started s)
    (Z.min u64_max (visited s + Z.of_nat (length page))) in
  let! s := advance page s in
  Ret (Some (omap parse page), s).

(** [None] when cancelled. *)
Definition page (s : RoomSweep) : sprog (option (list text) * RoomSweep) :=
  let! cancelled := ask (ans := sanswer) IsCancelled in
  if cancelled then Ret (None, s)
  else
    let! idle := is_idle s in
    if idle then Ret (Some [], s)
    else
      let! s := start s in
      let! r := ask (ans := sanswer) (SelectPage (cursor s)) in
      match r with
      | Cancelled => Ret (None, s)
      | Ready (Some rows) => arrived rows s
      | Ready None | Deadline => Ret (Some [], s)
      end.
End Page.

(** ** The page query

    [before] is the database's collation. *)

Section Query.
Context (before : relation text) `{!RelDecision before}.

Definition PAGE_ROOMS : nat := 4.

(** [ORDER BY room_id]. *)
Definition in_order (x y : text) : Prop := x = y \/ before x y.
#[export] Instance in_order_dec : RelDecision in_order.
Proof. intros x y. apply or_dec; [apply list_eq_dec|apply _]. Defined.

Definition ordered (summaries : gset text) : list text := merge_sort in_order (elements summaries).

Definition state_reconciliation_rooms (summaries : gset text) (after : text) : list text :=
  take PAGE_ROOMS (filter (fun room => before after room) (ordered summaries)).
End Query.

(** ** Hints are bounded *)

(** [take_hints] over a channel: its answers are what it received. *)
Definition received (tr : list (event (fun _ : unit => HintRead))) : list HintRead :=
  map (fun e : event (fun _ : unit => HintRead) => match e with existT _ h => h end) tr.

Arguments received : simpl never.

Definition hint_room (h : HintRead) : option text :=
  match h with Room room => Some room | _ => None end.

(** Why reading stopped after [rs]. *)
Definition stopped (n : nat) (seen : gset text) (rs : list HintRead) : Prop :=
  length rs = n \/ size (seen ∪ list_to_set (omap hint_room rs)) = MAX_HINTED \/
  exists h, last rs = Some h /\ hint_room h = None.

Abbreviation channel_ := (ask (ans := fun _ : unit => HintRead) tt).

Lemma no_more_hints (X : gset text) : X = X ∪ list_to_set (omap hint_room []).
Proof. symmetry. apply union_empty_r_L. Qed.

Lemma take_hints_loop_spec n b tr b' :
  runs (take_hints_loop channel_ n b) tr b' ->
  (size (rooms b) <= MAX_HINTED)%nat -> closed b = false -> lagged b = false ->
  let rs := received tr in
  (length rs <= n)%nat /\ rooms b' = rooms b ∪ list_to_set (omap hint_room rs) /\
  (size (rooms b') <= MAX_HINTED)%nat /\
  closed b' = bool_decide (last rs = Some Closed) /\
  lagged b' = bool_decide (last rs = Some Lagged) /\
  stopped n (rooms b) rs /\
  forall i h, rs !! i = Some h -> hint_room h = None -> S i = length rs.
Proof.
  revert b tr. induction n as [|n IH]; intros b tr; cbn.
  { intros [-> ->] Hs Hc Hl. change (received []) with (@nil HintRead). cbn. rewrite Hc, Hl. split_and!; try done.
    - apply no_more_hints.
    - by left. }
  case_decide as Hd.
  { intros [-> ->] Hs Hc Hl. change (received []) with (@nil HintRead). cbn. rewrite Hc, Hl. split_and!; try done; [lia|apply no_more_hints|].
    right; left. rewrite <- Hd. f_equal. symmetry. apply no_more_hints. }
  intros (r & t' & -> & Hr) Hs Hc Hl. change (received (ev tt r :: t')) with (r :: received t').
  destruct r as [room| | |]; cbn in Hr.
  2-4: destruct Hr as [-> ->]; change (received []) with (@nil HintRead); cbn; rewrite ?Hc, ?Hl;
    (split_and!; [lia|apply no_more_hints|done|done|done|right; right; eauto|]);
    intros [|[|i]] h; cbn; done.
  destruct (IH _ _ Hr) as (H1 & H2 & H3 & H4 & H5 & H6 & H7); [cbn|done|done|].
  { rewrite size_union_alt, size_singleton.
    assert (size (rooms b ∖ {[room]}) <= size (rooms b))%nat by (apply subseteq_size; set_solver).
    lia. }
  cbn [rooms] in *. cbn zeta. split_and!.
  - cbn. lia.
  - rewrite H2. cbn. set_solver.
  - done.
  - rewrite H4. destruct (received t'); [|done]. cbn. symmetry. by apply bool_decide_eq_false.
  - rewrite H5. destruct (received t'); [|done]. cbn. symmetry. by apply bool_decide_eq_false.
  - destruct H6 as [H6|[H6|(h & H6 & H6')]]; [left; cbn; lia|right; left|right; right].
    + cbn. rewrite <- H6. f_equal. set_solver.
    + exists h. split; [|done]. by destruct (received t').
  - intros [|i] h; cbn; [intros [= <-]; done|]. intros Hi Hh. f_equal. eauto.
Qed.

(** Reading hints takes at most 32 messages and at most four distinct rooms
    off the channel, and leaves the rest on it: the rooms of the batch are
    exactly those received; it reports a closed or lagging channel exactly when
    the last message said so; nothing but a room is read over; and it stops early
    only for the room budget, an empty channel, a closed one or a lag. *)
Theorem hints_are_bounded tr b :
  runs (take_hints channel_) tr b ->
  let rs := received tr in
  (length rs <= MAX_RECEIVES)%nat /\ (size (rooms b) <= MAX_HINTED)%nat /\
  rooms b = list_to_set (omap hint_room rs) /\
  closed b = bool_decide (last rs = Some Closed) /\
  lagged b = bool_decide (last rs = Some Lagged) /\
  (length rs = MAX_RECEIVES \/ size (rooms b) = MAX_HINTED \/
    exists h, last rs = Some h /\ hint_room h = None) /\
  forall i h, rs !! i = Some h -> hint_room h = None -> S i = length rs.
Proof.
  unfold take_hints. generalize MAX_RECEIVES. intros n H.
  destruct (take_hints_loop_spec _ _ _ _ H) as (H1 & H2 & H3 & H4 & H5 & H6 & H7);
    [apply Nat.le_0_l|done|done|]. cbn [no_hints rooms] in *.
  rewrite union_empty_l_L in H2. split_and!; try done.
  unfold stopped in H6. by rewrite union_empty_l_L, <- H2 in H6.
Qed.

(** ** A pass visits every room *)

Section Correct.
Context (parse : text -> option text).
Context (before : relation text) `{!RelDecision before} `{!StrictOrder before}.
Context (trichotomy : forall x y : text, before x y \/ x = y \/ before y x).
Context (empty_first : forall x, x <> [] -> before [] x).

Abbreviation select := (state_reconciliation_rooms before).

#[local] Instance in_order_trans : Transitive (in_order before).
Proof. intros x y z [->|H1] [->|H2]; unfold in_order; auto. right. by transitivity y. Qed.
#[local] Instance in_order_total : Total (in_order before).
Proof. intros x y. unfold in_order. destruct (trichotomy x y) as [|[|]]; auto. Qed.

Lemma ordered_elem T r : r ∈ ordered before T <-> r ∈ T.
Proof. unfold ordered. rewrite (merge_sort_Permutation _ _). apply elem_of_elements. Qed.

Lemma ordered_sorted T : StronglySorted before (ordered before T).
Proof.
  unfold ordered. pose proof (StronglySorted_merge_sort (in_order before) (elements T)) as Hs.
  assert (NoDup (merge_sort (in_order before) (elements T))) as Hn.
  { rewrite (merge_sort_Permutation _ _). apply NoDup_elements. }
  induction Hs as [|x l Hs IH Hf]; [constructor|]. inversion Hn; subst.
  constructor; [auto|]. rewrite Forall_forall in *. intros y Hy.
  destruct (Hf y Hy) as [->|]; done.
Qed.

Lemma ordered_length T : length (ordered before T) = size T.
Proof. unfold ordered. rewrite (merge_sort_Permutation _ _). done. Qed.

Lemma before_empty x : ~ before x [].
Proof.
  intros H. destruct (decide (x = [])) as [->|Hx]; [exact (StrictOrder_Irreflexive _ H)|].
  apply (StrictOrder_Irreflexive x). exact (StrictOrder_Transitive _ _ _ H (empty_first x Hx)).
Qed.

(** A page holds the next room, or ends before it. *)
Lemma select_next T c r :
  r ∈ T -> before c r ->
  r ∈ select T c \/ exists l, last (select T c) = Some l /\ before l r /\ l <> [].
Proof.
  intros HT Hb. unfold state_reconciliation_rooms.
  pose proof (StronglySorted_filter _ (fun room => before c room) _ (ordered_sorted T)) as Hs.
  assert (r ∈ filter (fun room => before c room) (ordered before T)) as Hr.
  { apply list_elem_of_filter. by rewrite ordered_elem. }
  assert (Forall (before c) (filter (fun room => before c room) (ordered before T))) as Hc.
  { apply Forall_forall. by intros x [? _]%list_elem_of_filter. }
  revert Hs Hr Hc. generalize (filter (fun room => before c room) (ordered before T)).
  intros L Hs Hr Hc. rewrite <- (take_drop PAGE_ROOMS L), elem_of_app in Hr.
  destruct Hr as [?|Hr]; [by left|right].
  assert (PAGE_ROOMS < length L)%nat as Hlen.
  { destruct (decide (length L <= PAGE_ROOMS)%nat); [|lia]. rewrite drop_ge in Hr by lia.
    by apply not_elem_of_nil in Hr. }
  destruct (last (take PAGE_ROOMS L)) as [l|] eqn:El.
  - exists l. apply last_Some_elem_of in El.
    rewrite <- (take_drop PAGE_ROOMS L) in Hs. split_and!; [done| |].
    + eapply StronglySorted_app_1_elem_of; eauto.
    + intros ->. rewrite <- (take_drop PAGE_ROOMS L), Forall_app, Forall_forall in Hc.
      destruct Hc as [Hc _]. by apply Hc, before_empty in El.
  - apply last_None in El. destruct L; [cbn in Hlen; lia|done].
Qed.

Lemma select_after T c l : last (select T c) = Some l -> l <> [].
Proof.
  intros H%last_Some_elem_of ->. unfold state_reconciliation_rooms in H.
  apply elem_of_take in H as (i & H & _). apply list_elem_of_lookup_2 in H.
  apply list_elem_of_filter in H as [H _]. by apply before_empty in H.
Qed.

(** Answers the clock and the table can give, up to the time [t]. *)
Definition serves (T : gset text) (t : Z) (e : event sanswer) : Prop :=
  match e with
  | existT q x =>
      match q return sanswer q -> Prop with
      | IsCancelled => fun _ => True
      | Now => fun now => now <= t
      | SelectPage after => fun r =>
          match r with Ready (Some rows) => rows = select T after | _ => True end
      end x
  end.

(** A sweep in use: wakes and pages, over tables that all hold [room]. *)
Inductive swept (room : text) (t : Z) : RoomSweep -> list text -> RoomSweep -> Prop :=
| swept_refl s : swept room t s [] s
| swept_wake s seen s1 tr s2 :
    swept room t s seen s1 -> runs (wake s1) tr s2 -> Forall (serves ∅ t) tr ->
    swept room t s seen s2
| swept_page s seen s1 T tr out s2 :
    swept room t s seen s1 -> room ∈ T -> runs (page parse s1) tr (out, s2) ->
    Forall (serves T t) tr -> swept room t s (seen ++ default [] out) s2.

Section Wakes.
Context (room parsed : text) (Hroom : room <> []) (Hparse : parse room = Some parsed).
Context (t : Z).

(** The sweep owes [room] a visit. *)
Definition owes (s : RoomSweep) : Prop :=
  if decide (cursor s = []) then next s <= t
  else repeat_ s = true \/ before (cursor s) room.

Lemma wake_owes s tr s' : runs (wake s) tr s' -> Forall (serves ∅ t) tr -> owes s'.
Proof.
  unfold wake. cbn. intros (now & t' & -> & [-> ->]) [Hn _]%Forall_cons. unfold owes. cbn.
  case_decide; [done|]. left. rewrite bool_decide_false by done. apply orb_true_r.
Qed.

Lemma owes_not_idle s tr idle :
  owes s -> runs (is_idle s) tr idle ->
  Forall (fun e => forall now, e = ev (ans := sanswer) Now now -> t <= now) tr -> idle = false.
Proof.
  unfold owes, is_idle. intros Ho. case_decide; [|by intros [_ ->]]. cbn.
  intros (now & t' & -> & [-> ->]) [Hn _]%Forall_cons.
  specialize (Hn _ eq_refl). apply Z.ltb_ge. lia.
Qed.

Lemma start_owes s tr s' : runs (start s) tr s' ->
  cursor s' = cursor s /\ next s' = next s /\ repeat_ s' = repeat_ s.
Proof.
  unfold start. destruct (started s); cbn; [by intros [_ ->]|].
  by intros (now & t' & -> & [-> ->]).
Qed.

Lemma arrived_owes T s tr o s' :
  owes s -> room ∈ T -> runs (arrived parse (select T (cursor s)) s) tr (o, s') ->
  Forall (serves T t) tr -> owes s' \/ parsed ∈ default [] o.
Proof.
  intros Ho HT Hr Hs. unfold arrived, advance in Hr.
  assert (before (cursor s) room -> owes s' \/ parsed ∈ default [] o) as Hbefore.
  { intros Hb. destruct (select_next T (cursor s) room HT Hb) as [Hin|(l & El & Hl & Hn)].
    - right. apply runs_bind in Hr as (t1 & t2 & s1 & -> & _ & [_ [= -> ->]]). cbn.
      apply list_elem_of_omap. eauto.
    - left. rewrite El in Hr. cbn in Hr. destruct Hr as [-> [= -> ->]].
      unfold owes. cbn. rewrite decide_False by done. by right. }
  unfold owes in Ho. destruct (decide (cursor s = [])) as [Hc|Hc].
  { apply Hbefore. rewrite Hc. by apply empty_first. }
  destruct Ho as [Hrep|Hb]; [|by apply Hbefore].
  left. destruct (last (select T (cursor s))) as [l|] eqn:El; cbn in Hr.
  - destruct Hr as [-> [= -> ->]]. unfold owes. cbn.
    rewrite decide_False by (by eapply select_after). by left.
  - destruct Hr as (now & t' & -> & [-> [= -> ->]]). apply Forall_cons in Hs as [Hn _].
    unfold owes. cbn. rewrite Hrep. cbn in Hn. rewrite decide_True by done. lia.
Qed.

Lemma page_owes T s tr o s' :
  owes s -> room ∈ T -> runs (page parse s) tr (o, s') ->
  Forall (serves T t) tr -> owes s' \/ parsed ∈ default [] o.
Proof.
  intros Ho HT Hr Hs. unfold page in Hr. cbn in Hr. destruct Hr as (c & t1 & -> & Hr).
  apply Forall_cons in Hs as [_ Hs]. destruct c; [destruct Hr as [_ [= -> ->]]; by left|].
  apply runs_bind in Hr as (t2 & t3 & idle & -> & Hi & Hr). apply Forall_app in Hs as [_ Hs].
  destruct idle; [destruct Hr as [_ [= -> ->]]; by left|].
  apply runs_bind in Hr as (t4 & t5 & s1 & -> & (Hc & Hn & Hp)%start_owes & Hr).
  apply Forall_app in Hs as [_ Hs]. cbn in Hr. destruct Hr as (r & t6 & -> & Hr).
  apply Forall_cons in Hs as [Hsel Hs].
  assert (owes s1) as Ho1 by (unfold owes; by rewrite Hc, Hn, Hp).
  destruct r as [[rows|]| |]; cbn in Hr; try (destruct Hr as [_ [= -> ->]]; by left).
  cbn in Hsel. subst rows. by eapply arrived_owes.
Qed.

Lemma swept_owes s seen s' :
  owes s -> swept room t s seen s' -> owes s' \/ parsed ∈ seen.
Proof.
  intros Ho. induction 1 as [|s seen s1 tr s2 H IH Hr Hs|s seen s1 T tr o s2 H IH HT Hr Hs];
    [by left| |].
  - destruct (IH Ho); [|by right]. left. by eapply wake_owes.
  - destruct (IH Ho) as [Ho1|]; [|right; apply elem_of_app; by left].
    destruct (page_owes T s1 tr o s2 Ho1 HT Hr Hs); [by left|].
    right. apply elem_of_app. by right.
Qed.
End Wakes.

(** A lost hint loses no room.  After a wake, and through any pages, failed
    and late pages, cancellations, further wakes and changes of the account's
    rooms that follow it, a room that stays in the account is either visited or
    the sweep is not idle: the next tick asks for a page, and no wake rewinds or
    ends the traversal. *)
Theorem wake_reaches_every_room room parsed t s tr s0 seen s1 tri idle :
  room <> [] -> parse room = Some parsed ->
  runs (wake s) tr s0 -> Forall (serves ∅ t) tr ->
  swept room t s0 seen s1 -> parsed ∉ seen ->
  runs (is_idle s1) tri idle ->
  Forall (fun e => forall now, e = ev (ans := sanswer) Now now -> t <= now) tri ->
  idle = false.
Proof.
  intros Hr Hp Hw Hs Hsw Hin Hi Ht.
  pose proof (wake_owes room t _ _ _ Hw Hs) as Ho.
  destruct (swept_owes room parsed Hr Hp t _ _ _ Ho Hsw); [|done].
  by eapply owes_not_idle.
Qed.

(** ** A pass over an unchanged account *)

Section Pass.
Context (T : gset text) (t : Z) (no_empty : [] ∉ T).

(** The clock stands at [t], nothing is cancelled and the store answers. *)
Definition quiet (w : unit) (q : SweepQuestion) : sanswer q * unit :=
  (match q return sanswer q with
   | IsCancelled => false
   | Now => t
   | SelectPage after => Ready (Some (select T after))
   end, tt).

Definition quiet_page (s : RoomSweep) : option (list text) * RoomSweep :=
  (srun quiet (page parse s) tt).1.

(** [n] pages. *)
Fixpoint quiet_pages (n : nat) (s : RoomSweep) : list text * RoomSweep :=
  match n with
  | O => ([], s)
  | S n =>
      let '(o, s1) := quiet_page s in
      let '(os, s2) := quiet_pages n s1 in (default [] o ++ os, s2)
  end.

Lemma select_suffix l1 l2 :
  ordered before T = l1 ++ l2 -> select T (default [] (last l1)) = take PAGE_ROOMS l2.
Proof.
  intros E. unfold state_reconciliation_rooms. pose proof (ordered_sorted T) as Hs.
  rewrite E in *. f_equal. rewrite filter_app.
  assert (filter (fun room => before (default [] (last l1)) room) l2 = l2) as ->.
  { apply filter_all, Forall_forall. intros x Hx.
    destruct (last l1) as [y|] eqn:El; cbn.
    - apply last_Some_elem_of in El. eapply StronglySorted_app_1_elem_of; eauto.
    - apply empty_first. intros ->. apply no_empty. rewrite <- ordered_elem, E.
      apply elem_of_app. by right. }
  assert (filter (fun room => before (default [] (last l1)) room) l1 = []) as ->; [|done].
  apply filter_nil_iff, Forall_forall. intros x Hx Hb.
  destruct (last l1) as [y|] eqn:El; cbn in Hb;
    [|apply last_None in El as ->; by apply not_elem_of_nil in Hx].
  apply last_Some in El as [l1' ->].
  apply elem_of_app in Hx as [Hx|Hx%list_elem_of_singleton].
  - apply StronglySorted_app_1_l in Hs. apply (StrictOrder_Irreflexive x).
    refine (StrictOrder_Transitive _ _ _ _ Hb).
    eapply (StronglySorted_app_1_elem_of before l1'); [done|done|by left].
  - subst. by apply (StrictOrder_Irreflexive y).
Qed.

Lemma quiet_page_spec s l1 l2 :
  ordered before T = l1 ++ l2 -> cursor s = default [] (last l1) -> (l1 = [] -> next s <= t) ->
  exists s', quiet_page s = (Some (omap parse (take PAGE_ROOMS l2)), s') /\
    match last (take PAGE_ROOMS l2) with
    | Some room => cursor s' = room /\ repeat_ s' = repeat_ s
    | None => cursor s' = [] /\ next s' = t + (if repeat_ s then 0 else REST) /\ repeat_ s' = false
    end.
Proof.
  intros E Hc Hn. unfold quiet_page, page. rewrite srun_ask. cbn [quiet fst snd].
  assert (srun quiet (is_idle s) tt = (false, tt)) as Hi.
  { unfold is_idle. destruct (decide (cursor s = [])) as [Hc'|]; [|done]. cbn.
    f_equal. apply Z.ltb_ge, Hn. destruct (last l1) as [x|] eqn:El; [|by apply last_None].
    cbn in Hc. subst. apply last_Some_elem_of in El. destruct no_empty.
    rewrite Hc' in El. rewrite <- ordered_elem, E. apply elem_of_app. by left. }
  rewrite srun_bind, Hi, srun_bind.
  assert (exists s1, srun quiet (start s) tt = (s1, tt) /\
    cursor s1 = cursor s /\ repeat_ s1 = repeat_ s) as (s1 & -> & Hc1 & Hr1).
  { unfold start. destruct (started s); cbn; eauto. }
  rewrite srun_ask. cbn [quiet fst snd]. rewrite Hc1, Hc, (select_suffix _ _ E).
  generalize (take PAGE_ROOMS l2). intros rows. unfold arrived, advance. rewrite <- Hr1.
  destruct (last rows) as [room|]; cbn; by eexists.
Qed.

Lemma quiet_pages_spec n s l1 l2 :
  ordered before T = l1 ++ l2 -> cursor s = default [] (last l1) -> (l1 = [] -> next s <= t) ->
  (length l2 <= n * PAGE_ROOMS)%nat -> (n * PAGE_ROOMS < length l2 + PAGE_ROOMS)%nat ->
  exists s', quiet_pages (S n) s = (omap parse l2, s') /\
    cursor s' = [] /\ next s' = t + (if repeat_ s then 0 else REST) /\ repeat_ s' = false.
Proof.
  revert s l1 l2. induction n as [|n IH]; intros s l1 l2 E Hc Hn Hle Hlt;
    destruct (quiet_page_spec s l1 l2 E Hc Hn) as (s1 & Hp & Hs1).
  - destruct l2; [|cbn in Hle; lia]. exists s1. cbn. by rewrite Hp.
  - assert (exists room, last (take PAGE_ROOMS l2) = Some room) as [room El].
    { destruct (last (take PAGE_ROOMS l2)) eqn:El; [eauto|]. apply last_None in El.
      destruct l2; [unfold PAGE_ROOMS in *; cbn in Hlt; lia|done]. }
    rewrite El in Hs1. destruct Hs1 as [Hc1 Hr1].
    assert (last (l1 ++ take PAGE_ROOMS l2) = Some room) as El'.
    { by rewrite last_app, El. }
    destruct (IH s1 (l1 ++ take PAGE_ROOMS l2) (drop PAGE_ROOMS l2)) as (s' & Hq & ?).
    + by rewrite <- app_assoc, take_drop.
    + by rewrite El'.
    + intros H. by rewrite H in El'.
    + rewrite length_drop. lia.
    + rewrite length_drop. lia.
    + exists s'. change (quiet_pages (S (S n)) s) with
        (let '(o, s1) := quiet_page s in
         let '(os, s2) := quiet_pages (S n) s1 in (default [] o ++ os, s2)).
      rewrite Hp, Hq, <- Hr1. split; [|done].
      rewrite <- (take_drop PAGE_ROOMS l2) at 3. by rewrite omap_app.
Qed.
End Pass.

(** A pass ends, in order.  Over an account whose rooms do not change, a pass
    that may start returns every room once, in the database's order, four at a
    time, and after one empty page more is over: the sweep then rests for 300
    seconds, or not at all when a wake came during the pass. *)
Theorem pass_in_order T t s :
  [] ∉ T -> cursor s = [] -> next s <= t ->
  let n := Nat.div (size T + 3) PAGE_ROOMS in
  exists s', quiet_pages T t (S n) s = (omap parse (ordered before T), s') /\
    cursor s' = [] /\ next s' = t + (if repeat_ s then 0 else REST) /\ repeat_ s' = false.
Proof.
  intros Hno Hc Hn n. apply quiet_pages_spec with (l1 := []); try done.
  - rewrite ordered_length. unfold n, PAGE_ROOMS.
    pose proof (Nat.div_mod_eq (size T + 3) 4). pose proof (Nat.mod_upper_bound (size T + 3) 4). lia.
  - rewrite ordered_length. unfold n, PAGE_ROOMS.
    pose proof (Nat.div_mod_eq (size T + 3) 4). lia.
Qed.
End Correct.

(** ** Witnesses *)

(** Bytewise collation, and rooms that parse as they are. *)
Definition bytewise : relation text := lexico.
#[export] Instance bytewise_order : StrictOrder bytewise.
Proof. unfold bytewise. apply _. Defined.
#[export] Instance bytewise_dec : RelDecision bytewise.
Proof.
  intros x y. destruct (trichotomyT (lexico (A := text)) x y) as [[H|H]|H].
  - by left.
  - right. intros Hl. subst. exact (StrictOrder_Irreflexive _ Hl).
  - right. intros Hl. exact (StrictOrder_Irreflexive _ (StrictOrder_Transitive _ _ _ Hl H)).
Defined.
Lemma bytewise_trichotomy x y : bytewise x y \/ x = y \/ bytewise y x.
Proof. unfold bytewise. destruct (trichotomyT lexico x y) as [[H|H]|H]; auto. Qed.
Lemma bytewise_empty x : x <> [] -> bytewise [] x.
Proof. by destruct x. Qed.

Definition two_rooms : gset text := {[t! "!a:x"; t! "!b:x"]}.
Definition fresh (now : Z) : RoomSweep := MkSweep [] now false None 0.

Lemma hints_are_bounded_witness :
  let tr := [ev tt (Room (t! "!a:x")); ev tt (Room (t! "!a:x")); ev tt Lagged] in
  let b := MkBatch {[t! "!a:x"]} false true in
  runs (take_hints channel_) tr b /\ size (rooms b) = 1%nat /\ lagged b = true.
Proof.
  intros tr b. assert (runs (take_hints channel_) tr b) as H.
  { apply (exec_runs_eq (fun h _ => match length h with
      | O | S O => Room (t! "!a:x") | _ => Lagged end)). by vm_compute. }
  split; [exact H|]. pose proof (hints_are_bounded tr b H) as (_ & _ & -> & _ & -> & _).
  by vm_compute.
Defined.

(** A clock that stands still and a store that is always late. *)
Definition late (now : Z) (h : list (event sanswer)) (q : SweepQuestion) : sanswer q :=
  match q with IsCancelled => false | Now => now | SelectPage _ => Deadline end.

Definition now_of (e : event sanswer) : Z :=
  match e with
  | existT q x => match q return sanswer q -> Z with Now => fun t => t | _ => fun _ => 0 end x
  end.

Lemma wake_reaches_every_room_witness :
  exists s1, swept Some bytewise (t! "!b:x") 5 (fresh 5) ([] ++ default [] (Some [])) s1 /\
    (7 <? next s1) = false.
Proof.
  set (b := t! "!b:x").
  (* a late page between the wake and the question *)
  assert (runs (page Some (fresh 5))
    [ev (ans := sanswer) IsCancelled false; ev (ans := sanswer) Now 5; ev (ans := sanswer) Now 5;
     ev (ans := sanswer) (SelectPage []) Deadline] (Some [], MkSweep [] 5 false (Some 5) 0)) as Hp.
  { apply (exec_runs_eq (late 5)). by vm_compute. }
  assert (swept Some bytewise b 5 (fresh 5) ([] ++ default [] (Some []))
    (MkSweep [] 5 false (Some 5) 0)) as Hs.
  { eapply (swept_page _ _ _ _ _ _ _ two_rooms); [constructor| |exact Hp|].
    - unfold two_rooms, b. set_solver.
    - repeat constructor; cbn; lia. }
  exists (MkSweep [] 5 false (Some 5) 0). split; [exact Hs|].
  apply (wake_reaches_every_room Some bytewise bytewise_trichotomy bytewise_empty b b 5
    (fresh 0) [ev (ans := sanswer) Now 5] (fresh 5) ([] ++ default [] (Some []))
    (MkSweep [] 5 false (Some 5) 0)
    [ev (ans := sanswer) Now 7]).
  - done.
  - done.
  - apply (exec_runs_eq (late 5)). by vm_compute.
  - repeat constructor; cbn; lia.
  - exact Hs.
  - apply not_elem_of_nil.
  - apply (exec_runs_eq (late 7)). by vm_compute.
  - repeat constructor. intros now Hnow%(f_equal now_of). cbn in Hnow. lia.
Defined.

Lemma pass_in_order_witness :
  exists s', quiet_pages Some bytewise two_rooms 9 2 (fresh 5)
      = (omap Some (ordered bytewise two_rooms), s') /\
    cursor s' = [] /\ next s' = 9 + (if repeat_ (fresh 5) then 0 else REST) /\ repeat_ s' = false.
Proof.
  apply (pass_in_order Some bytewise bytewise_trichotomy bytewise_empty two_rooms 9 (fresh 5)).
  - unfold two_rooms. rewrite elem_of_union, !elem_of_singleton. intros [|]; discriminate.
  - done.
  - cbn. lia.
Defined.
