(* ===== verification/RoomSummaries.v ===== *)
(** * Room summaries: member counts and display names

    Models the columns of [room_summaries] that the local reconciliation writes:
    the member counts with their watermark and the leave fence
    ([crates/axon-store/src/member_counts.rs] and its migrations) and the
    calculated display name ([crates/axon-store/src/display_names.rs]).  The
    table is a map from a room of one account to its row; a statement is one
    function, atomic as a single-row statement is. *)

From stdpp Require Import base gmap sets list strings.
From Stdlib Require Import ZArith Lia.
From S2P Require Import Prelude Text.

(** ** The rows *)

Record Summary := MkSummary {
  hidden_left : bool;
  joined_member_count : option Z;
  invited_member_count : option Z;
  member_counts_observed_at : option Z;
  display_name : option text;
}.

Abbreviation summaries := (gmap text Summary).

(** A row as the first event of a room inserts it. *)
Definition new_summary : Summary := MkSummary false None None None None.

(** The [CHECK]s of the columns. *)
Definition counts_check (row : Summary) : bool :=
  match joined_member_count row, invited_member_count row with
  | None, None => true
  | Some joined, Some invited =>
      (0 <? joined) && (0 <=? invited) && bool_decide (is_Some (member_counts_observed_at row))
  | Some joined, None => false
  | None, Some invited => false
  end.

(** [GREATEST] over three values, which skips nulls. *)
Definition greatest (a b : option Z) (c : Z) : Z :=
  Z.max (default c a) (Z.max (default c b) c).

(** The [BEFORE UPDATE] trigger at the database time [now]. *)
Definition clear_left_room_member_counts (now : Z) (old new : Summary) : Summary :=
  if hidden_left new && (negb (hidden_left old) || bool_decide (is_Some (joined_member_count new)))
  then
    {| hidden_left := hidden_left new; joined_member_count := None; invited_member_count := None;
       member_counts_observed_at :=
         Some (greatest (member_counts_observed_at old) (member_counts_observed_at new) now);
       display_name := display_name new |}
  else new.

(** [UPDATE] of one row: the trigger, then the checks; [None] is an error. *)
Definition update_row (now : Z) (room : text) (old new : Summary) (tbl : summaries)
    : option summaries :=
  let new := clear_left_room_member_counts now old new in
  if counts_check new then Some (<[room := new]> tbl) else None.

(** ** Member counts *)

Record RoomMemberCounts := MkCounts { joined : Z; invited : Z; observed_at : Z }.

Inductive MemberCountWrite := Applied | Unchanged | Superseded | Retry.
#[export] Instance MemberCountWrite_eq_dec : EqDecision MemberCountWrite.
Proof. solve_decision. Defined.

(** The pair of columns. *)
Definition pair_of (row : Summary) : option Z * option Z :=
  (joined_member_count row, invited_member_count row).

(** [$3 IS NULL OR NOT hidden_left]. *)
Definition may_hold (counts : option RoomMemberCounts) (row : Summary) : bool :=
  match counts with None => true | Some _ => negb (hidden_left row) end.

(** The [UPDATE]'s watermark predicate. *)
Definition is_newer (counts : option RoomMemberCounts) (at_ : Z) (row : Summary) : bool :=
  match member_counts_observed_at row with
  | None => true
  | Some w => (w <? at_) || (bool_decide (counts = None) && (w =? at_))
  end.

#[export] Instance RoomMemberCounts_eq_dec : EqDecision RoomMemberCounts.
Proof. solve_decision. Defined.

Definition write_member_counts (now : Z) (room : text) (counts : option RoomMemberCounts) (at_ : Z)
    (tbl : summaries) : option (MemberCountWrite * summaries) :=
  let new_pair := (joined <$> counts, invited <$> counts) in
  match tbl !! room with
  | None => Some (Retry, tbl)
  | Some row =>
      let changed := negb (bool_decide (pair_of row = new_pair)) in
      if may_hold counts row && is_newer counts at_ row && changed then
        tbl' ← update_row now room row
          {| hidden_left := hidden_left row; joined_member_count := new_pair.1;
             invited_member_count := new_pair.2; member_counts_observed_at := Some at_;
             display_name := display_name row |} tbl;
        Some (Applied, tbl')
      else if may_hold counts row && negb changed then Some (Unchanged, tbl)
      else if may_hold counts row &&
          match member_counts_observed_at row with Some w => at_ <=? w | None => false end
      then Some (Superseded, tbl)
      else Some (Retry, tbl)
  end.

Definition set_room_member_counts (now : Z) (room : text) (counts : RoomMemberCounts)
    (tbl : summaries) : option (MemberCountWrite * summaries) :=
  write_member_counts now room (Some counts) (observed_at counts) tbl.

Definition invalidate_room_member_counts (now : Z) (room : text) (at_ : Z)
    (tbl : summaries) : option (MemberCountWrite * summaries) :=
  write_member_counts now room None at_ tbl.

(** [gone]: the rooms whose upstream reconcile row says so. *)
Definition room_member_counts (gone : gset text) (room : text) (tbl : summaries)
    : option RoomMemberCounts :=
  row ← tbl !! room;
  if hidden_left row || bool_decide (room ∈ gone) then None
  else
    match joined_member_count row, invited_member_count row, member_counts_observed_at row with
    | Some j, Some i, Some w => Some (MkCounts j i w)
    | _, _, _ => None
    end.

(** ** Display names *)

Inductive DisplayNameWrite := NameApplied | NameUnchanged | NameMissing.
#[export] Instance DisplayNameWrite_eq_dec : EqDecision DisplayNameWrite.
Proof. solve_decision. Defined.

Definition set_room_display_name (now : Z) (room : text) (name : text) (tbl : summaries)
    : option (DisplayNameWrite * summaries) :=
  match tbl !! room with
  | None => Some (NameMissing, tbl)
  | Some row =>
      if bool_decide (display_name row = Some name) then Some (NameUnchanged, tbl)
      else
        tbl' ← update_row now room row
          {| hidden_left := hidden_left row; joined_member_count := joined_member_count row;
             invited_member_count := invited_member_count row;
             member_counts_observed_at := member_counts_observed_at row;
             display_name := Some name |} tbl;
        Some (NameApplied, tbl')
  end.

(** The stored name a push banner can show. *)
Definition filled (name : option text) : option text :=
  name ≫= fun s => if decide (trim s = []) then None else Some s.

Definition room_display_name (room : text) (tbl : summaries) : option text :=
  filled (tbl !! room ≫= display_name).

(** ** The leave projection

    [refresh_room_summary_display], as far as these columns go: [left] is whether
    the stored membership of the account is a leave or a ban. *)
Definition refresh_room_summary_display (now : Z) (room : text) (left_ : bool) (tbl : summaries)
    : option summaries :=
  match tbl !! room with
  | None => Some tbl
  | Some row =>
      update_row now room row
        {| hidden_left := left_; joined_member_count := joined_member_count row;
           invited_member_count := invited_member_count row;
           member_counts_observed_at := member_counts_observed_at row;
           display_name := display_name row |} tbl
  end.

(** ** Well-formed rows *)

(** The checks hold, and a left room has no counts. *)
Definition row_ok (row : Summary) : Prop :=
  counts_check row = true /\ (hidden_left row = true -> joined_member_count row = None).

Lemma greatest_le a b c w : a = Some w \/ b = Some w -> w <= greatest a b c.
Proof. unfold greatest. intros [-> | ->]; cbn; lia. Qed.

Lemma greatest_now a b c : c <= greatest a b c.
Proof. unfold greatest. lia. Qed.

Lemma row_ok_left row : row_ok row -> hidden_left row = true -> pair_of row = (None, None).
Proof.
  intros [Hc Hl] H. unfold counts_check, pair_of in *. rewrite (Hl H) in *.
  by destruct (invited_member_count row).
Qed.

(** Why an update leaves the row as it does. *)
Lemma update_row_spec now room old new tbl tbl' :
  update_row now room old new tbl = Some tbl' ->
  exists row, tbl' = <[room := row]> tbl /\ counts_check row = true /\
    row = clear_left_room_member_counts now old new.
Proof. unfold update_row. case_match eqn:E; [|done]. intros [= <-]. eauto. Qed.

Lemma clear_left_ok now old new :
  row_ok old -> counts_check (clear_left_room_member_counts now old new) = true ->
  row_ok (clear_left_room_member_counts now old new).
Proof.
  intros Ho Hc. split; [done|]. unfold clear_left_room_member_counts in *.
  destruct (hidden_left new) eqn:El; cbn in *; [|by rewrite El].
  destruct (negb (hidden_left old) || _) eqn:E; [done|].
  apply orb_false_iff in E as [_ E]. apply bool_decide_eq_false in E.
  destruct (joined_member_count new); [destruct E; eauto|done].
Qed.

(** ** What a count write does *)

(** A write of valid counts finds nothing to refuse. *)
Definition counts_valid (counts : option RoomMemberCounts) : Prop :=
  match counts with None => True | Some c => 0 < joined c /\ 0 <= invited c end.

(** The row a write leaves. *)
Definition written (row : Summary) (counts : option RoomMemberCounts) (at_ : Z) : Summary :=
  MkSummary (hidden_left row) (joined <$> counts) (invited <$> counts) (Some at_) (display_name row).

Lemma written_untouched now row counts at_ :
  may_hold counts row = true ->
  clear_left_room_member_counts now row (written row counts at_) = written row counts at_.
Proof.
  unfold clear_left_room_member_counts, written, may_hold. cbn.
  destruct (hidden_left row), counts; try done.
Qed.

Lemma written_check row counts at_ : counts_valid counts -> counts_check (written row counts at_) = true.
Proof.
  destruct counts as [[j i t]|]; [|done]. cbn. intros [Hj Hi]. unfold counts_check, written. cbn.
  rewrite (proj2 (Z.ltb_lt _ _) Hj). by rewrite (proj2 (Z.leb_le _ _) Hi).
Qed.

(** The four outcomes of a count write.  A write of valid counts (or an
    invalidation) never fails.  [Applied]: the row now holds exactly that pair and
    that watermark, no other column changed, the pair is new, and the watermark
    was older (or as old, for an invalidation).  [Unchanged]: the row may hold
    counts and held this pair.  [Superseded]: it holds another pair observed no
    earlier.  [Retry]: the room has no row, or has left.  Only [Applied] changes
    the table. *)
Theorem count_write_outcome now room counts at_ tbl :
  counts_valid counts ->
  exists outcome tbl', write_member_counts now room counts at_ tbl = Some (outcome, tbl') /\
    match outcome, tbl !! room with
    | Applied, Some row =>
        tbl' = <[room := written row counts at_]> tbl /\ may_hold counts row = true /\
        pair_of row <> (joined <$> counts, invited <$> counts) /\
        forall w, member_counts_observed_at row = Some w -> w < at_ \/ (counts = None /\ w = at_)
    | Unchanged, Some row =>
        tbl' = tbl /\ may_hold counts row = true /\
        pair_of row = (joined <$> counts, invited <$> counts)
    | Superseded, Some row =>
        tbl' = tbl /\ pair_of row <> (joined <$> counts, invited <$> counts) /\
        exists w, member_counts_observed_at row = Some w /\ at_ <= w
    | Retry, Some row => tbl' = tbl /\ is_Some counts /\ hidden_left row = true
    | Retry, None => tbl' = tbl
    | _, None => False
    end.
Proof.
  intros Hv. unfold write_member_counts. destruct (tbl !! room) as [row|]; [|by eexists _, _].
  destruct (may_hold counts row) eqn:Hm; cbn [andb].
  2: { eexists _, _. split; [done|]. destruct counts; [|done]. cbn in Hm. b2p. eauto. }
  destruct (decide (pair_of row = (joined <$> counts, invited <$> counts))) as [E|E].
  { rewrite bool_decide_true by done. rewrite andb_false_r. cbn. by eexists _, _. }
  rewrite bool_decide_false by done. cbn [negb]. rewrite andb_true_r.
  destruct (is_newer counts at_ row) eqn:Hn.
  - unfold update_row. cbn [fst snd].
    change (MkSummary _ _ _ _ _) with (written row counts at_).
    rewrite (written_untouched _ _ _ _ Hm), (written_check _ _ _ Hv). cbn.
    eexists _, _. split; [done|]. cbn beta iota. split_and!; try done.
    intros w Hw. unfold is_newer in Hn. rewrite Hw in Hn.
    apply orb_true_iff in Hn as [?|[?%bool_decide_eq_true ?]%andb_true_iff]; b2p; auto.
  - unfold is_newer in Hn. destruct (member_counts_observed_at row) as [w|] eqn:Hw; [|done].
    b2p. rewrite (proj2 (Z.leb_le at_ w)) by lia. eexists _, _. split; [done|]. cbn beta iota. split_and!; eauto.
Qed.

(** ** Leaves fence observations *)

(** What happens to the table, each at a database time. *)
Inductive row_op :=
| WriteCounts (room : text) (counts : option RoomMemberCounts) (at_ : Z)
| WriteName (room : text) (name : text)
| Membership (room : text) (left_ : bool).

(** A failed statement leaves the table as it was. *)
Definition apply_op (now : Z) (op : row_op) (tbl : summaries) : summaries :=
  match op with
  | WriteCounts room counts at_ =>
      match write_member_counts now room counts at_ tbl with Some (_, tbl') => tbl' | None => tbl end
  | WriteName room name =>
      match set_room_display_name now room name tbl with Some (_, tbl') => tbl' | None => tbl end
  | Membership room left_ => default tbl (refresh_room_summary_display now room left_ tbl)
  end.

(** The times no later counts of [room] may reach back to: when it was left, and
    what an applied invalidation observed. *)
Definition fence (room : text) (now : Z) (op : row_op) (tbl : summaries) : list Z :=
  match op with
  | WriteCounts room' None at_ =>
      match write_member_counts now room' None at_ tbl with
      | Some (Applied, _) => if decide (room' = room) then [at_] else []
      | _ => []
      end
  | Membership room' true =>
      if decide (room' = room) then
        match tbl !! room with
        | Some row => if hidden_left row then [] else [now]
        | None => []
        end
      else []
  | _ => []
  end.

Fixpoint run_ops (ops : list (Z * row_op)) (tbl : summaries) : summaries :=
  match ops with
  | [] => tbl
  | (now, op) :: ops => run_ops ops (apply_op now op tbl)
  end.

Fixpoint fences (room : text) (ops : list (Z * row_op)) (tbl : summaries) : list Z :=
  match ops with
  | [] => []
  | (now, op) :: ops => fence room now op tbl ++ fences room ops (apply_op now op tbl)
  end.

(** The watermark holds every fence back, and counts are newer than all. *)
Definition fenced (fs : list Z) (row : Summary) : Prop :=
  row_ok row /\
  (fs <> [] -> is_Some (member_counts_observed_at row)) /\
  forall w, member_counts_observed_at row = Some w ->
    Forall (fun f => f <= w) fs /\
    (is_Some (joined_member_count row) -> Forall (fun f => f < w) fs).

(** Every fence of [fs] is at most the new watermark. *)
Lemma fenced_leave now fs old new :
  fenced fs old -> member_counts_observed_at new = member_counts_observed_at old ->
  joined_member_count new = joined_member_count old ->
  invited_member_count new = invited_member_count old ->
  counts_check (clear_left_room_member_counts now old new) = true ->
  fenced (fs ++ if hidden_left new && negb (hidden_left old) then [now] else [])
    (clear_left_room_member_counts now old new).
Proof.
  intros (Hok & Hw & Hf) Ew Ej Ei Hc. split; [by apply clear_left_ok|].
  unfold clear_left_room_member_counts in *.
  destruct (hidden_left new) eqn:El; cbn [andb] in *.
  2: { rewrite app_nil_r, Ew, Ej. done. }
  destruct (hidden_left old) eqn:Eo; cbn [negb orb] in *.
  - rewrite app_nil_r.
    assert (joined_member_count new = None) as Hn by (rewrite Ej; by apply Hok).
    rewrite bool_decide_false by (rewrite Hn; by intros [? ?]).
    rewrite Ew, Hn. split; [done|]. intros w E. destruct (Hf w E). split; [done|]. by intros [? ?].
  - cbn. split; [eauto|]. intros w [= <-]. split; [|by intros [? ?]].
    rewrite Forall_app. split; [|repeat constructor; apply greatest_now].
    rewrite Ew. destruct (member_counts_observed_at old) as [w|] eqn:E.
    + destruct (Hf w eq_refl) as [H _]. eapply Forall_impl; [exact H|]. cbn. intros f Hle.
      pose proof (greatest_le (Some w) (Some w) now w (or_introl eq_refl)). lia.
    + destruct fs; [constructor|]. destruct Hw as [? ?]; done.
Qed.

Lemma fenced_same fs old new :
  fenced fs old -> hidden_left new = hidden_left old ->
  member_counts_observed_at new = member_counts_observed_at old ->
  joined_member_count new = joined_member_count old ->
  invited_member_count new = invited_member_count old -> fenced fs new.
Proof.
  intros [[Hc Hl] Hf] E1 E2 E3 E4. unfold fenced, row_ok, counts_check in *.
  by rewrite E1, E2, E3, E4.
Qed.

Lemma fenced_write fs row counts at_ :
  fenced fs row -> may_hold counts row = true -> is_newer counts at_ row = true ->
  counts_check (written row counts at_) = true ->
  fenced (fs ++ match counts with None => [at_] | Some _ => [] end) (written row counts at_).
Proof.
  intros (Hok & Hw & Hf) Hm Hn Hc. split; [split; [done|]|split; [cbn; eauto|]].
  - cbn. destruct counts; [|done]. cbn in Hm. b2p. by rewrite Hm.
  - cbn. intros w [= <-].
    assert (Forall (fun f => f <= at_) fs /\ (is_Some counts -> Forall (fun f => f < at_) fs))
      as [Hle Hlt].
    { unfold is_newer in Hn. destruct (member_counts_observed_at row) as [w|].
      - destruct (Hf w eq_refl) as [H _]. apply orb_true_iff in Hn as [Hn|Hn].
        + b2p. split; [|intros _]; (eapply Forall_impl; [exact H|]); cbn; lia.
        + apply andb_true_iff in Hn as [->%bool_decide_eq_true Hn]. b2p. subst.
          split; [done|]. by intros [? ?].
      - destruct fs; [done|]. destruct Hw as [? ?]; done. }
    rewrite Forall_app. split.
    + split; [done|]. destruct counts; repeat constructor. lia.
    + intros [? Hs]. destruct counts; [|done]. rewrite app_nil_r. eauto.
Qed.

Lemma fence_write room now room' counts at_ tbl :
  fence room now (WriteCounts room' counts at_) tbl =
    match write_member_counts now room' counts at_ tbl with
    | Some (Applied, _) =>
        match counts with None => if decide (room' = room) then [at_] else [] | Some _ => [] end
    | _ => []
    end.
Proof. cbn. destruct counts; [|done]. by repeat case_match. Qed.

(** One statement keeps every row fenced. *)
Lemma apply_op_fenced room now op tbl fs row :
  tbl !! room = Some row -> fenced fs row ->
  exists row', apply_op now op tbl !! room = Some row' /\
    fenced (fs ++ fence room now op tbl) row'.
Proof.
  intros E Hf. destruct op as [room' counts at_|room' name|room' left_].
  - rewrite fence_write. unfold apply_op, write_member_counts.
    assert (exists row', tbl !! room = Some row' /\ fenced (fs ++ []) row') as Hsame
      by (rewrite app_nil_r; eauto).
    destruct (tbl !! room') as [row'|] eqn:E'; [|exact Hsame].
    destruct (may_hold counts row') eqn:Hm; cbn [andb]; [|exact Hsame].
    destruct (is_newer counts at_ row' && _) eqn:Hn.
    2: { destruct (negb (negb _)); [exact Hsame|].
         match goal with |- context [if ?b then Some (Superseded, _) else _] => destruct b end;
           exact Hsame. }
    apply andb_true_iff in Hn as [Hn _]. cbn [fst snd].
    change (MkSummary _ _ _ _ _) with (written row' counts at_).
    unfold update_row. rewrite (written_untouched _ _ _ _ Hm).
    destruct (counts_check (written row' counts at_)) eqn:Hc; cbn; [|exact Hsame].
    destruct (decide (room' = room)) as [->|Hne].
    + exists (written row' counts at_). rewrite lookup_insert. split; [by rewrite decide_True|].
      rewrite E in E'. injection E' as ->. by apply fenced_write.
    + rewrite lookup_insert_ne by done. by destruct counts.
  - cbn. rewrite app_nil_r. unfold set_room_display_name.
    destruct (tbl !! room') as [row'|] eqn:E'; [|eauto].
    case_bool_decide; [eauto|]. cbn.
    destruct (update_row now room' row' _ tbl) as [tbl'|] eqn:Hu; [|eauto]. cbn.
    apply update_row_spec in Hu as (row2 & -> & Hc & ->).
    destruct (decide (room' = room)) as [->|Hne];
      [|exists row; by rewrite lookup_insert_ne].
    rewrite E in E'. injection E' as <-. eexists. rewrite lookup_insert, decide_True by done.
    split; [done|]. rewrite <- (app_nil_r fs).
    replace (@nil Z) with (if hidden_left row && negb (hidden_left row) then [now] else [])
      by (by destruct (hidden_left row)).
    by refine (fenced_leave now fs row (MkSummary (hidden_left row) _ _ _ (Some name)) Hf _ _ _ Hc).
  - cbn. unfold refresh_room_summary_display.
    destruct (tbl !! room') as [row'|] eqn:E'.
    2: { exists row. split; [done|]. destruct left_; [|by rewrite app_nil_r].
         rewrite decide_False by congruence. by rewrite app_nil_r. }
    destruct (decide (room' = room)) as [->|Hne].
    + rewrite E in E'. injection E' as <-.
      set (new := MkSummary left_ _ _ _ _).
      assert (counts_check (clear_left_room_member_counts now row new) = true) as Hc.
      { unfold clear_left_room_member_counts. case_match; [done|]. apply Hf. }
      unfold update_row. rewrite Hc. cbn. eexists. rewrite lookup_insert, decide_True by done.
      split; [done|]. rewrite E.
      replace (if left_ then _ else _) with
        (if hidden_left new && negb (hidden_left row) then [now] else [])
        by (by destruct left_, (hidden_left row)).
      by apply fenced_leave.
    + exists row. split.
      * destruct (update_row now room' row' _ tbl) as [tbl'|] eqn:Hu; [|done]. cbn.
        apply update_row_spec in Hu as (row2 & -> & _). by rewrite lookup_insert_ne.
      * destruct left_; by rewrite app_nil_r.
Qed.

Lemma run_ops_fenced room ops tbl fs row :
  tbl !! room = Some row -> fenced fs row ->
  exists row', run_ops ops tbl !! room = Some row' /\ fenced (fs ++ fences room ops tbl) row'.
Proof.
  revert tbl fs row. induction ops as [|[now op] ops IH]; intros tbl fs row E Hf; cbn.
  - exists row. by rewrite app_nil_r.
  - destruct (apply_op_fenced room now op tbl fs row E Hf) as (row1 & E1 & Hf1).
    destruct (IH _ _ _ E1 Hf1) as (row2 & E2 & Hf2). exists row2. by rewrite <- app_assoc in Hf2.
Qed.

Lemma new_summary_fenced : fenced [] new_summary.
Proof. split_and!; done. Qed.

(** [C35] Counts never predate a leave.  Through any sequence of count writes,
    invalidations, name writes and membership changes of an account's rooms,
    failed or not, a room read back with counts has not been left, its counts are
    valid, and they were observed after every leave of the room and after every
    applied invalidation, so that an observation from before the leave cannot win
    after a rejoin. *)
Theorem counts_postdate_every_leave room ops tbl gone c :
  tbl !! room = Some new_summary ->
  room_member_counts gone room (run_ops ops tbl) = Some c ->
  Forall (fun f => f < observed_at c) (fences room ops tbl) /\
  0 < joined c /\ 0 <= invited c /\
  exists row, run_ops ops tbl !! room = Some row /\ hidden_left row = false /\ room ∉ gone.
Proof.
  intros E Hr. destruct (run_ops_fenced room ops tbl [] _ E new_summary_fenced)
    as (row & E' & (Hok & Hw & Hf)). cbn in Hw, Hf.
  unfold room_member_counts in Hr. rewrite E' in Hr. cbn in Hr.
  destruct (hidden_left row) eqn:Hl; [done|]. cbn in Hr. case_bool_decide; [done|].
  destruct (joined_member_count row) as [j|] eqn:Ej; [|done].
  destruct (invited_member_count row) as [i|] eqn:Ei; [|done].
  destruct (member_counts_observed_at row) as [w|] eqn:Ew; [|done]. injection Hr as <-. cbn.
  destruct (Hf w eq_refl) as [_ Hlt]. destruct Hok as [Hc _]. unfold counts_check in Hc.
  rewrite Ej, Ei in Hc. b2p. split_and!; eauto.
Qed.

(** An invalidation of a room whose counts are already unknown is [Unchanged] and
    keeps the old watermark: an observation from before it is still accepted. *)
Lemma unchanged_invalidation_fences_nothing :
  let tbl := {[t! "!a" := MkSummary false None None (Some 5) None]} in
  invalidate_room_member_counts 10 (t! "!a") 10 tbl = Some (Unchanged, tbl) /\
  (fst <$> set_room_member_counts 11 (t! "!a") (MkCounts 3 0 7) tbl) = Some Applied.
Proof. by vm_compute. Qed.

(** ** Witnesses *)

Definition a_room : text := t! "!a".

Lemma count_write_outcome_witness :
  exists outcome tbl',
    write_member_counts 9 a_room (Some (MkCounts 3 1 7)) 7 {[a_room := new_summary]}
      = Some (outcome, tbl').
Proof.
  destruct (count_write_outcome 9 a_room (Some (MkCounts 3 1 7)) 7 {[a_room := new_summary]})
    as (o & tbl' & E & H); [cbn; lia|].
  exists o, tbl'. exact E.
Defined.

(** Left at 10 and joined again: the observation of 7 loses, that of 12 wins. *)
Lemma counts_postdate_every_leave_witness :
  let ops := [(6, WriteCounts a_room (Some (MkCounts 4 0 5)) 5); (10, Membership a_room true);
    (11, Membership a_room false); (11, WriteCounts a_room (Some (MkCounts 9 9 7)) 7);
    (13, WriteCounts a_room (Some (MkCounts 3 1 12)) 12)] in
  let tbl := {[a_room := new_summary]} in
  room_member_counts ∅ a_room (run_ops ops tbl) = Some (MkCounts 3 1 12) /\
  fences a_room ops tbl = [10] /\ Forall (fun f => f < 12) (fences a_room ops tbl).
Proof.
  intros ops tbl.
  assert (room_member_counts ∅ a_room (run_ops ops tbl) = Some (MkCounts 3 1 12)) as H
    by (by vm_compute).
  split; [exact H|]. split; [by vm_compute|].
  apply (counts_postdate_every_leave a_room ops tbl ∅ (MkCounts 3 1 12)); [|exact H].
  by vm_compute.
Defined.
