(* ===== verification/MemberCounts.v ===== *)
(** * The member-count and display-name worker

    Models [crates/axon-sync/src/member_counts.rs] and
    [crates/axon-sync/src/display_names.rs]: one paced worker per account copies
    what the SDK cache says of a room's member counts and calculated name onto
    [room_summaries] ([RoomSummaries]).  Rooms come from the SDK's update hints,
    from a fixed retry queue and from the shared sweep ([RoomSweep]). *)

From stdpp Require Import base gmap sets list strings.
From Stdlib Require Import ZArith Lia.
From S2P Require Import Prelude Text Effects RoomSweep RoomSummaries.
Open Scope prog_scope.

(** ** What the SDK cache holds of a room *)

Inductive RoomState := Joined | Left | Invited | Knocked | Banned.
#[export] Instance RoomState_eq_dec : EqDecision RoomState.
Proof. solve_decision. Defined.

Record RoomInfo := MkInfo {
  state : RoomState;
  summary_joined : option Z;
  summary_invited : option Z;
  summary_counts_invalidated_at : option Z;
}.

(** [u64] to [i64]. *)
Definition try_into_i64 (z : Z) : option Z := if z <=? i64_max then Some z else None.

Definition snapshot (info : RoomInfo) (at_ : Z) : option RoomMemberCounts :=
  if negb (bool_decide (state info = Joined)) then None
  else
    j ← summary_joined info;
    if j =? 0 then None
    else
      j' ← try_into_i64 j;
      i ← summary_invited info;
      i' ← try_into_i64 i;
      Some (MkCounts j' i' at_).

(** What [persist_snapshot] does with an observation. *)
Inductive Persist := PersistCounts (c : RoomMemberCounts) | PersistNone | LeaveAlone.

Definition persist_choice (info : RoomInfo) (at_ : Z) : Persist :=
  match snapshot info at_ with
  | Some c => PersistCounts c
  | None =>
      if negb (bool_decide (state info = Joined)) || bool_decide (summary_joined info = Some 0)
        || bool_decide (is_Some (summary_counts_invalidated_at info))
      then PersistNone else LeaveAlone
  end.

Definition MAX_DISPLAY_NAME_CHARS : nat := 512.
Definition bounded (name : text) : text := take MAX_DISPLAY_NAME_CHARS name.

(** ** The halves of a step, and the retry queue *)

Record Steps := MkSteps { counts : bool; display_name_ : bool }.
#[export] Instance Steps_eq_dec : EqDecision Steps.
Proof. solve_decision. Defined.

Definition NO_STEPS : Steps := MkSteps false false.
Definition ALL : Steps := MkSteps true true.
Definition is_empty (s : Steps) : bool := negb (counts s) && negb (display_name_ s).
Definition union_ (s t : Steps) : Steps :=
  MkSteps (counts s || counts t) (display_name_ s || display_name_ t).

Abbreviation entry := (text * Steps * Z)%type.
Abbreviation room_of := (fun e : entry => e.1.1).

Definition MAX_ATTEMPTS : Z := 4.
Definition MAX_PENDING : nat := 32.
Definition DRAIN : nat := 4.

(** Whether a room is queued, and its entry updated in place. *)
Definition has_room (room : text) (q : list entry) : bool :=
  bool_decide (room ∈ map room_of q).

Definition update_room (room : text) (f : Steps -> Steps) (q : list entry) : list entry :=
  map (fun e : entry => if bool_decide (e.1.1 = room) then (e.1.1, f e.1.2, e.2) else e) q.

Definition push (room : text) (steps : Steps) (attempts : Z) (q : list entry) : list entry :=
  if is_empty steps then q
  else if has_room room q then update_room room (fun queued => union_ queued steps) q
  else if (attempts <? MAX_ATTEMPTS) && bool_decide (length q < MAX_PENDING)%nat
  then q ++ [(room, steps, attempts)]
  else q.

(** A page's room joins the rooms of the step, with both halves. *)
Definition merge_room (rooms : list entry) (room : text) : list entry :=
  if has_room room rooms then update_room room (fun _ => ALL) rooms
  else rooms ++ [(room, ALL, 0)].

(** ** The worker *)

Inductive TryRecvError := RLagged (skipped : Z) | REmpty | RClosed.

(** What [watch] wakes up to. *)
Inductive Wakeup := WCancelled | WTick | WRefresh.

(** What the task awaits or touches outside itself. *)
Inductive MQuestion :=
| Sweep (q : SweepQuestion)
| Select
| Receive
| HashOrder (rooms : gset text)
| GetRoom (room : text)
| RoomStateOf (room : text)
| CloneInfo (room : text)
| DisplayNameOf (room : text)
| ObservationTime
| SetCounts (room : text) (c : RoomMemberCounts)
| Invalidate (room : text) (at_ : Z)
| SetDisplayName (room : text) (name : text)
| Mark (room : text)
| SendFrame (room : text) (name : text).

(** The answers; a store call answers [None] when it failed.  [HashOrder] is the
    iteration order of a [HashSet]. *)
Definition manswer (q : MQuestion) : Type :=
  match q with
  | Sweep q => sanswer q
  | Select => Wakeup
  | Receive => sum TryRecvError text
  | HashOrder _ => list text
  | GetRoom _ => bool
  | RoomStateOf _ => RoomState
  | CloneInfo _ => RoomInfo
  | DisplayNameOf _ => awaited (option text)
  | ObservationTime => awaited (option Z)
  | SetCounts _ _ | Invalidate _ _ => awaited (option MemberCountWrite)
  | SetDisplayName _ _ => awaited (option DisplayNameWrite)
  | Mark _ | SendFrame _ _ => unit
  end.

Abbreviation mprog := (prog manswer).

#[export] Instance sweep_embeds : Embeds sanswer manswer := {
  inj := Sweep;
  Effects.out q x := x;
  back q x := x;
  back_out q x := eq_refl;
}.

Definition ask_m (q : MQuestion) : mprog (manswer q) := ask (ans := manswer) q.

(** ** Reconciling one room *)

(** The outcome of a count write: retry? *)
Definition counts_written (room : text) (r : awaited (option MemberCountWrite))
    : mprog (awaited bool) :=
  match r with
  | Ready (Some outcome) =>
      if decide (outcome = Applied) then let! _ := ask_m (Mark room) in Ret (Ready false)
      else Ret (Ready (bool_decide (outcome = Retry)))
  | Ready None => Ret (Ready true)
  | Deadline => Ret Deadline
  | Cancelled => Ret Cancelled
  end.

Definition persist_snapshot (info : RoomInfo) (room : text) (at_ : Z) : mprog (awaited bool) :=
  match persist_choice info at_ with
  | PersistCounts c => let! r := ask_m (SetCounts room c) in counts_written room r
  | PersistNone => let! r := ask_m (Invalidate room at_) in counts_written room r
  | LeaveAlone => Ret (Ready false)
  end.

Definition reconcile_counts (room : text) : mprog (awaited bool) :=
  let! t := ask_m ObservationTime in
  match t with
  | Ready (Some at_) => let! info := ask_m (CloneInfo room) in persist_snapshot info room at_
  | Ready None => Ret (Ready true)
  | Deadline => Ret Deadline
  | Cancelled => Ret Cancelled
  end.

Definition persist (room : text) (name : text) : mprog (awaited bool) :=
  let name := bounded name in
  let! r := ask_m (SetDisplayName room name) in
  match r with
  | Ready (Some NameApplied) => let! _ := ask_m (SendFrame room name) in Ret (Ready false)
  | Ready (Some NameUnchanged) => Ret (Ready false)
  | Ready (Some NameMissing) => Ret (Ready true)
  | Ready None => Ret (Ready true)
  | Deadline => Ret Deadline
  | Cancelled => Ret Cancelled
  end.

(** [display_names::reconcile]. *)
Definition reconcile_name (room : text) : mprog (awaited bool) :=
  let! s := ask_m (RoomStateOf room) in
  if negb (bool_decide (s = Joined)) then Ret (Ready false)
  else
    let! r := ask_m (DisplayNameOf room) in
    match r with
    | Ready (Some name) => persist room name
    | Ready None => Ret (Ready true)
    | Deadline => Ret Deadline
    | Cancelled => Ret Cancelled
    end.

(** [deadline]: running out of time is a retry; [None] is a cancellation. *)
Definition deadline (work : mprog (awaited bool)) : mprog (option bool) :=
  let! r := work in
  Ret match r with Ready retry => Some retry | Deadline => Some true | Cancelled => None end.

(** The half runs if it is wanted. *)
Definition half (wanted : bool) (work : mprog (awaited bool)) : mprog (option bool) :=
  if wanted then deadline work else Ret (Some false).

(** The halves to retry; [None] is a cancellation. *)
Definition reconcile (room : text) (steps : Steps) : mprog (option Steps) :=
  let! exists_ := ask_m (GetRoom room) in
  if negb exists_ then Ret (Some NO_STEPS)
  else
    let! c := half (counts steps) (reconcile_counts room) in
    match c with
    | None => Ret None
    | Some c =>
        let! n := half (display_name_ steps) (reconcile_name room) in
        Ret (MkSteps c <$> n)
    end.

(** ** A step *)

Record Worker := MkWorker { sweep : RoomSweep; pending : list entry }.

Definition receive : mprog HintRead :=
  let! r := ask_m Receive in
  Ret match r with
    | inr room => Room room
    | inl (RLagged _) => Lagged
    | inl REmpty => Empty
    | inl RClosed => Closed
    end.

(** The hinted rooms, if the channel is open. *)
Definition take_hints_ (s : RoomSweep) : mprog (option (gset text) * RoomSweep) :=
  let! batch := take_hints receive in
  let! s := (if lagged batch then lift (wake s) else Ret s) in
  Ret (if closed batch then None else Some (rooms batch), s).

(** The rooms of a step one after the other; [None] is a cancellation. *)
Fixpoint reconcile_all (rooms : list entry) (q : list entry) : mprog (option (list entry)) :=
  match rooms with
  | [] => Ret (Some q)
  | (room, steps, attempts) :: rest =>
      let! cancelled := ask_m (Sweep IsCancelled) in
      if cancelled then Ret None
      else
        let! r := reconcile room steps in
        match r with
        | None => Ret None
        | Some retry => reconcile_all rest (push room retry (attempts + 1) q)
        end
  end.

Definition push_hints (hinted : list text) (q : list entry) : list entry :=
  foldl (fun q room => push room ALL 0 q) q hinted.

Section Step.
(** [OwnedRoomId]'s parser. *)
Context (parse : text -> option text).

Definition step (w : Worker) : mprog (bool * Worker) :=
  let! cancelled := ask_m (Sweep IsCancelled) in
  if cancelled then Ret (false, w)
  else
    let! h := take_hints_ (sweep w) in
    match h with
    | (None, s) => Ret (false, MkWorker s (pending w))
    | (Some hinted, s) =>
        let! order := ask_m (HashOrder hinted) in
        let q := push_hints order (pending w) in
        let rooms := take DRAIN q in
        let q := drop DRAIN q in
        let! p := lift (page parse s) in
        match p with
        | (None, s) => Ret (false, MkWorker s q)
        | (Some rows, s) =>
            let! r := reconcile_all (foldl merge_room rooms rows) q in
            match r with
            | None => Ret (false, MkWorker s q)
            | Some q => Ret (true, MkWorker s q)
            end
        end
    end.

(** [n] rounds of [watch]'s loop; [true] when it goes on. *)
Fixpoint watch_loop (n : nat) (w : Worker) : mprog (bool * Worker) :=
  match n with
  | O => Ret (true, w)
  | S n =>
      let! e := ask_m Select in
      match e with
      | WCancelled => Ret (false, w)
      | WRefresh => let! s := lift (wake (sweep w)) in watch_loop n (MkWorker s (pending w))
      | WTick =>
          let! r := step w in
          if r.1 then watch_loop n r.2 else Ret r
      end
  end.

Definition watch (n : nat) : mprog (bool * Worker) :=
  let! s := lift new in watch_loop n (MkWorker s []).
End Step.

(** ** What the worker writes *)

Abbreviation mtrace := (list (event manswer)).
Abbreviation mev := (ev (ans := manswer)).

Definition ends_with (h l : mtrace) : Prop := exists h0, h = h0 ++ l.

(** What may be asked after [h]. *)
Definition allowed (q : MQuestion) (h : mtrace) : Prop :=
  match q with
  | SetCounts room c =>
      exists info,
        ends_with h [mev ObservationTime (Ready (Some (observed_at c))); mev (CloneInfo room) info] /\
        state info = Joined /\ summary_joined info = Some (joined c) /\
        summary_invited info = Some (invited c) /\ joined c <> 0 /\
        joined c <= i64_max /\ invited c <= i64_max
  | Invalidate room at_ =>
      exists info,
        ends_with h [mev ObservationTime (Ready (Some at_)); mev (CloneInfo room) info] /\
        (state info <> Joined \/ summary_joined info = Some 0 \/
         is_Some (summary_counts_invalidated_at info))
  | SetDisplayName room name =>
      exists full,
        ends_with h [mev (RoomStateOf room) Joined; mev (DisplayNameOf room) (Ready (Some full))] /\
        name `prefix_of` full /\ (length name <= MAX_DISPLAY_NAME_CHARS)%nat /\
        ((length full <= MAX_DISPLAY_NAME_CHARS)%nat -> name = full)
  | Mark room =>
      (exists c, ends_with h [mev (SetCounts room c) (Ready (Some Applied))]) \/
      (exists at_, ends_with h [mev (Invalidate room at_) (Ready (Some Applied))])
  | SendFrame room name => ends_with h [mev (SetDisplayName room name) (Ready (Some NameApplied))]
  | _ => True
  end.

Abbreviation mwp p h := (wp allowed p h (fun _ _ => True)).

Lemma snapshot_spec info at_ c :
  snapshot info at_ = Some c ->
  state info = Joined /\ summary_joined info = Some (joined c) /\
  summary_invited info = Some (invited c) /\ joined c <> 0 /\
  joined c <= i64_max /\ invited c <= i64_max /\ observed_at c = at_.
Proof.
  unfold snapshot, try_into_i64. case_bool_decide; [|done]. cbn [negb].
  destruct (summary_joined info) as [j|]; [|done]. cbn.
  destruct (j =? 0) eqn:Hj; [done|].
  destruct (j <=? i64_max) eqn:Hm; [|done]. cbn.
  destruct (summary_invited info) as [i|]; [|done]. cbn.
  destruct (i <=? i64_max) eqn:Hi; [|done]. cbn. intros [= <-]. b2p. cbn. split_and!; done.
Qed.

Lemma persist_choice_none info at_ :
  persist_choice info at_ = PersistNone ->
  state info <> Joined \/ summary_joined info = Some 0 \/
  is_Some (summary_counts_invalidated_at info).
Proof.
  unfold persist_choice. destruct (snapshot info at_); [done|].
  destruct (decide (state info = Joined)); [|by left].
  destruct (decide (summary_joined info = Some 0)); [by right; left|].
  destruct (decide (is_Some (summary_counts_invalidated_at info))); [by right; right|].
  rewrite !bool_decide_true, !bool_decide_false by done. done.
Qed.

(** Weakest preconditions compose without conditions on the answers. *)
Lemma mwp_bind {A B} (p : mprog A) (f : A -> mprog B) h :
  mwp p h -> (forall a h', mwp (f a) h') -> mwp (bind p f) h.
Proof. intros Hp Hf. apply wp_bind. eapply wp_mono; [exact Hp|]. cbn. auto. Qed.

Lemma mwp_ask {A} q (f : manswer q -> mprog A) h :
  allowed q h -> (forall x, mwp (f x) (h ++ [mev q x])) -> mwp (bind (ask_m q) f) h.
Proof. by split. Qed.

Lemma mwp_lift {A} (p : sprog A) h : mwp (lift (ans2 := manswer) p) h.
Proof.
  rewrite <- (app_nil_r h). change (@nil (event manswer)) with (map (inj_event (ans2 := manswer)) []).
  apply wp_lift. apply wp_any; done.
Qed.

Lemma mwp_counts_written room r h :
  (forall o, r = Ready (Some o) -> o = Applied -> allowed (Mark room) h) ->
  mwp (counts_written room r) h.
Proof.
  intros Hm. unfold counts_written. destruct r as [[o|]| |]; try done.
  case_decide; [|done]. split; [eauto|done].
Qed.

Lemma ends_with_snoc (h : mtrace) e : ends_with (h ++ [e]) [e].
Proof. by exists h. Qed.

Lemma ends_with_snoc2 (h : mtrace) e e' : ends_with ((h ++ [e]) ++ [e']) [e; e'].
Proof. exists h. by rewrite <- app_assoc. Qed.

Lemma mwp_reconcile_counts room h : mwp (reconcile_counts room) h.
Proof.
  unfold reconcile_counts. apply mwp_ask; [done|]. intros [[at_|]| |]; try done.
  apply mwp_ask; [done|]. intros info. unfold persist_snapshot.
  destruct (persist_choice info at_) as [c| |] eqn:E; [| |done].
  - apply mwp_ask.
    + assert (snapshot info at_ = Some c) as Hs.
      { unfold persist_choice in E. destruct (snapshot info at_); [congruence|]. by case_match. }
      apply snapshot_spec in Hs as (?&?&?&?&?&?& <-). exists info. split; [|done].
      apply ends_with_snoc2.
    + intros r. apply mwp_counts_written. intros o -> ->. left. exists c. apply ends_with_snoc.
  - apply mwp_ask.
    + exists info. split; [apply ends_with_snoc2|]. by eapply persist_choice_none.
    + intros r. apply mwp_counts_written. intros o -> ->. right. exists at_. apply ends_with_snoc.
Qed.

Lemma mwp_reconcile_name room h : mwp (reconcile_name room) h.
Proof.
  unfold reconcile_name. apply mwp_ask; [done|]. intros s. case_bool_decide; [subst|done].
  cbn [negb]. apply mwp_ask; [done|]. intros [[full|]| |]; try done.
  unfold persist. apply mwp_ask.
  - exists full. split; [apply ends_with_snoc2|]. unfold bounded. split_and!.
    + by exists (drop MAX_DISPLAY_NAME_CHARS full); rewrite take_drop.
    + rewrite length_take. lia.
    + apply take_ge.
  - intros [[[]|]| |]; try done. apply mwp_ask; [apply ends_with_snoc|done].
Qed.

Lemma mwp_half b work h : (forall h, mwp work h) -> mwp (half b work) h.
Proof. intros Hw. unfold half, deadline. destruct b; [|done]. apply mwp_bind; [done|]. done. Qed.

Lemma mwp_reconcile room steps h : mwp (reconcile room steps) h.
Proof.
  unfold reconcile. apply mwp_ask; [done|]. intros []; [|done]. cbn [negb].
  apply mwp_bind; [apply mwp_half, mwp_reconcile_counts|]. intros [c|] h'; [|done].
  apply mwp_bind; [apply mwp_half, mwp_reconcile_name|]. done.
Qed.

Lemma mwp_reconcile_all rooms q h : mwp (reconcile_all rooms q) h.
Proof.
  revert q h. induction rooms as [|[[room steps] attempts] rest IH]; intros q h; [done|].
  cbn [reconcile_all]. apply mwp_ask; [done|]. intros []; [done|].
  apply mwp_bind; [apply mwp_reconcile|]. intros [retry|] h'; [apply IH|done].
Qed.

Lemma mwp_take_hints_loop n b h : mwp (take_hints_loop receive n b) h.
Proof.
  revert b h. induction n as [|n IH]; intros b h; [done|].
  cbn [take_hints_loop]. destruct (decide _); [done|]. unfold receive.
  apply wp_bind, wp_bind. split; [done|]. intros [[]|room]; try done. apply IH.
Qed.

Lemma mwp_step parse w h : mwp (step parse w) h.
Proof.
  unfold step. apply mwp_ask; [done|]. intros []; [done|]. apply mwp_bind.
  - unfold take_hints_. apply mwp_bind; [apply mwp_take_hints_loop|]. intros batch h'.
    apply mwp_bind; [|done]. destruct (lagged batch); [apply mwp_lift|done].
  - intros [[hinted|] s] h'; [|done]. apply mwp_ask; [done|]. intros order.
    apply mwp_bind; [apply mwp_lift|]. intros [[rows|] s'] h''; [|done].
    apply mwp_bind; [apply mwp_reconcile_all|]. by intros [q|].
Qed.

Lemma mwp_watch parse n h : mwp (watch parse n) h.
Proof.
  unfold watch. apply mwp_bind; [apply mwp_lift|]. intros s h'.
  generalize (MkWorker s []). clear s h. revert h'.
  induction n as [|n IH]; intros h w; [done|].
  cbn [watch_loop]. apply mwp_ask; [done|]. intros [].
  - done.
  - apply mwp_bind; [apply mwp_step|]. intros [[] w'] h'; [apply IH|done].
  - apply mwp_bind; [apply mwp_lift|]. intros s h'. apply IH.
Qed.

(** Every write is evidence, and every frame a write.  In every run of the
    worker, complete or dropped at any await: a room's counts are written only as
    the SDK just reported them for a joined room, both halves of the pair given,
    the joined count not zero, and dated by a database time read before that
    report; they are invalidated only on positive evidence; the stored name is
    the calculated one of a joined room, cut to 512 characters; and a change is
    announced only right after the write that applied it. *)
Theorem count_writes_are_evidence parse n t t1 q x t2 :
  cut_run (watch parse n) t -> t = t1 ++ mev q x :: t2 -> allowed q t1.
Proof.
  intros Hr E. exact (wp_cut_run allowed _ [] _ _ _ _ _ _ (mwp_watch parse n []) Hr E).
Qed.

(** ** The retry queue *)

Definition entry_ok (e : entry) : Prop := is_empty e.1.2 = false /\ 0 <= e.2 < MAX_ATTEMPTS.

Definition pending_ok (q : list entry) : Prop :=
  (length q <= MAX_PENDING)%nat /\ NoDup (map room_of q) /\ Forall entry_ok q.

(** [s] covers the halves of [steps]. *)
Definition covers (s steps : Steps) : Prop :=
  (counts steps = true -> counts s = true) /\
  (display_name_ steps = true -> display_name_ s = true).

(** [room] is queued for at least [steps]. *)
Definition queued (room : text) (steps : Steps) (q : list entry) : Prop :=
  exists s a, (room, s, a) ∈ q /\ covers s steps.

Lemma map_update room f q : map room_of (update_room room f q) = map room_of q.
Proof.
  unfold update_room. rewrite map_map. apply map_ext. intros [[r s] a]. cbn.
  by case_bool_decide.
Qed.

Lemma length_update room f q : length (update_room room f q) = length q.
Proof. apply length_map. Qed.

Lemma elem_update room f q e :
  e ∈ update_room room f q <->
  exists e0, e0 ∈ q /\ e = if bool_decide (e0.1.1 = room) then (e0.1.1, f e0.1.2, e0.2) else e0.
Proof. unfold update_room. rewrite list_elem_of_fmap. naive_solver. Qed.

Lemma union_covers_l s t : covers (union_ s t) s.
Proof. split; cbn; intros ->; done. Qed.
Lemma union_covers_r s t : covers (union_ s t) t.
Proof. split; cbn; intros ->; apply orb_true_r. Qed.

#[export] Instance covers_preorder : PreOrder covers.
Proof. split; [by split|]. intros s t u [H1 H2] [H3 H4]. split; auto. Qed.

Lemma union_not_empty s t : is_empty s = false -> is_empty (union_ s t) = false.
Proof. unfold is_empty, union_. cbn. by destruct (counts s), (display_name_ s), (counts t), (display_name_ t). Qed.

Lemma retry_push_ok room steps a q : 0 <= a -> pending_ok q -> pending_ok (push room steps a q).
Proof.
  intros Ha (Hl & Hn & Hf). unfold push. destruct (is_empty steps) eqn:He; [done|].
  unfold has_room. case_bool_decide as Hin.
  - split; [by rewrite length_update|]. split; [by rewrite map_update|].
    rewrite Forall_forall in *. intros e (e0 & Hin0 & ->)%elem_update.
    specialize (Hf e0 Hin0). case_bool_decide; [|done]. destruct Hf. split; [|done]. cbn.
    by apply union_not_empty.
  - destruct (_ && _) eqn:E; [|done]. apply andb_true_iff in E as [E1 E2%bool_decide_eq_true].
    b2p. split; [rewrite length_app; cbn; lia|]. split.
    + rewrite map_app. apply NoDup_app. split; [done|]. split; [|apply NoDup_singleton].
      intros x Hx ->%list_elem_of_singleton. done.
    + apply Forall_app. split; [done|]. repeat constructor; done.
Qed.

Lemma push_length room steps a q : (length q <= length (push room steps a q))%nat.
Proof.
  unfold push. repeat case_match; rewrite ?length_update, ?length_app; cbn; lia.
Qed.

Lemma push_keeps room steps a q room' steps' :
  queued room' steps' q -> queued room' steps' (push room steps a q).
Proof.
  intros (s & a' & Hin & Hc). unfold push. destruct (is_empty steps); [by exists s, a'|].
  destruct (has_room room q).
  - destruct (decide (room' = room)) as [->|Hne].
    + exists (union_ s steps), a'. split; [|etrans; [apply union_covers_l|done]].
      apply elem_update. exists (room, s, a'). split; [done|]. by rewrite bool_decide_true.
    + exists s, a'. split; [|done]. apply elem_update. exists (room', s, a'). split; [done|].
      by rewrite bool_decide_false.
  - case_match; [|by exists s, a']. exists s, a'. split; [|done]. apply elem_of_app. by left.
Qed.

(** A push queues the room, unless it ran out of attempts or of space. *)
Lemma push_queues room steps a q :
  is_empty steps = false -> a < MAX_ATTEMPTS ->
  queued room steps (push room steps a q) \/ (MAX_PENDING <= length q)%nat.
Proof.
  intros He Ha. unfold push. rewrite He. unfold has_room.
  case_bool_decide as Hin.
  - left. apply list_elem_of_fmap in Hin as ([[r s] a'] & -> & Hin).
    exists (union_ s steps), a'. split; [|apply union_covers_r]. apply elem_update.
    exists (r, s, a'). split; [done|]. by rewrite bool_decide_true.
  - rewrite (proj2 (Z.ltb_lt _ _) Ha). cbn [andb].
    case_bool_decide; [left|right; lia]. exists steps, a. split; [|done].
    apply elem_of_app. right. by apply list_elem_of_singleton.
Qed.

Lemma push_hints_ok order q : pending_ok q -> pending_ok (push_hints order q).
Proof. apply foldl_inv. intros. by apply retry_push_ok. Qed.

Lemma pending_ok_drop n q : pending_ok q -> pending_ok (drop n q).
Proof.
  intros (Hl & Hn & Hf). split; [rewrite length_drop; lia|]. split; [|by apply Forall_drop].
  rewrite fmap_drop. eapply sublist_NoDup; [exact Hn|apply sublist_drop].
Qed.

(** ** What a step does *)

(** The rooms a trace reconciled, in order. *)
Fixpoint asked_rooms (tr : mtrace) : list text :=
  match tr with
  | [] => []
  | existT (GetRoom room) _ :: tr => room :: asked_rooms tr
  | _ :: tr => asked_rooms tr
  end.

Lemma asked_rooms_app tr1 tr2 : asked_rooms (tr1 ++ tr2) = asked_rooms tr1 ++ asked_rooms tr2.
Proof. induction tr1 as [|[[]] tr1 IH]; cbn; rewrite ?IH; done. Qed.

Definition no_room (q : MQuestion) (h : mtrace) : Prop :=
  match q with GetRoom _ => False | _ => True end.

Lemma no_room_asked {A} (p : mprog A) h tr a :
  wp no_room p h (fun _ _ => True) -> runs p tr a -> asked_rooms tr = [].
Proof.
  revert h tr. induction p as [b|q k IH]; intros h tr; cbn; [by intros _ [-> _]|].
  intros [Hq Hk] (x & t' & -> & Hr). specialize (IH _ _ _ (Hk x) Hr).
  by destruct q.
Qed.

Lemma no_room_bind {A B} (p : mprog A) (f : A -> mprog B) h :
  wp no_room p h (fun _ _ => True) -> (forall a h, wp no_room (f a) h (fun _ _ => True)) ->
  wp no_room (bind p f) h (fun _ _ => True).
Proof. intros Hp Hf. apply wp_bind. eapply wp_mono; [exact Hp|]. cbn. auto. Qed.

Lemma no_room_lift {A} (p : sprog A) h : wp no_room (lift (ans2 := manswer) p) h (fun _ _ => True).
Proof.
  rewrite <- (app_nil_r h). change (@nil (event manswer)) with (map (inj_event (ans2 := manswer)) []).
  apply wp_lift. apply wp_any; done.
Qed.

Ltac no_room_steps :=
  repeat first
    [ done
    | progress cbn [wp bind]
    | split; [done|]
    | match goal with
      | |- forall _, _ => intro
      | |- context [match ?x with _ => _ end] => destruct x
      end ].

Lemma no_room_reconcile_counts room h : wp no_room (reconcile_counts room) h (fun _ _ => True).
Proof.
  unfold reconcile_counts, persist_snapshot, counts_written, ask_m, ask. no_room_steps.
Qed.

Lemma no_room_reconcile_name room h : wp no_room (reconcile_name room) h (fun _ _ => True).
Proof. unfold reconcile_name, persist, ask_m, ask. no_room_steps. Qed.

Lemma no_room_half b work h :
  (forall h, wp no_room work h (fun _ _ => True)) -> wp no_room (half b work) h (fun _ _ => True).
Proof. intros Hw. unfold half, deadline. destruct b; [|done]. by apply no_room_bind. Qed.

Lemma reconcile_asks room steps tr r :
  runs (reconcile room steps) tr r -> asked_rooms tr = [room].
Proof.
  unfold reconcile. cbn. intros (x & t' & -> & Hr). cbn. f_equal.
  destruct x; cbn in Hr; [|by destruct Hr as [-> _]].
  eapply (no_room_asked _ [] _ _ _ Hr).
  Unshelve. apply no_room_bind; [apply no_room_half, no_room_reconcile_counts|].
  intros [c|] h; [|done]. apply no_room_bind; [apply no_room_half, no_room_reconcile_name|done].
Qed.

(** The failed halves go back to the queue. *)
Definition push_retries (rooms : list entry) (retries : list Steps) (q : list entry) : list entry :=
  foldl (fun q er => push er.1.1.1 er.2 (er.1.2 + 1) q) q (zip rooms retries).

Definition reconciled (e : entry) (retry : Steps) : Prop :=
  exists tr, runs (reconcile e.1.1 e.1.2) tr (Some retry).

Lemma reconcile_all_spec rooms q tr q' :
  runs (reconcile_all rooms q) tr (Some q') ->
  exists retries, Forall2 reconciled rooms retries /\
    asked_rooms tr = map room_of rooms /\ q' = push_retries rooms retries q.
Proof.
  revert q tr. induction rooms as [|[[room steps] a] rest IH]; intros q tr.
  { cbn. intros [-> [= ->]]. exists []. by repeat constructor. }
  cbn [reconcile_all]. intros (c & t1 & -> & Hr). destruct c; [by destruct Hr|].
  change (runs (bind (reconcile room steps) (fun r => match r with
    | None => Ret None
    | Some retry => reconcile_all rest (push room retry (a + 1) q) end)) t1 (Some q')) in Hr.
  apply runs_bind in Hr as (t2 & t3 & [retry|] & -> & H1 & H2); [|by destruct H2].
  destruct (IH _ _ H2) as (retries & HF & Ha & ->). exists (retry :: retries). split_and!.
  - constructor; [by exists t2|done].
  - cbn [asked_rooms]. rewrite asked_rooms_app, (reconcile_asks _ _ _ _ H1), Ha. done.
  - done.
Qed.

(** ** The rooms of a step *)

Lemma merge_room_spec rooms room :
  NoDup (map room_of rooms) -> Forall (fun e : entry => 0 <= e.2 < MAX_ATTEMPTS) rooms ->
  let rooms' := merge_room rooms room in
  NoDup (map room_of rooms') /\ Forall (fun e : entry => 0 <= e.2 < MAX_ATTEMPTS) rooms' /\
  (length rooms' <= S (length rooms))%nat /\ (exists a, (room, ALL, a) ∈ rooms') /\
  forall r s a, (r, s, a) ∈ rooms -> exists s', (r, s', a) ∈ rooms' /\ covers s' s.
Proof.
  intros Hn Hf. unfold merge_room, has_room. cbn zeta. case_bool_decide as Hin.
  - split; [by rewrite map_update|]. split.
    { rewrite Forall_forall in *. intros e (e0 & H0 & ->)%elem_update.
      specialize (Hf e0 H0). by case_bool_decide. }
    rewrite length_update. split; [lia|]. split.
    + apply list_elem_of_fmap in Hin as ([[r s] a] & -> & Hin). exists a. apply elem_update.
      exists (r, s, a). split; [done|]. by rewrite bool_decide_true.
    + intros r s a H. destruct (decide (r = room)) as [->|Hne].
      * exists ALL. split; [|by split]. apply elem_update. exists (room, s, a).
        split; [done|]. by rewrite bool_decide_true.
      * exists s. split; [|done]. apply elem_update. exists (r, s, a).
        split; [done|]. by rewrite bool_decide_false.
  - split; [|split; [|split; [|split]]].
    + rewrite map_app. apply NoDup_app. split; [done|]. split; [|apply NoDup_singleton].
      by intros x Hx ->%list_elem_of_singleton.
    + apply Forall_app. split; [done|]. repeat constructor; done.
    + rewrite length_app. cbn. lia.
    + exists 0. apply elem_of_app. right. by apply list_elem_of_singleton.
    + intros r s a H. exists s. split; [|done]. apply elem_of_app. by left.
Qed.

Lemma merge_rooms_spec rows rooms :
  NoDup (map room_of rooms) -> Forall (fun e : entry => 0 <= e.2 < MAX_ATTEMPTS) rooms ->
  let rooms' := foldl merge_room rooms rows in
  NoDup (map room_of rooms') /\ Forall (fun e : entry => 0 <= e.2 < MAX_ATTEMPTS) rooms' /\
  (length rooms' <= length rooms + length rows)%nat /\
  (forall room, room ∈ rows -> exists a s, (room, s, a) ∈ rooms' /\ covers s ALL) /\
  forall r s a, (r, s, a) ∈ rooms -> exists s', (r, s', a) ∈ rooms' /\ covers s' s.
Proof.
  revert rooms. induction rows as [|row rows IH]; intros rooms Hn Hf; cbn.
  { split_and!; [done|done|lia|by intros ? ?%not_elem_of_nil|intros r s a H; by exists s]. }
  destruct (merge_room_spec rooms row Hn Hf) as (Hn1 & Hf1 & Hl1 & [a1 Hr1] & Hk1).
  destruct (IH _ Hn1 Hf1) as (Hn2 & Hf2 & Hl2 & Hr2 & Hk2). split_and!; try done.
  - lia.
  - intros room [->|Hin]%elem_of_cons; [|eauto].
    destruct (Hk2 _ _ _ Hr1) as (s' & ? & ?). eauto.
  - intros r s a H. destruct (Hk1 _ _ _ H) as (s1 & H1 & Hc1).
    destruct (Hk2 _ _ _ H1) as (s2 & H2 & Hc2). exists s2. split; [done|]. by etrans.
Qed.

Lemma push_retries_ok rooms retries q :
  Forall (fun e : entry => 0 <= e.2 < MAX_ATTEMPTS) rooms -> pending_ok q ->
  pending_ok (push_retries rooms retries q).
Proof.
  intros Hf. apply foldl_inv_in. intros q' [e r] Hin Hq. apply retry_push_ok; [|done]. cbn.
  apply elem_of_zip_l in Hin. rewrite Forall_forall in Hf. specialize (Hf e Hin). cbn in Hf. lia.
Qed.

Lemma push_retries_queues rooms retries q i e retry :
  rooms !! i = Some e -> retries !! i = Some retry -> is_empty retry = false ->
  e.2 + 1 < MAX_ATTEMPTS ->
  queued e.1.1 retry (push_retries rooms retries q) \/
  (MAX_PENDING <= length (push_retries rooms retries q))%nat.
Proof.
  revert retries q i. induction rooms as [|e0 rooms IH]; intros [|r0 retries] q i; try done.
  assert (forall rooms retries q, queued e.1.1 retry q ->
    queued e.1.1 retry (push_retries rooms retries q)) as Hkeep.
  { intros rs rts q'. apply (foldl_inv (queued e.1.1 retry)). intros. by apply push_keeps. }
  assert (forall rooms retries q, (MAX_PENDING <= length q)%nat ->
    (MAX_PENDING <= length (push_retries rooms retries q))%nat) as Hfull.
  { intros rs rts q'. apply (foldl_inv (fun q => (MAX_PENDING <= length q)%nat)). intros q2 [e2 r2] H2. etrans; [exact H2|].
    apply push_length. }
  destruct i as [|i]; cbn; [|intros; eapply IH; done].
  intros [= ->] [= ->] He Ha.
  destruct (push_queues e.1.1 retry (e.2 + 1) q He Ha) as [H|H]; [left; by apply Hkeep|].
  right. apply Hfull. etrans; [exact H|apply push_length].
Qed.

Lemma new_pending_ok : pending_ok [].
Proof. split; [cbn; lia|]. split; constructor. Qed.

Lemma pending_ok_take n q : pending_ok q ->
  NoDup (map room_of (take n q)) /\ Forall (fun e : entry => 0 <= e.2 < MAX_ATTEMPTS) (take n q).
Proof.
  intros (_ & Hn & Hf). split.
  - rewrite <- (take_drop n q), map_app in Hn. by apply NoDup_app in Hn as [? _].
  - apply Forall_take. eapply Forall_impl; [exact Hf|]. by intros e [_ ?].
Qed.

(** A step that goes on, taken apart. *)
Lemma step_runs parse w tr w' :
  runs (step parse w) tr (true, w') ->
  exists order rows retries hinted s tr1 trh trp tr2,
    tr = mev (Sweep IsCancelled) false :: tr1 ++ mev (HashOrder hinted) order :: trp ++ tr2 /\
    runs (take_hints_ (sweep w)) tr1 (Some hinted, s) /\
    runs (page parse s) trh (Some rows, sweep w') /\ trp = map inj_event trh /\
    let q0 := push_hints order (pending w) in
    let rooms := foldl merge_room (take DRAIN q0) rows in
    Forall2 reconciled rooms retries /\ asked_rooms tr2 = map room_of rooms /\
    pending w' = push_retries rooms retries (drop DRAIN q0).
Proof.
  unfold step. intros (c & t0 & -> & Hr)%runs_ask. destruct c; [by destruct Hr|].
  apply runs_bind in Hr as (tr1 & t1 & [[hinted|] s] & -> & Hh & Hr); [|by destruct Hr].
  apply runs_ask in Hr as (order & t2 & -> & Hr).
  apply runs_bind in Hr as (trp & t3 & [[rows|] s'] & -> & Hp & Hr); [|by destruct Hr].
  apply runs_lift in Hp as (trh & Et & Hp).
  apply runs_bind in Hr as (tr2 & t4 & [q|] & -> & Ha & Hr); [|by destruct Hr].
  destruct Hr as [-> [= ->]]. rewrite app_nil_r.
  apply reconcile_all_spec in Ha as (retries & HF & Has & ->).
  exists order, rows, retries, hinted, s, tr1, trh, trp, tr2. cbn zeta. split_and!; done.
Qed.

Lemma take_hints_no_room tr1 r s : runs (take_hints_ s) tr1 r -> asked_rooms tr1 = [].
Proof.
  intros H. eapply (no_room_asked _ [] _ _ _ H). Unshelve. unfold take_hints_.
  apply no_room_bind.
  - unfold take_hints. generalize MAX_RECEIVES no_hints. intros n b.
    assert (forall h, wp no_room (take_hints_loop receive n b) h (fun _ _ => True)); [|done].
    revert b. induction n as [|n IH]; intros b h; [done|]. cbn [take_hints_loop].
    destruct (decide _); [done|]. apply no_room_bind; [by no_room_steps|].
    intros []; no_room_steps.
  - intros batch h. apply no_room_bind; [|done].
    destruct (lagged batch); [apply no_room_lift|done].
Qed.

(** What one step does.  It reconciles, each once, the first four rooms of
    the queue the hints were pushed to, and the rooms of the sweep's page, the
    latter with both halves; never more.  A half that failed goes back to the
    queue, unless the room's four attempts are used or the queue is full; and the
    queue keeps at most 32 rooms, each once, with work left and attempts left. *)
Theorem step_plan parse w tr w' :
  pending_ok (pending w) -> runs (step parse w) tr (true, w') ->
  exists order rows retries,
    let q0 := push_hints order (pending w) in
    let rooms := foldl merge_room (take DRAIN q0) rows in
    (exists s trp, runs (page parse s) trp (Some rows, sweep w')) /\
    asked_rooms tr = map room_of rooms /\ NoDup (map room_of rooms) /\
    (length rooms <= DRAIN + length rows)%nat /\
    (forall room, room ∈ rows -> exists a s, (room, s, a) ∈ rooms /\ covers s ALL) /\
    (forall r s a, (r, s, a) ∈ take DRAIN q0 -> exists s', (r, s', a) ∈ rooms /\ covers s' s) /\
    Forall2 reconciled rooms retries /\
    (forall i e retry, rooms !! i = Some e -> retries !! i = Some retry ->
      is_empty retry = false -> e.2 + 1 < MAX_ATTEMPTS ->
      queued e.1.1 retry (pending w') \/ length (pending w') = MAX_PENDING) /\
    pending_ok (pending w').
Proof.
  intros Hok H. destruct (step_runs _ _ _ _ H) as
    (order & rows & retries & hinted & s & tr1 & trh & trp & tr2 & -> & Hh & Hp & -> & HF & Ha & Hq).
  exists order, rows, retries. cbn zeta.
  pose proof (push_hints_ok order _ Hok) as Hq0.
  destruct (pending_ok_take DRAIN _ Hq0) as [Hn Hf].
  destruct (merge_rooms_spec rows _ Hn Hf) as (Hn' & Hf' & Hl & Hr & Hk).
  pose proof (push_retries_ok _ retries _ Hf' (pending_ok_drop DRAIN _ Hq0)) as Hok'.
  rewrite <- Hq in Hok'. split_and!.
  - eauto.
  - cbn [asked_rooms]. rewrite asked_rooms_app. cbn [asked_rooms].
    rewrite asked_rooms_app, (take_hints_no_room _ _ _ Hh), Ha. cbn.
    assert (asked_rooms (map (inj_event (ans2 := manswer)) trh) = []) as ->; [|done].
    clear. by induction trh as [|[] l IH].
  - done.
  - etrans; [exact Hl|]. rewrite length_take. lia.
  - done.
  - done.
  - done.
  - intros i e retry Hi Hi' He Hlt. rewrite Hq.
    destruct (push_retries_queues _ _ (drop DRAIN (push_hints order (pending w))) _ _ _ Hi Hi' He Hlt)
      as [?|Hfull]; [by left|right].
    rewrite <- Hq in *. destruct Hok' as [? _]. lia.
  - done.
Qed.

(** ** Retries end *)

(** The attempts the queue has left. *)
Fixpoint attempts_left (q : list entry) : Z :=
  match q with
  | [] => 0
  | e :: q => (MAX_ATTEMPTS - e.2) + attempts_left q
  end.

Lemma attempts_left_app q1 q2 : attempts_left (q1 ++ q2) = attempts_left q1 + attempts_left q2.
Proof. induction q1 as [|e q1 IH]; cbn; [done|]. rewrite IH. lia. Qed.

Lemma attempts_left_update room f q : attempts_left (update_room room f q) = attempts_left q.
Proof. unfold update_room. induction q as [|[[r s] a] q IH]; cbn; [done|]. rewrite IH. by case_bool_decide. Qed.

Lemma attempts_left_push room steps a q :
  attempts_left (push room steps a q) <= attempts_left q + Z.max 0 (MAX_ATTEMPTS - a).
Proof.
  unfold push. destruct (is_empty steps); [lia|]. destruct (has_room room q).
  - rewrite attempts_left_update. lia.
  - destruct (_ && _); [|lia]. rewrite attempts_left_app. cbn. lia.
Qed.

Lemma attempts_left_retries rooms retries q :
  Forall (fun e : entry => 0 <= e.2 < MAX_ATTEMPTS) rooms -> length rooms = length retries ->
  attempts_left (push_retries rooms retries q) <=
    attempts_left q + attempts_left rooms - Z.of_nat (length rooms).
Proof.
  revert retries q. induction rooms as [|e rooms IH]; intros [|r retries] q Hf Hl; try done.
  - cbn. lia.
  - apply Forall_cons in Hf as [He Hf].
    change (push_retries (e :: rooms) (r :: retries) q) with
      (push_retries rooms retries (push e.1.1 r (e.2 + 1) q)).
    etrans; [apply IH; [done|by injection Hl]|].
    pose proof (attempts_left_push e.1.1 r (e.2 + 1) q). cbn [attempts_left length]. lia.
Qed.

Lemma attempts_left_bound q : pending_ok q ->
  Z.of_nat (length q) <= attempts_left q <= MAX_ATTEMPTS * Z.of_nat (length q).
Proof.
  intros (_ & _ & Hf). induction Hf as [|e q [_ He] Hf IH]; cbn; [lia|].
  unfold MAX_ATTEMPTS in *. lia.
Qed.

(** A quiet step: no hint, and no room from the sweep. *)
Definition quiet_event (e : event manswer) : Prop :=
  match e with
  | existT q x =>
      match q return manswer q -> Prop with
      | Receive => fun r => match r with inr _ => False | inl _ => True end
      | HashOrder rooms => fun order => order ≡ₚ elements rooms
      | Sweep (SelectPage _) => fun r => match r with Ready (Some (_ :: _)) => False | _ => True end
      | _ => fun _ => True
      end x
  end.

Inductive quiet_steps (parse : text -> option text) : nat -> Worker -> Worker -> Prop :=
| quiet_refl w : quiet_steps parse 0 w w
| quiet_step n w tr w1 w2 :
    runs (step parse w) tr (true, w1) -> Forall quiet_event tr ->
    quiet_steps parse n w1 w2 -> quiet_steps parse (S n) w w2.

Lemma quiet_hints n b tr b' :
  runs (take_hints_loop receive n b) tr b' -> Forall quiet_event tr -> rooms b' = rooms b.
Proof.
  revert b tr. induction n as [|n IH]; intros b tr; [by intros [_ ->]|]. cbn [take_hints_loop].
  destruct (decide _); [by intros [_ ->]|].
  intros (t1 & t2 & h & -> & (x & t3 & -> & Hx)%runs_ask & Hr)%runs_bind [Hq Hq2]%Forall_app.
  apply Forall_cons in Hq as [Hq _]. destruct Hx as [_ ->].
  destruct x as [[]|room]; try (by destruct Hr as [_ ->]). done.
Qed.

Lemma quiet_take_hints tr b :
  runs (take_hints receive) tr b -> Forall quiet_event tr -> rooms b = ∅.
Proof.
  unfold take_hints. generalize MAX_RECEIVES. intros n H Hq. by rewrite (quiet_hints _ _ _ _ H Hq).
Qed.

Lemma quiet_page_rows parse s tr o s' :
  runs (page parse s) tr (Some o, s') ->
  Forall (fun e => quiet_event (inj_event (ans2 := manswer) e)) tr -> o = [].
Proof.
  unfold page. intros (c & t1 & -> & Hr)%runs_ask Hq. apply Forall_cons in Hq as [_ Hq].
  destruct c; [by destruct Hr|].
  apply runs_bind in Hr as (t2 & t3 & idle & -> & _ & Hr). apply Forall_app in Hq as [_ Hq].
  destruct idle; [by destruct Hr as [_ [= -> ->]]|].
  apply runs_bind in Hr as (t4 & t5 & s1 & -> & _ & Hr). apply Forall_app in Hq as [_ Hq].
  apply runs_ask in Hr as (r & t6 & -> & Hr). apply Forall_cons in Hq as [Hq _].
  destruct r as [[[|row rows]|]| |]; try done; try (by destruct Hr as [_ [= -> ->]]).
  apply runs_bind in Hr as (t7 & t8 & s2 & _ & _ & [_ [= -> ->]]). done.
Qed.

Lemma quiet_take_hints_ s tr hinted s' :
  runs (take_hints_ s) tr (Some hinted, s') -> Forall quiet_event tr -> hinted = ∅.
Proof.
  unfold take_hints_. intros (t1 & t2 & batch & -> & Hb & Hr)%runs_bind [Hq _]%Forall_app.
  apply quiet_take_hints in Hb; [|done].
  apply runs_bind in Hr as (t3 & t4 & s2 & _ & _ & [_ Hr]).
  destruct (closed batch); [done|]. injection Hr as -> _. done.
Qed.

Lemma quiet_lift_rows parse s tr o s' :
  runs (page parse s) tr (Some o, s') -> Forall quiet_event (map inj_event tr) -> o = [].
Proof.
  intros Hp Hq. eapply quiet_page_rows; [exact Hp|]. apply Forall_forall. intros e He.
  apply (proj1 (Forall_forall _ _) Hq). by apply (list_elem_of_fmap_2 inj_event).
Qed.

(** With nothing new, a step only drains and retries. *)
Lemma quiet_step_runs parse w tr w' :
  runs (step parse w) tr (true, w') -> Forall quiet_event tr ->
  exists retries, length retries = length (take DRAIN (pending w)) /\
    pending w' = push_retries (take DRAIN (pending w)) retries (drop DRAIN (pending w)).
Proof.
  intros H Hq. apply step_runs in H as
    (order & rows & retries & hinted & s & tr1 & trh & trp & tr2 & -> & Hh & Hp & -> & HF & _ & E).
  apply Forall_cons in Hq as [_ Hq]. apply Forall_app in Hq as [Hq1 Hq].
  apply Forall_cons in Hq as [Ho Hq]. apply Forall_app in Hq as [Hqp _].
  pose proof (quiet_take_hints_ _ _ _ _ Hh Hq1) as ->.
  pose proof (quiet_lift_rows _ _ _ _ _ Hp Hqp) as ->.
  assert (order = []) as ->.
  { change (order ≡ₚ elements (∅ : gset text)) in Ho. rewrite elements_empty in Ho.
    by apply Permutation_nil_r. }
  exists retries. split; [|exact E]. symmetry. exact (Forall2_length _ _ _ HF).
Qed.

Lemma quiet_step_decreases parse w tr w' :
  pending_ok (pending w) -> runs (step parse w) tr (true, w') -> Forall quiet_event tr ->
  pending_ok (pending w') /\
  attempts_left (pending w') <=
    attempts_left (pending w) - Z.of_nat (Nat.min DRAIN (length (pending w))).
Proof.
  intros Hok H Hq. destruct (quiet_step_runs _ _ _ _ H Hq) as (retries & HF & ->).
  pose proof (pending_ok_take DRAIN _ Hok) as [_ Hf].
  split; [by apply push_retries_ok; [|apply pending_ok_drop]|].
  pose proof (attempts_left_retries _ _ (drop DRAIN (pending w)) Hf (eq_sym HF)) as Hd.
  pose proof (attempts_left_app (take DRAIN (pending w)) (drop DRAIN (pending w))) as Hsum.
  rewrite take_drop in Hsum. rewrite length_take in Hd. lia.
Qed.

(** Retries end.  While no hint arrives and the sweep rests, however often
    the reads and writes of the queued rooms fail or run out of time, at most 128
    steps empty the retry queue. *)
Theorem retries_terminate parse n w w' :
  pending_ok (pending w) -> quiet_steps parse n w w' -> (128 <= n)%nat -> pending w' = [].
Proof.
  intros Hok Hs Hn.
  assert (forall n w w', quiet_steps parse n w w' -> pending_ok (pending w) ->
    attempts_left (pending w) <= Z.of_nat n -> pending w' = []) as Hgo.
  { clear. intros n w w'. induction 1 as [w|n w tr w1 w2 Hr Hq Hs IH]; intros Hok Hle.
    - pose proof (attempts_left_bound _ Hok). destruct (pending w); [done|cbn in *; lia].
    - destruct (quiet_step_decreases _ _ _ _ Hok Hr Hq) as [Hok1 Hd]. apply IH; [done|].
      destruct (pending w) as [|e q] eqn:E.
      + cbn in Hd. pose proof (attempts_left_bound _ Hok1). cbn in Hle. lia.
      + unfold DRAIN in Hd. cbn [length] in Hd. lia. }
  eapply Hgo; [exact Hs|done|]. pose proof (attempts_left_bound _ Hok).
  destruct Hok as [Hl _]. unfold MAX_PENDING, MAX_ATTEMPTS in *. lia.
Qed.

(** ** Witnesses *)

(** A store whose count writes find no row and whose name writes fail; no hints,
    and a sweep at rest. *)
Definition failing (h : mtrace) (q : MQuestion) : manswer q :=
  match q with
  | Sweep q => match q with IsCancelled => false | Now => 0 | SelectPage _ => Deadline end
  | Select => WTick
  | Receive => inl REmpty
  | HashOrder _ => []
  | GetRoom _ => true
  | RoomStateOf _ => Joined
  | CloneInfo _ => MkInfo Joined (Some 3) (Some 1) None
  | DisplayNameOf _ => Ready (Some (t! "Room"))
  | ObservationTime => Ready (Some 5)
  | SetCounts _ _ => Ready (Some Retry)
  | Invalidate _ _ => Ready None
  | SetDisplayName _ _ => Ready None
  | Mark _ | SendFrame _ _ => tt
  end.

(** One queued room that has been tried [n] times. *)
Definition tried (n : Z) : Worker :=
  MkWorker (MkSweep [] 1 false None 0) [(a_room, ALL, n)].
Definition at_rest : Worker := MkWorker (MkSweep [] 1 false None 0) [].

Lemma failing_step w w' :
  (exec failing [] (step Some w)).2 = (true, w') ->
  runs (step Some w) (exec failing [] (step Some w)).1 (true, w').
Proof. intros <-. apply exec_runs. Qed.

Lemma tried_ok n : 0 <= n < MAX_ATTEMPTS -> pending_ok (pending (tried n)).
Proof.
  intros H. split; [cbn; unfold MAX_PENDING; lia|]. split; [apply NoDup_singleton|].
  repeat constructor; cbn; lia.
Qed.

(** The same, with a hint. *)
Definition hinted_room (h : mtrace) (q : MQuestion) : manswer q :=
  match q return manswer q with HashOrder _ => [a_room] | q => failing h q end.

Lemma count_writes_are_evidence_witness :
  exists t1 t2,
    cut_run (watch Some 1)
      (t1 ++ mev (SetCounts a_room (MkCounts 3 1 5)) (Ready (Some Retry)) :: t2) /\
    allowed (SetCounts a_room (MkCounts 3 1 5)) t1.
Proof.
  set (t := (exec hinted_room [] (watch Some 1)).1).
  assert (exists t1 t2,
    t = t1 ++ mev (SetCounts a_room (MkCounts 3 1 5)) (Ready (Some Retry)) :: t2) as (t1 & t2 & E).
  { exists (take 13 t), (drop 14 t). by vm_compute. }
  assert (cut_run (watch Some 1)
    (t1 ++ mev (SetCounts a_room (MkCounts 3 1 5)) (Ready (Some Retry)) :: t2)) as Hc.
  { rewrite <- E. eapply cut_runs, exec_runs. }
  exists t1, t2. split; [exact Hc|].
  exact (count_writes_are_evidence Some 1 _ _ _ _ _ Hc eq_refl).
Defined.

Lemma step_plan_witness :
  exists tr, runs (step Some (tried 0)) tr (true, tried 1) /\ pending_ok (pending (tried 1)).
Proof.
  assert (runs (step Some (tried 0)) (exec failing [] (step Some (tried 0))).1 (true, tried 1)) as H
    by (apply failing_step; by vm_compute).
  eexists. split; [exact H|].
  destruct (step_plan Some (tried 0) _ (tried 1) (tried_ok 0 ltac:(unfold MAX_ATTEMPTS; lia)) H)
    as (? & ? & ? & _ & _ & _ & _ & _ & _ & _ & _ & Hok).
  exact Hok.
Defined.

(** Four failed attempts, then idle steps. *)
Lemma failing_quiet w w' :
  (exec failing [] (step Some w)).2 = (true, w') ->
  Forall quiet_event (exec failing [] (step Some w)).1 ->
  forall n w2, quiet_steps Some n w' w2 -> quiet_steps Some (S n) w w2.
Proof. intros E Hq n w2 Hs. econstructor; [by apply failing_step|done|done]. Qed.

Ltac quiet := vm_compute; repeat constructor.

Lemma rest_quiet n : quiet_steps Some n at_rest at_rest.
Proof. induction n; [constructor|]. eapply failing_quiet; [by vm_compute|quiet|done]. Qed.

Lemma tried_quiet n : quiet_steps Some (4 + n) (tried 0) at_rest.
Proof.
  eapply (failing_quiet _ (tried 1)); [by vm_compute|quiet|].
  eapply (failing_quiet _ (tried 2)); [by vm_compute|quiet|].
  eapply (failing_quiet _ (tried 3)); [by vm_compute|quiet|].
  eapply (failing_quiet _ at_rest); [by vm_compute|quiet|]. apply rest_quiet.
Qed.

Lemma retries_terminate_witness :
  quiet_steps Some 128 (tried 0) at_rest /\ pending at_rest = [].
Proof.
  split; [exact (tried_quiet 124)|].
  apply (retries_terminate Some 128 (tried 0) at_rest).
  - apply tried_ok. unfold MAX_ATTEMPTS. lia.
  - exact (tried_quiet 124).
  - apply le_n.
Defined.
