(* ===== verification/RoomState.v ===== *)
(** * The state table

    Models [room_state], the current value of each Matrix state tuple
    ([crates/axon-store/src/state.rs]): the freshness-guarded upsert with its
    redaction evidence, its purge intent and its membership epoch, the repair of a
    redacted tuple, and the reads that go with them.  The table is a map from a
    tuple of one account to its row; a transaction is one function. *)

From stdpp Require Import base gmap sets list strings sorting.
From Stdlib Require Import ZArith Lia.
From S2P Require Import Prelude Text RoomSweep RoomSummaries.

Section RoomState.
(** [jsonb] values, compared as PostgreSQL compares them, and [->>]. *)
Context {Jsonb : Type} `{!EqDecision Jsonb} (get_text : text -> Jsonb -> option text).

(** ** Rows *)

Record StateRow := MkStateRow {
  event_id : text;
  sender : text;
  origin_ts : Z;
  content : option Jsonb;
  redacted : option bool;
  redaction_event_id : option text;
}.

#[export] Instance StateRow_eq_dec : EqDecision StateRow.
Proof. solve_decision. Defined.

(** A tuple: room, event type, state key. *)
Abbreviation tuple := (text * text * text)%type.
Abbreviation states := (gmap tuple StateRow).

Record RoomStateUpsert := MkUpsert {
  u_room : text;
  u_type : text;
  u_key : text;
  u_event : text;
  u_sender : text;
  u_ts : Z;
  u_content : option Jsonb;
}.

Definition tuple_of (s : RoomStateUpsert) : tuple := (u_room s, u_type s, u_key s).

Inductive RoomStateRedaction := Unknown | Redacted (by_ : option text).

Definition columns (e : RoomStateRedaction) : option bool * option text :=
  match e with Unknown => (None, None) | Redacted by_ => (Some true, by_) end.

Definition summary_display_state (event_type state_key : text) : bool :=
  bool_decide (state_key = []) &&
  bool_decide (event_type ∈ [t! "m.room.name"; t! "m.room.topic"; t! "m.room.avatar";
    t! "m.room.canonical_alias"; t! "m.room.create"; t! "m.room.tombstone"]).

(** A membership the account is out of the room by. *)
Definition departed (membership : option text) : bool :=
  bool_decide (membership = Some (t! "leave")) || bool_decide (membership = Some (t! "ban")).

Definition is_local_departure (local_user : option text) (s : RoomStateUpsert) : bool :=
  bool_decide (u_type s = t! "m.room.member") && bool_decide (local_user = Some (u_key s)) &&
  departed (u_content s ≫= get_text (t! "membership")).

(** [ROW(…) IS NOT DISTINCT FROM] and [COALESCE]. *)
Definition coalesce {A} (a b : option A) : option A := match a with Some _ => a | None => b end.

(** ** The upsert statement *)

(** The row [ON CONFLICT DO UPDATE] leaves; [None] when the freshness guard
    refuses it. *)
Definition conflict_row (old : StateRow) (s : RoomStateUpsert) (redacted_ : option bool)
    (by_ : option text) : option StateRow :=
  if u_ts s <? origin_ts old then None
  else
    let same := bool_decide (event_id old = u_event s) in
    let was := bool_decide (redacted old = Some true) in
    Some {|
      event_id := u_event s; sender := u_sender s; origin_ts := u_ts s;
      content :=
        if same && was && negb (bool_decide (redacted_ = Some true))
        then content old else u_content s;
      redacted :=
        if same then (if was then Some true else coalesce redacted_ (redacted old))
        else redacted_;
      redaction_event_id :=
        if same then coalesce (redaction_event_id old) by_ else by_ |}.

Definition fresh_row (s : RoomStateUpsert) (redacted_ : option bool) (by_ : option text) : StateRow :=
  MkStateRow (u_event s) (u_sender s) (u_ts s) (u_content s) redacted_ by_.

(** The statement's table, and whether it wrote and changed the tuple. *)
Definition upsert_statement (s : RoomStateUpsert) (evidence : RoomStateRedaction) (tbl : states)
    : states * (bool * bool) :=
  let '(redacted_, by_) := columns evidence in
  match tbl !! tuple_of s with
  | None => (<[tuple_of s := fresh_row s redacted_ by_]> tbl, (true, true))
  | Some old =>
      match conflict_row old s redacted_ by_ with
      | None => (tbl, (false, false))
      | Some row => (<[tuple_of s := row]> tbl, (true, negb (bool_decide (row = old))))
      end
  end.

(** ** The transaction

    [through] of a purge intent, the [room_membership_epoch_seq] and the epochs of
    the summaries, and [events_id_seq]'s last value. *)

Record Db := MkDb {
  tuples : states;
  summaries_ : summaries;
  epochs : gmap text Z;
  epoch_seq : Z;
  purge_intents : gmap text Z;
  last_event : Z;
}.

(** [room_purge_watermark], advancing. *)
Definition room_purge_watermark (advance : bool) (room : text) (db : Db) : Db :=
  let through := match purge_intents db !! room with
    | Some old => if advance then Z.max old (last_event db) else old
    | None => last_event db
    end in
  MkDb (tuples db) (summaries_ db) (epochs db) (epoch_seq db)
    (<[room := through]> (purge_intents db)) (last_event db).

(** A room's new epoch, if it has a summary. *)
Definition next_epoch (room : text) (db : Db) : Db :=
  match epochs db !! room with
  | None => db
  | Some _ =>
      MkDb (tuples db) (summaries_ db) (<[room := epoch_seq db + 1]> (epochs db)) (epoch_seq db + 1)
        (purge_intents db) (last_event db)
  end.

Definition set_tuples (t : states) (db : Db) : Db :=
  MkDb t (summaries_ db) (epochs db) (epoch_seq db) (purge_intents db) (last_event db).

Definition own_membership (local_user : option text) (s : RoomStateUpsert) : bool :=
  bool_decide (u_type s = t! "m.room.member") && bool_decide (local_user = Some (u_key s)).

(** The first transaction of the upsert, and whether the tuple changed. *)
Definition upsert_transaction (s : RoomStateUpsert) (local_user : option text)
    (evidence : RoomStateRedaction) (purge_on_leave : bool) (db : Db) : Db * bool :=
  let purge := purge_on_leave && is_local_departure local_user s in
  let '(tbl, (written, changed)) := upsert_statement s evidence (tuples db) in
  let db := set_tuples tbl db in
  let db := if written && purge then room_purge_watermark true (u_room s) db else db in
  let db := if own_membership local_user s && changed then next_epoch (u_room s) db else db in
  (db, changed).

(** [refresh_room_summary_display] reads the stored membership of the account's
    user; a flip of [hidden_left] starts an epoch too. *)
Definition left_room (account_user room : text) (tbl : states) : bool :=
  departed ((tbl !! (room, t! "m.room.member", account_user) ≫= content) ≫= get_text (t! "membership")).

Definition refresh_display (now : Z) (account_user room : text) (db : Db) : option Db :=
  let left_ := left_room account_user room (tuples db) in
  let flips := match summaries_ db !! room with
    | Some row => negb (Bool.eqb (hidden_left row) left_)
    | None => false
    end in
  sums ← refresh_room_summary_display now room left_ (summaries_ db);
  let db := MkDb (tuples db) sums (epochs db) (epoch_seq db) (purge_intents db) (last_event db) in
  Some (if flips then next_epoch room db else db).

(** The whole operation when no statement fails: whether the tuple changed. *)
Definition upsert_room_state_with_redaction_and_purge (now : Z) (account_user : text)
    (s : RoomStateUpsert) (local_user : option text) (evidence : RoomStateRedaction)
    (purge_on_leave : bool) (db : Db) : option (Db * bool) :=
  let '(db, changed) := upsert_transaction s local_user evidence purge_on_leave db in
  if summary_display_state (u_type s) (u_key s) || own_membership local_user s
  then db ← refresh_display now account_user (u_room s) db; Some (db, changed)
  else Some (db, changed).

(** ** Repair and reads *)

(** [reconcile_redacted_room_state], and whether it changed the tuple. *)
Definition reconcile_redacted_room_state (s : RoomStateUpsert) (by_ : option text) (tbl : states)
    : states * bool :=
  match tbl !! tuple_of s with
  | None => (tbl, false)
  | Some old =>
      if bool_decide (event_id old = u_event s) &&
         (negb (bool_decide (redacted old = Some true)) || negb (bool_decide (content old = u_content s))
          || (bool_decide (redaction_event_id old = None) && bool_decide (is_Some by_)))
      then
        (<[tuple_of s := MkStateRow (event_id old) (sender old) (origin_ts old) (u_content s)
             (Some true) (coalesce (redaction_event_id old) by_)]> tbl, true)
      else (tbl, false)
  end.

(** The repair's transaction, which refreshes the room's summary too. *)
Definition repair_transaction (now : Z) (account_user : text) (s : RoomStateUpsert)
    (by_ : option text) (db : Db) : option (Db * bool) :=
  let '(tbl, changed) := reconcile_redacted_room_state s by_ (tuples db) in
  let db := set_tuples tbl db in
  if changed && summary_display_state (u_type s) (u_key s)
  then db ← refresh_display now account_user (u_room s) db; Some (db, changed)
  else Some (db, changed).

(** Whether [event] holds one of the singleton tuples of [types]. *)
Definition is_state_reconciliation_target (room event : text) (types : list text) (tbl : states)
    : bool :=
  existsb (fun ty => match tbl !! (room, ty, []) with
    | Some row => bool_decide (event_id row = event)
    | None => false
    end) types.

(** A stored redaction event of the room: its target and its raw event. *)
Record UnappliedStateRedaction := MkUnapplied {
  c_type : text;
  c_event : text;
  c_sender : text;
  c_ts : Z;
  c_content : option Jsonb;
  c_redaction : Jsonb;
}.

(** [octet_length(…::text)], and the order of the database's collation. *)
Context (octets : Jsonb -> Z) (before : relation text) `{!RelDecision before}.

Definition MAX_TUPLE_OCTETS : Z := 131072.
Definition MAX_REDACTION_OCTETS : Z := 65536.

(** [redactions]: the stored redaction events of the room in order of insertion,
    each with the event it targets.  [types] names no type twice. *)
Definition unapplied_room_state_redactions (room : text) (types : list text)
    (redactions : list (text * Jsonb)) (tbl : states) : list UnappliedStateRedaction :=
  omap (fun ty =>
    row ← tbl !! (room, ty, []);
    r ← list_find (fun e => e.1 = event_id row) redactions;
    if negb (bool_decide (redacted row = Some true))
       && (from_option octets 0 (content row) <=? MAX_TUPLE_OCTETS)
       && (octets r.2.2 <=? MAX_REDACTION_OCTETS)
    then Some (MkUnapplied ty (event_id row) (sender row) (origin_ts row) (content row) r.2.2)
    else None) (merge_sort (in_order before) types).

(** ** Redactions stick *)

(** A delivery of a state event, or a repair from its redacted form. *)
Inductive state_op :=
| Deliver (s : RoomStateUpsert) (evidence : RoomStateRedaction)
| Repair (s : RoomStateUpsert) (by_ : option text).

Definition op_upsert (o : state_op) : RoomStateUpsert :=
  match o with Deliver s _ | Repair s _ => s end.

(** Whether the operation knows the event's redacted form. *)
Definition redacts (o : state_op) : bool :=
  match o with Deliver _ Unknown => false | _ => true end.

Definition apply_state_op (tbl : states) (o : state_op) : states :=
  match o with
  | Deliver s evidence => (upsert_statement s evidence tbl).1
  | Repair s by_ => (reconcile_redacted_room_state s by_ tbl).1
  end.

(** Operations while the tuple [k] holds [event]. *)
Inductive holds (k : tuple) (event : text) : states -> list state_op -> states -> Prop :=
| holds_nil tbl : holds k event tbl [] tbl
| holds_cons tbl o ops row tbl' :
    apply_state_op tbl o !! k = Some row -> event_id row = event ->
    holds k event (apply_state_op tbl o) ops tbl' -> holds k event tbl (o :: ops) tbl'.

Lemma upsert_other s evidence tbl k :
  tuple_of s <> k -> (upsert_statement s evidence tbl).1 !! k = tbl !! k.
Proof.
  intros Hk. unfold upsert_statement. destruct (columns evidence) as [r b].
  destruct (tbl !! tuple_of s); [destruct (conflict_row _ _ _ _)|]; cbn;
    rewrite ?lookup_insert_ne by done; done.
Qed.

Lemma repair_other s by_ tbl k :
  tuple_of s <> k -> (reconcile_redacted_room_state s by_ tbl).1 !! k = tbl !! k.
Proof.
  intros Hk. unfold reconcile_redacted_room_state.
  destruct (tbl !! tuple_of s); [case_match|]; cbn; rewrite ?lookup_insert_ne by done; done.
Qed.

(** What one operation may do to a redacted tuple that keeps its event. *)
Definition keeps_redaction (o : state_op) (k : tuple) (old row : StateRow) : Prop :=
  redacted row = Some true /\ origin_ts old <= origin_ts row /\
  (is_Some (redaction_event_id old) -> redaction_event_id row = redaction_event_id old) /\
  (content row = content old \/
   (redacts o = true /\ tuple_of (op_upsert o) = k /\ u_event (op_upsert o) = event_id old /\
    content row = u_content (op_upsert o))).

Lemma keeps_same o k row : redacted row = Some true -> keeps_redaction o k row row.
Proof. intros H. split_and!; [done|lia|done|by left]. Qed.

Lemma deliver_keeps s evidence tbl k old row :
  tbl !! k = Some old -> redacted old = Some true ->
  (upsert_statement s evidence tbl).1 !! k = Some row -> event_id row = event_id old ->
  keeps_redaction (Deliver s evidence) k old row.
Proof.
  intros E Hr Hrow He. destruct (decide (tuple_of s = k)) as [<-|Hk].
  2: { rewrite (upsert_other _ _ _ _ Hk), E in Hrow. injection Hrow as <-. by apply keeps_same. }
  unfold upsert_statement in Hrow. destruct (columns evidence) as [r b] eqn:Ec. rewrite E in Hrow.
  unfold conflict_row in Hrow. destruct (u_ts s <? origin_ts old) eqn:Ht.
  { cbn in Hrow. rewrite E in Hrow. injection Hrow as <-. by apply keeps_same. }
  b2p. cbn [fst] in Hrow. rewrite lookup_insert, decide_True in Hrow by done.
  injection Hrow as <-. cbn in He.
  unfold keeps_redaction. cbn. rewrite (bool_decide_true (event_id old = u_event s)) by done.
  rewrite (bool_decide_true (redacted old = Some true)) by done. cbn.
  split_and!; [done|lia| |].
  - intros [x ->]. done.
  - case_bool_decide as Hn; cbn; [|by left]. right. split_and!; try done.
    destruct evidence; [|done]. by injection Ec as <- <-.
Qed.

Lemma repair_keeps s by_ tbl k old row :
  tbl !! k = Some old -> redacted old = Some true ->
  (reconcile_redacted_room_state s by_ tbl).1 !! k = Some row -> event_id row = event_id old ->
  keeps_redaction (Repair s by_) k old row.
Proof.
  intros E Hr Hrow He. destruct (decide (tuple_of s = k)) as [<-|Hk].
  2: { rewrite (repair_other _ _ _ _ Hk), E in Hrow. injection Hrow as <-. by apply keeps_same. }
  unfold reconcile_redacted_room_state in Hrow. rewrite E in Hrow.
  destruct (bool_decide (event_id old = u_event s)) eqn:Hs; cbn [andb] in Hrow.
  2: { cbn in Hrow. rewrite E in Hrow. injection Hrow as <-. by apply keeps_same. }
  apply bool_decide_eq_true in Hs.
  destruct (_ || _); cbn [fst] in Hrow.
  2: { rewrite E in Hrow. injection Hrow as <-. by apply keeps_same. }
  rewrite lookup_insert, decide_True in Hrow by done. injection Hrow as <-.
  unfold keeps_redaction. cbn. split_and!; [done|lia| |].
  - intros [x ->]. done.
  - right. split_and!; done.
Qed.

(** [C27] A redaction sticks.  As long as a state tuple keeps holding a redacted
    event, through any deliveries and repairs of any state, it stays redacted, its
    freshness never goes back, the first redaction named stays named, and its
    content is the one it had or one an operation brought that knew the event's
    redacted form: no replay of the original brings the content back. *)
Theorem redaction_sticks k event tbl ops tbl' row :
  holds k event tbl ops tbl' -> tbl !! k = Some row -> event_id row = event ->
  redacted row = Some true ->
  exists row', tbl' !! k = Some row' /\ event_id row' = event /\ redacted row' = Some true /\
    origin_ts row <= origin_ts row' /\
    (is_Some (redaction_event_id row) -> redaction_event_id row' = redaction_event_id row) /\
    (content row' = content row \/
     exists o, o ∈ ops /\ redacts o = true /\ tuple_of (op_upsert o) = k /\
       u_event (op_upsert o) = event /\ content row' = u_content (op_upsert o)).
Proof.
  intros H. revert row. induction H as [tbl|tbl o ops row1 tbl' E1 He1 H IH];
    intros row E He Hr.
  { exists row. split_and!; try done; by left. }
  assert (keeps_redaction o k row row1) as (Hr1 & Ht & Hb & Hc).
  { destruct o; [eapply deliver_keeps|eapply repair_keeps]; eauto; congruence. }
  destruct (IH row1 E1 He1 Hr1) as (row2 & E2 & He2 & Hr2 & Ht2 & Hb2 & Hc2).
  exists row2. split_and!; try done; [lia| |].
  - intros Hs. rewrite <- (Hb Hs). apply Hb2. by rewrite (Hb Hs).
  - destruct Hc2 as [Hc2|(o' & Ho' & ?)]; [|right; exists o'; split; [by right|done]].
    destruct Hc as [Hc|(? & ? & ? & Hc)]; [left; congruence|].
    right. exists o. split_and!; try done; [by left|congruence..].
Qed.

(** ** What an upsert reports *)

(** An upsert reports what it did.  It touches no other tuple; it reports a
    change exactly when the tuple's row is not what it was; a refused write leaves
    the table alone and was older than the stored event; an accepted one leaves
    the delivered event in the tuple, no older than before. *)
Theorem upsert_reports_changes s evidence tbl :
  let '(tbl', (written, changed)) := upsert_statement s evidence tbl in
  (forall k, k <> tuple_of s -> tbl' !! k = tbl !! k) /\
  (changed = true <-> tbl' !! tuple_of s <> tbl !! tuple_of s) /\
  (if written
   then exists row, tbl' !! tuple_of s = Some row /\ event_id row = u_event s /\
     origin_ts row = u_ts s /\ forall old, tbl !! tuple_of s = Some old -> origin_ts old <= u_ts s
   else tbl' = tbl /\ exists old, tbl !! tuple_of s = Some old /\ u_ts s < origin_ts old).
Proof.
  pose proof (fun k H => upsert_other s evidence tbl k H) as Ho. revert Ho.
  unfold upsert_statement. destruct (columns evidence) as [r b].
  destruct (tbl !! tuple_of s) as [old|] eqn:E.
  - destruct (conflict_row old s r b) as [row|] eqn:Ec; cbn; intros Ho.
    + split; [auto|]. rewrite lookup_insert, decide_True by done.
      unfold conflict_row in Ec. destruct (u_ts s <? origin_ts old) eqn:Ht; [done|]. b2p. split.
      { rewrite negb_true_iff, bool_decide_eq_false. split; congruence. }
      exists row. injection Ec as <-. split_and!; try done. by intros ? [= <-].
    + split; [auto|]. split; [by split|]. split; [done|]. exists old. split; [done|].
      unfold conflict_row in Ec. destruct (u_ts s <? origin_ts old) eqn:Ht; [|done]. by b2p.
  - intros Ho. cbn in Ho. split; [auto|]. rewrite lookup_insert, decide_True by done.
    split; [by split|]. eexists. split_and!; done.
Qed.

(** A repair only rewrites in place.  It inserts no tuple and touches no other;
    the tuple keeps its event, sender and freshness; a reported change is a real
    one, to a redacted row of that event; and the same repair again changes
    nothing. *)
Theorem repair_rewrites_in_place s by_ tbl :
  let '(tbl', changed) := reconcile_redacted_room_state s by_ tbl in
  dom tbl' = dom tbl /\ (forall k, k <> tuple_of s -> tbl' !! k = tbl !! k) /\
  (changed = true <-> tbl' <> tbl) /\
  (changed = true -> exists old row, tbl !! tuple_of s = Some old /\ tbl' !! tuple_of s = Some row /\
    event_id old = u_event s /\ redacted row = Some true /\ content row = u_content s /\
    (event_id row, sender row, origin_ts row) = (event_id old, sender old, origin_ts old)) /\
  reconcile_redacted_room_state s by_ tbl' = (tbl', false).
Proof.
  pose proof (fun k H => repair_other s by_ tbl k H) as Ho. revert Ho.
  unfold reconcile_redacted_room_state at 1 2. destruct (tbl !! tuple_of s) as [old|] eqn:E.
  2: { cbn. intros Ho. split_and!; try done. unfold reconcile_redacted_room_state. by rewrite E. }
  destruct (bool_decide (event_id old = u_event s) && _) eqn:Ec; cbn; intros Ho.
  2: { split_and!; try done. unfold reconcile_redacted_room_state. by rewrite E, Ec. }
  apply andb_true_iff in Ec as [He Ec]. apply bool_decide_eq_true in He.
  set (row := MkStateRow _ _ _ _ _ _).
  assert (row <> old) as Hne.
  { intros Eq. rewrite <- Eq in Ec. revert Ec. subst row. cbn.
    rewrite !bool_decide_true by done. cbn. intros [Hn Hs]%andb_true_iff.
    apply bool_decide_eq_true in Hn, Hs. destruct Hs as [? ->]. by destruct (redaction_event_id old). }
  split_and!.
  - rewrite dom_insert_L. apply elem_of_dom_2 in E. set_solver.
  - intros k Hk. by rewrite lookup_insert_ne.
  - split; [|done]. intros _ Eq. apply Hne. apply (f_equal (lookup (tuple_of s))) in Eq.
    rewrite lookup_insert, decide_True, E in Eq by done. congruence.
  - intros _. exists old, row. rewrite lookup_insert, decide_True by done. done.
  - unfold reconcile_redacted_room_state. rewrite lookup_insert, decide_True by done. subst row. cbn.
    rewrite He. rewrite !bool_decide_true by done. cbn.
    destruct (redaction_event_id old); cbn; [done|]. by destruct by_.
Qed.

(** ** A leave is fenced *)

(** Epochs come from the sequence, and rooms with a summary have one. *)
Definition epochs_ok (db : Db) : Prop :=
  map_Forall (fun _ e => e <= epoch_seq db) (epochs db) /\
  dom (epochs db) = dom (summaries_ db).

Lemma next_epoch_fields room db :
  tuples (next_epoch room db) = tuples db /\ summaries_ (next_epoch room db) = summaries_ db /\
  purge_intents (next_epoch room db) = purge_intents db /\
  last_event (next_epoch room db) = last_event db.
Proof. unfold next_epoch. by destruct (epochs db !! room). Qed.

Lemma next_epoch_ok room db : epochs_ok db -> epochs_ok (next_epoch room db).
Proof.
  intros [Hf Hd]. unfold next_epoch. destruct (epochs db !! room) eqn:E; [|done].
  split; cbn.
  - apply map_Forall_insert_2; [lia|]. eapply map_Forall_impl; [exact Hf|]. cbn. lia.
  - rewrite dom_insert_L, <- Hd. apply elem_of_dom_2 in E. set_solver.
Qed.

(** The epoch of [room] is beyond [n]. *)
Definition epoch_beyond (n : Z) (room : text) (db : Db) : Prop :=
  forall e, epochs db !! room = Some e -> n < e.

Lemma next_epoch_beyond n room db : n <= epoch_seq db -> epoch_beyond n room (next_epoch room db).
Proof.
  intros Hn e. unfold next_epoch. destruct (epochs db !! room) eqn:E; [|congruence].
  cbn. rewrite lookup_insert, decide_True by done. intros [= <-]. lia.
Qed.

Lemma next_epoch_keeps n room db :
  epochs_ok db -> epoch_beyond n room db -> epoch_beyond n room (next_epoch room db).
Proof.
  intros [Hf _] Hb e. unfold next_epoch. destruct (epochs db !! room) as [e0|] eqn:E; [|eauto].
  cbn. rewrite lookup_insert, decide_True by done. intros [= <-].
  specialize (Hb e0 E). specialize (Hf room e0 E). cbn in Hf. lia.
Qed.

Lemma refresh_left now room tbl tbl' :
  refresh_room_summary_display now room true tbl = Some tbl' ->
  forall gone, room_member_counts gone room tbl' = None /\
    forall row, tbl' !! room = Some row -> hidden_left row = true /\ joined_member_count row = None.
Proof.
  unfold refresh_room_summary_display. destruct (tbl !! room) as [row|] eqn:E.
  - intros (row' & -> & Hc & ->)%update_row_spec gone.
    set (new := clear_left_room_member_counts _ _ _).
    assert (hidden_left new = true /\ joined_member_count new = None) as [H1 H2].
    { unfold new, clear_left_room_member_counts. cbn. case_match eqn:Ho; [done|].
      apply orb_false_iff in Ho as [_ Ho]. apply bool_decide_eq_false in Ho. cbn.
      split; [done|]. destruct (joined_member_count row); [destruct Ho; eauto|done]. }
    split.
    + unfold room_member_counts. rewrite lookup_insert, decide_True by done. cbn. by rewrite H1.
    + rewrite lookup_insert, decide_True by done. by intros ? [= <-].
  - intros [= <-] gone. split; [unfold room_member_counts; by rewrite E|]. congruence.
Qed.

Lemma new_event_row s evidence tbl tbl' :
  upsert_statement s evidence tbl = (tbl', (true, true)) ->
  (forall old, tbl !! tuple_of s = Some old -> event_id old <> u_event s) ->
  exists row, tbl' !! tuple_of s = Some row /\ content row = u_content s.
Proof.
  unfold upsert_statement. destruct (columns evidence) as [r b]. intros H Hnew.
  destruct (tbl !! tuple_of s) as [old|] eqn:E.
  - unfold conflict_row in H. destruct (u_ts s <? origin_ts old); [done|].
    rewrite (bool_decide_false (event_id old = u_event s)) in H by eauto. cbn in H.
    injection H as <- _. eexists. by rewrite lookup_insert, decide_True.
  - injection H as <-. eexists. by rewrite lookup_insert, decide_True.
Qed.

Lemma purge_watermark_fields room db :
  tuples (room_purge_watermark true room db) = tuples db /\
  summaries_ (room_purge_watermark true room db) = summaries_ db /\
  epochs (room_purge_watermark true room db) = epochs db /\
  epoch_seq (room_purge_watermark true room db) = epoch_seq db /\
  exists t, purge_intents (room_purge_watermark true room db) !! room = Some t /\ last_event db <= t.
Proof.
  unfold room_purge_watermark. cbn. split_and!; try done. rewrite lookup_insert, decide_True by done.
  eexists. split; [done|]. destruct (purge_intents db !! room); lia.
Qed.

(** The transaction of a new departure of the account. *)
Lemma departure_transaction s user evidence purge db db1 :
  epochs_ok db -> is_local_departure (Some user) s = true ->
  (forall old, tuples db !! tuple_of s = Some old -> event_id old <> u_event s) ->
  upsert_transaction s (Some user) evidence purge db = (db1, true) ->
  left_room user (u_room s) (tuples db1) = true /\ summaries_ db1 = summaries_ db /\
  (purge = true -> exists t, purge_intents db1 !! u_room s = Some t /\ last_event db <= t) /\
  epoch_beyond (epoch_seq db) (u_room s) db1 /\ epochs_ok db1.
Proof.
  intros Hok Hd Hnew H. unfold upsert_transaction in H.
  destruct (upsert_statement s evidence (tuples db)) as [tbl [written changed]] eqn:Eu.
  assert (changed = true) as -> by (by destruct changed).
  assert (written = true) as ->.
  { pose proof (upsert_reports_changes s evidence (tuples db)) as Hu. rewrite Eu in Hu.
    destruct Hu as (_ & [Hc _] & Hw). destruct written; [done|]. destruct Hw as [-> _].
    by destruct (Hc eq_refl). }
  destruct (new_event_row _ _ _ _ Eu Hnew) as (row & Erow & Ec).
  rewrite Hd in H. unfold is_local_departure in Hd. apply andb_true_iff in Hd as [Hm Hdep].
  unfold own_membership in H. rewrite Hm in H. apply andb_true_iff in Hm as [Hty Hkey].
  apply bool_decide_eq_true in Hty, Hkey. injection Hkey as Hkey.
  assert (left_room user (u_room s) tbl = true) as Hleft.
  { unfold left_room. unfold tuple_of in Erow. rewrite Hty, <- Hkey in Erow. rewrite Erow. cbn.
    by rewrite Ec. }
  cbn [andb] in H. rewrite andb_true_r in H.
  set (db0 := set_tuples tbl db) in *.
  assert (epochs_ok db0) as Hok0 by done.
  set (db2 := if purge then room_purge_watermark true (u_room s) db0 else db0) in *.
  assert (tuples db2 = tbl /\ summaries_ db2 = summaries_ db /\ epochs_ok db2 /\
    epoch_seq db2 = epoch_seq db /\
    (purge = true -> exists t, purge_intents db2 !! u_room s = Some t /\ last_event db <= t))
    as (H1 & H2 & H3 & H4 & H5).
  { unfold db2. destruct purge; [|done].
    destruct (purge_watermark_fields (u_room s) db0) as (E1 & E2 & E3 & E4 & E5).
    split_and!; [done|done| |done|done]. unfold epochs_ok. by rewrite E2, E3, E4. }
  injection H as <-.
  destruct (next_epoch_fields (u_room s) db2) as (F1 & F2 & F3 & _).
  rewrite F1, F2, F3, H1, H2. split_and!; [done|done|done| |by apply next_epoch_ok].
  apply next_epoch_beyond. lia.
Qed.

(** [C33] A leave is fenced.  When a new leave or ban of the account commits with
    its refresh, the room reads as left, its member counts are gone and cannot be
    read, a purge that is due covers every event stored so far, and the room's
    membership epoch is beyond any that was ever handed out, so that nothing that
    started before can still count. *)
Theorem own_leave_is_fenced now user s evidence purge db db' :
  epochs_ok db -> is_local_departure (Some user) s = true ->
  (forall old, tuples db !! tuple_of s = Some old -> event_id old <> u_event s) ->
  upsert_room_state_with_redaction_and_purge now user s (Some user) evidence purge db
    = Some (db', true) ->
  left_room user (u_room s) (tuples db') = true /\
  (forall gone, room_member_counts gone (u_room s) (summaries_ db') = None) /\
  (forall row, summaries_ db' !! u_room s = Some row ->
    hidden_left row = true /\ joined_member_count row = None) /\
  (purge = true -> exists t, purge_intents db' !! u_room s = Some t /\ last_event db <= t) /\
  epoch_beyond (epoch_seq db) (u_room s) db' /\ epochs_ok db'.
Proof.
  intros Hok Hd Hnew H. unfold upsert_room_state_with_redaction_and_purge in H.
  destruct (upsert_transaction s (Some user) evidence purge db) as [db1 changed] eqn:Et.
  assert (own_membership (Some user) s = true) as Hown.
  { unfold is_local_departure in Hd. by apply andb_true_iff in Hd as [Hd _]. }
  rewrite Hown, orb_true_r in H.
  destruct (refresh_display now user (u_room s) db1) as [db2|] eqn:Er; [|done].
  cbn in H. injection H as -> ->.
  destruct (departure_transaction _ _ _ _ _ _ Hok Hd Hnew Et) as (Hl & Hs & Hp & Hb & Hok1).
  unfold refresh_display in Er. rewrite Hl in Er.
  destruct (refresh_room_summary_display now (u_room s) true (summaries_ db1)) as [sums|] eqn:Es;
    [|done]. cbn in Er. injection Er as <-.
  set (flips := match summaries_ db1 !! u_room s with Some row => _ | None => false end).
  set (db2 := MkDb (tuples db1) sums _ _ _ _).
  assert (epochs_ok db2) as Hok2.
  { destruct Hok1 as [Hf Hdom]. split; [done|]. cbn. rewrite Hdom.
    unfold refresh_room_summary_display in Es. destruct (summaries_ db1 !! u_room s) eqn:E;
      [|by injection Es as <-].
    apply update_row_spec in Es as (row & -> & _). rewrite dom_insert_L.
    apply elem_of_dom_2 in E. set_solver. }
  assert (exists db3, (if flips then next_epoch (u_room s) db2 else db2) = db3 /\
    tuples db3 = tuples db1 /\ summaries_ db3 = sums /\ purge_intents db3 = purge_intents db1 /\
    epoch_beyond (epoch_seq db) (u_room s) db3 /\ epochs_ok db3) as (db3 & -> & E1 & E2 & E3 & E4 & E5).
  { eexists. split; [done|]. destruct flips; [|done].
    destruct (next_epoch_fields (u_room s) db2) as (-> & -> & -> & _). split_and!; try done.
    - apply next_epoch_keeps; done.
    - by apply next_epoch_ok. }
  rewrite E1, E2, E3. pose proof (refresh_left _ _ _ _ Es) as Hr.
  split_and!; try done.
  - intros gone. apply Hr.
  - intros row. apply (Hr ∅).
Qed.
End RoomState.

(** ** Witnesses

    A content is just its membership. *)

Definition as_membership (k : text) (c : text) : option text :=
  if decide (k = t! "membership") then Some c else None.

Definition me : text := t! "@me".
Definition my_leave : RoomStateUpsert (Jsonb := text) :=
  MkUpsert a_room (t! "m.room.member") me (t! "$2") me 20 (Some (t! "leave")).
Definition joined_db : Db (Jsonb := text) :=
  {| tuples := {[(a_room, t! "m.room.member", me) :=
       MkStateRow (t! "$1") me 10 (Some (t! "join")) None None]};
     summaries_ := {[a_room := MkSummary false (Some 3) (Some 1) (Some 5) None]};
     epochs := {[a_room := 4]}; epoch_seq := 6; purge_intents := ∅; last_event := 9 |}.

Lemma joined_db_ok : epochs_ok joined_db.
Proof. split; [apply map_Forall_singleton; cbn; lia|by vm_compute]. Qed.

Lemma own_leave_is_fenced_witness :
  exists db', upsert_room_state_with_redaction_and_purge as_membership 30 me my_leave (Some me)
      Unknown true joined_db = Some (db', true) /\
    left_room as_membership me a_room (tuples db') = true /\ epoch_beyond 6 a_room db'.
Proof.
  assert (snd <$> upsert_room_state_with_redaction_and_purge as_membership 30 me my_leave
    (Some me) Unknown true joined_db = Some true) as Hc by (by vm_compute).
  destruct (upsert_room_state_with_redaction_and_purge as_membership 30 me my_leave (Some me)
    Unknown true joined_db) as [[db' c]|] eqn:E; [|done].
  injection Hc as ->. exists db'. split; [done|].
  destruct (own_leave_is_fenced as_membership 30 me my_leave Unknown true joined_db db')
    as (H1 & _ & _ & _ & H5 & _).
  - exact joined_db_ok.
  - by vm_compute.
  - intros old. cbn. rewrite lookup_singleton, decide_True by done. by intros [= <-].
  - exact E.
  - split; [exact H1|exact H5].
Defined.

(** The original is replayed over the redacted event. *)
Definition redacted_name : gmap (text * text * text) (StateRow (Jsonb := text)) :=
  {[(a_room, t! "m.room.name", []) :=
     MkStateRow (t! "$1") me 10 (Some []) (Some true) (Some (t! "$r"))]}.
Definition original_name : RoomStateUpsert (Jsonb := text) :=
  MkUpsert a_room (t! "m.room.name") [] (t! "$1") me 10 (Some (t! "secret")).

Lemma redaction_sticks_witness :
  let k := (a_room, t! "m.room.name", []) in
  exists row', apply_state_op redacted_name (Deliver original_name Unknown) !! k = Some row' /\
    redacted row' = Some true /\ origin_ts row' = 10.
Proof.
  intros k.
  set (row1 := MkStateRow (Jsonb := text) (t! "$1") me 10 (Some []) (Some true) (Some (t! "$r"))).
  assert (apply_state_op redacted_name (Deliver original_name Unknown) !! k = Some row1) as E
    by (by vm_compute).
  destruct (redaction_sticks k (t! "$1") redacted_name [Deliver original_name Unknown]
    (apply_state_op redacted_name (Deliver original_name Unknown)) row1)
    as (row' & E' & _ & Hr & _).
  - econstructor; [exact E|done|constructor].
  - by vm_compute.
  - done.
  - done.
  - exists row'. split; [exact E'|]. split; [exact Hr|].
    rewrite E in E'. by injection E' as <-.
Defined.
