(* ===== verification/StateProjection.v ===== *)
(** * Projecting and repairing room state

    Models how a state event reaches [room_state] and how a redaction that was
    missed is repaired: [persist_room_state_value] and [state_redaction_evidence]
    of [crates/axon-sync/src/engine.rs], and [crates/axon-sync/src/state_redaction.rs],
    whose worker sweeps the account's rooms ([RoomSweep]) and mirrors redacted
    forms into the table ([RoomState]).  ruma's parser, its [redact] and its power
    levels are parameters. *)

From stdpp Require Import base gmap sets list strings.
From Stdlib Require Import ZArith Lia.
From S2P Require Import Prelude Text Effects RoomSweep RoomSummaries RoomState MemberCounts.
Open Scope prog_scope.

Abbreviation Upsert := (RoomStateUpsert (Jsonb := json)).
Abbreviation Candidate := (UnappliedStateRedaction (Jsonb := json)).

(** ** Constants *)

Definition METADATA_STATE_TYPES : list text :=
  [t! "m.room.canonical_alias"; t! "m.room.create"; t! "m.room.join_rules";
   t! "m.room.encryption"; t! "m.room.power_levels"; t! "m.room.server_acl";
   t! "m.room.history_visibility"; t! "m.room.guest_access"].

Definition is_metadata_state (event_type state_key : text) : bool :=
  bool_decide (state_key = []) && bool_decide (event_type ∈ METADATA_STATE_TYPES).

Definition STATE_TYPES : list text :=
  [t! "m.room.canonical_alias"; t! "m.room.create"; t! "m.room.join_rules";
   t! "m.room.encryption"; t! "m.room.power_levels"; t! "m.room.server_acl";
   t! "m.room.history_visibility"; t! "m.room.guest_access"; t! "m.room.name";
   t! "m.room.topic"; t! "m.room.avatar"; t! "m.room.tombstone"].

Definition SUPPLEMENTARY_STATE_TYPES : list text := [t! "m.room.guest_access"; t! "m.room.server_acl"].

Definition MAX_CACHED_OCTETS : Z := 131072.

(** A typed state event, as far as the projection looks. *)
Record StateEvent := MkStateEvent {
  is_redacted : bool;
  ev_id : text;
  ev_sender : text;
  ev_ts : Z;
  ev_type : text;
}.

(** [saturating_i64]. *)
Definition saturating_i64 (z : Z) : Z := Z.min z i64_max.

Definition state_redaction_evidence (ev : StateEvent) (raw : json) : RoomStateRedaction :=
  if is_redacted ev
  then Redacted (((jget (t! "unsigned") raw ≫= jget (t! "redacted_because"))
    ≫= jget (t! "event_id")) ≫= as_str)
  else Unknown.

(** [value.get("membership").and_then(as_str)]. *)
Definition content_text (k : text) (c : json) : option text := jget k c ≫= as_str.

(** What the SDK's store holds of a singleton. *)
Inductive CachedRead := ReadFailed | ReadNone | ReadStripped | ReadSync (raw : text).

Inductive Cached := Missing | Unusable | CRedacted (ev : StateEvent) (value : json).

Inductive MpscRecv := MRoom (room : text) | MEmpty | MDisconnected.

Section Projection.
(** [serde_json::from_str], and ruma's reading of a state event from text and
    from a value. *)
Context (from_str : text -> option json).
Context (deserialize : text -> option StateEvent) (from_value : json -> option StateEvent).
(** The server name of a valid user id. *)
Context (server_name : text -> option text).
(** The SDK's room info with its version rules and creators, power levels, and
    ruma's canonical JSON and [redact]. *)
Context {Info Rules Creators Content Levels Canon : Type}.
Context (rules_of : Info -> Rules) (creators : Info -> option Creators).
Context (power_content : text -> option Content).
Context (power_levels_of : Content -> Rules -> Creators -> Levels).
Context (can_redact_others : Levels -> text -> bool).
Context (canonical : json -> option Canon) (redact : Canon -> Rules -> Canon -> option Canon).
Context (to_value : Canon -> option json).
Context (parse : text -> option text).
(** The account. *)
Context (purge_on_leave : bool) (local_user : text).

(** What the code asks of its environment.  An await under a deadline or a
    cancellation has an [awaited] answer; a store call answers [None] when it
    failed. *)
Inductive PQuestion :=
| PSweep (q : SweepQuestion)
| PTick
| PTryRecv
| PHashOrder (rooms : gset text)
| PRoomState (room : text)
| PUpsert (s : Upsert) (evidence : RoomStateRedaction)
| PMark (room : text)
| PTrySend (room : text)
| PIsTarget (room event : text)
| PStateEvent (room ty : text)
| PUnapplied (room : text) (types : list text)
| PRoomInfo (room : text)
| PPowerEvent (room : text)
| PReconcile (s : Upsert) (by_ : option text).

Definition panswer (q : PQuestion) : Type :=
  match q with
  | PSweep q => sanswer q
  | PTick => bool
  | PTryRecv => MpscRecv
  | PHashOrder _ => list text
  | PRoomState _ => option MemberCounts.RoomState
  | PUpsert _ _ => option bool
  | PMark _ | PTrySend _ => unit
  | PIsTarget _ _ => awaited (option bool)
  | PStateEvent _ _ => awaited CachedRead
  | PUnapplied _ _ => awaited (option (list Candidate))
  | PRoomInfo _ => awaited (option Info)
  | PPowerEvent _ => awaited (option text)
  | PReconcile _ _ => awaited (option bool)
  end.

Abbreviation pprog := (prog panswer).

#[export] Instance sweep_in_projection : Embeds sanswer panswer := {
  inj := PSweep;
  Effects.out q x := x;
  back q x := x;
  back_out q x := eq_refl;
}.

Definition ask_p (q : PQuestion) : pprog (panswer q) := ask (ans := panswer) q.

(** Going on unless the await was cut. *)
Definition and_then {A B} (p : pprog (awaited A)) (f : A -> pprog (awaited B)) : pprog (awaited B) :=
  let! r := p in
  match r with Ready a => f a | Deadline => Ret Deadline | Cancelled => Ret Cancelled end.

(** ** What the SDK holds *)

Definition read_cached (r : CachedRead) : Cached :=
  match r with
  | ReadFailed | ReadStripped => Unusable
  | ReadNone => Missing
  | ReadSync raw =>
      if utf8_len raw >? MAX_CACHED_OCTETS then Unusable
      else
        match deserialize raw with
        | None => Unusable
        | Some ev =>
            if negb (is_redacted ev) then Unusable
            else match from_str raw with Some value => CRedacted ev value | None => Unusable end
        end
  end.

Definition cached_state (room ty : text) : pprog (awaited Cached) :=
  let! r := ask_p (PStateEvent room ty) in
  Ret match r with
    | Ready r => Ready (read_cached r)
    | Deadline => Deadline
    | Cancelled => Cancelled
    end.

(** ** Hints *)

Definition queue_redaction_hint (room target : text) : pprog unit :=
  let! r := ask_p (PIsTarget room target) in
  match r with
  | Ready (Some false) => Ret tt
  | _ => ask_p (PTrySend room)
  end.

Definition queue_state_hint (room ty event : text) : pprog unit :=
  let! r := cached_state room ty in
  match r with
  | Ready (CRedacted ev _) => if decide (ev_id ev = event) then ask_p (PTrySend room) else Ret tt
  | _ => Ret tt
  end.

(** ** A state event arrives *)

Definition or_text (o : option text) (d : text) : text := default d o.

Definition upsert_of (ev : StateEvent) (raw : json) (room : text) : Upsert :=
  MkUpsert room (or_text (jget (t! "type") raw ≫= as_str) (t! "unknown"))
    (or_text (jget (t! "state_key") raw ≫= as_str) []) (ev_id ev) (ev_sender ev)
    (saturating_i64 (ev_ts ev)) (jget (t! "content") raw).

Definition skip_departed (s : option MemberCounts.RoomState) : bool :=
  match s with
  | Some s => purge_on_leave && (bool_decide (s = Left) || bool_decide (s = Banned))
  | None => false
  end.

Definition mark_if (b : bool) (room : text) : pprog unit :=
  if b then ask_p (PMark room) else Ret tt.

Definition persist_room_state_value (ev : StateEvent) (raw : json) (room : text) : pprog unit :=
  let s := upsert_of ev raw room in
  let evidence := state_redaction_evidence ev raw in
  let store :=
    let! r := ask_p (PUpsert s evidence) in
    let! _ := mark_if (match r with
      | Some changed => changed && is_metadata_state (u_type s) (u_key s)
      | None => false
      end) room in
    if negb (is_redacted ev) && bool_decide (u_type s ∈ STATE_TYPES)
    then queue_state_hint room (u_type s) (ev_id ev)
    else Ret tt in
  if is_local_departure content_text (Some local_user) s then store
  else
    let! st := ask_p (PRoomState room) in
    if skip_departed st then Ret tt else store.

(** ** Repair *)

Definition redaction_authorized (redaction : json) (target_sender : text) (levels : option Levels)
    : bool :=
  match jget (t! "sender") redaction ≫= as_str with
  | None => false
  | Some sender =>
      match server_name sender with
      | None => false
      | Some server =>
          bool_decide (server_name target_sender = Some server) ||
          match levels with Some l => can_redact_others l sender | None => false end
      end
  end.

(** The stored tuple as an event again. *)
Definition event_of (c : Candidate) (content : json) : json :=
  JObj [(t! "type", JStr (c_type c)); (t! "state_key", JStr []); (t! "event_id", JStr (c_event c));
    (t! "sender", JStr (c_sender c)); (t! "origin_server_ts", JInt (c_ts c));
    (t! "content", content)].

Definition redact_stored (c : Candidate) (rules : Rules) : option (StateEvent * json) :=
  content ← c_content c;
  event ← canonical (event_of c content);
  because ← canonical (c_redaction c);
  redacted ← redact event rules because;
  value ← to_value redacted;
  ev ← from_value value;
  Some (ev, value).

Definition power_levels (room : text) (info : Info) (rules : Rules) : pprog (awaited (option Levels)) :=
  and_then (ask_p (PPowerEvent room)) (fun raw =>
    Ret (Ready (
      raw ← raw;
      content ← power_content raw;
      cs ← creators info;
      Some (power_levels_of content rules cs)))).

Definition applicable (rules : Rules) (levels : option Levels) (c : Candidate)
    : option (StateEvent * json) :=
  if redaction_authorized (c_redaction c) (c_sender c) levels then redact_stored c rules else None.

Definition locally_redacted_state (room : text) (types : list text)
    : pprog (awaited (list (StateEvent * json))) :=
  and_then (ask_p (PUnapplied room types)) (fun r =>
    match r with
    | None | Some [] => Ret (Ready [])
    | Some candidates =>
        and_then (ask_p (PRoomInfo room)) (fun info =>
          match info with
          | None => Ret (Ready [])
          | Some info =>
              let rules := rules_of info in
              and_then (power_levels room info rules) (fun levels =>
                Ret (Ready (omap (applicable rules levels) candidates)))
          end)
    end).

Definition repair_of (room ty : text) (ev : StateEvent) (value : json) : Upsert :=
  MkUpsert room ty [] (ev_id ev) (ev_sender ev) (saturating_i64 (ev_ts ev)) (jget (t! "content") value).

Definition apply (room ty : text) (ev : StateEvent) (value : json) : pprog (awaited unit) :=
  match state_redaction_evidence ev value with
  | Unknown => Ret (Ready tt)
  | Redacted by_ =>
      and_then (ask_p (PReconcile (repair_of room ty ev value) by_)) (fun r =>
        let! _ := mark_if (bool_decide (r = Some true) && is_metadata_state ty []) room in
        Ret (Ready tt))
  end.

(** The first loop of [reconcile_room]: the types the SDK never held. *)
Fixpoint reconcile_cached (room : text) (types : list text) : pprog (awaited (list text)) :=
  match types with
  | [] => Ret (Ready [])
  | ty :: types =>
      and_then (cached_state room ty) (fun c =>
        match c with
        | CRedacted ev value => and_then (apply room ty ev value) (fun _ => reconcile_cached room types)
        | Missing =>
            and_then (reconcile_cached room types) (fun missing =>
              Ret (Ready (if bool_decide (ty ∈ SUPPLEMENTARY_STATE_TYPES)
                          then ty :: missing else missing)))
        | Unusable => reconcile_cached room types
        end)
  end.

Fixpoint apply_all (room : text) (l : list (StateEvent * json)) : pprog (awaited unit) :=
  match l with
  | [] => Ret (Ready tt)
  | (ev, value) :: l => and_then (apply room (ev_type ev) ev value) (fun _ => apply_all room l)
  end.

Definition reconcile_room (room : text) : pprog (awaited unit) :=
  and_then (reconcile_cached room STATE_TYPES) (fun missing =>
    match missing with
    | [] => Ret (Ready tt)
    | _ => and_then (locally_redacted_state room missing) (apply_all room)
    end).

(** ** The worker *)

Definition receive_hint : pprog HintRead :=
  let! r := ask_p PTryRecv in
  Ret match r with MRoom room => Room room | MEmpty => Empty | MDisconnected => Closed end.

(** [false] when cancelled. *)
Fixpoint repair_rooms (rooms : list text) : pprog bool :=
  match rooms with
  | [] => Ret true
  | room :: rooms =>
      let! cancelled := ask_p (PSweep IsCancelled) in
      if cancelled then Ret false
      else
        let! st := ask_p (PRoomState room) in
        if bool_decide (st = Some Joined) then
          let! r := reconcile_room room in
          match r with Cancelled => Ret false | _ => repair_rooms rooms end
        else repair_rooms rooms
  end.

(** [n] ticks of the worker. *)
Fixpoint repair_loop (n : nat) (s : RoomSweep) : pprog unit :=
  match n with
  | O => Ret tt
  | S n =>
      let! cancelled := ask_p PTick in
      if cancelled then Ret tt
      else
        let! p := lift (page parse s) in
        match p with
        | (None, _) => Ret tt
        | (Some rows, s) =>
            let! batch := take_hints receive_hint in
            let! order := ask_p (PHashOrder (list_to_set rows ∪ rooms batch)) in
            let! go_on := repair_rooms order in
            if go_on then repair_loop n s else Ret tt
        end
  end.

Definition repair_watch (n : nat) : pprog unit := let! s := lift new in repair_loop n s.

(** ** Repairs are redactions *)

Abbreviation ptrace := (list (event panswer)).
Abbreviation pev := (ev (ans := panswer)).
Abbreviation last_asked h l := (exists h0 : ptrace, h = h0 ++ l).

(** The SDK just returned a redacted form that fits and parses. *)
Definition sdk_redacted (h : ptrace) (s : Upsert) (by_ : option text) : Prop :=
  exists raw ev value,
    last_asked h [pev (PStateEvent (u_room s) (u_type s)) (Ready (ReadSync raw))] /\
    utf8_len raw <= MAX_CACHED_OCTETS /\ deserialize raw = Some ev /\ is_redacted ev = true /\
    from_str raw = Some value /\ s = repair_of (u_room s) (u_type s) ev value /\
    Redacted by_ = state_redaction_evidence ev value.

(** The power levels the SDK's cache gave for [room], if any. *)
Definition levels_read (h : ptrace) (room : text) (info : Info) (levels : option Levels) : Prop :=
  forall l, levels = Some l -> exists raw content cs,
    pev (PPowerEvent room) (Ready (Some raw)) ∈ h /\ power_content raw = Some content /\
    creators info = Some cs /\ l = power_levels_of content (rules_of info) cs.

(** The redaction's sender is a user, on the server of the target's sender or with
    the power to redact others. *)
Definition authorized (redaction : json) (target_sender : text) (levels : option Levels) : Prop :=
  exists sender server,
    jget (t! "sender") redaction ≫= as_str = Some sender /\ server_name sender = Some server /\
    (server_name target_sender = Some server \/
     exists l, levels = Some l /\ can_redact_others l sender = true).

(** A stored redaction of the stored tuple, authorized, gives this form. *)
Definition stored_redaction (h : ptrace) (room : text) (ev : StateEvent) (value : json) : Prop :=
  exists types cs c info levels,
    pev (PUnapplied room types) (Ready (Some cs)) ∈ h /\ c ∈ cs /\
    pev (PRoomInfo room) (Ready (Some info)) ∈ h /\ levels_read h room info levels /\
    authorized (c_redaction c) (c_sender c) levels /\
    redact_stored c (rules_of info) = Some (ev, value).

Definition locally_redacted (h : ptrace) (s : Upsert) (by_ : option text) : Prop :=
  exists ev value, stored_redaction h (u_room s) ev value /\ is_redacted ev = true /\
    s = repair_of (u_room s) (ev_type ev) ev value /\
    Redacted by_ = state_redaction_evidence ev value.

Definition repair_allowed (q : PQuestion) (h : ptrace) : Prop :=
  match q with
  | PReconcile s by_ => sdk_redacted h s by_ \/ locally_redacted h s by_
  | PMark room => exists s by_,
      last_asked h [pev (PReconcile s by_) (Ready (Some true))] /\ u_room s = room /\
      is_metadata_state (u_type s) [] = true
  | PStateEvent _ ty => ty ∈ STATE_TYPES
  | PUpsert _ _ | PTrySend _ | PIsTarget _ _ => False
  | _ => True
  end.

Abbreviation pwp p h := (wp repair_allowed p h (fun _ _ => True)).

Lemma pwp_bind {A B} (p : pprog A) (f : A -> pprog B) h :
  pwp p h -> (forall a h', pwp (f a) h') -> pwp (bind p f) h.
Proof. intros Hp Hf. apply wp_bind. eapply wp_mono; [exact Hp|]. cbn. auto. Qed.

Lemma pwp_then {A B} (p : pprog (awaited A)) (f : A -> pprog (awaited B)) h :
  pwp p h -> (forall a h', pwp (f a) h') -> pwp (and_then p f) h.
Proof. intros Hp Hf. apply pwp_bind; [done|]. intros [a| |] h'; [apply Hf|done|done]. Qed.

Lemma pwp_lift {A} (p : sprog A) h : pwp (lift (ans2 := panswer) p) h.
Proof.
  rewrite <- (app_nil_r h). change (@nil (event panswer)) with (map (inj_event (ans2 := panswer)) []).
  apply wp_lift. apply wp_any; done.
Qed.

Lemma pwp_mark b room h :
  (b = true -> repair_allowed (PMark room) h) -> pwp (mark_if b room) h.
Proof. unfold mark_if. destruct b; [|done]. intros H. split; [by apply H|done]. Qed.

Lemma pwp_apply room ty ev value h :
  (forall by_, state_redaction_evidence ev value = Redacted by_ ->
    repair_allowed (PReconcile (repair_of room ty ev value) by_) h) ->
  pwp (apply room ty ev value) h.
Proof.
  intros Ha. unfold apply. destruct (state_redaction_evidence ev value) as [|by_] eqn:E; [done|].
  unfold and_then. apply wp_bind. split; [by apply Ha|]. intros [r| |]; [|done|done].
  apply pwp_bind; [|done]. apply pwp_mark. intros [Hr Hm]%andb_true_iff.
  apply bool_decide_eq_true in Hr as ->. exists (repair_of room ty ev value), by_.
  split; [by exists h|done].
Qed.

Lemma evidence_redacted ev value by_ :
  state_redaction_evidence ev value = Redacted by_ -> is_redacted ev = true.
Proof. unfold state_redaction_evidence. by destruct (is_redacted ev). Qed.

Lemma read_cached_spec r ev value :
  read_cached r = CRedacted ev value ->
  exists raw, r = ReadSync raw /\ utf8_len raw <= MAX_CACHED_OCTETS /\ deserialize raw = Some ev /\
    is_redacted ev = true /\ from_str raw = Some value.
Proof.
  destruct r as [| | |raw]; try done. cbn.
  destruct (utf8_len raw >? MAX_CACHED_OCTETS) eqn:Hl; [done|].
  destruct (deserialize raw) as [ev'|] eqn:Hd; [|done].
  destruct (is_redacted ev') eqn:Hr; cbn; [|done].
  destruct (from_str raw) as [v|] eqn:Hv; [|done]. intros [= <- <-]. exists raw.
  rewrite Z.gtb_ltb in Hl. apply Z.ltb_ge in Hl. split_and!; try done.
Qed.

Lemma pwp_cached room types h :
  (forall ty, ty ∈ types -> ty ∈ STATE_TYPES) -> pwp (reconcile_cached room types) h.
Proof.
  revert h. induction types as [|ty types IH]; intros h Hin; [done|].
  assert (forall h, pwp (reconcile_cached room types) h) as IH'.
  { intros h'. apply IH. intros ty' ?. apply Hin. by right. }
  cbn [reconcile_cached]. unfold and_then at 1. apply wp_bind. unfold cached_state.
  apply wp_bind. split; [apply Hin; by left|]. intros [r| |]; [|done|done]. cbn.
  destruct (read_cached r) as [| |ev value] eqn:Er; [|apply IH'|].
  - apply pwp_then; [apply IH'|done].
  - apply pwp_then; [|intros; apply IH']. apply pwp_apply. intros by_ He. left.
    apply read_cached_spec in Er as (raw & -> & ?&?&?&?). exists raw, ev, value. cbn.
    split_and!; try done. by exists h.
Qed.

Lemma authorized_spec redaction target levels :
  redaction_authorized redaction target levels = true -> authorized redaction target levels.
Proof.
  unfold redaction_authorized, authorized.
  destruct (jget (t! "sender") redaction ≫= as_str) as [sender|]; [|done].
  destruct (server_name sender) as [server|] eqn:Hs; [|done].
  intros [Ht%bool_decide_eq_true|Hl]%orb_true_iff; exists sender, server; [eauto|].
  split_and!; [done|done|]. right. destruct levels as [l|]; [eauto|done].
Qed.

Lemma stored_redaction_mono h l room ev value :
  stored_redaction h room ev value -> stored_redaction (h ++ l) room ev value.
Proof.
  intros (types & cs & c & info & levels & H1 & H2 & H3 & H4 & H5 & H6).
  exists types, cs, c, info, levels. split_and!; try done; try (apply elem_of_app; by left).
  intros lv Hlv. destruct (H4 lv Hlv) as (raw & content & cr & H & ?). exists raw, content, cr.
  split; [apply elem_of_app; by left|done].
Qed.

(** Histories grow. *)
Lemma wp_grows {A} req (p : pprog A) h (P : A -> ptrace -> Prop) :
  wp req p h P -> wp req p h (fun a h' => P a h' /\ exists l, h' = h ++ l).
Proof.
  revert h. induction p as [a|q k IH]; intros h; cbn.
  - intros H. split; [done|]. exists []. by rewrite app_nil_r.
  - intros [Hq Hk]. split; [done|]. intros x. eapply wp_mono; [apply IH, Hk|].
    intros a h' [HP [l ->]]. split; [done|]. eexists. by rewrite <- app_assoc.
Qed.

Lemma pwp_apply_all room l h :
  Forall (fun p => stored_redaction h room p.1 p.2) l -> pwp (apply_all room l) h.
Proof.
  revert h. induction l as [|[ev value] l IH]; intros h Hl; [done|].
  apply Forall_cons in Hl as [Hh Hl]. cbn [apply_all]. unfold and_then. apply wp_bind.
  eapply wp_mono.
  - apply wp_grows, pwp_apply. intros by_ He. right. exists ev, value. cbn.
    split_and!; try done. by eapply evidence_redacted.
  - cbn. intros [[]| |] h' [_ [l' ->]]; [|done|done]. apply IH.
    eapply Forall_impl; [exact Hl|]. cbn. intros p. apply stored_redaction_mono.
Qed.

Lemma pwp_reconcile_room room h : pwp (reconcile_room room) h.
Proof.
  unfold reconcile_room. apply pwp_then; [by apply pwp_cached|].
  clear h. intros missing h. destruct missing as [|ty missing]; [done|].
  generalize (ty :: missing). clear ty missing. intros missing.
  unfold locally_redacted_state, and_then at 1. apply wp_bind. unfold and_then at 1.
  apply wp_bind. split; [done|]. intros [[[|c cs]|]| |]; try done.
  unfold and_then at 1. apply wp_bind. split; [done|]. intros [[info|]| |]; try done.
  unfold and_then at 1. apply wp_bind. unfold power_levels, and_then. apply wp_bind.
  split; [done|]. intros [raw| |]; [|done|done]. cbn [wp].
  set (levels := raw ≫= _). apply pwp_apply_all, Forall_forall.
  intros [ev value] (c' & Hc & Hap)%list_elem_of_omap. unfold applicable in Hap.
  destruct (redaction_authorized _ _ levels) eqn:Ha; [|done].
  exists missing, (c :: cs), c', info, levels. cbn [fst snd].
  split_and!; [|done| | |by apply authorized_spec|done].
  - rewrite !elem_of_app. left; left; right. by left.
  - rewrite !elem_of_app. left; right. by left.
  - intros l Hl. unfold levels in Hl. destruct raw as [raw|]; [|done]. cbn in Hl.
    destruct (power_content raw) as [content|] eqn:Ec; [|done]. cbn in Hl.
    destruct (creators info) as [cr|] eqn:Ecr; [|done]. cbn in Hl. injection Hl as <-.
    exists raw, content, cr. split_and!; try done. apply elem_of_app. right. by left.
Qed.

Lemma pwp_repair_rooms rooms h : pwp (repair_rooms rooms) h.
Proof.
  revert h. induction rooms as [|room rooms IH]; intros h; [done|]. cbn [repair_rooms].
  apply wp_bind. split; [done|]. intros []; [done|]. apply wp_bind. split; [done|]. intros st.
  cbn [wp]. case_bool_decide; [|apply IH]. apply pwp_bind; [apply pwp_reconcile_room|].
  intros [?| |] h'; [apply IH|apply IH|done].
Qed.

Lemma pwp_take_hints h : pwp (take_hints receive_hint) h.
Proof.
  unfold take_hints. generalize MAX_RECEIVES no_hints. intros n b. revert b h.
  induction n as [|n IH]; intros b h; [done|]. cbn [take_hints_loop].
  destruct (decide _); [done|]. unfold receive_hint. apply wp_bind, wp_bind. split; [done|].
  intros [room| |]; try done. apply IH.
Qed.

Lemma pwp_repair_watch n h : pwp (repair_watch n) h.
Proof.
  unfold repair_watch. apply pwp_bind; [apply pwp_lift|]. clear h. intros s h. revert s h.
  induction n as [|n IH]; intros s h; [done|]. cbn [repair_loop].
  apply wp_bind. split; [done|]. intros []; [done|]. apply pwp_bind; [apply pwp_lift|].
  intros [[rows|] s'] h'; [|done]. apply pwp_bind; [apply pwp_take_hints|]. intros batch h''.
  apply wp_bind. split; [done|]. intros order. apply pwp_bind; [apply pwp_repair_rooms|].
  intros [] h3; [apply IH|done].
Qed.

(** Only redactions are mirrored.  Whatever hints, pages, failures and
    cancellations the repair worker meets, cut at any await: it rewrites a tuple
    only with the redacted form the SDK holds of it, of at most 128 KiB, or with
    the form a stored redaction of that tuple gives under the room's version
    rules, and then only if the redaction's sender is on the server of the tuple's
    sender or has the power to redact others by the room's current power levels;
    it announces a metadata change only right after a repair that changed
    something; and it never inserts state or queues hints to itself. *)
Theorem repairs_are_redactions n t t1 q x t2 :
  cut_run (repair_watch n) t -> t = t1 ++ pev q x :: t2 -> repair_allowed q t1.
Proof.
  intros Hr E. exact (wp_cut_run repair_allowed _ [] _ _ _ _ _ _ (pwp_repair_watch n []) Hr E).
Qed.

(** ** Deliveries are projected faithfully *)

(** The SDK holds the delivered event in redacted form. *)
Definition pruned_behind (h : ptrace) (ev : StateEvent) (room ty : text) : Prop :=
  exists raw ev',
    last_asked h [pev (PStateEvent room ty) (Ready (ReadSync raw))] /\
    deserialize raw = Some ev' /\ is_redacted ev' = true /\ ev_id ev' = ev_id ev.

Definition delivery_allowed (ev : StateEvent) (raw : json) (room : text) (q : PQuestion) (h : ptrace)
    : Prop :=
  let s := upsert_of ev raw room in
  match q with
  | PRoomState r => r = room
  | PUpsert s' e =>
      s' = s /\ e = state_redaction_evidence ev raw /\
      (is_local_departure content_text (Some local_user) s = true \/
       exists st, last_asked h [pev (PRoomState room) st] /\
         (purge_on_leave = true -> st <> Some Left /\ st <> Some Banned))
  | PMark r =>
      r = room /\ is_metadata_state (u_type s) (u_key s) = true /\
      last_asked h [pev (PUpsert s (state_redaction_evidence ev raw)) (Some true)]
  | PStateEvent r ty => r = room /\ ty = u_type s /\ ty ∈ STATE_TYPES /\ is_redacted ev = false
  | PTrySend r => r = room /\ is_redacted ev = false /\ pruned_behind h ev room (u_type s)
  | _ => False
  end.

Lemma skip_departed_false st :
  skip_departed st = false -> purge_on_leave = true -> st <> Some Left /\ st <> Some Banned.
Proof. intros H Hp. unfold skip_departed in H. rewrite Hp in H. by destruct st as [[]|]. Qed.

Lemma delivery_stores ev raw room h :
  delivery_allowed ev raw room (PUpsert (upsert_of ev raw room) (state_redaction_evidence ev raw)) h ->
  wp (delivery_allowed ev raw room)
    (let! r := ask_p (PUpsert (upsert_of ev raw room) (state_redaction_evidence ev raw)) in
     let! _ := mark_if (match r with
       | Some changed => changed && is_metadata_state (u_type (upsert_of ev raw room)) (u_key (upsert_of ev raw room))
       | None => false
       end) room in
     if negb (is_redacted ev) && bool_decide (u_type (upsert_of ev raw room) ∈ STATE_TYPES)
     then queue_state_hint room (u_type (upsert_of ev raw room)) (ev_id ev)
     else Ret tt) h (fun _ _ => True).
Proof.
  intros Ha. set (s := upsert_of ev raw room) in *.
  apply wp_bind. split; [exact Ha|]. intros r. cbn [wp]. apply wp_bind.
  eapply wp_mono with (P := fun _ _ => True).
  - unfold mark_if. destruct r as [changed|]; [|done].
    destruct (changed && _) eqn:E; [|done]. apply andb_true_iff in E as [-> E].
    split; [|done]. split_and!; [done|exact E|]. by exists h.
  - clear. intros [] h _. destruct (negb (is_redacted ev) && _) eqn:E; [|done].
    apply andb_true_iff in E as [E1 E2]. b2p. apply bool_decide_eq_true in E2.
    unfold queue_state_hint. apply wp_bind. unfold cached_state. apply wp_bind.
    split; [by split_and!|]. intros [r| |]; [|done|done]. cbn [wp].
    destruct (read_cached r) as [| |ev' value] eqn:Er; [done|done|].
    destruct (decide _); [|done]. split; [|done]. split_and!; [done|done|].
    apply read_cached_spec in Er as (raw' & -> & _ & ? & ? & _). exists raw', ev'.
    split_and!; try done. by exists h.
Qed.

Lemma delivery_wp ev raw room h :
  wp (delivery_allowed ev raw room) (persist_room_state_value ev raw room) h (fun _ _ => True).
Proof.
  unfold persist_room_state_value.
  destruct (is_local_departure content_text (Some local_user) (upsert_of ev raw room)) eqn:Hd.
  - apply delivery_stores. split_and!; [done|done|by left].
  - apply wp_bind. split; [done|]. intros st. cbn [wp].
    destruct (skip_departed st) eqn:Hs; [done|]. apply delivery_stores.
    split_and!; [done|done|]. right. exists st. split; [by exists h|].
    by apply skip_departed_false.
Qed.

(** A delivery is projected as it came.  Storing a state event writes one
    tuple, the one its raw JSON names, with the raw content, the typed identity,
    and redaction evidence exactly when the typed event is redacted; a room the
    account has left is skipped when departed rooms are purged, unless the event
    is that departure itself; a metadata change is announced only after a write
    that changed the tuple; and a repair is asked for only when the SDK holds this
    very event in redacted form. *)
Theorem deliveries_are_faithful ev raw room t t1 q x t2 :
  cut_run (persist_room_state_value ev raw room) t -> t = t1 ++ pev q x :: t2 ->
  delivery_allowed ev raw room q t1.
Proof.
  intros Hr E.
  exact (wp_cut_run (delivery_allowed ev raw room) _ [] _ _ _ _ _ _ (delivery_wp ev raw room []) Hr E).
Qed.
End Projection.

(** ** Witnesses

    An SDK that holds every singleton redacted, in rooms that parse as they are. *)

Definition pruned (raw : text) : option StateEvent :=
  Some (MkStateEvent true raw me 5 (t! "m.room.name")).
Definition pruned_value (raw : text) : option json := Some (JObj [(t! "content", JObj [])]).

Abbreviation toy_answer := (panswer (Info := unit)).

Definition pruned_room (h : list (event toy_answer)) (q : PQuestion) : toy_answer q :=
  match q with
  | PSweep q =>
      match q with IsCancelled => false | Now => 0 | SelectPage _ => Ready (Some [a_room]) end
  | PTick => false
  | PTryRecv => MEmpty
  | PHashOrder _ => [a_room]
  | PRoomState _ => Some Joined
  | PUpsert _ _ => Some true
  | PMark _ | PTrySend _ => tt
  | PIsTarget _ _ => Ready None
  | PStateEvent _ _ => Ready (ReadSync (t! "$1"))
  | PUnapplied _ _ => Ready None
  | PRoomInfo _ => Ready None
  | PPowerEvent _ => Ready None
  | PReconcile _ _ => Ready (Some true)
  end.


Definition toy_watch (n : nat) : prog toy_answer unit :=
  repair_watch pruned_value pruned (fun _ => None) Some (Info := unit) (Rules := unit)
    (Creators := unit) (Content := unit) (Levels := unit) (Canon := unit)
    id Some (fun _ => None) (fun _ _ => id) (fun _ _ => false) (fun _ => None)
    (fun _ _ _ => None) (fun _ => None) Some n.

(** The first repair of the first room. *)
Definition first_repair : Upsert :=
  repair_of a_room (t! "m.room.canonical_alias") (MkStateEvent true (t! "$1") me 5 (t! "m.room.name"))
    (JObj [(t! "content", JObj [])]).

Lemma repairs_are_redactions_witness :
  exists t1 t2,
    cut_run (toy_watch 1) (t1 ++ ev (ans := toy_answer) (PReconcile first_repair None) (Ready (Some true)) :: t2) /\
    u_event first_repair = t! "$1".
Proof.
  set (t := (exec pruned_room [] (toy_watch 1)).1).
  assert (exists t1 t2,
    t = t1 ++ ev (ans := toy_answer) (PReconcile first_repair None) (Ready (Some true)) :: t2)
    as (t1 & t2 & E).
  { exists (take 11 t), (drop 12 t). by vm_compute. }
  assert (cut_run (toy_watch 1)
    (t1 ++ ev (ans := toy_answer) (PReconcile first_repair None) (Ready (Some true)) :: t2)) as Hc.
  { rewrite <- E. eapply cut_runs, exec_runs. }
  exists t1, t2. split; [exact Hc|].
  destruct (repairs_are_redactions _ _ _ _ _ _ _ _ _ _ _ _ _ 1 _ t1 _ _ t2 Hc eq_refl)
    as [H|H]; reflexivity.
Defined.

(** A name event arrives in a joined room. *)
Definition name_event : StateEvent := MkStateEvent false (t! "$1") me 5 (t! "m.room.name").
Definition name_json : json :=
  JObj [(t! "type", JStr (t! "m.room.name")); (t! "state_key", JStr []); (t! "content", JObj [])].

Lemma deliveries_are_faithful_witness :
  exists t1 t2,
    cut_run (persist_room_state_value (Info := unit) pruned_value pruned true me name_event name_json a_room)
      (t1 ++ ev (ans := toy_answer) (PTrySend a_room) tt :: t2) /\
    is_redacted name_event = false.
Proof.
  set (p := persist_room_state_value (Info := unit) pruned_value pruned true me name_event name_json a_room).
  set (t := (exec pruned_room [] p).1).
  assert (exists t1 t2, t = t1 ++ ev (ans := toy_answer) (PTrySend a_room) tt :: t2) as (t1 & t2 & E).
  { exists (take 3 t), (drop 4 t). by vm_compute. }
  assert (cut_run p (t1 ++ ev (ans := toy_answer) (PTrySend a_room) tt :: t2)) as Hc.
  { rewrite <- E. eapply cut_runs, exec_runs. }
  exists t1, t2. split; [exact Hc|].
  destruct (deliveries_are_faithful pruned_value pruned true me name_event name_json a_room
    _ t1 _ _ t2 Hc eq_refl) as (_ & H & _). exact H.
Defined.
