(* ===== verification/SupplementaryState.v ===== *)
(** * The supplementary state connection

    Models [crates/axon-sync/src/supplementary_state.rs]: an isolated sliding-sync
    connection for state the primary sync does not request.  Its worker long-polls
    through the homeserver gate ([HomeserverGate]) and hands allowlisted events to
    the projection ([StateProjection], through [Embeds]). *)

From stdpp Require Import base gmap sets list strings.
From Stdlib Require Import ZArith Lia.
From S2P Require Import Prelude Text Effects RoomSweep RoomSummaries RoomState MemberCounts.
From S2P Require Import StateProjection.
From S2P Require HomeserverGate.
Open Scope prog_scope.

(** ** Required state *)

Definition REQUIRED_STATE : list (text * text) :=
  [(t! "m.room.image_pack", t! "*"); (t! "im.ponies.room_emotes", t! "*");
   (t! "m.space.parent", t! "*"); (t! "m.space.child", t! "*"); (t! "m.room.create", []);
   (t! "m.room.power_levels", []); (t! "m.room.member", t! "$ME");
   (t! "m.room.guest_access", []); (t! "m.room.server_acl", [])].

Definition allowed_state (kind key local_user : text) : bool :=
  existsb (fun '(allowed, state_key) =>
    bool_decide (kind = allowed) &&
    (bool_decide (state_key = t! "*") || bool_decide (key = state_key) ||
     (bool_decide (state_key = t! "$ME") && bool_decide (key = local_user)))) REQUIRED_STATE.

Definition REQUEST_TIMEOUT : Z := secs 90.
Definition POLL_TIMEOUT : Z := secs 30.
Definition FIRST_RANGE : Z := 99.
Definition RANGE_STEP : Z := 100.
Definition FIRST_BACKOFF : Z := secs 2.
Definition MAX_BACKOFF : Z := secs 60.
Definition PACE : Z := secs 1.
Definition u32_max : Z := 2 ^ 32 - 1.

(** A request, as far as it varies: the position and the end of the list range. *)
Record Request := MkRequest { req_pos : option text; req_range_end : Z }.

(** A response: its position, the raw required state of each room, and the count
    of the list if it was answered. *)
Record Response := MkResponse {
  resp_pos : text;
  resp_rooms : list (text * list text);
  resp_count : option Z;
}.

(** A failed poll: whether the homeserver forgot the position, and what the error
    tells the gate. *)
Record PollError := MkPollError { unknown_pos : bool; err_outcome : HomeserverGate.Outcome }.

Section Supplementary.
Context (from_str : text -> option json).
Context (deserialize : text -> option StateEvent) (from_value : json -> option StateEvent).
Context {Info : Type} (purge_on_leave : bool) (local_user : text).

(** [value["content"]["via"] = []] on an object with an object content. *)
Definition set_key (k : text) (v : json) (o : json) : json :=
  match o with
  | JObj entries => JObj (filter (fun e => e.1 <> k) entries ++ [(k, v)])
  | _ => o
  end.

Definition with_via (value : json) : json :=
  match jget (t! "content") value with
  | Some content => set_key (t! "content") (set_key (t! "via") (JArr []) content) value
  | None => value
  end.

Definition is_relationship (value : json) : bool :=
  match jget (t! "type") value ≫= as_str with
  | Some ty => bool_decide (ty = t! "m.space.parent") || bool_decide (ty = t! "m.space.child")
  | None => false
  end.

Definition missing_via (value : json) : bool :=
  match jget (t! "content") value ≫= as_object with
  | Some content => bool_decide (t! "via" ∉ map fst content)
  | None => false
  end.

(** The typed event with the untouched value. *)
Definition decode_state_event (raw : text) : option (StateEvent * json) :=
  value ← from_str raw;
  match deserialize raw with
  | Some event => Some (event, value)
  | None =>
      if is_relationship value && missing_via value
      then event ← from_value (with_via value); Some (event, value)
      else None
  end.

(** ** The worker's questions *)

Inductive SQuestion :=
| SProject (q : PQuestion)
| SLongPoll
| SPoll (r : Request)
| SFinish (o : HomeserverGate.Outcome)
| SSleep (d : Z).

(** [SLongPoll] answers [false] when cancelled; [SPoll] runs under the outer
    timeout and the cancellation; a sleep answers whether it was cancelled. *)
Definition squestion_answer (q : SQuestion) : Type :=
  match q with
  | SProject q => panswer (Info := Info) q
  | SLongPoll => bool
  | SPoll _ => awaited (sum PollError Response)
  | SFinish _ => unit
  | SSleep _ => bool
  end.

Abbreviation sprog_ := (prog squestion_answer).

#[export] Instance projection_in_supplementary :
    Embeds (panswer (Info := Info)) squestion_answer := {
  inj := SProject;
  Effects.out q x := x;
  back q x := x;
  back_out q x := eq_refl;
}.

Definition ask_s (q : SQuestion) : sprog_ (squestion_answer q) := ask (ans := squestion_answer) q.

(** What becomes of one raw event. *)
Definition accepted (raw : text) : option (StateEvent * json) :=
  '(event, value) ← decode_state_event raw;
  kind ← jget (t! "type") value ≫= as_str;
  if allowed_state kind (default [] (jget (t! "state_key") value ≫= as_str)) local_user
  then Some (event, value) else None.

Fixpoint consume_events (room : text) (events : list text) : sprog_ unit :=
  match events with
  | [] => Ret tt
  | raw :: events =>
      match accepted raw with
      | Some (event, value) =>
          let! _ := lift (persist_room_state_value from_str deserialize purge_on_leave local_user
            event value room) in
          consume_events room events
      | None => consume_events room events
      end
  end.

Fixpoint consume (rooms : list (text * list text)) : sprog_ unit :=
  match rooms with
  | [] => Ret tt
  | (room, events) :: rooms =>
      let! _ := consume_events room events in consume rooms
  end.

(** ** The transport *)

Record Transport := MkTransport { pos : option text; range_end : Z; backoff : Z }.

Definition fresh_transport : Transport := MkTransport None FIRST_RANGE FIRST_BACKOFF.

Definition next_range (range_end : Z) (count : option Z) : Z :=
  match count with
  | Some c => Z.min (Z.min u32_max (range_end + RANGE_STEP)) (Z.max 0 (Z.min c u32_max - 1))
  | None => range_end
  end.

(** After a poll: the state, and how long to sleep. *)
Definition after_response (r : Response) (s : Transport) : Transport * Z :=
  (MkTransport (Some (resp_pos r)) (next_range (range_end s) (resp_count r)) FIRST_BACKOFF, PACE).

Definition after_failure (reset : bool) (s : Transport) : Transport * Z :=
  (MkTransport (if reset then None else pos s) (if reset then FIRST_RANGE else range_end s)
     (Z.min (dur_saturating_mul (backoff s) 2) MAX_BACKOFF), backoff s).

Definition outcome (r : option (sum PollError Response)) : HomeserverGate.Outcome :=
  match r with
  | None => HomeserverGate.TimedOut
  | Some (inr _) => HomeserverGate.Success
  | Some (inl e) => err_outcome e
  end.

(** [n] rounds.  A cancellation while a response is consumed drops that future:
    such a run is a run cut there. *)
Fixpoint transport (n : nat) (s : Transport) : sprog_ unit :=
  match n with
  | O => Ret tt
  | S n =>
      let! granted := ask_s SLongPoll in
      if negb granted then Ret tt
      else
        let! r := ask_s (SPoll (MkRequest (pos s) (range_end s))) in
        match (match r with Ready x => Some (Some x) | Deadline => Some None | Cancelled => None end)
        with
        | None => Ret tt
        | Some result =>
            let! _ := ask_s (SFinish (outcome result)) in
            match result with
            | Some (inr response) =>
                let '(s, d) := after_response response s in
                let! _ := consume (resp_rooms response) in
                let! cancelled := ask_s (SSleep d) in
                if cancelled then Ret tt else transport n s
            | Some (inl e) =>
                let '(s, d) := after_failure (unknown_pos e) s in
                let! cancelled := ask_s (SSleep d) in
                if cancelled then Ret tt else transport n s
            | None =>
                let '(s, d) := after_failure false s in
                let! cancelled := ask_s (SSleep d) in
                if cancelled then Ret tt else transport n s
            end
        end
  end.

Definition run (n : nat) : sprog_ unit := transport n fresh_transport.

(** ** What the worker asks *)

Abbreviation strace := (list (event squestion_answer)).
Abbreviation sev := (ev (ans := squestion_answer)).
Abbreviation last_asked h l := (exists h0 : strace, h = h0 ++ l).

(** The ended polls of a history, the latest first; [None] is the timeout. *)
Definition poll_of (e : event squestion_answer) : option (option (sum PollError Response)) :=
  match e with
  | existT q x =>
      match q return squestion_answer q -> option (option (sum PollError Response)) with
      | SPoll _ => fun r => match r with Ready y => Some (Some y) | Deadline => Some None | Cancelled => None end
      | _ => fun _ => None
      end x
  end.

Definition polls (h : strace) : list (option (sum PollError Response)) := rev (omap poll_of h).

(** The position of the latest response, unless the homeserver forgot it since. *)
Fixpoint position (l : list (option (sum PollError Response))) : option text :=
  match l with
  | [] => None
  | Some (inr r) :: _ => Some (resp_pos r)
  | Some (inl e) :: l => if unknown_pos e then None else position l
  | None :: l => position l
  end.

(** The failures since the latest response. *)
Fixpoint failures (l : list (option (sum PollError Response))) : nat :=
  match l with
  | [] => 0
  | Some (inr _) :: _ => 0
  | _ :: l => S (failures l)
  end.

Definition backoff_of (k : nat) : Z := secs (Z.min (2 ^ (Z.of_nat k + 1)) 60).

(** The sleep due after the polls [l]: a second after a response, else two seconds
    doubled for every earlier failure in a row, at most a minute. *)
Definition sleep_due (l : list (option (sum PollError Response))) : Z :=
  match failures l with O => PACE | S k => backoff_of k end.

Definition supplementary_allowed (q : SQuestion) (h : strace) : Prop :=
  match q with
  | SProject (PUpsert s _) => allowed_state (u_type s) (u_key s) local_user = true
  | SProject (PReconcile _ _) => False
  | SLongPoll => h = [] \/ exists d, last_asked h [sev (SSleep d) false]
  | SPoll r =>
      last_asked h [sev SLongPoll true] /\ req_pos r = position (polls h) /\
      0 <= req_range_end r <= u32_max
  | SFinish o => exists r x, last_asked h [sev (SPoll r) x] /\
      match x with
      | Ready (inr _) => o = HomeserverGate.Success
      | Ready (inl e) => o = err_outcome e
      | Deadline => o = HomeserverGate.TimedOut
      | Cancelled => False
      end
  | SSleep d => d = sleep_due (polls h)
  | _ => True
  end.

Abbreviation swp_ p h := (wp supplementary_allowed p h (fun _ _ => True)).

(** The transport's state is what the history says. *)
Definition tracks (h : strace) (s : Transport) : Prop :=
  pos s = position (polls h) /\ backoff s = backoff_of (failures (polls h)) /\
  0 <= range_end s <= u32_max.

Lemma polls_snoc h e : polls (h ++ [e]) = option_list (poll_of e) ++ polls h.
Proof. unfold polls. rewrite omap_app, rev_app_distr. cbn. by destruct (poll_of e). Qed.

Lemma polls_app h l : Forall (fun e => poll_of e = None) l -> polls (h ++ l) = polls h.
Proof.
  intros Hl. revert h. induction Hl as [|e l He Hl IH]; intros h; [by rewrite app_nil_r|].
  rewrite (cons_middle e), app_assoc, IH, polls_snoc, He. done.
Qed.

Lemma backoff_doubles k :
  Z.min (dur_saturating_mul (backoff_of k) 2) MAX_BACKOFF = backoff_of (S k).
Proof.
  unfold backoff_of, dur_saturating_mul, MAX_BACKOFF, secs, dur_max, nanos_per_sec, u64_max.
  rewrite Nat2Z.inj_succ. replace (Z.succ (Z.of_nat k) + 1) with (Z.succ (Z.of_nat k + 1)) by lia.
  rewrite Z.pow_succ_r by lia. pose proof (Z.pow_pos_nonneg 2 (Z.of_nat k + 1)). lia.
Qed.

Lemma backoff_first : FIRST_BACKOFF = backoff_of 0.
Proof. reflexivity. Qed.

Lemma next_range_bounds e c : 0 <= e <= u32_max -> 0 <= next_range e c <= u32_max.
Proof. unfold next_range, RANGE_STEP, u32_max. destruct c; lia. Qed.

Lemma swp_bind_ {A B} (p : sprog_ A) (f : A -> sprog_ B) h :
  swp_ p h -> (forall a h', swp_ (f a) h') -> swp_ (bind p f) h.
Proof. intros Hp Hf. apply wp_bind. eapply wp_mono; [exact Hp|]. cbn. auto. Qed.

Lemma accepted_allowed raw event value :
  accepted raw = Some (event, value) -> forall room,
  allowed_state (u_type (upsert_of event value room)) (u_key (upsert_of event value room)) local_user
    = true.
Proof.
  unfold accepted. destruct (decode_state_event raw) as [[e v]|]; [|done]. cbn.
  destruct (jget (t! "type") v ≫= as_str) as [kind|] eqn:Ek; [|done]. cbn.
  match goal with |- context [if ?b then _ else _] => destruct b eqn:Ea; [|done] end.
  intros [= <- <-] room.
  unfold upsert_of, or_text. cbn. by rewrite Ek.
Qed.

(** A program whose questions are all projections adds no poll. *)
Lemma project_only {A} (p : prog (panswer (Info := Info)) A) h (P : A -> strace -> Prop) :
  wp (fun q _ => supplementary_allowed (SProject q) []) p [] (fun _ _ => True) ->
  (forall a l, Forall (fun e => poll_of e = None) l -> P a (h ++ l)) ->
  wp supplementary_allowed (lift p) h P.
Proof.
  intros Hp HP. rewrite <- (app_nil_r h).
  change (@nil (event squestion_answer)) with (map (inj_event (ans2 := squestion_answer)) []).
  apply wp_lift. generalize dependent (@nil (event (panswer (Info := Info)))).
  induction p as [a|q k IH]; intros h1 Hp; cbn.
  - apply HP. apply Forall_forall. intros e (e0 & -> & _)%list_elem_of_fmap. by destruct e0.
  - destruct Hp as [Hq Hk]. split; [|intros x; apply IH, Hk].
    by destruct q.
Qed.

Lemma persist_project ev value room h (P : unit -> strace -> Prop) :
  allowed_state (u_type (upsert_of ev value room)) (u_key (upsert_of ev value room)) local_user = true ->
  (forall l, Forall (fun e => poll_of e = None) l -> P tt (h ++ l)) ->
  wp supplementary_allowed
    (lift (persist_room_state_value from_str deserialize purge_on_leave local_user ev value room)) h P.
Proof.
  intros Ha HP. apply project_only; [|intros []; apply HP].
  eapply wp_req_mono; [|apply delivery_wp]. intros q h' Hd.
  destruct q; try done. cbn in Hd. by destruct Hd as (-> & _).
Qed.

Lemma consume_spec resps h (P : unit -> strace -> Prop) :
  (forall l, Forall (fun e => poll_of e = None) l -> P tt (h ++ l)) ->
  wp supplementary_allowed (consume resps) h P.
Proof.
  revert h. induction resps as [|[room events] resps IH]; intros h HP; cbn [consume].
  { rewrite <- (app_nil_r h). apply HP. constructor. }
  apply wp_bind. assert (forall l, Forall (fun e => poll_of e = None) l ->
    wp supplementary_allowed (consume resps) (h ++ l) P) as Hrest.
  { intros l Hl. apply IH. intros l' Hl'. rewrite <- app_assoc. apply HP. by apply Forall_app. }
  clear IH HP. revert h Hrest. induction events as [|raw events IH]; intros h Hrest; cbn [consume_events].
  { cbn. rewrite <- (app_nil_r h). apply Hrest. constructor. }
  destruct (accepted raw) as [[ev value]|] eqn:Ea; [|by apply IH].
  apply wp_bind, persist_project; [by eapply accepted_allowed|].
  intros l Hl. apply IH. intros l' Hl'. rewrite <- app_assoc. apply Hrest. by apply Forall_app.
Qed.

Lemma swp_sleep n s h d :
  (forall h, tracks h s -> (h = [] \/ exists d, last_asked h [sev (SSleep d) false]) ->
    swp_ (transport n s) h) ->
  tracks h s -> d = sleep_due (polls h) ->
  swp_ (let! cancelled := ask_s (SSleep d) in if cancelled then Ret tt else transport n s) h.
Proof.
  intros IH Ht Hd. split; [exact Hd|]. intros []; [done|]. apply IH; [|right; exists d; by exists h].
  unfold tracks in *. by rewrite polls_snoc.
Qed.

Lemma swp_transport n s h :
  tracks h s -> (h = [] \/ exists d, last_asked h [sev (SSleep d) false]) ->
  swp_ (transport n s) h.
Proof.
  revert s h. induction n as [|n IH]; intros s h (Hp & Hb & Hr) Hh; [done|]. cbn [transport].
  apply wp_ask; [exact Hh|]. intros []; [|done]. cbn [negb].
  apply wp_ask.
  { split; [by exists h|]. cbn. rewrite polls_snoc. done. }
  intros x. set (h1 := (h ++ _) ++ _).
  assert (forall o, poll_of (sev (SFinish o) tt) = None) as Hfin by done.
  assert (forall y, x = y -> polls h1 = option_list (poll_of (sev (SPoll (MkRequest (pos s) (range_end s))) y)) ++ polls h) as Hpolls.
  { intros y <-. unfold h1. rewrite !polls_snoc. done. }
  assert (last_asked h1 [sev (SPoll (MkRequest (pos s) (range_end s))) x]) as Hlast
    by (by eexists).
  clearbody h1. destruct x as [[e|r]| |]; [| | |done].
  - apply wp_ask; [by eexists _, _|]. intros []. cbn [after_failure].
    specialize (Hpolls _ eq_refl). cbn in Hpolls.
    apply swp_sleep; [intros h2; apply IH| |].
    + unfold tracks. rewrite polls_snoc. cbn. rewrite Hpolls. cbn. rewrite Hb, backoff_doubles.
      split_and!; [by destruct (unknown_pos e)|done|..]; destruct (unknown_pos e); unfold FIRST_RANGE, u32_max in *; lia.
    + rewrite polls_snoc. cbn. rewrite Hpolls. cbn. by rewrite Hb.
  - apply wp_ask; [by eexists _, _|]. intros []. cbn [after_response].
    specialize (Hpolls _ eq_refl). cbn in Hpolls. apply wp_bind, consume_spec. intros l Hl.
    assert (polls ((h1 ++ [sev (SFinish (outcome (Some (inr r)))) tt]) ++ l) = Some (inr r) :: polls h)
      as Hpl by (by rewrite (polls_app _ _ Hl), polls_snoc, Hpolls).
    apply swp_sleep; [intros h2; apply IH| |].
    + unfold tracks. rewrite Hpl. cbn. split_and!; [done|by rewrite backoff_first|..];
        by apply next_range_bounds.
    + rewrite Hpl. done.
  - apply wp_ask; [by eexists _, _|]. intros []. cbn [after_failure].
    specialize (Hpolls _ eq_refl). cbn in Hpolls.
    apply swp_sleep; [intros h2; apply IH| |].
    + unfold tracks. rewrite polls_snoc. cbn. rewrite Hpolls. cbn. rewrite Hb, backoff_doubles. done.
    + rewrite polls_snoc. cbn. rewrite Hpolls. cbn. by rewrite Hb.
Qed.

(** The supplementary connection is paced and keeps to its list.  In every
    run, cut anywhere: a poll is sent only right after the gate granted it, from
    the position of the latest response (none once the homeserver forgot it), for
    a range within 32 bits; each ended poll is reported to the gate as it ended;
    the next grant is asked only after a sleep, of a second after a response and
    of two seconds doubled per failure in a row up to a minute; and only the
    required state types, the account's own membership among them, are stored. *)
Theorem supplementary_is_paced n t t1 q x t2 :
  cut_run (run n) t -> t = t1 ++ sev q x :: t2 -> supplementary_allowed q t1.
Proof.
  intros Hr E. eapply (wp_cut_run supplementary_allowed _ [] (fun _ _ => True) _ t1);
    [|exact Hr|exact E].
  apply swp_transport; [|by left]. split_and!; try done.
Qed.
End Supplementary.

(** ** Witness

    Two polls that time out. *)

Abbreviation toy_sanswer := (squestion_answer (Info := unit)).

Definition silent_server (h : list (event toy_sanswer)) (q : SQuestion) : toy_sanswer q :=
  match q with
  | SProject q => pruned_room [] q
  | SLongPoll => true
  | SPoll _ => Deadline
  | SFinish _ => tt
  | SSleep _ => false
  end.

Definition toy_run (n : nat) : prog toy_sanswer unit :=
  run pruned_value pruned (fun _ => None) true me n.

Lemma supplementary_is_paced_witness :
  exists t1 t2, cut_run (toy_run 2) (t1 ++ ev (ans := toy_sanswer) (SSleep (secs 4)) false :: t2) /\
    secs 4 = sleep_due (polls (Info := unit) t1).
Proof.
  set (t := (exec silent_server [] (toy_run 2)).1).
  assert (exists t1 t2, t = t1 ++ ev (ans := toy_sanswer) (SSleep (secs 4)) false :: t2)
    as (t1 & t2 & E).
  { exists (take 7 t), (drop 8 t). by vm_compute. }
  assert (cut_run (toy_run 2) (t1 ++ ev (ans := toy_sanswer) (SSleep (secs 4)) false :: t2)) as Hc.
  { rewrite <- E. eapply cut_runs, exec_runs. }
  exists t1, t2. split; [exact Hc|].
  exact (supplementary_is_paced pruned_value pruned (fun _ => None) true me 2 _ t1 _ _ t2 Hc eq_refl).
Defined.
