(* ===== verification/Credentials.v ===== *)
(** * The credential store

    Models what decides who may sign in to an instance: bearer tokens
    ([crates/axon-store/src/tokens.rs]), refresh tokens with rotation and reuse
    detection ([oauth_refresh_tokens.rs]), bound identities and their removal
    ([oauth_identities.rs]), the push registrations that hang on a session
    ([push.rs]), authorization requests, bind requests and native challenges
    ([oauth_authorization_requests.rs], [oauth_bind_requests.rs],
    [oauth_native.rs]).  Each operation is one committed transaction, a function
    on the tables; [None] is a violated constraint, which rolls back.  Times are
    nanoseconds.  A token is known by its hash: SHA-256 is not modelled. *)

From stdpp Require Import base gmap sets list strings.
From Stdlib Require Import ZArith Lia.
From S2P Require Import Prelude Text.

(** ** Rows *)

Record Token := MkToken {
  t_label : text;
  t_hash : text;
  created_at : Z;
  last_used_at : option Z;
  revoked_at : option Z;
  expires_at : option Z;
  t_provider : option text;
  oauth_identity_id : option uuid;
  client_id : option text;
  created_by_token_id : option uuid;
  authenticated_at : option Z;
  session_id : uuid;
}.

Record RefreshToken := MkRefresh {
  r_hash : text;
  r_identity : uuid;
  r_client : text;
  r_expires_at : Z;
  r_revoked_at : option Z;
  r_replaced_by : option uuid;
  r_authenticated_at : option Z;
  r_session : uuid;
}.

Record OauthIdentity := MkIdentity { i_provider : text; i_subject : text; i_email : option text }.

Record PushRegistration := MkPush {
  p_session : uuid;
  p_token_id : uuid;
  p_provider : text;
  p_token : text;
  p_environment : option text;
  p_disclosure : text;
  p_badge : bool;
}.

Inductive RequestStatus := Pending | CodeIssued | Redeemed | Lapsed.
#[export] Instance RequestStatus_eq_dec : EqDecision RequestStatus.
Proof. solve_decision. Defined.

Record AuthorizationRequest := MkRequest {
  a_client : text;
  a_redirect_uri : text;
  a_challenge : text;
  a_method : text;
  a_client_state : option text;
  a_provider : text;
  a_upstream_state : text;
  a_upstream_nonce : text;
  a_expires_at : Z;
  a_status : RequestStatus;
  a_identity : option uuid;
  a_code_hash : option text;
  a_authenticated_at : option Z;
}.

Inductive BindStatus := BindPending | BindCompleted | BindExpired.
#[export] Instance BindStatus_eq_dec : EqDecision BindStatus.
Proof. solve_decision. Defined.

Record BindRequest := MkBind {
  b_user_code : text;
  b_provider : text;
  b_status : BindStatus;
  b_expires_at : Z;
  b_identity : option uuid;
  b_nonce : option text;
}.

Record NativeChallenge := MkChallenge {
  c_purpose : text;
  c_client : text;
  c_instance : text;
  c_nonce : text;
  c_authority : option text;
}.

#[export] Instance NativeChallenge_eq_dec : EqDecision NativeChallenge.
Proof. solve_decision. Defined.

(** The tables.  A native challenge is keyed by its hash and has an expiry;
    [has_accounts]: the account table is not empty. *)
Record Db := MkDb {
  tokens : gmap uuid Token;
  refresh_tokens : gmap uuid RefreshToken;
  identities : gmap uuid OauthIdentity;
  registrations : gmap uuid PushRegistration;
  requests : gmap uuid AuthorizationRequest;
  binds : gmap uuid BindRequest;
  challenges : gmap text (NativeChallenge * Z);
  consumed : gset (text * text);
  has_accounts : bool;
}.

Definition set_tokens (x : gmap uuid Token) (d : Db) : Db :=
  MkDb x (refresh_tokens d) (identities d) (registrations d) (requests d) (binds d)
    (challenges d) (consumed d) (has_accounts d).
Definition set_refresh (x : gmap uuid RefreshToken) (d : Db) : Db :=
  MkDb (tokens d) x (identities d) (registrations d) (requests d) (binds d)
    (challenges d) (consumed d) (has_accounts d).
Definition set_identities (x : gmap uuid OauthIdentity) (d : Db) : Db :=
  MkDb (tokens d) (refresh_tokens d) x (registrations d) (requests d) (binds d)
    (challenges d) (consumed d) (has_accounts d).
Definition set_registrations (x : gmap uuid PushRegistration) (d : Db) : Db :=
  MkDb (tokens d) (refresh_tokens d) (identities d) x (requests d) (binds d)
    (challenges d) (consumed d) (has_accounts d).
Definition set_requests (x : gmap uuid AuthorizationRequest) (d : Db) : Db :=
  MkDb (tokens d) (refresh_tokens d) (identities d) (registrations d) x (binds d)
    (challenges d) (consumed d) (has_accounts d).
Definition set_binds (x : gmap uuid BindRequest) (d : Db) : Db :=
  MkDb (tokens d) (refresh_tokens d) (identities d) (registrations d) (requests d) x
    (challenges d) (consumed d) (has_accounts d).
Definition set_challenges (x : gmap text (NativeChallenge * Z)) (d : Db) : Db :=
  MkDb (tokens d) (refresh_tokens d) (identities d) (registrations d) (requests d) (binds d)
    x (consumed d) (has_accounts d).
Definition set_consumed (x : gset (text * text)) (d : Db) : Db :=
  MkDb (tokens d) (refresh_tokens d) (identities d) (registrations d) (requests d) (binds d)
    (challenges d) x (has_accounts d).

(** ** Statements on a table *)

Section Table.
Context {K A : Type} `{!EqDecision K, !Countable K}.
Implicit Types (m : gmap K A) (P : A -> bool).

(** [EXISTS (SELECT … WHERE P)]. *)
Definition any_row P m : bool := existsb (fun e => P e.2) (map_to_list m).

(** The row [P] selects, when it selects at most one. *)
Definition find_row P m : option (K * A) := head (filter (fun e => P e.2) (map_to_list m)).

Definition update_where P (f : A -> A) m : gmap K A := (fun a => if P a then f a else a) <$> m.

Definition delete_where P m : gmap K A := filter (fun e => P e.2 = false) m.

(** What [P] selects of a table, through [f]. *)
Definition select_where {B} P (f : A -> B) m : list B :=
  f <$> filter (fun a => P a) (snd <$> map_to_list m).

Definition count_where P m : Z := Z.of_nat (length (filter (fun e => P e.2) (map_to_list m))).

Lemma any_row_true P m : any_row P m = true <-> exists k a, m !! k = Some a /\ P a = true.
Proof.
  unfold any_row. rewrite existsb_exists. split.
  - intros ([k a] & Hin%list_elem_of_In & HP). exists k, a. split; [|done].
    by apply elem_of_map_to_list.
  - intros (k & a & Hk & HP). exists (k, a). split; [|done].
    by apply list_elem_of_In, elem_of_map_to_list.
Qed.

Lemma any_row_false P m : any_row P m = false <-> forall k a, m !! k = Some a -> P a = false.
Proof.
  rewrite <- not_true_iff_false, any_row_true. split.
  - intros H k a Hk. destruct (P a) eqn:E; [|done]. destruct H. eauto.
  - intros H (k & a & Hk & HP). by rewrite (H k a Hk) in HP.
Qed.

Lemma find_row_Some P m k a : find_row P m = Some (k, a) -> m !! k = Some a /\ P a = true.
Proof.
  unfold find_row. intros H. apply head_Some_elem_of, list_elem_of_filter in H as [HP Hin].
  apply elem_of_map_to_list in Hin. split; [done|]. cbn in HP. by destruct (P a).
Qed.

Lemma find_row_None P m : find_row P m = None <-> forall k a, m !! k = Some a -> P a = false.
Proof.
  unfold find_row. split.
  - intros H k a Hk. destruct (P a) eqn:E; [|done].
    apply head_None in H. apply elem_of_map_to_list in Hk.
    assert ((k, a) ∈ filter (fun e => P e.2) (map_to_list m)) as Hin.
    { apply list_elem_of_filter. cbn. by rewrite E. }
    rewrite H in Hin. by apply elem_of_nil in Hin.
  - intros H. destruct (filter _ _) as [|[k a] l] eqn:E; [done|].
    assert ((k, a) ∈ filter (fun e => P e.2) (map_to_list m)) as Hin by (rewrite E; left).
    apply list_elem_of_filter in Hin as [HP Hin]. apply elem_of_map_to_list in Hin.
    cbn in HP. by rewrite (H k a Hin) in HP.
Qed.

Lemma find_row_unique P m k a :
  (forall k1 k2 a1 a2, m !! k1 = Some a1 -> m !! k2 = Some a2 -> P a1 = true -> P a2 = true -> k1 = k2) ->
  m !! k = Some a -> P a = true -> find_row P m = Some (k, a).
Proof.
  intros Hu Hk HP. destruct (find_row P m) as [[k' a']|] eqn:E.
  - apply find_row_Some in E as [E1 E2]. assert (k' = k) as -> by eauto. congruence.
  - rewrite find_row_None in E. by rewrite (E k a Hk) in HP.
Qed.

Lemma lookup_update P f m k :
  update_where P f m !! k = (fun a => if P a then f a else a) <$> m !! k.
Proof. apply lookup_fmap. Qed.

Lemma lookup_delete_where P m k a :
  delete_where P m !! k = Some a <-> m !! k = Some a /\ P a = false.
Proof. unfold delete_where. by rewrite map_lookup_filter_Some. Qed.

Lemma elem_of_select {B} P (f : A -> B) m b :
  b ∈ select_where P f m <-> exists k a, m !! k = Some a /\ P a = true /\ f a = b.
Proof.
  unfold select_where. rewrite list_elem_of_fmap. split.
  - intros (a & -> & (HP & Hin)%list_elem_of_filter). apply list_elem_of_fmap in Hin as ([k a'] & -> & Hin).
    apply elem_of_map_to_list in Hin. exists k, a'. cbn in *. split_and!; [done| |done].
    by destruct (P a').
  - intros (k & a & Hk & HP & <-). exists a. split; [done|]. apply list_elem_of_filter.
    split; [by rewrite HP|]. apply list_elem_of_fmap. exists (k, a).
    split; [done|]. by apply elem_of_map_to_list.
Qed.
End Table.

(** ** Rows that still work *)

Definition SWEEP_WINDOW : Z := secs (30 * 86400).

(** [LIVE_CREDENTIAL_SQL]. *)
Definition live_credential (revoked expires : option Z) (now : Z) : bool :=
  bool_decide (revoked = None) && match expires with None => true | Some e => now <? e end.

Definition token_live (now : Z) (t : Token) : bool := live_credential (revoked_at t) (expires_at t) now.
Definition refresh_live (now : Z) (r : RefreshToken) : bool :=
  live_credential (r_revoked_at r) (Some (r_expires_at r)) now.

Definition unrevoked (r : RefreshToken) : bool := bool_decide (r_revoked_at r = None).

(** ** Inserting rows: primary keys, unique hashes and references *)

Definition refers {A} (o : option uuid) (m : gmap uuid A) : bool :=
  match o with None => true | Some k => bool_decide (is_Some (m !! k)) end.

Definition insert_token_row (id : uuid) (row : Token) (d : Db) : option Db :=
  if bool_decide (is_Some (tokens d !! id)) ||
     any_row (fun t => bool_decide (t_hash t = t_hash row)) (tokens d) ||
     negb (refers (oauth_identity_id row) (identities d)) ||
     negb (refers (created_by_token_id row) (tokens d))
  then None
  else Some (set_tokens (<[id := row]> (tokens d)) d).

Definition insert_refresh_row (id : uuid) (row : RefreshToken) (d : Db) : option Db :=
  if bool_decide (is_Some (refresh_tokens d !! id)) ||
     any_row (fun r => bool_decide (r_hash r = r_hash row)) (refresh_tokens d) ||
     negb (refers (Some (r_identity row)) (identities d))
  then None
  else Some (set_refresh (<[id := row]> (refresh_tokens d)) d).

Definition same_subject (provider subject : text) (i : OauthIdentity) : bool :=
  bool_decide (i_provider i = provider) && bool_decide (i_subject i = subject).

Definition find_identity (provider subject : text) (d : Db) : option (uuid * OauthIdentity) :=
  find_row (same_subject provider subject) (identities d).

Definition insert_identity_row (id : uuid) (row : OauthIdentity) (d : Db) : option Db :=
  if bool_decide (is_Some (identities d !! id)) ||
     any_row (same_subject (i_provider row) (i_subject row)) (identities d)
  then None
  else Some (set_identities (<[id := row]> (identities d)) d).

(** ** Tokens *)

Definition bootstrap_available (d : Db) : bool :=
  negb (has_accounts d) && bool_decide (tokens d = ∅) && bool_decide (identities d = ∅).

(** The trigger [credential_session_id] gives a token without a session its own id. *)
Definition insert_token (now : Z) (id : uuid) (label hash : text) (created_by : option uuid) (d : Db)
    : option Db :=
  insert_token_row id
    (MkToken label hash now None None None None None None created_by None id) d.

(** Whether a token was minted. *)
Definition issue_first_bootstrap_token (now : Z) (id : uuid) (label hash : text) (d : Db)
    : option (Db * bool) :=
  if bootstrap_available d
  then d ← insert_token now id label hash None d; Some (d, true)
  else Some (d, false).

Record OAuthSession := MkSession { os_id : uuid; os_authenticated_at : option Z }.

Definition issue_oauth_token (now : Z) (id : uuid) (label hash : text) (expires : Z)
    (provider : text) (owner : uuid) (client : text) (session : OAuthSession) (d : Db)
    : option Db :=
  insert_token_row id
    (MkToken label hash now None None (Some expires) (Some provider) (Some owner) (Some client)
       None (os_authenticated_at session) (os_id session)) d.

Record VerifiedToken := MkVerified {
  v_id : uuid;
  v_expires_at : option Z;
  v_authenticated_at : option Z;
  v_identity : option uuid;
  v_session : uuid;
}.

Definition touch (now : Z) (t : Token) : Token :=
  MkToken (t_label t) (t_hash t) (created_at t) (Some now) (revoked_at t) (expires_at t)
    (t_provider t) (oauth_identity_id t) (client_id t) (created_by_token_id t)
    (authenticated_at t) (session_id t).

Definition verify_token (now : Z) (hash : text) (d : Db) : Db * option VerifiedToken :=
  match find_row (fun t => bool_decide (t_hash t = hash) && token_live now t) (tokens d) with
  | Some (id, t) =>
      (set_tokens (<[id := touch now t]> (tokens d)) d,
       Some (MkVerified id (expires_at t) (authenticated_at t) (oauth_identity_id t) (session_id t)))
  | None => (d, None)
  end.

(** ** Ending sessions *)

Definition revoke_refresh_row (now : Z) (r : RefreshToken) : RefreshToken :=
  MkRefresh (r_hash r) (r_identity r) (r_client r) (r_expires_at r) (Some now) (r_replaced_by r)
    (r_authenticated_at r) (r_session r).

(** The unrevoked refresh tokens of an identity, of one client or of all. *)
Definition renews (owner : uuid) (client : option text) (r : RefreshToken) : bool :=
  bool_decide (r_identity r = owner) &&
  match client with None => true | Some c => bool_decide (r_client r = c) end &&
  unrevoked r.

Definition end_sessions_in_tx (now : Z) (owner : uuid) (client : option text) (d : Db)
    : Db * list uuid :=
  (set_refresh (update_where (renews owner client) (revoke_refresh_row now) (refresh_tokens d)) d,
   select_where (renews owner client) r_session (refresh_tokens d)).

Definition delete_push_registrations_in_tx (sessions : list uuid) (d : Db) : Db :=
  set_registrations (delete_where (fun p => bool_decide (p_session p ∈ sessions)) (registrations d)) d.

(** A way in: an active token that never expires, or an identity of a provider a
    sign-in could go through. *)
Definition permanent (t : Token) : bool :=
  bool_decide (revoked_at t = None) && bool_decide (expires_at t = None).

Definition surviving_credential_in_tx (usable : list text) (d : Db) : bool :=
  any_row permanent (tokens d) ||
  any_row (fun i => bool_decide (i_provider i ∈ usable)) (identities d).

Inductive TokenRevocation := Revoked | AlreadyRevoked | TokenNotFound | TokenLastCredential.

Definition revoke_row (now : Z) (t : Token) : Token :=
  MkToken (t_label t) (t_hash t) (created_at t) (last_used_at t) (Some now) (expires_at t)
    (t_provider t) (oauth_identity_id t) (client_id t) (created_by_token_id t)
    (authenticated_at t) (session_id t).

(** The refresh chain's owner, of a session's access token. *)
Definition session_of (t : Token) : option (uuid * text) :=
  match oauth_identity_id t, client_id t with
  | Some owner, Some client => Some (owner, client)
  | _, _ => None
  end.

Definition end_session (now : Z) (t : Token) (d : Db) : Db :=
  let '(d, ended) := match session_of t with
    | Some (owner, client) => end_sessions_in_tx now owner (Some client) d
    | None => (d, [])
    end in
  delete_push_registrations_in_tx (session_id t :: ended) d.

Definition remove_token (now : Z) (id : uuid) (guard : option (list text)) (d : Db)
    : Db * TokenRevocation :=
  match tokens d !! id with
  | None => (d, TokenNotFound)
  | Some t =>
      if bool_decide (revoked_at t <> None) then (end_session now t d, AlreadyRevoked)
      else
        let d' := end_session now t (set_tokens (<[id := revoke_row now t]> (tokens d)) d) in
        match guard with
        | Some usable =>
            if bool_decide (expires_at t = None) && negb (surviving_credential_in_tx usable d')
            then (d, TokenLastCredential) else (d', Revoked)
        | None => (d', Revoked)
        end
  end.

Definition of_identity (owner : uuid) (t : Token) : bool :=
  bool_decide (oauth_identity_id t = Some owner).

(** Whether some credential of [session] is live. *)
Definition session_live (now : Z) (session : uuid) (d : Db) : bool :=
  any_row (fun t => bool_decide (session_id t = session) && token_live now t) (tokens d) ||
  any_row (fun r => bool_decide (r_session r = session) && refresh_live now r) (refresh_tokens d).

Definition revoke_tokens_for_identity (now : Z) (owner : uuid) (d : Db) : Db * Z :=
  let hit t := of_identity owner t && bool_decide (revoked_at t = None) in
  let sessions := select_where hit session_id (tokens d) in
  let d := set_tokens (update_where hit (revoke_row now) (tokens d)) d in
  (set_registrations (delete_where (fun p =>
     bool_decide (p_session p ∈ sessions) && negb (session_live now (p_session p) d))
     (registrations d)) d, Z.of_nat (length sessions)).

(** ** Identities *)

Definition bind_identity (id : uuid) (provider subject : text) (email : option text) (d : Db)
    : option (Db * uuid) :=
  match find_identity provider subject d with
  | Some (k, _) =>
      Some (set_identities (<[k := MkIdentity provider subject email]> (identities d)) d, k)
  | None => d ← insert_identity_row id (MkIdentity provider subject email) d; Some (d, id)
  end.

(** [created_by_token_id] one step: the tokens that tokens of [parents] minted. *)
Definition child_of (parents : gset uuid) (t : Token) : bool :=
  match created_by_token_id t with Some p => bool_decide (p ∈ parents) | None => false end.

Definition ids_where (P : Token -> bool) (d : Db) : gset uuid :=
  dom (filter (fun e => P e.2 = true) (tokens d)).

Definition minted_by (parents : gset uuid) (d : Db) : gset uuid := ids_where (child_of parents) d.

(** [WITH RECURSIVE … UNION]: rows not seen before feed the next round. *)
Fixpoint with_recursive (fuel : nat) (seen working : gset uuid) (d : Db) : gset uuid :=
  match fuel with
  | O => seen
  | S fuel =>
      let fresh := minted_by working d ∖ seen in
      if decide (fresh = ∅) then seen else with_recursive fuel (seen ∪ fresh) fresh d
  end.

(** The tokens an identity's sessions minted, and those minted in turn. *)
Definition minted (owner : uuid) (d : Db) : gset uuid :=
  let base := minted_by (ids_where (of_identity owner) d) d in
  with_recursive (size (tokens d)) base base d.

Definition detach_row (now : Z) (t : Token) : Token :=
  MkToken (t_label t) (t_hash t) (created_at t) (last_used_at t)
    (Some (default now (revoked_at t))) (expires_at t) (t_provider t) None (client_id t)
    (created_by_token_id t) (authenticated_at t) (session_id t).

Inductive IdentityRemoval := Removed | IdentityNotFound | IdentityLastCredential.

(** The sessions an unbind ends. *)
Definition ended_sessions (owner : uuid) (d : Db) : list uuid :=
  (session_id <$> omap (fun k => tokens d !! k) (elements (minted owner d))) ++
  select_where (of_identity owner) session_id (tokens d) ++
  select_where (fun r => bool_decide (r_identity r = owner)) r_session (refresh_tokens d).

Definition revoke_minted (now : Z) (ids : gset uuid) (d : Db) : Db :=
  set_tokens (map_imap (fun k t =>
    Some (if bool_decide (k ∈ ids) && bool_decide (revoked_at t = None) then revoke_row now t else t))
    (tokens d)) d.

(** The statements before the identity row goes. *)
Definition unbind_statements (now : Z) (id : uuid) (d : Db) : Db :=
  let ids := minted id d in
  let d := delete_push_registrations_in_tx (ended_sessions id d) d in
  let d := revoke_minted now ids d in
  let d := set_tokens (update_where (of_identity id) (detach_row now) (tokens d)) d in
  let d := set_refresh (delete_where (fun r => bool_decide (r_identity r = id)) (refresh_tokens d)) d in
  set_requests (delete_where (fun a => bool_decide (a_identity a = Some id)) (requests d)) d.

Definition forget_bind (id : uuid) (b : BindRequest) : BindRequest :=
  if bool_decide (b_identity b = Some id)
  then MkBind (b_user_code b) (b_provider b) (b_status b) (b_expires_at b) None (b_nonce b) else b.

(** [DELETE FROM oauth_identities]: refused while a token, a refresh token or a
    request refers to it; a bind request forgets it. *)
Definition delete_identity_row (id : uuid) (d : Db) : option Db :=
  if any_row (of_identity id) (tokens d) ||
     any_row (fun r => bool_decide (r_identity r = id)) (refresh_tokens d) ||
     any_row (fun a => bool_decide (a_identity a = Some id)) (requests d)
  then None
  else Some (set_binds (forget_bind id <$> binds d) (set_identities (delete id (identities d)) d)).

Definition remove_identity (now : Z) (id : uuid) (guard : option (list text)) (d : Db)
    : option (Db * IdentityRemoval) :=
  match identities d !! id with
  | None => Some (d, IdentityNotFound)
  | Some _ =>
      d' ← delete_identity_row id (unbind_statements now id d);
      match guard with
      | Some usable =>
          if surviving_credential_in_tx usable d' then Some (d', Removed)
          else Some (d, IdentityLastCredential)
      | None => Some (d', Removed)
      end
  end.

(** ** Refresh tokens *)

Definition issue_refresh_token (id : uuid) (hash : text) (owner : uuid) (client : text)
    (expires : Z) (session : OAuthSession) (d : Db) : option Db :=
  insert_refresh_row id
    (MkRefresh hash owner client expires None None (os_authenticated_at session) (os_id session)) d.

Record RotatedRefreshToken := MkRotated {
  rot_id : uuid;
  rot_identity : uuid;
  rot_client : text;
  rot_authenticated_at : option Z;
  rot_session : uuid;
}.

Definition has_hash (hash : text) (r : RefreshToken) : bool := bool_decide (r_hash r = hash).

Definition replace_refresh_row (now : Z) (new_id : uuid) (r : RefreshToken) : RefreshToken :=
  MkRefresh (r_hash r) (r_identity r) (r_client r) (r_expires_at r) (Some now) (Some new_id)
    (r_authenticated_at r) (r_session r).

(** The rotating statement: revokes the presented token and inserts its
    replacement, or neither. *)
Definition rotate (now : Z) (old_hash : text) (new_id : uuid) (new_hash : text) (new_expires : Z)
    (d : Db) : option (Db * option RotatedRefreshToken) :=
  match find_row (fun r => has_hash old_hash r && refresh_live now r) (refresh_tokens d) with
  | None => Some (d, None)
  | Some (k, r) =>
      let d := set_refresh (<[k := replace_refresh_row now new_id r]> (refresh_tokens d)) d in
      d ← insert_refresh_row new_id
        (MkRefresh new_hash (r_identity r) (r_client r) new_expires None None
           (r_authenticated_at r) (r_session r)) d;
      Some (d, Some (MkRotated new_id (r_identity r) (r_client r) (r_authenticated_at r) (r_session r)))
  end.

Inductive RedeemRefreshTokenError := RefreshNotFound | RefreshReused | RefreshExpired.

(** Long dead: revoked before [cutoff], or never revoked and expired before it. *)
Definition stale (cutoff : Z) (r : RefreshToken) : bool :=
  match r_revoked_at r with Some at_ => at_ <? cutoff | None => r_expires_at r <? cutoff end.

(** Why no rotation happened, by the server's clock. *)
Definition why_not_rotated (server_now : Z) (old_hash : text) (d : Db) : RedeemRefreshTokenError :=
  match find_row (has_hash old_hash) (refresh_tokens d) with
  | None => RefreshNotFound
  | Some (_, r) =>
      if stale (server_now - SWEEP_WINDOW) r then RefreshNotFound
      else if bool_decide (r_revoked_at r <> None) then RefreshReused else RefreshExpired
  end.

Definition owner_of (old_hash : text) (d : Db) : option (uuid * text) :=
  (fun e => (r_identity e.2, r_client e.2)) <$> find_row (has_hash old_hash) (refresh_tokens d).

Definition revoke_refresh_sessions (now : Z) (owner : uuid) (client : option text) (d : Db)
    : Db * Z :=
  let '(d, ended) := end_sessions_in_tx now owner client d in
  (delete_push_registrations_in_tx ended d, Z.of_nat (length ended)).

(** [redeem_refresh_token] as three transactions; here without others between. *)
Definition redeem_refresh_token (now server_now : Z) (old_hash : text) (new_id : uuid)
    (new_hash : text) (new_expires : Z) (d : Db)
    : option (Db * sum RedeemRefreshTokenError RotatedRefreshToken) :=
  '(d, rotated) ← rotate now old_hash new_id new_hash new_expires d;
  match rotated with
  | Some r => Some (d, inr r)
  | None =>
      let e := why_not_rotated server_now old_hash d in
      match e, owner_of old_hash d with
      | RefreshReused, Some (owner, client) =>
          Some ((revoke_refresh_sessions now owner (Some client) d).1, inl e)
      | _, _ => Some (d, inl e)
      end
  end.

(** *** The sweep *)

Definition SWEEP_BATCH : nat := 1000.

Definition stale_ids (cutoff : Z) (d : Db) : gset uuid :=
  dom (filter (fun e => stale cutoff e.2 = true) (refresh_tokens d)).

(** What [LIMIT 1000] may select: that many stale rows, or all of them. *)
Definition batch_of (cutoff : Z) (victims : gset uuid) (d : Db) : bool :=
  bool_decide (victims ⊆ stale_ids cutoff d) &&
  bool_decide (size victims = Nat.min SWEEP_BATCH (size (stale_ids cutoff d))).

(** One batch: refused while a row that stays names a deleted one as its
    replacement. *)
Definition delete_batch (victims : gset uuid) (d : Db) : option Db :=
  let left_ := filter (fun e => e.1 ∉ victims) (refresh_tokens d) in
  if any_row (fun r => match r_replaced_by r with
                       | Some k => bool_decide (k ∈ victims) | None => false end) left_
  then None
  else Some (set_refresh left_ d).

(** ** Push registrations *)

Inductive PushRegistrationOutcome := PushStored (id : uuid) | CredentialEnded | RefreshRequired.

Definition same_device (provider token : text) (p : PushRegistration) : bool :=
  bool_decide (p_provider p = provider) && bool_decide (p_token p = token).

Definition upsert_push_registration (now : Z) (id : uuid) (new : PushRegistration) (d : Db)
    : option (Db * PushRegistrationOutcome) :=
  let mine t := bool_decide (session_id t = p_session new) in
  let token := tokens d !! p_token_id new in
  let live := match token with Some t => mine t && token_live now t | None => false end in
  let non_expiring := match token with Some t => mine t && permanent t | None => false end in
  let refresh := any_row (fun r => bool_decide (r_session r = p_session new) && refresh_live now r)
    (refresh_tokens d) in
  if live && (non_expiring || refresh) then
    match find_row (same_device (p_provider new) (p_token new)) (registrations d) with
    | Some (k, _) => Some (set_registrations (<[k := new]> (registrations d)) d, PushStored k)
    | None =>
        if bool_decide (is_Some (registrations d !! id)) then None
        else Some (set_registrations (<[id := new]> (registrations d)) d, PushStored id)
    end
  else Some (d, if live then RefreshRequired else CredentialEnded).

Definition delete_push_registration (id session : uuid) (d : Db) : Db * bool :=
  match registrations d !! id with
  | Some p => if bool_decide (p_session p = session)
              then (set_registrations (delete id (registrations d)) d, true) else (d, false)
  | None => (d, false)
  end.

Definition delete_push_registration_id (id : uuid) (d : Db) : Db * bool :=
  (set_registrations (delete id (registrations d)) d, bool_decide (is_Some (registrations d !! id))).

Definition session_has_live_refresh_token (now : Z) (session : uuid) (d : Db) : bool :=
  any_row (fun r => bool_decide (r_session r = session) && refresh_live now r) (refresh_tokens d).

Definition reap_push_registrations (now : Z) (d : Db) : Db * Z :=
  let dead p := negb (session_live now (p_session p) d) in
  (set_registrations (delete_where dead (registrations d)) d, count_where dead (registrations d)).

(** The registration and whether its session is live. *)
Definition push_send_check (now : Z) (id : uuid) (d : Db) : option (PushRegistration * bool) :=
  (fun p => (p, session_live now (p_session p) d)) <$> registrations d !! id.

(** ** What an identity's sessions minted *)

(** The token [p] minted the token [k]. *)
Definition creates (d : Db) (p k : uuid) : Prop :=
  exists t, tokens d !! k = Some t /\ created_by_token_id t = Some p.

(** [k] was minted by a session of [who], directly or in turn. *)
Definition descendant (d : Db) (who k : uuid) : Prop :=
  exists p t, tokens d !! p = Some t /\ oauth_identity_id t = Some who /\ tc (creates d) p k.

Lemma elem_of_ids P d k :
  k ∈ ids_where P d <-> exists t, tokens d !! k = Some t /\ P t = true.
Proof.
  unfold ids_where. rewrite elem_of_dom. split.
  - intros [t Ht%map_lookup_filter_Some]. by exists t.
  - intros (t & Ht & HP). exists t. by apply map_lookup_filter_Some.
Qed.

Lemma elem_of_minted_by parents d k :
  k ∈ minted_by parents d <-> exists p, p ∈ parents /\ creates d p k.
Proof.
  unfold minted_by. rewrite elem_of_ids. unfold child_of, creates. split.
  - intros (t & Ht & HP). destruct (created_by_token_id t) as [p|] eqn:E; [|done].
    apply bool_decide_eq_true in HP. eauto.
  - intros (p & Hp & t & Ht & E). exists t. split; [done|]. rewrite E. by apply bool_decide_eq_true.
Qed.

Lemma minted_by_dom parents d : minted_by parents d ⊆ dom (tokens d).
Proof.
  intros k (p & _ & t & Ht & _)%elem_of_minted_by. by apply elem_of_dom_2 in Ht.
Qed.

(** Enough fuel closes the set. *)
Lemma with_recursive_spec fuel seen working d :
  working ⊆ seen -> seen ⊆ dom (tokens d) -> minted_by (seen ∖ working) d ⊆ seen ->
  (size (dom (tokens d) ∖ seen) <= fuel)%nat ->
  let R := with_recursive fuel seen working d in
  seen ⊆ R /\ minted_by R d ⊆ R /\
  forall k, k ∈ R -> k ∈ seen \/ exists p, p ∈ seen /\ tc (creates d) p k.
Proof.
  revert seen working. induction fuel as [|fuel IH]; intros seen working Hw Hd Hc Hf; cbn.
  - assert (dom (tokens d) ⊆ seen) as Hall.
    { apply Nat.le_0_r, size_empty_inv in Hf. set_solver. }
    split_and!; [done| |by left]. etrans; [apply minted_by_dom|done].
  - set (fresh := minted_by working d ∖ seen). case_decide as Hfr.
    + split_and!; [done| |by left].
      intros k (p & Hp & Hk)%elem_of_minted_by. destruct (decide (p ∈ working)) as [Hpw|Hpw].
      * destruct (decide (k ∈ seen)) as [|Hks]; [done|].
        assert (k ∈ fresh) as Hin.
        { apply elem_of_difference. split; [|done]. apply elem_of_minted_by. eauto. }
        rewrite Hfr in Hin. by apply not_elem_of_empty in Hin.
      * apply Hc, elem_of_minted_by. exists p. split; [|done]. by apply elem_of_difference.
    + destruct (IH (seen ∪ fresh) fresh) as (H1 & H2 & H3).
      * apply union_subseteq_r.
      * apply union_subseteq; split; [done|]. pose proof (minted_by_dom working d).
        unfold fresh. intros k [? _]%elem_of_difference. auto.
      * intros k (p & Hp & Hk)%elem_of_minted_by.
        apply elem_of_difference in Hp as [[Hp|Hp]%elem_of_union Hpf]; [|done].
        destruct (decide (p ∈ working)) as [Hpw|Hpw].
        -- destruct (decide (k ∈ seen)); [by apply elem_of_union_l|]. apply elem_of_union_r.
           apply elem_of_difference. split; [|done]. apply elem_of_minted_by. eauto.
        -- apply elem_of_union_l, Hc, elem_of_minted_by. exists p. split; [|done].
           by apply elem_of_difference.
      * assert (size (dom (tokens d) ∖ (seen ∪ fresh)) < size (dom (tokens d) ∖ seen))%nat; [|lia].
        apply subset_size. apply set_choose_L in Hfr as [x Hx]. pose proof (minted_by_dom working d) as Hm.
        split; [set_solver|]. intros Hs. unfold fresh in Hx. apply elem_of_difference in Hx as [Hx1 Hx2].
        assert (x ∈ dom (tokens d) ∖ (seen ∪ fresh)) as Hin by (apply Hs, elem_of_difference; auto).
        apply elem_of_difference in Hin as [_ Hin]. apply Hin, elem_of_union_r, elem_of_difference. auto.
      * split_and!; [set_solver|done|]. intros k [Hk|(p & Hp & Hk)]%H3.
        -- apply elem_of_union in Hk as [|Hk]; [by left|]. right.
           apply elem_of_difference in Hk as [Hk _]. apply elem_of_minted_by in Hk as (p & Hp & Hk).
           exists p. split; [auto|by apply tc_once].
        -- right. apply elem_of_union in Hp as [Hp|Hp]; [eauto|].
           apply elem_of_difference in Hp as [Hp _]. apply elem_of_minted_by in Hp as (p0 & Hp0 & Hp).
           exists p0. split; [auto|]. eapply tc_l; eauto.
Qed.

(** The recursive query finds a sign-in's whole progeny.  The rounds of
    [WITH RECURSIVE] end with exactly the tokens that the identity's sessions
    minted through the management API, and those these minted in turn. *)
Lemma elem_of_minted who d k : k ∈ minted who d <-> descendant d who k.
Proof.
  set (roots := ids_where (of_identity who) d).
  assert (forall p, p ∈ roots <-> exists t, tokens d !! p = Some t /\ oauth_identity_id t = Some who)
    as Hroots.
  { intros p. unfold roots. rewrite elem_of_ids. unfold of_identity.
    by setoid_rewrite bool_decide_eq_true. }
  set (base := minted_by roots d).
  destruct (with_recursive_spec (size (tokens d)) base base d) as (H1 & H2 & H3).
  - done.
  - apply minted_by_dom.
  - rewrite difference_diag_L. intros x (p & Hp & _)%elem_of_minted_by. set_solver.
  - rewrite <- size_dom. apply subseteq_size. set_solver.
  - unfold minted. fold roots base. split.
    + assert (forall x, x ∈ base -> descendant d who x) as Hb.
      { intros x (p & Hp & Hx)%elem_of_minted_by. apply Hroots in Hp as (t & Ht & Ho).
        exists p, t. split_and!; [done|done|by apply tc_once]. }
      intros [Hk|(p & Hp & Hk)]%H3; [by apply Hb|].
      destruct (Hb p Hp) as (q & t & Ht & Ho & Hq). exists q, t. split_and!; try done.
      by eapply tc_trans.
    + intros (p & t & Ht & Ho & Hk). assert (p ∈ roots) as Hp by (apply Hroots; eauto).
      revert k Hk. apply tc_ind_r.
      * intros k Hk. apply H1, elem_of_minted_by. eauto.
      * intros x y _ Hxy Hx. apply H2, elem_of_minted_by. eauto.
Qed.

(** ** Unbinding *)

(** The tokens an unbind ends. *)
Definition falls_with (d : Db) (who k : uuid) : Prop :=
  (exists t, tokens d !! k = Some t /\ oauth_identity_id t = Some who) \/ descendant d who k.

(** What the statements of an unbind leave of the tables. *)
Lemma unbind_tokens now who d k :
  tokens (unbind_statements now who d) !! k =
  (fun t => let t := if bool_decide (k ∈ minted who d) && bool_decide (revoked_at t = None)
                     then revoke_row now t else t in
            if of_identity who t then detach_row now t else t) <$> tokens d !! k.
Proof.
  unfold unbind_statements. cbn [tokens set_requests set_refresh set_tokens].
  rewrite lookup_update. unfold revoke_minted. cbn [tokens set_tokens].
  rewrite map_lookup_imap. cbn [tokens delete_push_registrations_in_tx set_registrations].
  by destruct (tokens d !! k).
Qed.

(** The sessions an unbind ends. *)
Definition session_falls (d : Db) (who s : uuid) : Prop :=
  (exists k t, falls_with d who k /\ tokens d !! k = Some t /\ session_id t = s) \/
  (exists k r, refresh_tokens d !! k = Some r /\ r_identity r = who /\ r_session r = s).

Lemma elem_of_ended who d s : s ∈ ended_sessions who d <-> session_falls d who s.
Proof.
  unfold ended_sessions, session_falls, falls_with. rewrite !elem_of_app, !elem_of_select.
  rewrite list_elem_of_fmap. split.
  - intros [(t & -> & Ht)|[(k & t & Ht & Ho & <-)|(k & r & Hr & Ho & <-)]].
    + apply list_elem_of_omap in Ht as (k & Hk%elem_of_elements%elem_of_minted & Ht).
      left. exists k, t. split_and!; [by right|done|done].
    + apply bool_decide_eq_true in Ho. left. exists k, t. split_and!; [left; eauto|done|done].
    + apply bool_decide_eq_true in Ho. right. eauto.
  - intros [(k & t & [(t' & Ht' & Ho)|Hd] & Ht & <-)|(k & r & Hr & Ho & <-)].
    + right; left. exists k, t. split_and!; [done| |done]. apply bool_decide_eq_true. congruence.
    + left. exists t. split; [done|]. apply list_elem_of_omap. exists k.
      split; [by apply elem_of_elements, elem_of_minted|done].
    + right; right. exists k, r. split_and!; [done| |done]. by apply bool_decide_eq_true.
Qed.

Lemma unbind_row now who d k t :
  tokens d !! k = Some t -> exists t', tokens (unbind_statements now who d) !! k = Some t' /\
    (falls_with d who k -> is_Some (revoked_at t') /\ oauth_identity_id t' <> Some who) /\
    (~ falls_with d who k -> t' = t) /\ oauth_identity_id t' <> Some who.
Proof.
  intros Ht. rewrite unbind_tokens, Ht. cbn. eexists. split; [done|].
  assert (forall t0, oauth_identity_id t0 = oauth_identity_id t ->
    oauth_identity_id (if of_identity who t0 then detach_row now t0 else t0) <> Some who) as Hd.
  { intros t0 E. destruct (of_identity who t0) eqn:Eo; [done|].
    by apply bool_decide_eq_false in Eo. }
  assert (forall b : bool, oauth_identity_id (if b then revoke_row now t else t) = oauth_identity_id t)
    as Hr by (by intros []).
  split; [|split]; [| |by apply Hd, Hr].
  - intros Hf. split; [|by apply Hd, Hr].
    destruct (bool_decide (k ∈ minted who d)) eqn:Em; cbn [andb].
    + assert (is_Some (revoked_at (if bool_decide (revoked_at t = None) then revoke_row now t else t)))
        as Hs.
      { destruct (decide (revoked_at t = None)) as [En|En];
          [rewrite bool_decide_true by done; by eexists|].
        rewrite bool_decide_false by done. by apply not_eq_None_Some. }
      destruct (of_identity who _); [by eexists|exact Hs].
    + destruct Hf as [(t' & Ht' & Ho)|Hf%elem_of_minted].
      * assert (of_identity who t = true) as -> by (apply bool_decide_eq_true; congruence).
        by eexists.
      * by apply bool_decide_eq_false in Em.
  - intros Hf. rewrite (bool_decide_false (k ∈ minted who d)); cbn [andb].
    + destruct (of_identity who t) eqn:Eo; [|done]. destruct Hf. left. exists t.
      by apply bool_decide_eq_true in Eo.
    + intros Hm%elem_of_minted. destruct Hf. by right.
Qed.

Lemma unbind_unreferenced now who d :
  exists d', delete_identity_row who (unbind_statements now who d) = Some d' /\
    identities d' = delete who (identities d) /\ tokens d' = tokens (unbind_statements now who d) /\
    refresh_tokens d' = refresh_tokens (unbind_statements now who d) /\
    requests d' = requests (unbind_statements now who d) /\
    registrations d' = registrations (unbind_statements now who d).
Proof.
  unfold delete_identity_row. rewrite (proj2 (any_row_false (of_identity who) _)).
  2: { intros k t Ht. apply bool_decide_eq_false. destruct (tokens d !! k) as [t0|] eqn:E.
       - destruct (unbind_row now who d k t0 E) as (t' & E' & _ & _ & H). congruence.
       - rewrite unbind_tokens, E in Ht. done. }
  rewrite (proj2 (any_row_false _ (refresh_tokens _))).
  2: { intros k r Hr. by apply lookup_delete_where in Hr as [_ ?]. }
  rewrite (proj2 (any_row_false _ (requests _))).
  2: { intros k a Ha. by apply lookup_delete_where in Ha as [_ ?]. }
  eexists. split; [done|]. done.
Qed.

(** What an unbind of [who] promises of the store before and after. *)
Definition unbind_outcome (who : uuid) (guard : option (list text)) (d d' : Db) (r : IdentityRemoval)
    : Prop :=
  match r with
  | IdentityNotFound => d' = d /\ identities d !! who = None
  | IdentityLastCredential => d' = d /\ is_Some guard
  | Removed =>
      identities d' = delete who (identities d) /\
      (forall k t, tokens d !! k = Some t -> exists t', tokens d' !! k = Some t' /\
        (falls_with d who k -> is_Some (revoked_at t') /\ oauth_identity_id t' <> Some who) /\
        (~ falls_with d who k -> t' = t)) /\
      (forall k, refresh_tokens d' !! k = None \/
        exists r, refresh_tokens d' !! k = Some r /\ refresh_tokens d !! k = Some r /\ r_identity r <> who) /\
      (forall k a, requests d' !! k = Some a <-> requests d !! k = Some a /\ a_identity a <> Some who) /\
      (forall k p, registrations d' !! k = Some p <->
        registrations d !! k = Some p /\ ~ session_falls d who (p_session p)) /\
      (forall usable, guard = Some usable -> surviving_credential_in_tx usable d' = true)
  end.

Lemma remove_identity_spec now who guard d :
  exists d' r, remove_identity now who guard d = Some (d', r) /\ unbind_outcome who guard d d' r.
Proof.
  unfold remove_identity, unbind_outcome. destruct (identities d !! who) as [i|] eqn:Ei.
  2: { exists d, IdentityNotFound. done. }
  destruct (unbind_unreferenced now who d) as (d' & -> & Hi & Ht & Hr & Ha & Hp). cbn.
  assert (forall g, (forall usable, g = Some usable -> surviving_credential_in_tx usable d' = true) ->
    (identities d' = delete who (identities d) /\
    (forall k t, tokens d !! k = Some t -> exists t', tokens d' !! k = Some t' /\
        (falls_with d who k -> is_Some (revoked_at t') /\ oauth_identity_id t' <> Some who) /\
        (~ falls_with d who k -> t' = t)) /\
      (forall k, refresh_tokens d' !! k = None \/
        exists r, refresh_tokens d' !! k = Some r /\ refresh_tokens d !! k = Some r /\ r_identity r <> who) /\
      (forall k a, requests d' !! k = Some a <-> requests d !! k = Some a /\ a_identity a <> Some who) /\
      (forall k p, registrations d' !! k = Some p <->
        registrations d !! k = Some p /\ ~ session_falls d who (p_session p)) /\
      (forall usable, g = Some usable -> surviving_credential_in_tx usable d' = true))) as Hok.
  { intros g Hg. rewrite Ht, Hr, Ha, Hp. split_and!; [done| | | | |done].
    - intros k t E. destruct (unbind_row now who d k t E) as (t' & ? & ? & ? & _). eauto.
    - intros k. destruct (refresh_tokens (unbind_statements now who d) !! k) as [r|] eqn:E; [|by left].
      right. exists r. apply lookup_delete_where in E as [E Hne]. apply bool_decide_eq_false in Hne.
      done.
    - intros k a. unfold unbind_statements. cbn [requests set_requests].
      rewrite lookup_delete_where, bool_decide_eq_false. done.
    - intros k p. unfold unbind_statements. cbn [registrations set_requests set_refresh set_tokens
        revoke_minted delete_push_registrations_in_tx set_registrations].
      rewrite lookup_delete_where, bool_decide_eq_false. by rewrite elem_of_ended. }
  destruct guard as [usable|].
  - destruct (surviving_credential_in_tx usable d') eqn:Es.
    + eexists _, Removed. split; [done|]. apply Hok. by intros ? [= <-].
    + eexists _, IdentityLastCredential. done.
  - eexists _, Removed. split; [done|]. by apply Hok.
Qed.

(** [C12] An unbind ends everything the sign-in could do, and nothing else.  It is
    never stopped by a reference.  When it removes the identity, every token of
    its sessions and every token they minted, directly or in turn, is revoked and
    detached; its refresh tokens and flows are gone; the push registrations of
    exactly those sessions are gone; all other tokens and registrations are as
    they were; and a guarded unbind left a way in.  A refused one changed nothing. *)
Theorem unbind_ends_everything now who guard d :
  exists d' r, remove_identity now who guard d = Some (d', r) /\
  match r with
  | IdentityNotFound => d' = d /\ identities d !! who = None
  | IdentityLastCredential => d' = d /\ is_Some guard
  | Removed =>
      identities d' = delete who (identities d) /\
      (forall k t, tokens d !! k = Some t -> exists t', tokens d' !! k = Some t' /\
        (falls_with d who k -> is_Some (revoked_at t') /\ oauth_identity_id t' <> Some who) /\
        (~ falls_with d who k -> t' = t)) /\
      (forall k, refresh_tokens d' !! k = None \/
        exists r, refresh_tokens d' !! k = Some r /\ refresh_tokens d !! k = Some r /\ r_identity r <> who) /\
      (forall k a, requests d' !! k = Some a <-> requests d !! k = Some a /\ a_identity a <> Some who) /\
      (forall k p, registrations d' !! k = Some p <->
        registrations d !! k = Some p /\ ~ session_falls d who (p_session p)) /\
      (forall usable, guard = Some usable -> surviving_credential_in_tx usable d' = true)
  end.
Proof. apply remove_identity_spec. Qed.

(** ** Revoking *)

(** The refresh tokens that die with the token [t], and the sessions that end. *)
Definition dies_with (t : Token) (r : RefreshToken) : Prop :=
  session_of t = Some (r_identity r, r_client r) /\ r_revoked_at r = None.

Definition session_ends (d : Db) (t : Token) (s : uuid) : Prop :=
  s = session_id t \/ exists k r, refresh_tokens d !! k = Some r /\ dies_with t r /\ r_session r = s.

Lemma renews_dies t r who c :
  session_of t = Some (who, c) -> renews who (Some c) r = true <-> dies_with t r.
Proof.
  intros Hs. unfold renews, unrevoked, dies_with. rewrite Hs, !andb_true_iff, !bool_decide_eq_true.
  split; [intros [[-> ->] ->]; done|intros [[= -> ->] ->]; done].
Qed.

Lemma end_session_spec now t d :
  let d' := end_session now t d in
  tokens d' = tokens d /\ identities d' = identities d /\ requests d' = requests d /\
  (forall k r, refresh_tokens d !! k = Some r -> exists r', refresh_tokens d' !! k = Some r' /\
    (dies_with t r -> r_revoked_at r' = Some now) /\ (~ dies_with t r -> r' = r)) /\
  (forall k r', refresh_tokens d' !! k = Some r' -> session_of t = Some (r_identity r', r_client r') ->
    is_Some (r_revoked_at r')) /\
  (forall k p, registrations d' !! k = Some p <->
    registrations d !! k = Some p /\ ~ session_ends d t (p_session p)).
Proof.
  unfold end_session. destruct (session_of t) as [[who c]|] eqn:Es;
    cbn [end_sessions_in_tx delete_push_registrations_in_tx tokens identities requests
      refresh_tokens registrations set_refresh set_registrations].
  - split_and!; try done.
    + intros k r Hr. rewrite lookup_update, Hr. cbn. eexists. split; [done|].
      pose proof (renews_dies t r who c Es) as Hd. destruct (renews who (Some c) r).
      * split; [done|]. intros []. by apply Hd.
      * split; [|done]. by intros ?%Hd.
    + intros k r'. rewrite lookup_update. intros (r & Hr & ->)%fmap_Some Ho.
      destruct (renews who (Some c) r) eqn:Ed; [by eexists|].
      apply not_eq_None_Some. intros Hn. rewrite (proj2 (renews_dies t r who c Es)) in Ed; [done|].
      split; [by rewrite Es|done].
    + intros k p. rewrite lookup_delete_where, bool_decide_eq_false, elem_of_cons, elem_of_select.
      unfold session_ends. split; (intros [? Hn]; split; [done|]; contradict Hn).
      * destruct Hn as [|(k' & r & Hr & Hd & <-)]; [by left|]. right. exists k', r.
        split_and!; [done|by apply (renews_dies t r who c Es)|done].
      * destruct Hn as [|(k' & r & Hr & Hd & <-)]; [by left|]. right. exists k', r.
        split_and!; [done|by apply (renews_dies t r who c Es) in Hd|done].
  - split_and!; try done.
    + intros k r Hr. exists r. split_and!; [done| |done]. intros [? _]. congruence.
    + intros k p. rewrite lookup_delete_where, bool_decide_eq_false, elem_of_cons.
      unfold session_ends, dies_with. rewrite Es. split; (intros [? Hn]; split; [done|]; contradict Hn).
      * destruct Hn as [|(k' & r & Hr & [? _] & <-)]; [by left|done].
      * destruct Hn as [|Hn]; [by left|]. by apply elem_of_nil in Hn.
Qed.

(** What a revocation of [id] promises of the store before and after. *)
Definition revocation_outcome (id : uuid) (guard : option (list text)) (d d' : Db) (r : TokenRevocation)
    : Prop :=
  match r with
  | TokenNotFound => d' = d /\ tokens d !! id = None
  | TokenLastCredential =>
      d' = d /\ exists t usable, tokens d !! id = Some t /\ permanent t = true /\ guard = Some usable /\
        forall k t', tokens d !! k = Some t' -> permanent t' = true -> k = id
  | Revoked | AlreadyRevoked => exists t t', tokens d !! id = Some t /\
      tokens d' = <[id := t']> (tokens d) /\ is_Some (revoked_at t') /\
      (r = AlreadyRevoked <-> is_Some (revoked_at t)) /\ (r = AlreadyRevoked -> t' = t) /\
      (forall k r', refresh_tokens d' !! k = Some r' ->
        session_of t = Some (r_identity r', r_client r') -> is_Some (r_revoked_at r')) /\
      (forall k p, registrations d' !! k = Some p <->
        registrations d !! k = Some p /\ ~ session_ends d t (p_session p)) /\
      (r = Revoked -> permanent t = true -> forall usable, guard = Some usable ->
        surviving_credential_in_tx usable d' = true)
  end.

Lemma remove_token_spec now id guard d :
  let '(d', r) := remove_token now id guard d in revocation_outcome id guard d d' r.
Proof.
  unfold remove_token, revocation_outcome. destruct (tokens d !! id) as [t|] eqn:Et; [|done].
  case_bool_decide as Hrv.
  - apply not_eq_None_Some in Hrv. destruct (end_session_spec now t d) as (H1 & _ & _ & _ & H5 & H6).
    exists t, t. rewrite H1, (insert_id _ _ _ Et). split_and!; try done.
  - assert (revoked_at t = None) as Hn by (by destruct (revoked_at t); [destruct Hrv|]).
    set (t' := revoke_row now t). set (d0 := set_tokens _ d).
    destruct (end_session_spec now t d0) as (H1 & H2 & _ & _ & H5 & H6).
    set (d' := end_session now t d0) in *.
    assert (forall g, (permanent t = true -> forall usable, g = Some usable ->
        surviving_credential_in_tx usable d' = true) ->
      exists t0 t1, Some t = Some t0 /\ tokens d' = <[id := t1]> (tokens d) /\ is_Some (revoked_at t1) /\
      (Revoked = AlreadyRevoked <-> is_Some (revoked_at t0)) /\ (Revoked = AlreadyRevoked -> t1 = t0) /\
      (forall k r', refresh_tokens d' !! k = Some r' ->
        session_of t0 = Some (r_identity r', r_client r') -> is_Some (r_revoked_at r')) /\
      (forall k p, registrations d' !! k = Some p <->
        registrations d !! k = Some p /\ ~ session_ends d t0 (p_session p)) /\
      (Revoked = Revoked -> permanent t0 = true -> forall usable, g = Some usable ->
        surviving_credential_in_tx usable d' = true)) as Hok.
    { intros g Hg. exists t, t'. split_and!; try done.
      rewrite Hn. split; [done|]. by intros [? ?]. }
    destruct guard as [usable|]; [|by apply Hok].
    destruct (bool_decide (expires_at t = None) && _) eqn:Eg.
    + apply andb_true_iff in Eg as [Hx%bool_decide_eq_true Hs%negb_true_iff].
      split; [done|]. exists t, usable. split_and!; [done| |done|].
      { unfold permanent. by rewrite !bool_decide_true by done. }
      unfold surviving_credential_in_tx in Hs. apply orb_false_iff in Hs as [Hs _].
      intros k t1 Hk Hp. destruct (decide (k = id)) as [|Hne]; [done|].
      rewrite any_row_false in Hs. rewrite (Hs k t1) in Hp; [done|].
      rewrite H1. cbn. by rewrite lookup_insert_ne.
    + apply Hok. intros Hp u [= <-]. unfold permanent in Hp. apply andb_true_iff in Hp as [_ Hx].
      rewrite Hx in Eg. cbn in Eg. by apply negb_false_iff in Eg.
Qed.

(** A revocation ends the session, or nothing.  It revokes exactly the token
    named, keeps the time of an earlier revocation, leaves no refresh token of the
    session's identity and client that could renew it, and removes the push
    registrations of exactly the sessions it ends, even when the token was revoked
    before.  A guarded one is refused only for a token that never expires and only
    when no way in would be left, and then changes nothing. *)
Theorem revoke_ends_the_session now id guard d :
  let '(d', r) := remove_token now id guard d in
  match r with
  | TokenNotFound => d' = d /\ tokens d !! id = None
  | TokenLastCredential =>
      d' = d /\ exists t usable, tokens d !! id = Some t /\ permanent t = true /\ guard = Some usable /\
        forall k t', tokens d !! k = Some t' -> permanent t' = true -> k = id
  | Revoked | AlreadyRevoked => exists t t', tokens d !! id = Some t /\
      tokens d' = <[id := t']> (tokens d) /\ is_Some (revoked_at t') /\
      (r = AlreadyRevoked <-> is_Some (revoked_at t)) /\ (r = AlreadyRevoked -> t' = t) /\
      (forall k r', refresh_tokens d' !! k = Some r' ->
        session_of t = Some (r_identity r', r_client r') -> is_Some (r_revoked_at r')) /\
      (forall k p, registrations d' !! k = Some p <->
        registrations d !! k = Some p /\ ~ session_ends d t (p_session p)) /\
      (r = Revoked -> permanent t = true -> forall usable, guard = Some usable ->
        surviving_credential_in_tx usable d' = true)
  end.
Proof. apply remove_token_spec. Qed.

(** ** Rotation *)

(** [UNIQUE (hash)]. *)
Definition unique_hashes {A} (hash : A -> text) (m : gmap uuid A) : Prop :=
  forall k1 k2 a1 a2, m !! k1 = Some a1 -> m !! k2 = Some a2 -> hash a1 = hash a2 -> k1 = k2.

Lemma rotate_spec now old_hash new_id new_hash new_expires d d' res :
  rotate now old_hash new_id new_hash new_expires d = Some (d', res) ->
  match res with
  | Some r => exists k row, refresh_tokens d !! k = Some row /\ r_hash row = old_hash /\
      refresh_live now row = true /\ k <> new_id /\ refresh_tokens d !! new_id = None /\
      r = MkRotated new_id (r_identity row) (r_client row) (r_authenticated_at row) (r_session row) /\
      (forall k' r', refresh_tokens d !! k' = Some r' -> r_hash r' <> new_hash) /\
      d' = set_refresh
        (<[new_id := MkRefresh new_hash (r_identity row) (r_client row) new_expires None None
             (r_authenticated_at row) (r_session row)]>
         (<[k := replace_refresh_row now new_id row]> (refresh_tokens d))) d
  | None => d' = d /\ forall k row, refresh_tokens d !! k = Some row -> r_hash row = old_hash ->
      refresh_live now row = false
  end.
Proof.
  unfold rotate. destruct (find_row _ _) as [[k row]|] eqn:E.
  - apply find_row_Some in E as [Ek [Eh%bool_decide_eq_true El]%andb_true_iff].
    set (d1 := set_refresh _ d).
    destruct (insert_refresh_row new_id _ d1) as [d2|] eqn:Ei; cbn; [|done].
    intros [= <- <-]. unfold insert_refresh_row in Ei.
    destruct (_ || _ || _) eqn:Ec; [done|]. injection Ei as <-.
    apply orb_false_iff in Ec as [[Hid%bool_decide_eq_false Hh]%orb_false_iff _].
    cbn in Hid. rewrite <- eq_None_not_Some in Hid. rewrite any_row_false in Hh.
    apply lookup_insert_None in Hid as [Hid Hne].
    exists k, row. split_and!; try done.
    intros k' r' Hk' Hr'. destruct (decide (k' = k)) as [->|Hk].
    + rewrite Ek in Hk'. injection Hk' as <-.
      specialize (Hh k (replace_refresh_row now new_id row)). cbn in Hh.
      rewrite lookup_insert, decide_True in Hh by done. specialize (Hh eq_refl).
      by apply bool_decide_eq_false in Hh.
    + specialize (Hh k' r'). cbn in Hh. rewrite lookup_insert_ne in Hh by done.
      specialize (Hh Hk'). by apply bool_decide_eq_false in Hh.
  - intros [= <- <-]. split; [done|]. intros k row Hk Hh. rewrite find_row_None in E.
    specialize (E k row Hk). cbn in E. unfold has_hash in E. by rewrite bool_decide_true in E.
Qed.

(** Redeeming a refresh token rotates it or ends the client.  A live token is
    revoked and replaced by one row of the same identity, client, session and
    sign-in time, and nothing else changes; an unknown, forgotten or expired one
    changes nothing; and one that was already rotated or revoked within the
    retention leaves no refresh token of its identity and client unrevoked and no
    push registration of the sessions it ended. *)
Theorem redeem_rotates_or_ends now server_now old_hash new_id new_hash new_expires d d' res :
  unique_hashes r_hash (refresh_tokens d) ->
  redeem_refresh_token now server_now old_hash new_id new_hash new_expires d = Some (d', res) ->
  match res with
  | inr r => exists k row, refresh_tokens d !! k = Some row /\ r_hash row = old_hash /\
      refresh_live now row = true /\ k <> new_id /\ refresh_tokens d !! new_id = None /\
      d' = set_refresh
        (<[new_id := MkRefresh new_hash (r_identity row) (r_client row) new_expires None None
             (r_authenticated_at row) (r_session row)]>
         (<[k := replace_refresh_row now new_id row]> (refresh_tokens d))) d
  | inl RefreshReused => exists k row, refresh_tokens d !! k = Some row /\ r_hash row = old_hash /\
      is_Some (r_revoked_at row) /\ tokens d' = tokens d /\
      (forall k' r', refresh_tokens d' !! k' = Some r' -> r_identity r' = r_identity row ->
        r_client r' = r_client row -> is_Some (r_revoked_at r')) /\
      (forall k' r' j p, refresh_tokens d !! k' = Some r' ->
        renews (r_identity row) (Some (r_client row)) r' = true ->
        registrations d' !! j = Some p -> p_session p <> r_session r')
  | inl e => d' = d /\ forall k row, refresh_tokens d !! k = Some row -> r_hash row = old_hash ->
      refresh_live now row = false /\ (e = RefreshExpired -> r_revoked_at row = None)
  end.
Proof.
  intros Hu. unfold redeem_refresh_token.
  destruct (rotate now old_hash new_id new_hash new_expires d) as [[d1 rot]|] eqn:Er; cbn; [|done].
  apply rotate_spec in Er. destruct rot as [r|].
  { destruct Er as (k & row & H1 & H2 & H3 & H4 & H5 & _ & _ & H7). intros [= <- <-].
    exists k, row. split_and!; done. }
  destruct Er as [-> Hno].
  destruct (find_row (has_hash old_hash) (refresh_tokens d)) as [[k row]|] eqn:Ef.
  - pose proof Ef as [Ek Eh]%find_row_Some. apply bool_decide_eq_true in Eh.
    assert (forall k' row', refresh_tokens d !! k' = Some row' -> r_hash row' = old_hash -> row' = row)
      as Honly.
    { intros k' row' Hk' Hh'. assert (k' = k) as -> by (eapply Hu; eauto; congruence). congruence. }
    assert (why_not_rotated server_now old_hash d = RefreshReused -> is_Some (r_revoked_at row)) as Hre.
    { unfold why_not_rotated. rewrite Ef. destruct (stale _ row); [done|].
      case_bool_decide as Hn; [|done]. intros _. by apply not_eq_None_Some. }
    assert (why_not_rotated server_now old_hash d = RefreshExpired -> r_revoked_at row = None) as Hex.
    { unfold why_not_rotated. rewrite Ef. destruct (stale _ row); [done|].
      case_bool_decide as Hn; [done|]. intros _. by destruct (r_revoked_at row); [destruct Hn|]. }
    unfold owner_of. rewrite Ef. cbn [fmap option_fmap option_map snd].
    destruct (why_not_rotated server_now old_hash d) eqn:Ew; intros [= <- <-].
    + split; [done|]. intros k' row' Hk' Hh'. split; [eauto|done].
    + exists k, row. split_and!; [done|done|by apply Hre|done| |].
      * intros k' r'. cbn. rewrite lookup_update. intros (r0 & Hr0 & ->)%fmap_Some Hi Hc.
        destruct (renews (r_identity row) (Some (r_client row)) r0) eqn:En; [by eexists|].
        apply not_eq_None_Some. intros Hn. unfold renews, unrevoked in En.
        by rewrite !bool_decide_true in En.
      * intros k' r' j p Hr' Hrn. cbn. rewrite lookup_delete_where, bool_decide_eq_false.
        intros [_ Hp] Hs. apply Hp. rewrite Hs. apply elem_of_select. eauto.
    + split; [done|]. intros k' row' Hk' Hh'. split; [eauto|]. intros _.
      rewrite (Honly k' row' Hk' Hh'). by apply Hex.
  - assert (why_not_rotated server_now old_hash d = RefreshNotFound) as ->
      by (unfold why_not_rotated; by rewrite Ef).
    intros [= <- <-]. split; [done|]. intros k row Hk Hh. split; [eauto|done].
Qed.

(** ** The sweep *)

(** A replacement is revoked, or expires, no earlier than the rotation. *)
Definition replaced_later (d : Db) : Prop :=
  forall k r k' r', refresh_tokens d !! k = Some r -> r_replaced_by r = Some k' ->
    refresh_tokens d !! k' = Some r' ->
    exists t, r_revoked_at r = Some t /\ t <= default (r_expires_at r') (r_revoked_at r').

Lemma stale_default cutoff r : stale cutoff r = (default (r_expires_at r) (r_revoked_at r) <? cutoff).
Proof. unfold stale. by destruct (r_revoked_at r). Qed.

Lemma elem_of_stale cutoff d k :
  k ∈ stale_ids cutoff d <-> exists r, refresh_tokens d !! k = Some r /\ stale cutoff r = true.
Proof.
  unfold stale_ids. rewrite elem_of_dom. split.
  - intros [r Hr%map_lookup_filter_Some]. by exists r.
  - intros (r & Hr & Hs). exists r. by apply map_lookup_filter_Some.
Qed.

(** A sweep forgets only what is long dead.  No batch touches a refresh token
    that is unrevoked and unexpired at the cutoff or was revoked after it, or
    anything else; and a batch that takes all the long dead, as one of fewer than a
    thousand does, is not refused by the reference a rotation leaves, and leaves
    exactly the others. *)
Theorem sweep_forgets_the_dead cutoff victims d :
  batch_of cutoff victims d = true ->
  (forall d', delete_batch victims d = Some d' ->
    d' = set_refresh (refresh_tokens d') d /\ (size victims <= SWEEP_BATCH)%nat /\
    forall k r, refresh_tokens d !! k = Some r -> stale cutoff r = false ->
      refresh_tokens d' !! k = Some r) /\
  ((size victims < SWEEP_BATCH)%nat -> replaced_later d ->
    exists d', delete_batch victims d = Some d' /\
    forall k r, refresh_tokens d' !! k = Some r <->
      refresh_tokens d !! k = Some r /\ stale cutoff r = false).
Proof.
  unfold batch_of.
  intros [Hsub%bool_decide_eq_true Hsz%bool_decide_eq_true]%andb_true_iff.
  assert (forall k r, refresh_tokens d !! k = Some r -> stale cutoff r = false -> k ∉ victims) as Hlive.
  { intros k r Hk Hs Hv. apply Hsub, elem_of_stale in Hv as (r' & Hk' & Hs'). congruence. }
  split.
  - intros d'. unfold delete_batch. destruct (any_row _ _); [done|]. intros [= <-]. cbn.
    split_and!; [done|lia|]. intros k r Hk Hs. apply map_lookup_filter_Some. split; [done|].
    cbn. eauto.
  - intros Hlt Hl.
    assert (victims = stale_ids cutoff d) as ->.
    { apply (set_subseteq_size_eq (C := gset uuid)); [done|]. lia. }
    assert (forall k, k ∈ stale_ids cutoff d <-> exists r, refresh_tokens d !! k = Some r /\ stale cutoff r = true)
      as Hst by apply elem_of_stale.
    unfold delete_batch. rewrite (proj2 (any_row_false _ _)).
    + eexists. split; [done|]. intros k r. cbn. rewrite map_lookup_filter_Some. cbn.
      rewrite Hst. split.
      * intros [Hk Hn]. split; [done|]. destruct (stale cutoff r) eqn:E; [|done]. destruct Hn; eauto.
      * intros [Hk Hs]. split; [done|]. intros (r' & Hk' & Hs'). congruence.
    + intros k r. rewrite map_lookup_filter_Some. cbn. intros [Hk Hn].
      destruct (r_replaced_by r) as [k'|] eqn:Er; [|done]. apply bool_decide_eq_false.
      intros (r' & Hk' & Hs')%Hst. destruct (Hl k r k' r' Hk Er Hk') as (t & Ht & Hle).
      apply Hn, Hst. exists r. split; [done|]. rewrite stale_default in *. rewrite Ht. cbn.
      apply Z.ltb_lt in Hs'. apply Z.ltb_lt. lia.
Qed.

(** ** Concrete stores *)

Definition empty_db : Db := MkDb ∅ ∅ ∅ ∅ ∅ ∅ ∅ ∅ true.

Definition toy_refresh (hash : text) (revoked : option Z) (replaced : option uuid) (session : uuid)
    : RefreshToken := MkRefresh hash 1 (t! "web") 100 revoked replaced (Some 5) session.

(** A client that rotated its token a thousand times, long ago. *)
Definition long_chain : Db :=
  set_refresh (list_to_map ((fun k : nat => let k := Z.of_nat k in
    (k, toy_refresh [k] (Some 0) (if k <? 1001 then Some (k + 1) else None) 7)) <$> seq 1 1001)) empty_db.

Definition all_but_first : gset uuid := list_to_set (Z.of_nat <$> seq 2 1000).

(** A batch of [LIMIT 1000] without an order may take the whole chain but its
    first row, which still names a deleted one. *)
Example sweep_batch_can_be_refused :
  batch_of 50 all_but_first long_chain = true /\ delete_batch all_but_first long_chain = None.
Proof. split; vm_compute; reflexivity. Qed.

(** A device with a live session. *)
Definition one_session : Db :=
  set_identities {[1 := MkIdentity (t! "apple") (t! "me") None]}
    (set_refresh {[10 := toy_refresh (t! "r1") None None 7]} empty_db).

Lemma redeem_rotates_or_ends_witness :
  exists d' r, redeem_refresh_token 20 20 (t! "r1") 11 (t! "r2") 300 one_session = Some (d', inr r) /\
    exists k row, refresh_tokens one_session !! k = Some row /\ refresh_live 20 row = true /\ k <> 11.
Proof.
  assert (snd <$> redeem_refresh_token 20 20 (t! "r1") 11 (t! "r2") 300 one_session =
    Some (inr (MkRotated 11 1 (t! "web") (Some 5) 7))) as Hr by (by vm_compute).
  destruct (redeem_refresh_token 20 20 (t! "r1") 11 (t! "r2") 300 one_session) as [[d' res]|] eqn:E;
    [|done].
  cbn in Hr. injection Hr as ->. eexists d', _. split; [done|].
  destruct (redeem_rotates_or_ends 20 20 (t! "r1") 11 (t! "r2") 300 one_session d'
    (inr (MkRotated 11 1 (t! "web") (Some 5) 7))) as (k & row & H1 & _ & H3 & H4 & _).
  - intros k1 k2 a1 a2. cbn. rewrite !lookup_singleton_Some. by intros [<- _] [<- _].
  - exact E.
  - exists k, row. split; [exact H1|]. split; [exact H3|exact H4].
Defined.

Definition dead_session : Db := set_refresh {[10 := toy_refresh (t! "r1") (Some 0) None 7]} empty_db.

Lemma sweep_forgets_the_dead_witness :
  batch_of 50 {[10]} dead_session = true /\
  exists d', delete_batch {[10]} dead_session = Some d'.
Proof.
  assert (batch_of 50 {[10]} dead_session = true) as Hb by (by vm_compute).
  split; [exact Hb|].
  destruct (sweep_forgets_the_dead 50 {[10]} dead_session Hb) as [_ H].
  destruct H as (d' & Hd' & _).
  - rewrite size_singleton. apply Nat.ltb_lt. reflexivity.
  - intros k r k' r'. cbn. rewrite lookup_singleton_Some. intros [<- <-]. cbn. done.
  - exists d'. exact Hd'.
Defined.
