(* ===== verification/OAuthFlows.v ===== *)
(** * Sign-in flows

    Models the flows that end in a credential: authorization requests and their
    codes, identity binds, native challenges and identity tokens (their tables in
    [crates/axon-store/src/oauth_authorization_requests.rs],
    [oauth_bind_requests.rs], [oauth_native.rs] and the bootstrap of [tokens.rs]),
    and the orchestration of [crates/axon-api/src/oauth/tokens.rs], which mints,
    redeems and rotates over the store ([Credentials]).  Every transaction is an
    [Op]; a request handler is a program of transactions between which any others
    may commit. *)

From stdpp Require Import base gmap sets list strings.
From Stdlib Require Import ZArith Lia.
From S2P Require Import Prelude Text Effects Credentials.
Open Scope prog_scope.

(** ** Authorization requests *)

Definition pending (now : Z) (a : AuthorizationRequest) : bool :=
  bool_decide (a_status a = Pending) && (now <? a_expires_at a).

Definition with_status (status : RequestStatus) (a : AuthorizationRequest) : AuthorizationRequest :=
  MkRequest (a_client a) (a_redirect_uri a) (a_challenge a) (a_method a) (a_client_state a)
    (a_provider a) (a_upstream_state a) (a_upstream_nonce a) (a_expires_at a) status
    (a_identity a) (a_code_hash a) (a_authenticated_at a).

Definition cancel_authorization (now : Z) (id : uuid) (d : Db) : Db * bool :=
  match requests d !! id with
  | Some a => if pending now a then (set_requests (<[id := with_status Lapsed a]> (requests d)) d, true)
              else (d, false)
  | None => (d, false)
  end.

Definition delete_expired_authorization_requests (now : Z) (d : Db) : Db :=
  set_requests (delete_where (fun a => a_expires_at a <=? now) (requests d)) d.

(** The insert of [create_authorization_request], after that sweep. *)
Definition insert_authorization_request (id : uuid) (client redirect_uri challenge method : text)
    (client_state : option text) (provider upstream_state upstream_nonce : text) (expires : Z) (d : Db)
    : option Db :=
  if bool_decide (is_Some (requests d !! id)) then None
  else Some (set_requests (<[id := MkRequest client redirect_uri challenge method client_state provider
         upstream_state upstream_nonce expires Pending None None None]> (requests d)) d).

Definition find_authorization_request_by_upstream_state (now : Z) (provider state : text) (d : Db)
    : option (uuid * AuthorizationRequest) :=
  find_row (fun a => bool_decide (a_upstream_state a = state) && bool_decide (a_provider a = provider) &&
    pending now a) (requests d).

(** [None]: the identity does not exist. *)
Definition complete_authorization (now : Z) (id : uuid) (owner : uuid) (code_hash : text)
    (authenticated : option Z) (d : Db) : option (Db * bool) :=
  match requests d !! id with
  | Some a =>
      if pending now a then
        if refers (Some owner) (identities d) then
          Some (set_requests (<[id := MkRequest (a_client a) (a_redirect_uri a) (a_challenge a) (a_method a)
            (a_client_state a) (a_provider a) (a_upstream_state a) (a_upstream_nonce a) (a_expires_at a)
            CodeIssued (Some owner) (Some code_hash) authenticated]> (requests d)) d, true)
        else None
      else Some (d, false)
  | None => Some (d, false)
  end.

Definition redeemable (now : Z) (code_hash : text) (a : AuthorizationRequest) : bool :=
  bool_decide (a_code_hash a = Some code_hash) && bool_decide (a_status a = CodeIssued) &&
  (now <? a_expires_at a).

Definition redeem_authorization_code_row (now : Z) (code_hash : text) (d : Db)
    : Db * option AuthorizationRequest :=
  (set_requests (update_where (redeemable now code_hash) (with_status Redeemed) (requests d)) d,
   (fun e => with_status Redeemed e.2) <$> find_row (redeemable now code_hash) (requests d)).

(** ** Minting a pair *)

(** What the database and the generators draw for a pair. *)
Record Draw := MkDraw {
  d_access_id : uuid;
  d_refresh_id : uuid;
  d_identity_id : uuid;
  d_session : uuid;
  d_access_hash : text;
  d_refresh_hash : text;
}.

(** [format!("oauth:{provider}:{client_id}")]. *)
Definition oauth_label (provider client : text) : text :=
  t! "oauth:" ++ provider ++ t! ":" ++ client.

Definition mint_oauth_pair_in_tx (now : Z) (w : Draw) (provider : text) (owner : uuid) (client : text)
    (access_expires refresh_expires : Z) (authenticated : option Z) (d : Db) : option Db :=
  let session := MkSession (d_session w) authenticated in
  d ← issue_oauth_token now (d_access_id w) (oauth_label provider client) (d_access_hash w)
        access_expires provider owner client session d;
  issue_refresh_token (d_refresh_id w) (d_refresh_hash w) owner client refresh_expires session d.

(** The first identity and its pair, by the temporary web bootstrap; [request] is
    the flow as it was read.  Whether it minted. *)
Definition issue_first_oauth_token_pair (now clock : Z) (w : Draw) (id : uuid)
    (request : AuthorizationRequest) (subject : text) (email : option text)
    (access_expires refresh_expires : Z) (authenticated : option Z) (d : Db) : option (Db * bool) :=
  if negb (bootstrap_available d) then Some (d, false)
  else
    match requests d !! id with
    | Some a =>
        if bool_decide (a_provider a = a_provider request) && bool_decide (a_client a = a_client request) &&
           bool_decide (a_redirect_uri a = a_redirect_uri request) &&
           bool_decide (a_upstream_nonce a = a_upstream_nonce request) && pending clock a
        then
          let d := set_requests (<[id := with_status Redeemed a]> (requests d)) d in
          d ← insert_identity_row (d_identity_id w) (MkIdentity (a_provider request) subject email) d;
          d ← mint_oauth_pair_in_tx now w (a_provider request) (d_identity_id w) (a_client request)
                access_expires refresh_expires authenticated d;
          Some (d, true)
        else Some (d, false)
    | None => Some (d, false)
    end.

(** ** Binding *)

Definition bind_pending (now : Z) (b : BindRequest) : bool :=
  bool_decide (b_status b = BindPending) && (now <? b_expires_at b).

Definition with_bind_status (status : BindStatus) (b : BindRequest) : BindRequest :=
  MkBind (b_user_code b) (b_provider b) status (b_expires_at b) (b_identity b) (b_nonce b).

Definition cancel_bind_request (now : Z) (code : uuid) (d : Db) : Db * bool :=
  match binds d !! code with
  | Some b => if bind_pending now b
              then (set_binds (<[code := with_bind_status BindExpired b]> (binds d)) d, true)
              else (d, false)
  | None => (d, false)
  end.

Definition ONE_DAY : Z := secs 86400.

Definition delete_expired_bind_requests (now : Z) (d : Db) : Db :=
  set_binds (delete_where (fun b => (b_expires_at b <=? now) &&
    (negb (bool_decide (b_status b = BindCompleted)) || (b_expires_at b <=? now - ONE_DAY)))
    (binds d)) d.

Definition insert_bind_request (code : uuid) (provider user_code nonce : text) (expires : Z) (d : Db)
    : option Db :=
  if bool_decide (is_Some (binds d !! code)) ||
     any_row (fun b => bool_decide (b_user_code b = user_code)) (binds d)
  then None
  else Some (set_binds (<[code := MkBind user_code provider BindPending expires None (Some nonce)]> (binds d)) d).

(** The capped start; [false] when [max_pending] binds already wait. *)
Definition create_bind_request_unless_too_many (now : Z) (code : uuid) (provider user_code nonce : text)
    (expires max_pending : Z) (d : Db) : option (Db * bool) :=
  if max_pending <=? count_where (bind_pending now) (binds d) then Some (d, false)
  else d ← insert_bind_request code provider user_code nonce expires d; Some (d, true).

Definition find_bind_request_by_user_code (now : Z) (user_code : text) (d : Db)
    : option (uuid * BindRequest) :=
  find_row (fun b => bool_decide (b_user_code b = user_code) && bind_pending now b) (binds d).

(** The claim and the bind, together. *)
Definition complete_bind_request (now : Z) (code id : uuid) (provider subject : text)
    (email : option text) (d : Db) : option (Db * option uuid) :=
  match binds d !! code with
  | Some b =>
      if bool_decide (b_provider b = provider) && bind_pending now b then
        '(d, owner) ← bind_identity id provider subject email
          (set_binds (<[code := with_bind_status BindCompleted b]> (binds d)) d);
        Some (set_binds (<[code := MkBind (b_user_code b) (b_provider b) BindCompleted (b_expires_at b)
                (Some owner) (b_nonce b)]> (binds d)) d, Some owner)
      else Some (d, None)
  | None => Some (d, None)
  end.

(** ** Native challenges *)

Definition NATIVE_CHALLENGE_TTL : Z := secs 300.
Definition LOGIN_CAP : Z := 1024.
Definition OWNER_CAP : Z := 64.

Definition is_login (c : NativeChallenge) : bool := bool_decide (c_purpose c = t! "login").

(** The lapsed ones go first; [false] when the purpose's quota is full. *)
Definition create_native_challenge (clock : Z) (hash : text) (c : NativeChallenge) (d : Db)
    : option (Db * bool) :=
  let kept := delete_where (fun e => e.2 <=? clock) (challenges d) in
  if count_where (fun e => Bool.eqb (is_login e.1) (is_login c)) kept <?
     (if is_login c then LOGIN_CAP else OWNER_CAP)
  then
    if bool_decide (is_Some (kept !! hash)) then None
    else Some (set_challenges (<[hash := (c, clock + NATIVE_CHALLENGE_TTL)]> kept) d, true)
  else Some (set_challenges kept d, false).

Definition native_challenge (clock : Z) (hash : text) (d : Db) : option NativeChallenge :=
  e ← challenges d !! hash; if clock <? e.2 then Some e.1 else None.

Inductive IdentityRedemptionRejection := NotBound | InvalidGrant.

Record IdentityRedemption := MkRedemption {
  ir_provider : text;
  ir_subject : text;
  ir_email : option text;
  ir_replay_key : text;
  ir_client : text;
  ir_access_expires : Z;
  ir_refresh_expires : Z;
  ir_authenticated_at : option Z;
}.

(** The challenge still as it was read, for the redeeming client. *)
Definition still_there (clock : Z) (client hash : text) (c : NativeChallenge) (d : Db) : bool :=
  match challenges d !! hash with
  | Some (c', expires) =>
      bool_decide (c' = MkChallenge (c_purpose c) client (c_instance c) (c_nonce c) (c_authority c)) &&
      (clock <? expires)
  | None => false
  end.

(** The token that authorized a bind still works. *)
Definition authority_live (clock : Z) (c : NativeChallenge) (d : Db) : bool :=
  any_row (fun t => bool_decide (Some (t_hash t) = c_authority c) && token_live clock t) (tokens d).

Definition claim_challenge (clock : Z) (client hash : text) (c : NativeChallenge) (d : Db) : option Db :=
  if still_there clock client hash c d then
    let d := set_challenges (delete hash (challenges d)) d in
    if bool_decide (c_purpose c = t! "bind") && negb (authority_live clock c d) then None else Some d
  else None.

(** [ON CONFLICT DO NOTHING]. *)
Definition bind_if_new (id : uuid) (row : OauthIdentity) (d : Db) : option Db :=
  match find_identity (i_provider row) (i_subject row) d with
  | Some _ => Some d
  | None => insert_identity_row id row d
  end.

(** A rejection rolls everything back. *)
Definition redeem_identity_atomically (now clock : Z) (w : Draw) (r : IdentityRedemption)
    (challenge : option (text * NativeChallenge)) (d : Db)
    : option (Db * option IdentityRedemptionRejection) :=
  let purpose := match challenge with Some (_, c) => c_purpose c | None => t! "login" end in
  if bool_decide (purpose = t! "bootstrap") && negb (bootstrap_available d)
  then Some (d, Some InvalidGrant)
  else
    match match challenge with
          | Some (hash, c) => claim_challenge clock (ir_client r) hash c d
          | None => Some d
          end with
    | None => Some (d, Some InvalidGrant)
    | Some d1 =>
        d1 ← (if bool_decide (purpose = t! "login") then Some d1
              else bind_if_new (d_identity_id w)
                     (MkIdentity (ir_provider r) (ir_subject r) (ir_email r)) d1);
        match find_identity (ir_provider r) (ir_subject r) d1 with
        | None => Some (d, Some NotBound)
        | Some (owner, _) =>
            if bool_decide ((ir_provider r, ir_replay_key r) ∈ consumed d1)
            then Some (d, Some InvalidGrant)
            else
              let d1 := set_consumed ({[(ir_provider r, ir_replay_key r)]} ∪ consumed d1) d1 in
              d1 ← mint_oauth_pair_in_tx now w (ir_provider r) owner (ir_client r) (ir_access_expires r)
                     (ir_refresh_expires r) (ir_authenticated_at r) d1;
              Some (d1, None)
        end
    end.

(** ** Transactions *)

Inductive Op :=
| InsertToken (id : uuid) (label hash : text) (created_by : option uuid)
| BootstrapToken (id : uuid) (label hash : text)
| VerifyToken (hash : text)
| IssueOauthToken (id : uuid) (label hash : text) (expires : Z) (provider : text) (owner : uuid)
    (client : text) (session : OAuthSession)
| RemoveToken (id : uuid) (guard : option (list text))
| RevokeTokensForIdentity (owner : uuid)
| BindIdentity (id : uuid) (provider subject : text) (email : option text)
| FindIdentityById (id : uuid)
| RemoveIdentity (id : uuid) (guard : option (list text))
| IssueRefreshToken (id : uuid) (hash : text) (owner : uuid) (client : text) (expires : Z)
    (session : OAuthSession)
| Rotate (old_hash : text) (new_id : uuid) (new_hash : text) (new_expires : Z)
| WhyNotRotated (server_now : Z) (old_hash : text)
| RevokeRefreshSessions (owner : uuid) (client : option text)
| SweepBatch (cutoff : Z) (victims : gset uuid)
| PutPush (id : uuid) (new : PushRegistration)
| DeletePush (id session : uuid)
| DeletePushId (id : uuid)
| ReapPush
| ExpireRequests
| InsertRequest (id : uuid) (client redirect_uri challenge method : text) (client_state : option text)
    (provider upstream_state upstream_nonce : text) (expires : Z)
| CancelRequest (id : uuid)
| CompleteRequest (id owner : uuid) (code_hash : text) (authenticated : option Z)
| RedeemCode (code_hash : text)
| FirstPair (w : Draw) (id : uuid) (request : AuthorizationRequest) (subject : text)
    (email : option text) (access_expires refresh_expires : Z) (authenticated : option Z)
| ExpireBinds
| InsertBind (code : uuid) (provider user_code nonce : text) (expires : Z)
| InsertBindCapped (code : uuid) (provider user_code nonce : text) (expires max_pending : Z)
| CancelBind (code : uuid)
| CompleteBind (code id : uuid) (provider subject : text) (email : option text)
| CreateChallenge (hash : text) (c : NativeChallenge)
| RedeemIdentity (w : Draw) (r : IdentityRedemption) (challenge : option (text * NativeChallenge))
| AccountsChanged (some : bool).

Definition reply (o : Op) : Type :=
  match o with
  | BootstrapToken _ _ _ | DeletePush _ _ | DeletePushId _ | CancelRequest _ | CompleteRequest _ _ _ _
  | FirstPair _ _ _ _ _ _ _ _ | InsertBindCapped _ _ _ _ _ _ | CancelBind _ | CreateChallenge _ _ => bool
  | VerifyToken _ => option VerifiedToken
  | RemoveToken _ _ => TokenRevocation
  | RevokeTokensForIdentity _ | RevokeRefreshSessions _ _ | ReapPush => Z
  | BindIdentity _ _ _ _ => uuid
  | FindIdentityById _ => option OauthIdentity
  | RemoveIdentity _ _ => IdentityRemoval
  | Rotate _ _ _ _ => option RotatedRefreshToken
  | WhyNotRotated _ _ => RedeemRefreshTokenError * option (uuid * text)
  | PutPush _ _ => PushRegistrationOutcome
  | RedeemCode _ => option AuthorizationRequest
  | CompleteBind _ _ _ _ _ => option uuid
  | RedeemIdentity _ _ _ => option IdentityRedemptionRejection
  | _ => unit
  end.

Definition done_ {A} (d : option Db) (a : A) : option (Db * A) := d ← d; Some (d, a).

(** One transaction, by the transaction's clock and the wall clock. *)
Definition apply_op (now clock : Z) (o : Op) (d : Db) : option (Db * reply o) :=
  match o with
  | InsertToken id label hash by_ => done_ (insert_token now id label hash by_ d) tt
  | BootstrapToken id label hash => issue_first_bootstrap_token now id label hash d
  | VerifyToken hash => Some (verify_token now hash d)
  | IssueOauthToken id label hash expires provider owner client session =>
      done_ (issue_oauth_token now id label hash expires provider owner client session d) tt
  | RemoveToken id guard => Some (remove_token now id guard d)
  | RevokeTokensForIdentity owner => Some (revoke_tokens_for_identity now owner d)
  | BindIdentity id provider subject email => bind_identity id provider subject email d
  | FindIdentityById id => Some (d, identities d !! id)
  | RemoveIdentity id guard => remove_identity now id guard d
  | IssueRefreshToken id hash owner client expires session =>
      done_ (issue_refresh_token id hash owner client expires session d) tt
  | Rotate old_hash new_id new_hash new_expires => rotate now old_hash new_id new_hash new_expires d
  | WhyNotRotated server_now old_hash =>
      Some (d, (why_not_rotated server_now old_hash d, owner_of old_hash d))
  | RevokeRefreshSessions owner client => Some (revoke_refresh_sessions now owner client d)
  | SweepBatch cutoff victims => if batch_of cutoff victims d then done_ (delete_batch victims d) tt else None
  | PutPush id new => upsert_push_registration now id new d
  | DeletePush id session => Some (delete_push_registration id session d)
  | DeletePushId id => Some (delete_push_registration_id id d)
  | ReapPush => Some (reap_push_registrations now d)
  | ExpireRequests => Some (delete_expired_authorization_requests now d, tt)
  | InsertRequest id client redirect_uri challenge method state provider ustate unonce expires =>
      done_ (insert_authorization_request id client redirect_uri challenge method state provider
        ustate unonce expires d) tt
  | CancelRequest id => Some (cancel_authorization now id d)
  | CompleteRequest id owner code_hash authenticated =>
      complete_authorization now id owner code_hash authenticated d
  | RedeemCode code_hash => Some (redeem_authorization_code_row now code_hash d)
  | FirstPair w id request subject email aexp rexp authenticated =>
      issue_first_oauth_token_pair now clock w id request subject email aexp rexp authenticated d
  | ExpireBinds => Some (delete_expired_bind_requests now d, tt)
  | InsertBind code provider user_code nonce expires =>
      done_ (insert_bind_request code provider user_code nonce expires d) tt
  | InsertBindCapped code provider user_code nonce expires max_pending =>
      create_bind_request_unless_too_many now code provider user_code nonce expires max_pending d
  | CancelBind code => Some (cancel_bind_request now code d)
  | CompleteBind code id provider subject email => complete_bind_request now code id provider subject email d
  | CreateChallenge hash c => create_native_challenge clock hash c d
  | RedeemIdentity w r challenge => redeem_identity_atomically now clock w r challenge d
  | AccountsChanged some =>
      Some (MkDb (tokens d) (refresh_tokens d) (identities d) (registrations d) (requests d) (binds d)
              (challenges d) (consumed d) some, tt)
  end.

(** A transaction that failed left the tables alone. *)
Definition after_op (now clock : Z) (o : Op) (d : Db) : Db :=
  match apply_op now clock o d with Some (d', _) => d' | None => d end.

Fixpoint run_ops (l : list (Z * Z * Op)) (d : Db) : Db :=
  match l with
  | [] => d
  | (now, clock, o) :: l => run_ops l (after_op now clock o d)
  end.

(** ** How the token table grows *)

(** What may become of a token. *)
Definition evolves (t t' : Token) : Prop :=
  t_hash t' = t_hash t /\ session_id t' = session_id t /\ expires_at t' = expires_at t /\
  authenticated_at t' = authenticated_at t /\ created_by_token_id t' = created_by_token_id t /\
  (forall r, revoked_at t = Some r -> revoked_at t' = Some r) /\
  (oauth_identity_id t' = oauth_identity_id t \/
   (oauth_identity_id t' = None /\ is_Some (revoked_at t'))).

(** A sign-in's token expires. *)
Definition sessions_expire (m : gmap uuid Token) : Prop :=
  forall k t, m !! k = Some t -> is_Some (oauth_identity_id t) -> is_Some (expires_at t).

Record tokens_grow (m m' : gmap uuid Token) : Prop := {
  grow_rows k t : m !! k = Some t -> exists t', m' !! k = Some t' /\ evolves t t';
  grow_hashes : unique_hashes t_hash m -> unique_hashes t_hash m';
  grow_expire : sessions_expire m -> sessions_expire m';
}.

Lemma token_evolves_refl t : evolves t t.
Proof. unfold evolves. split_and!; auto. Qed.

Lemma token_evolves_trans t1 t2 t3 : evolves t1 t2 -> evolves t2 t3 -> evolves t1 t3.
Proof.
  intros (A1 & A2 & A3 & A4 & A5 & A6 & A7) (B1 & B2 & B3 & B4 & B5 & B6 & B7).
  unfold evolves. split_and!; try congruence; [by auto|].
  destruct B7 as [B7|[B7 B8]]; [|by right]. destruct A7 as [A7|[A7 [r Ar]]]; [left; congruence|].
  right. split; [congruence|]. rewrite (B6 r Ar). by eexists.
Qed.

Lemma grow_refl m : tokens_grow m m.
Proof. split; auto. intros k t Hk. exists t. split; [done|apply token_evolves_refl]. Qed.

Lemma grow_trans m1 m2 m3 : tokens_grow m1 m2 -> tokens_grow m2 m3 -> tokens_grow m1 m3.
Proof.
  intros [A1 A2 A3] [B1 B2 B3]. split; auto. intros k t Hk.
  destruct (A1 k t Hk) as (t1 & Ht1 & E1). destruct (B1 k t1 Ht1) as (t2 & Ht2 & E2).
  exists t2. split; [done|by eapply token_evolves_trans].
Qed.

Lemma grow_map (m m' : gmap uuid Token) f :
  (forall k, m' !! k = f k <$> m !! k) -> (forall k t, m !! k = Some t -> evolves t (f k t)) ->
  tokens_grow m m'.
Proof.
  intros Hm Hf. split.
  - intros k t Hk. exists (f k t). split; [by rewrite Hm, Hk|auto].
  - intros Hu k1 k2 a1 a2. rewrite !Hm. intros (t1 & H1 & ->)%fmap_Some (t2 & H2 & ->)%fmap_Some He.
    eapply Hu; eauto. by rewrite <- (proj1 (Hf _ _ H1)), <- (proj1 (Hf _ _ H2)).
  - intros He k a. rewrite Hm. intros (t & Ht & ->)%fmap_Some.
    destruct (Hf _ _ Ht) as (_ & _ & Hx & _ & _ & _ & [Ho|[Ho _]]); rewrite Ho, Hx; [by apply (He k)|].
    by intros [? ?].
Qed.

Lemma evolves_revoke now t : revoked_at t = None -> evolves t (revoke_row now t).
Proof. intros Hn. unfold evolves. cbn. split_and!; auto. intros r Hr. congruence. Qed.

Lemma grow_insert id row d d' :
  insert_token_row id row d = Some d' ->
  (is_Some (oauth_identity_id row) -> is_Some (expires_at row)) ->
  tokens_grow (tokens d) (tokens d').
Proof.
  unfold insert_token_row. destruct (_ || _ || _ || _) eqn:E; [done|]. intros [= <-] He.
  apply orb_false_iff in E as [[[Hid%bool_decide_eq_false Hh]%orb_false_iff _]%orb_false_iff _].
  rewrite <- eq_None_not_Some in Hid. rewrite any_row_false in Hh. cbn.
  assert (forall k a, tokens d !! k = Some a -> t_hash a <> t_hash row) as Hne.
  { intros k a Hk. by apply (bool_decide_eq_false_1 _ (Hh k a Hk)). }
  split.
  - intros k t Hk. exists t. split; [|apply token_evolves_refl]. rewrite lookup_insert_ne; [done|congruence].
  - intros Hu k1 k2 a1 a2. rewrite !lookup_insert_Some.
    intros [[<- <-]|[? H1]] [[<- <-]|[? H2]] Heq; [done| | |by eapply Hu].
    + by destruct (Hne k2 a2 H2).
    + by destruct (Hne k1 a1 H1).
  - intros Hs k t. rewrite lookup_insert_Some. intros [[<- <-]|[_ Hk]]; eauto.
Qed.

Lemma insert_refresh_tokens id row d d' :
  insert_refresh_row id row d = Some d' -> tokens d' = tokens d /\ identities d' = identities d.
Proof. unfold insert_refresh_row. destruct (_ || _ || _); [done|]. by intros [= <-]. Qed.

Lemma insert_identity_tokens id row d d' :
  insert_identity_row id row d = Some d' -> tokens d' = tokens d.
Proof. unfold insert_identity_row. destruct (_ || _); [done|]. by intros [= <-]. Qed.

Lemma bind_identity_tokens id provider subject email d d' k :
  bind_identity id provider subject email d = Some (d', k) -> tokens d' = tokens d.
Proof.
  unfold bind_identity. destruct (find_identity _ _ _) as [[? ?]|]; [by intros [= <- _]|].
  destruct (insert_identity_row _ _ _) eqn:E; cbn; [|done]. intros [= <- _].
  by eapply insert_identity_tokens.
Qed.

Lemma mint_tokens now w provider owner client aexp rexp auth d d' :
  mint_oauth_pair_in_tx now w provider owner client aexp rexp auth d = Some d' ->
  tokens_grow (tokens d) (tokens d').
Proof.
  unfold mint_oauth_pair_in_tx. destruct (issue_oauth_token _ _ _ _ _ _ _ _ _ _) as [d1|] eqn:E1;
    cbn; [|done]. intros E2. apply insert_refresh_tokens in E2 as [-> _].
  eapply grow_insert; [exact E1|]. by eexists.
Qed.

Lemma remove_token_tokens now id guard d :
  tokens_grow (tokens d) (tokens (remove_token now id guard d).1).
Proof.
  unfold remove_token. destruct (tokens d !! id) as [t|] eqn:Et; [|apply grow_refl].
  case_bool_decide as Hrv; cbn.
  - rewrite (proj1 (end_session_spec now t d)). apply grow_refl.
  - assert (tokens_grow (tokens d)
      (tokens (end_session now t (set_tokens (<[id:=revoke_row now t]> (tokens d)) d)))) as Hg.
    { rewrite (proj1 (end_session_spec now t _)). cbn.
      apply (grow_map _ _ (fun k t0 => if bool_decide (k = id) then revoke_row now t else t0)).
      - intros k. case_bool_decide as Hk; [subst; by rewrite lookup_insert, decide_True, Et|].
        rewrite lookup_insert_ne by done. by destruct (tokens d !! k).
      - intros k t0 Hk. case_bool_decide; [subst|apply token_evolves_refl].
        rewrite Et in Hk. injection Hk as <-. apply evolves_revoke.
        by destruct (revoked_at t); [destruct Hrv|]. }
    destruct guard as [usable|]; [|exact Hg]. destruct (_ && _); [apply grow_refl|exact Hg].
Qed.

Lemma unbind_evolves now who d k t :
  tokens d !! k = Some t -> exists t', tokens (unbind_statements now who d) !! k = Some t' /\ evolves t t'.
Proof.
  intros Ht. rewrite unbind_tokens, Ht. cbn. eexists. split; [done|].
  eapply token_evolves_trans.
  - instantiate (1 := if bool_decide (k ∈ minted who d) && bool_decide (revoked_at t = None)
                      then revoke_row now t else t).
    destruct (bool_decide (k ∈ minted who d)); [|apply token_evolves_refl]. cbn.
    destruct (decide (revoked_at t = None)) as [Hn|Hn];
      [rewrite bool_decide_true by done; by apply evolves_revoke|].
    rewrite bool_decide_false by done. apply token_evolves_refl.
  - destruct (of_identity who _); [|apply token_evolves_refl].
    unfold evolves. cbn. split_and!; try done; [|right; split; [done|by eexists]].
    intros r Hr. by rewrite Hr.
Qed.

Lemma remove_identity_tokens now id guard d d' r :
  remove_identity now id guard d = Some (d', r) -> tokens_grow (tokens d) (tokens d').
Proof.
  unfold remove_identity. destruct (identities d !! id); [|intros [= <- _]; apply grow_refl].
  destruct (unbind_unreferenced now id d) as (d1 & -> & _ & Ht & _). cbn.
  assert (tokens_grow (tokens d) (tokens d1)) as Hg.
  { rewrite Ht. apply (grow_map _ _ (fun k t =>
      default t (tokens (unbind_statements now id d) !! k))).
    - intros k. rewrite unbind_tokens. by destruct (tokens d !! k).
    - intros k t Hk. destruct (unbind_evolves now id d k t Hk) as (t' & -> & ?). done. }
  destruct guard as [usable|]; [destruct (surviving_credential_in_tx usable d1)|];
    intros [= <- _]; [done|apply grow_refl|done].
Qed.

Lemma revoke_tokens_tokens now owner d :
  tokens_grow (tokens d) (tokens (revoke_tokens_for_identity now owner d).1).
Proof.
  unfold revoke_tokens_for_identity. cbn.
  apply (grow_map _ _ (fun (_ : uuid) t => if of_identity owner t && bool_decide (revoked_at t = None)
                                  then revoke_row now t else t)); [intros k; apply lookup_update|].
  intros k t _. destruct (of_identity owner t); [|apply token_evolves_refl]. cbn.
  case_bool_decide; [by apply evolves_revoke|apply token_evolves_refl].
Qed.

Lemma verify_tokens now hash d : tokens_grow (tokens d) (tokens (verify_token now hash d).1).
Proof.
  unfold verify_token. destruct (find_row _ _) as [[id t]|] eqn:E; [|apply grow_refl]. cbn.
  apply find_row_Some in E as [Et _].
  apply (grow_map _ _ (fun k t0 => if bool_decide (k = id) then touch now t else t0)).
  - intros k. case_bool_decide as Hk; [subst; by rewrite lookup_insert, decide_True, Et|].
    rewrite lookup_insert_ne by done. by destruct (tokens d !! k).
  - intros k t0 Hk. case_bool_decide; [subst|apply token_evolves_refl]. rewrite Et in Hk. injection Hk as <-.
    unfold evolves. cbn. split_and!; auto.
Qed.

(** ** Ways in *)

(** Every way in is still one. *)
Definition ways_in (d d' : Db) : Prop :=
  (forall k t, tokens d !! k = Some t -> permanent t = true ->
    exists t', tokens d' !! k = Some t' /\ permanent t' = true) /\
  (forall k i, identities d !! k = Some i ->
    exists i', identities d' !! k = Some i' /\ i_provider i' = i_provider i).

Lemma ways_same d d' : tokens d' = tokens d -> identities d' = identities d -> ways_in d d'.
Proof. intros Ht Hi. unfold ways_in. rewrite Ht, Hi. split; eauto. Qed.

Lemma ways_refl d : ways_in d d.
Proof. by apply ways_same. Qed.

Lemma ways_trans d1 d2 d3 : ways_in d1 d2 -> ways_in d2 d3 -> ways_in d1 d3.
Proof.
  intros [A1 A2] [B1 B2]. split.
  - intros k t Hk Hp. destruct (A1 k t Hk Hp) as (t1 & ? & ?). eauto.
  - intros k i Hk. destruct (A2 k i Hk) as (i1 & H1 & E1). destruct (B2 k i1 H1) as (i2 & ? & ?).
    exists i2. split; [done|congruence].
Qed.

Lemma ways_survive usable d d' :
  ways_in d d' -> surviving_credential_in_tx usable d = true ->
  surviving_credential_in_tx usable d' = true.
Proof.
  intros [H1 H2]. unfold surviving_credential_in_tx. rewrite !orb_true_iff, !any_row_true.
  intros [(k & t & Hk & Hp)|(k & i & Hk & Hp%bool_decide_eq_true)].
  - left. destruct (H1 k t Hk Hp) as (t' & ? & ?). eauto.
  - right. destruct (H2 k i Hk) as (i' & ? & E). exists k, i'. split; [done|].
    apply bool_decide_eq_true. by rewrite E.
Qed.

(** What a transaction that removes no credential by name does to the tables of
    credentials. *)
Definition gentle (d d' : Db) : Prop :=
  tokens_grow (tokens d) (tokens d') /\ (sessions_expire (tokens d) -> ways_in d d').

Lemma gentle_same d d' : tokens d' = tokens d -> identities d' = identities d -> gentle d d'.
Proof. intros Ht Hi. split; [rewrite Ht; apply grow_refl|intros _; by apply ways_same]. Qed.

Lemma gentle_trans d1 d2 d3 : gentle d1 d2 -> gentle d2 d3 -> gentle d1 d3.
Proof.
  intros [A1 A2] [B1 B2]. split; [by eapply grow_trans|]. intros Hs.
  eapply ways_trans; [by apply A2|]. apply B2. by apply (grow_expire _ _ A1).
Qed.

Lemma insert_token_gentle id row d d' :
  insert_token_row id row d = Some d' ->
  (is_Some (oauth_identity_id row) -> is_Some (expires_at row)) -> gentle d d'.
Proof.
  intros H He. split; [by eapply grow_insert|]. intros _. revert H. unfold insert_token_row.
  destruct (_ || _ || _ || _) eqn:E; [done|]. intros [= <-].
  apply orb_false_iff in E as [[[Hid%bool_decide_eq_false _]%orb_false_iff _]%orb_false_iff _].
  rewrite <- eq_None_not_Some in Hid. split; cbn; [|eauto].
  intros k t Hk Hp. exists t. split; [|done]. rewrite lookup_insert_ne; [done|congruence].
Qed.

Lemma insert_refresh_gentle id row d d' : insert_refresh_row id row d = Some d' -> gentle d d'.
Proof. intros [? ?]%insert_refresh_tokens. by apply gentle_same. Qed.

Lemma insert_identity_gentle id row d d' : insert_identity_row id row d = Some d' -> gentle d d'.
Proof.
  unfold insert_identity_row. destruct (_ || _) eqn:E; [done|]. intros [= <-].
  apply orb_false_iff in E as [Hid%bool_decide_eq_false _]. rewrite <- eq_None_not_Some in Hid.
  split; [apply grow_refl|]. intros _. split; cbn; [eauto|].
  intros k i Hk. exists i. split; [|done]. rewrite lookup_insert_ne; [done|congruence].
Qed.

Lemma bind_identity_gentle id provider subject email d d' k :
  bind_identity id provider subject email d = Some (d', k) -> gentle d d'.
Proof.
  unfold bind_identity, find_identity. destruct (find_row _ _) as [[j i]|] eqn:E.
  - intros [= <- <-]. apply find_row_Some in E as [Ej [Hp%bool_decide_eq_true _]%andb_true_iff].
    split; [apply grow_refl|]. intros _. split; cbn; [eauto|]. intros k0 i0 Hk0.
    destruct (decide (k0 = j)) as [->|Hne].
    + eexists. rewrite lookup_insert, decide_True by done. split; [done|]. cbn. congruence.
    + exists i0. by rewrite lookup_insert_ne.
  - destruct (insert_identity_row _ _ _) eqn:Ei; cbn; [|done]. intros [= <- <-].
    by eapply insert_identity_gentle.
Qed.

Lemma mint_gentle now w provider owner client aexp rexp auth d d' :
  mint_oauth_pair_in_tx now w provider owner client aexp rexp auth d = Some d' -> gentle d d'.
Proof.
  unfold mint_oauth_pair_in_tx. destruct (issue_oauth_token _ _ _ _ _ _ _ _ _ _) as [d1|] eqn:E1;
    cbn; [|done]. intros E2. eapply gentle_trans; [|by eapply insert_refresh_gentle].
  eapply insert_token_gentle; [exact E1|]. by eexists.
Qed.

Lemma verify_gentle now hash d : gentle d (verify_token now hash d).1.
Proof.
  split; [apply verify_tokens|]. intros _. unfold verify_token.
  destruct (find_row _ _) as [[id t]|] eqn:E; [|apply ways_refl]. cbn.
  apply find_row_Some in E as [Et _]. split; cbn; [|eauto]. intros k t0 Hk Hp.
  destruct (decide (k = id)) as [->|Hne].
  - rewrite lookup_insert, decide_True by done. eexists. split; [done|].
    rewrite Et in Hk. by injection Hk as <-.
  - rewrite lookup_insert_ne by done. eauto.
Qed.

Lemma revoke_tokens_gentle now owner d : gentle d (revoke_tokens_for_identity now owner d).1.
Proof.
  split; [apply revoke_tokens_tokens|]. intros Hs. unfold revoke_tokens_for_identity. split; cbn; [|eauto].
  intros k t Hk Hp. rewrite lookup_update, Hk. cbn. eexists. split; [done|].
  destruct (of_identity owner t) eqn:Eo; [|done]. apply bool_decide_eq_true in Eo.
  destruct (Hs k t Hk) as [e He]; [by rewrite Eo; eexists|]. unfold permanent in Hp.
  apply andb_true_iff in Hp as [_ Hp%bool_decide_eq_true]. congruence.
Qed.

Lemma rotate_gentle now old_hash new_id new_hash new_expires d d' r :
  rotate now old_hash new_id new_hash new_expires d = Some (d', r) -> gentle d d'.
Proof.
  intros H%rotate_spec. destruct r as [r|]; [|by destruct H as [-> _]; apply gentle_same].
  destruct H as (k & row & _ & _ & _ & _ & _ & _ & _ & ->). by apply gentle_same.
Qed.

(** Whether the transaction removes a credential by name. *)
Definition removes (o : Op) : bool :=
  match o with RemoveToken _ _ | RemoveIdentity _ _ => true | _ => false end.

(** Opens the options and branches of a transaction's equation. *)
Ltac open_op H :=
  unfold done_ in H;
  repeat match type of H with
  | mbind _ ?x = Some _ => destruct x eqn:?; cbn in H; [|done]
  | context [match ?x with _ => _ end] => destruct x eqn:?; cbn in H
  end; try done.

(** Closes a transaction that left tokens and identities alone. *)
Ltac close_same :=
  repeat match goal with
  | E : (if ?b then _ else _) = Some _ |- _ => destruct b; try done
  end; simplify_eq; by apply gentle_same.

Lemma gentle_fst {A} d (p : Db * A) d' r : Some p = Some (d', r) -> gentle d p.1 -> gentle d d'.
Proof. intros H. injection H as H. by rewrite H. Qed.

Lemma insert_token_new_gentle now id label hash by_ d d' :
  insert_token now id label hash by_ d = Some d' -> gentle d d'.
Proof. intros H. eapply insert_token_gentle; [exact H|]. by intros [? ?]. Qed.

Lemma first_pair_gentle now clock w id request subject email aexp rexp auth d d' b :
  issue_first_oauth_token_pair now clock w id request subject email aexp rexp auth d = Some (d', b) ->
  gentle d d'.
Proof.
  unfold issue_first_oauth_token_pair. destruct (negb (bootstrap_available d));
    [by intros [= <- <-]; apply gentle_same|].
  destruct (requests d !! id) as [a|]; [|by intros [= <- <-]; apply gentle_same].
  destruct (_ && _ && _ && _ && _); [|by intros [= <- <-]; apply gentle_same].
  set (d0 := set_requests _ d).
  destruct (insert_identity_row _ _ d0) as [d1|] eqn:E1; cbn; [|done].
  destruct (mint_oauth_pair_in_tx _ _ _ _ _ _ _ _ d1) as [d2|] eqn:E2; cbn; [|done].
  intros [= <- <-]. apply (gentle_trans d d0); [by apply gentle_same|].
  eapply gentle_trans; [by eapply insert_identity_gentle|by eapply mint_gentle].
Qed.

Lemma complete_bind_gentle now code id provider subject email d d' r :
  complete_bind_request now code id provider subject email d = Some (d', r) -> gentle d d'.
Proof.
  unfold complete_bind_request. destruct (binds d !! code) as [b|];
    [|by intros [= <- <-]; apply gentle_same].
  destruct (_ && _); [|by intros [= <- <-]; apply gentle_same]. set (d0 := set_binds _ d).
  destruct (bind_identity _ _ _ _ d0) as [[d1 k]|] eqn:E; cbn; [|done]. intros [= <- <-].
  apply (gentle_trans d d0); [by apply gentle_same|].
  eapply gentle_trans; [by eapply bind_identity_gentle|by apply gentle_same].
Qed.

Lemma claim_same clock client hash c d d' :
  claim_challenge clock client hash c d = Some d' ->
  still_there clock client hash c d = true /\ d' = set_challenges (delete hash (challenges d)) d /\
  (c_purpose c = t! "bind" -> authority_live clock c d = true).
Proof.
  unfold claim_challenge. destruct (still_there clock client hash c d); [|done].
  destruct (bool_decide _ && _) eqn:E; [done|]. intros [= <-]. split_and!; try done.
  intros Hp. rewrite bool_decide_true in E by done. cbn in E. by apply negb_false_iff in E.
Qed.

Lemma bind_if_new_gentle id row d d' : bind_if_new id row d = Some d' -> gentle d d'.
Proof.
  unfold bind_if_new. destruct (find_identity _ _ d) as [[? ?]|].
  - intros [= <-]. by apply gentle_same.
  - apply insert_identity_gentle.
Qed.

(** An identity token that is not rejected ran these steps. *)
Lemma redeem_identity_steps now clock w r challenge d d' :
  redeem_identity_atomically now clock w r challenge d = Some (d', None) ->
  exists d1 d2 owner i,
    (match challenge with
     | Some (hash, c) => claim_challenge clock (ir_client r) hash c d = Some d1
     | None => d1 = d
     end) /\
    ((from_option (fun e => is_login e.2 = true) True challenge /\ d2 = d1) \/
     bind_if_new (d_identity_id w) (MkIdentity (ir_provider r) (ir_subject r) (ir_email r)) d1 = Some d2) /\
    find_identity (ir_provider r) (ir_subject r) d2 = Some (owner, i) /\
    ((ir_provider r, ir_replay_key r) ∉ consumed d2) /\
    mint_oauth_pair_in_tx now w (ir_provider r) owner (ir_client r) (ir_access_expires r)
      (ir_refresh_expires r) (ir_authenticated_at r)
      (set_consumed ({[(ir_provider r, ir_replay_key r)]} ∪ consumed d2) d2) = Some d'.
Proof.
  unfold redeem_identity_atomically. set (purpose := match challenge with Some _ => _ | None => _ end).
  destruct (_ && negb (bootstrap_available d)); [done|].
  destruct (match challenge with Some _ => _ | None => Some d end) as [d1|] eqn:E1; [|done].
  destruct (if bool_decide (purpose = _) then _ else _) as [d2|] eqn:E2; cbn; [|done].
  destruct (find_identity _ _ d2) as [[owner i]|] eqn:E3; [|done].
  destruct (bool_decide (_ ∈ consumed d2)) eqn:E4; [done|]. apply bool_decide_eq_false in E4.
  destruct (mint_oauth_pair_in_tx _ _ _ _ _ _ _ _ _) as [d3|] eqn:E5; cbn; [|done].
  intros [= <-]. exists d1, d2, owner, i. split_and!; try done.
  - destruct challenge as [[hash c]|]; congruence.
  - destruct (decide (purpose = t! "login")) as [Hp|Hp].
    + rewrite bool_decide_true in E2 by done. injection E2 as <-. left. split; [|done].
      destruct challenge as [[hash c]|]; [|done]. by apply bool_decide_eq_true.
    + rewrite bool_decide_false in E2 by done. by right.
Qed.

Lemma redeem_identity_rejected now clock w r challenge d d' e :
  redeem_identity_atomically now clock w r challenge d = Some (d', Some e) -> d' = d.
Proof.
  unfold redeem_identity_atomically. set (purpose := match challenge with Some _ => _ | None => _ end).
  destruct (_ && negb (bootstrap_available d)); [by intros [= <- _]|].
  destruct (match challenge with Some _ => _ | None => Some d end) as [d1|]; [|by intros [= <- _]].
  destruct (if bool_decide (purpose = _) then _ else _) as [d2|]; cbn; [|done].
  destruct (find_identity _ _ d2) as [[owner i]|]; [|by intros [= <- _]].
  destruct (bool_decide (_ ∈ consumed d2)); [by intros [= <- _]|].
  by destruct (mint_oauth_pair_in_tx _ _ _ _ _ _ _ _ _).
Qed.

Lemma redeem_identity_gentle now clock w r challenge d d' o :
  redeem_identity_atomically now clock w r challenge d = Some (d', o) -> gentle d d'.
Proof.
  destruct o as [e|]; [intros ->%redeem_identity_rejected; by apply gentle_same|].
  intros (d1 & d2 & owner & i & H1 & H2 & _ & _ & H5)%redeem_identity_steps.
  assert (gentle d d1) as G1.
  { destruct challenge as [[hash c]|]; [|by subst; apply gentle_same].
    apply claim_same in H1 as (_ & -> & _). by apply gentle_same. }
  assert (gentle d1 d2) as G2.
  { destruct H2 as [[_ ->]|H2]; [by apply gentle_same|by eapply bind_if_new_gentle]. }
  eapply gentle_trans; [exact G1|]. eapply gentle_trans; [exact G2|].
  eapply gentle_trans; [|by eapply mint_gentle]. by apply gentle_same.
Qed.

Lemma op_gentle now clock o d d' r :
  removes o = false -> apply_op now clock o d = Some (d', r) -> gentle d d'.
Proof.
  intros Hr H. destruct o; try done; cbn [apply_op] in H.
  - open_op H. simplify_eq. by eapply insert_token_new_gentle.
  - unfold issue_first_bootstrap_token in H. open_op H; simplify_eq;
      [by eapply insert_token_new_gentle|by apply gentle_same].
  - eapply gentle_fst; [exact H|]. apply verify_gentle.
  - open_op H. simplify_eq. eapply insert_token_gentle; [eassumption|by eexists].
  - eapply gentle_fst; [exact H|]. apply revoke_tokens_gentle.
  - by eapply bind_identity_gentle.
  - simplify_eq. by apply gentle_same.
  - open_op H. simplify_eq. by eapply insert_refresh_gentle.
  - by eapply rotate_gentle.
  - simplify_eq. by apply gentle_same.
  - eapply gentle_fst; [exact H|]. by apply gentle_same.
  - unfold delete_batch in H. open_op H; close_same.
  - unfold upsert_push_registration in H. open_op H; close_same.
  - unfold delete_push_registration in H. open_op H; close_same.
  - eapply gentle_fst; [exact H|]. by apply gentle_same.
  - eapply gentle_fst; [exact H|]. by apply gentle_same.
  - simplify_eq. by apply gentle_same.
  - unfold insert_authorization_request in H. open_op H; close_same.
  - unfold cancel_authorization in H. open_op H; close_same.
  - unfold complete_authorization in H. open_op H; close_same.
  - eapply gentle_fst; [exact H|]. by apply gentle_same.
  - by eapply first_pair_gentle.
  - simplify_eq. by apply gentle_same.
  - unfold insert_bind_request in H. open_op H; close_same.
  - unfold create_bind_request_unless_too_many, insert_bind_request in H.
    open_op H; close_same.
  - unfold cancel_bind_request in H. open_op H; close_same.
  - by eapply complete_bind_gentle.
  - unfold create_native_challenge in H. open_op H; close_same.
  - by eapply redeem_identity_gentle.
  - simplify_eq. by apply gentle_same.
Qed.

Lemma op_grows now clock o d : tokens_grow (tokens d) (tokens (after_op now clock o d)).
Proof.
  unfold after_op. destruct (apply_op now clock o d) as [[d' r]|] eqn:E; [|apply grow_refl].
  destruct (removes o) eqn:Hr; [|by destruct (op_gentle _ _ _ _ _ _ Hr E)].
  destruct o; try done; cbn in E.
  - pose proof (remove_token_tokens now id guard d) as G. injection E as E. by rewrite E in G.
  - by eapply remove_identity_tokens.
Qed.

Lemma run_grows l d : tokens_grow (tokens d) (tokens (run_ops l d)).
Proof.
  revert d. induction l as [|[[now clock] o] l IH]; intros d; [apply grow_refl|]. cbn.
  eapply grow_trans; [apply op_grows|apply IH].
Qed.

Lemma unique_hash_found (m : gmap uuid Token) k t k' t' :
  unique_hashes t_hash m -> m !! k = Some t -> m !! k' = Some t' -> t_hash t' = t_hash t -> t' = t.
Proof. intros Hu H1 H2 He. assert (k' = k) as -> by (by eapply Hu). congruence. Qed.

(** What does not verify never verifies again.  Once a token is revoked or
    has expired, no later transactions of any kind, interleaved and failing as they
    may, make its secret verify again; its row stays, with the time of its first
    revocation. *)
Theorem dead_tokens_stay_dead l d k t now now' :
  unique_hashes t_hash (tokens d) -> tokens d !! k = Some t -> token_live now t = false ->
  now <= now' ->
  (verify_token now' (t_hash t) (run_ops l d)).2 = None /\
  exists t', tokens (run_ops l d) !! k = Some t' /\ t_hash t' = t_hash t /\
    expires_at t' = expires_at t /\ (forall r, revoked_at t = Some r -> revoked_at t' = Some r).
Proof.
  intros Hu Hk Hd Hn. destruct (run_grows l d) as [Hrows Huniq _].
  destruct (Hrows k t Hk) as (t' & Hk' & Hh & _ & Hx & _ & _ & Hr & _).
  split; [|exists t'; done].
  unfold verify_token. destruct (find_row _ _) as [[id t1]|] eqn:E; [|done].
  apply find_row_Some in E as [E1 [E2%bool_decide_eq_true E3]%andb_true_iff].
  assert (t1 = t') as ->.
  { apply (unique_hash_found _ k t' id t1 (Huniq Hu)); [done|done|congruence]. }
  unfold token_live, live_credential in *. rewrite Hx in E3.
  apply andb_true_iff in E3 as [E3%bool_decide_eq_true E4].
  apply andb_false_iff in Hd as [Hd%bool_decide_eq_false|Hd].
  - destruct (revoked_at t) as [r|] eqn:Er; [|done]. by rewrite (Hr r) in E3.
  - destruct (expires_at t) as [e|]; [|done]. apply Z.ltb_lt in E4. apply Z.ltb_ge in Hd. lia.
Qed.

(** ** The lockout guard *)

(** A removal asks for the guard. *)
Definition guarded (usable : list text) (o : Op) : Prop :=
  match o with
  | RemoveToken _ guard | RemoveIdentity _ guard => guard = Some usable
  | _ => True
  end.

Lemma remove_expiring_ways now id guard d d' r t :
  remove_token now id guard d = (d', r) -> tokens d !! id = Some t ->
  permanent t = false \/ r = AlreadyRevoked -> ways_in d d'.
Proof.
  intros E Ht Hp. pose proof (remove_token_spec now id guard d) as Hs. rewrite E in Hs.
  assert (identities d' = identities d) as Hi.
  { revert E. unfold remove_token. rewrite Ht.
    destruct (bool_decide _); [intros [= <- _]; apply end_session_spec|].
    destruct guard as [u|]; [destruct (_ && _)|]; intros [= <- _];
      [done|apply (end_session_spec now t (set_tokens _ d))..]. }
  split; [|rewrite Hi; eauto].
  destruct r; [| |destruct Hs as [-> _]; eauto..].
  - destruct Hp as [Hp|?]; [|done]. destruct Hs as (t0 & t' & Ht0 & -> & _).
    intros k t1 Hk Hp1. exists t1. split; [|done]. rewrite lookup_insert_ne; [done|congruence].
  - destruct Hs as (t0 & t' & Ht0 & -> & _ & _ & Hst & _). rewrite (Hst eq_refl), insert_id by done.
    eauto.
Qed.

(** [C7] A guarded instance can always be entered.  As long as every removal of a
    credential asks for the lockout guard, any interleaving of transactions -
    sign-ins, rotations, reuse, revocations, unbinds, sweeps, binds - leaves a way
    in if there was one: a token that never expires, or an identity of a usable
    provider. *)
Theorem guarded_removals_keep_a_way_in usable l d :
  sessions_expire (tokens d) -> surviving_credential_in_tx usable d = true ->
  Forall (fun e => guarded usable e.2) l ->
  surviving_credential_in_tx usable (run_ops l d) = true.
Proof.
  intros Hs Hv Hl. revert d Hs Hv. induction Hl as [|[[now clock] o] l Hg Hl IH]; intros d Hs Hv; [done|].
  cbn. apply IH; [by apply (grow_expire _ _ (op_grows now clock o d))|]. clear IH Hl.
  unfold after_op. destruct (apply_op now clock o d) as [[d' r]|] eqn:E; [|done].
  destruct (removes o) eqn:Hr.
  2: { eapply ways_survive; [|exact Hv]. by apply (op_gentle _ _ _ _ _ _ Hr E). }
  destruct o as [| | | |id guard| | | |id guard| | | | | | | | | | | | | | | | | | | | | | |];
    try done; cbn in Hg, E; subst guard.
  - injection E as E. pose proof (remove_token_spec now id (Some usable) d) as Hsp.
    rewrite E in Hsp. destruct r; [| |by destruct Hsp as [-> _]..].
    + destruct Hsp as (t & t' & Ht & _ & _ & _ & _ & _ & _ & Hok).
      destruct (permanent t) eqn:Ep; [by eapply Hok|].
      eapply ways_survive; [|exact Hv]. eapply remove_expiring_ways; eauto.
    + destruct Hsp as (t & t' & Ht & _).
      eapply ways_survive; [|exact Hv]. eapply remove_expiring_ways; eauto.
  - destruct (remove_identity_spec now id (Some usable) d) as (d1 & r1 & E1 & Hsp).
    rewrite E1 in E. injection E as -> ->.
    destruct r; [|by destruct Hsp as [-> _]..]. destruct Hsp as (_ & _ & _ & _ & _ & Hok). by eapply Hok.
Qed.

(** ** What may be used once *)

(** The tables of things that are used once. *)
Definition same_flows (d d' : Db) : Prop :=
  refresh_tokens d' = refresh_tokens d /\ requests d' = requests d /\
  challenges d' = challenges d /\ consumed d' = consumed d.

Lemma insert_token_flows id row d d' : insert_token_row id row d = Some d' -> same_flows d d'.
Proof. unfold insert_token_row. destruct (_ || _ || _ || _); [done|]. by intros [= <-]. Qed.

Lemma insert_identity_flows id row d d' : insert_identity_row id row d = Some d' -> same_flows d d'.
Proof. unfold insert_identity_row. destruct (_ || _); [done|]. by intros [= <-]. Qed.

Lemma bind_identity_flows id provider subject email d d' k :
  bind_identity id provider subject email d = Some (d', k) -> same_flows d d'.
Proof.
  unfold bind_identity. destruct (find_identity _ _ _) as [[? ?]|]; [by intros [= <- _]|].
  destruct (insert_identity_row _ _ _) eqn:E; cbn; [|done]. intros [= <- _].
  by eapply insert_identity_flows.
Qed.

Lemma bind_if_new_flows id row d d' : bind_if_new id row d = Some d' -> same_flows d d'.
Proof.
  unfold bind_if_new. destruct (find_identity _ _ d) as [[? ?]|]; [by intros [= <-]|].
  apply insert_identity_flows.
Qed.

(** Refresh rows come from rows of the same secret, no less revoked, or hold one of
    the secrets [hs]. *)
Definition refresh_from (hs : list text) (m m' : gmap uuid RefreshToken) : Prop :=
  forall k' r', m' !! k' = Some r' ->
    (exists k r, m !! k = Some r /\ r_hash r' = r_hash r /\
       (is_Some (r_revoked_at r) -> is_Some (r_revoked_at r'))) \/ r_hash r' ∈ hs.

Lemma refresh_same hs d d' : refresh_tokens d' = refresh_tokens d ->
  refresh_from hs (refresh_tokens d) (refresh_tokens d').
Proof. intros -> k r Hk. left. eauto. Qed.

Lemma insert_refresh_from id row d d' :
  insert_refresh_row id row d = Some d' ->
  refresh_from [r_hash row] (refresh_tokens d) (refresh_tokens d') /\
  requests d' = requests d /\ challenges d' = challenges d /\ consumed d' = consumed d.
Proof.
  unfold insert_refresh_row. destruct (_ || _ || _); [done|]. intros [= <-]. cbn. split; [|done].
  intros k' r'. rewrite lookup_insert_Some. intros [[<- <-]|[_ Hk]]; [right; by left|left; eauto].
Qed.

Lemma mint_flows now w provider owner client aexp rexp auth d d' :
  mint_oauth_pair_in_tx now w provider owner client aexp rexp auth d = Some d' ->
  refresh_from [d_refresh_hash w] (refresh_tokens d) (refresh_tokens d') /\
  requests d' = requests d /\ challenges d' = challenges d /\ consumed d' = consumed d.
Proof.
  unfold mint_oauth_pair_in_tx. destruct (issue_oauth_token _ _ _ _ _ _ _ _ _ _) as [d1|] eqn:E1;
    cbn; [|done]. apply insert_token_flows in E1 as (F1 & F2 & F3 & F4).
  intros (G1 & G2 & G3 & G4)%insert_refresh_from. rewrite F1 in G1.
  split; [exact G1|]. split_and!; congruence.
Qed.

(** The refresh secrets and codes a transaction brings in. *)
Definition mints_refresh (o : Op) : list text :=
  match o with
  | IssueRefreshToken _ hash _ _ _ _ => [hash]
  | Rotate _ _ new_hash _ => [new_hash]
  | FirstPair w _ _ _ _ _ _ _ | RedeemIdentity w _ _ => [d_refresh_hash w]
  | _ => []
  end.

Definition mints_code (o : Op) : list text :=
  match o with CompleteRequest _ _ code_hash _ => [code_hash] | _ => [] end.

Definition mints_challenge (o : Op) : list text :=
  match o with CreateChallenge hash _ => [hash] | _ => [] end.

Lemma revoke_refresh_from owner client now (m : gmap uuid RefreshToken) :
  refresh_from [] m (update_where (renews owner client) (revoke_refresh_row now) m).
Proof.
  intros k r'. rewrite lookup_update. intros (r & Hr & ->)%fmap_Some. left. exists k, r.
  by destruct (renews owner client r).
Qed.

Lemma remove_token_refresh now id guard d :
  refresh_from [] (refresh_tokens d) (refresh_tokens (remove_token now id guard d).1).
Proof.
  assert (forall t d, refresh_from [] (refresh_tokens d) (refresh_tokens (end_session now t d))) as He.
  { intros t d0. unfold end_session. destruct (session_of t) as [[who c]|]; cbn;
      [apply revoke_refresh_from|by apply refresh_same]. }
  unfold remove_token. destruct (tokens d !! id) as [t|]; [|by apply refresh_same].
  destruct (bool_decide _); [apply He|].
  specialize (He t (set_tokens (<[id:=revoke_row now t]> (tokens d)) d)).
  destruct guard; [destruct (_ && _)|]; [by apply refresh_same|exact He..].
Qed.

Lemma remove_identity_flows now id guard d d' r :
  remove_identity now id guard d = Some (d', r) ->
  refresh_from [] (refresh_tokens d) (refresh_tokens d') /\
  (forall k a, requests d' !! k = Some a -> requests d !! k = Some a).
Proof.
  intros E. destruct (remove_identity_spec now id guard d) as (d1 & r1 & E1 & Hs).
  rewrite E1 in E. injection E as -> ->.
  destruct r; [|destruct Hs as [-> _]; split; [by apply refresh_same|done]..].
  destruct Hs as (_ & _ & Hr & Ha & _). split.
  - intros k r' Hk. left. destruct (Hr k) as [|(r0 & H1 & H2 & _)]; [congruence|].
    exists k, r0. assert (r' = r0) as -> by congruence. done.
  - intros k a Hk. by apply Ha in Hk as [? _].
Qed.

Lemma rotate_refresh now old_hash new_id new_hash new_expires d d' r :
  rotate now old_hash new_id new_hash new_expires d = Some (d', r) ->
  refresh_from [new_hash] (refresh_tokens d) (refresh_tokens d').
Proof.
  intros H%rotate_spec. destruct r as [r|]; [|by destruct H as [-> _]; apply refresh_same].
  destruct H as (k & row & Hk & _ & _ & _ & _ & _ & _ & ->). cbn. intros k' r'.
  rewrite !lookup_insert_Some. intros [[<- <-]|[_ [[<- <-]|[_ Hk']]]]; [right; by left| |left; eauto].
  left. exists k, row. split_and!; [done|done|]. intros _. by eexists.
Qed.

Lemma redeem_identity_flows now clock w r challenge d d' o :
  redeem_identity_atomically now clock w r challenge d = Some (d', o) ->
  refresh_from [d_refresh_hash w] (refresh_tokens d) (refresh_tokens d') /\
  requests d' = requests d /\ consumed d ⊆ consumed d' /\
  (forall h, challenges d !! h = None -> challenges d' !! h = None) /\
  (o = None -> ((ir_provider r, ir_replay_key r) ∉ consumed d) /\
    ((ir_provider r, ir_replay_key r) ∈ consumed d') /\
    (forall hash c, challenge = Some (hash, c) ->
      still_there clock (ir_client r) hash c d = true /\ challenges d' !! hash = None)).
Proof.
  destruct o as [e|].
  { intros ->%redeem_identity_rejected. split_and!; try done. by apply refresh_same. }
  intros (d1 & d2 & owner & i & H1 & H2 & _ & Hn & H5)%redeem_identity_steps.
  apply mint_flows in H5 as (G1 & G2 & G3 & G4). cbn in G1, G2, G3, G4.
  assert (same_flows d1 d2) as (F1 & F2 & F3 & F4)
    by (destruct H2 as [[_ ->]|H2]; [done|by eapply bind_if_new_flows]).
  assert (refresh_tokens d1 = refresh_tokens d /\ requests d1 = requests d /\ consumed d1 = consumed d /\
    challenges d1 = match challenge with Some (hash, _) => delete hash (challenges d) | None => challenges d end)
    as (C1 & C2 & C3 & C4).
  { destruct challenge as [[hash c]|]; [|by subst]. by apply claim_same in H1 as (_ & -> & _). }
  split_and!.
  - rewrite F1, C1 in G1. exact G1.
  - congruence.
  - rewrite G4, F4, C3. set_solver.
  - intros h Hh. rewrite G3, F3, C4. destruct challenge as [[hash c]|]; [|done].
    apply lookup_delete_None. by right.
  - intros _. split_and!.
    + congruence.
    + rewrite G4. set_solver.
    + intros hash c ->. rewrite G3, F3, C4. split; [by apply claim_same in H1 as [? _]|].
      by rewrite lookup_delete, decide_True.
Qed.

(** Codes that are out come from the same codes out, or are new. *)
Definition codes_from (hs : list text) (m m' : gmap uuid AuthorizationRequest) : Prop :=
  forall k' a' h, m' !! k' = Some a' -> a_status a' = CodeIssued -> a_code_hash a' = Some h ->
    (exists k a, m !! k = Some a /\ a_status a = CodeIssued /\ a_code_hash a = Some h /\
       a_expires_at a = a_expires_at a') \/ h ∈ hs.

Lemma codes_same hs d d' : requests d' = requests d -> codes_from hs (requests d) (requests d').
Proof. intros -> k a h. left. exists k, a. done. Qed.

Lemma codes_insert hs m k a :
  (a_status a = CodeIssued -> exists h, a_code_hash a = Some h /\ h ∈ hs) ->
  codes_from hs m (<[k := a]> m).
Proof.
  intros Ha k' a' h. rewrite lookup_insert_Some. intros [[<- <-]|[_ Hk]] Hs Hh; [|left; exists k', a'; done].
  right. destruct (Ha Hs) as (h' & Hh' & ?). congruence.
Qed.

(** What a transaction does to the tables of things used once. *)
Definition once_step (o : Op) (d d' : Db) : Prop :=
  refresh_from (mints_refresh o) (refresh_tokens d) (refresh_tokens d') /\
  codes_from (mints_code o) (requests d) (requests d') /\
  consumed d ⊆ consumed d' /\
  (forall h, h ∉ mints_challenge o -> challenges d !! h = None -> challenges d' !! h = None).

Lemma once_same o d d' : same_flows d d' -> once_step o d d'.
Proof.
  intros (H1 & H2 & H3 & H4). split_and!; [by apply refresh_same|by apply codes_same|by rewrite H4|].
  intros h _. by rewrite H3.
Qed.

Lemma once_refresh o d d' :
  refresh_from (mints_refresh o) (refresh_tokens d) (refresh_tokens d') ->
  requests d' = requests d -> challenges d' = challenges d -> consumed d' = consumed d ->
  once_step o d d'.
Proof.
  intros H1 H2 H3 H4. split_and!; [done|by apply codes_same|by rewrite H4|]. intros h _. by rewrite H3.
Qed.

Lemma once_codes o d d' :
  codes_from (mints_code o) (requests d) (requests d') ->
  refresh_tokens d' = refresh_tokens d -> challenges d' = challenges d -> consumed d' = consumed d ->
  once_step o d d'.
Proof.
  intros H1 H2 H3 H4. split_and!; [by apply refresh_same|done|by rewrite H4|]. intros h _. by rewrite H3.
Qed.

Lemma once_fst {A} o d (p : Db * A) d' r : Some p = Some (d', r) -> once_step o d p.1 -> once_step o d d'.
Proof. intros H. injection H as H. by rewrite H. Qed.

Lemma remove_token_once now id guard d :
  once_step (RemoveToken id guard) d (remove_token now id guard d).1.
Proof.
  apply once_refresh; [apply remove_token_refresh|..].
  all: unfold remove_token, end_session; destruct (tokens d !! id) as [t|]; [|done].
  all: destruct (session_of t) as [[who c]|]; destruct (bool_decide _); try done.
  all: destruct guard; [destruct (_ && _)|]; done.
Qed.

Lemma remove_identity_once now id guard d d' r :
  remove_identity now id guard d = Some (d', r) -> once_step (RemoveIdentity id guard) d d'.
Proof.
  intros E. pose proof (remove_identity_flows _ _ _ _ _ _ E) as [H1 H2].
  assert (consumed d' = consumed d /\ challenges d' = challenges d) as [H3 H4].
  { revert E. unfold remove_identity. destruct (identities d !! id); [|by intros [= <- _]].
    destruct (delete_identity_row id _) as [d1|] eqn:E; cbn; [|done].
    unfold delete_identity_row in E. destruct (_ || _ || _); [done|]. injection E as <-.
    destruct guard; [destruct (surviving_credential_in_tx _ _)|]; by intros [= <- _]. }
  split_and!; [exact H1| |by rewrite H3|intros h _; by rewrite H4].
  intros k a h Hk Hs Hh. left. exists k, a. split_and!; auto.
Qed.

Lemma first_pair_once now clock w id request subject email aexp rexp auth d d' b :
  issue_first_oauth_token_pair now clock w id request subject email aexp rexp auth d = Some (d', b) ->
  once_step (FirstPair w id request subject email aexp rexp auth) d d'.
Proof.
  unfold issue_first_oauth_token_pair. destruct (negb (bootstrap_available d));
    [by intros [= <- <-]; apply once_same|].
  destruct (requests d !! id) as [a|]; [|by intros [= <- <-]; apply once_same].
  destruct (_ && _ && _ && _ && _); [|by intros [= <- <-]; apply once_same].
  set (d0 := set_requests _ d).
  destruct (insert_identity_row _ _ d0) as [d1|] eqn:E1; cbn; [|done].
  destruct (mint_oauth_pair_in_tx _ _ _ _ _ _ _ _ d1) as [d2|] eqn:E2; cbn; [|done].
  intros [= <- <-]. apply insert_identity_flows in E1 as (F1 & F2 & F3 & F4).
  apply mint_flows in E2 as (G1 & G2 & G3 & G4). rewrite F1 in G1.
  split_and!; [exact G1| |rewrite G4, F4; done|intros h _; by rewrite G3, F3].
  rewrite G2, F2. by apply codes_insert.
Qed.

(** Closes a transaction that touched none of these tables. *)
Ltac close_once :=
  repeat match goal with
  | E : (if ?b then _ else _) = Some _ |- _ => destruct b; try done
  end; simplify_eq; by apply once_same.

Lemma op_once now clock o d d' r : apply_op now clock o d = Some (d', r) -> once_step o d d'.
Proof.
  intros H. destruct o; cbn [apply_op] in H.
  - open_op H. simplify_eq. by eapply once_same, insert_token_flows.
  - unfold issue_first_bootstrap_token in H. open_op H; simplify_eq;
      [by eapply once_same, insert_token_flows|by apply once_same].
  - eapply once_fst; [exact H|]. apply once_same. unfold verify_token.
    by destruct (find_row _ _) as [[? ?]|].
  - open_op H. simplify_eq. by eapply once_same, insert_token_flows.
  - eapply once_fst; [exact H|]. apply remove_token_once.
  - eapply once_fst; [exact H|]. by apply once_same.
  - by eapply once_same, bind_identity_flows.
  - simplify_eq. by apply once_same.
  - by eapply remove_identity_once.
  - open_op H. simplify_eq. apply insert_refresh_from in Heqo as (G1 & G2 & G3 & G4).
    by apply once_refresh.
  - apply once_refresh; [by eapply rotate_refresh|..];
      apply rotate_spec in H; destruct r as [r|];
      (by destruct H as (k & row & _ & _ & _ & _ & _ & _ & _ & ->)) || by destruct H as [-> _].
  - simplify_eq. by apply once_same.
  - eapply once_fst; [exact H|]. apply once_refresh; [apply revoke_refresh_from|done..].
  - unfold delete_batch in H. open_op H. destruct (any_row _ _); [done|]. simplify_eq.
    apply once_refresh; [|done..]. cbn. intros k r' [Hk _]%map_lookup_filter_Some. left. eauto.
  - unfold upsert_push_registration in H. open_op H; close_once.
  - unfold delete_push_registration in H. open_op H; close_once.
  - eapply once_fst; [exact H|]. by apply once_same.
  - eapply once_fst; [exact H|]. by apply once_same.
  - simplify_eq. apply once_codes; [|done..]. cbn.
    intros k a h [Hk _]%lookup_delete_where Hs Hh. left. exists k, a. done.
  - unfold insert_authorization_request in H. open_op H. destruct (bool_decide _); [done|]. simplify_eq.
    apply once_codes; [|done..]. by apply codes_insert.
  - unfold cancel_authorization in H. open_op H; simplify_eq; try by apply once_same.
    apply once_codes; [|done..]. by apply codes_insert.
  - unfold complete_authorization in H. open_op H; simplify_eq; try by apply once_same.
    apply once_codes; [|done..]. apply codes_insert. intros _. eexists. split; [done|by left].
  - eapply once_fst; [exact H|]. apply once_codes; [|done..]. cbn. intros k a h.
    rewrite lookup_update. intros (a0 & Ha & ->)%fmap_Some Hs Hh. left. exists k, a0.
    destruct (redeemable now code_hash a0); [done|]. done.
  - by eapply first_pair_once.
  - simplify_eq. by apply once_same.
  - unfold insert_bind_request in H. open_op H; close_once.
  - unfold create_bind_request_unless_too_many, insert_bind_request in H. open_op H; close_once.
  - unfold cancel_bind_request in H. open_op H; close_once.
  - unfold complete_bind_request in H. open_op H; simplify_eq; try by apply once_same.
    match goal with E : bind_identity _ _ _ _ _ = _ |- _ => apply bind_identity_flows in E end.
    by apply once_same.
  - unfold create_native_challenge in H. open_op H; simplify_eq.
    + split_and!; [by apply refresh_same|by apply codes_same|done|]. cbn. intros h Hh Hn.
      rewrite lookup_insert_ne by set_solver. by apply map_lookup_filter_None_2; left.
    + split_and!; [by apply refresh_same|by apply codes_same|done|]. cbn. intros h _ Hn.
      by apply map_lookup_filter_None_2; left.
  - apply redeem_identity_flows in H as (G1 & G2 & G3 & G4 & _).
    split_and!; [done|by apply codes_same|done|auto].
  - simplify_eq. by apply once_same.
Qed.

Lemma after_once now clock o d : once_step o d (after_op now clock o d).
Proof.
  unfold after_op. destruct (apply_op now clock o d) as [[d' r]|] eqn:E; [by eapply op_once|].
  by apply once_same.
Qed.

Definition spent_refresh (h : text) (d : Db) : Prop :=
  forall k r, refresh_tokens d !! k = Some r -> r_hash r = h -> is_Some (r_revoked_at r).

Definition spent_code (now : Z) (h : text) (d : Db) : Prop :=
  forall k a, requests d !! k = Some a -> a_code_hash a = Some h -> a_status a = CodeIssued ->
    a_expires_at a <= now.

(** Later transactions, none of which brings [h] in again through [mints]. *)
Definition without (mints : Op -> list text) (h : text) (l : list (Z * Z * Op)) : Prop :=
  Forall (fun e => h ∉ mints e.2) l.

Lemma run_keeps mints h (P : Db -> Prop) l d :
  (forall o d d', h ∉ mints o -> once_step o d d' -> P d -> P d') ->
  without mints h l -> P d -> P (run_ops l d).
Proof.
  intros Hstep Hl. revert d. induction Hl as [|[[now clock] o] l Ho Hl IH]; intros d HP; [done|].
  cbn. apply IH. eapply Hstep; [exact Ho|apply after_once|exact HP].
Qed.

Lemma spent_refresh_step h o d d' :
  h ∉ mints_refresh o -> once_step o d d' -> spent_refresh h d -> spent_refresh h d'.
Proof.
  intros Ho (H & _) Hs k r Hk Hh. destruct (H k r Hk) as [(k0 & r0 & H0 & He & Hr)|Hin]; [|congruence].
  apply Hr, (Hs k0 r0 H0). congruence.
Qed.

Lemma spent_code_step now h o d d' :
  h ∉ mints_code o -> once_step o d d' -> spent_code now h d -> spent_code now h d'.
Proof.
  intros Ho (_ & H & _) Hs k a Hk Hh Hi.
  destruct (H k a h Hk Hi Hh) as [(k0 & a0 & H0 & Hi0 & Hh0 & <-)|?]; [by eapply Hs|done].
Qed.

Lemma rotate_spends now old_hash new_id new_hash new_expires d d' r :
  unique_hashes r_hash (refresh_tokens d) ->
  rotate now old_hash new_id new_hash new_expires d = Some (d', Some r) -> spent_refresh old_hash d'.
Proof.
  intros Hu H%rotate_spec. destruct H as (k & row & Hk & Hh & _ & _ & _ & _ & Hne & ->).
  intros k' r'. cbn. rewrite !lookup_insert_Some.
  intros [[<- <-]|[_ [[<- <-]|[Hkk Hk']]]] Hh'; [|by eexists|].
  - cbn in Hh'. destruct (Hne k row Hk). congruence.
  - destruct Hkk. eapply Hu; [exact Hk|exact Hk'|congruence].
Qed.

Lemma redeem_code_spends now code d : spent_code now code (redeem_authorization_code_row now code d).1.
Proof.
  intros k a. cbn. rewrite lookup_update. intros (a0 & Ha0 & ->)%fmap_Some Hh Hi.
  destruct (redeemable now code a0) eqn:Er; [done|]. unfold redeemable in Er.
  rewrite !bool_decide_true in Er by done. cbn in Er. by apply Z.ltb_ge in Er.
Qed.

(** [C18] A grant is used once.  Whatever transactions follow, interleaved and
    failing as they may, and unless the generator repeats a secret: a refresh token
    that was rotated is not rotated again, an authorization code that was redeemed
    is not redeemed again, an identity token is accepted once per provider and
    replay key for ever, and a native challenge is redeemed once. *)
Theorem grants_are_used_once d l :
  unique_hashes r_hash (refresh_tokens d) ->
  (forall now h id h' e d1 r now' id2 h2 e2 d2 r2,
    rotate now h id h' e d = Some (d1, Some r) -> without mints_refresh h l ->
    rotate now' h id2 h2 e2 (run_ops l d1) <> Some (d2, Some r2)) /\
  (forall now code now', now <= now' -> without mints_code code l ->
    (redeem_authorization_code_row now' code
      (run_ops l (redeem_authorization_code_row now code d).1)).2 = None) /\
  (forall now clock w r ch d1 now' clock' w' r' ch' d2,
    redeem_identity_atomically now clock w r ch d = Some (d1, None) ->
    redeem_identity_atomically now' clock' w' r' ch' (run_ops l d1) = Some (d2, None) ->
    (ir_provider r', ir_replay_key r') <> (ir_provider r, ir_replay_key r) /\
    forall hash c c', ch = Some (hash, c) -> without mints_challenge hash l -> ch' <> Some (hash, c')).
Proof.
  intros Hu. split; [|split].
  - intros now h id h' e d1 r now' id2 h2 e2 d2 r2 H1 Hl H2.
    assert (spent_refresh h (run_ops l d1)) as Hs.
    { apply (run_keeps mints_refresh h); [apply spent_refresh_step|exact Hl|].
      by eapply rotate_spends. }
    apply rotate_spec in H2 as (k & row & Hk & Hh & Hlive & _).
    destruct (Hs k row Hk Hh) as [at_ Hat]. unfold refresh_live, live_credential in Hlive.
    rewrite Hat in Hlive. by rewrite bool_decide_false in Hlive.
  - intros now code now' Hn Hl.
    assert (spent_code now code (run_ops l (redeem_authorization_code_row now code d).1)) as Hs.
    { apply (run_keeps mints_code code); [intros o d0 d'; apply spent_code_step|exact Hl|].
      apply redeem_code_spends. }
    unfold redeem_authorization_code_row at 1. cbn [snd].
    destruct (find_row _ _) as [[k a]|] eqn:E; [|done]. apply find_row_Some in E as [Ek Ea].
    unfold redeemable in Ea.
    apply andb_true_iff in Ea as [[Hh%bool_decide_eq_true Hi%bool_decide_eq_true]%andb_true_iff He].
    apply Z.ltb_lt in He. specialize (Hs k a Ek Hh Hi). lia.
  - intros now clock w r ch d1 now' clock' w' r' ch' d2 H1 H2.
    apply redeem_identity_flows in H1 as (_ & _ & _ & _ & H1). destruct (H1 eq_refl) as (_ & Hin & Hch).
    apply redeem_identity_flows in H2 as (_ & _ & _ & _ & H2). destruct (H2 eq_refl) as (Hout & _ & Hch').
    split.
    + intros E. rewrite E in Hout. apply Hout. clear - Hin. revert d1 Hin.
      induction l as [|[[n c] o] l IH]; intros d1 Hin; [done|]. cbn. apply IH.
      destruct (after_once n c o d1) as (_ & _ & Hs & _). by apply Hs.
    + intros hash c c' -> Hl ->. destruct (Hch hash c eq_refl) as [_ Hgone].
      destruct (Hch' hash c' eq_refl) as [Hthere _].
      assert (challenges (run_ops l d1) !! hash = None) as Hn.
      { apply (run_keeps mints_challenge hash (fun d => challenges d !! hash = None));
          [|exact Hl|exact Hgone]. intros o d0 d' Ho (_ & _ & _ & H). by apply H. }
      unfold still_there in Hthere. by rewrite Hn in Hthere.
Qed.

(** ** Concrete runs *)

(** A token whose time is over at 20. *)
Definition expired_token : Token :=
  MkToken (t! "oauth:apple:web") (t! "a1") 0 None None (Some 10) (Some (t! "apple")) (Some 1)
    (Some (t! "web")) None (Some 5) 7.

Definition with_expired : Db := set_tokens {[3 := expired_token]} one_session.

Definition busy : list (Z * Z * Op) :=
  [(21, 21, Rotate (t! "r1") 11 (t! "r2") 300);
   (22, 22, RemoveToken 3 (Some [t! "apple"]));
   (23, 23, RemoveIdentity 1 (Some [t! "apple"]));
   (24, 24, RevokeRefreshSessions 1 (Some (t! "web")))].

Lemma dead_tokens_stay_dead_witness :
  token_live 20 expired_token = false /\ (verify_token 30 (t! "a1") (run_ops busy with_expired)).2 = None.
Proof.
  split; [by vm_compute|].
  destruct (dead_tokens_stay_dead busy with_expired 3 expired_token 20 30) as [H _].
  - intros k1 k2 t1 t2. cbn. rewrite !lookup_singleton_Some. by intros [<- _] [<- _].
  - by vm_compute.
  - by vm_compute.
  - lia.
  - exact H.
Defined.

(** The unbind of the only way in is among them, and is refused. *)
Lemma guarded_removals_keep_a_way_in_witness :
  surviving_credential_in_tx [t! "apple"] with_expired = true /\
  surviving_credential_in_tx [t! "apple"] (run_ops busy with_expired) = true.
Proof.
  split; [by vm_compute|].
  apply (guarded_removals_keep_a_way_in [t! "apple"] busy with_expired).
  - intros k t. cbn. rewrite lookup_singleton_Some. intros [_ <-] _. by eexists.
  - by vm_compute.
  - repeat constructor.
Defined.

Lemma grants_are_used_once_witness :
  (exists d r, rotate 20 (t! "r1") 11 (t! "r2") 300 with_expired = Some (d, Some r)) /\
  forall d r d2 r2, rotate 20 (t! "r1") 11 (t! "r2") 300 with_expired = Some (d, Some r) ->
    rotate 25 (t! "r1") 12 (t! "r3") 300 (run_ops busy d) <> Some (d2, Some r2).
Proof.
  split.
  - destruct (rotate 20 (t! "r1") 11 (t! "r2") 300 with_expired) as [[d [r|]]|] eqn:E; [eauto|..].
    all: exfalso; assert (is_Some (x ← rotate 20 (t! "r1") 11 (t! "r2") 300 with_expired; x.2)) as H
      by (vm_compute; eauto); rewrite E in H; by destruct H.
  - intros d r d2 r2 H.
    assert (unique_hashes r_hash (refresh_tokens with_expired)) as Hu.
    { intros k1 k2 t1 t2. cbn. rewrite !lookup_singleton_Some. by intros [<- _] [<- _]. }
    apply (proj1 (grants_are_used_once with_expired busy Hu) _ _ _ _ _ _ _ _ _ _ _ _ _ H).
    repeat constructor; cbn; set_solver.
Defined.

(** Unbinding is not the end of a request already verified: [issue_token_created_by]
    runs in a transaction of its own, so a token that names a revoked parent is
    minted all the same, and never expires. *)
Example unbind_races_with_a_mint :
  let d := run_ops [(20, 20, RemoveIdentity 1 None);
                    (21, 21, InsertToken 4 (t! "spare") (t! "a2") (Some 3))] with_expired in
  bool_decide (identities d = ∅) = true /\
  (tokens d !! 3 ≫= revoked_at) = Some 20 /\
  bool_decide (is_Some (verify_token 1000000 (t! "a2") d).2) = true.
Proof. split_and!; vm_compute; reflexivity. Qed.
