(* ===== verification/IdentityTokens.v ===== *)
(** * Identity tokens

    Models [crates/axon-api/src/oauth/verification.rs] (the checks on an upstream
    identity token), [provider.rs] (what it proves about the time of the sign-in),
    the providers' own conditions ([generic.rs], [apple.rs]) and [jwks.rs], the
    cache of a provider's keys with its floor between fetches, as tasks that
    interleave at its lock and its network call.  [jsonwebtoken], SHA-256 and
    [chrono]'s conversion are parameters. *)

From stdpp Require Import base gmap sets list strings sorting.
From Stdlib Require Import ZArith Lia.
From S2P Require Import Prelude Text Effects.
Open Scope prog_scope.

Inductive OidcError :=
| Http (what : text)
| Malformed (what : text)
| InvalidIssuer (what : text)
| InvalidAudience (what : text)
| InvalidNonce
| Expired (what : text)
| BadSignature (what : text)
| DisallowedAlgorithm (what : text).

(** What an accepted token asserts. *)
Record VerifiedIdentity := MkVerifiedIdentity {
  vi_subject : text;
  vi_email : option text;
  vi_replay_key : text;
  vi_authenticated_at : option Z;
}.

(** [jsonwebtoken::Algorithm]; the others by name. *)
Inductive Algorithm := RS256 | ES256 | OtherAlgorithm (name : text).
#[export] Instance Algorithm_eq_dec : EqDecision Algorithm.
Proof. solve_decision. Defined.

Definition CLOCK_SKEW_SECS : Z := 60.
Definition MAX_TOKEN_LEN : Z := 16 * 1024.

Record Claims := MkClaims {
  iss : text;
  aud : json;
  sub : text;
  exp : Z;
  iat : Z;
  nbf : option Z;
  email : option text;
  nonce_ : option text;
  jti : option text;
  auth_time : option Z;
  tid : option text;
}.

(** [i64::saturating_add] and [saturating_sub]. *)
Definition i64_sat (z : Z) : Z := Z.max i64_min (Z.min i64_max z).

Definition TENANT : text := t! "{tenantid}".

Definition issuer_matches (configured_issuer token_iss : text) (token_tid : option text) : bool :=
  if contains_text TENANT configured_issuer then
    match token_tid with
    | Some tid => bool_decide (replace_all TENANT tid configured_issuer = token_iss)
    | None => false
    end
  else bool_decide (configured_issuer = token_iss).

Definition audience_contains (aud : json) (expected : text) : bool :=
  match aud with
  | JStr s => bool_decide (s = expected)
  | JArr values => existsb (fun v => bool_decide (as_str v = Some expected)) values
  | _ => false
  end.

Section Verify.
Context {Key : Type}.
Context (decode_header : text -> option (option text * Algorithm)).
Context (decode : text -> Key -> Algorithm -> option Claims).
Context (from_timestamp : Z -> option Z) (hash_token : text -> text).

Definition authentication_time (auth_time : option Z) (iat : Z) (nonce_bound : bool) : option Z :=
  match auth_time with
  | Some auth_time => from_timestamp (Z.min auth_time iat)
  | None => if nonce_bound then from_timestamp iat else None
  end.

(** What verifying asks: the cache for a key, and the clock in seconds. *)
Inductive VQuestion := Resolve (kid : text) | NowSecs.

Definition vanswer (q : VQuestion) : Type :=
  match q with Resolve _ => sum OidcError (Algorithm * Key) | NowSecs => Z end.

Definition ask_v (q : VQuestion) : prog vanswer (vanswer q) := ask (ans := vanswer) q.

(** The error of a key that did not resolve, sanitized. *)
Definition key_error (e : OidcError) : OidcError :=
  match e with
  | Http what => Http what
  | DisallowedAlgorithm _ => DisallowedAlgorithm (t! "unsupported signing key")
  | _ => BadSignature (t! "signing key unavailable")
  end.

Definition check_times (now : Z) (c : Claims) : option OidcError :=
  if i64_sat (exp c + CLOCK_SKEW_SECS) <? now
  then Some (Expired (t! "token expired at " ++ dec (exp c)))
  else if match nbf c with Some nbf => now <? i64_sat (nbf - CLOCK_SKEW_SECS) | None => false end
  then Some (Expired (t! "token not yet valid"))
  else if now <? i64_sat (iat c - CLOCK_SKEW_SECS)
  then Some (Expired (t! "token issued in the future"))
  else None.

(** The replay key: the token's own id, or the hash of the token. *)
Definition replay_key (token : text) (c : Claims) : text :=
  match jti c with
  | Some jti => if bool_decide (jti = []) then hash_token token else jti
  | None => hash_token token
  end.

Definition identity_of (token : text) (nonce : option text) (c : Claims) : VerifiedIdentity :=
  MkVerifiedIdentity (sub c) (email c) (replay_key token c)
    (authentication_time (auth_time c) (iat c) (bool_decide (is_Some nonce))).

Definition verify (token issuer : text) (audiences : list text) (nonce : option text)
    : prog vanswer (sum OidcError VerifiedIdentity) :=
  if MAX_TOKEN_LEN <? utf8_len token
  then Ret (inl (Malformed (t! "identity token exceeds size limit")))
  else
    match decode_header token with
    | None => Ret (inl (Malformed (t! "invalid token header")))
    | Some (None, _) => Ret (inl (BadSignature (t! "token header has no kid")))
    | Some (Some kid, alg) =>
        let! resolved := ask_v (Resolve kid) in
        match resolved with
        | inl e => Ret (inl (key_error e))
        | inr (algorithm, decoding_key) =>
            if negb (bool_decide (alg = algorithm))
            then Ret (inl (DisallowedAlgorithm (t! "token and key algorithms differ")))
            else
              match decode token decoding_key algorithm with
              | None => Ret (inl (BadSignature (t! "invalid signed identity token")))
              | Some claims =>
                  if negb (issuer_matches issuer (iss claims) (tid claims))
                  then Ret (inl (InvalidIssuer (t! "issuer mismatch")))
                  else if negb (existsb (audience_contains (aud claims)) audiences)
                  then Ret (inl (InvalidAudience (t! "audience mismatch")))
                  else if match nonce with
                          | Some expected => negb (bool_decide (nonce_ claims = Some expected))
                          | None => false
                          end
                  then Ret (inl InvalidNonce)
                  else
                    let! now := ask_v NowSecs in
                    match check_times now claims with
                    | Some e => Ret (inl e)
                    | None =>
                        if bool_decide (sub claims = [])
                        then Ret (inl (Malformed (t! "empty identity subject")))
                        else Ret (inr (identity_of token nonce claims))
                    end
              end
        end
    end.

(** ** The providers' conditions *)

Definition ISSUER : text := t! "https://appleid.apple.com".

(** [GenericOidcProvider::verify_identity_token]: the discovered issuer, its own
    client id. *)
Definition generic_verify (issuer client token : text) (nonce : option text) :=
  verify token issuer [client] nonce.

(** [AppleProvider]: never without a nonce. *)
Definition apple_verify (client token : text) (nonce : option text) :=
  match nonce with
  | Some n => if bool_decide (n = []) then Ret (inl InvalidNonce)
              else verify token ISSUER [client] (Some n)
  | None => Ret (inl InvalidNonce)
  end.

Definition verify_native (audiences : list text) (token nonce : text) :=
  if bool_decide (nonce = []) then Ret (inl InvalidNonce)
  else verify token ISSUER audiences (Some nonce).

(** ** What an accepted token said *)

Definition names (aud : json) (expected : text) : Prop :=
  aud = JStr expected \/ exists values, aud = JArr values /\ JStr expected ∈ values.

(** The claims, in integers that do not saturate. *)
Record claims_ok (issuer : text) (audiences : list text) (nonce : option text) (now : Z) (c : Claims)
    : Prop := {
  ok_issuer : issuer_matches issuer (iss c) (tid c) = true;
  ok_audience : exists a, a ∈ audiences /\ names (aud c) a;
  ok_nonce : forall n, nonce = Some n -> nonce_ c = Some n;
  ok_exp : now <= exp c + 60;
  ok_nbf : forall b, nbf c = Some b -> b - 60 <= now;
  ok_iat : iat c - 60 <= now;
  ok_sub : sub c <> [];
}.

(** The claims are [i64]s, as serde reads them. *)
Definition is_i64 (z : Z) : Prop := i64_min <= z <= i64_max.
Definition claims_i64 (c : Claims) : Prop :=
  is_i64 (exp c) /\ is_i64 (iat c) /\ (forall b, nbf c = Some b -> is_i64 b).

Lemma audience_spec aud expected : audience_contains aud expected = true <-> names aud expected.
Proof.
  unfold names. destruct aud; cbn; try (split; [done|by intros [?|(? & ? & _)]]).
  - rewrite bool_decide_eq_true. split; [intros ->; by left|by intros [[= ->]|(? & ? & _)]].
  - rewrite existsb_exists. split.
    + intros (v & Hv%list_elem_of_In & H%bool_decide_eq_true). right. exists items. split; [done|].
      destruct v; try done. cbn in H. by injection H as ->.
    + intros [?|(values & [= <-] & H)]; [done|]. exists (JStr expected).
      split; [by apply list_elem_of_In|by apply bool_decide_eq_true].
Qed.

Lemma audiences_spec aud audiences :
  existsb (audience_contains aud) audiences = true <-> exists a, a ∈ audiences /\ names aud a.
Proof.
  rewrite existsb_exists. setoid_rewrite audience_spec. by setoid_rewrite list_elem_of_In.
Qed.

(** Saturating at the ends of [i64] does not change a comparison with an [i64]. *)
Lemma sat_ltb_l z now : is_i64 now -> i64_min <= z -> (i64_sat z <? now) = (z <? now).
Proof.
  unfold is_i64, i64_sat. intros H Hz. apply eq_true_iff_eq. rewrite !Z.ltb_lt.
  assert (i64_min < i64_max) by done. lia.
Qed.

Lemma sat_ltb_r z now : is_i64 now -> z <= i64_max -> (now <? i64_sat z) = (now <? z).
Proof.
  unfold is_i64, i64_sat. intros H Hz. apply eq_true_iff_eq. rewrite !Z.ltb_lt.
  assert (i64_min < i64_max) by done. lia.
Qed.

Lemma check_times_spec now c :
  is_i64 now -> claims_i64 c -> check_times now c = None <->
  now <= exp c + 60 /\ (forall b, nbf c = Some b -> b - 60 <= now) /\ iat c - 60 <= now.
Proof.
  intros Hn (He & Hi & Hb0). unfold check_times, CLOCK_SKEW_SECS. unfold is_i64 in *.
  rewrite sat_ltb_l, sat_ltb_r by (done || lia).
  assert (match nbf c with Some b => now <? i64_sat (b - 60) | None => false end = false <->
    forall b, nbf c = Some b -> b - 60 <= now) as Hb.
  { destruct (nbf c) as [b|]; [|by split].
    specialize (Hb0 b eq_refl). rewrite sat_ltb_r, Z.ltb_ge by (done || lia).
    split; [intros ? ? [= <-]; done|auto]. }
  destruct (exp c + 60 <? now) eqn:E1; b2p; [split; [done|lia]|].
  match type of Hb with ?b = false <-> _ => destruct b end;
    [split; [done|by intros (_ & ?%Hb & _)]|].
  destruct (now <? iat c - 60) eqn:E2; b2p; [split; [done|lia]|].
  split; [|done]. intros _. split_and!; [done|by apply Hb|done].
Qed.

(** Trace of an accepting run. *)
Abbreviation vev := (ev (ans := vanswer)).

(** The accepting runs. *)
Definition accepting (token issuer : text) (audiences : list text) (nonce : option text)
    (t : list (event vanswer)) (v : VerifiedIdentity) : Prop :=
  exists kid alg key c (now : Z),
    t = [vev (Resolve kid) (inr (alg, key)); vev NowSecs now] /\ is_i64 now /\
    utf8_len token <= 16384 /\ decode_header token = Some (Some kid, alg) /\
    decode token key alg = Some c /\ claims_ok issuer audiences nonce now c /\
    v = identity_of token nonce c.

Lemma verify_spec token issuer audiences nonce t v :
  (forall token key alg c, decode token key alg = Some c -> claims_i64 c) ->
  (forall now : Z, vev NowSecs now ∈ t -> is_i64 now) ->
  runs (verify token issuer audiences nonce) t (inr v) <-> accepting token issuer audiences nonce t v.
Proof.
  intros Hdec Hnow. unfold accepting, verify, MAX_TOKEN_LEN. change (16 * 1024) with 16384.
  destruct (16384 <? utf8_len token) eqn:El; b2p.
  { split; [by intros [_ [=]]|intros (kid & alg & key & c & now & _ & _ & ? & _); lia]. }
  destruct (decode_header token) as [[[kid|] alg]|].
  2, 3: split; [by intros [_ [=]]|by intros (kid & alg' & key & c & now & _ & _ & _ & [=] & _)].
  split.
  - intros (x & t1 & Et & H1)%runs_ask. destruct x as [e|[alg' key]]; [by destruct H1 as [_ [=]]|].
    case_bool_decide as Ha; cbn [negb] in H1; [subst alg'|by destruct H1 as [_ [=]]].
    destruct (decode token key alg) as [c|] eqn:Ed; [|by destruct H1 as [_ [=]]].
    destruct (issuer_matches issuer (iss c) (tid c)) eqn:Ei; cbn [negb] in H1; [|by destruct H1 as [_ [=]]].
    destruct (existsb _ audiences) eqn:Eu; cbn [negb] in H1; [|by destruct H1 as [_ [=]]].
    match type of H1 with runs (if ?b then _ else _) _ _ => destruct b eqn:En end;
      [by destruct H1 as [_ [=]]|].
    destruct (runs_ask NowSecs _ _ _ H1) as (now & t2 & Et2 & H2). cbn in now.
    assert (is_i64 now) as Hi by (apply Hnow; rewrite Et, Et2; by right; left).
    destruct (check_times now c) eqn:Ec; [by destruct H2 as [_ [=]]|].
    case_bool_decide as Es; [by destruct H2 as [_ [=]]|]. destruct H2 as [-> [= ->]].
    apply check_times_spec in Ec as (C1 & C2 & C3); [|done|by eapply Hdec].
    exists kid, alg, key, c, now. split_and!; [by rewrite Et, Et2|done..| |done]. split; try done.
    + by apply audiences_spec.
    + intros n ->. apply negb_false_iff in En. by apply bool_decide_eq_true in En.
  - intros (kid' & alg' & key & c & now & -> & Hi & _ & [= <- <-] & Ed & [] & ->).
    eexists _, _. split; [done|]. cbn [bind ask ask_v].
    rewrite bool_decide_true by done. cbn [negb]. rewrite Ed, ok_issuer0. cbn [negb].
    rewrite (proj2 (audiences_spec _ _)) by done. cbn [negb].
    assert (match nonce with Some n => negb (bool_decide (nonce_ c = Some n)) | None => false end = false)
      as ->.
    { destruct nonce as [n|]; [|done]. by rewrite bool_decide_true by auto. }
    eexists _, _. split; [done|]. rewrite (proj2 (check_times_spec now c Hi (Hdec _ _ _ _ Ed))) by done.
    by rewrite bool_decide_false.
Qed.

(** [C20] An identity is accepted exactly as it was signed.  A run of the
    verification accepts a token if and only if the token is within its size limit,
    names a key that resolved, is signed with the key's own algorithm, and its
    claims name the issuer (with the token's tenant in a template), one of the
    audiences and the expected nonce, are within a minute of skew of their validity
    - no overflow at the ends of [i64] changes a comparison - and have a subject;
    and what it accepts is the claims' subject, email and replay key. *)
Theorem identity_is_as_signed token issuer audiences nonce t v :
  (forall token key alg c, decode token key alg = Some c -> claims_i64 c) ->
  (forall now : Z, vev NowSecs now ∈ t -> is_i64 now) ->
  runs (verify token issuer audiences nonce) t (inr v) <->
  exists kid alg key c (now : Z),
    t = [vev (Resolve kid) (inr (alg, key)); vev NowSecs now] /\ is_i64 now /\
    utf8_len token <= 16384 /\ decode_header token = Some (Some kid, alg) /\
    decode token key alg = Some c /\ claims_ok issuer audiences nonce now c /\
    v = identity_of token nonce c.
Proof. apply verify_spec. Qed.

(** A sign-in's time is evidence, never the moment of redemption.  An accepted
    token without a nonce gives a time only by its own [auth_time]; the time it
    gives is never later than its issuance, at most a minute ahead of the clock,
    and, with a nonce and no [auth_time], exactly its issuance. *)
Theorem sign_in_time_is_evidence token issuer audiences nonce t v at_ :
  (forall s at_, from_timestamp s = Some at_ -> at_ = secs s) ->
  (forall token key alg c, decode token key alg = Some c -> claims_i64 c) ->
  runs (verify token issuer audiences nonce) t (inr v) ->
  (forall now : Z, vev NowSecs now ∈ t -> is_i64 now) ->
  vi_authenticated_at v = Some at_ ->
  exists key alg c (now : Z),
    vev NowSecs now ∈ t /\ decode token key alg = Some c /\
    at_ <= secs (iat c) /\ at_ <= secs (now + 60) /\
    (nonce = None -> exists a, auth_time c = Some a) /\
    (auth_time c = None -> at_ = secs (iat c)) /\
    (forall a, auth_time c = Some a -> at_ <= secs a).
Proof.
  intros Hft Hdec Hr Hnow Hat.
  apply verify_spec in Hr as (kid & alg & key & c & now & -> & Hi & _ & _ & Hd & [] & ->);
    [|done..].
  exists key, alg, c, now. cbn in Hat. unfold authentication_time in Hat.
  assert (forall s, from_timestamp s = Some at_ -> s <= iat c ->
    at_ <= secs (iat c) /\ at_ <= secs (now + 60)) as Hle.
  { intros s ->%Hft Hs. unfold secs, nanos_per_sec. lia. }
  split; [by right; left|]. split; [done|].
  destruct (auth_time c) as [a|].
  - destruct (Hle _ Hat ltac:(lia)) as [? ?]. split_and!; [done|done|eauto|done|].
    intros a' [= <-]. rewrite (Hft _ _ Hat). unfold secs, nanos_per_sec. lia.
  - case_bool_decide as Hs; [|done]. destruct (Hle _ Hat ltac:(lia)) as [? ?].
    split_and!; [done|done| |intros _; by apply Hft|done]. intros ->. by destruct Hs.
Qed.

(** Apple's browser provider and the native verifier accept nothing without a
    nonce. *)
Lemma apple_needs_nonce client token nonce t v :
  runs (apple_verify client token nonce) t (inr v) -> exists n, nonce = Some n /\ n <> [].
Proof.
  unfold apple_verify. destruct nonce as [n|]; [|by intros [_ [=]]].
  case_bool_decide; [by intros [_ [=]]|]. eauto.
Qed.
End Verify.

(** ** The key cache *)

Inductive EllipticCurve := P256 | OtherCurve (name : text).
Inductive AlgorithmParameters := RSA | EC (curve : EllipticCurve) | OtherParameters (name : text).

Section Jwks.
Context {Jwk Key : Type}.
Context (kid_of : Jwk -> option text) (params_of : Jwk -> AlgorithmParameters).
Context (from_jwk : Jwk -> option Key) (min_refresh_interval : Z).

Definition algorithm_and_key (jwk : Jwk) : sum OidcError (Algorithm * Key) :=
  let key alg :=
    match from_jwk jwk with
    | Some key => inr (alg, key)
    | None => inl (Malformed [])
    end in
  match params_of jwk with
  | RSA => key RS256
  | EC P256 => key ES256
  | _ => inl (DisallowedAlgorithm [])
  end.

(** [JwkSet::find]: the first key with that id. *)
Definition find_key (set_ : list Jwk) (kid : text) : option (sum OidcError (Algorithm * Key)) :=
  algorithm_and_key <$> head (filter (fun jwk => kid_of jwk = Some kid) set_).

Definition DEFAULT_MIN_REFRESH_INTERVAL : Z := secs 60.

Record CacheState := MkCache { jwks : option (list Jwk); last_fetched : option Z }.

Definition cached (kid : text) (c : CacheState) : option (sum OidcError (Algorithm * Key)) :=
  set_ ← jwks c; find_key set_ kid.

(** The section under the lock after a miss at the instant [now]: an answer, or the
    refresh slot claimed.  (The message of a miss, which quotes the key id, is left
    out.) *)
Definition claim (kid : text) (now : Z) (c : CacheState)
    : CacheState * option (sum OidcError (Algorithm * Key)) :=
  match cached kid c with
  | Some found => (c, Some found)
  | None =>
      if match last_fetched c with
         | None => true
         | Some last => min_refresh_interval <=? sat_sub now last
         end
      then (MkCache (jwks c) (Some now), None)
      else (c, Some (inl (BadSignature [])))
  end.

(** A call of [resolve], where it last awaited. *)
Inductive Phase :=
| Looking (kid : text)
| Missed (kid : text) (now : Z)
| Fetching (kid : text)
| Storing (kid : text) (fetched : list Jwk).

(** Calls in flight and what the endpoint and the callers saw: the instants at
    which fetches were claimed (latest first), the sets it served, the answers. *)
Record Sys := MkSys {
  cache : CacheState;
  clock : Z;
  calls : gmap nat Phase;
  claims : list Z;
  served : list (list Jwk);
  answers : list (text * sum OidcError (Algorithm * Key));
}.

Inductive JEvent :=
| Call (t : nat) (kid : text)
| Run (t : nat)                                     (* to its next await *)
| Served (t : nat) (r : sum OidcError (list Jwk))   (* its fetch ended *)
| Dropped (t : nat)
| Tick (d : Z).

Definition put (t : nat) (p : Phase) (s : Sys) : Sys :=
  MkSys (cache s) (clock s) (<[t := p]> (calls s)) (claims s) (served s) (answers s).
Definition answer (t : nat) (kid : text) (r : sum OidcError (Algorithm * Key)) (s : Sys) : Sys :=
  MkSys (cache s) (clock s) (delete t (calls s)) (claims s) (served s) ((kid, r) :: answers s).
Definition set_cache (c : CacheState) (s : Sys) : Sys :=
  MkSys c (clock s) (calls s) (claims s) (served s) (answers s).

Definition resolve_step (t : nat) (p : Phase) (s : Sys) : Sys :=
  match p with
  | Looking kid =>
      match cached kid (cache s) with
      | Some found => answer t kid found s
      | None => put t (Missed kid (clock s)) s
      end
  | Missed kid now =>
      match claim kid now (cache s) with
      | (c, Some r) => answer t kid r (set_cache c s)
      | (c, None) =>
          let s := put t (Fetching kid) (set_cache c s) in
          MkSys (cache s) (clock s) (calls s) (now :: claims s) (served s) (answers s)
      end
  | Fetching _ => s
  | Storing kid fetched =>
      let result := match find_key fetched kid with
        | Some r => r
        | None => inl (BadSignature [])
        end in
      answer t kid result (set_cache (MkCache (Some fetched) (last_fetched (cache s))) s)
  end.

Definition jstep (e : JEvent) (s : Sys) : Sys :=
  match e with
  | Call t kid => if bool_decide (is_Some (calls s !! t)) then s else put t (Looking kid) s
  | Run t => match calls s !! t with Some p => resolve_step t p s | None => s end
  | Served t r =>
      match calls s !! t, r with
      | Some (Fetching kid), inl e => answer t kid (inl e) s
      | Some (Fetching kid), inr set_ =>
          let s := put t (Storing kid set_) s in
          MkSys (cache s) (clock s) (calls s) (claims s) (set_ :: served s) (answers s)
      | _, _ => s
      end
  | Dropped t => MkSys (cache s) (clock s) (delete t (calls s)) (claims s) (served s) (answers s)
  | Tick d => MkSys (cache s) (clock s + Z.max 0 d) (calls s) (claims s) (served s) (answers s)
  end.

Definition jrun (l : list JEvent) (s : Sys) : Sys := foldl (fun s e => jstep e s) s l.

Definition cold : Sys := MkSys (MkCache None None) 0 ∅ [] [] [].

(** *** Invariant *)

(** Claims, latest first, each at least the floor after the one before. *)
Fixpoint spaced (l : list Z) : Prop :=
  match l with
  | [] => True
  | x :: l => match l with y :: _ => y + min_refresh_interval <= x | [] => True end /\ spaced l
  end.

Definition from_set (sets : list (list Jwk)) (kid : text) (r : sum OidcError (Algorithm * Key)) : Prop :=
  forall alg key, r = inr (alg, key) -> exists set_ jwk, set_ ∈ sets /\ jwk ∈ set_ /\
    kid_of jwk = Some kid /\ from_jwk jwk = Some key /\
    (alg = RS256 /\ params_of jwk = RSA \/ alg = ES256 /\ params_of jwk = EC P256).

Record jinv (s : Sys) : Prop := {
  inv_spaced : spaced (claims s);
  inv_last : last_fetched (cache s) = head (claims s);
  inv_clock : forall x, x ∈ claims s -> 0 <= x <= clock s;
  inv_now : forall t kid now, calls s !! t = Some (Missed kid now) -> 0 <= now <= clock s;
  inv_cache : forall set_, jwks (cache s) = Some set_ -> set_ ∈ served s;
  inv_storing : forall t kid set_, calls s !! t = Some (Storing kid set_) -> set_ ∈ served s;
  inv_answers : forall kid r, (kid, r) ∈ answers s -> from_set (served s) kid r;
  inv_now0 : 0 <= clock s;
}.

Lemma find_key_from set_ kid r sets : set_ ∈ sets -> find_key set_ kid = Some r -> from_set sets kid r.
Proof.
  intros Hs. unfold find_key. intros (jwk & Hj & ->)%fmap_Some alg key Hr.
  apply head_Some_elem_of in Hj. apply list_elem_of_filter in Hj as [Hk Hj].
  unfold algorithm_and_key in Hr.
  exists set_, jwk. destruct (params_of jwk) as [|[]|]; try done.
  all: destruct (from_jwk jwk) as [k|]; [|done]; injection Hr as <- <-.
  all: split_and!; try done; tauto.
Qed.

Lemma from_set_mono sets set_ kid r : from_set sets kid r -> from_set (set_ :: sets) kid r.
Proof.
  intros H alg key Hr. destruct (H alg key Hr) as (s & j & ? & ?). exists s, j.
  split; [by right|done].
Qed.

Lemma cached_from s kid r : jinv s -> cached kid (cache s) = Some r -> from_set (served s) kid r.
Proof.
  intros H. unfold cached. destruct (jwks (cache s)) as [set_|] eqn:E; [|done].
  cbn. apply find_key_from. by apply (inv_cache s H).
Qed.

Lemma answer_inv t kid r s : jinv s -> from_set (served s) kid r -> jinv (answer t kid r s).
Proof.
  intros [] Hr. split; cbn; auto.
  - intros t' k n [_ ?]%lookup_delete_Some. eauto.
  - intros t' k n [_ ?]%lookup_delete_Some. eauto.
  - intros k' r' [[= -> ->]|?]%elem_of_cons; [done|eauto].
Qed.

Lemma put_inv t p s :
  jinv s -> (forall kid now, p = Missed kid now -> 0 <= now <= clock s) ->
  (forall kid set_, p = Storing kid set_ -> set_ ∈ served s) -> jinv (put t p s).
Proof.
  intros [] Hm Hs. split; cbn; auto.
  - intros t' k n [[_ ?]|[_ ?]]%lookup_insert_Some; eauto.
  - intros t' k n [[_ ?]|[_ ?]]%lookup_insert_Some; eauto.
Qed.

Lemma claimed_inv t kid now s :
  jinv s -> 0 <= now <= clock s ->
  (forall last, last_fetched (cache s) = Some last -> min_refresh_interval <= sat_sub now last) ->
  0 < min_refresh_interval ->
  jinv (MkSys (MkCache (jwks (cache s)) (Some now)) (clock s) (<[t := Fetching kid]> (calls s))
    (now :: claims s) (served s) (answers s)).
Proof.
  intros [] Hn Hl Hpos. split; cbn; auto.
  - split; [|done]. destruct (claims s) as [|y l]; [done|]. cbn in inv_last0.
    specialize (Hl y inv_last0). unfold sat_sub in Hl. lia.
  - intros x [->|?]%elem_of_cons; eauto.
  - intros t' k n [[_ ?]|[_ ?]]%lookup_insert_Some; [done|eauto].
  - intros t' k n [[_ ?]|[_ ?]]%lookup_insert_Some; [done|eauto].
Qed.

Lemma set_cache_same s : set_cache (cache s) s = s.
Proof. by destruct s. Qed.

Lemma resolve_inv t p s :
  0 < min_refresh_interval -> jinv s -> calls s !! t = Some p -> jinv (resolve_step t p s).
Proof.
  intros Hpos H Hp. destruct p as [kid|kid now|kid|kid fetched]; cbn [resolve_step]; [| |done|].
  - destruct (cached kid (cache s)) as [r|] eqn:E; [by apply answer_inv, cached_from|].
    apply put_inv; [done| |done]. intros k n [= _ <-]. split; [apply inv_now0|]; done.
  - unfold claim. destruct (cached kid (cache s)) as [r|] eqn:E.
    + rewrite set_cache_same. by apply answer_inv, cached_from.
    + destruct (last_fetched (cache s)) as [last|] eqn:El.
      * destruct (min_refresh_interval <=? sat_sub now last) eqn:Ei.
        -- apply (claimed_inv t kid now s); try done; [by eapply inv_now|].
           rewrite El. intros ? [= <-]. by apply Z.leb_le.
        -- rewrite set_cache_same. by apply answer_inv; [|intros ? ?].
      * apply (claimed_inv t kid now s); try done; [by eapply inv_now|]. by rewrite El.
  - pose proof (inv_storing s H t kid fetched Hp) as Hs.
    apply (answer_inv t kid _ (set_cache (MkCache (Some fetched) _) s)).
    + destruct H. split; cbn; auto. by intros ? [= <-].
    + cbn. destruct (find_key fetched kid) as [r|] eqn:E; [by eapply find_key_from|by intros ? ?].
Qed.

Lemma jstep_inv e s : 0 < min_refresh_interval -> jinv s -> jinv (jstep e s).
Proof.
  intros Hpos H. destruct e as [t kid|t|t r|t|d]; cbn.
  - case_bool_decide; [done|]. by apply put_inv.
  - destruct (calls s !! t) as [p|] eqn:E; [|done]. by apply resolve_inv.
  - destruct (calls s !! t) as [[| |kid|]|] eqn:E; try done.
    destruct r as [e|set_]; [by apply answer_inv; [|intros ? ?]|].
    destruct H. split; cbn; auto.
    + intros t' k n [[_ ?]|[_ ?]]%lookup_insert_Some; [done|eauto].
    + intros x Hx. right. auto.
    + intros t' k x [[_ [= _ <-]]|[_ ?]]%lookup_insert_Some; [by left|]. right. eauto.
    + intros k x Hx. apply from_set_mono. eauto.
  - destruct H. split; cbn; auto.
    + intros t' k n [_ ?]%lookup_delete_Some. eauto.
    + intros t' k n [_ ?]%lookup_delete_Some. eauto.
  - destruct H. split; cbn; auto; [..|lia].
    + intros x Hx. specialize (inv_clock0 x Hx). lia.
    + intros t k n Hk. specialize (inv_now1 t k n Hk). lia.
Qed.

Lemma cold_inv : jinv cold.
Proof. split; cbn; try done; intros; by match goal with H : _ ∈ [] |- _ => apply elem_of_nil in H end. Qed.

Lemma jrun_inv l : 0 < min_refresh_interval -> jinv (jrun l cold).
Proof.
  intros Hpos. unfold jrun. apply (foldl_inv jinv); [intros; by apply jstep_inv|apply cold_inv].
Qed.

Lemma spaced_length l x :
  0 < min_refresh_interval -> spaced (x :: l) -> Forall (fun y => 0 <= y) (x :: l) ->
  min_refresh_interval * Z.of_nat (length l) <= x.
Proof.
  intros Hpos. revert x. induction l as [|y l IH]; intros x Hs Hf; cbn -[Z.of_nat].
  - apply Forall_cons in Hf as [? _]. lia.
  - destruct Hs as [Hxy Hs]. apply Forall_cons in Hf as [_ Hf]. specialize (IH y Hs Hf). lia.
Qed.

(** Unknown keys cannot amplify into fetches.  However many calls resolve
    whatever key ids, interleaved at every await, dropped or failing: two fetches
    are claimed at least the floor apart, so at most one more than the elapsed
    floors; and a key is answered only from a set the endpoint served, under the
    id it was asked by, with the algorithm of its type, RS256 or ES256. *)
Theorem jwks_fetches_are_paced l :
  0 < min_refresh_interval ->
  let s := jrun l cold in
  spaced (claims s) /\
  min_refresh_interval * (Z.of_nat (length (claims s)) - 1) <= clock s /\
  (forall kid r, (kid, r) ∈ answers s -> from_set (served s) kid r).
Proof.
  intros Hpos s. pose proof (jrun_inv l Hpos) as H. fold s in H. split_and!; [apply H| |apply H].
  destruct (claims s) as [|x xs] eqn:E; [pose proof (inv_now0 s H); cbn; lia|].
  assert (forall y, y ∈ x :: xs -> 0 <= y <= clock s) as Hc by (rewrite <- E; apply H).
  pose proof (inv_spaced s H) as Hs. rewrite E in Hs.
  apply spaced_length in Hs; [|done|by apply Forall_forall; intros y [? _]%Hc].
  specialize (Hc x ltac:(by left)). cbn -[Z.of_nat]. lia.
Qed.
End Jwks.

(** ** A concrete sign-in *)

Definition toy_header (token : text) : option (option text * Algorithm) := Some (Some (t! "k1"), RS256).
Definition toy_claims : Claims :=
  MkClaims (t! "https://login/9/v2") (JArr [JStr (t! "axon")]) (t! "me") 1000 900 None None
    (Some (t! "n")) None None (Some (t! "9")).
Definition toy_decode (token : text) (key : unit) (alg : Algorithm) : option Claims := Some toy_claims.
Definition toy_from_timestamp (s : Z) : option Z := Some (secs s).
Definition toy_issuer : text := t! "https://login/{tenantid}/v2".

(** A minute after its end, the token is still taken. *)
Definition toy_trace : list (event vanswer) :=
  [ev (Resolve (t! "k1")) (inr (RS256, tt)); ev NowSecs 1060].

Definition toy_verified : VerifiedIdentity :=
  identity_of toy_from_timestamp id (t! "jwt") (Some (t! "n")) toy_claims.

Lemma toy_decode_i64 token key alg c : toy_decode token key alg = Some c -> claims_i64 c.
Proof. intros [= <-]. split_and!; [by vm_compute..|done]. Qed.

Lemma toy_now (now : Z) : ev NowSecs now ∈ toy_trace -> is_i64 now.
Proof.
  intros [E|[E|[]%elem_of_nil]%elem_of_cons]%elem_of_cons; [by inversion E|].
  apply (f_equal (fun e => match e with existT NowSecs z => z | _ => 0 end)) in E. cbn in E.
  subst. by vm_compute.
Qed.

Lemma toy_accepting :
  accepting toy_header toy_decode toy_from_timestamp id (t! "jwt") toy_issuer [t! "axon"]
    (Some (t! "n")) toy_trace toy_verified.
Proof.
  exists (t! "k1"), RS256, tt, toy_claims, 1060. split_and!; try done.
  split; try (by vm_compute); try done.
  exists (t! "axon"). split; [by left|]. right. exists [JStr (t! "axon")]. split; [done|by left].
Qed.

Lemma identity_is_as_signed_witness :
  vi_subject toy_verified = t! "me" /\
  runs (verify toy_header toy_decode toy_from_timestamp id (t! "jwt") toy_issuer [t! "axon"]
    (Some (t! "n"))) toy_trace (inr toy_verified).
Proof.
  split; [by vm_compute|].
  apply (identity_is_as_signed toy_header toy_decode toy_from_timestamp id (t! "jwt") toy_issuer
    [t! "axon"] (Some (t! "n")) toy_trace toy_verified toy_decode_i64 toy_now).
  exact toy_accepting.
Defined.

(** A sign-in without [auth_time]: its issuance, though it is redeemed later. *)
Lemma sign_in_time_is_evidence_witness :
  vi_authenticated_at toy_verified = Some (secs 900) /\
  exists key alg c (now : Z), ev NowSecs now ∈ toy_trace /\ toy_decode (t! "jwt") key alg = Some c /\
    secs 900 <= secs (iat c).
Proof.
  split; [by vm_compute|].
  destruct (sign_in_time_is_evidence toy_header toy_decode toy_from_timestamp id (t! "jwt") toy_issuer
    [t! "axon"] (Some (t! "n")) toy_trace toy_verified (secs 900)) as (key & alg & c & now & H1 & H2 & H3 & _).
  - by intros s at_ [= <-].
  - exact toy_decode_i64.
  - apply verify_spec; [exact toy_decode_i64|exact toy_now|exact toy_accepting].
  - exact toy_now.
  - by vm_compute.
  - exists key, alg, c, now. split; [exact H1|]. split; [exact H2|exact H3].
Defined.

(** Two calls miss at once: one fetches. *)
Definition toy_calls : list JEvent :=
  [Tick 5; Call 1 (t! "a"); Call 2 (t! "b"); Run 1; Run 2; Run 1; Run 2;
   Served 1 (inr [(Some (t! "a"), RSA)]); Run 1; Tick 60; Call 3 (t! "c"); Run 3; Run 3].

Definition toy_system : Sys := jrun fst snd (fun _ => Some tt) 60 toy_calls cold.

Lemma jwks_fetches_are_paced_witness :
  claims toy_system = [65; 5] /\ spaced 60 (claims toy_system) /\
  (t! "a", inr (RS256, tt)) ∈ answers toy_system.
Proof.
  split; [by vm_compute|]. split.
  - exact (proj1 (jwks_fetches_are_paced fst snd (fun _ => Some tt) 60 toy_calls eq_refl)).
  - vm_compute. by left.
Defined.
