(* ===== verification/TokenEndpoint.v ===== *)
(** * The token endpoint

    Models [crates/axon-api/src/oauth/tokens.rs]: PKCE, minting a pair, and the
    three grants of [POST /v1/oauth/token] - an authorization code, a refresh
    token, an identity token - as programs over the store's transactions
    ([OAuthFlows.Op]).  Between two questions any other request may run: the
    answers are the environment's.  SHA-256, base64 and the verification of an
    identity token are parameters. *)

From stdpp Require Import base gmap sets list strings.
From Stdlib Require Import ZArith Lia.
From S2P Require Import Prelude Text Effects Credentials OAuthFlows IdentityTokens.
Open Scope prog_scope.

Record TokenPair := MkPair { access_token : text; refresh_token : text; expires_in : Z }.

Inductive TokenError :=
| InvalidGrantError (reason : text)
| UnknownProvider
| NotBoundError
| Oidc (e : OidcError)
| StoreFailed.

(** The runtime: lifetimes, the constructed browser providers, the registered
    clients with their redirects, and whether Apple's native flow is on. *)
Record OAuthRuntime := MkRuntime {
  external_base_url : text;
  access_token_ttl : Z;
  refresh_token_ttl : Z;
  clients : list (text * list text);
  providers : list text;
  native_apple : bool;
}.

(** [Duration::as_secs]; durations and instants are in nanoseconds. *)
Definition as_secs (d : Z) : Z := d / nanos_per_sec.

Section Endpoint.
Context (hash_secret : text -> text) (s256 : text -> text) (runtime : OAuthRuntime).

Definition verify_pkce (code_verifier code_challenge code_challenge_method : text) : bool :=
  if bool_decide (code_challenge_method <> t! "S256") then false
  else bool_decide (s256 code_verifier = code_challenge).

(** The endpoint's questions: transactions ([None]: the store failed), random ids
    and secrets, the clock, and the provider's verification. *)
Inductive EQuestion :=
| Store (o : Op)
| NewId
| NewSecret
| UtcNow
| VerifyIdentity (provider raw : text).

Definition eanswer (q : EQuestion) : Type :=
  match q with
  | Store o => option (reply o)
  | NewId => uuid
  | NewSecret => text
  | UtcNow => Z
  | VerifyIdentity _ _ => sum OidcError VerifiedIdentity
  end.

Abbreviation eprog := (prog eanswer).
Abbreviation result := (sum TokenError TokenPair).

Definition ask_e (q : EQuestion) : eprog (eanswer q) := ask (ans := eanswer) q.

Definition generate_token : eprog text :=
  let! s := ask_e NewSecret in Ret (t! "axon_" ++ s).
Definition generate_refresh_token : eprog text :=
  let! s := ask_e NewSecret in Ret (t! "axon_rt_" ++ s).

(** [Store::issue_oauth_token], which makes the secret it returns. *)
Definition issue_oauth_token_ (label : text) (expires : Z) (provider : text) (owner : uuid)
    (client : text) (session : OAuthSession) : eprog (option text) :=
  let! token := generate_token in
  let! id := ask_e NewId in
  let! r := ask_e (Store (IssueOauthToken id label (hash_secret token) expires provider owner client session)) in
  Ret (match r with Some _ => Some token | None => None end).

Definition mint_token_pair (owner : uuid) (provider client : text) (authenticated : option Z)
    : eprog result :=
  let! now := ask_e UtcNow in
  let! s := ask_e NewId in
  let session := MkSession s authenticated in
  let! issued := issue_oauth_token_ (oauth_label provider client) (now + access_token_ttl runtime)
    provider owner client session in
  match issued with
  | None => Ret (inl StoreFailed)
  | Some access =>
      let! refresh := generate_refresh_token in
      let! id := ask_e NewId in
      let! r := ask_e (Store (IssueRefreshToken id (hash_secret refresh) owner client
        (now + refresh_token_ttl runtime) session)) in
      Ret (match r with
        | None => inl StoreFailed
        | Some _ => inr (MkPair access refresh (as_secs (access_token_ttl runtime)))
        end)
  end.

Definition redeem_authorization_code (code code_verifier client redirect_uri : text) : eprog result :=
  let! r := ask_e (Store (RedeemCode (hash_secret code))) in
  match r with
  | None => Ret (inl StoreFailed)
  | Some None => Ret (inl (InvalidGrantError (t! "unknown or already-used code")))
  | Some (Some request) =>
      if negb (bool_decide (a_client request = client)) ||
         negb (bool_decide (a_redirect_uri request = redirect_uri))
      then Ret (inl (InvalidGrantError (t! "client_id/redirect_uri mismatch")))
      else if negb (verify_pkce code_verifier (a_challenge request) (a_method request))
      then Ret (inl (InvalidGrantError (t! "PKCE verification failed")))
      else
        match a_identity request with
        | None => Ret (inl (InvalidGrantError (t! "flow never completed upstream verification")))
        | Some owner => mint_token_pair owner (a_provider request) client (a_authenticated_at request)
        end
  end.

Definition REUSED : text := t! "refresh token already used; all sessions for this client revoked".

(** [Store::redeem_refresh_token]: the rotation, then why not, then the reuse
    response. *)
Definition redeem_refresh_token_ (old_hash : text) (new_id : uuid) (new_hash : text) (new_expires : Z)
    : eprog (option (sum RedeemRefreshTokenError RotatedRefreshToken)) :=
  let! r := ask_e (Store (Rotate old_hash new_id new_hash new_expires)) in
  match r with
  | None => Ret None
  | Some (Some rotated) => Ret (Some (inr rotated))
  | Some None =>
      let! now := ask_e UtcNow in
      let! why := ask_e (Store (WhyNotRotated now old_hash)) in
      match why with
      | None => Ret None
      | Some (RefreshReused, Some (owner, client)) =>
          let! r := ask_e (Store (RevokeRefreshSessions owner (Some client))) in
          Ret (match r with None => None | Some _ => Some (inl RefreshReused) end)
      | Some (e, _) => Ret (Some (inl e))
      end
  end.

Definition redeem_refresh_token (raw : text) : eprog result :=
  let! new_id := ask_e NewId in
  let! new_raw := generate_refresh_token in
  let! now := ask_e UtcNow in
  let! r := redeem_refresh_token_ (hash_secret raw) new_id (hash_secret new_raw)
    (now + refresh_token_ttl runtime) in
  match r with
  | None => Ret (inl StoreFailed)
  | Some (inl RefreshNotFound) => Ret (inl (InvalidGrantError (t! "unknown refresh token")))
  | Some (inl RefreshExpired) => Ret (inl (InvalidGrantError (t! "refresh token expired")))
  | Some (inl RefreshReused) => Ret (inl (InvalidGrantError REUSED))
  | Some (inr rotated) =>
      let! found := ask_e (Store (FindIdentityById (rot_identity rotated))) in
      match found with
      | None => Ret (inl StoreFailed)
      | Some None => Ret (inl NotBoundError)
      | Some (Some i) =>
          let! now := ask_e UtcNow in
          let! issued := issue_oauth_token_ (oauth_label (i_provider i) (rot_client rotated))
            (now + access_token_ttl runtime) (i_provider i) (rot_identity rotated) (rot_client rotated)
            (MkSession (rot_session rotated) (rot_authenticated_at rotated)) in
          Ret (match issued with
            | None => inl StoreFailed
            | Some access => inr (MkPair access new_raw (as_secs (access_token_ttl runtime)))
            end)
      end
  end.

(** What [redeem_identity_atomically] draws. *)
Definition draw_pair : eprog (text * text * Draw) :=
  let! access_id := ask_e NewId in
  let! refresh_id := ask_e NewId in
  let! identity_id := ask_e NewId in
  let! session := ask_e NewId in
  let! access := generate_token in
  let! refresh := generate_refresh_token in
  Ret (access, refresh,
       MkDraw access_id refresh_id identity_id session (hash_secret access) (hash_secret refresh)).

Definition redeem_identity_token (provider raw client : text) : eprog result :=
  if negb (bool_decide (provider ∈ providers runtime)) then Ret (inl UnknownProvider)
  else
    let! v := ask_e (VerifyIdentity provider raw) in
    match v with
    | inl e => Ret (inl (Oidc e))
    | inr v =>
        let! now := ask_e UtcNow in
        let! now' := ask_e UtcNow in
        let! drawn := draw_pair in
        let '(access, refresh, w) := drawn in
        let! r := ask_e (Store (RedeemIdentity w
          (MkRedemption provider (vi_subject v) (vi_email v) (vi_replay_key v) client
             (now + access_token_ttl runtime) (now' + refresh_token_ttl runtime)
             (vi_authenticated_at v)) None)) in
        Ret (match r with
          | None => inl StoreFailed
          | Some (Some NotBound) => inl NotBoundError
          | Some (Some InvalidGrant) =>
              inl (InvalidGrantError (t! "identity token or native challenge no longer redeemable"))
          | Some None => inr (MkPair access refresh (as_secs (access_token_ttl runtime)))
          end)
    end.

(** ** What a grant may do *)

Inductive Grant :=
| CodeGrant (code code_verifier client redirect_uri : text)
| RefreshGrant (raw : text)
| IdentityGrant (provider raw client : text).

Definition endpoint (g : Grant) : eprog result :=
  match g with
  | CodeGrant code verifier client redirect_uri => redeem_authorization_code code verifier client redirect_uri
  | RefreshGrant raw => redeem_refresh_token raw
  | IdentityGrant provider raw client => redeem_identity_token provider raw client
  end.

Abbreviation etrace := (list (event eanswer)).
Abbreviation eev := (ev (ans := eanswer)).

(** The store just gave up a code recorded for this client and redirect, whose
    challenge the verifier meets, with this identity and sign-in time. *)
Definition code_evidence (g : Grant) (h : etrace) (owner : uuid) (provider client : text)
    (authenticated : option Z) : Prop :=
  exists code verifier redirect_uri request,
    g = CodeGrant code verifier client redirect_uri /\
    eev (Store (RedeemCode (hash_secret code))) (Some (Some request)) ∈ h /\
    a_client request = client /\ a_redirect_uri request = redirect_uri /\
    verify_pkce verifier (a_challenge request) (a_method request) = true /\
    a_identity request = Some owner /\ provider = a_provider request /\
    authenticated = a_authenticated_at request.

(** The store just rotated the presented token, of this identity, client and
    session, and the identity is still bound. *)
Definition refresh_evidence (g : Grant) (h : etrace) (owner : uuid) (provider client : text)
    (session : OAuthSession) : Prop :=
  exists raw new_id new_hash expires rotated i,
    g = RefreshGrant raw /\
    eev (Store (Rotate (hash_secret raw) new_id new_hash expires)) (Some (Some rotated)) ∈ h /\
    eev (Store (FindIdentityById owner)) (Some (Some i)) ∈ h /\
    owner = rot_identity rotated /\ client = rot_client rotated /\ provider = i_provider i /\
    session = MkSession (rot_session rotated) (rot_authenticated_at rotated).

Definition dated (h : etrace) (ttl expires : Z) : Prop :=
  exists now, eev UtcNow now ∈ h /\ expires = now + ttl.

Definition op_allowed (g : Grant) (o : Op) (h : etrace) : Prop :=
  match o with
  | IssueOauthToken _ label _ expires provider owner client session =>
      label = oauth_label provider client /\ dated h (access_token_ttl runtime) expires /\
      ((code_evidence g h owner provider client (os_authenticated_at session) /\
        eev NewId (os_id session) ∈ h) \/
       refresh_evidence g h owner provider client session)
  | IssueRefreshToken _ _ owner client expires session =>
      dated h (refresh_token_ttl runtime) expires /\
      exists id label hash at_ provider,
        eev (Store (IssueOauthToken id label hash at_ provider owner client session)) (Some tt) ∈ h /\
        code_evidence g h owner provider client (os_authenticated_at session)
  | RedeemCode code_hash => h = [] /\ exists code verifier client redirect_uri,
      g = CodeGrant code verifier client redirect_uri /\ code_hash = hash_secret code
  | Rotate old_hash _ _ expires => exists raw, g = RefreshGrant raw /\ old_hash = hash_secret raw /\
      dated h (refresh_token_ttl runtime) expires
  | WhyNotRotated _ old_hash => exists raw new_id new_hash expires,
      g = RefreshGrant raw /\ old_hash = hash_secret raw /\
      eev (Store (Rotate old_hash new_id new_hash expires)) (Some None) ∈ h
  | RevokeRefreshSessions owner client => exists raw now c, g = RefreshGrant raw /\ client = Some c /\
      eev (Store (WhyNotRotated now (hash_secret raw))) (Some (RefreshReused, Some (owner, c))) ∈ h
  | FindIdentityById _ => True
  | RedeemIdentity _ r challenge => challenge = None /\ exists raw v,
      g = IdentityGrant (ir_provider r) raw (ir_client r) /\ ir_provider r ∈ providers runtime /\
      eev (VerifyIdentity (ir_provider r) raw) (inr v) ∈ h /\ ir_subject r = vi_subject v /\
      ir_replay_key r = vi_replay_key v /\ ir_authenticated_at r = vi_authenticated_at v
  | _ => False
  end.

Definition grant_allowed (g : Grant) (q : EQuestion) (h : etrace) : Prop :=
  match q with Store o => op_allowed g o h | _ => True end.

(** A pair is answered only once both of its secrets are in the store. *)
Definition access_stored (h : etrace) (p : TokenPair) : Prop :=
  exists id label expires provider owner client session,
    eev (Store (IssueOauthToken id label (hash_secret (access_token p)) expires provider owner client session))
      (Some tt) ∈ h.

Definition pair_stored (h : etrace) (p : TokenPair) : Prop :=
  (access_stored h p /\ exists id owner client expires session,
     eev (Store (IssueRefreshToken id (hash_secret (refresh_token p)) owner client expires session))
       (Some tt) ∈ h) \/
  (access_stored h p /\ exists old_hash id expires rotated,
     eev (Store (Rotate old_hash id (hash_secret (refresh_token p)) expires)) (Some (Some rotated)) ∈ h) \/
  (exists w r, eev (Store (RedeemIdentity w r None)) (Some None) ∈ h /\
     d_access_hash w = hash_secret (access_token p) /\ d_refresh_hash w = hash_secret (refresh_token p)).

Definition answered (a : result) (h : etrace) : Prop :=
  match a with inr p => pair_stored h p | inl _ => True end.

Abbreviation gwp g p h := (wp (grant_allowed g) p h answered).

Lemma wp_free g {A} q (f : eanswer q -> eprog A) h P :
  (match q with Store _ => False | _ => True end) ->
  (forall x, wp (grant_allowed g) (f x) (h ++ [eev q x]) P) ->
  wp (grant_allowed g) (bind (ask_e q) f) h P.
Proof. intros Hq Hf. apply wp_ask; [by destruct q|exact Hf]. Qed.

Lemma wp_secret g {A} (prefix : text) (f : text -> eprog A) h P :
  (forall s, wp (grant_allowed g) (f (prefix ++ s)) (h ++ [eev NewSecret s]) P) ->
  wp (grant_allowed g) (bind (let! s := ask_e NewSecret in Ret (prefix ++ s)) f) h P.
Proof. intros Hf. apply wp_bind. apply wp_free; [done|]. exact Hf. Qed.

(** Issuing the access token: allowed on the caller's evidence, and its hash is in
    the store when it answers. *)
Lemma wp_issue g label expires provider owner client session h (P : option text -> etrace -> Prop) :
  (forall h', h `prefix_of` h' ->
    forall id hash, op_allowed g (IssueOauthToken id label hash expires provider owner client session) h') ->
  (forall h', h `prefix_of` h' -> P None h') ->
  (forall h' token id, h `prefix_of` h' ->
    eev (Store (IssueOauthToken id label (hash_secret token) expires provider owner client session))
      (Some tt) ∈ h' -> P (Some token) h') ->
  wp (grant_allowed g) (issue_oauth_token_ label expires provider owner client session) h P.
Proof.
  intros Ha Hn Hs. unfold issue_oauth_token_, generate_token. apply wp_secret. intros s.
  apply wp_free; [done|]. intros id. apply wp_ask.
  { apply Ha. by apply prefix_app_r, prefix_app_r. }
  intros [[]|]; cbn.
  - apply (Hs _ _ id); [by repeat apply prefix_app_r|]. in_history.
  - apply Hn. by repeat apply prefix_app_r.
Qed.

Lemma dated_mono h h' ttl e : h `prefix_of` h' -> dated h ttl e -> dated h' ttl e.
Proof. intros Hp (now & Hn & ->). exists now. split; [by eapply elem_of_prefix|done]. Qed.

Lemma code_evidence_mono g h h' owner provider client at_ :
  h `prefix_of` h' -> code_evidence g h owner provider client at_ ->
  code_evidence g h' owner provider client at_.
Proof.
  intros Hp (c & v & u & a & H1 & H2 & H). exists c, v, u, a. split_and!; try apply H; [done|].
  by eapply elem_of_prefix.
Qed.

Lemma gwp_mint g owner provider client at_ h :
  code_evidence g h owner provider client at_ -> gwp g (mint_token_pair owner provider client at_) h.
Proof.
  intros He. unfold mint_token_pair. apply wp_free; [done|]. intros now. apply wp_free; [done|].
  intros s. set (h1 := (h ++ _) ++ _). apply wp_bind. apply wp_issue.
  - intros h' Hp id hash. split_and!; [done| |left; split].
    + exists now. split; [|done]. eapply elem_of_prefix; [|exact Hp]. unfold h1. in_history.
    + eapply code_evidence_mono; [|exact He]. etrans; [|exact Hp]. by apply prefix_app_r, prefix_app_r.
    + eapply elem_of_prefix; [|exact Hp]. unfold h1. cbn. in_history.
  - done.
  - intros h2 token id Hp Hin. unfold generate_refresh_token. apply wp_secret. intros rs.
    apply wp_free; [done|]. intros rid. apply wp_ask.
    + split.
      * exists now. split; [|done]. rewrite !elem_of_app. left; left.
        eapply elem_of_prefix; [|exact Hp]. unfold h1. in_history.
      * exists id, (oauth_label provider client), (hash_secret token),
          (now + access_token_ttl runtime), provider. split; [rewrite !elem_of_app; by left; left|].
        eapply code_evidence_mono; [|exact He]. do 2 apply prefix_app_r. etrans; [|exact Hp].
        by apply prefix_app_r, prefix_app_r.
    + intros [[]|]; [|done]. left. split.
      * eexists _, _, _, _, _, _, _. rewrite !elem_of_app. left; left; left. exact Hin.
      * eexists _, _, _, _, _. in_history.
Qed.

Lemma gwp_code code verifier client redirect_uri :
  let g := CodeGrant code verifier client redirect_uri in gwp g (endpoint g) [].
Proof.
  cbn [endpoint]. unfold redeem_authorization_code. apply wp_ask.
  { split; [done|]. by exists code, verifier, client, redirect_uri. }
  intros [[request|]|]; [|done..].
  destruct (negb (bool_decide (a_client request = client)) || _) eqn:Ec; [done|].
  apply orb_false_iff in Ec as [Hc%negb_false_iff%bool_decide_eq_true Hu%negb_false_iff%bool_decide_eq_true].
  destruct (negb (verify_pkce _ _ _)) eqn:Ep; [done|]. apply negb_false_iff in Ep.
  destruct (a_identity request) as [owner|] eqn:Ei; [|done]. apply gwp_mint.
  exists code, verifier, redirect_uri, request. split_and!; try done. in_history.
Qed.

Lemma gwp_refresh raw : let g := RefreshGrant raw in gwp g (endpoint g) [].
Proof.
  cbn [endpoint]. set (g := RefreshGrant raw). unfold redeem_refresh_token.
  apply wp_free; [done|]. intros new_id. unfold generate_refresh_token. apply wp_secret. intros s.
  apply wp_free; [done|]. intros now. set (h1 := ([] ++ _) ++ _). set (h2 := h1 ++ _).
  apply wp_bind. unfold redeem_refresh_token_. apply wp_ask.
  { exists raw. split_and!; [done|done|]. exists now. split; [|done]. unfold h2. in_history. }
  intros [[rotated|]|]; [| |done].
  - set (h3 := h2 ++ _).
    assert (eev (Store (Rotate (hash_secret raw) new_id (hash_secret (t! "axon_rt_" ++ s))
      (now + refresh_token_ttl runtime))) (Some (Some rotated)) ∈ h3) as Hrot by (unfold h3; in_history).
    clearbody h3. apply wp_ask; [done|]. intros [[i|]|]; [|done..]. apply wp_free; [done|]. intros now2.
    apply wp_bind, wp_issue.
    + intros h' Hp id hash. split_and!; [done| |right].
      * exists now2. split; [|done]. eapply elem_of_prefix; [|exact Hp]. in_history.
      * exists raw, new_id, (hash_secret (t! "axon_rt_" ++ s)), (now + refresh_token_ttl runtime), rotated, i.
        split_and!; try done; (eapply elem_of_prefix; [|exact Hp]); in_history.
    + done.
    + intros h' token id Hp Hin. right; left. split; [by eexists _, _, _, _, _, _, _|].
      eexists _, _, _, _. eapply elem_of_prefix; [|exact Hp]. rewrite !elem_of_app. by left; left.
  - set (h3 := h2 ++ _).
    assert (eev (Store (Rotate (hash_secret raw) new_id (hash_secret (t! "axon_rt_" ++ s))
      (now + refresh_token_ttl runtime))) (Some None) ∈ h3) as Hrot by (unfold h3; in_history).
    clearbody h3. apply wp_free; [done|]. intros now2. apply wp_ask.
    { exists raw, new_id, (hash_secret (t! "axon_rt_" ++ s)), (now + refresh_token_ttl runtime).
      split_and!; [done|done|]. in_history. }
    intros [[[] [[owner client]|]]|]; try done. apply wp_ask; [|by intros [?|]].
    exists raw, now2, client. split_and!; [done|done|]. in_history.
Qed.

Lemma gwp_identity provider raw client : let g := IdentityGrant provider raw client in gwp g (endpoint g) [].
Proof.
  cbn [endpoint]. set (g := IdentityGrant provider raw client). unfold redeem_identity_token.
  destruct (bool_decide (provider ∈ providers runtime)) eqn:Hp; [|done]. apply bool_decide_eq_true in Hp.
  cbn [negb]. apply wp_free; [done|]. intros [e|v]; [done|].
  apply wp_free; [done|]. intros now. apply wp_free; [done|]. intros now'.
  apply wp_bind. unfold draw_pair, generate_token, generate_refresh_token.
  do 4 (apply wp_free; [done|]; intros ?). do 2 (apply wp_secret; intros ?). cbn [wp].
  apply wp_ask.
  - split; [done|]. exists raw, v. cbn. split_and!; try done. in_history.
  - intros [[[]|]|]; try done. right; right. eexists _, _. split; [in_history|done].
Qed.

(** [C24] Tokens are minted on evidence.  In every run of the token endpoint, cut at
    any question and with any other requests between its transactions: a code grant
    mints only after the store gave up that code, for the client, redirect and PKCE
    challenge it was recorded with, and for its identity and sign-in time; a refresh
    mints only for the identity, client, session and sign-in time of the token the
    store just rotated, so no refresh makes a sign-in recent; an identity token is
    redeemed only as the provider verified it; reuse ends exactly the client it was
    detected for; and a pair is answered only once both its secrets are stored. *)
Theorem tokens_are_minted_on_evidence g t :
  (forall t1 q x t2, cut_run (endpoint g) t -> t = t1 ++ eev q x :: t2 -> grant_allowed g q t1) /\
  (forall a, runs (endpoint g) t a -> answered a t).
Proof.
  assert (gwp g (endpoint g) []) as H.
  { destruct g; [apply gwp_code|apply gwp_refresh|apply gwp_identity]. }
  split.
  - intros t1 q x t2 Hr E. exact (wp_cut_run (grant_allowed g) _ [] _ _ _ _ _ _ H Hr E).
  - intros a Hr. exact (wp_runs (grant_allowed g) _ [] _ _ _ H Hr).
Qed.
End Endpoint.

(** ** A concrete refresh *)

Definition toy_runtime : OAuthRuntime := MkRuntime (t! "https://axon") (secs 3600) (secs 2592000) [] [t! "apple"] false.
Definition toy_s256 (t : text) : text := 35 :: t.
Definition toy_grant : Grant := RefreshGrant (t! "axon_rt_old").

Definition toy_rotation : RotatedRefreshToken := MkRotated 11 1 (t! "web") (Some 5) 7.

Definition toy_answers (q : EQuestion) : eanswer q :=
  match q as q return eanswer q with
  | Store (Rotate _ _ _ _) => Some (Some toy_rotation)
  | Store (FindIdentityById _) => Some (Some (MkIdentity (t! "apple") (t! "me") None))
  | Store (IssueOauthToken _ _ _ _ _ _ _ _) => Some tt
  | Store _ => None
  | NewId => 11
  | NewSecret => t! "new"
  | UtcNow => 1000
  | VerifyIdentity _ _ => inl InvalidNonce
  end.

(** The access token of a refresh is minted for the session that was rotated, with
    its sign-in time, and the answered pair is stored. *)
Lemma tokens_are_minted_on_evidence_witness :
  exists t, runs (endpoint id toy_s256 toy_runtime toy_grant) t
    (inr (MkPair (t! "axon_new") (t! "axon_rt_new") 3600)) /\
  pair_stored id t (MkPair (t! "axon_new") (t! "axon_rt_new") 3600).
Proof.
  set (out := exec (fun _ => toy_answers) [] (endpoint id toy_s256 toy_runtime toy_grant)).
  assert (runs (endpoint id toy_s256 toy_runtime toy_grant) out.1
    (inr (MkPair (t! "axon_new") (t! "axon_rt_new") 3600))) as Hr.
  { apply (exec_runs_eq (fun _ => toy_answers)). by vm_compute. }
  exists out.1. split; [exact Hr|].
  exact (proj2 (tokens_are_minted_on_evidence id toy_s256 toy_runtime toy_grant out.1) _ Hr).
Defined.
