(* ===== verification/BearerGate.v ===== *)
(** * The bearer gate and the credential routes

    Models [crates/axon-api/src/auth.rs] (the gate every [/v1/] route passes, the
    step-up check of a credential change, the warning slot), the handlers of
    [routes/management.rs] and [routes/push.rs] that change credentials or push
    registrations, [oauth/bind.rs] (starting a bind), and the layers around them in
    [lib.rs], over the transactions of [OAuthFlows].  Headers are taken after
    [HeaderValue::to_str]; path, query and body are taken decoded. *)

From stdpp Require Import base gmap sets list strings sorting.
From Stdlib Require Import ZArith Lia.
From S2P Require Import Prelude Text Effects Credentials OAuthFlows IdentityTokens TokenEndpoint.
Open Scope prog_scope.

(** ** The token of a request *)

Definition bearer_from_headers (authorization : option text) : option text :=
  value ← authorization;
  '(scheme, token) ← split_once 32 value;
  if negb (eq_ignore_ascii_case scheme (t! "bearer")) then None
  else let token := trim token in if bool_decide (token = []) then None else Some token.

Definition RECENT_SIGN_IN_WINDOW : Z := secs (10 * 60).

Definition may_change_credentials (now : Z) (token : VerifiedToken) : bool :=
  bool_decide (v_expires_at token = None) ||
  match v_authenticated_at token with
  | Some at_ => now - at_ <=? RECENT_SIGN_IN_WINDOW
  | None => false
  end.

(** One process-wide slot: the instant of the last warning. *)
Definition allow_warning (now : Z) (last : option Z) : option Z * bool :=
  match last with
  | Some at_ => if sat_sub now at_ <? secs 30 then (last, false) else (Some now, true)
  | None => (Some now, true)
  end.

(** ** Answers *)

Inductive BindRefusal :=
| OauthDisabled | UnknownBindProvider | ProviderDisabled (name : text) | ExternalBaseUrlMissing.

(** The errors of these routes, by what tells them apart on the wire. *)
Inductive ApiError :=
| MissingToken | InvalidToken | ManagementDisabled | RecentSignInRequired
| BadRequest (why : text) | NotFound (why : text) | LastCredential
| BindUnavailable (why : BindRefusal) | TooManyPending
| PushProviderUnsupported | PushEnvironmentInvalid | PushSessionRefreshRequired | CredentialOver
| Forbidden (why : text) | Conflict (why : text) | TooManyRequests (why : text)
| PayloadTooLarge (why : text) | Internal.

Inductive Response :=
| NoContent
| Minted (id : uuid) (label token : text)
| BindStarted (id : uuid) (url : text)
| Registered (id : uuid).

(** What a transaction that failed reports. *)
Inductive StoreError := UniqueViolation | OtherStoreError.

Inductive GQuestion := Tx (o : Op) | Now | FreshId | Secret | DrawChar | WakeRouter.

Definition ganswer (q : GQuestion) : Type :=
  match q with
  | Tx o => sum StoreError (reply o)
  | Now => Z
  | FreshId => uuid
  | Secret => text
  | DrawChar => nat
  | WakeRouter => unit
  end.

Abbreviation gprog := (prog ganswer).
Abbreviation outcome := (sum ApiError Response).
Definition ask_g (q : GQuestion) : gprog (ganswer q) := ask (ans := ganswer) q.

(** ** Token labels *)

Definition TOKEN_LABEL_MAX_CHARS : nat := 80.
Definition GENERATED_LABEL_PREFIX : text := t! "oauth:".

Definition label_char_allowed (c : Z) : bool :=
  negb (is_control c || (c =? 173) || (c =? 1564) || (c =? 6158) ||
    ((8203 <=? c) && (c <=? 8207)) || ((8234 <=? c) && (c <=? 8238)) ||
    ((8288 <=? c) && (c <=? 8303)) || (c =? 65279) || ((65529 <=? c) && (c <=? 65531)) ||
    ((917504 <=? c) && (c <=? 917631))).

Definition is_generated_label (label : text) : bool :=
  match get_to (utf8_len GENERATED_LABEL_PREFIX) label with
  | Some prefix => eq_ignore_ascii_case prefix GENERATED_LABEL_PREFIX
  | None => false
  end.

Definition validate_label (label : text) : sum ApiError text :=
  let label := trim label in
  if bool_decide (label = []) then inl (BadRequest (t! "label must not be empty"))
  else if (TOKEN_LABEL_MAX_CHARS <? length label)%nat
  then inl (BadRequest (t! "label must be at most 80 characters"))
  else if negb (forallb label_char_allowed label)
  then inl (BadRequest (t! "label must not contain control or invisible formatting characters"))
  else if is_generated_label label
  then inl (BadRequest (t! "label must not start with oauth:"))
  else inr label.

Definition sanitize_label (label : text) : option text :=
  let cleaned := filter (fun c => label_char_allowed c = true) label in
  let cleaned := take TOKEN_LABEL_MAX_CHARS (trim cleaned) in
  let cleaned := trim_end cleaned in
  if bool_decide (cleaned = []) || is_generated_label cleaned then None else Some cleaned.

(** ** Providers and binds *)

Definition APPLE : text := t! "apple".

Definition sign_in_providers (runtime : option OAuthRuntime) : list text :=
  match runtime with
  | None => []
  | Some r => sort_texts (if native_apple r && negb (bool_decide (APPLE ∈ providers r))
                          then providers r ++ [APPLE] else providers r)
  end.

Definition PROVIDERS : list text := [t! "apple"; t! "google"; t! "microsoft"].
Definition USER_CODE_ALPHABET : text := t! "ABCDEFGHJKLMNPQRSTUVWXYZ23456789".
Definition MAX_PENDING_BINDS : Z := 5.
Definition USER_CODE_ATTEMPTS : nat := 3.
Definition HANDSHAKE_TTL : Z := secs (10 * 60).

Record BindTarget := MkTarget { bt_provider : text; bt_base : text }.

Definition check (oauth_enabled : bool) (base : option text) (provider : text)
    (provider_ready : text -> option BindRefusal) : sum BindRefusal BindTarget :=
  if negb oauth_enabled then inl OauthDisabled
  else if negb (bool_decide (provider ∈ PROVIDERS)) then inl UnknownBindProvider
  else
    match provider_ready provider with
    | Some refusal => inl refusal
    | None =>
        match trim_end_matches 47 <$> base with
        | Some (c :: url) => inr (MkTarget provider (c :: url))
        | _ => inl ExternalBaseUrlMissing
        end
    end.

Definition bind_target (runtime : option OAuthRuntime) (provider : text) : sum BindRefusal BindTarget :=
  check (bool_decide (is_Some runtime)) (external_base_url <$> runtime) provider (fun name =>
    match runtime with
    | Some r => if bool_decide (name ∈ providers r) then None else Some (ProviderDisabled name)
    | None => Some (ProviderDisabled name)
    end).

(** [random_range] gives an index below the alphabet's length. *)
Definition draw_char : gprog Z :=
  let! i := ask_g DrawChar in
  Ret (nth (i mod length USER_CODE_ALPHABET)%nat USER_CODE_ALPHABET 0).

Fixpoint draw_chars (n : nat) : gprog text :=
  match n with
  | O => Ret []
  | S n => let! c := draw_char in let! cs := draw_chars n in Ret (c :: cs)
  end.

Definition generate_user_code : gprog text :=
  let! chars := draw_chars 8 in Ret (take 4 chars ++ t! "-" ++ drop 4 chars).

(** [Store::create_bind_request_unless_too_many]: a sweep, then the capped insert. *)
Definition create_capped (provider user_code : text) (expires : Z)
    : gprog (sum StoreError (option uuid)) :=
  let! swept := ask_g (Tx ExpireBinds) in
  match swept with
  | inl e => Ret (inl e)
  | inr _ =>
      let! id := ask_g FreshId in
      let! nonce := ask_g Secret in
      let! r := ask_g (Tx (InsertBindCapped id provider user_code nonce expires MAX_PENDING_BINDS)) in
      Ret (match r with inl e => inl e | inr true => inr (Some id) | inr false => inr None end)
  end.

(** [BindTarget::start], capped; [retries] is the attempts after this one. *)
Fixpoint start (target : BindTarget) (retries : nat) : gprog outcome :=
  let! user_code := generate_user_code in
  let! now := ask_g Now in
  let! created := create_capped (bt_provider target) user_code (now + HANDSHAKE_TTL) in
  match created with
  | inr (Some id) => Ret (inr (BindStarted id (bt_base target ++ t! "/v1/oauth/bind?user_code=" ++ user_code)))
  | inr None => Ret (inl TooManyPending)
  | inl UniqueViolation => match retries with S retries => start target retries | O => Ret (inl Internal) end
  | inl OtherStoreError => Ret (inl Internal)
  end.

(** ** Push registrations *)

Definition MAX_TOKEN_BYTES : Z := 4096.

Definition unacceptable_token (token : text) : option text :=
  if bool_decide (token = []) || (MAX_TOKEN_BYTES <? utf8_len token) then Some (t! "length")
  else if existsb (fun byte => (byte <? 32) || (byte =? 127)) (utf8_encode token)
  then Some (t! "control")
  else if negb (bool_decide (token = trim token)) then Some (t! "whitespace")
  else None.

Record PutPushRequest := MkPut {
  put_provider : text;
  put_token : text;
  put_disclosure : text;
  put_environment : option text;
  put_badge : bool;
}.

Definition DISCLOSURES : list text := [t! "activity"; t! "sender_and_room"; t! "preview"].

(** What of a body may be stored, in the order it is checked. *)
Definition acceptable (body : PutPushRequest) : option ApiError :=
  if negb (bool_decide (put_provider body ∈ [t! "apns"; t! "fcm"])) then Some PushProviderUnsupported
  else if bool_decide (is_Some (unacceptable_token (put_token body)))
  then Some (BadRequest (t! "token"))
  else if negb (bool_decide (put_disclosure body ∈ DISCLOSURES)) then Some (BadRequest (t! "disclosure"))
  else if
    if bool_decide (put_provider body = t! "apns")
    then bool_decide (put_environment body ∈ [Some (t! "sandbox"); Some (t! "production")])
    else bool_decide (put_environment body = None)
  then None
  else Some PushEnvironmentInvalid.

(** ** The routes *)

Inductive Route :=
| MintToken (label : text)
| RevokeToken (id : uuid) (allow_lockout : bool)
| UnbindIdentity (id : uuid) (allow_lockout : bool)
| StartBind (provider : text)
| PutRegistration (body : PutPushRequest)
| DeleteRegistration (id : uuid).

Definition is_management (r : Route) : bool :=
  match r with PutRegistration _ | DeleteRegistration _ => false | _ => true end.

Section Gate.
Context (hash_secret : text -> text) (management_enabled : bool) (runtime : option OAuthRuntime).

Definition internal {A} (r : sum StoreError A) (f : A -> gprog outcome) : gprog outcome :=
  match r with inl _ => Ret (inl Internal) | inr a => f a end.

Definition mint_token (caller : VerifiedToken) (label : text) : gprog outcome :=
  match validate_label label with
  | inl e => Ret (inl e)
  | inr label =>
      let! s := ask_g Secret in
      let token := t! "axon_" ++ s in
      let! id := ask_g FreshId in
      let! r := ask_g (Tx (InsertToken id label (hash_secret token) (Some (v_id caller)))) in
      internal r (fun _ => Ret (inr (Minted id label token)))
  end.

(** The lockout guard, unless the owner confirmed. *)
Definition guard_of (allow_lockout : bool) : option (list text) :=
  if allow_lockout then None else Some (sign_in_providers runtime).

Definition revoke_token (id : uuid) (allow_lockout : bool) : gprog outcome :=
  let! r := ask_g (Tx (RemoveToken id (guard_of allow_lockout))) in
  internal r (fun revocation => Ret (match revocation with
    | Revoked | AlreadyRevoked => inr NoContent
    | TokenNotFound => inl (NotFound (t! "no such token"))
    | TokenLastCredential => inl LastCredential
    end)).

Definition unbind_identity (id : uuid) (allow_lockout : bool) : gprog outcome :=
  let! r := ask_g (Tx (RemoveIdentity id (guard_of allow_lockout))) in
  internal r (fun removal => Ret (match removal with
    | Removed => inr NoContent
    | IdentityNotFound => inl (NotFound (t! "no such identity"))
    | IdentityLastCredential => inl LastCredential
    end)).

Definition start_bind (provider : text) : gprog outcome :=
  match bind_target runtime provider with
  | inl UnknownBindProvider => Ret (inl (BadRequest (t! "unknown provider")))
  | inl refusal => Ret (inl (BindUnavailable refusal))
  | inr target => start target (USER_CODE_ATTEMPTS - 1)
  end.

Definition put_registration (caller : VerifiedToken) (body : PutPushRequest) : gprog outcome :=
  match acceptable body with
  | Some e => Ret (inl e)
  | None =>
      let! id := ask_g FreshId in
      let! r := ask_g (Tx (PutPush id (MkPush (v_session caller) (v_id caller) (put_provider body)
        (put_token body) (put_environment body) (put_disclosure body) (put_badge body)))) in
      internal r (fun stored =>
        match stored with
        | PushStored id => let! _ := ask_g WakeRouter in Ret (inr (Registered id))
        | RefreshRequired => Ret (inl PushSessionRefreshRequired)
        | CredentialEnded => Ret (inl CredentialOver)
        end)
  end.

Definition delete_registration (caller : VerifiedToken) (id : uuid) : gprog outcome :=
  let! r := ask_g (Tx (DeletePush id (v_session caller))) in
  internal r (fun removed : bool =>
    if removed then let! _ := ask_g WakeRouter in Ret (inr NoContent) else Ret (inr NoContent)).

(** Extracting [CredentialChange] is the step-up check. *)
Definition credential_change (caller : VerifiedToken) (handler : gprog outcome) : gprog outcome :=
  let! now := ask_g Now in
  if may_change_credentials now caller then handler else Ret (inl RecentSignInRequired).

Definition handle (caller : VerifiedToken) (r : Route) : gprog outcome :=
  match r with
  | MintToken label => credential_change caller (mint_token caller label)
  | RevokeToken id allow_lockout => credential_change caller (revoke_token id allow_lockout)
  | UnbindIdentity id allow_lockout => credential_change caller (unbind_identity id allow_lockout)
  | StartBind provider => credential_change caller (start_bind provider)
  | PutRegistration body => put_registration caller body
  | DeleteRegistration id => delete_registration caller id
  end.

(** The operator's switch, inside the gate. *)
Definition require_enabled (caller : VerifiedToken) (r : Route) : gprog outcome :=
  if is_management r && negb management_enabled then Ret (inl ManagementDisabled)
  else handle caller r.

Definition require_bearer (authorization : option text) (r : Route) : gprog outcome :=
  match bearer_from_headers authorization with
  | None => Ret (inl MissingToken)
  | Some token =>
      let! verified := ask_g (Tx (VerifyToken (hash_secret token))) in
      match verified with
      | inl _ => Ret (inl Internal)
      | inr None => Ret (inl InvalidToken)
      | inr (Some caller) => require_enabled caller r
      end
  end.
End Gate.

(** ** Labels *)

Definition label_ok (l : text) : Prop :=
  trimmed l /\ l <> [] /\ (length l <= TOKEN_LABEL_MAX_CHARS)%nat /\
  Forall (fun c => label_char_allowed c = true) l /\ is_generated_label l = false.

Lemma allowed_label l : forallb label_char_allowed l = true <-> Forall (fun c => label_char_allowed c = true) l.
Proof. rewrite <- Is_true_true, forallb_True. by setoid_rewrite Is_true_true. Qed.

Lemma validate_label_ok l l' : validate_label l = inr l' <-> l' = trim l /\ label_ok l'.
Proof.
  unfold validate_label, label_ok. destruct (bool_decide_reflect (trim l = [])) as [E|E].
  { split; [done|]. by intros (-> & _ & ? & _). }
  destruct (Nat.ltb_spec TOKEN_LABEL_MAX_CHARS (length (trim l))) as [Hl|Hl].
  { split; [done|]. intros (-> & _ & _ & ? & _). lia. }
  destruct (forallb label_char_allowed (trim l)) eqn:Ef; cbn [negb].
  2:{ split; [done|]. intros (-> & _ & _ & _ & Hf%allowed_label & _). congruence. }
  destruct (is_generated_label (trim l)) eqn:Eg.
  { split; [done|]. intros (-> & _ & _ & _ & _ & ?). congruence. }
  split; [|by intros [-> _]]. intros [= <-]. apply allowed_label in Ef.
  pose proof (trim_trimmed l). by split_and!.
Qed.

Lemma filter_allowed l : Forall (fun c => label_char_allowed c = true) l ->
  filter (fun c => label_char_allowed c = true) l = l.
Proof. induction 1 as [|c l Hc _ IH]; [done|]. rewrite filter_cons_True by done. by rewrite IH. Qed.

Lemma blank_filter (P : Z -> Prop) `{!forall c, Decision (P c)} l : blank l -> blank (filter P l).
Proof.
  unfold blank. rewrite !Forall_forall. intros Hl c Hc%list_elem_of_filter. apply Hl. tauto.
Qed.

Lemma Forall_trim (P : Z -> Prop) l : Forall P l -> Forall P (trim l).
Proof.
  destruct (trim_split l) as (a & b & _ & _ & E). intros H. rewrite E in H.
  by apply Forall_app in H as [_ [? _]%Forall_app].
Qed.

Lemma trim_end_sub (P : Z -> Prop) l : Forall P l -> Forall P (trim_end l).
Proof.
  destruct (trim_end_split l) as (b & _ & E). intros H. rewrite E in H. by apply Forall_app in H as [? _].
Qed.

(** Cutting a trimmed label and trimming its end keeps it trimmed. *)
Lemma cut_trimmed n l : trimmed l -> trimmed (trim_end (take n l)).
Proof.
  intros [Hs _]. split; [|apply trim_end_idem].
  destruct (trim_end_split (take n l)) as (b & _ & E).
  apply (trim_start_prefix _ (b ++ drop n l)). by rewrite app_assoc, <- E, take_drop.
Qed.

Lemma sanitize_label_ok l l' : sanitize_label l = Some l' -> label_ok l'.
Proof.
  unfold sanitize_label, label_ok. set (f := filter _ l).
  destruct (bool_decide_reflect (trim_end (take TOKEN_LABEL_MAX_CHARS (trim f)) = [])) as [E|E]; [done|].
  cbn [orb]. destruct (is_generated_label _) eqn:Eg; [done|]. intros [= <-]. split_and!; try done.
  - apply cut_trimmed, trim_trimmed.
  - destruct (trim_end_split (take TOKEN_LABEL_MAX_CHARS (trim f))) as (b & _ & Eb).
    apply (f_equal length) in Eb. rewrite length_app, length_take in Eb. lia.
  - apply trim_end_sub, Forall_take, Forall_trim. apply Forall_forall. intros c Hc.
    apply list_elem_of_filter in Hc. tauto.
Qed.

Lemma sanitize_trimmed l : label_ok (trim l) -> sanitize_label l = Some (trim l).
Proof.
  intros ([Hs He] & Hn & Hl & Hf & Hg). unfold sanitize_label.
  destruct (trim_split l) as (a & b & Ha & Hb & E).
  assert (filter (fun c => label_char_allowed c = true) l =
    filter (fun c => label_char_allowed c = true) a ++ trim l ++ filter (fun c => label_char_allowed c = true) b) as ->.
  { rewrite E at 1. by rewrite !filter_app, (filter_allowed (trim l)). }
  rewrite trim_blanks by (try apply blank_filter; done).
  rewrite take_ge, He by done. by rewrite Hg, bool_decide_eq_false_2.
Qed.

(** The form of first-run setup and the API agree on what a token label is:
    whatever the form's field, the label it is cleaned into is one the API accepts
    as it stands — trimmed, not empty, at most 80 characters, none of them a
    control or invisible formatting character, not posing as a sign-in's; and a
    label the API accepts is one cleaning leaves alone. *)
Theorem sanitize_agrees_with_validate l l' :
  (sanitize_label l = Some l' -> validate_label l' = inr l') /\
  (validate_label l = inr l' -> sanitize_label l = Some l').
Proof.
  split.
  - intros H%sanitize_label_ok. apply validate_label_ok. split; [|done].
    symmetry. apply trimmed_trim, H.
  - intros [-> H]%validate_label_ok. by apply sanitize_trimmed.
Qed.

(** ** Statements *)

Abbreviation gtrace := (list (event ganswer)).
Abbreviation gev := (ev (ans := ganswer)).

Section GateSpec.
Context (hash_secret : text -> text) (management_enabled : bool) (runtime : option OAuthRuntime).
Context (authorization : option text) (route : Route).

(** The caller: what the store found behind the request's bearer, first of all. *)
Definition identified (caller : VerifiedToken) (h : gtrace) : Prop :=
  exists token rest, bearer_from_headers authorization = Some token /\
    h = gev (Tx (VerifyToken (hash_secret token))) (inr (Some caller)) :: rest.

(** The caller may also change credentials: the routes are on, and the sign-in was
    recent by a clock read after the bearer was verified. *)
Definition stepped_up (caller : VerifiedToken) (h : gtrace) : Prop :=
  management_enabled = true /\ is_management route = true /\
  exists token (now : Z) rest, bearer_from_headers authorization = Some token /\
    h = gev (Tx (VerifyToken (hash_secret token))) (inr (Some caller)) :: gev Now now :: rest /\
    may_change_credentials now caller = true.

Definition tx_allowed (o : Op) (h : gtrace) : Prop :=
  match o with
  | VerifyToken hash => h = [] /\ exists token, bearer_from_headers authorization = Some token /\ hash = hash_secret token
  | InsertToken _ label hash created_by => exists caller raw s, stepped_up caller h /\
      route = MintToken raw /\ validate_label raw = inr label /\ created_by = Some (v_id caller) /\
      gev Secret s ∈ h /\ hash = hash_secret (t! "axon_" ++ s)
  | RemoveToken id guard => exists caller allow_lockout, stepped_up caller h /\
      route = RevokeToken id allow_lockout /\ guard = guard_of runtime allow_lockout
  | RemoveIdentity id guard => exists caller allow_lockout, stepped_up caller h /\
      route = UnbindIdentity id allow_lockout /\ guard = guard_of runtime allow_lockout
  | ExpireBinds => exists caller provider, stepped_up caller h /\ route = StartBind provider
  | InsertBindCapped _ provider _ _ expires max_pending =>
      exists caller rt (now : Z), stepped_up caller h /\ route = StartBind provider /\
      runtime = Some rt /\ provider ∈ providers rt /\ provider ∈ PROVIDERS /\
      gev Now now ∈ h /\ expires = now + HANDSHAKE_TTL /\ max_pending = MAX_PENDING_BINDS
  | PutPush _ new => exists caller body, identified caller h /\ route = PutRegistration body /\
      acceptable body = None /\
      new = MkPush (v_session caller) (v_id caller) (put_provider body) (put_token body)
        (put_environment body) (put_disclosure body) (put_badge body)
  | DeletePush id session => exists caller, identified caller h /\ route = DeleteRegistration id /\
      session = v_session caller
  | _ => False
  end.

Definition question_allowed (q : GQuestion) (h : gtrace) : Prop :=
  match q with
  | Tx o => tx_allowed o h
  | WakeRouter => (exists id new stored, gev (Tx (PutPush id new)) (inr (PushStored stored)) ∈ h) \/
                  (exists id session, gev (Tx (DeletePush id session)) (inr true) ∈ h)
  | _ => True
  end.

(** What an answer says happened; a refusal at the gate touched nothing. *)
Definition answer_true (a : outcome) (h : gtrace) : Prop :=
  match a with
  | inr (Minted id label token) => exists by_,
      gev (Tx (InsertToken id label (hash_secret token) by_)) (inr tt) ∈ h
  | inr (BindStarted id url) => exists target user_code nonce expires,
      gev (Tx (InsertBindCapped id (bt_provider target) user_code nonce expires MAX_PENDING_BINDS))
        (inr true) ∈ h /\ url = bt_base target ++ t! "/v1/oauth/bind?user_code=" ++ user_code
  | inr (Registered stored) => exists id new, gev (Tx (PutPush id new)) (inr (PushStored stored)) ∈ h
  | inr NoContent =>
      match route with
      | RevokeToken id _ => exists guard r, gev (Tx (RemoveToken id guard)) (inr r) ∈ h /\
          (r = Revoked \/ r = AlreadyRevoked)
      | UnbindIdentity id _ => exists guard, gev (Tx (RemoveIdentity id guard)) (inr Removed) ∈ h
      | DeleteRegistration id => exists session b, gev (Tx (DeletePush id session)) (inr b) ∈ h
      | _ => False
      end
  | inl (MissingToken | InvalidToken | ManagementDisabled | RecentSignInRequired) =>
      forall q x, gev q x ∈ h -> match q with Tx (VerifyToken _) | Now => True | _ => False end
  | inl _ => True
  end.

(** ** Credential changes need authority *)

Abbreviation gate_wp p h := (wp question_allowed p h answer_true).

Lemma gate_free q (f : ganswer q -> gprog outcome) h :
  (match q with Tx _ | WakeRouter => False | _ => True end) ->
  (forall x, gate_wp (f x) (h ++ [gev q x])) -> gate_wp (bind (ask_g q) f) h.
Proof. intros Hq Hf. apply wp_ask; [by destruct q|exact Hf]. Qed.

Lemma gate_ret a h : answer_true a h -> gate_wp (Ret a) h.
Proof. done. Qed.

Lemma gate_internal {A} (r : sum StoreError A) f h :
  (forall a, r = inr a -> gate_wp (f a) h) -> gate_wp (internal r f) h.
Proof. destruct r as [|a]; [done|]. intros H. by apply H. Qed.

Lemma identified_app caller h h' : identified caller h -> identified caller (h ++ h').
Proof. intros (token & rest & Ht & ->). by exists token, (rest ++ h'). Qed.

Lemma stepped_up_app caller h h' : stepped_up caller h -> stepped_up caller (h ++ h').
Proof.
  intros (Hm & Hr & token & now & rest & Ht & -> & Hc). split_and!; [done..|].
  exists token, now, (rest ++ h'). by rewrite !app_comm_cons.
Qed.

Lemma validate_label_error l e : validate_label l = inl e -> exists why, e = BadRequest why.
Proof. unfold validate_label. repeat case_match; intros [= <-]; eauto. Qed.

Lemma acceptable_error body e : acceptable body = Some e ->
  e = PushProviderUnsupported \/ e = PushEnvironmentInvalid \/ exists why, e = BadRequest why.
Proof. unfold acceptable. repeat case_match; intros [= <-]; eauto. Qed.

Lemma bind_target_provider provider target : bind_target runtime provider = inr target ->
  bt_provider target = provider /\ provider ∈ PROVIDERS /\
  exists rt, runtime = Some rt /\ provider ∈ providers rt.
Proof.
  unfold bind_target, check. destruct runtime as [rt|]; cbn; [|done].
  destruct (bool_decide_reflect (provider ∈ PROVIDERS)) as [Hp|]; [|done]. cbn [negb].
  destruct (bool_decide_reflect (provider ∈ providers rt)) as [Hr|]; [|done].
  destruct (trim_end_matches 47 (external_base_url rt)) as [|c url]; [done|]. intros [= <-]. eauto.
Qed.

Lemma wp_draw_chars {A} n (f : text -> gprog A) h (P : A -> gtrace -> Prop) :
  (forall cs h', wp question_allowed (f cs) (h ++ h') P) ->
  wp question_allowed (bind (draw_chars n) f) h P.
Proof.
  revert A f h P. induction n as [|n IH]; intros A f h P Hf; cbn [draw_chars].
  - cbn. specialize (Hf [] []). by rewrite app_nil_r in Hf.
  - split; [done|]. intros i. apply wp_bind, IH. intros cs h'. rewrite <- app_assoc. apply Hf.
Qed.

Lemma gate_mint caller label h : stepped_up caller h -> route = MintToken label ->
  gate_wp (mint_token hash_secret caller label) h.
Proof.
  intros Hs Hr. unfold mint_token. destruct (validate_label label) as [e|label'] eqn:El.
  { by apply validate_label_error in El as [why ->]. }
  apply gate_free; [done|]. intros s. apply gate_free; [done|]. intros id. apply wp_ask.
  { exists caller, label, s. split_and!; [by repeat apply stepped_up_app|done..|in_history|done]. }
  intros r. apply gate_internal. intros [] ->. apply gate_ret. exists (Some (v_id caller)). in_history.
Qed.

Lemma gate_revoke caller id lockout h : stepped_up caller h -> route = RevokeToken id lockout ->
  gate_wp (revoke_token runtime id lockout) h.
Proof.
  intros Hs Hr. unfold revoke_token. apply wp_ask; [by exists caller, lockout|].
  intros r. apply gate_internal. intros [] ->; apply gate_ret; cbn; rewrite ?Hr; try done.
  all: eexists _, _; split; [in_history|auto].
Qed.

Lemma gate_unbind caller id lockout h : stepped_up caller h -> route = UnbindIdentity id lockout ->
  gate_wp (unbind_identity runtime id lockout) h.
Proof.
  intros Hs Hr. unfold unbind_identity. apply wp_ask; [by exists caller, lockout|].
  intros r. apply gate_internal. intros [] ->; apply gate_ret; cbn; rewrite ?Hr; try done.
  eexists. in_history.
Qed.

Lemma gate_put caller body h : identified caller h -> route = PutRegistration body ->
  gate_wp (put_registration caller body) h.
Proof.
  intros Hs Hr. unfold put_registration. destruct (acceptable body) as [e|] eqn:Ea.
  { by apply acceptable_error in Ea as [->|[->|[why ->]]]. }
  apply gate_free; [done|]. intros id. apply wp_ask.
  { exists caller, body. split_and!; [by apply identified_app|done..]. }
  intros r. apply gate_internal. intros [stored| |] ->; [|by apply gate_ret..].
  apply wp_ask; [left; eexists _, _, _; in_history|]. intros []. apply gate_ret.
  eexists _, _. in_history.
Qed.

Lemma gate_delete caller id h : identified caller h -> route = DeleteRegistration id ->
  gate_wp (delete_registration caller id) h.
Proof.
  intros Hs Hr. unfold delete_registration. apply wp_ask; [by exists caller|].
  intros r. apply gate_internal. intros [] ->.
  - apply wp_ask; [right; eexists _, _; in_history|]. intros []. apply gate_ret. cbn. rewrite Hr.
    eexists _, _. in_history.
  - apply gate_ret. cbn. rewrite Hr. eexists _, _. in_history.
Qed.


(** One capped creation: allowed to a caller that stepped up, and what it creates is
    in the store. *)
Lemma wp_create_capped {A} caller provider target user_code (now : Z) (f : _ -> gprog A) h
    (P : A -> gtrace -> Prop) :
  stepped_up caller h -> route = StartBind provider -> bind_target runtime provider = inr target ->
  gev Now now ∈ h ->
  (forall r h', stepped_up caller (h ++ h') ->
    (forall id, r = inr (Some id) -> exists nonce,
      gev (Tx (InsertBindCapped id (bt_provider target) user_code nonce (now + HANDSHAKE_TTL)
        MAX_PENDING_BINDS)) (inr true) ∈ h ++ h') ->
    wp question_allowed (f r) (h ++ h') P) ->
  wp question_allowed (bind (create_capped (bt_provider target) user_code (now + HANDSHAKE_TTL)) f) h P.
Proof.
  intros Hs Hr Ht Hn Hf. pose proof (bind_target_provider _ _ Ht) as (Hp & Hk & rt & Hrt & Hin).
  unfold create_capped. split; [by exists caller, provider|]. intros [e|[]].
  { apply Hf; [by apply stepped_up_app|done]. }
  split; [done|]. intros id. split; [done|]. intros nonce. split.
  { rewrite Hp. exists caller, rt, now. split_and!; try done; [by repeat apply stepped_up_app|in_history]. }
  intros r. rewrite <- !app_assoc. apply Hf; [by apply stepped_up_app|].
  intros id' E. destruct r as [|[]]; [done| |done]. injection E as <-. exists nonce. in_history.
Qed.

Lemma gate_start caller provider target retries h :
  stepped_up caller h -> route = StartBind provider -> bind_target runtime provider = inr target ->
  gate_wp (start target retries) h.
Proof.
  intros Hs Hr Ht. revert h Hs. induction retries as [|n IH]; intros h Hs; cbn [start].
  all: unfold generate_user_code; apply wp_bind, wp_draw_chars; intros cs h0; cbn [wp].
  all: apply gate_free; [done|]; intros now.
  all: apply (wp_create_capped caller provider);
    [by repeat apply stepped_up_app|done|done|in_history|].
  all: intros [[]|[id|]] h' Hs' Hc; try by apply gate_ret.
  all: try (by apply IH).
  all: apply gate_ret; destruct (Hc id eq_refl) as [nonce Hi]; by eexists _, _, _, _.
Qed.

Lemma gate_start_bind caller provider h : stepped_up caller h -> route = StartBind provider ->
  gate_wp (start_bind runtime provider) h.
Proof.
  intros Hs Hr. unfold start_bind. destruct (bind_target runtime provider) as [[]|target] eqn:Ht; try done.
  by apply (gate_start caller provider).
Qed.

Lemma gate_change caller token handler h :
  management_enabled = true -> is_management route = true ->
  bearer_from_headers authorization = Some token ->
  h = [gev (Tx (VerifyToken (hash_secret token))) (inr (Some caller))] ->
  (forall h', stepped_up caller h' -> gate_wp handler h') ->
  gate_wp (credential_change caller handler) h.
Proof.
  intros Hm Hr Ht -> Hh. unfold credential_change. apply gate_free; [done|]. intros now.
  destruct (may_change_credentials now caller) eqn:Ec.
  - apply Hh. split_and!; [done..|]. by eexists token, now, [].
  - apply gate_ret. cbn. intros q x. rewrite !elem_of_cons, elem_of_nil.
    intros [E|[E|[]]]; by simplify_eq.
Qed.

Lemma gate_request : gate_wp (require_bearer hash_secret management_enabled runtime authorization route) [].
Proof.
  unfold require_bearer. destruct (bearer_from_headers authorization) as [token|] eqn:Ht.
  2:{ apply gate_ret. cbn. intros q x []%not_elem_of_nil. }
  apply wp_ask; [by split; [|exists token]|]. intros [|[caller|]]; [done| |].
  2:{ apply gate_ret. cbn. intros q x E%list_elem_of_singleton. by simplify_eq. }
  cbn [app]. unfold require_enabled. destruct (is_management route && negb management_enabled) eqn:Em.
  { apply gate_ret. cbn. intros q x E%list_elem_of_singleton. by simplify_eq. }
  assert (identified caller [gev (Tx (VerifyToken (hash_secret token))) (inr (Some caller))]) as Hi
    by (by exists token, []).
  assert (is_management route = true -> management_enabled = true) as Hm.
  { intros E. rewrite E in Em. by destruct management_enabled. }
  enough (forall r, route = r -> gate_wp (handle hash_secret runtime caller r)
    [gev (Tx (VerifyToken (hash_secret token))) (inr (Some caller))]) as H by by apply H.
  intros [label|id lockout|id lockout|provider|body|id] Hr; cbn [handle].
  1-4: apply (gate_change caller token); [apply Hm; by rewrite Hr|by rewrite Hr|done|done|].
  - intros h' Hs. by apply gate_mint.
  - intros h' Hs. by apply (gate_revoke caller).
  - intros h' Hs. by apply (gate_unbind caller).
  - intros h' Hs. by apply (gate_start_bind caller).
  - by apply gate_put.
  - by apply gate_delete.
Qed.

(** [C8] Nothing changes credentials or push registrations except for a caller with
    the authority to.  On every run of a request, complete or cut anywhere: the
    first thing asked of the store is the verification of the bearer in the header,
    and every other transaction comes after it found a token.  A token is minted,
    revoked, an identity removed or a bind started only with the management routes
    on and after that token, by a clock read after its verification, was either
    permanent or signed in interactively within ten minutes; a mint is of the
    validated label and records the caller; a removal carries the lockout guard of
    the enabled providers unless the request waived it; a bind is for a provider
    that is enabled, lives ten minutes and counts against five.  A push
    registration is of an acceptable body and for the caller's own token and
    session, and only that session's registrations are deleted; the router is woken
    only after such a change.  What an answer says was done is in the store, and a
    refusal at the gate touched nothing. *)
Theorem credential_changes_need_authority t :
  (forall t1 q x t2, cut_run (require_bearer hash_secret management_enabled runtime authorization route) t ->
    t = t1 ++ gev q x :: t2 -> question_allowed q t1) /\
  (forall a, runs (require_bearer hash_secret management_enabled runtime authorization route) t a ->
    answer_true a t).
Proof.
  split.
  - intros t1 q x t2 Hr E. exact (wp_cut_run question_allowed _ [] _ _ _ _ _ _ gate_request Hr E).
  - intros a Hr. exact (wp_runs question_allowed _ [] _ _ _ gate_request Hr).
Qed.
End GateSpec.

(** ** A concrete mint *)

Definition toy_caller : VerifiedToken := MkVerified 7 (Some 5000) (Some 400) None 3.

Definition toy_gate (q : GQuestion) : ganswer q :=
  match q as q return ganswer q with
  | Tx (VerifyToken _) => inr (Some toy_caller)
  | Tx (InsertToken _ _ _ _) => inr tt
  | Tx _ => inl OtherStoreError
  | Now => 500
  | FreshId => 9
  | Secret => t! "s3cret"
  | DrawChar => 0%nat
  | WakeRouter => tt
  end.

(** A session that signed in 100 seconds ago mints a token, and the answered secret
    is the one whose hash was inserted. *)
Lemma credential_changes_need_authority_witness :
  exists t, runs (require_bearer id true None (Some (t! "Bearer axon_x")) (MintToken (t! " laptop "))) t
    (inr (Minted 9 (t! "laptop") (t! "axon_s3cret"))) /\
  exists by_, gev (Tx (InsertToken 9 (t! "laptop") (t! "axon_s3cret") by_)) (inr tt) ∈ t.
Proof.
  set (p := require_bearer id true None (Some (t! "Bearer axon_x")) (MintToken (t! " laptop "))).
  set (out := exec (fun _ => toy_gate) [] p).
  assert (runs p out.1 (inr (Minted 9 (t! "laptop") (t! "axon_s3cret")))) as Hr.
  { apply (exec_runs_eq (fun _ => toy_gate)). by vm_compute. }
  exists out.1. split; [exact Hr|].
  exact (proj2 (credential_changes_need_authority id true None (Some (t! "Bearer axon_x"))
    (MintToken (t! " laptop ")) out.1) _ Hr).
Defined.

Lemma sanitize_agrees_with_validate_witness :
  sanitize_label (t! " my  phone ") = Some (t! "my  phone") /\
  validate_label (t! "my  phone") = inr (t! "my  phone").
Proof.
  assert (sanitize_label (t! " my  phone ") = Some (t! "my  phone")) as H by by vm_compute.
  split; [exact H|].
  exact (proj1 (sanitize_agrees_with_validate (t! " my  phone ") (t! "my  phone")) H).
Defined.
