(* ===== verification/SignIn.v ===== *)
(** * Signing in

    Models the unauthenticated sign-in surface of [crates/axon-api/src]:
    [routes/oauth.rs] (authorize, the upstream callback with its login, bind and
    bootstrap flows, the bind page, the token endpoint's dispatch and answers),
    [routes/oauth_native.rs] (Apple's native challenge and redemption),
    [routes/bootstrap.rs] (first-run setup) and its lock in [state.rs].  Requests
    are taken decoded; URL syntax, UUID syntax, the providers' HTTP exchange and
    the verification of a token ([IdentityTokens]) answer questions. *)

From stdpp Require Import base gmap sets list strings.
From Stdlib Require Import ZArith Lia.
From S2P Require Import Prelude Text Effects Credentials OAuthFlows IdentityTokens TokenEndpoint BearerGate.
Open Scope prog_scope.

(** ** Requests *)

Record AuthorizeQuery := MkAuthorize {
  response_type : text;
  client_id : text;
  redirect_uri : text;
  code_challenge : text;
  code_challenge_method : text;
  q_provider : text;
  q_state : option text;
}.

Record CallbackQuery := MkCallback {
  cb_code : option text;
  cb_state : text;
  cb_error : option text;
}.

Record NativeChallengeRequest := MkChallengeRequest {
  nc_client : text;
  nc_purpose : text;
  nc_bootstrap_code : option text;
}.

Record NativeTokenRequest := MkNativeToken {
  nt_client : text;
  nt_challenge : text;
  nt_identity_token : text;
  nt_bootstrap_code : option text;
}.

(** An armed bootstrap; its count of wrong URLs is a shared cell. *)
Record BootstrapConfig := MkBootstrap {
  allow_remote : bool;
  access_code : text;
  native_binding : text;
}.

(** ** Clients *)

Inductive ClientCheck := Allowed | UnknownClient | RedirectUriNotRegistered.
#[export] Instance ClientCheck_eq_dec : EqDecision ClientCheck.
Proof. solve_decision. Defined.

(** [HashMap::get] on clients collected from pairs: the last one wins. *)
Definition client_uris (rt : OAuthRuntime) (client : text) : option (list text) :=
  snd <$> last (filter (fun e => e.1 = client) (clients rt)).

Definition check_client (rt : OAuthRuntime) (client redirect : text) : ClientCheck :=
  match client_uris rt client with
  | None => UnknownClient
  | Some uris => if bool_decide (redirect ∈ uris) then Allowed else RedirectUriNotRegistered
  end.

Definition callback_url (rt : OAuthRuntime) (provider : text) : text :=
  trim_end_matches 47 (external_base_url rt) ++ t! "/v1/oauth/" ++ provider ++ t! "/callback".

(** ** Answers *)

Inductive SignInFailure :=
| ProviderDenied | ProviderRejected | ProviderUnavailable | VerificationFailed | IdentityNotBound.

Definition from_oidc (e : OidcError) : SignInFailure :=
  match e with Http _ | Malformed _ => ProviderUnavailable | _ => VerificationFailed end.

Definition oauth_error (f : SignInFailure) : text :=
  match f with
  | ProviderDenied | IdentityNotBound => t! "access_denied"
  | _ => t! "temporarily_unavailable"
  end.

Definition description (f : SignInFailure) : text :=
  match f with
  | ProviderDenied => t! "Sign-in was canceled or denied by the provider. Start sign-in again when you are ready."
  | ProviderRejected => t! "The provider did not complete sign-in. Start a new sign-in attempt."
  | ProviderUnavailable => t! "Axon could not complete sign-in with the provider. Start a new sign-in attempt later. If this continues, contact the instance owner."
  | VerificationFailed => t! "Axon could not verify the sign-in credential. Start sign-in again. If this continues, contact the instance owner."
  | IdentityNotBound => t! "This account is not authorized to sign in to this Axon instance. Ask the instance owner to bind it, or use another account."
  end.

(** Redirects to a provider and back to a client are given by what their URLs are
    built from; pages by what is shown on them. *)
Inductive SignInAnswer :=
| ToProvider (provider state nonce callback : text)
| ToClient (redirect : text) (pairs : list (text * text)) (success : bool)
| FailurePage (failure : SignInFailure) (retry : text)
| BoundPage
| SetupPage | SetupDonePage
| BearerPage (token : text)
| PairPage (pair : TokenPair)
| ChallengeBody (challenge nonce : text) (expires_in : Z)
| PairBody (pair : TokenPair)
| ErrorBody (status : Z) (error why : text).

Definition token_error_into_response (e : TokenError) : SignInAnswer :=
  match e with
  | InvalidGrantError _ => ErrorBody 400 (t! "invalid_grant") (t! "The sign-in code or token is invalid, expired, already used, or does not match this request. Start sign-in again.")
  | UnknownProvider => ErrorBody 400 (t! "invalid_request") (t! "unknown or disabled provider")
  | NotBoundError => ErrorBody 400 (t! "invalid_grant") (description IdentityNotBound)
  | Oidc e => ErrorBody 400 (t! "invalid_grant") (description (from_oidc e))
  | StoreFailed => ErrorBody 500 (t! "server_error") (t! "internal server error")
  end.

(** ** Questions *)

Inductive SQuestion :=
| Do (o : Op)
| FindRequest (provider state : text)
| FindBind (code : uuid)
| FindBindByUserCode (user_code : text)
| BootstrapAvailable
| FindIdentity (provider subject : text)
| FindChallenge (hash : text)
| Clock | Fresh | Random
| LoadWrongUrls | AddWrongUrl
| CheckKey (key : text)
| Exchange (provider code callback : text)
| VerifyFor (provider id_token nonce : text)
| VerifyNative (identity_token nonce : text).

(** Every store answer may be a failure; a store read answers what was committed. *)
Definition sanswer (q : SQuestion) : Type :=
  match q with
  | Do o => option (reply o)
  | FindRequest _ _ => option (option (uuid * AuthorizationRequest))
  | FindBind _ => option (option BindRequest)
  | FindBindByUserCode _ => option (option (uuid * BindRequest))
  | BootstrapAvailable => option bool
  | FindIdentity _ _ => option (option uuid)
  | FindChallenge _ => option (option NativeChallenge)
  | Clock => Z
  | Fresh => uuid
  | Random => text
  | LoadWrongUrls | AddWrongUrl => nat
  | CheckKey _ => bool
  | Exchange _ _ _ => sum OidcError text
  | VerifyFor _ _ _ | VerifyNative _ _ => sum OidcError VerifiedIdentity
  end.

Abbreviation sprog := (prog sanswer).
Abbreviation sresult := (sum ApiError SignInAnswer).
Definition ask_s (q : SQuestion) : sprog (sanswer q) := ask (ans := sanswer) q.

(** [?] on a store error and on an API error. *)
Definition stored {A} (r : option A) (f : A -> sprog sresult) : sprog sresult :=
  match r with None => Ret (inl Internal) | Some a => f a end.
Definition checked {A} (r : sum ApiError A) (f : A -> sprog sresult) : sprog sresult :=
  match r with inl e => Ret (inl e) | inr a => f a end.

Definition refuse (e : ApiError) : sprog sresult := Ret (inl e).

(** ** The lock of first-run setup *)

Definition BOOTSTRAP_MAX_WRONG_URLS : nat := 6.

Definition constant_time_eq (a b : list Z) : bool :=
  if negb (length a =? length b)%nat then false
  else foldl (fun acc e => Z.lor acc (Z.lxor e.1 e.2)) 0 (zip a b) =? 0.

Inductive CodeCheck := CodeValid | CodeInvalid | CodeLocked.

Definition ensure_unlocked : sprog bool :=
  let! n := ask_s LoadWrongUrls in Ret (n <? BOOTSTRAP_MAX_WRONG_URLS)%nat.

(** [fetch_add] answers the count before. *)
Definition validate_access_code (config : BootstrapConfig) (submitted : text) : sprog CodeCheck :=
  let! unlocked := ensure_unlocked in
  if negb unlocked then Ret CodeLocked
  else if constant_time_eq (utf8_encode submitted) (utf8_encode (access_code config)) then Ret CodeValid
  else
    let! n := ask_s AddWrongUrl in
    Ret (if (BOOTSTRAP_MAX_WRONG_URLS <=? n + 1)%nat then CodeLocked else CodeInvalid).

Definition NOT_ARMED : ApiError := NotFound (t! "web bootstrap is not armed").
Definition LOCKED : ApiError := TooManyRequests (t! "web bootstrap locked after too many wrong URLs").
Definition NOT_AVAILABLE : ApiError := Conflict (t! "first credential bootstrap is no longer available").
Definition LOOPBACK_ONLY : ApiError := Forbidden (t! "web bootstrap is only available from loopback").

(** [ensure_bootstrap_armed] and [ensure_access_code], then the handler. *)
Definition with_access_code (bootstrap : option BootstrapConfig) (code : text)
    (f : BootstrapConfig -> sprog sresult) : sprog sresult :=
  match bootstrap with
  | None => refuse NOT_ARMED
  | Some config =>
      let! check := validate_access_code config code in
      match check with
      | CodeValid => f config
      | CodeInvalid => refuse (NotFound (t! "web bootstrap URL not found"))
      | CodeLocked => refuse LOCKED
      end
  end.

(** The layer around every bootstrap route; [loopback]: the peer's, when known. *)
Definition require_allowed_peer (bootstrap : option BootstrapConfig) (loopback : option bool)
    (next : sprog sresult) : sprog sresult :=
  match bootstrap, loopback with
  | Some config, Some false => if allow_remote config then next else refuse LOOPBACK_ONLY
  | _, _ => next
  end.

Definition ensure_bootstrap_allowed_from (bootstrap : option BootstrapConfig) (loopback : bool)
    : sum ApiError BootstrapConfig :=
  match bootstrap with
  | None => inl NOT_ARMED
  | Some config => if negb (allow_remote config) && negb loopback then inl LOOPBACK_ONLY else inr config
  end.

(** ** The browser flows *)

Definition BIND_STATE_PREFIX : text := t! "bind:".
Definition BOOTSTRAP_STATE_PREFIX : text := t! "bootstrap:".
Definition BOOTSTRAP_CLIENT_ID : text := t! "bootstrap-web".
Definition BOOTSTRAP_REDIRECT_URI : text := t! "urn:axon:bootstrap".
Definition BOOTSTRAP_CODE_CHALLENGE : text := t! "bootstrap-web".
Definition BOOTSTRAP_TOKEN_LABEL : text := t! "bootstrap-web".
Definition MAX_CALLBACK_BYTES : Z := 16 * 1024.

Definition OAUTH_DISABLED : ApiError := NotFound (t! "oauth is disabled").
Definition NO_PROVIDER : text := t! "unknown or disabled provider".
Definition invalid_flow : ApiError :=
  BadRequest (t! "unknown, completed, or expired authorization flow; start sign-in again").

Definition bad_field (max : Z) (value : option text) : bool :=
  match value with Some v => bool_decide (v = []) || (max <? utf8_len v) | None => false end.

Definition callback_acceptable (q : CallbackQuery) : bool :=
  negb (bool_decide (cb_state q = []) || (256 <? utf8_len (cb_state q)) ||
        bad_field 8192 (cb_code q) || bad_field 256 (cb_error q) ||
        Bool.eqb (bool_decide (is_Some (cb_code q))) (bool_decide (is_Some (cb_error q)))).

(** The callback's extractor: [get], the length of a GET's raw query; [decoded],
    the decoded query or form. *)
Definition callback_input (get : option Z) (decoded : option CallbackQuery)
    : sum ApiError CallbackQuery :=
  let validated (e : ApiError) :=
    match decoded with
    | None => inl e
    | Some q => if callback_acceptable q then inr q else inl invalid_flow
    end in
  match get with
  | Some len => if MAX_CALLBACK_BYTES <? len then inl (PayloadTooLarge (t! "callback too large"))
                else validated invalid_flow
  | None => validated (BadRequest (t! "invalid callback form"))
  end.

(** [Store::create_authorization_request]: a sweep, then the insert. *)
Definition create_authorization_request (client redirect challenge method : text)
    (client_state : option text) (provider state nonce : text) (expires : Z) : sprog (option unit) :=
  let! swept := ask_s (Do ExpireRequests) in
  match swept with
  | None => Ret None
  | Some _ =>
      let! id := ask_s Fresh in
      let! r := ask_s (Do (InsertRequest id client redirect challenge method client_state provider state
        nonce expires)) in
      Ret (r : option unit)
  end.

Inductive CallbackFlow :=
| Login (id : uuid) (request : AuthorizationRequest)
| Bind (code : uuid) (request : BindRequest) (nonce : text)
| Bootstrap (id : uuid) (request : AuthorizationRequest).

Definition flow_nonce (f : CallbackFlow) : text :=
  match f with Login _ r | Bootstrap _ r => a_upstream_nonce r | Bind _ _ n => n end.

Section Routes.
Context (hash_secret s256 : text -> text).
(** [Uuid::parse_str] and [Display]; whether [Url::parse] accepts; a provider's
    words for a cancelled sign-in. *)
Context (uuid_parse : text -> option uuid) (uuid_text : uuid -> text) (url_ok : text -> bool)
  (is_cancellation : text -> text -> bool).
Context (runtime : option OAuthRuntime) (bootstrap : option BootstrapConfig).

Definition enabled (f : OAuthRuntime -> sprog sresult) : sprog sresult :=
  match runtime with None => refuse OAUTH_DISABLED | Some rt => f rt end.

Definition authorize (q : AuthorizeQuery) : sprog sresult :=
  enabled (fun rt =>
    if negb (bool_decide (response_type q = t! "code"))
    then refuse (BadRequest (t! "response_type must be code"))
    else if negb (bool_decide (code_challenge_method q = t! "S256"))
    then refuse (BadRequest (t! "code_challenge_method must be S256"))
    else
      match check_client rt (client_id q) (redirect_uri q) with
      | UnknownClient => refuse (BadRequest (t! "unknown client_id"))
      | RedirectUriNotRegistered =>
          refuse (BadRequest (t! "redirect_uri is not registered for this client_id"))
      | Allowed =>
          if negb (bool_decide (q_provider q ∈ providers rt)) then refuse (BadRequest NO_PROVIDER)
          else
            let! state := ask_s Random in
            let! nonce := ask_s Random in
            let! now := ask_s Clock in
            let! created := create_authorization_request (client_id q) (redirect_uri q)
              (code_challenge q) (code_challenge_method q) (q_state q) (q_provider q) state nonce
              (now + HANDSHAKE_TTL) in
            stored created (fun _ =>
              Ret (inr (ToProvider (q_provider q) state nonce (callback_url rt (q_provider q)))))
      end).

(** The browser leg of a bind. *)
Definition bind_page (user_code : text) : sprog sresult :=
  enabled (fun rt =>
    let! found := ask_s (FindBindByUserCode user_code) in
    stored found (fun found =>
      match found with
      | None => refuse (BadRequest (t! "unknown or expired bind code"))
      | Some (code, request) =>
          if negb (bool_decide (b_provider request ∈ providers rt)) then refuse (NotFound NO_PROVIDER)
          else
            match b_nonce request with
            | None => refuse (BadRequest (t! "bind has no nonce; start the bind again"))
            | Some nonce =>
                Ret (inr (ToProvider (b_provider request) (BIND_STATE_PREFIX ++ uuid_text code) nonce
                  (callback_url rt (b_provider request))))
            end
      end)).

(** Which flow a callback's state belongs to, and that it may still go on. *)
Definition find_flow (rt : OAuthRuntime) (provider state : text) (loopback : bool)
    (f : CallbackFlow -> sprog sresult) : sprog sresult :=
  match strip_prefix BIND_STATE_PREFIX state with
  | Some code =>
      match uuid_parse code with
      | None => refuse invalid_flow
      | Some code =>
          let! found := ask_s (FindBind code) in
          stored found (fun found =>
            match found with
            | None => refuse invalid_flow
            | Some request =>
                if negb (bool_decide (b_status request = BindPending)) ||
                   negb (bool_decide (b_provider request = provider))
                then refuse invalid_flow
                else
                  let! now := ask_s Clock in
                  if b_expires_at request <=? now then refuse invalid_flow
                  else
                    match b_nonce request with
                    | Some ((_ :: _) as nonce) => f (Bind code request nonce)
                    | _ => refuse invalid_flow
                    end
            end)
      end
  | None =>
      let! found := ask_s (FindRequest provider state) in
      stored found (fun found =>
        match found with
        | None => refuse invalid_flow
        | Some (id, request) =>
            if starts_with BOOTSTRAP_STATE_PREFIX state then
              checked (ensure_bootstrap_allowed_from bootstrap loopback) (fun config =>
                let! unlocked := ensure_unlocked in
                if negb unlocked then refuse LOCKED
                else if negb (bool_decide (a_client request = BOOTSTRAP_CLIENT_ID)) ||
                        negb (bool_decide (a_redirect_uri request = BOOTSTRAP_REDIRECT_URI))
                then refuse (BadRequest (t! "unknown or expired bootstrap flow"))
                else
                  let! available := ask_s BootstrapAvailable in
                  stored available (fun available =>
                    if available then f (Bootstrap id request) else refuse invalid_flow))
            else if bool_decide (a_client request = BOOTSTRAP_CLIENT_ID) ||
                    negb (bool_decide (check_client rt (a_client request) (a_redirect_uri request) = Allowed))
            then refuse invalid_flow
            else f (Login id request)
        end)
  end.

Definition with_state (request : AuthorizationRequest) (pairs : list (text * text)) : list (text * text) :=
  match a_client_state request with
  | Some state => pairs ++ [(t! "state", state)]
  | None => pairs
  end.

(** Only a flow still pending is invalidated, and only its own caller told. *)
Definition fail_callback (flow : CallbackFlow) (failure : SignInFailure) : sprog sresult :=
  let! claimed :=
    match flow with
    | Login id _ | Bootstrap id _ => ask_s (Do (CancelRequest id))
    | Bind code _ _ => ask_s (Do (CancelBind code))
    end in
  stored claimed (fun claimed : bool =>
    if negb claimed then refuse invalid_flow
    else
      Ret (match flow with
        | Login _ request =>
            if url_ok (a_redirect_uri request) then
              inr (ToClient (a_redirect_uri request) (with_state request
                [(t! "error", oauth_error failure); (t! "error_description", description failure)]) false)
            else inl Internal
        | Bind _ _ _ => inr (FailurePage failure
            (t! "Go back to where you started linking this sign-in and start again."))
        | Bootstrap _ _ => inr (FailurePage failure (t! "Reopen your original setup URL to retry."))
        end)).

Definition complete_bind (verified : VerifiedIdentity) (code : uuid) (request : BindRequest)
    : sprog sresult :=
  let! id := ask_s Fresh in
  let! r := ask_s (Do (CompleteBind code id (b_provider request) (vi_subject verified) (vi_email verified))) in
  stored r (fun bound => Ret (match bound with
    | Some _ => inr BoundPage
    | None => inl (Conflict (t! "bind request already completed or expired"))
    end)).

(** The ids and secrets a minting transaction draws.  (The configured lifetimes are
    taken to fit chrono's range.) *)
Definition draw : sprog (text * text * Draw) :=
  let! access_id := ask_s Fresh in
  let! refresh_id := ask_s Fresh in
  let! identity_id := ask_s Fresh in
  let! session := ask_s Fresh in
  let! a := ask_s Random in
  let! r := ask_s Random in
  let access := t! "axon_" ++ a in
  let refresh := t! "axon_rt_" ++ r in
  Ret (access, refresh,
       MkDraw access_id refresh_id identity_id session (hash_secret access) (hash_secret refresh)).

Definition complete_bootstrap (rt : OAuthRuntime) (id : uuid) (request : AuthorizationRequest)
    (verified : VerifiedIdentity) : sprog sresult :=
  let! now := ask_s Clock in
  let! drawn := draw in
  let '(access, refresh, w) := drawn in
  let! r := ask_s (Do (FirstPair w id request (vi_subject verified) (vi_email verified)
    (now + access_token_ttl rt) (now + refresh_token_ttl rt) (vi_authenticated_at verified))) in
  stored r (fun issued : bool =>
    Ret (if issued then inr (PairPage (MkPair access refresh (as_secs (access_token_ttl rt))))
         else inl NOT_AVAILABLE)).

Definition complete_login (provider : text) (id : uuid) (request : AuthorizationRequest)
    (verified : VerifiedIdentity) : sprog sresult :=
  let! found := ask_s (FindIdentity provider (vi_subject verified)) in
  stored found (fun found =>
    match found with
    | None => fail_callback (Login id request) IdentityNotBound
    | Some owner =>
        let! code := ask_s Random in
        let! completed := ask_s (Do (CompleteRequest id owner (hash_secret code)
          (vi_authenticated_at verified))) in
        stored completed (fun completed : bool =>
          if negb completed then refuse invalid_flow
          else if url_ok (a_redirect_uri request)
          then Ret (inr (ToClient (a_redirect_uri request) (with_state request [(t! "code", code)]) true))
          else refuse Internal)
    end).

Definition failure_of (provider error : text) : SignInFailure :=
  if is_cancellation provider error then ProviderDenied
  else if bool_decide (error ∈ [t! "server_error"; t! "temporarily_unavailable"]) then ProviderUnavailable
  else ProviderRejected.

Definition finish_callback (rt : OAuthRuntime) (provider : text) (q : CallbackQuery)
    (flow : CallbackFlow) : sprog sresult :=
  match cb_error q with
  | Some error => fail_callback flow (failure_of provider error)
  | None =>
      match cb_code q with
      | None => refuse invalid_flow
      | Some code =>
          let! upstream := ask_s (Exchange provider code (callback_url rt provider)) in
          let! verified :=
            match upstream with
            | inl e => Ret (inl e)
            | inr id_token => ask_s (VerifyFor provider id_token (flow_nonce flow))
            end in
          match verified with
          | inl e => fail_callback flow (from_oidc e)
          | inr verified =>
              match flow with
              | Bind code request _ => complete_bind verified code request
              | Bootstrap id request => complete_bootstrap rt id request verified
              | Login id request => complete_login provider id request verified
              end
          end
      end
  end.

Definition callback (provider : text) (loopback : bool) (get : option Z) (decoded : option CallbackQuery)
    : sprog sresult :=
  checked (callback_input get decoded) (fun q =>
    enabled (fun rt =>
      if negb (bool_decide (provider ∈ providers rt)) then refuse (NotFound NO_PROVIDER)
      else find_flow rt provider (cb_state q) loopback (finish_callback rt provider q))).

(** ** First-run setup *)

Definition setup_page (code : text) : sprog sresult :=
  with_access_code bootstrap code (fun _ =>
    let! available := ask_s BootstrapAvailable in
    stored available (fun available : bool => Ret (inr (if available then SetupPage else SetupDonePage)))).

Definition issue_bearer (code : text) (label : option text) : sprog sresult :=
  with_access_code bootstrap code (fun _ =>
    let label := default BOOTSTRAP_TOKEN_LABEL (label ≫= sanitize_label) in
    let! s := ask_s Random in
    let token := t! "axon_" ++ s in
    let! id := ask_s Fresh in
    let! issued := ask_s (Do (BootstrapToken id label (hash_secret token))) in
    stored issued (fun issued : bool =>
      Ret (if issued then inr (BearerPage token) else inl NOT_AVAILABLE))).

Definition start_oauth (code provider : text) : sprog sresult :=
  with_access_code bootstrap code (fun _ =>
    let! available := ask_s BootstrapAvailable in
    stored available (fun available : bool =>
      if negb available then refuse NOT_AVAILABLE
      else enabled (fun rt =>
        if negb (bool_decide (provider ∈ providers rt)) then refuse (BadRequest NO_PROVIDER)
        else
          let! s := ask_s Random in
          let state := BOOTSTRAP_STATE_PREFIX ++ s in
          let! nonce := ask_s Random in
          let! now := ask_s Clock in
          let! created := create_authorization_request BOOTSTRAP_CLIENT_ID BOOTSTRAP_REDIRECT_URI
            BOOTSTRAP_CODE_CHALLENGE (t! "S256") None provider state nonce (now + HANDSHAKE_TTL) in
          stored created (fun _ =>
            Ret (inr (ToProvider provider state nonce (callback_url rt provider))))))).

(** Any other URL under [/bootstrap] counts as a wrong code; the empty code is
    never the armed one. *)
Definition wrong_url : sprog sresult :=
  match bootstrap with
  | None => refuse NOT_ARMED
  | Some config =>
      let! check := validate_access_code config [] in
      match check with
      | CodeLocked => refuse LOCKED
      | _ => refuse (NotFound (t! "web bootstrap URL not found"))
      end
  end.

(** ** Apple's native flow *)

Inductive Leg := Challenge | Redeem.
#[export] Instance Leg_eq_dec : EqDecision Leg.
Proof. solve_decision. Defined.

Inductive AuthorityError := Rejected (e : ApiError) | AuthorityStore.

Definition OWNER_REQUIRED : ApiError := Forbidden (t! "an active owner bearer is required").

Definition authority (purpose : text) (leg : Leg) (authorization code : option text) (loopback : bool)
    : sprog (sum AuthorityError (option text)) :=
  let reject (e : ApiError) : sprog (sum AuthorityError (option text)) := Ret (inl (Rejected e)) in
  let other := reject (BadRequest (t! "invalid native flow purpose or authorization")) in
  if bool_decide (purpose = t! "login") then
    match code with None => Ret (inr None) | Some _ => other end
  else if bool_decide (purpose = t! "bind") then
    match code with
    | Some _ => other
    | None =>
        match bearer_from_headers authorization with
        | None => reject OWNER_REQUIRED
        | Some raw =>
            if 512 <? utf8_len raw then reject OWNER_REQUIRED
            else
              let! found := ask_s (Do (VerifyToken (hash_secret raw))) in
              match found with
              | None => Ret (inl AuthorityStore)
              | Some None => reject OWNER_REQUIRED
              | Some (Some owner) =>
                  match leg with
                  | Redeem => Ret (inr (Some (hash_secret raw)))
                  | Challenge =>
                      let! now := ask_s Clock in
                      if may_change_credentials now owner then Ret (inr (Some (hash_secret raw)))
                      else reject RecentSignInRequired
                  end
              end
        end
    end
  else if bool_decide (purpose = t! "bootstrap") then
    match bootstrap with
    | None => reject (Forbidden (t! "bootstrap is not armed"))
    | Some config =>
        if negb (allow_remote config) && negb loopback
        then reject (Forbidden (t! "bootstrap requires loopback"))
        else
          match code with
          | Some code =>
              if 256 <? utf8_len code then reject (Forbidden (t! "bootstrap capability required"))
              else
                let! check := validate_access_code config code in
                match check with
                | CodeValid =>
                    let! available := ask_s BootstrapAvailable in
                    match available with
                    | None => Ret (inl AuthorityStore)
                    | Some false => reject (Conflict (t! "bootstrap is no longer available"))
                    | Some true => Ret (inr (Some (hash_secret (native_binding config))))
                    end
                | _ => reject (Forbidden (t! "bootstrap capability invalid or locked"))
                end
          | None => reject (Forbidden (t! "bootstrap capability required"))
          end
    end
  else other.

Definition NATIVE_CHALLENGE_TTL_SECS : Z := 300.

Definition native_enabled (f : OAuthRuntime -> sprog sresult) : sprog sresult :=
  match runtime with
  | Some rt => if native_apple rt then f rt
               else refuse (NotFound (t! "native Apple sign-in is disabled"))
  | None => refuse (NotFound (t! "native Apple sign-in is disabled"))
  end.

Definition valid_client (rt : OAuthRuntime) (client : text) : bool :=
  negb (256 <? utf8_len client) && bool_decide (is_Some (client_uris rt client)).

Definition challenge (authorization : option text) (loopback : bool) (body : NativeChallengeRequest)
    : sprog sresult :=
  native_enabled (fun rt =>
    if negb (valid_client rt (nc_client body)) then refuse (BadRequest (t! "unknown client_id"))
    else
      let! granted := authority (nc_purpose body) Challenge authorization (nc_bootstrap_code body) loopback in
      match granted with
      | inl (Rejected e) => refuse e
      | inl AuthorityStore => refuse Internal
      | inr authority_hash =>
          let! secret := ask_s Random in
          let! s := ask_s Random in
          let nonce := hash_secret s in
          let! created := ask_s (Do (CreateChallenge (hash_secret secret)
            (MkChallenge (nc_purpose body) (nc_client body) (external_base_url rt) nonce authority_hash))) in
          stored created (fun created : bool =>
            Ret (if created then inr (ChallengeBody secret nonce NATIVE_CHALLENGE_TTL_SECS)
                 else inl (TooManyRequests (t! "too many pending native sign-ins"))))
      end).

(** The redemption, a token error on every early exit. *)
Definition native_redemption (rt : OAuthRuntime) (authorization : option text) (loopback : bool)
    (body : NativeTokenRequest) : sprog (sum TokenError TokenPair) :=
  let invalid (why : text) : sprog (sum TokenError TokenPair) := Ret (inl (InvalidGrantError why)) in
  if negb (utf8_len (nt_challenge body) =? 43) || (16384 <? utf8_len (nt_identity_token body))
  then invalid (t! "native input invalid")
  else
    let! found := ask_s (FindChallenge (hash_secret (nt_challenge body))) in
    match found with
    | None => Ret (inl StoreFailed)
    | Some None => invalid (t! "native challenge unavailable")
    | Some (Some c) =>
        if negb (bool_decide (c_client c = nt_client body)) ||
           negb (bool_decide (c_instance c = external_base_url rt))
        then invalid (t! "native challenge context mismatch")
        else
          let! granted := authority (c_purpose c) Redeem authorization (nt_bootstrap_code body) loopback in
          match granted with
          | inl (Rejected _) => invalid (t! "native owner authorization invalid")
          | inl AuthorityStore => Ret (inl StoreFailed)
          | inr authorization =>
              if negb (bool_decide (c_authority c = authorization))
              then invalid (t! "native owner authorization changed")
              else
                let! verified := ask_s (VerifyNative (nt_identity_token body) (c_nonce c)) in
                match verified with
                | inl e => Ret (inl (Oidc e))
                | inr v =>
                    let! now := ask_s Clock in
                    let! now' := ask_s Clock in
                    let! drawn := draw in
                    let '(access, refresh, w) := drawn in
                    let! r := ask_s (Do (RedeemIdentity w
                      (MkRedemption APPLE (vi_subject v) (vi_email v) (vi_replay_key v) (nt_client body)
                         (now + access_token_ttl rt) (now' + refresh_token_ttl rt) (vi_authenticated_at v))
                      (Some (hash_secret (nt_challenge body), c)))) in
                    Ret (match r with
                      | None => inl StoreFailed
                      | Some (Some NotBound) => inl NotBoundError
                      | Some (Some InvalidGrant) =>
                          inl (InvalidGrantError (t! "identity token or native challenge no longer redeemable"))
                      | Some None => inr (MkPair access refresh (as_secs (access_token_ttl rt)))
                      end)
                end
          end
    end.

Definition token_response (r : sum TokenError TokenPair) : SignInAnswer :=
  match r with inr p => PairBody p | inl e => token_error_into_response e end.

Definition native_token (authorization : option text) (loopback : bool) (body : NativeTokenRequest)
    : sprog sresult :=
  native_enabled (fun rt =>
    if negb (valid_client rt (nt_client body)) then
      Ret (inr (ErrorBody 400 (t! "invalid_request")
        (t! "Unknown native client. Register this client on the Axon server.")))
    else
      let! allowed := ask_s (CheckKey (nt_challenge body)) in
      if negb allowed then refuse (TooManyRequests (t! "native challenge rate limit exceeded"))
      else
        let! r := native_redemption rt authorization loopback body in
        Ret (inr (token_response r))).

(** ** The token endpoint *)

Record TokenRequest := MkTokenRequest {
  grant_type : text;
  tr_code : option text;
  tr_code_verifier : option text;
  tr_redirect_uri : option text;
  tr_client_id : option text;
  tr_refresh_token : option text;
  tr_provider : option text;
  tr_identity_token : option text;
}.

(** The grant a form asks for, or its answer. *)
Definition grant_of (body : TokenRequest) : sum SignInAnswer Grant :=
  let missing (why : text) := inl (token_error_into_response (InvalidGrantError why)) in
  if bool_decide (grant_type body = t! "authorization_code") then
    match tr_code body, tr_code_verifier body, tr_client_id body, tr_redirect_uri body with
    | Some code, Some verifier, Some client, Some redirect => inr (CodeGrant code verifier client redirect)
    | _, _, _, _ =>
        missing (t! "authorization_code grant requires code, code_verifier, client_id, redirect_uri")
    end
  else if bool_decide (grant_type body = t! "refresh_token") then
    match tr_refresh_token body with
    | Some raw => inr (RefreshGrant raw)
    | None => missing (t! "refresh_token grant requires refresh_token")
    end
  else if bool_decide (grant_type body = t! "urn:axon:identity_token") then
    match tr_provider body, tr_identity_token body, tr_client_id body with
    | Some provider, Some raw, Some client => inr (IdentityGrant provider raw client)
    | _, _, _ =>
        missing (t! "urn:axon:identity_token grant requires provider, identity_token, client_id")
    end
  else inl (ErrorBody 400 (t! "unsupported_grant_type") (t! "Unsupported token grant type.")).

Definition token (body : option TokenRequest) : prog eanswer sresult :=
  match body with
  | None => Ret (inr (ErrorBody 400 (t! "invalid_request")
      (t! "Invalid token request. Use a URL-encoded form with the required fields.")))
  | Some body =>
      match runtime with
      | None => Ret (inl OAUTH_DISABLED)
      | Some rt =>
          match grant_of body with
          | inl answer => Ret (inr answer)
          | inr g =>
              let! r := endpoint hash_secret s256 rt g in
              Ret (inr (token_response r))
          end
      end
  end.
End Routes.

(** ** Escaping *)

Definition html_escape (value : text) : text :=
  replace_char 62 (t! "&gt;") (replace_char 60 (t! "&lt;")
    (replace_char 34 (t! "&quot;") (replace_char 38 (t! "&amp;") value))).

(** ** Comparing and escaping, against what they mean *)

Lemma lxor_zip_zero a b acc : length a = length b ->
  foldl (fun acc e => Z.lor acc (Z.lxor e.1 e.2)) acc (zip a b) = 0 <-> acc = 0 /\ a = b.
Proof.
  revert b acc. induction a as [|x a IH]; intros [|y b] acc; cbn; try lia; [tauto|].
  intros [= Hl]. rewrite IH by done. rewrite Z.lor_eq_0_iff, Z.lxor_eq_0_iff. naive_solver.
Qed.

Lemma constant_time_eq_spec a b : constant_time_eq a b = bool_decide (a = b).
Proof.
  unfold constant_time_eq. destruct (Nat.eqb_spec (length a) (length b)) as [Hl|Hl]; cbn [negb].
  - pose proof (lxor_zip_zero a b 0 Hl) as H. destruct (_ =? 0) eqn:E; symmetry; b2p.
    + apply bool_decide_eq_true_2. tauto.
    + apply bool_decide_eq_false_2. intros ->. apply E, H. done.
  - symmetry. apply bool_decide_eq_false_2. by intros ->.
Qed.

(** The escape of one character. *)
Definition escape_char (c : Z) : text :=
  if c =? 38 then t! "&amp;" else if c =? 34 then t! "&quot;"
  else if c =? 60 then t! "&lt;" else if c =? 62 then t! "&gt;" else [c].

Lemma html_escape_cons c t : html_escape (c :: t) = escape_char c ++ html_escape t.
Proof.
  unfold html_escape, replace_char, escape_char. cbn [mbind list_bind].
  destruct (c =? 38) eqn:E1; [reflexivity|]. cbn [app mbind list_bind].
  destruct (c =? 34) eqn:E2; [reflexivity|]. cbn [app mbind list_bind].
  destruct (c =? 60) eqn:E3; [reflexivity|]. cbn [app mbind list_bind].
  destruct (c =? 62) eqn:E4; reflexivity.
Qed.

(** The four successive replacements escape every character once and on its
    own: no replacement touches what an earlier one wrote.  What comes out can
    neither close an attribute nor open a tag, whatever went in. *)
Theorem html_escape_is_per_character t :
  html_escape t = t ≫= escape_char /\
  Forall (fun c => c <> 34 /\ c <> 60 /\ c <> 62) (html_escape t).
Proof.
  induction t as [|c t [IH1 IH2]]; [by split; constructor|]. rewrite html_escape_cons. split.
  - cbn [mbind list_bind]. by rewrite IH1.
  - apply Forall_app. split; [|exact IH2]. unfold escape_char. repeat case_match; b2p;
      first [by (apply (bool_decide_unpack _); vm_compute) | by repeat constructor].
Qed.

(** ** The lock under concurrency *)

(** Requests in flight, each with its code and somewhere in [validate_access_code],
    over the shared count; [tried]: the wrong codes that were compared. *)
Record Lock := MkLock { wrong : nat; tried : nat; flights : list (text * sprog CodeCheck) }.

(** Past the check with a wrong code. *)
Definition wrong_try (config : BootstrapConfig) (code : text) (next : sprog CodeCheck) : bool :=
  match next with Ret CodeLocked => false | _ => true end &&
  negb (bool_decide (utf8_encode code = utf8_encode (access_code config))).

Inductive Move := Arrive (code : text) | Advance (i : nat).

(** At most [k] in flight. *)
Definition move (config : BootstrapConfig) (k : nat) (m : Move) (l : Lock) : option Lock :=
  match m with
  | Arrive code =>
      if (length (flights l) <? k)%nat
      then Some (MkLock (wrong l) (tried l) ((code, validate_access_code config code) :: flights l)) else None
  | Advance i =>
      match flights l !! i with
      | Some (_, Ret _) => Some (MkLock (wrong l) (tried l) (delete i (flights l)))
      | Some (code, Ask LoadWrongUrls f) =>
          let next := f (wrong l) in
          Some (MkLock (wrong l) (tried l + (if wrong_try config code next then 1 else 0))
            (<[i := (code, next)]> (flights l)))
      | Some (code, Ask AddWrongUrl f) =>
          Some (MkLock (S (wrong l)) (tried l) (<[i := (code, f (wrong l))]> (flights l)))
      | _ => None
      end
  end.

Fixpoint moves (config : BootstrapConfig) (k : nat) (ms : list Move) (l : Lock) : option Lock :=
  match ms with [] => Some l | m :: ms => l ← move config k m l; moves config k ms l end.

(** Where a request in flight can be. *)
Definition counted (n : nat) : sprog CodeCheck :=
  Ret (if (BOOTSTRAP_MAX_WRONG_URLS <=? n + 1)%nat then CodeLocked else CodeInvalid).

Definition compared (config : BootstrapConfig) (code : text) (n : nat) : sprog CodeCheck :=
  if negb (n <? BOOTSTRAP_MAX_WRONG_URLS)%nat then Ret CodeLocked
  else if constant_time_eq (utf8_encode code) (utf8_encode (access_code config)) then Ret CodeValid
  else Ask AddWrongUrl counted.

Lemma validate_eq config code : validate_access_code config code = Ask LoadWrongUrls (compared config code).
Proof. reflexivity. Qed.

Definition in_check (config : BootstrapConfig) (e : text * sprog CodeCheck) : Prop :=
  e.2 = Ask LoadWrongUrls (compared config e.1) \/ e.2 = Ask AddWrongUrl counted \/ exists r, e.2 = Ret r.

(** A wrong code compared and not yet counted. *)
Definition uncounted (p : sprog CodeCheck) : bool :=
  match p with Ask AddWrongUrl _ => true | _ => false end.

Definition pending (l : list (text * sprog CodeCheck)) : nat :=
  length (filter (fun e => uncounted e.2 = true) l).

Definition lock_ok (config : BootstrapConfig) (k : nat) (l : Lock) : Prop :=
  Forall (in_check config) (flights l) /\ (length (flights l) <= k)%nat /\
  tried l = (wrong l + pending (flights l))%nat /\ (tried l <= 5 + k)%nat.

Lemma pending_middle a p b :
  pending (a ++ p :: b) = (pending a + (if uncounted p.2 then 1 else 0) + pending b)%nat.
Proof.
  unfold pending. rewrite filter_app, length_app, filter_cons.
  destruct (uncounted p.2); case_decide; cbn; done || lia.
Qed.

Lemma pending_le l : (pending l <= length l)%nat.
Proof. apply length_filter. Qed.

(** One answer in flight: the counts move with it. *)
Lemma lock_advance config k w tr i p q l w' tr' :
  lock_ok config k (MkLock w tr l) -> l !! i = Some p -> in_check config q ->
  (tr' + w + (if uncounted p.2 then 1 else 0) = tr + w' + (if uncounted q.2 then 1 else 0))%nat ->
  (tr' <= tr)%nat \/ (w' <= 5)%nat -> lock_ok config k (MkLock w' tr' (<[i := q]> l)).
Proof.
  intros (Hf & Hk & Ht & Hg) Hi Hq He Hle. unfold lock_ok in *. cbn [wrong tried flights] in *.
  assert (i < length l)%nat as Hlt by (by eapply lookup_lt_Some).
  assert (pending l = pending (take i l) + (if uncounted p.2 then 1 else 0) + pending (drop (S i) l))%nat
    as E by (by rewrite <- (take_drop_middle l i p Hi) at 1; rewrite pending_middle).
  assert (pending (<[i:=q]> l) = pending (take i l) + (if uncounted q.2 then 1 else 0) + pending (drop (S i) l))%nat
    as E' by (by rewrite insert_take_drop, pending_middle).
  pose proof (pending_le (<[i:=q]> l)) as Hp. rewrite length_insert in Hp.
  split_and!; [by apply Forall_insert|by rewrite length_insert|lia|lia].
Qed.

Lemma compared_ok config code n : in_check config (code, compared config code n) /\
  uncounted (compared config code n) = wrong_try config code (compared config code n) /\
  (wrong_try config code (compared config code n) = true -> (n <= 5)%nat).
Proof.
  unfold compared, wrong_try, in_check. rewrite constant_time_eq_spec.
  destruct (Nat.ltb_spec n BOOTSTRAP_MAX_WRONG_URLS) as [Hw|Hw]; cbn [negb]; [|naive_solver].
  destruct (bool_decide _); cbn; split_and!; try naive_solver.
  intros _. unfold BOOTSTRAP_MAX_WRONG_URLS in Hw. lia.
Qed.

Lemma pending_delete i l code r : l !! i = Some (code, Ret r) -> pending (delete i l) = pending l.
Proof.
  intros Hi. rewrite <- (take_drop_middle l i _ Hi) at 2. rewrite pending_middle, delete_take_drop.
  unfold pending. rewrite filter_app, length_app. cbn [uncounted snd]. lia.
Qed.

Lemma lock_move config k m l l' : lock_ok config k l -> move config k m l = Some l' ->
  lock_ok config k l' /\ (wrong l <= wrong l')%nat.
Proof.
  intros Hl. destruct l as [w tr fs]. destruct m as [code|i]; unfold move; cbn [wrong tried flights].
  - destruct (Nat.ltb_spec (length fs) k) as [Hlt|]; [|done]. rewrite validate_eq. intros [= <-].
    destruct Hl as (Hf & Hk & Ht & Hg). unfold lock_ok in *. cbn [wrong tried flights] in *.
    assert (pending ((code, Ask LoadWrongUrls (compared config code)) :: fs) = pending fs) as ->
      by (apply (pending_middle [])).
    split_and!; try lia; [|cbn; lia]. constructor; [by left|done].
  - destruct (fs !! i) as [[code p]|] eqn:Hi; [|done].
    assert (in_check config (code, p)) as Hp by (destruct Hl as (Hf & _); by eapply Forall_lookup_1).
    destruct Hp as [Hp|[Hp|[r Hp]]]; cbn in Hp; subst p; intros [= <-]; cbn [wrong].
    + destruct (compared_ok config code w) as (Hin & Hu & Hle). split; [|lia].
      apply (lock_advance config k w tr i _ _ _ _ _ Hl Hi Hin); cbn [uncounted snd].
      * rewrite Hu. lia.
      * destruct (wrong_try _ _ _); [right; auto|left; lia].
    + split; [|lia]. apply (lock_advance config k w tr i _ _ _ _ _ Hl Hi); cbn [uncounted snd counted];
        [right; right; by eexists|lia|by left].
    + destruct Hl as (Hf & Hk & Ht & Hg). unfold lock_ok in *. cbn [wrong tried flights] in *.
      rewrite (pending_delete _ _ _ _ Hi). split_and!; try lia; [by apply Forall_delete|].
      rewrite length_delete by done. lia.
Qed.

(** [C36] At most [5 + k] wrong setup codes are ever compared while at most [k]
    requests are in flight: the lock's check and its count are separate steps, so
    requests that pass the check together are all answered, but one that arrives
    once six are counted is refused whatever code it brings, and the count never
    goes back.  With one request at a time, that is the six attempts. *)
Theorem wrong_codes_are_bounded config k ms l :
  moves config k ms (MkLock 0 0 []) = Some l ->
  (tried l <= 5 + k)%nat /\
  forall m l', move config k m l = Some l' ->
    (wrong l <= wrong l')%nat /\
    forall code f, (6 <= wrong l)%nat -> validate_access_code config code = Ask LoadWrongUrls f ->
      f (wrong l') = Ret CodeLocked.
Proof.
  intros H. assert (lock_ok config k l) as Hl.
  { assert (lock_ok config k (MkLock 0 0 [])) as H0 by (split_and!; [constructor|cbn; lia|done|cbn; lia]).
    revert H0 H. generalize (MkLock 0 0 []). induction ms as [|m ms IH]; cbn; intros l0 H0.
    - by intros [= <-].
    - destruct (move config k m l0) as [l1|] eqn:E; [|done]. cbn. apply IH.
      by eapply lock_move. }
  split; [apply Hl|]. intros m l' Hm. apply (lock_move _ _ _ _ _ Hl) in Hm as (_ & Hw).
  split; [done|]. intros code f H6 Hv. rewrite validate_eq in Hv.
  apply (f_equal (fun p => match p with Ask LoadWrongUrls f => Some f | _ => None end)) in Hv.
  injection Hv as <-. unfold compared. replace (wrong l' <? BOOTSTRAP_MAX_WRONG_URLS)%nat with false; [done|].
  symmetry. apply Nat.ltb_ge. unfold BOOTSTRAP_MAX_WRONG_URLS. lia.
Qed.

Definition toy_bootstrap : BootstrapConfig := MkBootstrap false (t! "right") (t! "binding").

(** Two requests pass the check together: seven codes are compared. *)
Definition seven_guesses : list Move :=
  concat (replicate 5 [Arrive (t! "wrong"); Advance 0; Advance 0; Advance 0]) ++
  [Arrive (t! "wrong"); Arrive (t! "guess"); Advance 0; Advance 1; Advance 0; Advance 1].

Lemma wrong_codes_are_bounded_witness :
  exists l, moves toy_bootstrap 2 seven_guesses (MkLock 0 0 []) = Some l /\ tried l = 7%nat /\
    (tried l <= 5 + 2)%nat.
Proof.
  destruct (moves toy_bootstrap 2 seven_guesses (MkLock 0 0 [])) as [l|] eqn:E;
    [|exfalso; by vm_compute in E].
  exists l. split; [done|]. split; [|exact (proj1 (wrong_codes_are_bounded toy_bootstrap 2 seven_guesses l E))].
  assert (Some (tried l) = Some 7%nat) as [= ->]; [|done].
  change (Some (tried l)) with (tried <$> Some l). rewrite <- E. by vm_compute.
Defined.

(** ** What a sign-in may do *)

Inductive SRoute :=
| RAuthorize (q : AuthorizeQuery)
| RCallback (provider : text) (loopback : bool) (get : option Z) (decoded : option CallbackQuery)
| RBindPage (user_code : text)
| RSetup (loopback : option bool) (code : text)
| RIssueBearer (loopback : option bool) (code : text) (label : option text)
| RStartOauth (loopback : option bool) (code provider : text)
| RWrongUrl (loopback : option bool)
| RChallenge (authorization : option text) (loopback : bool) (body : NativeChallengeRequest)
| RNativeToken (authorization : option text) (loopback : bool) (body : NativeTokenRequest).

Abbreviation strace := (list (event sanswer)).
Abbreviation sev := (ev (ans := sanswer)).

Section SignInSpec.
Context (hash_secret : text -> text).
Context (uuid_parse : text -> option uuid) (uuid_text : uuid -> text) (url_ok : text -> bool)
  (is_cancellation : text -> text -> bool).
Context (runtime : option OAuthRuntime) (bootstrap : option BootstrapConfig) (route : SRoute).

Definition serve (r : SRoute) : sprog sresult :=
  match r with
  | RAuthorize q => authorize runtime q
  | RCallback provider loopback get decoded =>
      callback hash_secret uuid_parse url_ok is_cancellation runtime bootstrap provider loopback get decoded
  | RBindPage user_code => bind_page uuid_text runtime user_code
  | RSetup loopback code => require_allowed_peer bootstrap loopback (setup_page bootstrap code)
  | RIssueBearer loopback code label =>
      require_allowed_peer bootstrap loopback (issue_bearer hash_secret bootstrap code label)
  | RStartOauth loopback code provider =>
      require_allowed_peer bootstrap loopback (start_oauth runtime bootstrap code provider)
  | RWrongUrl loopback => require_allowed_peer bootstrap loopback (wrong_url bootstrap)
  | RChallenge authorization loopback body => challenge hash_secret runtime bootstrap authorization loopback body
  | RNativeToken authorization loopback body =>
      native_token hash_secret runtime bootstrap authorization loopback body
  end.

(** The setup code was right, and the lock open when it was compared. *)
Definition code_right (config : BootstrapConfig) (submitted : text) (h : strace) : Prop :=
  bootstrap = Some config /\ utf8_encode submitted = utf8_encode (access_code config) /\
  exists n : nat, sev LoadWrongUrls n ∈ h /\ (n < BOOTSTRAP_MAX_WRONG_URLS)%nat.

Definition peer_ok (loopback : option bool) : Prop :=
  forall config, bootstrap = Some config -> allow_remote config = true \/ loopback <> Some false.

(** The flow a callback's state names, as it was just read, still open to go on. *)
Definition flow_open (rt : OAuthRuntime) (provider state : text) (loopback : bool) (flow : CallbackFlow)
    (h : strace) : Prop :=
  match flow with
  | Bind code b nonce =>
      (exists s, state = BIND_STATE_PREFIX ++ s /\ uuid_parse s = Some code) /\
      sev (FindBind code) (Some (Some b)) ∈ h /\ b_status b = BindPending /\ b_provider b = provider /\
      b_nonce b = Some nonce /\ nonce <> [] /\
      exists now : Z, sev Clock now ∈ h /\ now < b_expires_at b
  | Login id a =>
      sev (FindRequest provider state) (Some (Some (id, a))) ∈ h /\
      strip_prefix BIND_STATE_PREFIX state = None /\ starts_with BOOTSTRAP_STATE_PREFIX state = false /\
      a_client a <> BOOTSTRAP_CLIENT_ID /\ check_client rt (a_client a) (a_redirect_uri a) = Allowed
  | Bootstrap id a =>
      sev (FindRequest provider state) (Some (Some (id, a))) ∈ h /\
      starts_with BOOTSTRAP_STATE_PREFIX state = true /\
      a_client a = BOOTSTRAP_CLIENT_ID /\ a_redirect_uri a = BOOTSTRAP_REDIRECT_URI /\
      (exists config, bootstrap = Some config /\ (allow_remote config = true \/ loopback = true)) /\
      (exists n : nat, sev LoadWrongUrls n ∈ h /\ (n < BOOTSTRAP_MAX_WRONG_URLS)%nat) /\
      sev BootstrapAvailable (Some true) ∈ h
  end.

(** The callback at hand is about this flow. *)
Definition flow_here (rt : OAuthRuntime) (provider : text) (q : CallbackQuery) (flow : CallbackFlow)
    (h : strace) : Prop :=
  exists loopback get decoded, route = RCallback provider loopback get decoded /\
    callback_input get decoded = inr q /\ runtime = Some rt /\ provider ∈ providers rt /\
    flow_open rt provider (cb_state q) loopback flow h.

(** Its code was exchanged with the provider, and the token verified for the flow's
    own nonce. *)
Definition flow_verified (rt : OAuthRuntime) (provider : text) (flow : CallbackFlow)
    (v : VerifiedIdentity) (h : strace) : Prop :=
  exists q code id_token, flow_here rt provider q flow h /\ cb_code q = Some code /\ cb_error q = None /\
    sev (Exchange provider code (callback_url rt provider)) (inr id_token) ∈ h /\
    sev (VerifyFor provider id_token (flow_nonce flow)) (inr v) ∈ h.

(** What a native flow's purpose demands, and the authority it is tied to. *)
Definition granted (purpose : text) (leg : Leg) (authorization code : option text) (loopback : bool)
    (authority : option text) (h : strace) : Prop :=
  (purpose = t! "login" /\ code = None /\ authority = None) \/
  (purpose = t! "bind" /\ exists raw owner, bearer_from_headers authorization = Some raw /\
     sev (Do (VerifyToken (hash_secret raw))) (Some (Some owner)) ∈ h /\
     authority = Some (hash_secret raw) /\
     (leg = Challenge -> exists now : Z, sev Clock now ∈ h /\ may_change_credentials now owner = true)) \/
  (purpose = t! "bootstrap" /\ exists config submitted, code = Some submitted /\
     code_right config submitted h /\ (allow_remote config = true \/ loopback = true) /\
     sev BootstrapAvailable (Some true) ∈ h /\ authority = Some (hash_secret (native_binding config))).

Definition op_justified (o : Op) (h : strace) : Prop :=
  match o with
  | ExpireRequests => True
  | InsertRequest _ client redirect pkce method client_state provider state nonce expires =>
      exists rt (now : Z), runtime = Some rt /\ provider ∈ providers rt /\ sev Clock now ∈ h /\
        expires = now + HANDSHAKE_TTL /\ sev Random nonce ∈ h /\ method = t! "S256" /\
        ((exists q, route = RAuthorize q /\ check_client rt client redirect = Allowed /\
            client = client_id q /\ redirect = redirect_uri q /\ pkce = code_challenge q /\
            provider = q_provider q /\ client_state = q_state q /\ sev Random state ∈ h) \/
         (exists loopback code config s, route = RStartOauth loopback code provider /\ peer_ok loopback /\
            code_right config code h /\ sev BootstrapAvailable (Some true) ∈ h /\
            client = BOOTSTRAP_CLIENT_ID /\ redirect = BOOTSTRAP_REDIRECT_URI /\
            state = BOOTSTRAP_STATE_PREFIX ++ s /\ sev Random s ∈ h))
  | CancelRequest id => exists rt provider q a, flow_here rt provider q (Login id a) h \/
                                               flow_here rt provider q (Bootstrap id a) h
  | CancelBind code => exists rt provider q b nonce, flow_here rt provider q (Bind code b nonce) h
  | CompleteRequest id owner code_hash authenticated => exists rt provider a v secret,
      flow_verified rt provider (Login id a) v h /\
      sev (FindIdentity provider (vi_subject v)) (Some (Some owner)) ∈ h /\
      sev Random secret ∈ h /\ code_hash = hash_secret secret /\ authenticated = vi_authenticated_at v
  | CompleteBind code _ provider subject email => exists rt b nonce v,
      flow_verified rt provider (Bind code b nonce) v h /\ subject = vi_subject v /\ email = vi_email v
  | FirstPair w id a subject email access_expires refresh_expires authenticated =>
      exists rt provider v (now : Z), flow_verified rt provider (Bootstrap id a) v h /\
        subject = vi_subject v /\ email = vi_email v /\ authenticated = vi_authenticated_at v /\
        sev Clock now ∈ h /\ access_expires = now + access_token_ttl rt /\
        refresh_expires = now + refresh_token_ttl rt
  | BootstrapToken _ label hash => exists loopback code field config s,
      route = RIssueBearer loopback code field /\ peer_ok loopback /\ code_right config code h /\
      label = default BOOTSTRAP_TOKEN_LABEL (field ≫= sanitize_label) /\
      sev Random s ∈ h /\ hash = hash_secret (t! "axon_" ++ s)
  | VerifyToken hash => exists authorization raw loopback, bearer_from_headers authorization = Some raw /\
      hash = hash_secret raw /\ ((exists body, route = RChallenge authorization loopback body) \/
                                 (exists body, route = RNativeToken authorization loopback body))
  | CreateChallenge hash c => exists rt authorization loopback body secret s,
      route = RChallenge authorization loopback body /\ runtime = Some rt /\ native_apple rt = true /\
      valid_client rt (nc_client body) = true /\ c_purpose c = nc_purpose body /\
      c_client c = nc_client body /\ c_instance c = external_base_url rt /\
      sev Random s ∈ h /\ c_nonce c = hash_secret s /\ sev Random secret ∈ h /\ hash = hash_secret secret /\
      granted (nc_purpose body) Challenge authorization (nc_bootstrap_code body) loopback (c_authority c) h
  | RedeemIdentity w r held => exists rt authorization loopback body c v,
      route = RNativeToken authorization loopback body /\ runtime = Some rt /\ native_apple rt = true /\
      sev (CheckKey (nt_challenge body)) true ∈ h /\
      sev (FindChallenge (hash_secret (nt_challenge body))) (Some (Some c)) ∈ h /\
      held = Some (hash_secret (nt_challenge body), c) /\
      c_client c = nt_client body /\ c_instance c = external_base_url rt /\
      granted (c_purpose c) Redeem authorization (nt_bootstrap_code body) loopback (c_authority c) h /\
      sev (VerifyNative (nt_identity_token body) (c_nonce c)) (inr v) ∈ h /\
      ir_provider r = APPLE /\ ir_subject r = vi_subject v /\ ir_client r = nt_client body /\
      ir_replay_key r = vi_replay_key v /\ ir_authenticated_at r = vi_authenticated_at v
  | _ => False
  end.

Definition sign_in_allowed (q : SQuestion) (h : strace) : Prop :=
  match q with Do o => op_justified o h | _ => True end.

Definition draws (w : Draw) (p : TokenPair) : Prop :=
  d_access_hash w = hash_secret (access_token p) /\ d_refresh_hash w = hash_secret (refresh_token p).

(** A secret is answered only once its hash is stored, a code only to the redirect
    of the request it completes, and a failure only for a flow just ended. *)
Definition sign_in_answered (a : sresult) (h : strace) : Prop :=
  match a with
  | inr (ToClient redirect pairs true) => exists provider state id a owner code authenticated,
      sev (FindRequest provider state) (Some (Some (id, a))) ∈ h /\ redirect = a_redirect_uri a /\
      pairs = with_state a [(t! "code", code)] /\
      sev (Do (CompleteRequest id owner (hash_secret code) authenticated)) (Some true) ∈ h
  | inr (ToClient redirect pairs false) => exists provider state id a,
      sev (FindRequest provider state) (Some (Some (id, a))) ∈ h /\ redirect = a_redirect_uri a /\
      sev (Do (CancelRequest id)) (Some true) ∈ h
  | inr (FailurePage _ _) => (exists id, sev (Do (CancelRequest id)) (Some true) ∈ h) \/
                            (exists code, sev (Do (CancelBind code)) (Some true) ∈ h)
  | inr BoundPage => exists code id provider subject email owner,
      sev (Do (CompleteBind code id provider subject email)) (Some (Some owner)) ∈ h
  | inr (BearerPage token) => exists id label, sev (Do (BootstrapToken id label (hash_secret token))) (Some true) ∈ h
  | inr (PairPage p) => exists w id a subject email ae re at_, draws w p /\
      sev (Do (FirstPair w id a subject email ae re at_)) (Some true) ∈ h
  | inr (ChallengeBody secret nonce _) => exists c, c_nonce c = nonce /\
      sev (Do (CreateChallenge (hash_secret secret) c)) (Some true) ∈ h
  | inr (PairBody p) => exists w r held, draws w p /\ sev (Do (RedeemIdentity w r held)) (Some None) ∈ h
  | _ => True
  end.

(** *** Evidence grows with the history *)

Lemma code_right_mono config code h h' : h ⊆ h' -> code_right config code h -> code_right config code h'.
Proof. intros Hs (Hb & Hc & n & Hn & Hl). split_and!; eauto. Qed.

Lemma flow_open_mono rt provider state loopback flow h h' :
  h ⊆ h' -> flow_open rt provider state loopback flow h -> flow_open rt provider state loopback flow h'.
Proof. intros Hs. destruct flow; cbn; naive_solver. Qed.

Lemma flow_here_mono rt provider q flow h h' :
  h ⊆ h' -> flow_here rt provider q flow h -> flow_here rt provider q flow h'.
Proof.
  intros Hs (loopback & get & decoded & Hr & Hi & Hrt & Hp & Hf).
  exists loopback, get, decoded. split_and!; try done. by eapply flow_open_mono.
Qed.

Lemma flow_verified_mono rt provider flow v h h' :
  h ⊆ h' -> flow_verified rt provider flow v h -> flow_verified rt provider flow v h'.
Proof.
  intros Hs (q & code & id_token & Hf & Hc & He & Hx & Hv). exists q, code, id_token.
  split_and!; eauto using flow_here_mono.
Qed.

Lemma granted_mono purpose leg authorization code loopback authority h h' : h ⊆ h' ->
  granted purpose leg authorization code loopback authority h ->
  granted purpose leg authorization code loopback authority h'.
Proof.
  intros Hs [H|[(Hp & raw & owner & Hb & Hv & Ha & Hc)|(Hp & config & submitted & Hc & Hr & Hl & Ha & He)]].
  - by left.
  - right; left. split; [done|]. exists raw, owner. split_and!; eauto.
    intros Hleg. destruct (Hc Hleg) as (now & Hn & Hm). eauto.
  - right; right. split; [done|]. exists config, submitted. split_and!; eauto using code_right_mono.
Qed.

Lemma sub_app (h t : strace) : h ⊆ h ++ t.
Proof. set_solver. Qed.

(** *** Rules *)

Abbreviation swp_ p h P := (wp sign_in_allowed p h P).

Lemma s_free {A} q (f : sanswer q -> sprog A) h P :
  (match q with Do _ => False | _ => True end) ->
  (forall x, swp_ (f x) (h ++ [sev q x]) P) -> swp_ (bind (ask_s q) f) h P.
Proof. intros Hq Hf. apply wp_ask; [by destruct q|exact Hf]. Qed.

Lemma s_stored {A} (r : option A) f h : (forall a, r = Some a -> swp_ (f a) h sign_in_answered) ->
  swp_ (stored r f) h sign_in_answered.
Proof. destruct r; [eauto|done]. Qed.

Lemma s_validate {A} config submitted (f : CodeCheck -> sprog A) h P :
  bootstrap = Some config ->
  (forall c h', h ⊆ h' -> (c = CodeValid -> code_right config submitted h') -> swp_ (f c) h' P) ->
  swp_ (bind (validate_access_code config submitted) f) h P.
Proof.
  intros Hb Hf. unfold validate_access_code, ensure_unlocked. apply wp_bind, wp_bind.
  apply s_free; [done|]. intros n. cbn [wp].
  destruct (Nat.ltb_spec n BOOTSTRAP_MAX_WRONG_URLS) as [Hn|Hn]; cbn [negb].
  2:{ apply Hf; [apply sub_app|done]. }
  rewrite constant_time_eq_spec. destruct (bool_decide_reflect (utf8_encode submitted = utf8_encode (access_code config))).
  - apply Hf; [apply sub_app|]. intros _. split_and!; [done..|]. exists n. split; [in_history|done].
  - split; [done|]. intros n'. cbn [wp]. rewrite <- app_assoc. apply Hf; [apply sub_app|].
    by case_match.
Qed.

Lemma s_access_code code f h :
  (forall config h', h ⊆ h' -> bootstrap = Some config -> code_right config code h' ->
     swp_ (f config) h' sign_in_answered) ->
  swp_ (with_access_code bootstrap code f) h sign_in_answered.
Proof.
  intros Hf. unfold with_access_code. destruct bootstrap as [config|] eqn:Hb; [|done].
  apply s_validate; [done|]. intros [] h' Hs Hc; [|done..]. apply Hf; eauto.
Qed.

Lemma s_peer loopback p h : (peer_ok loopback -> swp_ p h sign_in_answered) ->
  swp_ (require_allowed_peer bootstrap loopback p) h sign_in_answered.
Proof.
  intros Hp. unfold require_allowed_peer, peer_ok in *. destruct bootstrap as [config|] eqn:Hb.
  - destruct loopback as [[]|]; [apply Hp; intros ? [= <-]; by right| |apply Hp; intros ? [= <-]; by right].
    destruct (allow_remote config) eqn:Ha; [apply Hp; intros ? [= <-]; by left|done].
  - by apply Hp.
Qed.

Lemma s_create client redirect pkce method client_state provider state nonce expires
    (f : option unit -> sprog sresult) h :
  (forall id h', h ⊆ h' -> op_justified (InsertRequest id client redirect pkce method client_state
     provider state nonce expires) h') ->
  (forall r h', swp_ (f r) h' sign_in_answered) ->
  swp_ (bind (create_authorization_request client redirect pkce method client_state provider state
    nonce expires) f) h sign_in_answered.
Proof.
  intros Hj Hf. unfold create_authorization_request. split; [done|]. intros [[]|]; [|apply Hf].
  split; [done|]. intros id. split; [apply Hj; set_solver|]. intros r. apply Hf.
Qed.

Lemma s_draw {A} (f : _ -> sprog A) h P :
  (forall access refresh w h', h ⊆ h' -> draws w (MkPair access refresh 0) -> swp_ (f (access, refresh, w)) h' P) ->
  swp_ (bind (draw hash_secret) f) h P.
Proof.
  intros Hf. unfold draw. do 6 (split; [done|]; intros ?). cbn [bind].
  rewrite <- !app_assoc. apply Hf; [apply sub_app|done].
Qed.

(** *** Routes *)

Lemma s_authorize q : route = RAuthorize q -> swp_ (authorize runtime q) [] sign_in_answered.
Proof.
  intros Hr. unfold authorize, enabled. destruct runtime as [rt|] eqn:Hrt; [|done].
  case_match; [done|]. destruct (bool_decide_reflect (code_challenge_method q = t! "S256")) as [Hm|]; [|done].
  cbn [negb]. destruct (check_client rt (client_id q) (redirect_uri q)) eqn:Hc; [|done..].
  destruct (bool_decide_reflect (q_provider q ∈ providers rt)) as [Hp|]; [|done]. cbn [negb].
  apply s_free; [done|]. intros state. apply s_free; [done|]. intros nonce.
  apply s_free; [done|]. intros now. apply s_create.
  - intros id h' Hs. exists rt, now. split_and!; try done; [apply Hs; in_history..|].
    left. exists q. split_and!; try done. apply Hs. in_history.
  - intros r h'. by apply s_stored.
Qed.

Lemma s_bind_page user_code : swp_ (bind_page uuid_text runtime user_code) [] sign_in_answered.
Proof.
  unfold bind_page, enabled. destruct runtime as [rt|]; [|done]. apply s_free; [done|]. intros found.
  apply s_stored. intros [[code b]|] _; [|done]. case_match; [done|]. by destruct (b_nonce b).
Qed.

Lemma s_setup loopback code :
  swp_ (require_allowed_peer bootstrap loopback (setup_page bootstrap code)) [] sign_in_answered.
Proof.
  apply s_peer. intros _. apply s_access_code. intros config h' _ _ _. apply s_free; [done|]. intros r.
  apply s_stored. by intros [].
Qed.

Lemma s_issue_bearer loopback code label : route = RIssueBearer loopback code label ->
  swp_ (require_allowed_peer bootstrap loopback (issue_bearer hash_secret bootstrap code label)) [] sign_in_answered.
Proof.
  intros Hr. apply s_peer. intros Hp. apply s_access_code. intros config h _ Hb Hc.
  apply s_free; [done|]. intros s. apply s_free; [done|]. intros id. apply wp_ask.
  - exists loopback, code, label, config, s. split_and!; try done; [|in_history].
    eapply code_right_mono; [|done]. set_solver.
  - intros r. apply s_stored. intros [] ->; [|done]. cbn. eexists _, _. in_history.
Qed.

Lemma s_start_oauth loopback code provider : route = RStartOauth loopback code provider ->
  swp_ (require_allowed_peer bootstrap loopback (start_oauth runtime bootstrap code provider)) [] sign_in_answered.
Proof.
  intros Hr. apply s_peer. intros Hpeer. apply s_access_code. intros config h _ Hb Hc.
  apply s_free; [done|]. intros available. apply s_stored. intros [] ->; [|done]. cbn [negb].
  unfold enabled. destruct runtime as [rt|] eqn:Hrt; [|done].
  destruct (bool_decide_reflect (provider ∈ providers rt)) as [Hp|]; [|done]. cbn [negb].
  apply s_free; [done|]. intros s. apply s_free; [done|]. intros nonce.
  apply s_free; [done|]. intros now. apply s_create.
  - intros id h' Hs. exists rt, now. split_and!; try done; [apply Hs; in_history..|].
    right. exists loopback, code, config, s. split_and!; try done; [|apply Hs; in_history..].
    eapply code_right_mono; [|done]. set_solver.
  - intros r h'. by apply s_stored.
Qed.

Lemma s_wrong_url loopback :
  swp_ (require_allowed_peer bootstrap loopback (wrong_url bootstrap)) [] sign_in_answered.
Proof.
  apply s_peer. intros _. unfold wrong_url. destruct bootstrap as [config|] eqn:Hb; [|done].
  apply s_validate; [done|]. by intros [] h' _ _.
Qed.

(** The request of a login is read before it is answered for. *)
Lemma login_read rt provider q id a h : flow_here rt provider q (Login id a) h ->
  exists state, sev (FindRequest provider state) (Some (Some (id, a))) ∈ h.
Proof. intros (? & ? & ? & _ & _ & _ & _ & Hf & _). eauto. Qed.

Lemma s_fail rt provider q flow failure h : flow_here rt provider q flow h ->
  swp_ (fail_callback url_ok flow failure) h sign_in_answered.
Proof.
  intros Hf. unfold fail_callback. destruct flow as [id a|code b nonce|id a].
  - apply wp_ask; [exists rt, provider, q, a; by left|]. intros r. apply s_stored. intros [] ->; [|done].
    cbn. destruct (url_ok (a_redirect_uri a)); [|done]. cbn.
    destruct (login_read _ _ _ _ _ _ Hf) as [state Hs]. exists provider, state, id, a.
    split_and!; [in_history|done|in_history].
  - apply wp_ask; [by exists rt, provider, q, b, nonce|]. intros r. apply s_stored. intros [] ->; [|done].
    cbn. right. eexists. in_history.
  - apply wp_ask; [exists rt, provider, q, a; by right|]. intros r. apply s_stored. intros [] ->; [|done].
    cbn. left. eexists. in_history.
Qed.

Lemma s_complete_bind rt provider code b nonce v h :
  flow_verified rt provider (Bind code b nonce) v h ->
  swp_ (complete_bind v code b) h sign_in_answered.
Proof.
  intros Hv. unfold complete_bind. apply s_free; [done|]. intros id. apply wp_ask.
  - exists rt, b, nonce, v. split_and!; [|done..].
    assert (b_provider b = provider) as -> by (destruct Hv as (? & ? & ? & (? & ? & ? & _ & _ & _ & _ & Hf) & _); apply Hf).
    eapply flow_verified_mono; [|done]. apply sub_app.
  - intros r. apply s_stored. intros [owner|] ->; [|done]. cbn. eexists _, _, _, _, _, _. in_history.
Qed.

Lemma s_complete_bootstrap rt provider id a v h :
  flow_verified rt provider (Bootstrap id a) v h ->
  swp_ (complete_bootstrap hash_secret rt id a v) h sign_in_answered.
Proof.
  intros Hv. unfold complete_bootstrap. apply s_free; [done|]. intros now. apply s_draw.
  intros access refresh w h' Hs Hd. apply wp_ask.
  - exists rt, provider, v, now. split_and!; try done; [|apply Hs; in_history].
    eapply flow_verified_mono; [|done]. set_solver.
  - intros r. apply s_stored. intros [] ->; [|done]. cbn.
    eexists w, _, _, _, _, _, _, _. split; [exact Hd|in_history].
Qed.

Lemma s_complete_login rt provider q id a v h :
  flow_here rt provider q (Login id a) h -> flow_verified rt provider (Login id a) v h ->
  swp_ (complete_login hash_secret url_ok provider id a v) h sign_in_answered.
Proof.
  intros Hh Hv. unfold complete_login. apply s_free; [done|]. intros found. apply s_stored.
  intros [owner|] ->.
  2:{ eapply (s_fail rt provider q). eapply flow_here_mono; [|done]. apply sub_app. }
  apply s_free; [done|]. intros code. apply wp_ask.
  - exists rt, provider, a, v, code. split_and!; [|in_history..|done|done].
    eapply flow_verified_mono; [|done]. set_solver.
  - intros r. apply s_stored. intros [] ->; [|done]. cbn [negb].
    destruct (url_ok (a_redirect_uri a)); [|done].
    destruct (login_read _ _ _ _ _ _ Hh) as [state Hs].
    exists provider, state, id, a, owner, code. eexists. split_and!; [in_history|done|done|in_history].
Qed.

Lemma s_finish rt provider q flow h : flow_here rt provider q flow h ->
  swp_ (finish_callback hash_secret url_ok is_cancellation rt provider q flow) h sign_in_answered.
Proof.
  intros Hf. unfold finish_callback. destruct (cb_error q) as [error|] eqn:He; [by eapply s_fail|].
  destruct (cb_code q) as [code|] eqn:Hc; [|done]. apply s_free; [done|]. intros upstream.
  destruct upstream as [e|id_token]; cbn [bind].
  { eapply s_fail, flow_here_mono; [|done]. apply sub_app. }
  apply s_free; [done|]. intros [e|v].
  { eapply s_fail, flow_here_mono; [|done]. set_solver. }
  rewrite <- app_assoc. set (h' := h ++ _).
  assert (flow_here rt provider q flow h') as Hf' by (eapply flow_here_mono; [|done]; apply sub_app).
  assert (flow_verified rt provider flow v h') as Hv.
  { exists q, code, id_token. split_and!; [done..|subst h'; in_history|subst h'; in_history]. }
  destruct flow as [id a|bind b nonce|id a].
  - by eapply s_complete_login.
  - by eapply s_complete_bind.
  - by eapply s_complete_bootstrap.
Qed.

Lemma s_find_flow rt provider state loopback f h :
  (forall flow h', flow_open rt provider state loopback flow h' -> swp_ (f flow) h' sign_in_answered) ->
  swp_ (find_flow uuid_parse bootstrap rt provider state loopback f) h sign_in_answered.
Proof.
  intros Hf. unfold find_flow. destruct (strip_prefix BIND_STATE_PREFIX state) as [s|] eqn:Hp.
  - apply strip_prefix_Some in Hp. destruct (uuid_parse s) as [code|] eqn:Hu; [|done].
    apply s_free; [done|]. intros found. apply s_stored. intros [b|] ->; [|done].
    destruct (bool_decide_reflect (b_status b = BindPending)) as [Hs|]; [|done].
    destruct (bool_decide_reflect (b_provider b = provider)) as [Hpr|]; [|done]. cbn [negb orb].
    apply s_free; [done|]. intros now. destruct (b_expires_at b <=? now) eqn:Hn; [done|]. b2p.
    destruct (b_nonce b) as [[|c nonce]|] eqn:Hno; [done| |done]. apply Hf. cbn.
    split_and!; try done; [by exists s|in_history|]. exists now. split; [in_history|done].
  - apply s_free; [done|]. intros found. apply s_stored. intros [[id a]|] ->; [|done].
    destruct (starts_with BOOTSTRAP_STATE_PREFIX state) eqn:Hb.
    + unfold ensure_bootstrap_allowed_from. destruct bootstrap as [config|] eqn:Hbo; [|done].
      destruct (negb (allow_remote config) && negb loopback) eqn:Hpe; [done|]. cbn [checked].
      unfold ensure_unlocked. apply wp_bind, s_free; [done|]. intros n. cbn [wp].
      destruct (Nat.ltb_spec n BOOTSTRAP_MAX_WRONG_URLS) as [Hn|]; cbn [negb]; [|done].
      destruct (bool_decide_reflect (a_client a = BOOTSTRAP_CLIENT_ID)) as [Hc|]; [|done].
      destruct (bool_decide_reflect (a_redirect_uri a = BOOTSTRAP_REDIRECT_URI)) as [Hr|]; [|done].
      cbn [negb orb]. apply s_free; [done|]. intros available. apply s_stored. intros [] ->; [|done].
      apply Hf. cbn. split_and!; try done; [in_history| |exists n; split; [in_history|done]|in_history].
      exists config. split; [done|]. destruct (allow_remote config), loopback; auto.
    + destruct (bool_decide_reflect (a_client a = BOOTSTRAP_CLIENT_ID)) as [|Hc]; [done|].
      destruct (bool_decide_reflect (check_client rt (a_client a) (a_redirect_uri a) = Allowed)) as [Ha|];
        [|done]. cbn [negb orb]. apply Hf. cbn. split_and!; try done. in_history.
Qed.

Lemma s_callback provider loopback get decoded : route = RCallback provider loopback get decoded ->
  swp_ (callback hash_secret uuid_parse url_ok is_cancellation runtime bootstrap provider loopback get decoded)
    [] sign_in_answered.
Proof.
  intros Hr. unfold callback. destruct (callback_input get decoded) as [e|q] eqn:Hq; [done|]. cbn [checked].
  unfold enabled. destruct runtime as [rt|] eqn:Hrt; [|done].
  destruct (bool_decide_reflect (provider ∈ providers rt)) as [Hp|]; [|done]. cbn [negb].
  apply s_find_flow. intros flow h Hf. apply s_finish. by exists loopback, get, decoded.
Qed.

(** *** The native flow *)

Lemma s_authority {A} purpose leg authorization code loopback (f : _ -> sprog A) h P :
  (exists body, route = RChallenge authorization loopback body) \/
    (exists body, route = RNativeToken authorization loopback body) ->
  (forall r h', h ⊆ h' ->
    (forall a, r = inr a -> granted purpose leg authorization code loopback a h') -> swp_ (f r) h' P) ->
  swp_ (bind (authority hash_secret bootstrap purpose leg authorization code loopback) f) h P.
Proof.
  intros Hr Hf. unfold authority.
  assert (forall e h', h ⊆ h' -> swp_ (f (inl e)) h' P) as He by (intros e h' Hs; by apply Hf).
  destruct (bool_decide_reflect (purpose = t! "login")) as [->|_].
  { destruct code; cbn [bind]; [by apply He|]. apply Hf; [done|]. intros a [= <-]. by left. }
  destruct (bool_decide_reflect (purpose = t! "bind")) as [->|_].
  { destruct code; [by apply He|]. destruct (bearer_from_headers authorization) as [raw|] eqn:Hb; [|by apply He].
    case_match; [by apply He|]. cbn [bind]. split; [by exists authorization, raw, loopback|].
    intros [[owner|]|]; [|apply He, sub_app..].
    destruct leg.
    - split; [done|]. intros now. cbn [bind]. destruct (may_change_credentials now owner) eqn:Hm.
      + apply Hf; [set_solver|]. intros a [= <-]. right; left. split; [done|].
        exists raw, owner. split_and!; try done; [in_history|]. intros _. exists now. split; [in_history|done].
      + apply He. set_solver.
    - apply Hf; [set_solver|]. intros a [= <-]. right; left. split; [done|].
      exists raw, owner. by split_and!; try done; in_history. }
  destruct (bool_decide_reflect (purpose = t! "bootstrap")) as [->|_]; [|by apply He].
  destruct bootstrap as [config|] eqn:Hbo; [|by apply He].
  destruct (negb (allow_remote config) && negb loopback) eqn:Hl; [by apply He|].
  destruct code as [submitted|]; [|by apply He]. case_match; [by apply He|].
  apply wp_bind, s_validate; [done|]. intros [] h' Hs Hc; [|by apply He..].
  split; [done|]. intros [[]|]; [|apply He; set_solver..].
  apply Hf; [set_solver|]. intros a [= <-]. right; right. split; [done|].
  exists config, submitted. split_and!; try done; [| |in_history].
  - eapply code_right_mono; [|by apply Hc]. apply sub_app.
  - destruct (allow_remote config), loopback; auto.
Qed.

Lemma s_challenge authorization loopback body : route = RChallenge authorization loopback body ->
  swp_ (challenge hash_secret runtime bootstrap authorization loopback body) [] sign_in_answered.
Proof.
  intros Hr. unfold challenge, native_enabled. destruct runtime as [rt|] eqn:Hrt; [|done].
  destruct (native_apple rt) eqn:Hn; [|done]. destruct (valid_client rt (nc_client body)) eqn:Hc; [|done].
  cbn [negb]. apply s_authority; [left; by exists body|]. intros [[]|a] h _ Hg; [done..|].
  apply s_free; [done|]. intros secret. apply s_free; [done|]. intros s. apply wp_ask.
  - exists rt, authorization, loopback, body, secret, s. split_and!; try done; [in_history..|].
    eapply granted_mono; [|by apply Hg]. set_solver.
  - intros r. apply s_stored. intros [] ->; [|done]. cbn. eexists. split; [|in_history]. done.
Qed.

Lemma s_native_token authorization loopback body : route = RNativeToken authorization loopback body ->
  swp_ (native_token hash_secret runtime bootstrap authorization loopback body) [] sign_in_answered.
Proof.
  intros Hr. unfold native_token, native_enabled. destruct runtime as [rt|] eqn:Hrt; [|done].
  destruct (native_apple rt) eqn:Hn; [|done]. case_match; [done|].
  apply s_free; [done|]. intros []; [|done]. cbn [negb]. apply wp_bind. unfold native_redemption.
  case_match; [done|]. apply s_free; [done|]. intros [[c|]|]; [|done..].
  destruct (bool_decide_reflect (c_client c = nt_client body)) as [Hc|]; [|done].
  destruct (bool_decide_reflect (c_instance c = external_base_url rt)) as [Hi|]; [|done]. cbn [negb orb].
  apply s_authority; [right; by exists body|]. intros [[]|a] h Hs Hg; [done..|].
  destruct (bool_decide_reflect (c_authority c = a)) as [<-|]; [|done]. cbn [negb].
  apply s_free; [done|]. intros [e|v]; [done|]. apply s_free; [done|]. intros now.
  apply s_free; [done|]. intros now'. apply s_draw. intros access refresh w h' Hs' Hd. apply wp_ask.
  - exists rt, authorization, loopback, body, c, v.
    split_and!; try done; [apply Hs'; rewrite !elem_of_app; do 3 left; apply Hs; in_history..| |apply Hs'; in_history].
    eapply granted_mono; [|by apply Hg]. set_solver.
  - intros [[[]|]|]; [done..| |done]. cbn. eexists w, _, _. split; [exact Hd|in_history].
Qed.

Lemma s_serve : swp_ (serve route) [] sign_in_answered.
Proof.
  enough (forall r, route = r -> swp_ (serve r) [] sign_in_answered) as H by by apply H.
  intros r Hr. destruct r; cbn [serve].
  - by apply s_authorize.
  - by apply s_callback.
  - apply s_bind_page.
  - apply s_setup.
  - by apply s_issue_bearer.
  - by apply s_start_oauth.
  - apply s_wrong_url.
  - by apply s_challenge.
  - by apply s_native_token.
Qed.

(** [C6] What an unauthenticated sign-in may do, on every run of its routes,
    complete or cut anywhere.  A sign-in code is issued only for a pending request
    of the callback's state and provider, whose client and redirect are registered,
    once the callback's code was exchanged with that provider and its token
    verified for the nonce recorded with that request; it names the identity bound
    to the verified subject and the verified time.  An identity is bound only by
    such a verification for the bind the state names, the first credential made
    only with setup armed, its peer allowed, its lock open and, at the last read,
    no credential there; and from the setup URL only for the right code.  A flow is
    given up only by a callback about it.  A native challenge records the authority
    its purpose demands - for a bind, a bearer with a recent sign-in - and is
    redeemed only under the same authority and for a token verified with its nonce.
    Every answer that carries a secret, a code or a failure reports what the store
    did. *)
Theorem sign_in_needs_proof t :
  (forall t1 q x t2, cut_run (serve route) t -> t = t1 ++ sev q x :: t2 -> sign_in_allowed q t1) /\
  (forall a, runs (serve route) t a -> sign_in_answered a t).
Proof.
  split.
  - intros t1 q x t2 Hr E. exact (wp_cut_run sign_in_allowed _ [] _ _ _ _ _ _ s_serve Hr E).
  - intros a Hr. exact (wp_runs sign_in_allowed _ [] _ _ _ s_serve Hr).
Qed.
End SignInSpec.

(** ** The token endpoint's answers *)

(** [C39] What the token endpoint answers, on every run.  A pair is the pair a grant
    of the form was redeemed for.  An error is either about the form - it does not
    decode, its grant type is unknown, or a field its grant needs is missing - and
    then nothing was asked of anyone and the status is 400; or it is the grant's,
    and the status is 500 exactly when the store failed and 400 otherwise.  With OAuth
    disabled a form that decodes is answered [OAUTH_DISABLED], nothing asked. *)
Theorem token_answers_are_faithful hash_secret s256 runtime body t a :
  runs (token hash_secret s256 runtime body) t a ->
  match a with
  | inr (PairBody p) => exists rt form g, runtime = Some rt /\ body = Some form /\ grant_of form = inr g /\
      runs (endpoint hash_secret s256 rt g) t (inr p)
  | inr (ErrorBody status _ _) =>
      (t = [] /\ status = 400 /\ forall form g, body = Some form -> grant_of form <> inr g) \/
      (exists rt form g e, runtime = Some rt /\ body = Some form /\ grant_of form = inr g /\
         runs (endpoint hash_secret s256 rt g) t (inl e) /\
         ((e = StoreFailed /\ status = 500) \/ (e <> StoreFailed /\ status = 400)))
  | inr _ => False
  | inl e => e = OAUTH_DISABLED /\ runtime = None /\ t = []
  end.
Proof.
  unfold token. destruct body as [form|]; cbn [runs].
  2:{ intros [-> ->]. left. by split_and!. }
  destruct runtime as [rt|]; cbn [runs]; [|by intros [-> ->]].
  destruct (grant_of form) as [answer|g] eqn:Hg; cbn [runs].
  - intros [-> ->]. assert (exists status error why, answer = ErrorBody status error why /\ status = 400) as
      (status & error & why & -> & ->).
    { unfold grant_of in Hg. repeat case_match; simplify_eq; eauto 10. }
    left. split_and!; [done..|]. intros form' g [= <-]. congruence.
  - intros (t1 & t2 & r & -> & Hr & [-> ->])%runs_bind. rewrite app_nil_r.
    destruct r as [e|p]; cbn [token_response].
    + destruct e; cbn; right; eexists rt, form, g, _; split_and!; try done; naive_solver.
    + by exists rt, form, g.
Qed.

(** ** A concrete login *)

Definition toy_rt : OAuthRuntime :=
  MkRuntime (t! "https://axon/") (secs 3600) (secs 2592000) [(t! "web", [t! "https://app/cb"])]
    [t! "google"] false.

Definition toy_flow : AuthorizationRequest :=
  MkRequest (t! "web") (t! "https://app/cb") (t! "pkce") (t! "S256") (Some (t! "s")) (t! "google")
    (t! "st") (t! "nonce") 900 Pending None None None.

Definition toy_sign_in (q : SQuestion) : sanswer q :=
  match q as q return sanswer q with
  | Do (CompleteRequest _ _ _ _) => Some true
  | Do _ => None
  | FindRequest _ _ => Some (Some (4, toy_flow))
  | FindBind _ => Some None
  | FindBindByUserCode _ => Some None
  | BootstrapAvailable => Some false
  | FindIdentity _ _ => Some (Some 8)
  | FindChallenge _ => Some None
  | Clock => 500
  | Fresh => 9
  | Random => t! "c0de"
  | LoadWrongUrls => 0%nat
  | AddWrongUrl => 0%nat
  | CheckKey _ => true
  | Exchange _ _ _ => inr (t! "id_token")
  | VerifyFor _ _ nonce =>
      if bool_decide (nonce = t! "nonce")
      then inr (MkVerifiedIdentity (t! "me") None (t! "replay") (Some 480)) else inl InvalidNonce
  | VerifyNative _ _ => inl InvalidNonce
  end.

Definition toy_callback : SRoute :=
  RCallback (t! "google") false (Some 20) (Some (MkCallback (Some (t! "upstream")) (t! "st") None)).

(** The code of a callback goes to the redirect of its request, with the client's
    state, after the request was completed for it. *)
Lemma sign_in_needs_proof_witness :
  let p := serve id (fun _ => None) (fun _ => []) (fun _ => true) (fun _ _ => false) (Some toy_rt) None
    toy_callback in
  let answer := ToClient (t! "https://app/cb") [(t! "code", t! "c0de"); (t! "state", t! "s")] true in
  exists t, runs p t (inr answer) /\ sign_in_answered id (inr answer) t.
Proof.
  intros p answer. set (out := exec (fun _ => toy_sign_in) [] p).
  assert (runs p out.1 (inr answer)) as Hr.
  { apply (exec_runs_eq (fun _ => toy_sign_in)). by vm_compute. }
  exists out.1. split; [exact Hr|].
  exact (proj2 (sign_in_needs_proof id (fun _ => None) (fun _ => []) (fun _ => true) (fun _ _ => false)
    (Some toy_rt) None toy_callback out.1) _ Hr).
Defined.

(** A store that fails while a refresh is looked up is a 500. *)
Lemma token_answers_are_faithful_witness :
  let body := Some (MkTokenRequest (t! "refresh_token") None None None None (Some (t! "rt")) None None) in
  let store_down (q : EQuestion) : eanswer q :=
    match q as q return eanswer q with
    | Store _ => None
    | NewId => 1
    | NewSecret => []
    | UtcNow => 0
    | VerifyIdentity _ _ => inl InvalidNonce
    end in
  exists t status error why, runs (token id id (Some toy_rt) body) t (inr (ErrorBody status error why)) /\
    ((t = [] /\ status = 400 /\ forall form g, body = Some form -> grant_of form <> inr g) \/
     (exists rt form g e, Some toy_rt = Some rt /\ body = Some form /\ grant_of form = inr g /\
        runs (endpoint id id rt g) t (inl e) /\
        ((e = StoreFailed /\ status = 500) \/ (e <> StoreFailed /\ status = 400)))).
Proof.
  intros body store_down. set (out := exec (fun _ => store_down) [] (token id id (Some toy_rt) body)).
  assert (runs (token id id (Some toy_rt) body) out.1
    (inr (ErrorBody 500 (t! "server_error") (t! "internal server error")))) as Hr.
  { apply (exec_runs_eq (fun _ => store_down)). by vm_compute. }
  exists out.1, 500, (t! "server_error"), (t! "internal server error"). split; [exact Hr|].
  exact (token_answers_are_faithful id id (Some toy_rt) body out.1 _ Hr).
Defined.
