(* ===== verification/Uploads.v ===== *)
(** * Staged uploads

    Models the staged-upload service of [crates/axon-server/src/uploads.rs] over the
    table of [crates/axon-store/src/media_uploads.rs], and the flow that consumes an
    upload ([with_staged_upload] of [crates/axon-api/src/uploads.rs], which
    [send_media] repeats): files, rows and any number of calls in flight, each
    where it last awaited.  A call may be dropped at any await (a timeout, a client
    that disconnects); what it was waiting for may then still happen.  A preview
    image is claimed on a permit of the uploads and decoded by a blocking task, whose
    verdict is an outcome.  Left out are directories, reads of previews (they have
    permits of their own) and sends of several uploads at once. *)

From stdpp Require Import base gmap sets list fin_maps.
From Stdlib Require Import ZArith Lia.
From S2P Require Import Prelude Text.

(** ** Rows and files *)

(** The account and the upload. *)
Abbreviation key := (uuid * uuid)%type (only parsing).

(** [<root>/<account>/.<upload>.tmp] and [<root>/<account>/<upload>]. *)
Inductive Loc := Tmp (k : key) | Final (k : key).
#[export] Instance Loc_eq_dec : EqDecision Loc.
Proof. solve_decision. Defined.
#[export] Instance Loc_countable : Countable Loc.
Proof.
  apply (inj_countable' (fun l => match l with Tmp k => inl k | Final k => inr k end)
    (fun s => match s with inl k => Tmp k | inr k => Final k end)). by intros [].
Defined.

Inductive MediaUploadKind := ImageUpload | FileUpload.
Inductive MediaUploadState := Staged | Sending.
#[export] Instance MediaUploadState_eq_dec : EqDecision MediaUploadState.
Proof. solve_decision. Defined.

Record MediaUpload := MkUpload {
  mu_kind : MediaUploadKind;
  mu_filename : text;
  mu_content_type : option text;
  mu_size : Z;
  mu_path : Loc;
  mu_state : MediaUploadState;
  mu_expires : Z;
  mu_generated : bool;
}.

Abbreviation Rows := (gmap key MediaUpload).

Definition with_state (s : MediaUploadState) (r : MediaUpload) : MediaUpload :=
  MkUpload (mu_kind r) (mu_filename r) (mu_content_type r) (mu_size r) (mu_path r) s (mu_expires r)
    (mu_generated r).

(** The primary key and the checks; [None] is the error. *)
Definition insert_upload (k : key) (row : MediaUpload) (rows : Rows) : option Rows :=
  if bool_decide (map_Forall (fun k' _ => k'.2 <> k.2) rows) && negb (bool_decide (mu_filename row = [])) &&
     (0 <=? mu_size row)
  then Some (<[k := row]> rows) else None.

(** What of an account's previews counts against its quota. *)
Definition generated_of (account : uuid) (rows : Rows) : list (key * MediaUpload) :=
  filter (fun e => e.1.1 = account /\ mu_generated e.2 = true) (map_to_list rows).

Definition total (l : list (key * MediaUpload)) : Z := foldr (fun e n => mu_size e.2 + n) 0 l.

Definition i64_sat_sub (a b : Z) : Z := Z.max i64_min (Z.min i64_max (a - b)).

(** Under the account's lock; [Some None]: over the quota. *)
Definition insert_generated_preview_upload (max_count max_bytes : Z) (k : key) (row : MediaUpload)
    (rows : Rows) : option (option Rows) :=
  let mine := generated_of k.1 rows in
  if (max_count <=? Z.of_nat (length mine)) || (i64_sat_sub max_bytes (total mine) <? mu_size row)
  then Some None
  else Some <$> insert_upload k row rows.

(** The row in a state, if it is there. *)
Definition row_in (s : MediaUploadState) (k : key) (rows : Rows) : option MediaUpload :=
  r ← rows !! k; if bool_decide (mu_state r = s) then Some r else None.

Definition claim_staged_media_upload (now : Z) (k : key) (rows : Rows) : option (Rows * MediaUpload) :=
  r ← row_in Staged k rows;
  if now <? mu_expires r then Some (<[k := with_state Sending r]> rows, with_state Sending r) else None.

Definition delete_staged_media_upload (k : key) (rows : Rows) : option (Rows * MediaUpload) :=
  r ← row_in Staged k rows; Some (delete k rows, r).

Definition complete_sending_media_upload (k : key) (rows : Rows) : option (Rows * MediaUpload) :=
  r ← row_in Sending k rows; Some (delete k rows, r).

Definition release_sending_media_upload (k : key) (rows : Rows) : option (Rows * MediaUpload) :=
  r ← row_in Sending k rows; Some (<[k := with_state Staged r]> rows, with_state Staged r).

Definition reconcile_sending_media_uploads (rows : Rows) : Rows := with_state Staged <$> rows.

Definition expired (now : Z) (r : MediaUpload) : bool :=
  bool_decide (mu_state r = Staged) && (mu_expires r <=? now).

Definition delete_expired_media_uploads (now : Z) (rows : Rows) : Rows * list MediaUpload :=
  (filter (fun e => expired now e.2 = false) rows,
   (map_to_list (filter (fun e => expired now e.2 = true) rows)).*2).

(** ** Calls in flight *)

Record StageUploadRequest := MkStage {
  su_account : uuid;
  su_kind : MediaUploadKind;
  su_filename : text;
  su_content_type : option text;
}.

Inductive StageUploadError :=
| Invalid | NotFound | Forbidden | TooLarge | Timeout | Capacity | Internal.

Inductive Answer :=
| StagedUpload (k : key) (size : Z) | Done | Sent | SendFailed | Refused (e : StageUploadError).

(** Where a call last awaited.  A preview Axon generated is staged with [g]; a claim
    with [v] is that of a preview image, which holds a permit. *)
Inductive Phase :=
| Permit (r : StageUploadRequest) (g : bool)
| PreviewPermit (k : key)
| Account (r : StageUploadRequest) (g : bool)
| Opening (r : StageUploadRequest) (g : bool) (k : key)
| Body (r : StageUploadRequest) (g : bool) (k : key) (size : Z)
| Writing (r : StageUploadRequest) (g : bool) (k : key) (size : Z) (chunk : list Z)
| Syncing (r : StageUploadRequest) (g : bool) (k : key) (size : Z)
| Renaming (r : StageUploadRequest) (g : bool) (k : key) (size : Z)
| Inserting (g : bool) (k : key) (row : MediaUpload)
| Claiming (v : bool) (k : key)
| ReadingFile (v : bool) (k : key) (row : MediaUpload)
| ReleasingUnread (v : bool) (k : key) (e : StageUploadError)
| Decoding (k : key) (row : MediaUpload) (bytes : list Z)
| Mutating (k : key) (bytes : list Z)
| Completing (k : key)
| Releasing (k : key)
| Deleting (k : key)
| Sweeping
| Unlinking (paths : list Loc) (a : Answer).

(** What the environment answers an await with. *)
Inductive Outcome :=
| Ok | Failed
| AccountIs (active : option bool) (fresh : uuid)
| Chunk (bytes : list Z) | BodyError | BodyEnd.

(** A dropped call waits for nothing, but its last operation may still happen. *)
Record Task := MkTask { alive : bool; phase : Phase }.

(** [cleanups]: files scheduled for removal by dropped guards.  For the statements:
    [used], the ids drawn; [received], the bytes taken from each body; [cut], the
    uploads whose staging was dropped while its insert was in flight; [sent], the
    mutations that succeeded since the process started. *)
Record World := MkWorld {
  rows : Rows;
  files : gmap Loc (list Z);
  clock : Z;
  permits : nat;
  tasks : gmap nat Task;
  cleanups : list Loc;
  answers : gmap nat Answer;
  used : gset key;
  received : gmap key (list Z);
  cut : gset key;
  sent : list key;
}.

Definition set_rows (x : Rows) (w : World) : World :=
  MkWorld x (files w) (clock w) (permits w) (tasks w) (cleanups w) (answers w) (used w) (received w)
    (cut w) (sent w).
Definition set_files (x : gmap Loc (list Z)) (w : World) : World :=
  MkWorld (rows w) x (clock w) (permits w) (tasks w) (cleanups w) (answers w) (used w) (received w)
    (cut w) (sent w).
Definition set_permits (x : nat) (w : World) : World :=
  MkWorld (rows w) (files w) (clock w) x (tasks w) (cleanups w) (answers w) (used w) (received w)
    (cut w) (sent w).
Definition set_tasks (x : gmap nat Task) (w : World) : World :=
  MkWorld (rows w) (files w) (clock w) (permits w) x (cleanups w) (answers w) (used w) (received w)
    (cut w) (sent w).
Definition set_cleanups (x : list Loc) (w : World) : World :=
  MkWorld (rows w) (files w) (clock w) (permits w) (tasks w) x (answers w) (used w) (received w)
    (cut w) (sent w).
Definition set_answers (x : gmap nat Answer) (w : World) : World :=
  MkWorld (rows w) (files w) (clock w) (permits w) (tasks w) (cleanups w) x (used w) (received w)
    (cut w) (sent w).
Definition set_ghosts (u : gset key) (r : gmap key (list Z)) (c : gset key) (s : list key) (w : World)
    : World :=
  MkWorld (rows w) (files w) (clock w) (permits w) (tasks w) (cleanups w) (answers w) u r c s.

(** ** The service *)

Definition MAX_GENERATED_COUNT : Z := 160.
Definition MAX_GENERATED_BYTES : Z := 64 * 1024 * 1024.
Definition MAX_IMAGE_BYTES : Z := 2 * 1024 * 1024.

(** [CleanupFileGuard]: the file a call removes when it ends, unless disarmed. *)
Definition guard_of (p : Phase) : option Loc :=
  match p with
  | Opening _ _ k | Body _ _ k _ | Writing _ _ k _ _ | Syncing _ _ k _ | Renaming _ _ k _ => Some (Tmp k)
  | Inserting _ k _ => Some (Final k)
  | _ => None
  end.

(** The permit of an upload is held until its call returns, that of a preview until
    it is decoded or refused. *)
Definition holds_permit (p : Phase) : bool :=
  match p with
  | Account _ _ | Opening _ _ _ | Body _ _ _ _ | Writing _ _ _ _ _ | Syncing _ _ _ _ | Renaming _ _ _ _
  | Inserting _ _ _ | Decoding _ _ _ => true
  | Claiming v _ | ReadingFile v _ _ | ReleasingUnread v _ _ => v
  | _ => false
  end.

(** The blocking task has the permit: it keeps it when its call is dropped. *)
Definition outlives (p : Phase) : bool := match p with Decoding _ _ _ => true | _ => false end.

(** What a call that is over, or dropped, lets go of. *)
Definition let_go (p : Phase) (w : World) : World :=
  let w := if holds_permit p && negb (outlives p) then set_permits (S (permits w)) w else w in
  match guard_of p with Some l => set_cleanups (l :: cleanups w) w | None => w end.

Section Service.
Context (max_upload_bytes ttl : Z) (max_concurrent_uploads : nat).

Definition put (t : nat) (p : Phase) (w : World) : World :=
  set_tasks (<[t := MkTask true p]> (tasks w)) w.

Definition answer (t : nat) (a : Answer) (w : World) : World :=
  set_answers (<[t := a]> (answers w)) (set_tasks (delete t (tasks w)) w).

Definition refuse (t : nat) (p : Phase) (e : StageUploadError) (w : World) : World :=
  answer t (Refused e) (let_go p w).

(** The removals after a delete: done when there are none left. *)
Definition unlink_all (t : nat) (paths : list Loc) (a : Answer) (w : World) : World :=
  match paths with [] => answer t a w | _ => put t (Unlinking paths a) w end.

Definition new_row (r : StageUploadRequest) (g : bool) (k : key) (size now : Z) : MediaUpload :=
  MkUpload (su_kind r) (su_filename r) (su_content_type r) size (Final k) Staged (now + ttl) g.

(** The row's insert, with the quota of generated previews: [None] for an error. *)
Definition insert_row (g : bool) (k : key) (row : MediaUpload) (rows : Rows) : option (option Rows) :=
  if g then insert_generated_preview_upload MAX_GENERATED_COUNT MAX_GENERATED_BYTES k row rows
  else Some <$> insert_upload k row rows.

(** The bytes a claimed row's file must have, read up to one more than the cap. *)
Definition read_bounded (row : MediaUpload) (cap : Z) (content : option (list Z))
    : sum StageUploadError (list Z) :=
  match content with
  | None => inl NotFound
  | Some c =>
      let bytes := take (Z.to_nat (cap + 1)) c in
      if cap <? Z.of_nat (length bytes) then inl TooLarge
      else if negb (Z.of_nat (length bytes) =? mu_size row) then inl Invalid
      else inr bytes
  end.

(** The operation a phase awaits, done: of [stage_upload] and [stage_upload_inner], *)
Definition stage_step (t : nat) (p : Phase) (o : Outcome) (w : World) : World :=
  match p, o with
  | Permit r g, Ok =>
      match permits w with
      | O => w
      | S n => put t (Account r g) (set_permits n w)
      end
  | Account r g, AccountIs None _ => refuse t p NotFound w
  | Account r g, AccountIs (Some false) _ => refuse t p Forbidden w
  | Account r g, AccountIs (Some true) fresh =>
      let k := (su_account r, fresh) in
      if bool_decide (k ∈ used w) then w
      else put t (Opening r g k)
             (set_ghosts ({[k]} ∪ used w) (<[k := []]> (received w)) (cut w) (sent w) w)
  | Opening r g k, Ok =>
      if bool_decide (is_Some (files w !! Tmp k)) then refuse t p Internal w
      else put t (Body r g k 0) (set_files (<[Tmp k := []]> (files w)) w)
  | Body r g k size, Chunk bytes =>
      let size := size + Z.of_nat (length bytes) in
      if (u64_max <? size) || (max_upload_bytes <? size) then refuse t p TooLarge w
      else put t (Writing r g k size bytes)
             (set_ghosts (used w) (<[k := default [] (received w !! k) ++ bytes]> (received w)) (cut w)
                (sent w) w)
  | Body r g k _, BodyError => refuse t p Invalid w
  | Body r g k size, BodyEnd => put t (Syncing r g k size) w
  | Writing r g k size bytes, Ok =>
      put t (Body r g k size)
        (set_files (<[Tmp k := default [] (files w !! Tmp k) ++ bytes]> (files w)) w)
  | Syncing r g k size, Ok => put t (Renaming r g k size) w
  | Renaming r g k size, Ok =>
      match files w !! Tmp k with
      | None => refuse t p Internal w
      | Some c =>
          let w := set_files (<[Final k := c]> (delete (Tmp k) (files w))) w in
          let p := Inserting g k (new_row r g k size (clock w)) in
          if i64_max <? size then refuse t p TooLarge w else put t p w
      end
  | Inserting g k row, Ok =>
      match insert_row g k row (rows w) with
      | None => refuse t p Internal w
      | Some None => refuse t p Capacity w
      | Some (Some rows') =>
          answer t (StagedUpload k (mu_size row)) (set_permits (S (permits w)) (set_rows rows' w))
      end
  | (Account _ _ | Opening _ _ _ | Writing _ _ _ _ _ | Syncing _ _ _ _ | Renaming _ _ _ _ | Inserting _ _ _),
    Failed => refuse t p Internal w
  | _, _ => w
  end.

(** What a claim reads at most. *)
Definition cap_of (v : bool) : Z := if v then MAX_IMAGE_BYTES else max_upload_bytes.

(** of [claim_bounded], and of [claim_preview_upload] around it, *)
Definition claim_step (t : nat) (p : Phase) (o : Outcome) (w : World) : World :=
  match p, o with
  | PreviewPermit k, Ok =>
      match permits w with
      | O => w
      | S n => put t (Claiming true k) (set_permits n w)
      end
  | PreviewPermit k, Failed => answer t (Refused Timeout) w
  | Claiming v k, Ok =>
      match claim_staged_media_upload (clock w) k (rows w) with
      | None => refuse t p NotFound w
      | Some (rows', row) =>
          let w := set_rows rows' w in
          if (mu_size row <? 0) || (cap_of v <? mu_size row)
          then put t (ReleasingUnread v k TooLarge) w else put t (ReadingFile v k row) w
      end
  | Claiming _ _, Failed => refuse t p Internal w
  | ReadingFile v k row, Ok =>
      match read_bounded row (cap_of v) (files w !! mu_path row) with
      | inl e => put t (ReleasingUnread v k e) w
      | inr bytes => put t (if v then Decoding k row bytes else Mutating k bytes) w
      end
  | ReadingFile v k row, Failed => put t (ReleasingUnread v k Internal) w
  | ReleasingUnread _ k e, Ok =>
      refuse t p e
        (match release_sending_media_upload k (rows w) with Some (rows', _) => set_rows rows' w | None => w end)
  | ReleasingUnread _ k e, Failed => refuse t p e w
  | _, _ => w
  end.

(** of its decoder, which gives the permit back: a valid image goes on with the claim,
    an invalid one or a crash gives the claim up, *)
Definition decode_step (t : nat) (k : key) (row : MediaUpload) (bytes : list Z) (o : Outcome) (w : World)
    : World :=
  let w' := set_permits (S (permits w)) w in
  match o with
  | Ok =>
      match mu_kind row with
      | ImageUpload =>
          if MAX_IMAGE_BYTES <? Z.of_nat (length bytes) then put t (ReleasingUnread false k Invalid) w'
          else put t (Mutating k bytes) w'
      | FileUpload => put t (ReleasingUnread false k Invalid) w'
      end
  | BodyError => put t (ReleasingUnread false k Invalid) w'
  | Failed => put t (ReleasingUnread false k Internal) w'
  | _ => w
  end.

(** of [with_staged_upload], and of [bundled_previews::send], once they hold the claim, *)
Definition send_step (t : nat) (p : Phase) (o : Outcome) (w : World) : World :=
  match p, o with
  | Mutating k _, Ok => put t (Completing k) (set_ghosts (used w) (received w) (cut w) (k :: sent w) w)
  | Mutating k _, Failed => put t (Releasing k) w
  | Completing k, Ok =>
      match complete_sending_media_upload k (rows w) with
      | Some (rows', row) => unlink_all t [mu_path row] Sent (set_rows rows' w)
      | None => answer t Sent w
      end
  | Completing k, Failed => answer t Sent w
  | Releasing k, Ok =>
      answer t SendFailed
        (match release_sending_media_upload k (rows w) with Some (rows', _) => set_rows rows' w | None => w end)
  | Releasing k, Failed => answer t SendFailed w
  | _, _ => w
  end.

(** of [delete_upload], *)
Definition delete_step (t : nat) (k : key) (o : Outcome) (w : World) : World :=
  match o with
  | Ok =>
      match delete_staged_media_upload k (rows w) with
      | Some (rows', row) => unlink_all t [mu_path row] Done (set_rows rows' w)
      | None => answer t (Refused NotFound) w
      end
  | Failed => answer t (Refused Internal) w
  | _ => w
  end.

(** of [sweep_expired], *)
Definition sweep_step (t : nat) (o : Outcome) (w : World) : World :=
  match o with
  | Ok =>
      let '(rows', gone) := delete_expired_media_uploads (clock w) (rows w) in
      unlink_all t (mu_path <$> gone) Done (set_rows rows' w)
  | Failed => answer t Done w
  | _ => w
  end.

(** of [remove_file_if_exists], whose failure is ignored. *)
Definition unlink_step (t : nat) (paths : list Loc) (a : Answer) (o : Outcome) (w : World) : World :=
  match paths, o with
  | l :: paths, Ok => unlink_all t paths a (set_files (delete l (files w)) w)
  | l :: paths, Failed => unlink_all t paths a w
  | _, _ => w
  end.

Definition advance (t : nat) (p : Phase) (o : Outcome) (w : World) : World :=
  match p with
  | PreviewPermit _ | Claiming _ _ | ReadingFile _ _ _ | ReleasingUnread _ _ _ => claim_step t p o w
  | Decoding k row bytes => decode_step t k row bytes o w
  | Mutating _ _ | Completing _ | Releasing _ => send_step t p o w
  | Deleting k => delete_step t k o w
  | Sweeping => sweep_step t o w
  | Unlinking paths a => unlink_step t paths a o w
  | _ => stage_step t p o w
  end.

(** What the last operation of a dropped call does when it happens after all. *)
Definition aftermath (p : Phase) (w : World) : World :=
  match p with
  | Opening _ _ k => if bool_decide (is_Some (files w !! Tmp k)) then w
                     else set_files (<[Tmp k := []]> (files w)) w
  | Writing _ _ k _ bytes =>
      match files w !! Tmp k with
      | Some c => set_files (<[Tmp k := c ++ bytes]> (files w)) w
      | None => w
      end
  | Renaming _ _ k _ =>
      match files w !! Tmp k with
      | Some c => set_files (<[Final k := c]> (delete (Tmp k) (files w))) w
      | None => w
      end
  | Inserting g k row =>
      match insert_row g k row (rows w) with Some (Some rows') => set_rows rows' w | _ => w end
  | Claiming _ k =>
      match claim_staged_media_upload (clock w) k (rows w) with Some (rows', _) => set_rows rows' w | None => w end
  | ReleasingUnread _ k _ | Releasing k =>
      match release_sending_media_upload k (rows w) with Some (rows', _) => set_rows rows' w | None => w end
  | Completing k =>
      match complete_sending_media_upload k (rows w) with Some (rows', _) => set_rows rows' w | None => w end
  | Deleting k =>
      match delete_staged_media_upload k (rows w) with Some (rows', _) => set_rows rows' w | None => w end
  | Sweeping => set_rows (delete_expired_media_uploads (clock w) (rows w)).1 w
  | Unlinking (l :: _) _ => set_files (delete l (files w)) w
  | Mutating k _ => set_ghosts (used w) (received w) (cut w) (k :: sent w) w
  | _ => w
  end.

Inductive Call :=
| StageUpload (r : StageUploadRequest) (g : bool)
| SendUpload (k : key)
| SendPreview (k : key)
| DeleteUpload (k : key)
| SweepExpired.

Definition first_phase (c : Call) : Phase :=
  match c with
  | StageUpload r g => Permit r g
  | SendUpload k => Claiming false k
  | SendPreview k => PreviewPermit k
  | DeleteUpload k => Deleting k
  | SweepExpired => Sweeping
  end.

(** [reconcile_boot] before any call: which of its reads succeed, and the files that
    cannot be removed. *)
Definition reconcile_boot (reset listed swept : bool) (stuck : gset Loc) (w : World) : World :=
  let w := if reset then set_rows (reconcile_sending_media_uploads (rows w)) w else w in
  let w :=
    if listed then
      set_files (filter (fun e => is_Some (rows w !! match e.1 with Tmp k | Final k => k end) \/ e.1 ∈ stuck)
        (files w)) w
    else w in
  if swept then
    let '(rows', gone) := delete_expired_media_uploads (clock w) (rows w) in
    set_rows rows' (set_files (filter (fun e => e.1 ∉ (mu_path <$> gone) \/ e.1 ∈ stuck) (files w)) w)
  else w.

Inductive Event :=
| Start (t : nat) (c : Call)
| Go (t : nat) (o : Outcome)
| Drop (t : nat)
| Late (t : nat) (happens : bool)
| Cleanup (i : nat) (removed : bool)
| Tick (d : Z)
| AccountGone (account : uuid)
| Restart (reset listed swept : bool) (stuck : gset Loc).

Definition step (e : Event) (w : World) : World :=
  match e with
  | Start t c =>
      if bool_decide (is_Some (tasks w !! t)) then w else put t (first_phase c) w
  | Go t o =>
      match tasks w !! t with
      | Some (MkTask true p) => advance t p o w
      | _ => w
      end
  | Drop t =>
      match tasks w !! t with
      | Some (MkTask true p) =>
          let w := let_go p (set_tasks (<[t := MkTask false p]> (tasks w)) w) in
          match p with
          | Inserting _ k _ => set_ghosts (used w) (received w) ({[k]} ∪ cut w) (sent w) w
          | _ => w
          end
      | _ => w
      end
  | Late t happens =>
      match tasks w !! t with
      | Some (MkTask false p) =>
          let w := set_tasks (delete t (tasks w)) w in
          let w := if outlives p then set_permits (S (permits w)) w else w in
          if happens then aftermath p w else w
      | _ => w
      end
  | Cleanup i removed =>
      match cleanups w !! i with
      | None => w
      | Some l =>
          let w := set_cleanups (delete i (cleanups w)) w in
          if removed then set_files (delete l (files w)) w else w
      end
  | Tick d => MkWorld (rows w) (files w) (clock w + Z.max 0 d) (permits w) (tasks w) (cleanups w)
                (answers w) (used w) (received w) (cut w) (sent w)
  | AccountGone account => set_rows (filter (fun e => e.1.1 <> account) (rows w)) w
  | Restart reset listed swept stuck =>
      reconcile_boot reset listed swept stuck
        (MkWorld (rows w) (files w) (clock w) max_concurrent_uploads ∅ [] ∅ (used w) (received w) (cut w) [])
  end.

Definition run (l : list Event) (w : World) : World := foldl (fun w e => step e w) w l.

Definition fresh_world : World :=
  MkWorld ∅ ∅ 0 max_concurrent_uploads ∅ [] ∅ ∅ ∅ ∅ [].
End Service.

(** ** The invariant of one upload *)

(** The upload a call is staging, and the upload whose claim it holds. *)
Definition stage_key (p : Phase) : option key :=
  match p with
  | Opening _ _ k | Body _ _ k _ | Writing _ _ k _ _ | Syncing _ _ k _ | Renaming _ _ k _
  | Inserting _ k _ => Some k
  | _ => None
  end.

Definition hold_key (p : Phase) : option key :=
  match p with
  | ReadingFile _ k _ | ReleasingUnread _ k _ | Decoding k _ _ | Mutating k _ | Completing k | Releasing k => Some k
  | _ => None
  end.

Definition on_key (k : key) (p : Phase) : Prop := stage_key p = Some k \/ hold_key p = Some k.

(** A removal that was decided on and has not happened. *)
Definition doomed (l : Loc) (w : World) : Prop :=
  l ∈ cleanups w \/
  exists t a paths ans, tasks w !! t = Some (MkTask a (Unlinking paths ans)) /\ l ∈ paths.

Ltac advance_simpl :=
  cbn [advance stage_step claim_step decode_step send_step delete_step sweep_step unlink_step];
  try unfold unlink_step.

Ltac step_simpl := cbn [step].

Section Invariant.
Context (max_upload_bytes ttl : Z) (max_concurrent_uploads : nat) (Hmax : 0 <= max_upload_bytes).

(** The row of an upload of these bytes. *)
Definition row_of (k : key) (c : list Z) (row : MediaUpload) : Prop :=
  mu_path row = Final k /\ mu_size row = Z.of_nat (length c) /\ mu_size row <= max_upload_bytes.

(** What the bytes taken ([rcv]), the temporary file and the file hold, where a call
    is; [is_cut]: its insert was cut off. *)
Definition taking (size : Z) (rest : list Z) (rcv tmp : option (list Z)) : Prop :=
  exists c, rcv = Some (c ++ rest) /\ tmp = Some c /\
    size = Z.of_nat (length (c ++ rest)) /\ size <= max_upload_bytes.

Definition stage_ok (live : bool) (p : Phase) (k : key) (rcv tmp fin : option (list Z)) (is_cut : bool)
    : Prop :=
  match p with
  | Opening _ _ _ => fin = None /\ (live = true -> rcv = Some [])
  | Body _ _ _ size | Syncing _ _ _ size => fin = None /\ (live = true -> taking size [] rcv tmp)
  | Writing _ _ _ size chunk => fin = None /\ (live = true -> taking size chunk rcv tmp)
  | Renaming _ _ _ size =>
      fin = None /\ exists c, rcv = Some c /\ size = Z.of_nat (length c) /\ size <= max_upload_bytes /\
        (tmp = Some c \/ (live = false /\ tmp = None))
  | Inserting _ _ row => exists c, rcv = Some c /\ row_of k c row /\ mu_state row = Staged /\
      (fin = Some c \/ (live = false /\ fin = None)) /\ (live = false -> is_cut = true)
  | _ => True
  end.

Definition hold_ok (p : Phase) (k : key) (rcv : option (list Z)) : Prop :=
  match p with
  | ReadingFile _ _ row => exists c, rcv = Some c /\ row_of k c row
  | Decoding _ _ bytes | Mutating _ bytes => rcv = Some bytes /\ Z.of_nat (length bytes) <= max_upload_bytes
  | _ => True
  end.

Definition stage_ok_in (live : bool) (p : Phase) (k : key) (w : World) : Prop :=
  stage_ok live p k (received w !! k) (files w !! Tmp k) (files w !! Final k) (bool_decide (k ∈ cut w)).

Definition task_ok (live : bool) (p : Phase) (k : key) (w : World) : Prop :=
  k ∈ used w /\
  (stage_key p = Some k -> rows w !! k = None /\ k ∉ sent w /\ (live = true -> k ∉ cut w) /\
     stage_ok_in live p k w) /\
  (hold_key p = Some k -> (forall row, rows w !! k = Some row -> mu_state row = Sending) /\
     (k ∈ sent w -> p = Completing k) /\ hold_ok p k (received w !! k)).

Record kinv (k : key) (w : World) : Prop := {
  k_new : k ∉ used w -> rows w !! k = None /\ files w !! Final k = None /\ files w !! Tmp k = None /\
    k ∉ cut w /\ k ∉ sent w /\ ~ doomed (Tmp k) w /\ ~ doomed (Final k) w;
  k_one : forall t1 t2 T1 T2, tasks w !! t1 = Some T1 -> tasks w !! t2 = Some T2 ->
    on_key k (phase T1) -> on_key k (phase T2) -> t1 = t2;
  k_task : forall t live p, tasks w !! t = Some (MkTask live p) -> on_key k p -> task_ok live p k w;
  k_final : forall c, files w !! Final k = Some c -> received w !! k = Some c;
  k_row : forall row, rows w !! k = Some row -> exists c, received w !! k = Some c /\ row_of k c row /\
    (files w !! Final k = Some c \/ k ∈ cut w);
  k_tmp : doomed (Tmp k) w -> forall t p, tasks w !! t = Some (MkTask true p) -> stage_key p <> Some k;
  k_fin : doomed (Final k) w ->
    (forall t p, tasks w !! t = Some (MkTask true p) -> stage_key p <> Some k) /\
    (k ∈ cut w \/ (rows w !! k = None /\ forall t T, tasks w !! t = Some T -> stage_key (phase T) <> Some k));
  k_sent : k ∈ sent w -> forall row, rows w !! k = Some row -> mu_state row = Sending;
}.

(** Nothing about the upload changed. *)
Lemma kinv_frame k w w' :
  rows w' !! k = rows w !! k -> files w' !! Tmp k = files w !! Tmp k ->
  files w' !! Final k = files w !! Final k -> received w' !! k = received w !! k ->
  (k ∈ used w' <-> k ∈ used w) -> (k ∈ cut w' <-> k ∈ cut w) -> (k ∈ sent w' <-> k ∈ sent w) ->
  (forall t T, on_key k (phase T) -> tasks w' !! t = Some T <-> tasks w !! t = Some T) ->
  (forall l, l = Tmp k \/ l = Final k -> doomed l w' -> doomed l w) ->
  kinv k w -> kinv k w'.
Proof.
  intros Hr Ht Hf Hc Hu Hcut Hs HT Hd [N1 N2 N3 N4 N5 N6 N7 N8].
  assert (forall t live p, tasks w' !! t = Some (MkTask live p) -> on_key k p -> task_ok live p k w') as HK.
  { intros t live p E Ho. apply HT in E; [|done]. destruct (N3 _ _ _ E Ho) as (A1 & A2 & A3).
    split; [by apply Hu|]. rewrite Hr, Hs, Hcut. split; [|by rewrite Hc].
    unfold stage_ok_in in *. by rewrite Hf, Ht, Hc, (bool_decide_ext _ _ Hcut). }
  split; rewrite ?Hr, ?Hf, ?Ht, ?Hc, ?Hu, ?Hcut, ?Hs.
  - intros Hn. destruct (N1 Hn) as (? & ? & ? & ? & ? & A & B). split_and!; try done.
    + intros D. apply A, Hd; auto.
    + intros D. apply B, Hd; auto.
  - intros t1 t2 T1 T2 E1 E2 O1 O2. apply HT in E1, E2; [|done..]. eauto.
  - done.
  - done.
  - intros row E. destruct (N5 _ E) as (c & ? & ? & ?). exists c. by rewrite Hcut.
  - intros D t p E Hp. apply HT in E; [|by left]. eapply N6; eauto.
  - intros D. destruct N7 as [A B]; [auto|]. split.
    + intros t p E Hp. apply HT in E; [|by left]. eapply A; eauto.
    + destruct B as [|[B1 B2]]; [by left|right]. split; [done|].
      intros t T E Hp. apply HT in E; [|by left]. eapply B2; eauto.
  - done.
Qed.

(** ** One call's step, seen from an upload *)

Definition same_but (t : nat) (w w' : World) : Prop :=
  forall t', t' <> t -> tasks w' !! t' = tasks w !! t'.

(** Nobody but [t] is on the upload. *)
Definition only (t : nat) (k : key) (w : World) : Prop :=
  forall t' T, tasks w !! t' = Some T -> on_key k (phase T) -> t' = t.

Lemma doomed_same_but t w w' l : same_but t w w' -> doomed l w' ->
  doomed l w \/ l ∈ cleanups w' \/
  exists a paths ans, tasks w' !! t = Some (MkTask a (Unlinking paths ans)) /\ l ∈ paths.
Proof.
  intros Hs [Hc|(t' & a & paths & ans & E & Hl)]; [auto|]. destruct (decide (t' = t)) as [->|Hn].
  - right; right. eauto.
  - left. right. exists t', a, paths, ans. by rewrite <- Hs.
Qed.

(** An upload the step is not about. *)
Lemma kinv_other k t w w' :
  same_but t w w' ->
  (forall T, tasks w !! t = Some T -> ~ on_key k (phase T)) ->
  (forall T, tasks w' !! t = Some T -> ~ on_key k (phase T)) ->
  rows w' !! k = rows w !! k -> files w' !! Tmp k = files w !! Tmp k ->
  files w' !! Final k = files w !! Final k -> received w' !! k = received w !! k ->
  (k ∈ used w' <-> k ∈ used w) -> (k ∈ cut w' <-> k ∈ cut w) -> (k ∈ sent w' <-> k ∈ sent w) ->
  (forall l, l = Tmp k \/ l = Final k -> doomed l w' -> doomed l w) ->
  kinv k w -> kinv k w'.
Proof.
  intros Hs Ho Ho'. intros. eapply kinv_frame; [eassumption..| |eassumption|eassumption].
  intros t' T Hk. destruct (decide (t' = t)) as [->|Hn]; [|by rewrite Hs].
  split; intros E; exfalso; [by eapply Ho'|by eapply Ho].
Qed.

(** The upload the step is about. *)
Lemma kinv_own k t w w' :
  same_but t w w' -> only t k w -> k ∈ used w' ->
  (forall live p, tasks w' !! t = Some (MkTask live p) -> on_key k p -> task_ok live p k w') ->
  (forall c, files w' !! Final k = Some c -> received w' !! k = Some c) ->
  (forall row, rows w' !! k = Some row -> exists c, received w' !! k = Some c /\ row_of k c row /\
    (files w' !! Final k = Some c \/ k ∈ cut w')) ->
  (doomed (Tmp k) w' -> forall p, tasks w' !! t = Some (MkTask true p) -> stage_key p <> Some k) ->
  (doomed (Final k) w' ->
    (forall p, tasks w' !! t = Some (MkTask true p) -> stage_key p <> Some k) /\
    (k ∈ cut w' \/ (rows w' !! k = None /\ forall T, tasks w' !! t = Some T -> stage_key (phase T) <> Some k))) ->
  (k ∈ sent w' -> forall row, rows w' !! k = Some row -> mu_state row = Sending) ->
  kinv k w'.
Proof.
  intros Hs Ho Hu HT Hf Hr Ht Hd Hsent.
  assert (only t k w') as Ho'.
  { intros t' T E Hk. destruct (decide (t' = t)) as [|Hn]; [done|]. rewrite Hs in E by done. by eapply Ho. }
  split; try done.
  - intros t1 t2 T1 T2 E1 E2 O1 O2. rewrite (Ho' t1 T1 E1 O1). by rewrite (Ho' t2 T2 E2 O2).
  - intros t' live p E Hk. pose proof (Ho' _ _ E Hk) as ->. eauto.
  - intros D t' p E Hp. assert (t' = t) as -> by (eapply Ho'; [exact E|by left]). by eapply Ht.
  - intros D. destruct (Hd D) as [A B]. split.
    + intros t' p E Hp. assert (t' = t) as -> by (eapply Ho'; [exact E|by left]). by eapply A.
    + destruct B as [|[B1 B2]]; [by left|right]. split; [done|]. intros t' T E Hp.
      assert (t' = t) as -> by (eapply Ho'; [exact E|by left]). by eapply B2.
Qed.

Lemma only_task k t w live p : kinv k w -> tasks w !! t = Some (MkTask live p) -> on_key k p -> only t k w.
Proof. intros H E Hk t' T E' Hk'. by eapply (k_one _ _ H). Qed.

(** A row nobody has claimed, and an upload not yet named, have nobody on them. *)
Lemma only_staged k t w row : kinv k w -> rows w !! k = Some row -> mu_state row = Staged -> only t k w.
Proof.
  intros H Hr Hs t' [live p] E Hk. destruct (k_task _ _ H _ _ _ E Hk) as (_ & A & B). exfalso.
  destruct Hk as [Hk|Hk].
  - destruct (A Hk) as (? & _). congruence.
  - destruct (B Hk) as (C & _). rewrite (C _ Hr) in Hs. done.
Qed.

Lemma only_new k t w : kinv k w -> k ∉ used w -> only t k w.
Proof. intros H Hn t' [live p] E Hk. destruct (k_task _ _ H _ _ _ E Hk) as (? & _). done. Qed.

Lemma on_key_inj k k' p : on_key k p -> on_key k' p -> k = k'.
Proof. destruct p; unfold on_key; cbn; naive_solver. Qed.

Definition keys_ok (w : World) : Prop := forall k, kinv k w.

(** A call that is on no upload before and after, and touches nothing. *)
Lemma keys_idle t w w' :
  keys_ok w -> same_but t w w' ->
  (forall T k, tasks w !! t = Some T -> ~ on_key k (phase T)) ->
  (forall T k, tasks w' !! t = Some T -> ~ on_key k (phase T)) ->
  rows w' = rows w -> files w' = files w -> received w' = received w -> used w' = used w ->
  cut w' = cut w -> sent w' = sent w -> (forall l, doomed l w' -> doomed l w) -> keys_ok w'.
Proof.
  intros H Hs Ho Ho' Hr Hf Hc Hu Hcut Hsent Hd k.
  eapply (kinv_other k t w w'); eauto; rewrite ?Hr, ?Hf, ?Hc, ?Hu, ?Hcut, ?Hsent; try done; eauto.
Qed.

(** A staging call moves on: only its own files and bytes change. *)
Lemma keys_stage t p k p' w w' :
  keys_ok w -> tasks w !! t = Some (MkTask true p) -> stage_key p = Some k -> stage_key p' = Some k ->
  tasks w' = <[t := MkTask true p']> (tasks w) -> rows w' = rows w -> cleanups w' = cleanups w ->
  used w' = used w -> cut w' = cut w -> sent w' = sent w ->
  (forall l, l <> Tmp k -> l <> Final k -> files w' !! l = files w !! l) ->
  (forall k', k' <> k -> received w' !! k' = received w !! k') ->
  (forall c, files w' !! Final k = Some c -> received w' !! k = Some c) ->
  stage_ok_in true p' k w' -> keys_ok w'.
Proof.
  intros H E Hp Hp' HT Hr Hc Hu Hcut Hs Hf Hrec Hfin Hok k'.
  assert (same_but t w w') as Hsb by (intros t' Hn; rewrite HT; by apply lookup_insert_ne).
  assert (tasks w' !! t = Some (MkTask true p')) as E' by (rewrite HT; apply lookup_insert_eq).
  assert (forall l, doomed l w' -> doomed l w) as Hd.
  { intros l D. destruct (doomed_same_but _ _ _ _ Hsb D) as [|[D'|(a & paths & ans & Et & _)]]; [done| |].
    - left. by rewrite <- Hc.
    - exfalso. rewrite E' in Et. injection Et as Ea Ep. by rewrite Ep in Hp'. }
  destruct (decide (k' = k)) as [->|Hn].
  - destruct (k_task _ _ (H k) _ _ _ E (or_introl Hp)) as (A & B & _).
    destruct (B Hp) as (B1 & B2 & B3 & _). apply (kinv_own k t w w'); try done.
    + eapply only_task; [done|exact E|by left].
    + by rewrite Hu.
    + intros live q Eq Hq. rewrite E' in Eq. injection Eq as <- <-. split; [by rewrite Hu|]. split.
      * intros _. rewrite Hr, Hs, Hcut. by split_and!.
      * intros Hh. by destruct p'.
    + rewrite Hr, B1. done.
    + intros D. apply Hd in D. exfalso. by eapply (k_tmp _ _ (H k) D).
    + intros D. apply Hd in D. exfalso. by eapply (proj1 (k_fin _ _ (H k) D)).
    + by rewrite Hs.
  - apply (kinv_other k' t w w'); try done; rewrite ?Hr, ?Hu, ?Hcut, ?Hs; try done.
    + intros T ET Hk. rewrite E in ET. injection ET as <-. apply Hn. by eapply on_key_inj; [|left].
    + intros T ET Hk. rewrite E' in ET. injection ET as <-. apply Hn. by eapply on_key_inj; [|left].
    + apply Hf; congruence.
    + apply Hf; congruence.
    + by apply Hrec.
    + intros l _. apply Hd.
Qed.

(** A call ends, or goes on to removals, leaving the row of its upload in some
    state. *)
Lemma keys_leave t T k w w' :
  keys_ok w -> tasks w !! t = Some T -> only t k w -> (forall k', on_key k' (phase T) -> k' = k) ->
  k ∈ used w -> same_but t w w' -> (forall T' k', tasks w' !! t = Some T' -> ~ on_key k' (phase T')) ->
  files w' = files w -> received w' = received w -> used w' = used w -> cut w' = cut w -> sent w' = sent w ->
  (forall k', k' <> k -> rows w' !! k' = rows w !! k') ->
  (forall row, rows w' !! k = Some row -> (k ∈ sent w -> mu_state row = Sending) /\
     exists c, received w !! k = Some c /\ row_of k c row /\ (files w !! Final k = Some c \/ k ∈ cut w)) ->
  (forall l, doomed l w' -> doomed l w \/ l = Tmp k \/ l = Final k) ->
  (doomed (Final k) w' -> k ∈ cut w \/ rows w' !! k = None) -> keys_ok w'.
Proof.
  intros H E Ho HT Hu Hsb Ht' Hf Hc Hus Hcut Hs Hr Hrow Hd Hfin k'.
  destruct (decide (k' = k)) as [->|Hn].
  - apply (kinv_own k t w w'); try done; rewrite ?Hf, ?Hc, ?Hus, ?Hcut, ?Hs; try done.
    + intros live p Ep Hp. exfalso. by eapply Ht'.
    + intros c. apply (k_final _ _ (H k)).
    + intros row Er. by apply Hrow.
    + intros _ p Ep Hp. eapply (Ht' _ k); [exact Ep|by left].
    + intros D. split; [intros p Ep Hp; eapply (Ht' _ k); [exact Ep|by left]|].
      destruct (Hfin D) as [|]; [by left|right]. split; [done|].
      intros T' ET Hp. eapply (Ht' _ k); [exact ET|by left].
    + intros Hin row Er. by apply Hrow.
  - apply (kinv_other k' t w w'); try done; rewrite ?Hf, ?Hc, ?Hus, ?Hcut, ?Hs; try done.
    + intros T' ET Hk. rewrite E in ET. injection ET as <-. apply Hn. by apply HT.
    + intros T' ET Hk. by eapply Ht'.
    + by apply Hr.
    + intros l Hl D. destruct (Hd l D) as [|[-> | ->]]; [done|naive_solver..].
Qed.

(** A call takes an upload up, or goes on holding it. *)
Lemma keys_take t T k p' w w' :
  keys_ok w -> tasks w !! t = Some T -> only t k w -> (forall k', on_key k' (phase T) -> k' = k) ->
  on_key k p' -> tasks w' = <[t := MkTask true p']> (tasks w) -> files w' = files w ->
  cleanups w' = cleanups w -> cut w' = cut w -> k ∈ used w' ->
  (forall k', k' <> k -> rows w' !! k' = rows w !! k' /\ received w' !! k' = received w !! k' /\
     (k' ∈ used w' <-> k' ∈ used w) /\ (k' ∈ sent w' <-> k' ∈ sent w)) ->
  (forall c, files w !! Final k = Some c -> received w' !! k = Some c) ->
  (forall row, rows w' !! k = Some row -> (k ∈ sent w' -> mu_state row = Sending) /\
     exists c, received w' !! k = Some c /\ row_of k c row /\ (files w !! Final k = Some c \/ k ∈ cut w)) ->
  task_ok true p' k w' ->
  (stage_key p' = Some k -> ~ doomed (Tmp k) w /\ ~ doomed (Final k) w) ->
  (doomed (Final k) w -> k ∈ cut w \/ rows w' !! k = None) -> keys_ok w'.
Proof.
  intros H E Ho HT Hp' HT' Hf Hc Hcut Hu Hk Hfin Hrow Hok Hst Hdf k'.
  assert (same_but t w w') as Hsb by (intros t' Hn; rewrite HT'; by apply lookup_insert_ne).
  assert (tasks w' !! t = Some (MkTask true p')) as E' by (rewrite HT'; apply lookup_insert_eq).
  assert (forall l, doomed l w' -> doomed l w) as Hd.
  { intros l D. destruct (doomed_same_but _ _ _ _ Hsb D) as [|[D'|(a & paths & ans & Et & _)]]; [done| |].
    - left. by rewrite <- Hc.
    - exfalso. rewrite E' in Et. injection Et as Ea Ep. rewrite Ep in Hp'. by destruct Hp'. }
  destruct (decide (k' = k)) as [->|Hn].
  - apply (kinv_own k t w w'); try done; rewrite ?Hf, ?Hcut; try done.
    + intros live q Eq _. rewrite E' in Eq. by injection Eq as <- <-.
    + intros row Er. by apply Hrow.
    + intros D p Ep Hp. rewrite E' in Ep. injection Ep as <-. destruct (Hst Hp) as [A _]. by apply A, Hd.
    + intros D. apply Hd in D. split.
      * intros p Ep Hp. rewrite E' in Ep. injection Ep as <-. by destruct (Hst Hp).
      * destruct (Hdf D) as [|Hr]; [by left|right]. split; [done|]. intros T' ET Hp.
        rewrite E' in ET. injection ET as <-. by destruct (Hst Hp).
    + intros Hin row Er. by apply Hrow.
  - destruct (Hk k' Hn) as (? & ? & ? & ?).
    apply (kinv_other k' t w w'); try done; rewrite ?Hf, ?Hcut; try done.
    + intros T' ET Hk'. rewrite E in ET. injection ET as <-. apply Hn. by apply HT.
    + intros T' ET Hk'. rewrite E' in ET. injection ET as <-. apply Hn. by eapply on_key_inj.
    + intros l _. apply Hd.
Qed.

Ltac wsimpl :=
  cbn [put answer refuse unlink_all let_go holds_permit outlives negb andb guard_of set_rows set_files set_permits set_tasks
    set_cleanups set_answers set_ghosts rows files clock permits tasks cleanups answers used received cut sent
    stage_key hold_key phase alive option_map].

(** A call's step touches its own entry only. *)
Ltac same_but_tac :=
  let t' := fresh "t'" in let Hn := fresh "Hn" in intros t' Hn; wsimpl;
  by rewrite ?lookup_insert_ne, ?lookup_delete_ne by done.

(** The call is gone from the table, or on no upload. *)
Ltac off_key_tac :=
  let E := fresh "E" in intros ? ? E; wsimpl; revert E; wsimpl;
  rewrite ?lookup_delete_eq, ?lookup_insert_eq; intros E;
  first [discriminate E | injection E as <-; wsimpl; by intros [|]].

(** What is doomed after a step of [t]. *)
Lemma doomed_step t w w' l : same_but t w w' ->
  (forall T, tasks w' !! t = Some T -> match phase T with Unlinking paths _ => l ∉ paths | _ => True end) ->
  doomed l w' -> doomed l w \/ l ∈ cleanups w'.
Proof.
  intros Hs Ht D. destruct (doomed_same_but _ _ _ _ Hs D) as [|[|(a & paths & ans & E & Hl)]]; [auto..|].
  by specialize (Ht _ E).
Qed.

Lemma doomed_cleanup l w : l ∈ cleanups w -> doomed l w.
Proof. by left. Qed.

Lemma set_rows_id w : set_rows (rows w) w = w.
Proof. by destruct w. Qed.

Lemma doomed_answer t a w w' l :
  tasks w' = tasks w -> cleanups w' = cleanups w -> doomed l (answer t a w') -> doomed l w.
Proof.
  intros Ht Hc D. apply (doomed_step t w) in D.
  - destruct D as [|D]; [done|]. left. by rewrite <- Hc.
  - intros t' Hn. wsimpl. by rewrite Ht, lookup_delete_ne.
  - wsimpl. intros T. by rewrite lookup_delete_eq.
Qed.

(** A call on no upload is over. *)
Lemma keys_over t T a w :
  keys_ok w -> tasks w !! t = Some T -> (forall k, ~ on_key k (phase T)) -> keys_ok (answer t a w).
Proof.
  intros H E HT. eapply (keys_idle t w); try done; [same_but_tac| |off_key_tac|].
  - intros T' k E'. rewrite E in E'. injection E' as <-. apply HT.
  - intros l. by apply doomed_answer.
Qed.

(** Permits are no part of an upload. *)
Lemma keys_permits n w : keys_ok w -> keys_ok (set_permits n w).
Proof. intros H k. by apply (kinv_frame k w). Qed.

Lemma let_go_no_guard p w : guard_of p = None -> let_go p w = set_permits (permits (let_go p w)) w.
Proof. intros Hg. unfold let_go. rewrite Hg. destruct (_ && _); [done|by destruct w]. Qed.

Lemma keys_let_go t p e w :
  guard_of p = None -> keys_ok (answer t (Refused e) w) -> keys_ok (refuse t p e w).
Proof.
  intros Hg H. unfold refuse. rewrite let_go_no_guard by done. exact (keys_permits _ _ H).
Qed.

Lemma keys_refuse_claim t p e w :
  keys_ok w -> tasks w !! t = Some (MkTask true p) -> guard_of p = None -> (forall k, ~ on_key k p) ->
  keys_ok (refuse t p e w).
Proof.
  intros H E Hg Ho. apply keys_let_go; [done|]. by eapply keys_over.
Qed.

(** A refused staging removes its file. *)
Lemma keys_refuse t p k e w :
  keys_ok w -> tasks w !! t = Some (MkTask true p) -> stage_key p = Some k -> keys_ok (refuse t p e w).
Proof.
  intros H E Hp. destruct (k_task _ _ (H k) _ _ _ E (or_introl Hp)) as (A & B & _).
  destruct (B Hp) as (B1 & B2 & B3 & _).
  assert (only t k w) as Ho by (eapply only_task; [done|exact E|by left]).
  assert (exists n l, let_go p w = set_cleanups (l :: cleanups w) (set_permits n w) /\
    (l = Tmp k \/ l = Final k)) as (n & l & Hg & Hl).
  { destruct p; try discriminate Hp; injection Hp as ->; eexists _, _; (split; [reflexivity|]); auto. }
  unfold refuse. rewrite Hg.
  eapply (keys_leave t (MkTask true p) k w); try done; [|same_but_tac|off_key_tac|..].
  - intros k' Hk. eapply on_key_inj; [exact Hk|by left].
  - wsimpl. intros row. by rewrite B1.
  - intros l' D. apply (doomed_step t w) in D; [|same_but_tac|].
    + destruct D as [|D]; [by left|]. revert D. wsimpl.
      rewrite elem_of_cons. intros [->|]; auto using doomed_cleanup.
    + wsimpl. intros T. by rewrite lookup_delete_eq.
  - by right.
Qed.

(** A row that goes in is the one given, and its upload had none. *)
Lemma insert_upload_some k row m m' : insert_upload k row m = Some m' -> m' = <[k := row]> m.
Proof. unfold insert_upload. case_match; naive_solver. Qed.

Lemma insert_row_some g k row m m' : insert_row g k row m = Some (Some m') -> m' = <[k := row]> m.
Proof.
  unfold insert_row, insert_generated_preview_upload. destruct g.
  - case_match; [done|]. rewrite fmap_Some. intros (x & E & [= ->]). by apply insert_upload_some.
  - rewrite fmap_Some. intros (x & E & [= ->]). by apply insert_upload_some.
Qed.

(** A staging call, moved on by what it awaited. *)
Lemma keys_staging t p k o w :
  keys_ok w -> tasks w !! t = Some (MkTask true p) -> stage_key p = Some k ->
  keys_ok (advance max_upload_bytes ttl t p o w).
Proof.
  intros H E Hp. destruct (k_task _ _ (H k) _ _ _ E (or_introl Hp)) as (A & B & _).
  destruct (B Hp) as (B1 & B2 & B3 & Hok). pose proof (B3 eq_refl) as Hcut.
  assert (forall e, keys_ok (refuse t p e w)) as Href by (intros; by eapply keys_refuse).
  assert (forall p' w', stage_key p' = Some k -> tasks w' = <[t := MkTask true p']> (tasks w) ->
    rows w' = rows w -> cleanups w' = cleanups w -> used w' = used w -> cut w' = cut w -> sent w' = sent w ->
    (forall l, l <> Tmp k -> l <> Final k -> files w' !! l = files w !! l) ->
    (forall k', k' <> k -> received w' !! k' = received w !! k') ->
    (forall c, files w' !! Final k = Some c -> received w' !! k = Some c) ->
    stage_ok_in true p' k w' -> keys_ok w') as Hgo by (intros; by eapply keys_stage).
  pose proof (k_final _ _ (H k)) as Hfin.
  destruct p; try discriminate Hp; injection Hp as ->; destruct o; advance_simpl; try done.
  all: unfold stage_ok_in in Hok; cbn [stage_ok] in Hok.
  - case_bool_decide; [done|]. destruct Hok as [Hf Hr]. eapply Hgo; [|reflexivity|..]; try done; wsimpl.
    + intros l ??. by apply lookup_insert_ne.
    + by rewrite lookup_insert_ne, Hf.
    + unfold stage_ok_in. wsimpl. cbn [stage_ok]. rewrite lookup_insert_ne by done. split; [done|].
      intros _. rewrite lookup_insert_eq, Hr by done. exists []. naive_solver lia.
  - case_match eqn:Hc; [done|]. apply orb_false_iff in Hc as [_ Hc%Z.ltb_ge].
    destruct Hok as [Hf Ht]. destruct (Ht eq_refl) as (c & R1 & R2 & R3 & R4). rewrite app_nil_r in *.
    rewrite R1. eapply Hgo; [|reflexivity|..]; try done; wsimpl.
    + intros k' Hn. by apply lookup_insert_ne.
    + by rewrite Hf.
    + unfold stage_ok_in. wsimpl. cbn [stage_ok]. split; [done|]. intros _. exists c.
      rewrite lookup_insert_eq. cbn [default from_option]. rewrite length_app, Nat2Z.inj_add. naive_solver lia.
  - eapply Hgo; [|reflexivity|..]; done.
  - destruct Hok as [Hf Ht]. destruct (Ht eq_refl) as (c & R1 & R2 & R3 & R4).
    rewrite R2. eapply Hgo; [|reflexivity|..]; try done; wsimpl.
    + intros l ??. by apply lookup_insert_ne.
    + by rewrite lookup_insert_ne, Hf.
    + unfold stage_ok_in. wsimpl. cbn [stage_ok]. rewrite lookup_insert_ne by done. split; [done|].
      intros _. exists (c ++ chunk). by rewrite lookup_insert_eq, app_nil_r.
  - destruct Hok as [Hf Ht]. destruct (Ht eq_refl) as (c & R1 & R2 & R3 & R4). rewrite app_nil_r in *.
    eapply Hgo; [|reflexivity|..]; try done. unfold stage_ok_in. wsimpl. cbn [stage_ok]. split; [done|]. exists c. naive_solver.
  - destruct Hok as (Hf & c & R1 & R2 & R3 & [R4|[? _]]); [|done]. rewrite R4.
    set (p' := Inserting g k _). set (w' := set_files _ w).
    assert (keys_ok (put t p' w')) as Hput.
    { subst p' w'. eapply Hgo; [|reflexivity|..]; try done; wsimpl.
      - intros l ??. rewrite lookup_insert_ne, lookup_delete_ne by done. done.
      - rewrite lookup_insert_eq. by intros ? [= <-].
      - unfold stage_ok_in. wsimpl. cbn [stage_ok]. rewrite lookup_insert_eq. exists c.
        unfold row_of. cbn [new_row mu_path mu_size mu_state]. rewrite <- R2. by split_and!; auto. }
    case_match; [|done].
    replace (refuse t p' TooLarge w') with (refuse t p' TooLarge (put t p' w')).
    + eapply keys_refuse; [done| |done]. wsimpl. apply lookup_insert_eq.
    + unfold refuse, answer, set_tasks, let_go, put. subst p' w'. wsimpl. by rewrite delete_insert_eq.
  - destruct (insert_row g k row (rows w)) as [[rows'|]|] eqn:Hins; [|done..].
    apply insert_row_some in Hins as ->. destruct Hok as (c & R1 & R2 & R3 & R4 & R5).
    destruct R4 as [R4|[? _]]; [|done].
    eapply (keys_leave t _ k w); [exact H|exact E| | |done|same_but_tac|off_key_tac|..]; try done.
    + eapply only_task; [done|exact E|by left].
    + intros k' Hk. eapply on_key_inj; [exact Hk|by left].
    + intros k' Hn. wsimpl. by apply lookup_insert_ne.
    + wsimpl. rewrite lookup_insert_eq. intros ? [= <-]. split; [done|]. exists c. split_and!; auto.
    + intros l D. left. eapply doomed_answer; [..|exact D]; done.
    + intros D. exfalso. eapply (proj1 (k_fin _ _ (H k) _)); [exact E|done].
      Unshelve. eapply doomed_answer; [..|exact D]; done.
Qed.

(** A holder's step that keeps the claim. *)
Lemma keys_hold t p k p' w w' :
  keys_ok w -> tasks w !! t = Some (MkTask true p) -> hold_key p = Some k -> hold_key p' = Some k ->
  tasks w' = <[t := MkTask true p']> (tasks w) -> rows w' = rows w -> files w' = files w ->
  received w' = received w -> used w' = used w -> cleanups w' = cleanups w -> cut w' = cut w ->
  (sent w' = sent w /\ p <> Completing k \/ sent w' = k :: sent w /\ p' = Completing k) ->
  hold_ok p' k (received w !! k) -> keys_ok w'.
Proof.
  intros H E Hp Hp' HT Hr Hf Hrec Hu Hc Hcut Hs Hok.
  destruct (k_task _ _ (H k) _ _ _ E (or_intror Hp)) as (A & _ & B). destruct (B Hp) as (B1 & B2 & _).
  eapply (keys_take t _ k p' w); [exact H|exact E| | |by right|exact HT|..]; rewrite ?Hr, ?Hrec, ?Hu; try done.
  - eapply only_task; [done|exact E|by right].
  - intros k' Hk. eapply on_key_inj; [exact Hk|by right].
  - intros k' Hn. destruct Hs as [[-> _]|[-> _]]; [done|]. rewrite elem_of_cons. naive_solver.
  - apply (k_final _ _ (H k)).
  - intros row Er. split; [intros _; by apply B1|]. by apply (k_row _ _ (H k)).
  - split; [by rewrite Hu|]. rewrite Hr, Hrec. split.
    + intros Hst. by destruct p'.
    + intros _. split_and!; try done. intros Hin. destruct Hs as [[Hs Hn]|[Hs ->]]; [|done].
      exfalso. apply Hn, B2. by rewrite <- Hs.
  - intros Hst. by destruct p'.
  - intros D. destruct (k_fin _ _ (H k) D) as [_ [|[? _]]]; auto.
Qed.

(** A holder's call is over, its row in some state, or going. *)
Lemma keys_release t p k a rows' w :
  keys_ok w -> tasks w !! t = Some (MkTask true p) -> hold_key p = Some k ->
  (rows' = rows w \/ exists row, rows w !! k = Some row /\ p <> Completing k /\
     rows' = <[k := with_state Staged row]> (rows w)) ->
  keys_ok (answer t a (set_rows rows' w)).
Proof.
  intros H E Hp Hr.
  destruct (k_task _ _ (H k) _ _ _ E (or_intror Hp)) as (A & _ & B). destruct (B Hp) as (B1 & B2 & _).
  assert (forall row, rows' !! k = Some row -> exists row0, rows w !! k = Some row0 /\
    (row = row0 \/ p <> Completing k /\ row = with_state Staged row0)) as Hrow.
  { intros row Er. destruct Hr as [->|(row0 & E0 & Hn & ->)]; [eauto|].
    rewrite lookup_insert_eq in Er. injection Er as <-. eauto. }
  eapply (keys_leave t _ k w); [exact H|exact E| | |done|same_but_tac|off_key_tac|..]; try done.
  - eapply only_task; [done|exact E|by right].
  - intros k' Hk. eapply on_key_inj; [exact Hk|by right].
  - intros k' Hn. wsimpl. destruct Hr as [->|(row0 & _ & _ & ->)]; [done|]. by apply lookup_insert_ne.
  - wsimpl. intros row Er. destruct (Hrow _ Er) as (row0 & E0 & [->|[Hn ->]]).
    + split; [intros _; by apply B1|]. by apply (k_row _ _ (H k)).
    + split; [intros Hin; by destruct Hn; apply B2|]. destruct (k_row _ _ (H k) _ E0) as (c & ? & ? & ?). by exists c.
  - intros l D. left. eapply doomed_answer; [..|exact D]; done.
  - intros D. wsimpl. eapply doomed_answer in D; [|done..].
    destruct (k_fin _ _ (H k) D) as [_ [|[Hn _]]]; [by left|right].
    apply eq_None_not_Some. intros [row Er]. destruct (Hrow _ Er) as (row0 & E0 & _). congruence.
Qed.

(** The last step of an upload: the row is gone and its file is next. *)
Lemma keys_remove t T k row a w :
  keys_ok w -> tasks w !! t = Some T -> only t k w -> (forall k', on_key k' (phase T) -> k' = k) ->
  rows w !! k = Some row -> keys_ok (unlink_all t [mu_path row] a (set_rows (delete k (rows w)) w)).
Proof.
  intros H E Ho HT Hr. destruct (k_row _ _ (H k) _ Hr) as (c & R1 & [R2 _] & R3).
  assert (k ∈ used w) as Hu.
  { destruct (decide (k ∈ used w)) as [|Hn]; [done|]. destruct (k_new _ _ (H k) Hn) as [? _]. congruence. }
  rewrite R2. eapply (keys_leave t _ k w); [exact H|exact E|done|done|done|same_but_tac|off_key_tac|..]; try done.
  - intros k' Hn. wsimpl. by apply lookup_delete_ne.
  - wsimpl. intros row'. by rewrite lookup_delete_eq.
  - intros l D. apply (doomed_same_but t w) in D as [|[|(b & paths & ans & Et & Hl)]]; [| | |same_but_tac].
    + by left.
    + left. by apply doomed_cleanup.
    + right; right. revert Et. wsimpl. rewrite lookup_insert_eq. intros [= <- <- <-]. set_solver.
  - intros _. right. wsimpl. apply lookup_delete_eq.
Qed.

Lemma row_in_some s k m row : row_in s k m = Some row <-> m !! k = Some row /\ mu_state row = s.
Proof. unfold row_in. destruct (m !! k); cbn; [case_bool_decide|]; naive_solver. Qed.

Lemma claim_some now k m m' row : claim_staged_media_upload now k m = Some (m', row) ->
  exists r, m !! k = Some r /\ mu_state r = Staged /\ now < mu_expires r /\
    m' = <[k := with_state Sending r]> m /\ row = with_state Sending r.
Proof.
  unfold claim_staged_media_upload. rewrite bind_Some. intros (r & E & Hc).
  apply row_in_some in E as [E Hs]. case_match eqn:Hn; [|done]. injection Hc as <- <-.
  apply Z.ltb_lt in Hn. by exists r.
Qed.

Lemma complete_some k m m' row : complete_sending_media_upload k m = Some (m', row) ->
  m' = delete k m /\ m !! k = Some row /\ mu_state row = Sending.
Proof.
  unfold complete_sending_media_upload. rewrite bind_Some. intros (r & E & [= <- <-]).
  by apply row_in_some in E as [].
Qed.

Lemma delete_some k m m' row : delete_staged_media_upload k m = Some (m', row) ->
  m' = delete k m /\ m !! k = Some row /\ mu_state row = Staged.
Proof.
  unfold delete_staged_media_upload. rewrite bind_Some. intros (r & E & [= <- <-]).
  by apply row_in_some in E as [].
Qed.

Lemma release_some k m m' row : release_sending_media_upload k m = Some (m', row) ->
  exists row0, m !! k = Some row0 /\ m' = <[k := with_state Staged row0]> m.
Proof.
  unfold release_sending_media_upload. rewrite bind_Some. intros (r & E & [= <- <-]).
  apply row_in_some in E as [E _]. eauto.
Qed.

Lemma keys_release_row t p k a w :
  keys_ok w -> tasks w !! t = Some (MkTask true p) -> hold_key p = Some k -> p <> Completing k ->
  keys_ok (answer t a (match release_sending_media_upload k (rows w) with
                       | Some (rows', _) => set_rows rows' w | None => w end)).
Proof.
  intros H E Hp Hn. destruct (release_sending_media_upload _ _) as [[rows' row]|] eqn:Er.
  - apply release_some in Er as (row0 & E0 & ->). eapply keys_release; eauto 6.
  - replace (answer t a w) with (answer t a (set_rows (rows w) w)) by by rewrite set_rows_id.
    eapply keys_release; eauto.
Qed.

(** The file of a claimed row is read in full: it is what the body brought. *)
Lemma read_bounded_ok k c row cap content bytes :
  0 <= cap -> row_of k c row -> (forall x, content = Some x -> x = c) ->
  read_bounded row cap content = inr bytes -> bytes = c.
Proof.
  intros H0 (_ & Hs & Hle) Hc. unfold read_bounded. destruct content as [x|]; [|done]. specialize (Hc _ eq_refl) as ->.
  rewrite length_take. destruct (cap <? _) eqn:E; [done|]. apply Z.ltb_ge in E.
  case_match; [done|]. intros [= <-]. apply firstn_all2. lia.
Qed.

Lemma cap_of_nonneg v : 0 <= cap_of max_upload_bytes v.
Proof. by destruct v. Qed.

(** The holder of a claim, moved on. *)
Lemma keys_holding t p k o w :
  keys_ok w -> tasks w !! t = Some (MkTask true p) -> hold_key p = Some k ->
  keys_ok (advance max_upload_bytes ttl t p o w).
Proof.
  intros H E Hp. destruct (k_task _ _ (H k) _ _ _ E (or_intror Hp)) as (A & _ & B).
  destruct (B Hp) as (B1 & B2 & Hok).
  assert (forall a, keys_ok (answer t a w)) as Hans.
  { intros a. replace (answer t a w) with (answer t a (set_rows (rows w) w)) by by rewrite set_rows_id.
    eapply keys_release; eauto. }
  assert (forall p' w', hold_key p' = Some k ->
    tasks w' = <[t := MkTask true p']> (tasks w) -> rows w' = rows w -> files w' = files w ->
    received w' = received w -> used w' = used w -> cleanups w' = cleanups w -> cut w' = cut w ->
    (sent w' = sent w /\ p <> Completing k \/ sent w' = k :: sent w /\ p' = Completing k) ->
    hold_ok p' k (received w !! k) -> keys_ok w') as Hgo by (intros; by eapply keys_hold).
  destruct p; try discriminate Hp; injection Hp as ->; destruct o; advance_simpl; try done;
    try (by eapply keys_release_row);
    try (apply keys_let_go; [done|first [by apply Hans|by eapply keys_release_row]]); cbn [hold_ok] in Hok.
  - destruct (read_bounded row _ _) as [e|bytes] eqn:Er.
    + eapply Hgo; [|reflexivity|..]; try done. by left.
    + destruct Hok as (c & R1 & R2). assert (bytes = c) as ->.
      { eapply read_bounded_ok; [apply (cap_of_nonneg v)|exact R2| |exact Er]. destruct R2 as [-> _]. intros x Ex.
        apply (k_final _ _ (H k)) in Ex. congruence. }
      destruct R2 as (_ & R3 & R4). rewrite R3 in R4.
      destruct v; (eapply Hgo; [|reflexivity|..]; try done; by left).
  - eapply Hgo; [|reflexivity|..]; try done. by left.
  - repeat case_match; (eapply Hgo; [|reflexivity|..]; try done; by left).
  - eapply Hgo; [|reflexivity|..]; try done. by left.
  - eapply Hgo; [|reflexivity|..]; try done. by left.
  - eapply Hgo; [|reflexivity|..]; try done. by right.
  - eapply Hgo; [|reflexivity|..]; try done. by left.
  - destruct (complete_sending_media_upload k (rows w)) as [[rows' row]|] eqn:Er; [|done].
    apply complete_some in Er as (-> & Er & _). eapply keys_remove; [done|exact E| | |done].
    + eapply only_task; [done|exact E|by right].
    + intros k' Hk. eapply on_key_inj; [exact Hk|by right].
Qed.

(** A claim takes up a staged row. *)
Lemma keys_claiming t v k o w :
  keys_ok w -> tasks w !! t = Some (MkTask true (Claiming v k)) ->
  keys_ok (advance max_upload_bytes ttl t (Claiming v k) o w).
Proof.
  intros H E. assert (forall e, keys_ok (refuse t (Claiming v k) e w)) as Href.
  { intros e. by eapply keys_refuse_claim; [..|intros ? [|]]. }
  destruct o; advance_simpl; try done.
  destruct (claim_staged_media_upload (clock w) k (rows w)) as [[rows' row]|] eqn:Ec; [|done].
  apply claim_some in Ec as (r & Er & Hs & _ & -> & ->).
  pose proof (only_staged _ t _ _ (H k) Er Hs) as Ho.
  destruct (k_row _ _ (H k) _ Er) as (c & R1 & R2 & R3).
  assert (k ∈ used w) as Hu.
  { destruct (decide (k ∈ used w)) as [|Hn]; [done|]. destruct (k_new _ _ (H k) Hn) as [? _]. congruence. }
  assert (k ∉ sent w) as Hns.
  { intros Hin. rewrite (k_sent _ _ (H k) Hin _ Er) in Hs. done. }
  assert (forall p', hold_key p' = Some k -> (k ∈ sent w -> p' = Completing k) -> hold_ok p' k (received w !! k) ->
    keys_ok (put t p' (set_rows (<[k := with_state Sending r]> (rows w)) w))) as Hgo.
  { intros p' Hp' Hc' Hok.
    eapply (keys_take t _ k p' w); [exact H|exact E|done|by intros ? [|]|by right|..]; try done.
    - intros k' Hn. wsimpl. rewrite lookup_insert_ne by done. done.
    - apply (k_final _ _ (H k)).
    - wsimpl. rewrite lookup_insert_eq. intros ? [= <-]. split; [done|]. by exists c.
    - split; [done|]. split; [intros Hst; by destruct p'|]. intros _. wsimpl. split_and!; try done.
      rewrite lookup_insert_eq. by intros ? [= <-].
    - intros Hst. by destruct p'.
    - intros D. destruct (k_fin _ _ (H k) D) as [_ [|[? _]]]; [by left|congruence]. }
  cbn [with_state mu_size]. case_match; apply Hgo; try done. exists c. split; [done|]. exact R2.
Qed.

(** A call not yet on an upload goes on. *)
Lemma keys_early t p p' w w' :
  keys_ok w -> tasks w !! t = Some (MkTask true p) -> (forall k, ~ on_key k p) -> (forall k, ~ on_key k p') ->
  (forall paths a, p' <> Unlinking paths a) ->
  tasks w' = <[t := MkTask true p']> (tasks w) ->
  rows w' = rows w -> files w' = files w -> received w' = received w -> used w' = used w ->
  cleanups w' = cleanups w -> cut w' = cut w -> sent w' = sent w -> keys_ok w'.
Proof.
  intros H E Hp Hp' Hun HT Hr Hf Hc Hu Hcl Hcut Hs.
  assert (same_but t w w') as Hsb by (intros t' Hn; rewrite HT; by apply lookup_insert_ne).
  eapply (keys_idle t w w'); try done.
  - intros T' k E'. rewrite E in E'. injection E' as <-. apply Hp.
  - intros T' k E'. rewrite HT, lookup_insert_eq in E'. injection E' as <-. apply Hp'.
  - intros l D. apply (doomed_step t w) in D; [|done|].
    + destruct D as [|D]; [done|]. left. by rewrite <- Hcl.
    + rewrite HT, lookup_insert_eq. intros T [= <-]. cbn. destruct p'; try done. by destruct (Hun paths a).
Qed.

(** Uploads that are not yet named: the account, then the name. *)
Lemma keys_account t r g o w :
  keys_ok w -> tasks w !! t = Some (MkTask true (Account r g)) ->
  keys_ok (advance max_upload_bytes ttl t (Account r g) o w).
Proof.
  intros H E.
  assert (forall e, keys_ok (refuse t (Account r g) e w)) as Href.
  { intros e. unfold refuse. wsimpl.
    eapply (keys_over t _ _ (set_permits (S (permits w)) w)); [|exact E|by intros ? [|]].
    intros k. by apply (kinv_frame k w). }
  destruct o as [| |[[]|] fresh| | |]; advance_simpl; try done.
  set (k := (su_account r, fresh)). case_bool_decide as Hu; [done|].
  destruct (k_new _ _ (H k) Hu) as (N1 & N2 & N3 & N4 & N5 & N6 & N7).
  eapply (keys_take t _ k (Opening r g k) w); [exact H|exact E|by apply only_new|by intros ? [|]|by left|..];
    wsimpl; try done.
  - set_solver.
  - intros k' Hn. rewrite lookup_insert_ne by done. set_solver.
  - by rewrite N2.
  - by rewrite N1.
  - split; [wsimpl; set_solver|]. split; [|done]. intros _. unfold stage_ok_in. wsimpl. cbn [stage_ok].
    rewrite lookup_insert_eq. by split_and!.
Qed.

(** Rows go, whoever is on them; the files of some are next. *)
Lemma keys_shrink w w' :
  keys_ok w -> rows w' ⊆ rows w -> files w' = files w -> received w' = received w -> used w' = used w ->
  cut w' = cut w -> sent w' = sent w ->
  (forall k t T, on_key k (phase T) -> tasks w' !! t = Some T -> tasks w !! t = Some T) ->
  (forall l, doomed l w' -> doomed l w \/
     exists k row, l = Final k /\ rows w !! k = Some row /\ rows w' !! k = None) -> keys_ok w'.
Proof.
  intros H Hsub Hf Hc Hu Hcut Hs HT Hd k.
  assert (forall row, rows w' !! k = Some row -> rows w !! k = Some row) as Hr by (intros; by eapply lookup_weaken).
  assert (rows w !! k = None -> rows w' !! k = None) as Hr' by (intros; by eapply lookup_weaken_None).
  destruct (H k) as [N1 N2 N3 N4 N5 N6 N7 N8].
  split; rewrite ?Hf, ?Hc, ?Hu, ?Hcut, ?Hs; try done.
  - intros Hn. destruct (N1 Hn) as (A1 & A2 & A3 & A4 & A5 & A6 & A7). split_and!; auto.
    + intros D. apply Hd in D as [|(k' & row & [= ] & _)]; auto.
    + intros D. apply Hd in D as [|(k' & row & [= <-] & E & _)]; [auto|congruence].
  - intros t1 t2 T1 T2 E1 E2 O1 O2. apply (HT k) in E1, E2; [|done..]. eauto.
  - intros t live p E Hk. destruct (N3 t live p) as (A1 & A2 & A3); [by apply (HT k)|done|].
    split; [by rewrite Hu|]. unfold stage_ok_in in *. rewrite Hf, Hc, Hcut, Hs. split.
    + intros Hp. destruct (A2 Hp) as (? & ? & ? & ?). auto.
    + intros Hp. destruct (A3 Hp) as (? & ? & ?). auto.
  - intros row E. apply N5. by apply Hr.
  - intros D t p E Hp. apply Hd in D as [D|(k' & row & [= ] & _)].
    eapply N6; [done|apply (HT k); [by left|done]|done].
  - intros D. apply Hd in D as [D|(k' & row & [= <-] & E & E')].
    + destruct (N7 D) as [A B]. split.
      * intros t p Et Hp. eapply A; [apply (HT k); [by left|done]|done].
      * destruct B as [|[B1 B2]]; [by left|right]. split; [auto|].
        intros t T Et Hp. eapply B2; [apply (HT k); [by left|done]|done].
    + assert (forall t T, tasks w' !! t = Some T -> stage_key (phase T) <> Some k) as Hno.
      { intros t [live p] Et Hp. destruct (N3 t live p) as (_ & A & _); [apply (HT k); [by left|done]|by left|].
        destruct (A Hp). congruence. }
      split; [intros t p Et Hp; by eapply (Hno t (MkTask true p))|]. right. auto.
  - intros Hin row E. eapply N8; [done|by apply Hr].
Qed.

(** A dropped staging does not mind its files going. *)
Lemma stage_dead p k rcv tmp fin b tmp' fin' :
  stage_ok false p k rcv tmp fin b -> tmp' = tmp \/ tmp' = None -> fin' = fin \/ fin' = None ->
  stage_ok false p k rcv tmp' fin' b.
Proof. intros Hok [-> | ->] [-> | ->]; destruct p; cbn [stage_ok] in *; naive_solver. Qed.

(** A removal that was decided on happens. *)
Lemma keys_unlink l w w' :
  keys_ok w -> doomed l w -> rows w' = rows w -> files w' = delete l (files w) -> received w' = received w ->
  used w' = used w -> cut w' = cut w -> sent w' = sent w ->
  (forall k t T, on_key k (phase T) -> tasks w' !! t = Some T -> tasks w !! t = Some T) ->
  (forall l', doomed l' w' -> doomed l' w) -> keys_ok w'.
Proof.
  intros H Dl Hr Hf Hc Hu Hcut Hs HT Hd k.
  assert (forall l' x, files w' !! l' = Some x -> files w !! l' = Some x) as Hf1.
  { intros l' x. rewrite Hf, lookup_delete_Some. naive_solver. }
  assert (forall l', files w !! l' = None -> files w' !! l' = None) as Hf2.
  { intros l' E. rewrite Hf. by apply lookup_delete_None; right. }
  assert (forall l', l' <> l -> files w' !! l' = files w !! l') as Hf3.
  { intros l' Hn. rewrite Hf. by apply lookup_delete_ne. }
  destruct (H k) as [N1 N2 N3 N4 N5 N6 N7 N8].
  split; rewrite ?Hr, ?Hc, ?Hu, ?Hcut, ?Hs; try done.
  - intros Hn. destruct (N1 Hn) as (A1 & A2 & A3 & A4 & A5 & A6 & A7). split_and!; auto.
  - intros t1 t2 T1 T2 E1 E2 O1 O2. apply (HT k) in E1, E2; [|done..]. eauto.
  - intros t live p E Hk. apply (HT k) in E; [|done]. destruct (N3 t live p E Hk) as (A1 & A2 & A3).
    split; [by rewrite Hu|]. unfold stage_ok_in in *. rewrite Hr, Hc, Hcut, Hs. split; [|done].
    intros Hp. destruct (A2 Hp) as (B1 & B2 & B3 & B4). split_and!; try done.
    destruct live.
    + assert (l <> Tmp k) as Hl1 by (intros ->; by eapply N6).
      assert (l <> Final k) as Hl2 by (intros ->; by eapply (proj1 (N7 Dl))).
      by rewrite !Hf3 by done.
    + assert (forall l', files w' !! l' = files w !! l' \/ files w' !! l' = None) as Hf4.
      { intros l'. destruct (decide (l' = l)) as [->|Hn]; [right|left; by apply Hf3].
        rewrite Hf. apply lookup_delete_eq. }
      by eapply stage_dead.
  - intros c E. by apply N4, Hf1.
  - intros row E. destruct (N5 _ E) as (c & ? & ? & [?|?]); [|eauto]. exists c. split_and!; try done.
    destruct (decide (l = Final k)) as [->|Hn]; [|left; by rewrite Hf3].
    right. destruct (N7 Dl) as [_ [|[? _]]]; [done|congruence].
  - intros D t p E Hp. apply Hd in D. eapply N6; [done|apply (HT k); [by left|done]|done].
  - intros D. apply Hd in D. destruct (N7 D) as [A B]. split.
    + intros t p Et Hp. eapply A; [apply (HT k); [by left|done]|done].
    + destruct B as [|[B1 B2]]; [by left|right]. split; [auto|].
      intros t T Et Hp. eapply B2; [apply (HT k); [by left|done]|done].
Qed.

Lemma keys_deleting t k o w :
  keys_ok w -> tasks w !! t = Some (MkTask true (Deleting k)) ->
  keys_ok (advance max_upload_bytes ttl t (Deleting k) o w).
Proof.
  intros H E. destruct o; advance_simpl; try done; [|by eapply keys_over; [..|intros ? [|]]].
  destruct (delete_staged_media_upload k (rows w)) as [[rows' row]|] eqn:Er;
    [|by eapply keys_over; [..|intros ? [|]]].
  apply delete_some in Er as (-> & Er & Hs). eapply keys_remove; [done|exact E| |by intros ? [|]|done].
  by eapply only_staged.
Qed.

(** What a list of removals dooms. *)
Lemma doomed_unlink_all t paths a w w' l :
  tasks w' = tasks w -> cleanups w' = cleanups w -> doomed l (unlink_all t paths a w') -> doomed l w \/ l ∈ paths.
Proof.
  intros Ht Hc D. destruct paths as [|l' paths]; [left; by eapply doomed_answer|].
  apply (doomed_same_but t w) in D as [|[D|(b & ps & ans & Et & Hl)]].
  - by left.
  - left. left. revert D. wsimpl. by rewrite Hc.
  - right. revert Et. wsimpl. rewrite lookup_insert_eq. by intros [= <- <- <-].
  - intros t' Hn. wsimpl. by rewrite Ht, lookup_insert_ne.
Qed.

(** A step by a call on no upload leaves who is on what. *)
Lemma on_key_same t T w w' k t' T' :
  same_but t w w' -> tasks w !! t = Some T -> (forall k, ~ on_key k (phase T)) ->
  (forall T, tasks w' !! t = Some T -> forall k, ~ on_key k (phase T)) ->
  on_key k (phase T') -> tasks w' !! t' = Some T' -> tasks w !! t' = Some T'.
Proof.
  intros Hs E HT HT' Hk. destruct (decide (t' = t)) as [->|Hn]; [|by rewrite Hs].
  intros E'. by destruct (HT' _ E' k).
Qed.

Lemma unlink_all_off t paths a w T : tasks (unlink_all t paths a w) !! t = Some T -> forall k, ~ on_key k (phase T).
Proof.
  destruct paths; wsimpl; rewrite ?lookup_delete_eq, ?lookup_insert_eq; [done|]. by intros [= <-] k [|].
Qed.

Lemma unlink_all_same t paths a w w' : tasks w' = tasks w -> same_but t w (unlink_all t paths a w').
Proof. intros HT t' Hn. destruct paths; wsimpl; by rewrite HT, ?lookup_insert_ne, ?lookup_delete_ne. Qed.

Lemma sweep_row now m k row :
  (delete_expired_media_uploads now m).1 !! k = Some row <-> m !! k = Some row /\ expired now row = false.
Proof. apply map_lookup_filter_Some. Qed.

Lemma sweep_gone now m l :
  l ∈ mu_path <$> (delete_expired_media_uploads now m).2 ->
  exists k row, m !! k = Some row /\ l = mu_path row /\ expired now row = true.
Proof.
  cbn [delete_expired_media_uploads snd]. intros (row & -> & Hin)%list_elem_of_fmap.
  apply list_elem_of_fmap in Hin as ([k row'] & -> & Hin). apply elem_of_map_to_list, map_lookup_filter_Some in Hin as [].
  by exists k, row'.
Qed.

Lemma keys_sweeping t o w :
  keys_ok w -> tasks w !! t = Some (MkTask true Sweeping) ->
  keys_ok (advance max_upload_bytes ttl t Sweeping o w).
Proof.
  intros H E. destruct o; advance_simpl; try done; [|by eapply keys_over; [..|intros ? [|]]].
  destruct (delete_expired_media_uploads _ _) as [rows' gone] eqn:Es.
  assert (rows' = (delete_expired_media_uploads (clock w) (rows w)).1) as Hr by by rewrite Es.
  assert (gone = (delete_expired_media_uploads (clock w) (rows w)).2) as Hg by by rewrite Es.
  assert (rows (unlink_all t (mu_path <$> gone) Done (set_rows rows' w)) = rows') as Hrow by by destruct (_ <$> _).
  eapply (keys_shrink w); try done; try (by destruct (_ <$> _)).
  - rewrite Hrow. apply map_subseteq_spec. intros k row. rewrite Hr, sweep_row. by intros [].
  - intros k t' T' Hk. eapply on_key_same; [by apply unlink_all_same|exact E|by intros ? [|]|by apply unlink_all_off|done].
  - intros l D. apply (doomed_unlink_all _ _ _ w) in D as [|D]; [by left| |done..]. right.
    rewrite Hg in D. apply sweep_gone in D as (k & row & Ek & -> & Hx). exists k, row. split_and!; try done.
    + by destruct (k_row _ _ (H k) _ Ek) as (? & _ & [? _] & _).
    + rewrite Hrow, Hr. apply eq_None_not_Some. intros [row' [E' Hx']%sweep_row]. congruence.
Qed.

Lemma keys_unlinking t paths a o w :
  keys_ok w -> tasks w !! t = Some (MkTask true (Unlinking paths a)) ->
  keys_ok (advance max_upload_bytes ttl t (Unlinking paths a) o w).
Proof.
  intros H E.
  assert (forall l, l ∈ paths -> doomed l w) as Hd by (intros l Hl; right; by eexists _, _, _, _).
  destruct paths as [|l paths]; destruct o; advance_simpl; try done.
  - assert (forall l', doomed l' (unlink_all t paths a (set_files (delete l (files w)) w)) -> doomed l' w) as Hd'.
    { intros l' D. apply (doomed_unlink_all _ _ _ w) in D as [|D]; [done| |done..]. apply Hd. by right. }
    apply (keys_unlink l w); try done; try (by destruct paths).
    + apply Hd. by left.
    + intros k t' T' Hk. eapply on_key_same; [by apply unlink_all_same|exact E|by intros ? [|]|by apply unlink_all_off|done].
  - eapply (keys_shrink w); try done; try (by destruct paths).
    + intros k t' T' Hk. eapply on_key_same; [by apply unlink_all_same|exact E|by intros ? [|]|by apply unlink_all_off|done].
    + intros l' D. left. apply (doomed_unlink_all _ _ _ w) in D as [|D]; [done| |done..]. apply Hd. by right.
Qed.

Lemma keys_advance t p o w :
  keys_ok w -> tasks w !! t = Some (MkTask true p) -> keys_ok (advance max_upload_bytes ttl t p o w).
Proof.
  intros H E. destruct p; try (by eapply keys_staging); try (by eapply keys_holding).
  - destruct o; advance_simpl; try done. case_match; [done|].
    apply (keys_early t (Permit r g) (Account r g) w); try done; by intros ? [|].
  - destruct o; advance_simpl; try done; [|by eapply keys_over; [..|intros ? [|]]]. case_match; [done|].
    apply (keys_early t (PreviewPermit k) (Claiming true k) w); try done; by intros ? [|].
  - by apply keys_account.
  - by apply keys_claiming.
  - by apply keys_deleting.
  - by apply keys_sweeping.
  - by apply keys_unlinking.
Qed.

(** ** Dropped calls *)

Lemma stage_dropped p k rcv tmp fin b b' :
  stage_ok true p k rcv tmp fin b -> (forall g row, p = Inserting g k row -> b' = true) -> stage_key p = Some k ->
  stage_ok false p k rcv tmp fin b'.
Proof. intros Hok Hb Hp. destruct p; cbn [stage_ok stage_key] in *; naive_solver. Qed.

(** What a call leaves when it is dropped, where it is on an upload. *)
Lemma keys_drop_on t p k w w' :
  keys_ok w -> tasks w !! t = Some (MkTask true p) -> on_key k p ->
  tasks w' = <[t := MkTask false p]> (tasks w) -> rows w' = rows w -> files w' = files w ->
  received w' = received w -> used w' = used w -> sent w' = sent w ->
  (forall k', k' <> k -> k' ∈ cut w' <-> k' ∈ cut w) -> (k ∈ cut w -> k ∈ cut w') ->
  (forall g row, p = Inserting g k row -> k ∈ cut w') ->
  (forall l, l ∈ cleanups w' -> l ∈ cleanups w \/ guard_of p = Some l) -> keys_ok w'.
Proof.
  intros H E Hk HT Hr Hf Hc Hu Hs Hcut Hcut1 Hcut2 Hcl k'.
  assert (same_but t w w') as Hsb by (intros t' Hn; rewrite HT; by apply lookup_insert_ne).
  assert (tasks w' !! t = Some (MkTask false p)) as E' by (rewrite HT; apply lookup_insert_eq).
  assert (forall l, doomed l w' -> doomed l w \/ guard_of p = Some l) as Hd.
  { intros l D. apply (doomed_step t w) in D; [|done|].
    - destruct D as [|D]; [by left|]. apply Hcl in D as [|]; [by left; apply doomed_cleanup|by right].
    - rewrite E'. intros T [= <-]. cbn. destruct p; try done. by destruct Hk. }
  destruct (k_task _ _ (H k) _ _ _ E Hk) as (A & B & C).
  destruct (decide (k' = k)) as [->|Hn].
  - apply (kinv_own k t w w'); try done; rewrite ?Hr, ?Hf, ?Hc, ?Hu, ?Hs; try done.
    + by eapply only_task.
    + intros live q Eq _. rewrite E' in Eq. injection Eq as <- <-. split; [by rewrite Hu|].
      rewrite Hr, Hs, Hc. split; [|done]. intros Hp. destruct (B Hp) as (B1 & B2 & B3 & B4).
      split_and!; try done. unfold stage_ok_in in *. rewrite Hf, Hc.
      eapply stage_dropped; [done| |done]. intros g row Ep. apply bool_decide_eq_true. by eapply Hcut2.
    + apply (k_final _ _ (H k)).
    + intros row Er. destruct (k_row _ _ (H k) _ Er) as (c & ? & ? & [|]); eauto 6.
    + intros _ q Eq. rewrite E' in Eq. done.
    + intros D. split; [intros q Eq; rewrite E' in Eq; done|].
      apply Hd in D as [D|Hg].
      * destruct (k_fin _ _ (H k) D) as [D1 [|[D2 D3]]]; [auto|right]. split; [done|]. intros T ET.
        rewrite E' in ET. injection ET as <-. by apply (D3 _ _ E).
      * left. destruct p; try discriminate Hg. injection Hg as ->. by eapply Hcut2.
    + apply (k_sent _ _ (H k)).
  - apply (kinv_other k' t w w'); try done; rewrite ?Hr, ?Hf, ?Hc, ?Hu, ?Hs; try done; [..|by apply Hcut|].
    + intros T ET Hk'. rewrite E in ET. injection ET as <-. apply Hn. by eapply on_key_inj.
    + intros T ET Hk'. rewrite E' in ET. injection ET as <-. apply Hn. by eapply on_key_inj.
    + intros l Hl D. apply Hd in D as [|Hg]; [done|]. destruct Hk as [Hk|Hk]; destruct p; naive_solver.
Qed.

Lemma keys_drop t w : keys_ok w -> keys_ok (step max_upload_bytes ttl max_concurrent_uploads (Drop t) w).
Proof.
  intros H. cbn [step]. destruct (tasks w !! t) as [[[] p]|] eqn:E; try done.
  assert (forall k, on_key k p ->
    keys_ok (let w := let_go p (set_tasks (<[t := MkTask false p]> (tasks w)) w) in
      match p with Inserting _ k _ => set_ghosts (used w) (received w) ({[k]} ∪ cut w) (sent w) w | _ => w end)) as Hon.
  { intros k Hk. destruct p; try destruct v; cbn zeta; unfold let_go; wsimpl; try (by destruct Hk);
      (destruct Hk as [[= ->]|[= ->]]; eapply (keys_drop_on t _ k); [exact H|exact E|by constructor|..];
       wsimpl; try done; first [set_solver | intros l; rewrite ?elem_of_cons; naive_solver]). }
  destruct (stage_key p) as [k|] eqn:Hs; [by apply (Hon k); left|].
  destruct (hold_key p) as [k|] eqn:Hh; [by apply (Hon k); right|]. clear Hon.
  assert (forall k, ~ on_key k p) as Ho by (intros k [|]; congruence).
  eapply (keys_idle t w); try done; try (by destruct p; try destruct v).
  - intros t' Hn. destruct p; try destruct v; try done; wsimpl; by rewrite lookup_insert_ne.
  - intros T k ET. rewrite E in ET. injection ET as <-. apply Ho.
  - intros T k. destruct p; try destruct v; try done; wsimpl; rewrite lookup_insert_eq; intros [= <-]; apply Ho.
  - intros l [Hl|(t' & a & paths & ans & Et & Hl)].
    + left. by destruct p; try destruct v.
    + right. assert (tasks w !! t' = Some (MkTask a (Unlinking paths ans)) \/
        t' = t /\ p = Unlinking paths ans) as [|[-> ->]].
      { destruct (decide (t' = t)) as [->|Hn]; [right|left].
        - destruct p; try destruct v; try done; revert Et; wsimpl; rewrite lookup_insert_eq; intros [= ]; naive_solver.
        - destruct p; try destruct v; try done; revert Et; wsimpl; by rewrite lookup_insert_ne. }
      * eauto 6.
      * eauto 6.
Qed.

(** The last file operation of a dropped staging. *)
Lemma keys_late_file t p k x w :
  keys_ok w -> tasks w !! t = Some (MkTask false p) -> stage_key p = Some k ->
  (forall l, l <> Tmp k -> l <> Final k -> x !! l = files w !! l) ->
  (forall c, x !! Final k = Some c -> received w !! k = Some c) ->
  keys_ok (set_files x (set_tasks (delete t (tasks w)) w)).
Proof.
  intros H E Hp Hx Hfin k'. destruct (k_task _ _ (H k) _ _ _ E (or_introl Hp)) as (A & B & _).
  destruct (B Hp) as (B1 & B2 & _).
  assert (same_but t w (set_files x (set_tasks (delete t (tasks w)) w))) as Hsb by same_but_tac.
  destruct (decide (k' = k)) as [->|Hn].
  - apply (kinv_own k t w); try done; wsimpl; rewrite ?lookup_delete_eq, ?B1; try done.
    + eapply only_task; [done|exact E|by left].
    + intros _. split; [done|right]. by split.
  - apply (kinv_other k' t w); try done; wsimpl.
    + intros T ET Hk. rewrite E in ET. injection ET as <-. apply Hn. by eapply on_key_inj; [|left].
    + by rewrite lookup_delete_eq.
    + apply Hx; congruence.
    + apply Hx; congruence.
    + intros l _ D. apply (doomed_step t w) in D as [|]; [done|by apply doomed_cleanup|done|].
      wsimpl. by rewrite lookup_delete_eq.
Qed.

(** The last row operation of a dropped call that is, or comes to be, on [k]. *)
Lemma keys_late_row t T k m' w :
  keys_ok w -> tasks w !! t = Some T -> only t k w -> (forall k', on_key k' (phase T) -> k' = k) ->
  k ∈ used w -> (forall k', k' <> k -> m' !! k' = rows w !! k') ->
  (forall row, m' !! k = Some row -> (k ∈ sent w -> mu_state row = Sending) /\
     exists c, received w !! k = Some c /\ row_of k c row /\ (files w !! Final k = Some c \/ k ∈ cut w)) ->
  (rows w !! k = None -> m' !! k = None \/ k ∈ cut w) ->
  keys_ok (set_rows m' (set_tasks (delete t (tasks w)) w)).
Proof.
  intros H E Ho HT Hu Hm Hrow Hnone.
  assert (forall l, doomed l (set_rows m' (set_tasks (delete t (tasks w)) w)) -> doomed l w) as Hd.
  { intros l D. apply (doomed_step t w) in D as [|]; [done|by apply doomed_cleanup|same_but_tac|].
    wsimpl. by rewrite lookup_delete_eq. }
  eapply (keys_leave t T k w); try done; [same_but_tac|off_key_tac|..].
  - intros l D. left. by apply Hd.
  - intros D. wsimpl. destruct (k_fin _ _ (H k) (Hd _ D)) as [_ [|[Hn _]]]; [by left|].
    destruct (Hnone Hn); auto.
Qed.

Lemma used_row k w row : kinv k w -> rows w !! k = Some row -> k ∈ used w.
Proof.
  intros H Er. destruct (decide (k ∈ used w)) as [|Hn]; [done|]. destruct (k_new _ _ H Hn) as [? _]. congruence.
Qed.

(** ... that has its row gone. *)
Lemma keys_late_delete t T k w row :
  keys_ok w -> tasks w !! t = Some T -> only t k w -> (forall k', on_key k' (phase T) -> k' = k) ->
  rows w !! k = Some row -> keys_ok (set_rows (delete k (rows w)) (set_tasks (delete t (tasks w)) w)).
Proof.
  intros H E Ho HT Er. eapply keys_late_row; try done.
  - by eapply used_row.
  - intros k' Hn. by apply lookup_delete_ne.
  - intros row'. by rewrite lookup_delete_eq.
  - intros _. left. apply lookup_delete_eq.
Qed.

(** ... that puts its row in another state. *)
Lemma keys_late_state t T k s w row :
  keys_ok w -> tasks w !! t = Some T -> only t k w -> (forall k', on_key k' (phase T) -> k' = k) ->
  rows w !! k = Some row -> (k ∈ sent w -> s = Sending) ->
  keys_ok (set_rows (<[k := with_state s row]> (rows w)) (set_tasks (delete t (tasks w)) w)).
Proof.
  intros H E Ho HT Er Hs. eapply keys_late_row; try done.
  - by eapply used_row.
  - intros k' Hn. by apply lookup_insert_ne.
  - intros row'. rewrite lookup_insert_eq. intros [= <-]. split; [done|].
    destruct (k_row _ _ (H k) _ Er) as (c & ? & ? & ?). by exists c.
  - intros ?. congruence.
Qed.

(** A dropped call is forgotten. *)
Lemma keys_forget t T w : keys_ok w -> tasks w !! t = Some T -> keys_ok (set_tasks (delete t (tasks w)) w).
Proof.
  intros H E. apply (keys_shrink w); try done.
  - intros k t' T' _. wsimpl. rewrite lookup_delete_Some. by intros [].
  - intros l D. left. apply (doomed_step t w) in D as [|]; [done|by apply doomed_cleanup|same_but_tac|].
    wsimpl. by rewrite lookup_delete_eq.
Qed.

(** What a dropped call may still do: the staging ones, *)
Lemma keys_late_staging t p k w :
  keys_ok w -> tasks w !! t = Some (MkTask false p) -> stage_key p = Some k ->
  keys_ok (aftermath p (set_tasks (delete t (tasks w)) w)).
Proof.
  intros H E Hp. pose proof (keys_forget _ _ _ H E) as Hforget.
  destruct (k_task _ _ (H k) _ _ _ E (or_introl Hp)) as (A & B & _). destruct (B Hp) as (B1 & B2 & _ & Hok).
  assert (forall x, (forall l, l <> Tmp k -> l <> Final k -> x !! l = files w !! l) ->
    (forall c, x !! Final k = Some c -> received w !! k = Some c) ->
    keys_ok (set_files x (set_tasks (delete t (tasks w)) w))) as Hgo by (intros; by eapply keys_late_file).
  assert (forall c l, l <> Tmp k -> l <> Final k -> <[Tmp k := c]> (files w) !! l = files w !! l) as Htmp
    by (intros; by apply lookup_insert_ne).
  assert (forall c x, <[Tmp k := x]> (files w) !! Final k = Some c -> received w !! k = Some c) as Hfin.
  { intros c x. rewrite lookup_insert_ne by done. apply (k_final _ _ (H k)). }
  unfold stage_ok_in in Hok.
  destruct p; try discriminate Hp; injection Hp as ->; cbn [aftermath stage_ok] in *; wsimpl; try done.
  - case_match; [done|]. apply Hgo; eauto.
  - case_match; [|done]. apply Hgo; eauto.
  - destruct Hok as (Hf & c & R1 & R2 & R3 & [R4|[_ R4]]); rewrite R4; [|done]. apply Hgo.
    + intros l ??. by rewrite lookup_insert_ne, lookup_delete_ne.
    + intros c'. rewrite lookup_insert_eq. by intros [= <-].
  - destruct (insert_row g k row (rows w)) as [[rows'|]|] eqn:Hins; [|done..].
    apply insert_row_some in Hins as ->. destruct Hok as (c & R1 & R2 & R3 & R4 & R5).
    specialize (R5 eq_refl). apply bool_decide_eq_true in R5.
    eapply keys_late_row; [done|exact E| | |done|..].
    + eapply only_task; [done|exact E|by left].
    + intros k' Hk. eapply on_key_inj; [exact Hk|by left].
    + intros k' Hn. by apply lookup_insert_ne.
    + intros row'. rewrite lookup_insert_eq. intros [= <-]. split; [done|]. exists c. auto.
    + by right.
Qed.

(** a success of the mutation that nobody sees, *)
Lemma keys_late_sent t k bytes w :
  keys_ok w -> tasks w !! t = Some (MkTask false (Mutating k bytes)) ->
  keys_ok (aftermath (Mutating k bytes) (set_tasks (delete t (tasks w)) w)).
Proof.
  intros H E k'. cbn [aftermath]. wsimpl. destruct (k_task _ _ (H k) _ _ _ E) as (A & _ & B); [by right|].
  destruct (B eq_refl) as (B1 & B2 & _).
  set (w' := set_ghosts _ _ _ _ _).
  assert (same_but t w w') as Hsb by (subst w'; same_but_tac).
  assert (forall l, doomed l w' -> doomed l w) as Hd.
  { intros l D. apply (doomed_step t w) in D as [|]; [done|by apply doomed_cleanup|done|].
    subst w'. wsimpl. by rewrite lookup_delete_eq. }
  destruct (decide (k' = k)) as [->|Hn].
  - apply (kinv_own k t w); try done; subst w'; wsimpl; rewrite ?lookup_delete_eq; try done.
    + eapply only_task; [done|exact E|by right].
    + apply (k_final _ _ (H k)).
    + apply (k_row _ _ (H k)).
    + intros D. split; [done|]. destruct (k_fin _ _ (H k) (Hd _ D)) as [_ [|[Hr _]]]; [by left|by right].
  - apply (kinv_other k' t w); try done; subst w'; wsimpl.
    + intros T ET Hk. rewrite E in ET. injection ET as <-. apply Hn. by eapply on_key_inj; [|right].
    + by rewrite lookup_delete_eq.
    + rewrite elem_of_cons. naive_solver.
    + intros l _. apply Hd.
Qed.

(** the ones with a claim, or about to take or to remove one, *)
Lemma keys_late_holding t p k w :
  keys_ok w -> tasks w !! t = Some (MkTask false p) -> hold_key p = Some k ->
  keys_ok (aftermath p (set_tasks (delete t (tasks w)) w)).
Proof.
  intros H E Hp. pose proof (keys_forget _ _ _ H E) as Hforget.
  destruct (k_task _ _ (H k) _ _ _ E (or_intror Hp)) as (A & _ & B). destruct (B Hp) as (B1 & B2 & _).
  assert (only t k w) as Ho by (eapply only_task; [done|exact E|by right]).
  assert (forall k', on_key k' p -> k' = k) as HT by (intros k' Hk; eapply on_key_inj; [exact Hk|by right]).
  assert (p <> Completing k -> forall m row, release_sending_media_upload k (rows w) = Some (m, row) ->
    keys_ok (set_rows m (set_tasks (delete t (tasks w)) w))) as Hrel.
  { intros Hn m row Er. apply release_some in Er as (row0 & E0 & ->).
    eapply keys_late_state; try done. intros Hin. by destruct Hn; apply B2. }
  destruct p; try discriminate Hp; injection Hp as ->; cbn [aftermath] in *; wsimpl; try done.
  - destruct (release_sending_media_upload _ _) as [[]|] eqn:Er; [|done]. by eapply Hrel.
  - by apply (keys_late_sent t k bytes).
  - destruct (complete_sending_media_upload _ _) as [[]|] eqn:Er; [|done].
    apply complete_some in Er as (-> & Er & _). by eapply keys_late_delete.
  - destruct (release_sending_media_upload _ _) as [[]|] eqn:Er; [|done]. by eapply Hrel.
Qed.

Lemma keys_late_off t p w :
  keys_ok w -> tasks w !! t = Some (MkTask false p) -> (forall k, ~ on_key k p) ->
  keys_ok (aftermath p (set_tasks (delete t (tasks w)) w)).
Proof.
  intros H E Ho. pose proof (keys_forget _ _ _ H E) as Hforget.
  destruct p; cbn [aftermath] in *; wsimpl; try done; try (by destruct (Ho k); left); try (by destruct (Ho k); right).
  - destruct (claim_staged_media_upload _ _ _) as [[]|] eqn:Er; [|done].
    apply claim_some in Er as (r & Er & Hs & _ & -> & _).
    eapply keys_late_state; try done; [by eapply only_staged|intros k' Hk; by destruct (Ho k')].
  - destruct (delete_staged_media_upload _ _) as [[]|] eqn:Er; [|done].
    apply delete_some in Er as (-> & Er & Hs).
    eapply keys_late_delete; try done; [by eapply only_staged|intros k' Hk; by destruct (Ho k')].
  - apply (keys_shrink (set_tasks (delete t (tasks w)) w)); try done.
    + apply map_subseteq_spec. intros k row. wsimpl. rewrite sweep_row. by intros [].
    + intros l D. by left.
  - destruct paths as [|l paths]; [done|].
    apply (keys_unlink l w); try done.
    + right. eexists _, _, _, _. split; [exact E|]. by left.
    + intros k t' T' _. wsimpl. rewrite lookup_delete_Some. by intros [].
    + intros l' D. apply (doomed_step t w) in D as [|]; [done|by apply doomed_cleanup|same_but_tac|].
      wsimpl. by rewrite lookup_delete_eq.
Qed.

Lemma keys_late t happens w :
  keys_ok w -> keys_ok (step max_upload_bytes ttl max_concurrent_uploads (Late t happens) w).
Proof.
  intros H. cbn [step]. destruct (tasks w !! t) as [[[] p]|] eqn:E; try done.
  cbv zeta. destruct (outlives p) eqn:Hout.
  { destruct p; try done. destruct happens; by eapply keys_permits, keys_forget. }
  destruct happens; [|by eapply keys_forget].
  destruct (stage_key p) as [k|] eqn:Hs; [by eapply keys_late_staging|].
  destruct (hold_key p) as [k|] eqn:Hh; [by eapply keys_late_holding|].
  apply keys_late_off; [done..|]. intros k [|]; congruence.
Qed.

(** ** Starts, cleanups, accounts, restarts *)

Lemma keys_start t c w : keys_ok w -> keys_ok (step max_upload_bytes ttl max_concurrent_uploads (Start t c) w).
Proof.
  intros H. cbn [step]. case_bool_decide as Hn; [done|].
  assert (tasks w !! t = None) as E by (destruct (tasks w !! t); [by destruct Hn|done]).
  eapply (keys_idle t w); try done; [same_but_tac| | |].
  - intros T k. by rewrite E.
  - intros T k. wsimpl. rewrite lookup_insert_eq. intros [= <-]. destruct c; by intros [|].
  - intros l D. apply (doomed_step t w) in D as [|]; [done|by apply doomed_cleanup|same_but_tac|].
    wsimpl. rewrite lookup_insert_eq. intros T [= <-]. by destruct c.
Qed.

Lemma keys_cleanup i removed w :
  keys_ok w -> keys_ok (step max_upload_bytes ttl max_concurrent_uploads (Cleanup i removed) w).
Proof.
  intros H. cbn [step]. destruct (cleanups w !! i) as [l|] eqn:E; [|done]. cbv zeta.
  assert (forall x l', doomed l' (set_files x (set_cleanups (delete i (cleanups w)) w)) -> doomed l' w) as Hd.
  { intros x l' [D|D]; [left|by right]. revert D. wsimpl. rewrite !list_elem_of_lookup. intros [j Hj].
    destruct (decide (j < i)%nat); [rewrite list_lookup_delete_lt in Hj by done|
      rewrite list_lookup_delete_ge in Hj by lia]; eauto. }
  destruct removed.
  - apply (keys_unlink l w); try done; [|by apply Hd]. left. apply list_elem_of_lookup. eauto.
  - apply (keys_shrink w); try done. intros l' D. left. by apply (Hd (files w)).
Qed.

Lemma keys_account_gone a w :
  keys_ok w -> keys_ok (step max_upload_bytes ttl max_concurrent_uploads (AccountGone a) w).
Proof.
  intros H. apply (keys_shrink w); try done.
  - apply map_filter_subseteq.
  - intros l D. by left.
Qed.

(** What a restart does to an upload. *)
Definition recovered (w w' : World) : Prop :=
  tasks w' = ∅ /\ cleanups w' = [] /\ sent w' = [] /\ received w' = received w /\ used w' = used w /\
  cut w' = cut w /\ (forall l c, files w' !! l = Some c -> files w !! l = Some c) /\
  (forall k row, rows w' !! k = Some row -> (exists row0, rows w !! k = Some row0 /\
     mu_path row = mu_path row0 /\ mu_size row = mu_size row0) /\
     (files w !! Final k = files w' !! Final k)).

Lemma keys_recovered w w' : keys_ok w -> recovered w w' -> keys_ok w'.
Proof.
  intros H (HT & Hcl & Hs & Hc & Hu & Hcut & Hf & Hr) k.
  assert (forall l, ~ doomed l w') as Hd.
  { intros l [D|(t & a & paths & ans & E & _)]; [rewrite Hcl in D; set_solver|by rewrite HT in E]. }
  assert (forall t T, tasks w' !! t = Some T -> False) as Hno by (intros t T; by rewrite HT).
  destruct (H k) as [N1 N2 N3 N4 N5 N6 N7 N8].
  split; rewrite ?Hc, ?Hu, ?Hcut, ?Hs; try (intros; exfalso; by eapply Hno); try (intros D; by destruct (Hd _ D)).
  - intros Hn. destruct (N1 Hn) as (A1 & A2 & A3 & A4 & A5 & _). split_and!; try done; [..|set_solver].
    + apply eq_None_not_Some. intros [row Er]. destruct (Hr _ _ Er) as [(? & ? & _) _]. congruence.
    + apply eq_None_not_Some. intros [c Ec%Hf]. congruence.
    + apply eq_None_not_Some. intros [c Ec%Hf]. congruence.
  - intros c Ec. by apply N4, Hf.
  - intros row Er. destruct (Hr _ _ Er) as [(row0 & E0 & P1 & P2) Hff].
    destruct (N5 _ E0) as (c & ? & [? ?] & ?). exists c. unfold row_of. rewrite P1, P2, <- Hff. done.
  - intros Hin. set_solver.
Qed.

Lemma rows_path_key w k k' row : keys_ok w -> rows w !! k = Some row -> mu_path row = Final k' -> k = k'.
Proof. intros H Er Ep. destruct (k_row _ _ (H k) _ Er) as (c & _ & [E _] & _). congruence. Qed.

Lemma restart_recovers reset listed swept stuck w :
  keys_ok w ->
  recovered w (step max_upload_bytes ttl max_concurrent_uploads (Restart reset listed swept stuck) w).
Proof.
  intros H. cbn [step reconcile_boot]. cbv zeta.
  set (m := if reset then reconcile_sending_media_uploads (rows w) else rows w).
  assert (forall k row, m !! k = Some row -> exists row0, rows w !! k = Some row0 /\
    mu_path row = mu_path row0 /\ mu_size row = mu_size row0) as Hm.
  { subst m. destruct reset; [|by eauto]. intros k row. unfold reconcile_sending_media_uploads.
    rewrite lookup_fmap, fmap_Some. intros (row0 & E & ->). by exists row0. }
  assert (forall k row k', m !! k = Some row -> mu_path row = Final k' -> k = k') as Hkey.
  { intros k row k' Ek Ep. destruct (Hm _ _ Ek) as (row0 & E0 & P & _).
    eapply rows_path_key; [exact H|exact E0|congruence]. }
  set (f := if listed then filter (fun e => is_Some (m !! match e.1 with Tmp k | Final k => k end) \/ e.1 ∈ stuck)
              (files w) else files w).
  assert (f ⊆ files w) as Hf by (subst f; destruct listed; [apply map_filter_subseteq|done]).
  assert (forall k, is_Some (m !! k) -> f !! Final k = files w !! Final k) as Hf'.
  { intros k Hk. subst f. destruct listed; [|done]. apply option_eq. intros c.
    rewrite map_lookup_filter_Some. naive_solver. }
  match goal with |- recovered _ ?x => replace x with
    (MkWorld (if swept then (delete_expired_media_uploads (clock w) m).1 else m)
       (if swept then filter (fun e => e.1 ∉ (mu_path <$> (delete_expired_media_uploads (clock w) m).2) \/ e.1 ∈ stuck) f
        else f)
       (clock w) max_concurrent_uploads ∅ [] ∅ (used w) (received w) (cut w) []) end;
    [|by destruct reset, listed, swept].
  unfold recovered. wsimpl. split_and!; try done.
  - intros l c E. eapply lookup_weaken; [|exact Hf]. destruct swept; [|done]. by apply map_lookup_filter_Some in E as [].
  - intros k row Er.
    assert (m !! k = Some row) as Em by (destruct swept; [by apply sweep_row in Er as []|done]).
    split; [by apply Hm|]. rewrite <- Hf' by eauto. destruct swept; [|done].
    apply sweep_row in Er as [_ Hx]. apply option_eq. intros c. rewrite map_lookup_filter_Some. cbn [fst].
    split; [|by intros []]. intros E. split; [done|]. left. intros (k' & row' & E' & Ep & Hx')%sweep_gone.
    assert (k' = k) as -> by (by eapply Hkey). congruence.
Qed.

Lemma keys_step e w : keys_ok w -> keys_ok (step max_upload_bytes ttl max_concurrent_uploads e w).
Proof.
  intros H. destruct e as [t c|t o|t|t b|i b|d|a|b1 b2 b3 stuck].
  - by apply keys_start.
  - cbn [step]. destruct (tasks w !! t) as [[[] p]|] eqn:E; try done. by apply keys_advance.
  - by apply keys_drop.
  - by apply keys_late.
  - by apply keys_cleanup.
  - cbn [step]. intros k. by apply (kinv_frame k w).
  - by apply keys_account_gone.
  - eapply keys_recovered; [done|]. by apply restart_recovers.
Qed.

Lemma keys_fresh : keys_ok (fresh_world max_concurrent_uploads).
Proof.
  intros k. split; try done.
  - intros _. split_and!; try done; try set_solver; intros [|(t & a & p & n & E & _)]; set_solver.
  - cbn. set_solver.
Qed.

Lemma keys_run l : keys_ok (run max_upload_bytes ttl max_concurrent_uploads l (fresh_world max_concurrent_uploads)).
Proof.
  unfold run. generalize keys_fresh. generalize (fresh_world max_concurrent_uploads).
  induction l as [|e l IH]; intros w H; [done|]. cbn [foldl]. by apply IH, keys_step.
Qed.

End Invariant.

(** ** The rows, step by step *)

Section Rows.
Context (max_upload_bytes ttl : Z) (max_concurrent_uploads : nat).
#[local] Abbreviation step := (step max_upload_bytes ttl max_concurrent_uploads).
#[local] Abbreviation run := (run max_upload_bytes ttl max_concurrent_uploads).

(** The same upload, whatever its state. *)
Definition same_upload (r' r : MediaUpload) : Prop := mu_generated r' = mu_generated r /\ mu_size r' = mu_size r.

(** Nothing but what was there. *)
Definition no_more (m' m : Rows) : Prop :=
  forall k r', m' !! k = Some r' -> exists r, m !! k = Some r /\ same_upload r' r.

Inductive row_change (m : Rows) : Rows -> Prop :=
| Grew g k row m' : mu_generated row = g -> insert_row g k row m = Some (Some m') -> row_change m m'
| Kept m' : no_more m' m -> row_change m m'.

Lemma no_more_refl m : no_more m m.
Proof. intros k r E. by exists r. Qed.

Lemma no_more_sub m' m : m' ⊆ m -> no_more m' m.
Proof. intros H k r E. exists r. split; [by eapply lookup_weaken|done]. Qed.

Lemma no_more_delete m k : no_more (delete k m) m.
Proof. apply no_more_sub, delete_subseteq. Qed.

Lemma no_more_state m k s r : m !! k = Some r -> no_more (<[k := with_state s r]> m) m.
Proof.
  intros E k' r' E'. destruct (decide (k' = k)) as [->|Hn].
  - rewrite lookup_insert_eq in E'. injection E' as <-. by exists r.
  - rewrite lookup_insert_ne in E' by done. by exists r'.
Qed.

Lemma no_more_sweep now m : no_more (delete_expired_media_uploads now m).1 m.
Proof. apply no_more_sub, map_filter_subseteq. Qed.

Lemma no_more_trans m1 m2 m3 : no_more m1 m2 -> no_more m2 m3 -> no_more m1 m3.
Proof.
  intros H1 H2 k r E. destruct (H1 _ _ E) as (r2 & E2 & S1 & S2). destruct (H2 _ _ E2) as (r3 & E3 & S3 & S4).
  exists r3. split; [done|]. split; congruence.
Qed.

Lemma no_more_reset s m : no_more (with_state s <$> m) m.
Proof. intros k r. rewrite lookup_fmap, fmap_Some. intros (r0 & E0 & ->). by exists r0. Qed.

#[local] Hint Resolve no_more_refl no_more_reset no_more_delete no_more_state no_more_sweep : core.

Lemma unlink_all_rows t paths a w : rows (unlink_all t paths a w) = rows w.
Proof. by destruct paths. Qed.

Lemma refuse_rows t p e w : rows (refuse t p e w) = rows w.
Proof. destruct p; try done; by destruct v. Qed.

Lemma claim_no_more now k m m' row : claim_staged_media_upload now k m = Some (m', row) -> no_more m' m.
Proof. intros (r & E & _ & _ & -> & _)%claim_some. auto. Qed.
Lemma complete_no_more k m m' row : complete_sending_media_upload k m = Some (m', row) -> no_more m' m.
Proof. intros (-> & _)%complete_some. auto. Qed.
Lemma delete_no_more k m m' row : delete_staged_media_upload k m = Some (m', row) -> no_more m' m.
Proof. intros (-> & _)%delete_some. auto. Qed.
Lemma release_no_more k m m' row : release_sending_media_upload k m = Some (m', row) -> no_more m' m.
Proof. intros (r & E & ->)%release_some. auto. Qed.
#[local] Hint Resolve claim_no_more complete_no_more delete_no_more release_no_more : core.

(** The row a call inserts is of its kind. *)
Definition kinds_ok (w : World) : Prop :=
  forall t a g k row, tasks w !! t = Some (MkTask a (Inserting g k row)) -> mu_generated row = g.

Lemma advance_rows t p o w : kinds_ok w -> tasks w !! t = Some (MkTask true p) ->
  row_change (rows w) (rows (advance max_upload_bytes ttl t p o w)).
Proof.
  intros Hk E. destruct p, o; advance_simpl; try (apply Kept, no_more_refl);
    repeat case_match; simplify_eq; rewrite ?refuse_rows, ?unlink_all_rows; cbn; rewrite ?unlink_all_rows; cbn;
    try (apply Kept; eauto; fail).
  all: try (eapply Grew; [by eapply Hk|eassumption]).
  all: try (apply Kept; match goal with H : delete_expired_media_uploads ?n ?m = (?x, _) |- _ =>
    replace x with (delete_expired_media_uploads n m).1 by (by rewrite H); auto end).
Qed.

Lemma aftermath_rows t p w w0 : kinds_ok w0 -> tasks w0 !! t = Some (MkTask false p) ->
  row_change (rows w) (rows (aftermath p w)).
Proof.
  intros Hk E. destruct p; cbn [aftermath]; try (apply Kept, no_more_refl);
    repeat case_match; simplify_eq; cbn; try (apply Kept; eauto; fail).
  - eapply Grew; [by eapply Hk|eassumption].
  - apply Kept, no_more_sub, map_filter_subseteq.
Qed.

Lemma step_rows e w : kinds_ok w -> row_change (rows w) (rows (step e w)).
Proof.
  intros Hk. destruct e as [t c|t o|t|t b|i b|d|a|b1 b2 b3 stuck]; step_simpl.
  - case_match; by apply Kept.
  - destruct (tasks w !! t) as [[[] p]|] eqn:E; try by apply Kept. by apply advance_rows.
  - destruct (tasks w !! t) as [[[] p]|] eqn:E; try by apply Kept. apply Kept. destruct p; try done; by destruct v.
  - destruct (tasks w !! t) as [[[] p]|] eqn:E; try by apply Kept. cbv zeta.
    destruct (outlives p) eqn:Ho; [destruct p; try done; destruct b; by apply Kept|].
    destruct b; [|by apply Kept]. by apply (aftermath_rows t p (set_tasks (delete t (tasks w)) w) w).
  - destruct (cleanups w !! i); [|by apply Kept]. destruct b; by apply Kept.
  - by apply Kept.
  - apply Kept, no_more_sub, map_filter_subseteq.
  - apply Kept. unfold reconcile_boot. cbv zeta. destruct b1, b2, b3; cbn; auto.
    all: try (eapply no_more_trans; [apply no_more_sub, map_filter_subseteq|]).
    all: auto.
Qed.

(** A step leaves a call where it was, drops it, forgets it or moves it on. *)
Definition row_kind (T : Task) : Prop :=
  match phase T with Inserting g _ row => mu_generated row = g | _ => True end.

Definition kinds (m : gmap nat Task) : Prop := map_Forall (fun _ T => row_kind T) m.

Lemma kinds_ok_kinds w : kinds (tasks w) -> kinds_ok w.
Proof. intros H t a g k row E. exact (H _ _ E). Qed.

Lemma kinds_insert t T m : row_kind T -> kinds m -> kinds (<[t := T]> m).
Proof. intros. by apply map_Forall_insert_2. Qed.

Lemma kinds_delete t m : kinds m -> kinds (delete t m).
Proof. intros. by apply map_Forall_delete. Qed.
#[local] Hint Resolve kinds_insert kinds_delete : core.

Lemma kinds_unlink_all t paths a w : kinds (tasks w) -> kinds (tasks (unlink_all t paths a w)).
Proof. destruct paths; cbn; [apply kinds_delete|by apply kinds_insert]. Qed.
#[local] Hint Resolve kinds_unlink_all : core.

Lemma refuse_tasks t p e w : tasks (refuse t p e w) = delete t (tasks w).
Proof. destruct p; try done; by destruct v. Qed.

Lemma kinds_advance t p o w : kinds (tasks w) -> kinds (tasks (advance max_upload_bytes ttl t p o w)).
Proof.
  intros Hk. destruct p, o; advance_simpl; auto; repeat case_match; rewrite ?refuse_tasks; auto;
    first [apply kinds_unlink_all | apply kinds_insert | apply kinds_delete]; done.
Qed.

Lemma kinds_aftermath p w : kinds (tasks w) -> kinds (tasks (aftermath p w)).
Proof. intros Hk. destruct p; cbn [aftermath]; auto; repeat case_match; auto. Qed.

Lemma kinds_step e w : kinds (tasks w) -> kinds (tasks (step e w)).
Proof.
  intros Hk. destruct e as [t c|t o|t|t b|i b|d|a|b1 b2 b3 stuck]; step_simpl.
  - case_match; [done|]. apply kinds_insert; [by destruct c|done].
  - destruct (tasks w !! t) as [[[] p]|] eqn:E; try done. by apply kinds_advance.
  - destruct (tasks w !! t) as [[[] p]|] eqn:E; try done. pose proof (Hk _ _ E) as Hp.
    cbv zeta. destruct p; try destruct v; apply kinds_insert; done.
  - destruct (tasks w !! t) as [[[] p]|] eqn:E; try done. cbv zeta.
    destruct b; [apply kinds_aftermath|]; destruct (outlives p); by apply kinds_delete.
  - destruct (cleanups w !! i); [|done]. by destruct b.
  - done.
  - done.
  - unfold reconcile_boot. by destruct b1, b2, b3.
Qed.

(** ** The quota of generated previews *)

Definition sizes_of (a : uuid) (m : Rows) : gmap key Z :=
  mu_size <$> filter (fun e => e.1.1 = a /\ mu_generated e.2 = true) m.

Definition sum (l : list Z) : Z := foldr Z.add 0 l.

Lemma sum_app l1 l2 : sum (l1 ++ l2) = sum l1 + sum l2.
Proof. unfold sum. induction l1; cbn; lia. Qed.

Lemma sum_perm l1 l2 : l1 ≡ₚ l2 -> sum l1 = sum l2.
Proof. unfold sum. induction 1; cbn; lia. Qed.

Lemma sum_nonneg l : Forall (Z.le 0) l -> 0 <= sum l.
Proof. unfold sum. induction 1; cbn; lia. Qed.

Lemma sum_submseteq l1 l2 : l1 ⊆+ l2 -> Forall (Z.le 0) l2 -> sum l1 <= sum l2.
Proof.
  intros [l Hp]%submseteq_Permutation Hn. rewrite (sum_perm _ _ Hp), sum_app.
  rewrite Hp in Hn. apply Forall_app in Hn as [_ Hn]. apply sum_nonneg in Hn. lia.
Qed.

Lemma generated_of_sizes a m :
  prod_map id mu_size <$> generated_of a m ≡ₚ map_to_list (sizes_of a m).
Proof.
  unfold sizes_of. rewrite map_to_list_fmap. apply fmap_Permutation. unfold generated_of.
  apply NoDup_Permutation.
  - apply NoDup_filter, NoDup_map_to_list.
  - apply NoDup_map_to_list.
  - intros [k r]. by rewrite list_elem_of_filter, !elem_of_map_to_list, map_lookup_filter_Some; tauto.
Qed.

Lemma total_sizes a m : total (generated_of a m) = sum (map_to_list (sizes_of a m)).*2.
Proof.
  rewrite <- (sum_perm _ _ (fmap_Permutation snd _ _ (generated_of_sizes a m))).
  unfold total. induction (generated_of a m) as [|[k r] l IH]; [done|]. cbn in *. by rewrite IH.
Qed.

Lemma count_sizes a m : length (generated_of a m) = size (sizes_of a m).
Proof.
  rewrite <- length_map_to_list, <- (Permutation_length (generated_of_sizes a m)). by rewrite length_fmap.
Qed.

Definition quota (m : Rows) : Prop :=
  (forall k r, m !! k = Some r -> 0 <= mu_size r) /\
  (forall a, Z.of_nat (length (generated_of a m)) <= MAX_GENERATED_COUNT /\
     total (generated_of a m) <= MAX_GENERATED_BYTES).

Lemma sizes_insert a k r m : m !! k = None -> sizes_of a (<[k := r]> m) =
  if bool_decide (k.1 = a /\ mu_generated r = true) then <[k := mu_size r]> (sizes_of a m) else sizes_of a m.
Proof.
  intros Hm. unfold sizes_of. rewrite map_filter_insert. case_bool_decide as Hp.
  - by rewrite decide_True, fmap_insert.
  - by rewrite decide_False, delete_id.
Qed.

Lemma sizes_none a k m : m !! k = None -> sizes_of a m !! k = None.
Proof.
  intros Hm. unfold sizes_of. rewrite lookup_fmap. replace (filter _ m !! k) with (@None MediaUpload); [done|].
  symmetry. apply map_lookup_filter_None. by left.
Qed.

Lemma sizes_no_more a m m' : no_more m' m -> sizes_of a m' ⊆ sizes_of a m.
Proof.
  intros H. apply map_subseteq_spec. intros k z. unfold sizes_of. rewrite !lookup_fmap, !fmap_Some.
  intros (r' & [E' [A B]]%map_lookup_filter_Some & ->). destruct (H _ _ E') as (r & E & S1 & S2).
  exists r. rewrite map_lookup_filter_Some. cbn in *. split_and!; congruence.
Qed.

Lemma quota_no_more m m' : quota m -> no_more m' m -> quota m'.
Proof.
  intros [Hn Hq] H.
  split. { intros k r' E'. destruct (H _ _ E') as (r & E & _ & ->). by eapply Hn. }
  intros a. destruct (Hq a) as [Hc Ht]. rewrite count_sizes, total_sizes in *.
  pose proof (sizes_no_more a _ _ H) as Hs. pose proof (map_subseteq_size _ _ Hs).
  split; [lia|]. etrans; [|exact Ht]. apply sum_submseteq.
  - apply fmap_submseteq. by apply map_to_list_submseteq.
  - apply Forall_fmap, Forall_forall. intros [k z] Hin%elem_of_map_to_list. cbn.
    revert Hin. unfold sizes_of. rewrite lookup_fmap, fmap_Some. intros (r & [E _]%map_lookup_filter_Some & ->).
    by eapply Hn.
Qed.

Lemma insert_row_new g k row m m' : insert_row g k row m = Some (Some m') ->
  m' = <[k := row]> m /\ m !! k = None /\ 0 <= mu_size row /\
  (g = true -> Z.of_nat (length (generated_of k.1 m)) < MAX_GENERATED_COUNT /\
    mu_size row <= i64_sat_sub MAX_GENERATED_BYTES (total (generated_of k.1 m))).
Proof.
  assert (insert_upload k row m = Some m' -> m' = <[k := row]> m /\ m !! k = None /\ 0 <= mu_size row) as Hi.
  { unfold insert_upload. case_match eqn:Hc; [|done]. intros [= <-]. apply andb_true_iff in Hc as [Hc Hz].
    apply andb_true_iff in Hc as [Hf%bool_decide_eq_true _]. split_and!; [done| |lia].
    apply eq_None_not_Some. intros [r E]. by apply (Hf _ _ E). }
  unfold insert_row, insert_generated_preview_upload. destruct g.
  - case_match eqn:Hc; [done|]. apply orb_false_iff in Hc as [Hc Hb].
    rewrite fmap_Some. intros (x & E & [= ->]). destruct (Hi E) as (? & ? & ?). split_and!; try done.
    intros _. split; lia.
  - rewrite fmap_Some. intros (x & E & [= ->]). destruct (Hi E) as (? & ? & ?). split_and!; done.
Qed.

Lemma quota_change m m' : quota m -> row_change m m' -> quota m'.
Proof.
  intros Hq [g k row m0 Hg Hi|m0 H]; [|by eapply quota_no_more].
  apply insert_row_new in Hi as (-> & Hm & Hz & Hi). destruct Hq as [Hn Hq]. split.
  { intros k' r. destruct (decide (k' = k)) as [->|]; [rewrite lookup_insert_eq; naive_solver|].
    rewrite lookup_insert_ne by done. apply Hn. }
  intros a. destruct (Hq a) as [Hc Ht]. rewrite count_sizes, total_sizes in *. rewrite sizes_insert by done.
  case_bool_decide as Hp; [|done]. destruct Hp as [<- Hp].
  destruct Hi as [Hi1 Hi2]; [congruence|].
  rewrite map_size_insert_None by by apply sizes_none.
  rewrite (sum_perm _ _ (fmap_Permutation snd _ _ (map_to_list_insert _ _ _ (sizes_none _ _ _ Hm)))).
  assert (0 <= sum (map_to_list (sizes_of k.1 m)).*2) as Hpos.
  { apply sum_nonneg, Forall_fmap, Forall_forall. intros [k' z] Hin%elem_of_map_to_list. cbn.
    revert Hin. unfold sizes_of. rewrite lookup_fmap, fmap_Some. intros (r & [E _]%map_lookup_filter_Some & ->).
    by eapply Hn. }
  cbn. fold (sum (map_to_list (sizes_of k.1 m)).*2). unfold i64_sat_sub, i64_min, i64_max in Hi2.
  unfold MAX_GENERATED_BYTES in *. lia.
Qed.

Lemma run_invariant (P : World -> Prop) l w : (forall e w, P w -> P (step e w)) -> P w -> P (run l w).
Proof. intros H. unfold Uploads.run. revert w. induction l as [|e l IH]; intros w Hw; [done|]. apply IH. by apply H. Qed.

End Rows.

(** ** Permits *)

(** A call that holds a permit, or the decoder a dropped one left. *)
Definition takes_permit (T : Task) : bool := holds_permit (phase T) && (alive T || outlives (phase T)).

Definition holders (m : gmap nat Task) : nat := size (filter (fun e => takes_permit e.2 = true) m).

Definition b2n (b : bool) : nat := if b then 1%nat else 0%nat.

Lemma holders_insert t T m : m !! t = None -> holders (<[t := T]> m) = (b2n (takes_permit T) + holders m)%nat.
Proof.
  intros E. unfold holders. rewrite map_filter_insert. case_decide as Hp; cbn in Hp.
  - rewrite Hp, map_size_insert_None; [done|]. apply map_lookup_filter_None. by left.
  - rewrite delete_id by done. by destruct (takes_permit T).
Qed.

Lemma holders_delete t T m : m !! t = Some T -> holders m = (b2n (takes_permit T) + holders (delete t m))%nat.
Proof.
  intros E. rewrite <- (holders_insert t T) by apply lookup_delete_eq. by rewrite insert_delete_eq, insert_id.
Qed.

Lemma holders_move t T T' m : m !! t = Some T ->
  (holders (<[t := T']> m) + b2n (takes_permit T) = holders m + b2n (takes_permit T'))%nat.
Proof.
  intros E. rewrite (holders_delete t T m) by done. rewrite <- insert_delete_eq.
  rewrite holders_insert by apply lookup_delete_eq. lia.
Qed.

Section Permits.
Context (max_upload_bytes ttl : Z) (max_concurrent_uploads : nat).
#[local] Abbreviation step := (step max_upload_bytes ttl max_concurrent_uploads).

(** Every permit is free or held. *)
Definition permits_ok (w : World) : Prop := (permits w + holders (tasks w))%nat = max_concurrent_uploads.

Lemma permits_move t p p' w w' :
  permits_ok w -> tasks w !! t = Some (MkTask true p) -> tasks w' = <[t := MkTask true p']> (tasks w) ->
  (permits w' + b2n (holds_permit p') = permits w + b2n (holds_permit p))%nat -> permits_ok w'.
Proof.
  unfold permits_ok. intros H E -> Hp. pose proof (holders_move _ _ (MkTask true p') _ E) as Hm.
  unfold takes_permit in Hm. cbn in Hm. rewrite ?andb_true_r in Hm. lia.
Qed.

Lemma permits_end t p w w' :
  permits_ok w -> tasks w !! t = Some (MkTask true p) -> tasks w' = delete t (tasks w) ->
  permits w' = (permits w + b2n (holds_permit p))%nat -> permits_ok w'.
Proof.
  unfold permits_ok. intros H E -> ->. pose proof (holders_delete _ _ _ E) as Hm.
  unfold takes_permit in Hm. cbn in Hm. rewrite ?andb_true_r in Hm. lia.
Qed.

Lemma permits_same w w' : permits_ok w -> tasks w' = tasks w -> permits w' = permits w -> permits_ok w'.
Proof. unfold permits_ok. by intros H -> ->. Qed.

Lemma permits_advance t p o w :
  permits_ok w -> tasks w !! t = Some (MkTask true p) -> permits_ok (advance max_upload_bytes ttl t p o w).
Proof.
  intros H E.
  assert (forall p' w', tasks w' = <[t := MkTask true p']> (tasks w) ->
    (permits w' + b2n (holds_permit p') = permits w + b2n (holds_permit p))%nat -> permits_ok w') as Hmove
    by (intros; by eapply permits_move).
  assert (forall w', tasks w' = delete t (tasks w) ->
    permits w' = (permits w + b2n (holds_permit p))%nat -> permits_ok w') as Hend
    by (intros; by eapply permits_end).
  destruct p, o; try destruct v; advance_simpl; try done; repeat case_match;
    first [ done
          | eapply Hend; [reflexivity|cbn; lia]
          | eapply Hmove; [reflexivity|cbn; lia]
          | unfold unlink_all; case_match; first [eapply Hend; [reflexivity|cbn; lia] | eapply Hmove; [reflexivity|cbn; lia]] ].
Qed.

Lemma permits_aftermath p w : permits_ok w -> permits_ok (aftermath p w).
Proof. intros H. destruct p; cbn [aftermath]; repeat case_match; done. Qed.

Lemma permits_step e w : permits_ok w -> permits_ok (step e w).
Proof.
  intros H. destruct e as [t c|t o|t|t b|i b|d|a|b1 b2 b3 stuck]; step_simpl.
  - case_bool_decide as Hn; [done|].
    assert (tasks w !! t = None) as E by (destruct (tasks w !! t); [by destruct Hn|done]).
    unfold permits_ok in *. cbn. rewrite holders_insert by done. by destruct c.
  - destruct (tasks w !! t) as [[[] p]|] eqn:E; try done. by apply permits_advance.
  - destruct (tasks w !! t) as [[[] p]|] eqn:E; try done. cbv zeta.
    pose proof (holders_move _ _ (MkTask false p) _ E) as Hm. unfold permits_ok, takes_permit in *. cbn in Hm.
    destruct p; try destruct v; cbn in *; lia.
  - destruct (tasks w !! t) as [[[] p]|] eqn:E; try done. cbv zeta.
    set (w1 := if outlives p then _ else _). assert (permits_ok w1).
    { pose proof (holders_delete _ _ _ E) as Hm. unfold permits_ok, takes_permit in *.
      subst w1. destruct p; try destruct v; cbn in *; lia. }
    destruct b; [by apply permits_aftermath|done].
  - destruct (cleanups w !! i); [|done]. by destruct b.
  - done.
  - done.
  - unfold permits_ok, reconcile_boot. destruct b1, b2, b3; cbn; unfold holders; rewrite map_filter_empty, map_size_empty; lia.
Qed.
End Permits.

(** ** What is sent *)

Section Sent.
Context (max_upload_bytes ttl : Z) (max_concurrent_uploads : nat) (Hmax : 0 <= max_upload_bytes).
#[local] Abbreviation step := (step max_upload_bytes ttl max_concurrent_uploads).

Lemma mutating_is_new w t a k bytes :
  keys_ok max_upload_bytes w -> tasks w !! t = Some (MkTask a (Mutating k bytes)) -> k ∉ sent w.
Proof.
  intros H E Hin. destruct (k_task _ _ _ (H k) _ _ _ E) as (_ & _ & B); [by right|].
  destruct (B eq_refl) as (_ & B2 & _). by specialize (B2 Hin).
Qed.

Lemma refuse_sent t p e w : sent (refuse t p e w) = sent w.
Proof. destruct p; try done; by destruct v. Qed.

Lemma unlink_all_sent t paths a w : sent (unlink_all t paths a w) = sent w.
Proof. by destruct paths. Qed.

Lemma sent_step e w : keys_ok max_upload_bytes w -> NoDup (sent w) -> NoDup (sent (step e w)).
Proof.
  intros H Hd. destruct e as [t c|t o|t|t b|i b|d|a|b1 b2 b3 stuck]; step_simpl.
  - by case_match.
  - destruct (tasks w !! t) as [[[] p]|] eqn:E; try done.
    destruct p, o; advance_simpl; try done; repeat case_match; rewrite ?refuse_sent, ?unlink_all_sent; try done.
    cbn. constructor; [by eapply mutating_is_new|done].
  - destruct (tasks w !! t) as [[[] p]|] eqn:E; try done. destruct p; try done; by destruct v.
  - destruct (tasks w !! t) as [[[] p]|] eqn:E; try done. cbv zeta.
    destruct (outlives p) eqn:Ho; [destruct p; try done; by destruct b|]. destruct b; [|done].
    destruct p; cbn [aftermath]; repeat case_match; try done. cbn. constructor; [by eapply mutating_is_new|done].
  - destruct (cleanups w !! i); [|done]. by destruct b.
  - done.
  - done.
  - unfold reconcile_boot. destruct b1, b2, b3; cbn; constructor.
Qed.
End Sent.

(** ** Theorems *)

Section Theorems.
Context (max_upload_bytes ttl : Z) (max_concurrent_uploads : nat).
#[local] Abbreviation reached l :=
  (run max_upload_bytes ttl max_concurrent_uploads l (fresh_world max_concurrent_uploads)).

(** [C14] Whatever calls run together, end or are dropped: the bytes a mutation is
    called with are exactly the bytes taken from the body of its upload, within the
    cap; nobody else is on that upload, and it has not been sent before.  Since the
    process started no upload was sent twice. *)
Theorem uploads_are_sent_as_received l :
  0 <= max_upload_bytes ->
  NoDup (sent (reached l)) /\
  forall t k bytes, tasks (reached l) !! t = Some (MkTask true (Mutating k bytes)) ->
    received (reached l) !! k = Some bytes /\ Z.of_nat (length bytes) <= max_upload_bytes /\
    k ∉ sent (reached l) /\
    forall t' T, tasks (reached l) !! t' = Some T -> on_key k (phase T) -> t' = t.
Proof.
  intros Hmax. pose proof (keys_run max_upload_bytes ttl max_concurrent_uploads Hmax l) as H. split.
  - apply (run_invariant max_upload_bytes ttl max_concurrent_uploads
      (fun w => keys_ok max_upload_bytes w /\ NoDup (sent w))).
    + intros e w []. split; [by apply keys_step|by apply sent_step].
    + split; [by apply keys_fresh|constructor].
  - intros t k bytes E. destruct (k_task _ _ _ (H k) _ _ _ E) as (_ & _ & B); [by right|].
    destruct (B eq_refl) as (_ & _ & Hok & Hle). split_and!; try done.
    + by eapply mutating_is_new.
    + intros t' T E' Hk. eapply (k_one _ _ _ (H k)); [exact E'|exact E|done|by right].
Qed.

(** A row describes its upload and keeps its file: the path is its own, the size
    is the number of bytes received, within the cap, and unless its staging was
    dropped while the row was being inserted, the file is there with those bytes. *)
Theorem staged_rows_keep_their_file l k row :
  0 <= max_upload_bytes -> rows (reached l) !! k = Some row ->
  mu_path row = Final k /\
  exists c, received (reached l) !! k = Some c /\ mu_size row = Z.of_nat (length c) /\
    mu_size row <= max_upload_bytes /\ (k ∉ cut (reached l) -> files (reached l) !! mu_path row = Some c).
Proof.
  intros Hmax Er. destruct (k_row _ _ _ (keys_run max_upload_bytes ttl max_concurrent_uploads Hmax l k) _ Er)
    as (c & R1 & (R2 & R3 & R4) & R5).
  split; [done|]. exists c. rewrite R2. split_and!; try done. intros Hn. by destruct R5.
Qed.

(** [C32] At any time an account holds at most 160 generated previews of 64 MiB
    together.  The permits that are free make up the configured number with those
    held: one by each upload being staged, by each preview image being claimed, read
    or refused, and by each decoder, also one whose call was dropped.  So a refused,
    failed or dropped call gives its permit back. *)
Theorem staging_is_bounded l :
  (forall a, Z.of_nat (length (generated_of a (rows (reached l)))) <= MAX_GENERATED_COUNT /\
     total (generated_of a (rows (reached l))) <= MAX_GENERATED_BYTES) /\
  (permits (reached l) + holders (tasks (reached l)))%nat = max_concurrent_uploads.
Proof.
  split.
  - apply (run_invariant max_upload_bytes ttl max_concurrent_uploads
      (fun w => kinds (tasks w) /\ quota (rows w))).
    + intros e w [Hk Hq]. split; [by apply kinds_step|].
      eapply quota_change; [done|]. by apply step_rows, kinds_ok_kinds.
    + split; [apply map_Forall_empty|]. split; [done|]. intros a. vm_compute. by split.
  - apply (run_invariant max_upload_bytes ttl max_concurrent_uploads
      (permits_ok max_concurrent_uploads)); [apply permits_step|].
    unfold permits_ok. cbn. unfold holders. rewrite map_filter_empty, map_size_empty. lia.
Qed.

(** A restart whose sweeps succeed leaves only staged rows that are not expired,
    and every finished file left belongs to one of them. *)
Theorem restart_leaves_claimable_rows l w :
  0 <= max_upload_bytes ->
  w = step max_upload_bytes ttl max_concurrent_uploads (Restart true true true ∅) (reached l) ->
  (forall k row, rows w !! k = Some row ->
     claim_staged_media_upload (clock w) k (rows w) = Some (<[k := with_state Sending row]> (rows w), with_state Sending row)) /\
  (forall k c, files w !! Final k = Some c -> is_Some (rows w !! k)) /\
  (forall k c, files w !! Tmp k = Some c -> is_Some (rows (reached l) !! k)).
Proof.
  intros Hmax ->. pose proof (keys_run max_upload_bytes ttl max_concurrent_uploads Hmax l) as H.
  generalize dependent (reached l). intros w H. cbn [step reconcile_boot]. cbv zeta.
  destruct (delete_expired_media_uploads _ _) as [rows' gone] eqn:Es. cbn in Es. revert Es.
  set (m := reconcile_sending_media_uploads (rows w)). intros [= <- <-].
  assert (forall k row, m !! k = Some row -> mu_state row = Staged /\ mu_path row = Final k /\ is_Some (rows w !! k)) as Hm.
  { intros k row. unfold m, reconcile_sending_media_uploads. rewrite lookup_fmap, fmap_Some.
    intros (r & E & ->). split_and!; [done| |by eexists].
    by destruct (k_row _ _ _ (H k) _ E) as (c & _ & [? _] & _). }
  cbn. split_and!.
  - intros k row E'. pose proof E' as [E Hx]%map_lookup_filter_Some. cbn in Hx.
    unfold claim_staged_media_upload, row_in. rewrite E'. cbn. destruct (Hm _ _ E) as (Hs & _). rewrite bool_decide_true by done. cbn.
    unfold expired in Hx. rewrite bool_decide_true in Hx by done. cbn in Hx. by replace (clock w <? mu_expires row) with true by lia.
  - intros k c [[_ Hin]%map_lookup_filter_Some Hg]%map_lookup_filter_Some.
    destruct Hin as [[row E]|]; [|set_solver]. destruct Hg as [Hg|]; [|set_solver]. cbn in *.
    exists row. apply map_lookup_filter_Some. split; [done|]. cbn.
    destruct (expired (clock w) row) eqn:Hx; [|done]. exfalso. apply Hg.
    destruct (Hm _ _ E) as (_ & <- & _). apply list_elem_of_fmap. exists row. split; [done|].
    apply list_elem_of_fmap. exists (k, row). split; [done|].
    by apply elem_of_map_to_list, map_lookup_filter_Some.
  - intros k c [[_ [[row E]|]]%map_lookup_filter_Some _]%map_lookup_filter_Some; [|set_solver].
    by apply Hm in E as (_ & _ & ?).
Qed.

End Theorems.

(** ** Runs *)

Definition a_request : StageUploadRequest := MkStage 5 FileUpload [97] None.

(** Three bytes up to the insert of the row, under the name 7. *)
Definition staging_run : list Event :=
  [Start 0 (StageUpload a_request false); Go 0 Ok; Go 0 (AccountIs (Some true) 7); Go 0 Ok;
   Go 0 (Chunk [1; 2]); Go 0 Ok; Go 0 (Chunk [3]); Go 0 Ok; Go 0 BodyEnd; Go 0 Ok; Go 0 Ok].

Definition sending_run : list Event := [Start 1 (SendUpload (5, 7)); Go 1 Ok; Go 1 Ok].

Lemma uploads_are_sent_as_received_witness :
  received (run 10 60 2 (staging_run ++ [Go 0 Ok] ++ sending_run) (fresh_world 2)) !! (5, 7) = Some [1; 2; 3].
Proof.
  apply (uploads_are_sent_as_received 10 60 2 (staging_run ++ [Go 0 Ok] ++ sending_run) ltac:(lia)) with (t := 1%nat).
  vm_compute. reflexivity.
Defined.

Lemma staged_rows_keep_their_file_witness :
  mu_path (MkUpload FileUpload [97] None 3 (Final (5, 7)) Staged 60 false) = Final (5, 7).
Proof.
  apply (staged_rows_keep_their_file 10 60 2 (staging_run ++ [Go 0 Ok]) (5, 7)); [lia|].
  vm_compute. reflexivity.
Defined.

Lemma restart_leaves_claimable_rows_witness :
  forall k c, files (step 10 60 2 (Restart true true true ∅)
    (run 10 60 2 (staging_run ++ [Go 0 Ok]) (fresh_world 2))) !! Final k = Some c ->
    is_Some (rows (step 10 60 2 (Restart true true true ∅)
      (run 10 60 2 (staging_run ++ [Go 0 Ok]) (fresh_world 2))) !! k).
Proof. apply (restart_leaves_claimable_rows 10 60 2 (staging_run ++ [Go 0 Ok]) _ ltac:(lia) eq_refl). Defined.

(** A staging dropped during its insert removes the file; the row may still go in,
    and then cannot be sent. *)
Example cut_insert_loses_the_file :
  let w := run 10 60 2 (staging_run ++ [Drop 0; Late 0 true; Cleanup 0 true]) (fresh_world 2) in
  is_Some (rows w !! (5, 7)) /\ files w !! Final (5, 7) = None /\
  answers (run 10 60 2 (sending_run ++ [Go 1 Ok]) w) !! 1%nat = Some (Refused NotFound).
Proof. vm_compute. split; [by eexists|done]. Qed.

(** A send dropped while it holds the claim leaves the upload unusable until a
    restart: it can be neither sent nor deleted, and never expires. *)
Example dropped_send_wedges_the_upload :
  let w := run 10 60 2 (staging_run ++ [Go 0 Ok] ++ sending_run ++ [Drop 1; Late 1 false; Tick 1000]) (fresh_world 2) in
  let w' := run 10 60 2 [Start 1 (SendUpload (5, 7)); Go 1 Ok; Start 2 (DeleteUpload (5, 7)); Go 2 Ok;
                         Start 3 SweepExpired; Go 3 Ok] w in
  tasks w = ∅ /\ answers w' !! 1%nat = Some (Refused NotFound) /\ answers w' !! 2%nat = Some (Refused NotFound) /\
  answers w' !! 3%nat = Some Done /\ is_Some (rows w' !! (5, 7)).
Proof. vm_compute. do 4 (split; [done|]). by eexists. Qed.

(** A preview image shares the permits, and its decoder keeps its one when the call is
    dropped: an upload waits until it is done. *)
Example a_dropped_decoder_keeps_its_permit :
  let w := run 10 60 1 (staging_run ++ [Go 0 Ok; Start 1 (SendPreview (5, 7)); Go 1 Ok; Go 1 Ok; Go 1 Ok]) (fresh_world 1) in
  permits w = 0%nat /\ permits (run 10 60 1 [Drop 1] w) = 0%nat /\
  permits (run 10 60 1 [Drop 1; Late 1 true] w) = 1%nat /\
  answers (run 10 60 1 [Go 1 Ok; Go 1 Ok] w) !! 1%nat = Some (Refused Invalid) /\
  permits (run 10 60 1 [Go 1 Ok] w) = 1%nat.
Proof. by vm_compute. Qed.

(** With one permit, a second upload waits; the permit of a dropped one is free. *)
Example permits_come_back :
  let w := run 10 60 1 (staging_run ++ [Start 1 (StageUpload a_request false); Go 1 Ok]) (fresh_world 1) in
  permits w = 0%nat /\ tasks w !! 1%nat = Some (MkTask true (Permit a_request false)) /\
  permits (run 10 60 1 [Drop 0] w) = 1%nat.
Proof. by vm_compute. Qed.
