(* ===== verification/LiveSocket.v ===== *)
(** * The live socket

    Models both ends of [GET /v1/ws]: the frames of
    [crates/axon-core/src/live.rs], their wire form and the server's connection task
    ([crates/axon-api/src/ws.rs]) over the broadcast channel they travel, and the
    terminal client that reads them ([clients/tui/src/api.rs]: [decode_ws_frame],
    [read_websocket], [websocket_task]).  A text message is given by the JSON value it
    is the text of; UUID and RFC 3339 syntax are parameters.  Time is not modelled:
    ticks, timeouts and lags are events of the environment. *)

From stdpp Require Import base gmap sets list strings sorting.
From Stdlib Require Import ZArith Lia.
From S2P Require Import Prelude Text RoomDetails BearerGate.

(** ** Frames *)

Inductive VerificationFrameKind := Requested | Sas | Done | Cancelled.

Record LiveEvent := MkEvent {
  e_account : uuid;
  e_event_id : text;
  e_room_id : text;
  e_sender : text;
  e_state_key : option text;
  e_prev_content : option json;
  e_origin_ts : Z;
  e_arrival_order : Z;
  e_type : text;
  e_content : option json;
  e_body : option text;
  e_relates_to : option json;
  e_sender_trust : option text;
}.

Record VerificationFrame := MkVerification {
  vf_account : uuid;
  vf_flow_id : text;
  vf_kind : VerificationFrameKind;
  vf_user : text;
  vf_device : option text;
  vf_emoji : option (list (text * text));
  vf_decimals : option (Z * Z * Z);
  vf_outcome : option text;
}.

Record InviteAddedFrame := MkInvite {
  in_account : uuid;
  in_account_user_id : text;
  in_room_id : text;
  in_name : option text;
  in_avatar_url : option text;
  in_topic : option text;
  in_canonical_alias : option text;
  in_room_type : option text;
  in_inviter_user_id : text;
  in_inviter_display_name : option text;
  in_is_direct : bool;
  in_encrypted : bool;
  in_invited_at : Z;
}.

Inductive LiveFrame :=
| Timeline (e : LiveEvent)
| Verification (f : VerificationFrame)
| SenderTrustChanged (account : uuid) (user_id : text) (violation : bool)
| DeviceState (account device : uuid) (namespace : text) (entries : list (text * option json)) (updated_at : Z)
| Ephemeral (account : uuid) (room_id : option text) (event_type : text) (content : json)
| UnreadCountsChanged (account : uuid) (room_id : text) (notifications highlights : Z)
| RoomDisplayNameChanged (account : uuid) (room_id display_name : text)
| RoomDetailsChanged (account : uuid) (room_id : text) (sources : gset RoomDetailSource)
| SyncStateChanged (account : uuid) (sync_state : text)
| InviteAdded (f : InviteAddedFrame)
| InviteRemoved (account : uuid) (room_id : text)
| AccountDataChanged (account : uuid) (room_id : option text) (event_type : text) (content : json)
| PreferencesChanged (key : text) (value : json) (device : uuid).

(** ** The wire *)

(** A field that is always written, [null] for [None]. *)
Definition opt (v : option json) : json := default JNull v.
Definition opt_str (v : option text) : json := opt (JStr <$> v).

(** A field that is left out for [None]. *)
Definition skip_none (k : text) (v : option json) : list (text * json) :=
  match v with Some v => [(k, v)] | None => [] end.

Definition TIMELINE_EVENT : text := t! "timeline.event".
Definition HEARTBEAT : text := t! "heartbeat".
Definition WS_SUBPROTOCOL : text := t! "axon".
Definition SENDER_TRUST_VIOLATION : text := t! "sender_trust.violation".
Definition DEVICE_STATE_CHANGED : text := t! "device_state.changed".
Definition EPHEMERAL_PASSTHROUGH : text := t! "ephemeral.passthrough".
Definition UNREAD_COUNTS_CHANGED : text := t! "unread_counts.changed".
Definition ROOM_DISPLAY_NAME_CHANGED : text := t! "room_display_name.changed".
Definition ROOM_DETAILS_CHANGED : text := t! "room_details.changed".
Definition ACCOUNT_SYNC_STATE : text := t! "account.sync_state".
Definition INVITE_ADDED : text := t! "invite.added".
Definition INVITE_REMOVED : text := t! "invite.removed".
Definition ACCOUNT_DATA_CHANGED : text := t! "account_data.changed".
Definition PREFERENCES_CHANGED : text := t! "preferences.changed".

Definition verification_type (k : VerificationFrameKind) : text :=
  match k with
  | Requested => t! "verification.requested"
  | Sas => t! "verification.sas"
  | Done => t! "verification.done"
  | Cancelled => t! "verification.cancelled"
  end.

Definition room_detail_source (s : RoomDetailSource) : text :=
  match s with
  | Metadata => t! "metadata"
  | MemberCounts => t! "member_counts"
  | HomeserverDetails => t! "homeserver_details"
  end.

(** A [BTreeSet] of sources, in their order. *)
Definition ordered_sources (s : gset RoomDetailSource) : list RoomDetailSource :=
  filter (fun x => x ∈ s) [Metadata; MemberCounts; HomeserverDetails].

Definition nil_uuid : uuid := 0.

Section Encode.
Context (uuid_text : uuid -> text) (rfc3339 : Z -> text).

Definition WsEnvelope (kind : text) (account : uuid) (payload : json) : json :=
  JObj [(t! "type", JStr kind); (t! "account_id", JStr (uuid_text account)); (t! "payload", payload)].

(** [EventDto::from] a live event, which is neither redacted nor aggregated. *)
Definition event_dto (e : LiveEvent) : json :=
  JObj [(t! "account_id", JStr (uuid_text (e_account e)));
        (t! "event_id", JStr (e_event_id e));
        (t! "room_id", JStr (e_room_id e));
        (t! "sender", JStr (e_sender e));
        (t! "state_key", opt_str (e_state_key e));
        (t! "prev_content", opt (e_prev_content e));
        (t! "arrival_order", JInt (e_arrival_order e));
        (t! "origin_ts", JInt (e_origin_ts e));
        (t! "type", JStr (e_type e));
        (t! "content", opt (e_content e));
        (t! "body", opt_str (e_body e));
        (t! "relates_to", opt (e_relates_to e));
        (t! "redacted", JBool false);
        (t! "redaction_event_id", JNull);
        (t! "sender_trust", opt_str (e_sender_trust e));
        (t! "edited", JBool false);
        (t! "edit_count", JInt 0);
        (t! "latest_edit_ts", JNull);
        (t! "reactions", JNull)].

Definition verification_payload (f : VerificationFrame) : json :=
  JObj ([(t! "flow_id", JStr (vf_flow_id f));
         (t! "user_id", JStr (vf_user f));
         (t! "device_id", opt_str (vf_device f))] ++
        skip_none (t! "emoji")
          ((fun pairs => JArr ((fun p => JObj [(t! "symbol", JStr p.1); (t! "description", JStr p.2)]) <$> pairs))
             <$> vf_emoji f) ++
        skip_none (t! "decimals")
          ((fun d => let '(a, b, c) := d in JArr [JInt a; JInt b; JInt c]) <$> vf_decimals f) ++
        skip_none (t! "reason") (JStr <$> vf_outcome f)).

(** Collected into a map: of two entries with a key the last stays. *)
Definition collect_entries (l : list (text * option json)) : gmap text json :=
  foldl (fun m e => <[e.1 := opt e.2]> m) ∅ l.

Definition device_state_payload (device : uuid) (namespace : text) (entries : list (text * option json))
    (updated_at : Z) : json :=
  JObj [(t! "device_id", JStr (uuid_text device));
        (t! "namespace", JStr namespace);
        (t! "entries", JObj (map_to_list (collect_entries entries)));
        (t! "updated_at", JStr (rfc3339 updated_at))].

(** The payload of an ephemeral event and of account data. *)
Definition room_content_payload (room_id : option text) (event_type : text) (content : json) : json :=
  JObj (skip_none (t! "room_id") (JStr <$> room_id) ++
        [(t! "event_type", JStr event_type); (t! "content", content)]).

Definition invite_payload (f : InviteAddedFrame) : json :=
  JObj [(t! "account_id", JStr (uuid_text (in_account f)));
        (t! "account_user_id", JStr (in_account_user_id f));
        (t! "room_id", JStr (in_room_id f));
        (t! "name", opt_str (in_name f));
        (t! "avatar_url", opt_str (in_avatar_url f));
        (t! "topic", opt_str (in_topic f));
        (t! "canonical_alias", opt_str (in_canonical_alias f));
        (t! "room_type", opt_str (in_room_type f));
        (t! "inviter_user_id", JStr (in_inviter_user_id f));
        (t! "inviter_display_name", opt_str (in_inviter_display_name f));
        (t! "is_direct", JBool (in_is_direct f));
        (t! "encrypted", JBool (in_encrypted f));
        (t! "invited_at", JStr (rfc3339 (in_invited_at f)))].

Definition encode_frame (f : LiveFrame) : json :=
  match f with
  | Timeline e => WsEnvelope TIMELINE_EVENT (e_account e) (event_dto e)
  | Verification v => WsEnvelope (verification_type (vf_kind v)) (vf_account v) (verification_payload v)
  | SenderTrustChanged a user violation =>
      WsEnvelope SENDER_TRUST_VIOLATION a
        (JObj [(t! "user_id", JStr user); (t! "verification_violation", JBool violation)])
  | DeviceState a d namespace entries at_ =>
      WsEnvelope DEVICE_STATE_CHANGED a (device_state_payload d namespace entries at_)
  | Ephemeral a room ty content => WsEnvelope EPHEMERAL_PASSTHROUGH a (room_content_payload room ty content)
  | UnreadCountsChanged a room n h =>
      WsEnvelope UNREAD_COUNTS_CHANGED a
        (JObj [(t! "room_id", JStr room); (t! "notification_count", JInt n); (t! "highlight_count", JInt h)])
  | RoomDisplayNameChanged a room name =>
      WsEnvelope ROOM_DISPLAY_NAME_CHANGED a (JObj [(t! "room_id", JStr room); (t! "display_name", JStr name)])
  | RoomDetailsChanged a room sources =>
      WsEnvelope ROOM_DETAILS_CHANGED a
        (JObj [(t! "room_id", JStr room);
               (t! "sources", JArr (JStr <$> (room_detail_source <$> ordered_sources sources)))])
  | SyncStateChanged a s => WsEnvelope ACCOUNT_SYNC_STATE a (JObj [(t! "sync_state", JStr s)])
  | InviteAdded i => WsEnvelope INVITE_ADDED (in_account i) (invite_payload i)
  | InviteRemoved a room => WsEnvelope INVITE_REMOVED a (JObj [(t! "room_id", JStr room)])
  | AccountDataChanged a room ty content => WsEnvelope ACCOUNT_DATA_CHANGED a (room_content_payload room ty content)
  | PreferencesChanged key v d =>
      WsEnvelope PREFERENCES_CHANGED nil_uuid
        (JObj [(t! "key", JStr key); (t! "value", v); (t! "device_id", JStr (uuid_text d))])
  end.

Definition heartbeat_frame : json := WsEnvelope HEARTBEAT nil_uuid (JObj []).
End Encode.

(** ** Reading a frame: [serde] structs

    A derived struct reads an object by name, ignoring other fields, or an array by
    position; [serde_json] refuses an array that is longer. *)

(** What a field that is absent becomes: an error, [None] of an [Option], or its
    [#[serde(default)]]. *)
Inductive Absent := Required | OptionField | Defaulted.

Definition struct_fields (spec : list (text * Absent)) (v : json) : option (list (option json)) :=
  match v with
  | JObj entries =>
      mapM (fun f => match assoc f.1 entries with
                     | Some x => Some (Some x)
                     | None => match f.2 with Required => None | _ => Some None end
                     end) spec
  | JArr items =>
      if (length spec <? length items)%nat then None
      else mapM (fun i => match items !! i.1 with
                          | Some x => Some (Some x)
                          | None => match i.2.2 with Defaulted => Some None | _ => None end
                          end) (imap pair spec)
  | _ => None
  end.

Definition de_str (v : json) : option text := as_str v.
Definition de_bool (v : json) : option bool := match v with JBool b => Some b | _ => None end.
Definition de_int (lo hi : Z) (v : json) : option Z :=
  match v with JInt n => if (lo <=? n) && (n <=? hi) then Some n else None | _ => None end.
Definition de_i64 : json -> option Z := de_int i64_min i64_max.
Definition de_u64 : json -> option Z := de_int 0 u64_max.
Definition de_u16 : json -> option Z := de_int 0 65535.
Definition de_list {A} (de : json -> option A) (v : json) : option (list A) := as_array v ≫= mapM de.
Definition de_map {A} (de : json -> option A) (v : json) : option (gmap text A) :=
  l ← as_object v; l ← mapM (fun e => a ← de e.2; Some (e.1, a)) l; Some (list_to_map l).

(** A field of type [Option]: [null], like its absence, is [None]. *)
Definition de_option {A} (de : json -> option A) (x : option json) : option (option A) :=
  match x with None | Some JNull => Some None | Some v => Some <$> de v end.
(** A required field, one with a default. *)
Definition de_field {A} (de : json -> option A) (x : option json) : option A := x ≫= de.
Definition de_default {A} (d : A) (de : json -> option A) (x : option json) : option A :=
  match x with None => Some d | Some v => de v end.

(** ** The terminal client *)

Record ReactionTally := MkTally { rt_count : Z; rt_me : bool; rt_senders : list text; rt_mine : list text }.

Record EventDto := MkDto {
  d_account : uuid;
  d_event_id : text;
  d_room_id : text;
  d_sender : text;
  d_state_key : option text;
  d_arrival_order : Z;
  d_origin_ts : Z;
  d_type : text;
  d_content : option json;
  d_body : option text;
  d_relates_to : option json;
  d_redacted : bool;
  d_redaction_event_id : option text;
  d_reactions : option (gmap text ReactionTally);
  d_sender_trust : option text;
}.

Record VerificationFrameDto := MkVerificationDto {
  vd_flow_id : text;
  vd_user_id : text;
  vd_device_id : option text;
  vd_emoji : option (list (text * text));
  vd_decimals : option (Z * Z * Z);
  vd_reason : option text;
}.

Module Tui.
Inductive Frame :=
| RoomDisplayName (account : uuid) (room_id display_name : text)
| Preferences (key : text) (value : json) (device : uuid)
| Connected
| Reconnecting (delay : Z)
| Disconnected
| ProtocolError
| Timeline (e : EventDto)
| Verification (account : uuid) (kind : VerificationFrameKind) (payload : VerificationFrameDto)
| SenderTrustViolation (account : uuid) (user_id : text) (violation : bool)
| DeviceState (account device : uuid) (namespace : text) (entries : gmap text json)
| Ephemeral (account : uuid) (room_id : option text) (event_type : text) (content : json)
| AccountData (account : uuid) (room_id : option text) (event_type : text) (content : json)
| UnreadCounts (account : uuid) (room_id : text) (notifications highlights : Z).
End Tui.

(** [VerificationFrameKind::from_type]. *)
Definition from_type (kind : text) : option VerificationFrameKind :=
  if decide (kind = t! "verification.requested") then Some Requested
  else if decide (kind = t! "verification.sas") then Some Sas
  else if decide (kind = t! "verification.done") then Some Done
  else if decide (kind = t! "verification.cancelled") then Some Cancelled
  else None.

(** The fields of each struct, in order. *)
Definition tally_fields : list (text * Absent) :=
  [(t! "count", Required); (t! "me", Required); (t! "senders", Defaulted);
   (t! "my_event_ids", Defaulted)].
Definition event_fields : list (text * Absent) :=
  [(t! "account_id", Required); (t! "event_id", Required); (t! "room_id", Required);
   (t! "sender", Required); (t! "state_key", Defaulted); (t! "arrival_order", Required);
   (t! "origin_ts", Required); (t! "type", Required); (t! "content", OptionField);
   (t! "body", OptionField); (t! "relates_to", OptionField); (t! "redacted", Required);
   (t! "redaction_event_id", OptionField); (t! "reactions", Defaulted); (t! "sender_trust", Defaulted)].
Definition emoji_fields : list (text * Absent) :=
  [(t! "symbol", Required); (t! "description", Required)].
Definition verification_fields : list (text * Absent) :=
  [(t! "flow_id", Required); (t! "user_id", Defaulted); (t! "device_id", Defaulted);
   (t! "emoji", Defaulted); (t! "decimals", Defaulted); (t! "reason", Defaulted)].
Definition sender_trust_fields : list (text * Absent) :=
  [(t! "user_id", Required); (t! "verification_violation", Defaulted)].
Definition device_state_fields : list (text * Absent) :=
  [(t! "device_id", Required); (t! "namespace", Required); (t! "entries", Defaulted)].
Definition ephemeral_fields : list (text * Absent) :=
  [(t! "room_id", Defaulted); (t! "event_type", Required); (t! "content", Defaulted)].
Definition account_data_fields : list (text * Absent) :=
  [(t! "room_id", Defaulted); (t! "event_type", Required); (t! "content", Required)].
Definition display_name_fields : list (text * Absent) :=
  [(t! "room_id", Required); (t! "display_name", Required)].
Definition unread_fields : list (text * Absent) :=
  [(t! "room_id", Required); (t! "notification_count", Required); (t! "highlight_count", Defaulted)].
Definition preferences_fields : list (text * Absent) :=
  [(t! "key", Required); (t! "value", Required); (t! "device_id", Required)].
Definition envelope_fields : list (text * Absent) :=
  [(t! "type", Required); (t! "account_id", Required); (t! "payload", Required)].

Section Decode.
Context (parse_uuid : text -> option uuid).

Definition de_uuid (v : json) : option uuid := as_str v ≫= parse_uuid.
Definition de_value (v : json) : option json := Some v.

Definition de_tally (v : json) : option ReactionTally :=
  fs ← struct_fields tally_fields v;
  match fs with
  | [count; me; senders; mine] =>
      c ← de_field de_i64 count; m ← de_field de_bool me;
      s ← de_default [] (de_list de_str) senders; i ← de_default [] (de_list de_str) mine;
      Some (MkTally c m s i)
  | _ => None
  end.

Definition de_event (v : json) : option EventDto :=
  fs ← struct_fields event_fields v;
  match fs with
  | [a; ev; room; snd; sk; ord; ts; ty; c; b; rel; red; redby; rs; st] =>
      a ← de_field de_uuid a; ev ← de_field de_str ev; room ← de_field de_str room;
      snd ← de_field de_str snd; sk ← de_option de_str sk; ord ← de_field de_i64 ord;
      ts ← de_field de_i64 ts; ty ← de_field de_str ty; c ← de_option de_value c;
      b ← de_option de_str b; rel ← de_option de_value rel; red ← de_field de_bool red;
      redby ← de_option de_str redby; rs ← de_option (de_map de_tally) rs; st ← de_option de_str st;
      Some (MkDto a ev room snd sk ord ts ty c b rel red redby rs st)
  | _ => None
  end.

Definition de_emoji (v : json) : option (text * text) :=
  fs ← struct_fields emoji_fields v;
  match fs with
  | [s; d] => s ← de_field de_str s; d ← de_field de_str d; Some (s, d)
  | _ => None
  end.

Definition de_triple (v : json) : option (Z * Z * Z) :=
  l ← as_array v;
  match l with
  | [a; b; c] => a ← de_u16 a; b ← de_u16 b; c ← de_u16 c; Some (a, b, c)
  | _ => None
  end.

Definition de_verification (v : json) : option VerificationFrameDto :=
  fs ← struct_fields verification_fields v;
  match fs with
  | [flow; user; dev; em; dec_; why] =>
      flow ← de_field de_str flow; user ← de_default [] de_str user; dev ← de_option de_str dev;
      em ← de_option (de_list de_emoji) em; dec_ ← de_option de_triple dec_; why ← de_option de_str why;
      Some (MkVerificationDto flow user dev em dec_ why)
  | _ => None
  end.

(** The payload types of the other frames, each read and tagged with the account. *)
Definition de_sender_trust (account : uuid) (v : json) : option Tui.Frame :=
  fs ← struct_fields sender_trust_fields v;
  match fs with
  | [u; b] => u ← de_field de_str u; b ← de_default false de_bool b; Some (Tui.SenderTrustViolation account u b)
  | _ => None
  end.

Definition de_device_state (account : uuid) (v : json) : option Tui.Frame :=
  fs ← struct_fields device_state_fields v;
  match fs with
  | [d; n; es] =>
      d ← de_field de_uuid d; n ← de_field de_str n; es ← de_default ∅ (de_map de_value) es;
      Some (Tui.DeviceState account d n es)
  | _ => None
  end.

Definition de_ephemeral (account : uuid) (v : json) : option Tui.Frame :=
  fs ← struct_fields ephemeral_fields v;
  match fs with
  | [r; ty; c] =>
      r ← de_option de_str r; ty ← de_field de_str ty; c ← de_default JNull de_value c;
      Some (Tui.Ephemeral account r ty c)
  | _ => None
  end.

Definition de_account_data (account : uuid) (v : json) : option Tui.Frame :=
  fs ← struct_fields account_data_fields v;
  match fs with
  | [r; ty; c] =>
      r ← de_option de_str r; ty ← de_field de_str ty; c ← de_field de_value c;
      Some (Tui.AccountData account r ty c)
  | _ => None
  end.

Definition de_display_name (account : uuid) (v : json) : option Tui.Frame :=
  fs ← struct_fields display_name_fields v;
  match fs with
  | [r; n] => r ← de_field de_str r; n ← de_field de_str n; Some (Tui.RoomDisplayName account r n)
  | _ => None
  end.

Definition de_unread (account : uuid) (v : json) : option Tui.Frame :=
  fs ← struct_fields unread_fields v;
  match fs with
  | [r; n; h] =>
      r ← de_field de_str r; n ← de_field de_u64 n; h ← de_default 0 de_u64 h;
      Some (Tui.UnreadCounts account r n h)
  | _ => None
  end.

Definition de_preferences (v : json) : option Tui.Frame :=
  fs ← struct_fields preferences_fields v;
  match fs with
  | [k; x; d] =>
      k ← de_field de_str k; x ← de_field de_value x; d ← de_field de_uuid d;
      Some (Tui.Preferences k x d)
  | _ => None
  end.

Definition de_envelope (v : json) : option (text * uuid * json) :=
  fs ← struct_fields envelope_fields v;
  match fs with
  | [k; a; p] => k ← de_field de_str k; a ← de_field de_uuid a; p ← de_field de_value p; Some (k, a, p)
  | _ => None
  end.

Definition or_error (f : option Tui.Frame) : option Tui.Frame := Some (default Tui.ProtocolError f).

(** [None] for a text that is not JSON. *)
Definition decode_ws_frame (text_ : option json) : option Tui.Frame :=
  match text_ ≫= de_envelope with
  | None => Some Tui.ProtocolError
  | Some (kind, account, payload) =>
      match from_type kind with
      | Some k => or_error (Tui.Verification account k <$> de_verification payload)
      | None =>
          if decide (kind = t! "timeline.event") then
            or_error (event ← de_event payload;
                      if bool_decide (account <> d_account event) then None else Some (Tui.Timeline event))
          else if decide (kind = t! "sender_trust.violation") then or_error (de_sender_trust account payload)
          else if decide (kind = t! "device_state.changed") then or_error (de_device_state account payload)
          else if decide (kind = t! "ephemeral.passthrough") then or_error (de_ephemeral account payload)
          else if decide (kind = t! "account_data.changed") then or_error (de_account_data account payload)
          else if decide (kind = t! "room_display_name.changed") then or_error (de_display_name account payload)
          else if decide (kind = t! "unread_counts.changed") then or_error (de_unread account payload)
          else if decide (kind = t! "preferences.changed") then or_error (de_preferences payload)
          else None
      end
  end.
End Decode.

(** ** What the client makes of a frame *)

Definition non_null (v : option json) : option json :=
  match v with Some JNull => None | _ => v end.

(** The frame as the terminal client understands it; [None] for the kinds it does
    not use. *)
Definition seen (f : LiveFrame) : option Tui.Frame :=
  match f with
  | Timeline e =>
      Some (Tui.Timeline (MkDto (e_account e) (e_event_id e) (e_room_id e) (e_sender e) (e_state_key e)
        (e_arrival_order e) (e_origin_ts e) (e_type e) (non_null (e_content e)) (e_body e)
        (non_null (e_relates_to e)) false None None (e_sender_trust e)))
  | Verification v =>
      Some (Tui.Verification (vf_account v) (vf_kind v)
        (MkVerificationDto (vf_flow_id v) (vf_user v) (vf_device v) (vf_emoji v) (vf_decimals v) (vf_outcome v)))
  | SenderTrustChanged a u b => Some (Tui.SenderTrustViolation a u b)
  | DeviceState a d n es _ => Some (Tui.DeviceState a d n (collect_entries es))
  | Ephemeral a r ty c => Some (Tui.Ephemeral a r ty c)
  | UnreadCountsChanged a r n h => Some (Tui.UnreadCounts a r n h)
  | RoomDisplayNameChanged a r n => Some (Tui.RoomDisplayName a r n)
  | AccountDataChanged a r ty c => Some (Tui.AccountData a r ty c)
  | PreferencesChanged k v d => Some (Tui.Preferences k v d)
  | RoomDetailsChanged _ _ _ | SyncStateChanged _ _ | InviteAdded _ | InviteRemoved _ _ => None
  end.

(** The integers are of their Rust types. *)
Definition frame_ok (f : LiveFrame) : Prop :=
  match f with
  | Timeline e => i64_min <= e_origin_ts e <= i64_max /\ i64_min <= e_arrival_order e <= i64_max
  | Verification v =>
      match vf_decimals v with
      | Some (a, b, c) => 0 <= a <= 65535 /\ 0 <= b <= 65535 /\ 0 <= c <= 65535
      | None => True
      end
  | UnreadCountsChanged _ _ n h => 0 <= n <= u64_max /\ 0 <= h <= u64_max
  | _ => True
  end.

Section RoundTrip.
Context (uuid_text : uuid -> text) (rfc3339 : Z -> text) (parse_uuid : text -> option uuid).
Hypothesis parse_uuid_text : forall a, parse_uuid (uuid_text a) = Some a.
#[local] Abbreviation encode := (encode_frame uuid_text rfc3339).
#[local] Abbreviation decode := (decode_ws_frame parse_uuid).

Lemma de_int_in lo hi n : lo <= n <= hi -> de_int lo hi (JInt n) = Some n.
Proof. intros []. cbn. by replace ((lo <=? n) && (n <=? hi)) with true by lia. Qed.

Lemma de_uuid_text a : de_uuid parse_uuid (JStr (uuid_text a)) = Some a.
Proof. apply parse_uuid_text. Qed.

Lemma de_opt_str (v : option text) : de_option de_str (Some (opt_str v)) = Some v.
Proof. by destruct v. Qed.

Lemma de_opt_value v : de_option de_value (Some (opt v)) = Some (non_null v).
Proof. by destruct v as [[]|]. Qed.

(** The fields each payload gives a reader; [vm_compute] looks the names up. *)
Lemma fields_envelope k a p :
  struct_fields envelope_fields (JObj [(t! "type", k); (t! "account_id", a); (t! "payload", p)]) =
  Some [Some k; Some a; Some p].
Proof. by vm_compute. Qed.

Lemma de_envelope_encode kind a payload :
  de_envelope parse_uuid (WsEnvelope uuid_text kind a payload) = Some (kind, a, payload).
Proof. unfold de_envelope, WsEnvelope. rewrite fields_envelope. cbn. by rewrite parse_uuid_text. Qed.

(** The choice by kind, apart from what is chosen. *)
Definition dispatch {A} (kind : text) (verification : VerificationFrameKind -> A)
    (timeline trust device ephemeral account_data name unread preferences other : A) : A :=
  match from_type kind with
  | Some k => verification k
  | None =>
      if decide (kind = t! "timeline.event") then timeline
      else if decide (kind = t! "sender_trust.violation") then trust
      else if decide (kind = t! "device_state.changed") then device
      else if decide (kind = t! "ephemeral.passthrough") then ephemeral
      else if decide (kind = t! "account_data.changed") then account_data
      else if decide (kind = t! "room_display_name.changed") then name
      else if decide (kind = t! "unread_counts.changed") then unread
      else if decide (kind = t! "preferences.changed") then preferences
      else other
  end.

Lemma decode_envelope kind a p :
  decode (Some (WsEnvelope uuid_text kind a p)) =
  dispatch kind (fun k => or_error (Tui.Verification a k <$> de_verification p))
    (or_error (event ← de_event parse_uuid p;
               if bool_decide (a <> d_account event) then None else Some (Tui.Timeline event)))
    (or_error (de_sender_trust a p)) (or_error (de_device_state parse_uuid a p)) (or_error (de_ephemeral a p))
    (or_error (de_account_data a p)) (or_error (de_display_name a p)) (or_error (de_unread a p))
    (or_error (de_preferences parse_uuid p)) None.
Proof. unfold decode_ws_frame. cbn [mbind option_bind]. by rewrite de_envelope_encode. Qed.

Lemma fields_event a ev room snd sk prev ord ts ty c b rel red redby st ed n lts rs :
  struct_fields event_fields
    (JObj [(t! "account_id", a); (t! "event_id", ev); (t! "room_id", room); (t! "sender", snd);
           (t! "state_key", sk); (t! "prev_content", prev); (t! "arrival_order", ord); (t! "origin_ts", ts);
           (t! "type", ty); (t! "content", c); (t! "body", b); (t! "relates_to", rel); (t! "redacted", red);
           (t! "redaction_event_id", redby); (t! "sender_trust", st); (t! "edited", ed);
           (t! "edit_count", n); (t! "latest_edit_ts", lts); (t! "reactions", rs)]) =
  Some [Some a; Some ev; Some room; Some snd; Some sk; Some ord; Some ts; Some ty; Some c; Some b; Some rel;
        Some red; Some redby; Some rs; Some st].
Proof. by vm_compute. Qed.

Lemma de_event_dto e : frame_ok (Timeline e) ->
  de_event parse_uuid (event_dto uuid_text e) =
  Some (MkDto (e_account e) (e_event_id e) (e_room_id e) (e_sender e) (e_state_key e)
    (e_arrival_order e) (e_origin_ts e) (e_type e) (non_null (e_content e)) (e_body e)
    (non_null (e_relates_to e)) false None None (e_sender_trust e)).
Proof.
  intros [Ht Ho]. unfold de_event, event_dto. rewrite fields_event.
  cbn [mbind option_bind de_field]. rewrite de_uuid_text. unfold de_i64. rewrite !de_int_in by done.
  cbn [mbind option_bind de_bool]. rewrite !de_opt_str, !de_opt_value. done.
Qed.

Lemma fields_verification flow user dev em d why :
  struct_fields verification_fields
    (JObj ([(t! "flow_id", flow); (t! "user_id", user); (t! "device_id", dev)] ++
           skip_none (t! "emoji") em ++ skip_none (t! "decimals") d ++ skip_none (t! "reason") why)) =
  Some [Some flow; Some user; Some dev; em; d; why].
Proof. destruct em, d, why; by vm_compute. Qed.

Lemma fields_emoji s d :
  struct_fields emoji_fields (JObj [(t! "symbol", s); (t! "description", d)]) = Some [Some s; Some d].
Proof. by vm_compute. Qed.

Lemma mapM_encoded {A B} (f : B -> option A) (g : A -> B) l :
  (forall x, f (g x) = Some x) -> mapM f (g <$> l) = Some l.
Proof. intros H. induction l as [|x l IH]; [done|]. cbn. rewrite H. cbn. setoid_rewrite IH. done. Qed.

Lemma de_emoji_list l :
  mapM de_emoji ((fun p => JObj [(t! "symbol", JStr p.1); (t! "description", JStr p.2)]) <$> l) = Some l.
Proof.
  apply mapM_encoded. intros [a b]. unfold de_emoji. by rewrite fields_emoji.
Qed.

Lemma de_verification_payload f : frame_ok (Verification f) ->
  de_verification (verification_payload f) =
  Some (MkVerificationDto (vf_flow_id f) (vf_user f) (vf_device f) (vf_emoji f) (vf_decimals f) (vf_outcome f)).
Proof.
  intros Hd. unfold de_verification, verification_payload. rewrite fields_verification.
  cbn [mbind option_bind de_field de_str as_str de_default]. rewrite de_opt_str.
  destruct f as [a fl k u dv em d w]. cbn [vf_emoji vf_decimals vf_outcome vf_flow_id vf_user vf_device frame_ok] in *.
  assert (de_option (de_list de_emoji)
    ((fun pairs => JArr ((fun p => JObj [(t! "symbol", JStr p.1); (t! "description", JStr p.2)]) <$> pairs)) <$> em)
    = Some em) as Hem.
  { destruct em as [l|]; [|done]. cbn -[mapM]. by rewrite de_emoji_list. }
  rewrite Hem. cbn [mbind option_bind]. destruct d as [[[x y] z]|].
  - cbn -[de_int]. unfold de_u16. rewrite !de_int_in by tauto. cbn. by destruct w.
  - cbn. by destruct w.
Qed.

Lemma fields_room_content spec room ty c :
  spec = ephemeral_fields \/ spec = account_data_fields ->
  struct_fields spec (JObj (skip_none (t! "room_id") room ++ [(t! "event_type", ty); (t! "content", c)])) =
  Some [room; Some ty; Some c].
Proof. intros [-> | ->]; destruct room; by vm_compute. Qed.

Lemma fields_device_state d n es at_ :
  struct_fields device_state_fields
    (JObj [(t! "device_id", d); (t! "namespace", n); (t! "entries", es); (t! "updated_at", at_)]) =
  Some [Some d; Some n; Some es].
Proof. by vm_compute. Qed.

Lemma fields_sender_trust u b :
  struct_fields sender_trust_fields (JObj [(t! "user_id", u); (t! "verification_violation", b)]) = Some [Some u; Some b].
Proof. by vm_compute. Qed.

Lemma fields_unread r n h :
  struct_fields unread_fields (JObj [(t! "room_id", r); (t! "notification_count", n); (t! "highlight_count", h)]) =
  Some [Some r; Some n; Some h].
Proof. by vm_compute. Qed.

Lemma fields_display_name r n :
  struct_fields display_name_fields (JObj [(t! "room_id", r); (t! "display_name", n)]) = Some [Some r; Some n].
Proof. by vm_compute. Qed.

Lemma fields_preferences k v d :
  struct_fields preferences_fields (JObj [(t! "key", k); (t! "value", v); (t! "device_id", d)]) =
  Some [Some k; Some v; Some d].
Proof. by vm_compute. Qed.

Lemma de_map_values (m : gmap text json) : de_map de_value (JObj (map_to_list m)) = Some m.
Proof.
  unfold de_map. cbn [as_object mbind option_bind].
  assert (mapM (fun e => a ← de_value e.2; Some (e.1, a)) (map_to_list m) = Some (map_to_list m)) as E.
  { rewrite <- (list_fmap_id (map_to_list m)) at 1. apply mapM_encoded. by intros []. }
  rewrite E. cbn. by rewrite list_to_map_to_list.
Qed.

Lemma from_type_kind k : from_type (verification_type k) = Some k.
Proof. by destruct k. Qed.

Lemma de_opt_skip (v : option text) : de_option de_str (JStr <$> v) = Some v.
Proof. by destruct v. Qed.

(** The names are compared by [vm_compute]. *)
Lemma dispatch_kinds {A} (v : VerificationFrameKind -> A) (x1 x2 x3 x4 x5 x6 x7 x8 x9 : A) :
  let d kind := dispatch kind v x1 x2 x3 x4 x5 x6 x7 x8 x9 in
  d TIMELINE_EVENT = x1 /\ d SENDER_TRUST_VIOLATION = x2 /\ d DEVICE_STATE_CHANGED = x3 /\
  d EPHEMERAL_PASSTHROUGH = x4 /\ d ACCOUNT_DATA_CHANGED = x5 /\ d ROOM_DISPLAY_NAME_CHANGED = x6 /\
  d UNREAD_COUNTS_CHANGED = x7 /\ d PREFERENCES_CHANGED = x8 /\ d ROOM_DETAILS_CHANGED = x9 /\
  d ACCOUNT_SYNC_STATE = x9 /\ d INVITE_ADDED = x9 /\ d INVITE_REMOVED = x9 /\ d HEARTBEAT = x9 /\
  forall k, d (verification_type k) = v k.
Proof. cbv zeta. repeat (split; [by vm_compute|]). intros []; by vm_compute. Qed.

Lemma read_back f : frame_ok f -> decode (Some (encode f)) = seen f.
Proof.
  intros Hok. destruct f as [e|v|a u b|a d n es at_|a r ty c|a r n h|a r n|a r ss|a st|i|a r|a r ty c|k x d];
    cbn [encode_frame seen]; rewrite decode_envelope;
    match goal with |- dispatch _ ?v ?a ?b ?c ?d ?e ?f ?g ?h ?i = _ =>
      destruct (dispatch_kinds v a b c d e f g h i)
        as (H1 & H2 & H3 & H4 & H5 & H6 & H7 & H8 & H9 & H10 & H11 & H12 & H13 & H14) end.
  - rewrite H1, de_event_dto by done. cbn. by rewrite bool_decide_false by tauto.
  - rewrite H14, de_verification_payload by done. done.
  - rewrite H2. unfold de_sender_trust. by rewrite fields_sender_trust.
  - rewrite H3. unfold de_device_state, device_state_payload. rewrite fields_device_state.
    cbn [mbind option_bind de_field de_default]. by rewrite de_uuid_text, de_map_values.
  - rewrite H4. unfold de_ephemeral, room_content_payload. rewrite fields_room_content by auto.
    cbn [mbind option_bind]. by rewrite de_opt_skip.
  - rewrite H7. unfold de_unread. rewrite fields_unread. cbn [mbind option_bind de_field de_default].
    destruct Hok. unfold de_u64. by rewrite !de_int_in.
  - rewrite H6. unfold de_display_name. by rewrite fields_display_name.
  - done.
  - done.
  - done.
  - done.
  - rewrite H5. unfold de_account_data, room_content_payload.
    rewrite fields_room_content by auto. cbn [mbind option_bind]. by rewrite de_opt_skip.
  - rewrite H8. unfold de_preferences. rewrite fields_preferences.
    cbn [mbind option_bind de_field]. by rewrite de_uuid_text.
Qed.

Lemma heartbeat_unseen : decode (Some (heartbeat_frame uuid_text)) = None.
Proof.
  unfold heartbeat_frame. rewrite decode_envelope.
  match goal with |- dispatch _ ?v ?a ?b ?c ?d ?e ?f ?g ?h ?i = _ =>
    apply (dispatch_kinds v a b c d e f g h i) end.
Qed.

(** [C9] What the server writes for a frame the terminal client reads back: the same
    frame, with a [null] content taken for none, the entries of a device's state
    collected by key, and nothing at all for a heartbeat and for the kinds the client
    does not use; never a protocol error.  So frames with the same text look the same
    to it. *)
Theorem frames_are_read_back f :
  frame_ok f ->
  decode (Some (encode f)) = seen f /\ decode (Some (encode f)) <> Some Tui.ProtocolError /\
  decode (Some (heartbeat_frame uuid_text)) = None /\
  forall g, frame_ok g -> encode g = encode f -> seen g = seen f.
Proof.
  intros Hf. rewrite read_back by done. split_and!; [done|by destruct f|apply heartbeat_unseen|].
  intros g Hg E. by rewrite <- !read_back, E.
Qed.

End RoundTrip.

(** ** Authenticating the upgrade *)

(** The first [bearer.] entry of [Sec-WebSocket-Protocol], unless it is empty. *)
Definition bearer_subprotocol (header : option text) : option text :=
  raw ← header;
  token ← head (omap (strip_prefix (t! "bearer.")) (trim <$> split_char 44 raw));
  if bool_decide (token = []) then None else Some token.

Inductive Verdict := Valid | Revoked | VerifyError.
Inductive Upgrade := MissingToken | InvalidToken | UpgradeFailed | Upgraded (token : text).

(** The part of [ws_handler] before the socket exists; [verify] is the verifier's
    answer for a token. *)
Definition ws_handler (authorization protocols : option text) (verify : text -> Verdict) : Upgrade :=
  match match bearer_from_headers authorization with
        | Some token => Some token
        | None => bearer_subprotocol protocols
        end with
  | None => MissingToken
  | Some token =>
      match verify token with
      | Valid => Upgraded token
      | Revoked => InvalidToken
      | VerifyError => UpgradeFailed
      end
  end.

(** ** The connection task *)

Inductive Message := LiveText (f : LiveFrame) | HeartbeatText | CloseMessage.
Inductive SendOutcome := Delivered | PeerClosed | TimedOut.
Inductive ClientMessage := ClientClose | ClientGone | ClientError | ClientOther.
Inductive Phase := Selecting | Verifying | Writing (m : Message) | Over.

(** One connection and the bus it reads: [log] is everything published, [next] the
    receiver's position in it.  For the statements: the positions [taken] from the bus
    and those [lost] to a lag. *)
Record Conn := MkConn {
  log : list LiveFrame;
  bus_open : bool;
  next : nat;
  phase : Phase;
  written : list Message;
  taken : list nat;
  lost : list nat;
}.

Inductive Event :=
| Publish (f : LiveFrame)
| BusDropped
| RevalidateTick
| Verified (v : Verdict)
| BeatTick
| Receive
| FromClient (m : ClientMessage)
| WriteDone (o : SendOutcome).

Section Pump.
Context (capacity : nat).

Definition set_phase (p : Phase) (c : Conn) : Conn :=
  MkConn (log c) (bus_open c) (next c) p (written c) (taken c) (lost c).

(** [rx.recv()]: a receiver more than the channel's capacity behind skips to the
    oldest frame still there. *)
Definition receive (c : Conn) : Conn :=
  match log c !! next c with
  | None => if bus_open c then c else set_phase Over c
  | Some f =>
      let oldest := (length (log c) - capacity)%nat in
      if (next c <? oldest)%nat then
        MkConn (log c) (bus_open c) oldest (phase c) (written c) (taken c)
          (lost c ++ seq (next c) (oldest - next c))
      else MkConn (log c) (bus_open c) (S (next c)) (Writing (LiveText f)) (written c)
             (taken c ++ [next c]) (lost c)
  end.

(** [send_with_timeout], over: only a delivered frame keeps the loop going. *)
Definition write_done (m : Message) (o : SendOutcome) (c : Conn) : Conn :=
  match o with
  | Delivered =>
      MkConn (log c) (bus_open c) (next c) (match m with CloseMessage => Over | _ => Selecting end)
        (written c ++ [m]) (taken c) (lost c)
  | _ => set_phase Over c
  end.

(** [pump], one branch of its [select!] or one await inside a branch at a time. *)
Definition pump (e : Event) (c : Conn) : Conn :=
  match e, phase c with
  | Publish f, _ => MkConn (if bus_open c then log c ++ [f] else log c) (bus_open c) (next c) (phase c)
                      (written c) (taken c) (lost c)
  | BusDropped, _ => MkConn (log c) false (next c) (phase c) (written c) (taken c) (lost c)
  | RevalidateTick, Selecting => set_phase Verifying c
  | Verified v, Verifying =>
      set_phase (match v with Revoked => Writing CloseMessage | _ => Selecting end) c
  | BeatTick, Selecting => set_phase (Writing HeartbeatText) c
  | Receive, Selecting => receive c
  | FromClient m, Selecting => match m with ClientOther => c | _ => set_phase Over c end
  | WriteDone o, Writing m => write_done m o c
  | _, _ => c
  end.

Definition run (l : list Event) (c : Conn) : Conn := foldl (fun c e => pump e c) c l.

(** [live.subscribe()], before the upgrade completes. *)
Definition subscribe (published : list LiveFrame) : Conn :=
  MkConn published true (length published) Selecting [] [] [].
End Pump.

(** ** The terminal client's reader *)

Inductive Incoming := IncomingText (v : option json) | IncomingClose | IncomingOther | IncomingError.

Section Client.
Context (parse_uuid : text -> option uuid).

Fixpoint read_websocket (messages : list Incoming) : list Tui.Frame :=
  match messages with
  | [] => []
  | IncomingText v :: rest =>
      match decode_ws_frame parse_uuid v with
      | Some f => f :: read_websocket rest
      | None => read_websocket rest
      end
  | IncomingClose :: _ | IncomingError :: _ => []
  | IncomingOther :: rest => read_websocket rest
  end.

Definition LIVE_RECONNECT_INITIAL_BACKOFF : Z := secs 1.
Definition LIVE_RECONNECT_MAX_BACKOFF : Z := secs 30.

Definition next_live_reconnect_backoff (current : Z) : Z :=
  Z.min (dur_saturating_mul current 2) LIVE_RECONNECT_MAX_BACKOFF.

(** An attempt to connect: it failed, or the messages until the connection ended. *)
Inductive Attempt := ConnectFailed | Session (messages : list Incoming).

Fixpoint reconnect (backoff : Z) (attempts : list Attempt) : list Tui.Frame :=
  match attempts with
  | [] => []
  | ConnectFailed :: rest => Tui.Reconnecting backoff :: reconnect (next_live_reconnect_backoff backoff) rest
  | Session messages :: rest =>
      let backoff := LIVE_RECONNECT_INITIAL_BACKOFF in
      Tui.Connected :: read_websocket messages ++
      Tui.Reconnecting backoff :: reconnect (next_live_reconnect_backoff backoff) rest
  end.

(** [None]: the URL of the socket cannot be built. *)
Definition websocket_task (url : option text) (attempts : list Attempt) : list Tui.Frame :=
  match url with
  | None => [Tui.Disconnected]
  | Some _ => reconnect LIVE_RECONNECT_INITIAL_BACKOFF attempts
  end.
End Client.

(** ** The live tail *)

Definition live_of (l : list Message) : list LiveFrame :=
  omap (fun m => match m with LiveText f => Some f | _ => None end) l.

Lemma live_of_app l1 l2 : live_of (l1 ++ l2) = live_of l1 ++ live_of l2.
Proof. apply omap_app. Qed.

Section Tail.
Context (capacity : nat) (published : list LiveFrame).
#[local] Abbreviation start := (length published).

(** The frames at some positions of the bus. *)
Definition at_positions (c : Conn) (l : list nat) : list LiveFrame := omap (fun i => log c !! i) l.

(** What of [taken] the client has, where the connection is. *)
Definition delivered (c : Conn) (sent : list nat) : Prop :=
  live_of (written c) = at_positions c sent /\
  match phase c with
  | Writing (LiveText f) => exists i, taken c = sent ++ [i] /\ log c !! i = Some f
  | Over => taken c = sent \/ exists i, taken c = sent ++ [i]
  | _ => taken c = sent
  end.

Record tail_ok (c : Conn) : Prop := {
  t_next : (start <= next c <= length (log c))%nat;
  t_all : taken c ++ lost c ≡ₚ seq start (next c - start);
  t_sorted : StronglySorted lt (taken c);
  t_bound : Forall (fun i => i < next c)%nat (taken c);
  t_lost : Forall (fun i => i + capacity < length (log c))%nat (lost c);
  t_sent : exists sent, delivered c sent;
}.

Lemma at_positions_grow c c' f l : log c' = log c ++ [f] -> Forall (fun i => i < length (log c))%nat l ->
  at_positions c' l = at_positions c l.
Proof.
  intros E. induction 1 as [|i l Hi _ IH]; [done|]. unfold at_positions in *. cbn. rewrite IH, E.
  by rewrite lookup_app_l.
Qed.

Lemma sent_bound c sent : tail_ok c -> delivered c sent -> Forall (fun i => i < length (log c))%nat sent.
Proof.
  intros H [_ Hd].
  assert (taken c = sent \/ exists i, taken c = sent ++ [i]) as Ht
    by (destruct (phase c) as [| |[f| |]|]; naive_solver).
  apply Forall_forall. intros i Hi. assert (i ∈ taken c) as Hi'.
  { destruct Ht as [->|[j ->]]; [done|]. apply elem_of_app. by left. }
  pose proof (t_bound _ H) as Hb. rewrite Forall_forall in Hb.
  apply Hb in Hi'. destruct (t_next _ H). lia.
Qed.

(** A step that changes neither the bus nor what is taken from it. *)
Lemma tail_phase c c' : tail_ok c -> log c' = log c -> next c' = next c -> taken c' = taken c -> lost c' = lost c ->
  (forall sent, delivered c sent -> exists sent', delivered c' sent') -> tail_ok c'.
Proof.
  intros [H1 H2 H3 H4 H5 [sent H6]] El En Et Eo Hd. split; rewrite ?El, ?En, ?Et, ?Eo; try done. eauto.
Qed.

Lemma tail_publish c f : tail_ok c -> tail_ok (pump capacity (Publish f) c).
Proof.
  intros H. cbn. destruct (bus_open c); [|by apply (tail_phase c); eauto].
  pose proof (sent_bound c) as Hb. destruct H as [H1 H2 H3 H4 H5 [sent H6]].
  assert (Forall (fun i => i < length (log c))%nat sent) as Hs by (apply Hb; [by split; eauto|done]).
  split; cbn; rewrite ?length_app; cbn; try done; [lia| |].
  - eapply Forall_impl; [exact H5|]. cbn. lia.
  - exists sent. destruct H6 as [E Hd]. split.
    + cbn [written]. rewrite E. symmetry. by eapply at_positions_grow.
    + cbn [phase taken log]. destruct (phase c) as [| |[f'| |]|]; try done. destruct Hd as (i & Et & Ei). exists i. split; [done|].
      by apply lookup_app_l_Some.
Qed.

Lemma tail_receive c : (0 < capacity)%nat -> tail_ok c -> phase c = Selecting -> tail_ok (receive capacity c).
Proof.
  intros Hcap H Hp. unfold receive. destruct (log c !! next c) as [f|] eqn:Ef.
  - pose proof (lookup_lt_Some _ _ _ Ef) as Hlt. destruct H as [H1 H2 H3 H4 H5 [sent [E Hd]]]. rewrite Hp in Hd.
    destruct (next c <? length (log c) - capacity)%nat eqn:Ho; [apply Nat.ltb_lt in Ho|apply Nat.ltb_ge in Ho].
    + split; cbn; try done; [lia| | | |].
      * rewrite app_assoc, H2. replace (length (log c) - capacity - start)%nat
          with ((next c - start) + (length (log c) - capacity - next c))%nat by lia.
        rewrite seq_app. by replace (start + (next c - start))%nat with (next c) by lia.
      * eapply Forall_impl; [exact H4|]. cbn. lia.
      * apply Forall_app. split; [done|]. apply Forall_seq. lia.
      * exists sent. split; [done|]. cbn. by rewrite Hp.
    + split; cbn; try done; [lia| | | |].
      * rewrite <- (Permutation_cons_append (taken c)). cbn. rewrite H2.
        replace (S (next c) - start)%nat with ((next c - start) + 1)%nat by lia. rewrite seq_app. cbn.
        replace (start + (next c - start))%nat with (next c) by lia. by rewrite Permutation_cons_append.
      * apply StronglySorted_app_2; [|done|repeat constructor].
        intros i j Hi Hj. apply list_elem_of_singleton in Hj as ->. rewrite Forall_forall in H4. by apply H4.
      * apply Forall_app. split; [|repeat constructor; lia]. eapply Forall_impl; [exact H4|]. cbn. lia.
      * exists sent. split; [done|]. cbn. exists (next c). by rewrite Hd.
  - destruct (bus_open c); [done|]. apply (tail_phase c); try done. intros sent [E Hd]. exists sent.
    split; [done|]. cbn. left. by rewrite Hp in Hd.
Qed.

Lemma tail_write_done c m o : tail_ok c -> phase c = Writing m -> tail_ok (write_done m o c).
Proof.
  intros H Hp. destruct o; apply (tail_phase c); try done; intros sent [E Hd]; rewrite Hp in Hd.
  - destruct m as [f| |].
    + destruct Hd as (i & Et & Ei). exists (sent ++ [i]). split; [|done]. cbn [write_done written].
      rewrite live_of_app, E. unfold at_positions. rewrite omap_app. cbn. by rewrite Ei.
    + exists sent. split; [|done]. cbn [write_done written]. rewrite live_of_app, E. cbn. by rewrite app_nil_r.
    + exists sent. split; [|by left]. cbn [write_done written]. rewrite live_of_app, E. cbn. by rewrite app_nil_r.
  - exists sent. split; [done|]. cbn. destruct m; [|by left..]. right. destruct Hd as (i & ? & _). by exists i.
  - exists sent. split; [done|]. cbn. destruct m; [|by left..]. right. destruct Hd as (i & ? & _). by exists i.
Qed.

Lemma tail_pump e c : (0 < capacity)%nat -> tail_ok c -> tail_ok (pump capacity e c).
Proof.
  intros Hcap H.
  assert (forall p, phase c = Selecting \/ phase c = Verifying -> (forall f, p <> Writing (LiveText f)) ->
    tail_ok (set_phase p c)) as Hset.
  { intros p Hp Hn. apply (tail_phase c); try done. intros sent [E Hd]. exists sent. split; [done|].
    cbn. assert (taken c = sent) as Ht by (destruct Hp as [Hp|Hp]; by rewrite Hp in Hd).
    destruct p as [| |[f| |]|]; try done; [by destruct (Hn f)|by left]. }
  destruct e as [f| | |v| | |m|o]; [by apply tail_publish|..]; cbn [pump].
  - by apply (tail_phase c); eauto.
  - destruct (phase c) eqn:Hp; try done. apply Hset; auto.
  - destruct (phase c) eqn:Hp; try done. apply Hset; [auto|]. by destruct v.
  - destruct (phase c) eqn:Hp; try done. apply Hset; auto.
  - destruct (phase c) eqn:Hp; try done. by apply tail_receive.
  - destruct (phase c) eqn:Hp; try done. destruct m; try done; apply Hset; auto.
  - destruct (phase c) eqn:Hp; try done. by apply tail_write_done.
Qed.

Lemma tail_run l : (0 < capacity)%nat -> tail_ok (run capacity l (subscribe published)).
Proof.
  intros Hcap. assert (tail_ok (subscribe published)) as H.
  { split; cbn; try done; [by rewrite Nat.sub_diag|constructor|]. by exists []. }
  unfold run. revert H. generalize (subscribe published). induction l as [|e l IH]; intros c H; [done|].
  cbn. apply IH. by apply tail_pump.
Qed.

Lemma rest_of c sent : delivered c sent ->
  exists rest, taken c = sent ++ rest /\ (length rest <= 1)%nat /\ (phase c = Selecting -> rest = []) /\
    live_of (written c) = at_positions c sent.
Proof.
  intros [E Hd].
  assert (taken c = sent /\ True \/ exists i, taken c = sent ++ [i] /\ phase c <> Selecting) as [[Ht _]|(i & Ht & Hn)]
    by (destruct (phase c) as [| |[f| |]|]; naive_solver).
  - exists []. split_and!; [by rewrite app_nil_r|cbn; lia|done|done].
  - exists [i]. split_and!; [done|cbn; lia|by intros|done].
Qed.

(** [C22] Whatever happens on the bus and the socket, in whatever order: the live
    frames the client has accepted are the frames at increasing positions of the bus,
    all published after the subscription, each as it was published.  Every position
    the receiver has passed was either taken, and then written, except perhaps the
    last one (in flight, or refused by a client that is gone), or lost to a lag, and
    then at least a channel's capacity of later frames had been published. *)
Theorem live_tail_is_faithful l :
  (0 < capacity)%nat ->
  let c := run capacity l (subscribe published) in
  taken c ++ lost c ≡ₚ seq start (next c - start) /\ StronglySorted lt (taken c) /\
  Forall (fun i => i + capacity < length (log c))%nat (lost c) /\
  exists sent rest, taken c = sent ++ rest /\ (length rest <= 1)%nat /\
    (phase c = Selecting -> rest = []) /\ live_of (written c) = omap (fun i => log c !! i) sent.
Proof.
  intros Hcap c. pose proof (tail_run l Hcap) as [H1 H2 H3 H4 H5 [sent Hd]]. fold c in H1, H2, H3, H4, H5, Hd.
  split_and!; [done..|]. exists sent.
  by apply rest_of.
Qed.

End Tail.

(** ** The client at the other end *)

Section Composition.
Context (uuid_text : uuid -> text) (rfc3339 : Z -> text) (parse_uuid : text -> option uuid).
Hypothesis parse_uuid_text : forall a, parse_uuid (uuid_text a) = Some a.

(** A message as it arrives. *)
Definition wire (m : Message) : Incoming :=
  match m with
  | LiveText f => IncomingText (Some (encode_frame uuid_text rfc3339 f))
  | HeartbeatText => IncomingText (Some (heartbeat_frame uuid_text))
  | CloseMessage => IncomingClose
  end.

(** Nothing is written after the closing message. *)
Definition close_last (c : Conn) : Prop :=
  CloseMessage ∉ written c \/ phase c = Over /\ exists l, written c = l ++ [CloseMessage] /\ CloseMessage ∉ l.

Lemma close_last_same c c' : close_last c -> written c' = written c -> (phase c = Over -> phase c' = Over) -> close_last c'.
Proof. intros [H|[Hp H]] E Ho; [left|right]; rewrite E; auto. Qed.

Lemma close_last_pump capacity e c : close_last c -> close_last (pump capacity e c).
Proof.
  intros H. destruct e as [f| | |v| | |m|o]; cbn [pump]; try by apply (close_last_same c).
  all: destruct (phase c) as [| |m'|] eqn:Hp; try done; try by apply (close_last_same c).
  - apply (close_last_same c); [done|done|by rewrite Hp].
  - apply (close_last_same c); [done|done|by rewrite Hp].
  - apply (close_last_same c); [done|done|by rewrite Hp].
  - unfold receive. repeat case_match; apply (close_last_same c); try done; by rewrite Hp.
  - destruct m; apply (close_last_same c); try done; by rewrite Hp.
  - destruct o; [|by apply (close_last_same c)..]. destruct H as [H|[Hp' _]]; [|congruence].
    destruct m'; [left|left|right]; cbn; [set_solver|set_solver|]. split; [done|]. by exists (written c).
Qed.

Lemma close_last_run capacity l c : close_last c -> close_last (run capacity l c).
Proof. unfold run. revert c. induction l as [|e l IH]; intros c H; [done|]. apply IH. by apply close_last_pump. Qed.

Lemma read_wire ms rest : CloseMessage ∉ ms -> Forall frame_ok (live_of ms) ->
  read_websocket parse_uuid ((wire <$> ms) ++ rest) = omap seen (live_of ms) ++ read_websocket parse_uuid rest.
Proof.
  induction ms as [|m ms IH]; intros Hc Hf; [done|]. assert (CloseMessage ∉ ms) as Hc' by set_solver.
  destruct m as [f| |]; [| |set_solver].
  - apply Forall_cons in Hf as [Hf Hfs]. specialize (IH Hc' Hfs). rewrite fmap_cons, <- app_comm_cons. cbn [wire read_websocket].
    rewrite (read_back uuid_text rfc3339 parse_uuid parse_uuid_text) by done.
    change (live_of (LiveText f :: ms)) with (f :: live_of ms). cbn [omap list_omap].
    rewrite IH. by destruct (seen f).
  - specialize (IH Hc' Hf). rewrite fmap_cons, <- app_comm_cons. cbn [wire read_websocket].
    rewrite (heartbeat_unseen uuid_text parse_uuid parse_uuid_text). by rewrite IH.
Qed.

(** [C30] A terminal client on the socket shows exactly what it understands of the
    frames the connection took from the bus, in their order: a prefix that lacks at
    most the last one taken. *)
Theorem client_shows_the_tail capacity published l :
  let c := run capacity l (subscribe published) in
  (0 < capacity)%nat -> Forall frame_ok (log c) ->
  exists sent rest, taken c = sent ++ rest /\ (length rest <= 1)%nat /\
    read_websocket parse_uuid (wire <$> written c) = omap (fun i => log c !! i ≫= seen) sent.
Proof.
  intros c Hcap Hok. pose proof (tail_run capacity published l Hcap) as [_ _ _ _ _ [sent Hd]].
  fold c in Hd. destruct (rest_of _ _ Hd) as (rest & ? & ? & _ & E).
  exists sent, rest. split_and!; [done..|].
  assert (Forall frame_ok (live_of (written c))) as Hf.
  { rewrite E. apply Forall_forall. intros f. unfold at_positions. rewrite list_elem_of_omap.
    intros (i & _ & Ei). rewrite Forall_lookup in Hok. by eapply Hok. }
  assert (omap seen (live_of (written c)) = omap (fun i => log c !! i ≫= seen) sent) as Eo.
  { rewrite E. unfold at_positions. clear. induction sent as [|i sent IH]; [done|]. cbn.
    destruct (log c !! i); cbn; by rewrite IH. }
  assert (close_last c) as [Hc|(_ & ms & Hw & Hc)] by (apply close_last_run; left; set_solver).
  - rewrite <- (app_nil_r (wire <$> written c)), read_wire by done. by rewrite app_nil_r.
  - rewrite Hw in *. rewrite live_of_app in *. cbn in Hf, Eo. rewrite app_nil_r in *.
    rewrite fmap_app, read_wire by done. cbn. by rewrite app_nil_r.
Qed.
End Composition.

(** ** Revocation *)

(** A connection that was told its token is revoked: it is writing the closing
    message, or over. *)
Definition closing (c : Conn) : Prop := phase c = Writing CloseMessage \/ phase c = Over.

Lemma closing_pump capacity e c : closing c ->
  closing (pump capacity e c) /\ next (pump capacity e c) = next c /\ taken (pump capacity e c) = taken c /\
  (written (pump capacity e c) = written c \/
   phase c = Writing CloseMessage /\ phase (pump capacity e c) = Over /\
   written (pump capacity e c) = written c ++ [CloseMessage]).
Proof.
  unfold closing. intros [Hp|Hp]; destruct e; cbn [pump]; rewrite ?Hp; cbn; auto 10.
  destruct o; cbn; auto 10.
Qed.

Lemma closing_run capacity l c : closing c ->
  taken (run capacity l c) = taken c /\
  (written (run capacity l c) = written c \/
   phase c = Writing CloseMessage /\ written (run capacity l c) = written c ++ [CloseMessage]).
Proof.
  unfold run. revert c. induction l as [|e l IH]; intros c Hc; [by auto|]. cbn [foldl].
  destruct (closing_pump capacity e c Hc) as (Hc' & _ & Ht & Hw). destruct (IH _ Hc') as [Ht' Hw'].
  split; [congruence|]. destruct Hw as [Hw|(Hp & Hp' & Hw)].
  - destruct Hw' as [Hw'|[Hp' Hw']]; [left; congruence|]. destruct Hc as [Hp|Hp]; [right; split; congruence|].
    exfalso. revert Hp'. destruct e; cbn [pump]; rewrite Hp; cbn; congruence.
  - destruct Hw' as [Hw'|[Hp'' _]]; [right; split; congruence|congruence].
Qed.

(** The header's entries before the one a token comes from have no [bearer.] prefix. *)
Definition offered (protocols : option text) (token : text) : Prop :=
  exists raw before entry after, protocols = Some raw /\ split_char 44 raw = before ++ entry :: after /\
    strip_prefix (t! "bearer.") (trim entry) = Some token /\
    Forall (fun e => strip_prefix (t! "bearer.") (trim e) = None) before.

Lemma head_omap {A B} (f : A -> option B) l y : head (omap f l) = Some y ->
  exists before x after, l = before ++ x :: after /\ f x = Some y /\ Forall (fun x => f x = None) before.
Proof.
  induction l as [|x l IH]; cbn; [done|]. destruct (f x) as [z|] eqn:E.
  - intros [= <-]. by exists [], x, l.
  - intros H. destruct (IH H) as (b & x' & a & -> & ? & ?). exists (x :: b), x', a. split_and!; auto.
Qed.

Lemma bearer_subprotocol_offered protocols token :
  bearer_subprotocol protocols = Some token -> token <> [] /\ offered protocols token.
Proof.
  unfold bearer_subprotocol. rewrite bind_Some. intros (raw & -> & H). rewrite bind_Some in H.
  destruct H as (t & H & Ht). case_bool_decide as Hn; [done|]. injection Ht as ->. split; [done|].
  apply head_omap in H as (b & x & a & E & Hx & Hb).
  apply fmap_app_inv in E as (before & rest & -> & E & Hs).
  symmetry in E. apply fmap_cons_inv in E as (entry & after & -> & -> & ->).
  exists raw, before, entry, after. split_and!; try done. by apply Forall_fmap in Hb.
Qed.

(** [C34] A socket is opened only for a token that verifies: the one of the
    [Authorization] header, or without it the first [bearer.] entry the client offered.
    Once a check finds the token revoked, nothing more is taken from the bus, and
    nothing is written but one closing message. *)
Theorem socket_needs_a_live_token capacity c l authorization protocols verify :
  (forall token, ws_handler authorization protocols verify = Upgraded token ->
     verify token = Valid /\ token <> [] /\
     (bearer_from_headers authorization = Some token \/
      bearer_from_headers authorization = None /\ offered protocols token)) /\
  (phase c = Verifying ->
   let c' := run capacity (Verified Revoked :: l) c in
   taken c' = taken c /\ (written c' = written c \/ written c' = written c ++ [CloseMessage])).
Proof.
  split.
  - intros token. unfold ws_handler. destruct (bearer_from_headers authorization) as [t|] eqn:Eh.
    + destruct (verify t) eqn:Ev; try done. intros [= <-]. split_and!; [done| |by left].
      revert Eh. unfold bearer_from_headers. rewrite bind_Some. intros (v & -> & H). rewrite bind_Some in H.
      destruct H as ([s t'] & _ & H). repeat case_match; simplify_eq. by case_bool_decide.
    + destruct (bearer_subprotocol protocols) as [t|] eqn:Es; [|done].
      apply bearer_subprotocol_offered in Es as [? ?].
      destruct (verify t) eqn:Ev; try done. intros [= <-]. auto.
  - intros Hp. unfold run. cbn [foldl pump]. rewrite Hp.
    destruct (closing_run capacity l (set_phase (Writing CloseMessage) c)) as [Ht Hw]; [by left|].
    unfold run in Ht, Hw. rewrite Ht. split; [done|]. destruct Hw as [->|[_ ->]]; auto.
Qed.

(** ** Reconnecting *)

Definition delays (l : list Tui.Frame) : list Z :=
  omap (fun f => match f with Tui.Reconnecting d => Some d | _ => None end) l.

(** How many attempts have ended since the last that connected. *)
Fixpoint spans (k : Z) (attempts : list Attempt) : list Z :=
  match attempts with
  | [] => []
  | ConnectFailed :: rest => k :: spans (k + 1) rest
  | Session _ :: rest => 0 :: spans 1 rest
  end.

Definition backoff_at (k : Z) : Z := Z.min (secs (2 ^ k)) (secs 30).

Lemma next_backoff k : 0 <= k -> next_live_reconnect_backoff (backoff_at k) = backoff_at (k + 1).
Proof.
  intros Hk. unfold next_live_reconnect_backoff, backoff_at, dur_saturating_mul, LIVE_RECONNECT_MAX_BACKOFF.
  rewrite Z.pow_add_r by lia. change (2 ^ 1) with 2. assert (0 < 2 ^ k) by (apply Z.pow_pos_nonneg; lia).
  unfold secs, dur_max, nanos_per_sec, u64_max. change (10 ^ 9) with 1000000000.
  change (2 ^ 64) with 18446744073709551616. lia.
Qed.

(** A decoded frame is not a notice of the client's own. *)
Definition quiet (f : option Tui.Frame) : Prop :=
  match f with Some (Tui.Reconnecting _) => False | _ => True end.

Lemma quiet_bind {A} (x : option A) k : (forall a, quiet (k a)) -> quiet (x ≫= k).
Proof. intros H. destruct x; cbn; [apply H|done]. Qed.

Lemma quiet_error f : quiet f -> quiet (or_error f).
Proof. by destruct f. Qed.

Ltac quiet_tac := repeat first [ progress (apply quiet_bind; intros) | case_match ]; done.

Lemma decode_quiet parse_uuid v : quiet (decode_ws_frame parse_uuid v).
Proof.
  unfold decode_ws_frame. destruct (v ≫= de_envelope parse_uuid) as [[[kind a] p]|]; [|done].
  destruct (from_type kind) as [k|]; [apply quiet_error; by destruct (de_verification p)|].
  repeat (case_match; [apply quiet_error|]); [..|done].
  - apply quiet_bind. intros ?. by case_match.
  - unfold de_sender_trust. quiet_tac.
  - unfold de_device_state. quiet_tac.
  - unfold de_ephemeral. quiet_tac.
  - unfold de_account_data. quiet_tac.
  - unfold de_display_name. quiet_tac.
  - unfold de_unread. quiet_tac.
  - unfold de_preferences. quiet_tac.
Qed.

Lemma read_no_delay parse_uuid ms : delays (read_websocket parse_uuid ms) = [].
Proof.
  induction ms as [|[v| | |] ms IH]; cbn; try done. pose proof (decode_quiet parse_uuid v) as Hq.
  destruct (decode_ws_frame parse_uuid v) as [f|]; [|done]. cbn. by destruct f.
Qed.

(** The client waits one second after a connection that ended and then twice as
    long after each failed attempt, never more than thirty seconds. *)
Theorem reconnects_back_off parse_uuid url attempts :
  delays (websocket_task parse_uuid (Some url) attempts) = backoff_at <$> spans 0 attempts.
Proof.
  cbn [websocket_task]. change LIVE_RECONNECT_INITIAL_BACKOFF with (backoff_at 0).
  enough (forall k, 0 <= k -> delays (reconnect parse_uuid (backoff_at k) attempts) = backoff_at <$> spans k attempts)
    as H by by apply H.
  induction attempts as [|[|ms] attempts IH]; intros k Hk; [done| |].
  - cbn [reconnect spans fmap list_fmap]. rewrite next_backoff by done. cbn [delays omap list_omap].
    f_equal. apply IH. lia.
  - cbn [reconnect spans]. rewrite fmap_cons. unfold delays in *. cbn [omap list_omap].
    rewrite omap_app. fold (delays (read_websocket parse_uuid ms)). rewrite read_no_delay. cbn [app omap list_omap].
    change LIVE_RECONNECT_INITIAL_BACKOFF with (backoff_at 0). rewrite next_backoff by lia. f_equal.
    apply (IH 1). lia.
Qed.

(** ** Runs *)

Definition toy_uuid_text (a : uuid) : text := [a].
Definition toy_parse_uuid (t : text) : option uuid := match t with [a] => Some a | _ => None end.

Definition unread (n : Z) : LiveFrame := UnreadCountsChanged 7 (t! "!r:x") n 0.

(** With room for one frame the client that is writing the first loses the second. *)
Definition lagging_run : list Event :=
  [Publish (unread 1); Receive; Publish (unread 2); Publish (unread 3); WriteDone Delivered; BeatTick;
   WriteDone Delivered; Receive; Receive; WriteDone Delivered].

Lemma frames_are_read_back_witness :
  decode_ws_frame toy_parse_uuid (Some (encode_frame toy_uuid_text (fun n => [n])
    (DeviceState 7 8 (t! "drafts") [(t! "a", Some JNull); (t! "a", Some (JInt 1)); (t! "b", None)] 5))) =
  Some (Tui.DeviceState 7 8 (t! "drafts") (<[t! "a" := JInt 1]> {[t! "b" := JNull]})).
Proof.
  refine (eq_trans (proj1 (frames_are_read_back toy_uuid_text (fun n => [n]) toy_parse_uuid _
    (DeviceState 7 8 (t! "drafts") [(t! "a", Some JNull); (t! "a", Some (JInt 1)); (t! "b", None)] 5) I)) _);
    [done|by vm_compute].
Defined.

Lemma live_tail_is_faithful_witness :
  let c := run 1 lagging_run (subscribe []) in
  taken c = [0; 2]%nat /\ lost c = [1]%nat /\ StronglySorted lt (taken c).
Proof.
  intros c. split; [by vm_compute|]. split; [by vm_compute|].
  apply (live_tail_is_faithful 1 [] lagging_run). lia.
Defined.

Lemma client_shows_the_tail_witness :
  exists sent rest, [0; 2]%nat = sent ++ rest /\ (length rest <= 1)%nat /\
    read_websocket toy_parse_uuid (wire toy_uuid_text (fun n => [n]) <$> written (run 1 lagging_run (subscribe []))) =
    omap (fun i => log (run 1 lagging_run (subscribe [])) !! i ≫= seen) sent.
Proof.
  apply (client_shows_the_tail toy_uuid_text (fun n => [n]) toy_parse_uuid (fun a => eq_refl) 1 [] lagging_run); [lia|].
  repeat constructor; vm_compute; intros [=].
Defined.

(** A revoked token: the frame published meanwhile is not sent. *)
Lemma socket_needs_a_live_token_witness :
  let c := run 4 [Publish (unread 1); RevalidateTick] (subscribe []) in
  taken (run 4 [Verified Revoked; WriteDone Delivered; Receive] c) = [].
Proof.
  intros c.
  destruct (socket_needs_a_live_token 4 c [WriteDone Delivered; Receive] None None (fun _ => Valid)) as [_ H].
  destruct H as [Ht _]; [by vm_compute|]. rewrite Ht. by vm_compute.
Defined.

(** A browser's token is the first offered, even when that one is empty. *)
Example subprotocol_tokens :
  bearer_subprotocol (Some (t! "axon, bearer.tok")) = Some (t! "tok") /\
  bearer_subprotocol (Some (t! "bearer., bearer.tok")) = None /\ bearer_subprotocol (Some (t! "axon")) = None.
Proof. by vm_compute. Qed.

Example backoffs :
  delays (websocket_task toy_parse_uuid (Some []) (replicate 7 ConnectFailed ++ [Session []; ConnectFailed])) =
  secs <$> [1; 2; 4; 8; 16; 30; 30; 1; 2].
Proof. by vm_compute. Qed.
