(* ===== verification/SyncHealth.v ===== *)
(** * Sync health

    Models [crates/axon-sync/src/sync_health.rs], the readiness of each account, and
    the tasks that write it: the state watch of [run_account] and the restarts of
    [supervise_account] ([engine.rs]), and the removal in [reap_task]
    ([lifecycle.rs]).  A task computes a label under the lock and publishes it
    afterwards; between the two anything else may happen.  The SDK's state streams are
    the environment's. *)

From stdpp Require Import base gmap sets list strings.
From Stdlib Require Import ZArith Lia.
From S2P Require Import Prelude Text.

Inductive SyncState := Idle | Running | Offline | Terminated | Error.

Definition as_str (s : SyncState) : text :=
  match s with
  | Idle => t! "idle"
  | Running => t! "running"
  | Offline => t! "offline"
  | Terminated => t! "terminated"
  | Error => t! "error"
  end.

Record AccountSyncStatus := MkStatus { state : SyncState; since : Z }.

Definition readiness_label (state : option SyncState) (ready : bool) : text :=
  match state with
  | Some Offline => t! "offline"
  | Some Error | Some Terminated => t! "connecting"
  | Some Idle | Some Running => if ready then t! "ready" else t! "syncing"
  | None => if ready then t! "ready" else t! "connecting"
  end.

Record Inner := MkInner { status : gmap uuid AccountSyncStatus; ready : gset uuid }.

Definition label (h : Inner) (a : uuid) : text :=
  readiness_label (state <$> status h !! a) (bool_decide (a ∈ ready h)).

(** The new label, if a write changed it. *)
Definition changed (a : uuid) (h h' : Inner) : option text :=
  if bool_decide (label h' a <> label h a) then Some (label h' a) else None.

Definition set (a : uuid) (s : SyncState) (now : Z) (h : Inner) : Inner * option text :=
  let h' := MkInner (<[a := MkStatus s now]> (status h)) (ready h) in (h', changed a h h').

Definition set_error (a : uuid) (now : Z) (h : Inner) : Inner * option text :=
  let h' := MkInner (<[a := MkStatus Error now]> (status h)) (ready h ∖ {[a]}) in (h', changed a h h').

Definition mark_ready (a : uuid) (h : Inner) : Inner * option text :=
  let h' := MkInner (status h) ({[a]} ∪ ready h) in (h', changed a h h').

Definition sync_state (h : Inner) (a : uuid) : text := label h a.

Definition remove (a : uuid) (h : Inner) : Inner := MkInner (delete a (status h)) (ready h ∖ {[a]}).

Definition snapshot (h : Inner) : list (uuid * AccountSyncStatus) := map_to_list (status h).

(** ** The account's task *)

(** [Watching]: in the loop of [run_account], with its [sync_ready].  [Failing]: the
    run is over with an error and the client is being evicted.  [BackingOff]: the
    error is recorded. *)
Inductive Stage := Starting | Watching (sync_ready : bool) | Failing | BackingOff | Stopped.

(** What the loop's [select!] yields, of what bears on health. *)
Inductive Watched := RoomListRunning | ServiceState (s : option SyncState) | CancelSeen.

(** [pending]: labels computed and not yet published; [bus]: published frames. *)
Record World := MkWorld {
  health : Inner;
  clock : Z;
  stages : gmap uuid Stage;
  pending : gmap uuid text;
  bus : list (uuid * text);
}.

Inductive Event :=
| Spawn (a : uuid)
| Started (a : uuid) (room_list_running : bool)
| StartFailed (a : uuid)
| Watch (a : uuid) (x : Watched)
| Evicted (a : uuid)
| Cancelled (a : uuid)
| Publish (a : uuid)
| Restart (a : uuid)
| Reap (a : uuid)
| Tick (d : Z).

Definition write (a : uuid) (g : Stage) (r : Inner * option text) (w : World) : World :=
  MkWorld r.1 (clock w) (<[a := g]> (stages w))
    (match r.2 with Some l => <[a := l]> (pending w) | None => pending w end) (bus w).

Definition move (a : uuid) (g : Stage) (w : World) : World :=
  MkWorld (health w) (clock w) (<[a := g]> (stages w)) (pending w) (bus w).

(** One turn of the loop of [run_account]. *)
Definition watch (a : uuid) (sync_ready : bool) (x : Watched) (w : World) : World :=
  match x with
  | CancelSeen => move a Stopped w
  | RoomListRunning => if sync_ready then w else write a (Watching true) (mark_ready a (health w)) w
  | ServiceState None => move a Failing w
  | ServiceState (Some s) =>
      write a (match s with Error | Terminated => Failing | _ => Watching sync_ready end)
        (set a s (clock w) (health w)) w
  end.

(** The part of a task's step after its last publication. *)
Definition act (e : Event) (g : Stage) (w : World) : World :=
  match e, g with
  | Started a running, Starting =>
      if running then write a (Watching true) (mark_ready a (health w)) w else move a (Watching false) w
  | StartFailed a, Starting => move a Failing w
  | Watch a x, Watching sync_ready => watch a sync_ready x w
  | Evicted a, Failing => write a BackingOff (set_error a (clock w) (health w)) w
  | Cancelled a, (Starting | Failing | BackingOff) => move a Stopped w
  | Restart a, BackingOff => move a Starting w
  | _, _ => w
  end.

Definition actor (e : Event) : option uuid :=
  match e with
  | Started a _ | StartFailed a | Watch a _ | Evicted a | Cancelled a | Restart a => Some a
  | _ => None
  end.

Definition step (e : Event) (w : World) : World :=
  match e with
  | Spawn a => if bool_decide (is_Some (stages w !! a)) then w else move a Starting w
  | Publish a =>
      match pending w !! a with
      | Some l => MkWorld (health w) (clock w) (stages w) (delete a (pending w)) (bus w ++ [(a, l)])
      | None => w
      end
  | Reap a => MkWorld (remove a (health w)) (clock w) (stages w) (pending w) (bus w)
  | Tick d => MkWorld (health w) (clock w + Z.max 0 d) (stages w) (pending w) (bus w)
  | _ =>
      match actor e with
      | Some a =>
          match stages w !! a, pending w !! a with
          | Some g, None => act e g w
          | _, _ => w
          end
      | None => w
      end
  end.

Definition run (l : list Event) (w : World) : World := foldl (fun w e => step e w) w l.
Definition fresh_world : World := MkWorld (MkInner ∅ ∅) 0 ∅ ∅ [].

(** ** Labels and frames *)

(** What a client that follows the frames takes the account's label for: the last one
    published, [connecting] before any. *)
Definition shown (a : uuid) (l : list (uuid * text)) : text :=
  foldl (fun s f => if decide (f.1 = a) then f.2 else s) (t! "connecting") l.

Lemma shown_app a l1 l2 : shown a (l1 ++ l2) = foldl (fun s f => if decide (f.1 = a) then f.2 else s) (shown a l1) l2.
Proof. apply foldl_app. Qed.

Lemma label_other h h' a : status h' !! a = status h !! a -> (a ∈ ready h' <-> a ∈ ready h) -> label h' a = label h a.
Proof. intros E Hr. unfold label. by rewrite E, (bool_decide_ext _ _ Hr). Qed.

(** A published label is followed by another one. *)
Fixpoint alternating (a : uuid) (prev : text) (l : list (uuid * text)) : Prop :=
  match l with
  | [] => True
  | (b, x) :: rest => if decide (b = a) then x <> prev /\ alternating a x rest else alternating a prev rest
  end.

Lemma alternating_snoc a prev l b x :
  alternating a prev (l ++ [(b, x)]) <->
  alternating a prev l /\ (b = a -> x <> foldl (fun s f => if decide (f.1 = a) then f.2 else s) prev l).
Proof.
  revert prev. induction l as [|[c y] l IH]; intros prev; cbn.
  - destruct (decide (b = a)); naive_solver.
  - destruct (decide (c = a)); rewrite IH; naive_solver.
Qed.

Section Account.
Context (a : uuid).

(** In a world where the account was not reaped. *)
Record followed (w : World) : Prop := {
  f_now : match pending w !! a with
          | Some l => l = label (health w) a /\ l <> shown a (bus w)
          | None => label (health w) a = shown a (bus w)
          end;
  f_alternating : alternating a (t! "connecting") (bus w);
  f_ready : a ∈ ready (health w) <->
            match stages w !! a with
            | Some (Watching r) => r = true
            | Some Starting | Some BackingOff | None => False
            | Some Failing | Some Stopped => a ∈ ready (health w)
            end;
}.

Lemma followed_fresh : followed fresh_world.
Proof. by split. Qed.

(** A step that is not about the account. *)
Lemma followed_other w w' :
  followed w -> label (health w') a = label (health w) a -> (a ∈ ready (health w') <-> a ∈ ready (health w)) ->
  stages w' !! a = stages w !! a -> pending w' !! a = pending w !! a -> bus w' = bus w -> followed w'.
Proof.
  intros [H1 H2 H3] El Er Es Ep Eb. split; rewrite ?Es, ?Ep, ?Eb, ?El; [done|done|].
  rewrite Er, H3. destruct (stages w !! a) as [[]|]; tauto.
Qed.

(** A write of the account's own task, which has nothing to publish. *)
Lemma followed_write w g h :
  followed w -> pending w !! a = None ->
  (a ∈ ready h <-> match g with Watching r => r = true | Starting | BackingOff => False | _ => a ∈ ready h end) ->
  followed (write a g (h, changed a (health w) h) w).
Proof.
  intros [H1 H2 H3] Ep Hr. rewrite Ep in H1. split; cbn [write pending health bus stages fst snd].
  - unfold changed. case_bool_decide as Hd; [rewrite lookup_insert_eq, <- H1; done|].
    rewrite Ep. congruence.
  - done.
  - rewrite lookup_insert_eq. done.
Qed.

Lemma followed_move w g :
  followed w -> (a ∈ ready (health w) <->
    match g with Watching r => r = true | Starting | BackingOff => False | _ => a ∈ ready (health w) end) ->
  followed (move a g w).
Proof. intros [H1 H2 H3] Hr. split; cbn; [done|done|]. by rewrite lookup_insert_eq. Qed.

(** Another account's step leaves this one's view alone. *)
Lemma act_other e g b w : actor e = Some b -> b <> a -> followed w -> followed (act e g w).
Proof.
  intros He Hn H.
  assert (forall g, followed (move b g w)) as Hmove.
  { intros g'. apply (followed_other w); cbn; try done. by apply lookup_insert_ne. }
  assert (forall g h, status h !! a = status (health w) !! a -> (a ∈ ready h <-> a ∈ ready (health w)) ->
    followed (write b g (h, changed b (health w) h) w)) as Hwrite.
  { intros g' h E Hr. apply (followed_other w); cbn; try done; [by apply label_other|by apply lookup_insert_ne|].
    unfold changed. case_bool_decide; [by apply lookup_insert_ne|done]. }
  destruct e as [|c run|c|c x|c|c|c|c|c|]; try discriminate He; injection He as ->; destruct g; cbn [act]; auto.
  - destruct run; [apply Hwrite; cbn; [done|set_solver]|auto].
  - destruct x as [|[s|]|]; cbn [watch]; auto.
    + case_match; [done|]. apply Hwrite; cbn; [done|set_solver].
    + apply Hwrite; cbn; [by apply lookup_insert_ne|done].
  - apply Hwrite; cbn; [by apply lookup_insert_ne|set_solver].
Qed.

(** The account's own. *)
Lemma act_own e g w : actor e = Some a -> stages w !! a = Some g -> pending w !! a = None -> followed w ->
  followed (act e g w).
Proof.
  intros He Es Ep H. pose proof (f_ready _ H) as Hr. rewrite Es in Hr.
  destruct e as [|c run|c|c x|c|c|c|c|c|]; try discriminate He; injection He as ->; destruct g; cbn [act]; auto.
  - destruct run; [apply followed_write; [done..|]; cbn; set_solver|]. apply followed_move; [done|]. naive_solver.
  - apply followed_move; done.
  - destruct x as [|[s|]|]; cbn [watch].
    + case_match; [done|]. apply followed_write; [done..|]. cbn. set_solver.
    + apply followed_write; [done..|]. by destruct s.
    + by apply followed_move.
    + by apply followed_move.
  - apply followed_write; [done..|]. cbn. set_solver.
  - by apply followed_move.
  - by apply followed_move.
  - by apply followed_move.
  - apply followed_move; [done|]. naive_solver.
Qed.

Lemma followed_step e w : e <> Reap a -> followed w -> followed (step e w).
Proof.
  intros Hn H.
  assert (forall b, actor e = Some b ->
    followed (match stages w !! b, pending w !! b with Some g, None => act e g w | _, _ => w end)) as Hact.
  { intros b Hb. destruct (stages w !! b) as [g|] eqn:Es; [|done]. destruct (pending w !! b) eqn:Ep; [done|].
    destruct (decide (b = a)) as [->|Hne]; [by apply act_own|by eapply act_other]. }
  destruct e as [b|b run|b|b x|b|b|b|b|b|d]; cbn [step actor]; try by apply Hact.
  - case_bool_decide as Hs; [done|]. destruct (decide (b = a)) as [->|Hne].
    + apply followed_move; [done|]. pose proof (f_ready _ H) as Hr.
      destruct (stages w !! a) eqn:E; [by destruct Hs|]. done.
    + apply (followed_other w); cbn; try done. by apply lookup_insert_ne.
  - destruct (pending w !! b) as [x|] eqn:Ep; [|done]. destruct H as [H1 H2 H3].
    destruct (decide (b = a)) as [->|Hne].
    + rewrite Ep in H1. destruct H1 as [-> Hl]. split; cbn [health pending bus stages].
      * rewrite lookup_delete_eq, shown_app. cbn [foldl fst snd]. by rewrite decide_True.
      * apply alternating_snoc. split; [done|]. intros _. exact Hl.
      * done.
    + split; cbn [health pending bus stages].
      * rewrite lookup_delete_ne by done. rewrite shown_app. cbn [foldl fst snd]. by rewrite decide_False.
      * apply alternating_snoc. split; [done|]. by intros ->.
      * done.
  - assert (b <> a) as Hne by congruence. apply (followed_other w); try done.
    + apply label_other; cbn; [by apply lookup_delete_ne|set_solver].
    + cbn. set_solver.
  - by apply (followed_other w).
Qed.

Lemma followed_run l w : Reap a ∉ l -> followed w -> followed (run l w).
Proof.
  unfold run. revert w. induction l as [|e l IH]; intros w Hn H; [done|]. cbn. apply IH; [set_solver|].
  apply followed_step; [|done]. set_solver.
Qed.
End Account.

(** [C37] While an account is not reaped, however its task, its restarts and the other
    accounts' tasks interleave: a client that follows the [account.sync_state] frames
    has the account's current label as soon as the one computed last is published, no
    frame repeats the one before it, and the account counts as ready while its loop
    runs exactly if the room list was seen running in this run of it. *)
Theorem frames_carry_the_readiness a l :
  Reap a ∉ l ->
  let w := run l fresh_world in
  (pending w !! a = None -> sync_state (health w) a = shown a (bus w)) /\
  (forall x, pending w !! a = Some x -> sync_state (health w) a = x) /\
  alternating a (t! "connecting") (bus w) /\
  (forall r, stages w !! a = Some (Watching r) -> r = bool_decide (a ∈ ready (health w))).
Proof.
  intros Hn w. destruct (followed_run a l fresh_world Hn (followed_fresh a)) as [H1 H2 H3]. fold w in H1, H2, H3.
  split_and!; [| |done|].
  - intros E. by rewrite E in H1.
  - intros x E. rewrite E in H1. by destruct H1.
  - intros r E. rewrite E in H3. destruct r; [rewrite bool_decide_true by tauto|rewrite bool_decide_false by naive_solver]; done.
Qed.

(** ** Runs *)

(** A start, an outage, an error and the restart after it. *)
Definition outage_run : list Event :=
  [Spawn 1; Started 1 false; Watch 1 (ServiceState (Some Running)); Publish 1; Watch 1 RoomListRunning; Publish 1;
   Watch 1 (ServiceState (Some Offline)); Publish 1; Watch 1 (ServiceState (Some Running)); Publish 1;
   Watch 1 (ServiceState (Some Error)); Publish 1; Evicted 1; Restart 1; Started 1 false;
   Watch 1 (ServiceState (Some Running)); Publish 1].

Lemma frames_carry_the_readiness_witness :
  (bus (run outage_run fresh_world)).*2 =
    [t! "syncing"; t! "ready"; t! "offline"; t! "ready"; t! "connecting"; t! "syncing"] /\
  sync_state (health (run outage_run fresh_world)) 1 = t! "syncing".
Proof.
  split; [by vm_compute|].
  rewrite (proj1 (frames_carry_the_readiness 1 outage_run
    ltac:(repeat (apply not_elem_of_cons; split; [done|]); apply not_elem_of_nil))) by by vm_compute.
  by vm_compute.
Defined.

(** The entry is removed before the task is cancelled: a transition the task sees in
    between brings the account back, for good once the task has stopped. *)
Example reaped_account_comes_back :
  let w := run [Spawn 1; Started 1 true; Publish 1; Reap 1; Watch 1 (ServiceState (Some Offline)); Publish 1;
                Watch 1 CancelSeen; Tick 1000] fresh_world in
  stages w !! 1 = Some Stopped /\ snapshot (health w) = [(1, MkStatus Offline 0)].
Proof. by vm_compute. Qed.
