(* ===== verification/RichText.v ===== *)
(** * Wrapping styled text (terminal client)

    clients/tui/src/wrap.rs: styled lines, their building blocks and
    [wrap_rich_lines], which breaks them to the width of the screen.

    [textwrap::wrap] and [unicode_width] are libraries: [textwrap_wrap] and
    [width_cjk] are parameters.  What the code needs of the first is
    [TextwrapLaws]; of the second, nothing.  A [Style] is ratatui's: any type
    with decidable equality and a default.  The loop of the source has no bound,
    so [wrap_loop] has fuel and running out of it is an outcome of its own;
    [wrapping_ends_without_newlines] says when the fuel does not matter. *)

From stdpp Require Import base gmap sets list strings.
From Stdlib Require Import ZArith Lia.
From S2P Require Import Prelude Text.

(** A run that returns, panics, or has used up its fuel. *)
Inductive outcome (A : Type) : Type :=
| Returns (a : A)
| Panics
| OutOfFuel.
Arguments Returns {A}.
Arguments Panics {A}.
Arguments OutOfFuel {A}.

#[export] Instance outcome_ret : MRet outcome := @Returns.
#[export] Instance outcome_bind : MBind outcome := fun A B f x =>
  match x with Returns a => f a | Panics => Panics | OutOfFuel => OutOfFuel end.

(** A partial step whose failure is a panic: an index out of range, [expect]. *)
Definition or_panic {A} (x : option A) : outcome A :=
  match x with Some a => Returns a | None => Panics end.

Definition newline : Z := 10.
Definition space : Z := 32.

Section RichText.
Context {Style : Type} `{EqDecision Style} (style_default : Style).
Context (textwrap_wrap : nat -> text -> list text).
Context (width_cjk : Z -> option nat).

Record RichSpan := rich_span {
  rs_text : text;
  rs_style : Style;
  repeat_on_wrap : bool
}.
Abbreviation line := (list RichSpan).

(** [RichSpan::new] and [RichSpan::gutter]. *)
Definition new_span (t : text) (s : Style) : RichSpan := rich_span t s false.
Definition gutter (t : text) (s : Style) : RichSpan := rich_span t s true.

Definition plain_rich_lines (t : text) : list line :=
  let lines := map (fun l => [new_span l style_default]) (split_char newline t) in
  match lines with [] => [[]] | _ => lines end.

(** ** Building lines *)

(** [last_mut]: change the last element, if there is one. *)
Fixpoint update_last {A} (f : A -> A) (l : list A) : option (list A) :=
  match l with
  | [] => None
  | [x] => Some [f x]
  | x :: l => cons x <$> update_last f l
  end.

(** The body of [push_rich_span] on the current line. *)
Definition same_look (a b : RichSpan) : bool :=
  bool_decide (rs_style a = rs_style b) && bool_decide (repeat_on_wrap a = repeat_on_wrap b).
Fixpoint push_span (span : RichSpan) (l : line) : line :=
  match l with
  | [] => [span]
  | [last] =>
      if same_look last span
      then [rich_span (rs_text last ++ rs_text span) (rs_style last) (repeat_on_wrap last)]
      else [last; span]
  | x :: l => x :: push_span span l
  end.

Definition push_rich_span (lines : list line) (span : RichSpan) : option (list line) :=
  match rs_text span with
  | [] => Some lines
  | _ => update_last (push_span span) lines
  end.

Definition push_rich_line_break (lines : list line) : list line := lines ++ [[]].

Definition null {A} (l : list A) : bool := match l with [] => true | _ => false end.

Definition spans_empty (l : line) : bool := forallb (fun s => null (rs_text s)) l.

Definition rich_current_line_is_empty (lines : list line) : bool :=
  match head (rev lines) with None => true | Some l => spans_empty l end.

Definition push_rich_line_break_if_needed (lines : list line) : list line :=
  if rich_current_line_is_empty lines then lines else push_rich_line_break lines.

(** The two loops of [trim_empty_rich_edges]: from the front, then from the
    back, each leaving at least one line. *)
Fixpoint drop_empty_front (lines : list line) : list line :=
  match lines with
  | [] :: ((_ :: _) as rest) => drop_empty_front rest
  | _ => lines
  end.
Definition trim_empty_rich_edges (lines : list line) : list line :=
  rev (drop_empty_front (rev (drop_empty_front lines))).

Definition rich_lines_are_empty (lines : list line) : bool :=
  forallb (forallb (fun s => null (trim (rs_text s)))) lines.

Fixpoint push_rich_spans (lines : list line) (spans : line) : option (list line) :=
  match spans with
  | [] => Some lines
  | s :: spans => lines ← push_rich_span lines s; push_rich_spans lines spans
  end.
Definition append_rich_lines (lines extra : list line) : option (list line) :=
  match extra with
  | [] => Some lines
  | first :: extra => lines ← push_rich_spans lines first; Some (lines ++ extra)
  end.

Definition line_text (l : line) : text := l ≫= rs_text.
Definition rich_lines_text (lines : list line) : text := join [newline] (map line_text lines).

(** ** Wrapping *)

Definition char_width (c : Z) : nat := default 1%nat (width_cjk c).
Definition display_width (l : line) : nat := sum_list (map char_width (line_text l)).

(** [push_wrapped_char]. *)
Fixpoint push_wrapped_char (l : line) (ch : Z) (style : Style) : line :=
  match l with
  | [] => [new_span [ch] style]
  | [last] =>
      if decide (rs_style last = style)
      then [rich_span (rs_text last ++ [ch]) (rs_style last) (repeat_on_wrap last)]
      else [last; new_span [ch] style]
  | x :: l => x :: push_wrapped_char l ch style
  end.

(** The leading spans that repeat, and the body. *)
Fixpoint split_gutter (l : line) : line * line :=
  match l with
  | s :: l' =>
      if repeat_on_wrap s
      then let '(p, b) := split_gutter l' in (s :: p, b)
      else ([], l)
  | [] => ([], [])
  end.

Definition char_styles (body : line) : list Style :=
  body ≫= (fun s => map (fun _ => rs_style s) (rs_text s)).

(** The styled spans of the characters from [cursor] on. *)
Fixpoint style_row (styles : list Style) (cursor : nat) (row : line) (chars : text) : option line :=
  match chars with
  | [] => Some row
  | ch :: chars =>
      style ← styles !! cursor;
      style_row styles (S cursor) (push_wrapped_char row ch style) chars
  end.

(** Past the spaces at the cursor. *)
Fixpoint skip_spaces (rest : text) (cursor : nat) : nat :=
  match rest with
  | c :: rest => if c =? space then skip_spaces rest (S cursor) else cursor
  | [] => cursor
  end.

Section Widths.
Context (first_width continuation_width : nat).

Fixpoint wrap_loop (fuel : nat) (plain : text) (styles : list Style) (cursor : nat)
    (is_first : bool) (out : list line) : outcome (list line) :=
  if (length plain <=? cursor)%nat then Returns out else
  match fuel with
  | O => OutOfFuel
  | S fuel =>
      let seg_width := if is_first && null out then first_width else continuation_width in
      match textwrap_wrap seg_width (drop cursor plain) with
      | [] => Returns (out ++ [[]])
      | tw_line :: _ =>
          row ← or_panic (style_row styles cursor [] tw_line);
          let cursor := (cursor + length tw_line)%nat in
          wrap_loop fuel plain styles (skip_spaces (drop cursor plain) cursor) false (out ++ [row])
      end
  end.

(** The post-pass: one character, one overflowing line, all lines. *)
Definition break_char (style : Style) (st : list line * line * nat) (ch : Z) : list line * line * nat :=
  let '(final, current, remaining) := st in
  let cw := char_width ch in
  let '(final, current, remaining) :=
    if (remaining <? cw)%nat then (final ++ [current], [], continuation_width)
    else (final, current, remaining) in
  (final, push_wrapped_char current ch style, remaining - cw)%nat.

Definition break_line (final : list line) (max_w : nat) (l : line) : list line :=
  let '(final, current, _) :=
    foldl (fun st s => foldl (break_char (rs_style s)) st (rs_text s)) (final, [], max_w) l in
  if null current then final else final ++ [current].

Fixpoint fit_lines (idx : nat) (final out : list line) : list line :=
  match out with
  | [] => final
  | l :: out =>
      let max_w := if (idx =? 0)%nat && null final then first_width else continuation_width in
      let final := if (display_width l <=? max_w)%nat then final ++ [l]
                   else break_line final max_w l in
      fit_lines (S idx) final out
  end.
End Widths.

(** One line of the input, as the loop body of [wrap_rich_lines] handles it. *)
Definition wrap_line (fuel first_width continuation_width : nat) (raw : line) : outcome (list line) :=
  if null raw || spans_empty raw then Returns [[]] else
  let '(prefix, body) := split_gutter raw in
  let prefix_width := display_width prefix in
  let first_width := Nat.max (first_width - prefix_width) 1 in
  let continuation_width := Nat.max (continuation_width - prefix_width) 1 in
  out_lines ← wrap_loop first_width continuation_width fuel (line_text body) (char_styles body)
                0 true [];
  let final := fit_lines first_width continuation_width 0 [] out_lines in
  let final := if null final then [[]] else final in
  Returns (map (app prefix) final).

Fixpoint wrap_lines (fuel first_width continuation_width : nat) (wrapped lines : list line)
    : outcome (list line) :=
  match lines with
  | [] => Returns wrapped
  | raw :: lines =>
      rows ← wrap_line fuel first_width continuation_width raw;
      wrap_lines fuel first_width continuation_width (wrapped ++ rows) lines
  end.

Definition wrap_rich_lines (fuel : nat) (lines : list line) (first_width continuation_width : nat)
    : outcome (list line) :=
  let first_width := Nat.max first_width 1 in
  let continuation_width := Nat.max continuation_width 1 in
  wrapped ← wrap_lines fuel first_width continuation_width [] lines;
  Returns (if null wrapped then [[]] else wrapped).

(** [rich_lines_to_spans]: [Span::styled] keeps the text and the style. *)
Definition rich_lines_to_spans (lines : list line) : list (list (text * Style)) :=
  map (map (fun s => (rs_text s, rs_style s))) lines.

End RichText.
Arguments RichSpan : clear implicits.

(** ** What the wrapping library promises

    The first line it returns is the start of the text, within its first line
    and with spaces dropped only at its end; so it is empty only before a space
    or a newline. *)
Class TextwrapLaws (textwrap_wrap : nat -> text -> list text) : Prop := {
  textwrap_first : forall w s, s <> [] ->
    exists l ls, textwrap_wrap w s = l :: ls /\ newline ∉ l /\ exists r, s = l ++ r;
  textwrap_progress : forall w c s l ls,
    c <> space -> c <> newline -> textwrap_wrap w (c :: s) = l :: ls -> l <> []
}.

(** ** Rows as cut text *)

Section Cells.
Context {Style : Type} `{EqDecision Style}.

(** A line is its characters, each with its style. *)
Abbreviation cell := (Z * Style)%type (only parsing).
Definition cells (l : list (RichSpan Style)) : list cell :=
  l ≫= (fun s => map (fun c => (c, rs_style s)) (rs_text s)).

Definition is_space (x : cell) : Prop := x.1 = space.

(** The rows are the text, cut at places where only spaces are dropped. *)
Inductive cut : list cell -> list (list cell) -> Prop :=
| cut_end : cut [] []
| cut_row row gap rest rows :
    Forall is_space gap -> cut rest rows -> cut (row ++ gap ++ rest) (row :: rows).

Lemma cells_app a b : cells (a ++ b) = cells a ++ cells b.
Proof. apply bind_app. Qed.

Lemma cells_text l : map fst (cells l) = line_text l.
Proof.
  induction l as [|s l IH]; [done|]. unfold cells, line_text in *. cbn. rewrite map_app, IH.
  f_equal. rewrite map_map. cbn. apply map_id.
Qed.

Lemma cells_styles l : map snd (cells l) = char_styles l.
Proof.
  induction l as [|s l IH]; [done|]. unfold cells, char_styles in *. cbn. rewrite map_app, IH.
  f_equal. by rewrite map_map.
Qed.

Lemma line_text_length l : length (line_text l) = length (cells l).
Proof. rewrite <- cells_text. apply length_map. Qed.

Lemma cells_push_wrapped_char l ch style :
  cells (push_wrapped_char l ch style) = cells l ++ [(ch, style)].
Proof.
  induction l as [|s [|s' l] IH]; [done| |].
  - cbn. case_decide as D; unfold cells; cbn; rewrite ?app_nil_r; [|done].
    by rewrite map_app, D.
  - change (push_wrapped_char (s :: s' :: l) ch style)
      with (s :: push_wrapped_char (s' :: l) ch style).
    unfold cells in *. cbn [mbind list_bind]. cbn [mbind list_bind] in IH. rewrite IH. by rewrite app_assoc.
Qed.

Lemma cells_style_row (styles : list Style) cursor row chars row' :
  style_row styles cursor row chars = Some row' ->
  cells row' = cells row ++ zip chars (drop cursor styles).
Proof.
  revert cursor row. induction chars as [|ch chars IH]; intros cursor row; cbn.
  - intros [= ->]. by rewrite app_nil_r.
  - destruct (styles !! cursor) as [st|] eqn:E; [|done]. cbn. intros H%IH. rewrite H.
    rewrite cells_push_wrapped_char, (drop_S _ _ _ E). cbn. by rewrite <- app_assoc.
Qed.

Lemma style_row_total (styles : list Style) cursor row chars :
  (cursor + length chars <= length styles)%nat -> is_Some (style_row styles cursor row chars).
Proof.
  revert cursor row. induction chars as [|ch chars IH]; intros cursor row Hl; cbn in *; [eauto|].
  destruct (lookup_lt_is_Some_2 styles cursor) as [st E]; [lia|]. rewrite E. apply IH. lia.
Qed.

Lemma zip_take_prefix (cs : list cell) l r :
  map fst cs = l ++ r -> zip l (map snd cs) = take (length l) cs.
Proof.
  revert cs. induction l as [|c l IH]; intros cs; [done|]. destruct cs as [|[c' s] cs]; [done|].
  cbn. intros [= -> H]. by rewrite (IH cs).
Qed.

Lemma skip_spaces_spec (cs : list cell) cursor :
  exists gap rest, cs = gap ++ rest /\ Forall is_space gap /\
    skip_spaces (map fst cs) cursor = (cursor + length gap)%nat /\
    (forall x, head rest = Some x -> ~ is_space x).
Proof.
  revert cursor. induction cs as [|[c s] cs IH]; intros cursor; cbn.
  - exists [], []. cbn. split_and!; [done..|lia|done].
  - destruct (c =? space) eqn:E.
    + apply Z.eqb_eq in E. destruct (IH (S cursor)) as (gap & rest & -> & Hg & -> & Hr).
      exists ((c, s) :: gap), rest. cbn. split_and!; [done|by constructor|lia|done].
    + apply Z.eqb_neq in E. exists [], ((c, s) :: cs). cbn.
      split_and!; [done..|lia|by intros ? [= <-]].
Qed.
End Cells.

(** ** The loop *)

Section Loop.
Context {Style : Type} `{EqDecision Style}.
Context (textwrap_wrap : nat -> text -> list text) `{!TextwrapLaws textwrap_wrap}.
Context (first_width continuation_width : nat).
Implicit Types (cs : list (Z * Style)) (out rows : list (list (RichSpan Style))).

Abbreviation loop fuel cs := (wrap_loop textwrap_wrap first_width continuation_width fuel
  (map fst cs) (map snd cs)).

(** One pass takes a row and the spaces after it, and moves unless it stands at
    a newline. *)
Lemma wrap_loop_step fuel cs cursor is_first out :
  (cursor < length cs)%nat ->
  exists row gap cursor',
    loop (S fuel) cs cursor is_first out = loop fuel cs cursor' false (out ++ [row]) /\
    drop cursor cs = cells row ++ gap ++ drop cursor' cs /\
    Forall is_space gap /\ newline ∉ map fst (cells row) /\
    (cursor' <= length cs)%nat /\
    (newline ∉ map fst cs -> cursor < cursor')%nat.
Proof.
  intros Hc. cbn [wrap_loop]. rewrite length_map.
  rewrite (proj2 (Nat.leb_gt _ _) Hc).
  set (w := if (is_first && null out)%bool then _ else _). rewrite skipn_map.
  destruct (drop cursor cs) as [|[c s] rest0] eqn:Ed.
  { apply (f_equal length) in Ed. rewrite length_drop in Ed. cbn in Ed. lia. }
  destruct (textwrap_first w (map fst ((c, s) :: rest0))) as (l & ls & El & Hnl & r & Er); [done|].
  rewrite El.
  assert (Hz : zip l (drop cursor (map snd cs)) = take (length l) ((c, s) :: rest0)).
  { rewrite skipn_map, Ed. by apply (zip_take_prefix _ _ r). }
  assert (Hlen : (length l <= length ((c, s) :: rest0))%nat).
  { apply (f_equal length) in Er. rewrite length_map, length_app in Er. lia. }
  assert (Hcl : length ((c, s) :: rest0) = (length cs - cursor)%nat).
  { by rewrite <- Ed, length_drop. }
  destruct (style_row_total (map snd cs) cursor [] l) as [row Hrow].
  { rewrite length_map. lia. }
  rewrite Hrow. cbn [or_panic mbind outcome_bind].
  pose proof (cells_style_row _ _ _ _ _ Hrow) as Hcells. cbn [app cells mbind list_bind] in Hcells.
  rewrite Hz in Hcells. rewrite skipn_map.
  destruct (skip_spaces_spec (drop (cursor + length l) cs) (cursor + length l)) as
    (gap & rest & Eg & Hg & Hs & Hr). rewrite Hs.
  exists row, gap, (cursor + length l + length gap)%nat. split_and!; [done| |done| | |].
  - assert (Hrest : drop (cursor + length l + length gap) cs = rest)
      by (rewrite <- drop_drop, Eg; apply drop_app_length).
    rewrite Hcells, Hrest, <- Eg, <- Ed, <- drop_drop. symmetry. apply take_drop.
  - rewrite Hcells. rewrite <- firstn_map, Er, take_app_length. done.
  - assert (length gap <= length cs - (cursor + length l))%nat; [|lia].
    apply (f_equal length) in Eg. rewrite length_drop, length_app in Eg. lia.
  - intros Hno. destruct l as [|c0 l0]; [|cbn; lia].
    destruct (decide (c = space)) as [Esp|Hns].
    + rewrite Nat.add_0_r, Ed in Eg. destruct gap as [|g gap]; [|cbn; lia].
      cbn in Eg. subst rest. exfalso. by apply (Hr (c, s)).
    + exfalso. cbn [map fst] in El. eapply textwrap_progress in El; try done.
      intros ->. apply Hno. rewrite <- (take_drop cursor cs), map_app, Ed.
      apply elem_of_app. right. by left.
Qed.

Lemma wrap_loop_done fuel cs cursor is_first out :
  (length cs <= cursor)%nat -> loop fuel cs cursor is_first out = Returns out.
Proof.
  intros Hc. destruct fuel; cbn [wrap_loop]; rewrite length_map; by rewrite (proj2 (Nat.leb_le _ _) Hc).
Qed.

(** Without a newline the length of the text is fuel enough. *)
Lemma wrap_loop_returns fuel cs cursor is_first out :
  newline ∉ map fst cs -> (length cs - cursor <= fuel)%nat ->
  exists out', loop fuel cs cursor is_first out = Returns out'.
Proof.
  intros Hno. revert cursor is_first out. induction fuel as [|fuel IH]; intros cursor f out Hf.
  { exists out. apply wrap_loop_done. lia. }
  destruct (decide (length cs <= cursor)%nat); [exists out; by apply wrap_loop_done|].
  destruct (wrap_loop_step fuel cs cursor f out) as (row & gap & cursor' & -> & _ & _ & _ & _ & Hp); [lia|].
  apply IH. specialize (Hp Hno). lia.
Qed.

(** With a newline ahead no fuel is. *)
Lemma wrap_loop_stuck fuel cs cursor is_first out :
  newline ∈ map fst (drop cursor cs) -> loop fuel cs cursor is_first out = OutOfFuel.
Proof.
  revert cursor is_first out. induction fuel as [|fuel IH]; intros cursor f out Hn.
  all: assert (Hc : (cursor < length cs)%nat)
    by (destruct (decide (cursor < length cs)%nat); [done|]; rewrite drop_ge in Hn by lia; inversion Hn).
  { cbn [wrap_loop]. rewrite length_map. by rewrite (proj2 (Nat.leb_gt _ _) Hc). }
  destruct (wrap_loop_step fuel cs cursor f out Hc) as (row & gap & cursor' & -> & Ed & Hg & Hr & _ & _).
  apply IH. rewrite Ed, !map_app, !elem_of_app in Hn. destruct Hn as [Hn|[Hn|Hn]]; [done| |done].
  apply list_elem_of_fmap in Hn as (x & Hx & Hin). rewrite Forall_forall in Hg.
  specialize (Hg _ Hin). unfold is_space in Hg. by rewrite Hg in Hx.
Qed.

(** No index is out of range: the library's line is the text's. *)
Lemma wrap_loop_no_panic fuel cs cursor is_first out : loop fuel cs cursor is_first out <> Panics.
Proof.
  revert cursor is_first out. induction fuel as [|fuel IH]; intros cursor f out.
  { cbn [wrap_loop]. by case_match. }
  destruct (decide (length cs <= cursor)%nat); [by rewrite wrap_loop_done|].
  destruct (wrap_loop_step fuel cs cursor f out) as (row & gap & cursor' & -> & _); [lia|]. apply IH.
Qed.

(** What comes out is the text, cut. *)
Lemma wrap_loop_cut fuel cs cursor is_first out out' :
  loop fuel cs cursor is_first out = Returns out' -> (cursor <= length cs)%nat ->
  exists rows, out' = out ++ rows /\ cut (drop cursor cs) (map cells rows).
Proof.
  revert cursor is_first out. induction fuel as [|fuel IH]; intros cursor f out H Hc.
  all: destruct (decide (cursor = length cs)%nat) as [->|Hne];
    [rewrite wrap_loop_done in H by lia; injection H as <-; exists [];
     rewrite app_nil_r, drop_ge by lia; split; [done|constructor]|].
  { cbn [wrap_loop] in H. rewrite length_map in H.
    by rewrite (proj2 (Nat.leb_gt _ _) (ltac:(lia) : (cursor < length cs)%nat)) in H. }
  destruct (wrap_loop_step fuel cs cursor f out) as (row & gap & cursor' & E & Ed & Hg & _ & Hc' & _); [lia|].
  rewrite E in H. apply IH in H as (rows & -> & Hcut); [|done].
  exists (row :: rows). rewrite <- app_assoc. split; [done|]. rewrite Ed. by constructor.
Qed.
End Loop.

(** ** The post-pass *)

Section Fit.
Context {Style : Type} `{EqDecision Style} (width_cjk : Z -> option nat).
Implicit Types (l row current : list (RichSpan Style)) (rows out final : list (list (RichSpan Style))).

Abbreviation width := (display_width width_cjk).
Abbreviation cw := (char_width width_cjk).

(** The widest character of a row: what a row may be forced to hold. *)
Definition widest (l : list (RichSpan Style)) : nat := foldr Nat.max 0%nat (map cw (line_text l)).
Definition fits (w : nat) (l : list (RichSpan Style)) : Prop :=
  (width l <= Nat.max w (widest l))%nat.
(** The first row within [w], the others within [cont]. *)
Definition rows_fit (w cont : nat) (rows : list (list (RichSpan Style))) : Prop :=
  match rows with [] => True | r :: rs => fits w r /\ Forall (fits cont) rs end.

Lemma line_text_push l ch style : line_text (push_wrapped_char l ch style) = line_text l ++ [ch].
Proof. by rewrite <- !cells_text, cells_push_wrapped_char, map_app. Qed.

Lemma width_push l ch style : width (push_wrapped_char l ch style) = (width l + cw ch)%nat.
Proof.
  unfold display_width. rewrite line_text_push, map_app, sum_list_with_app. cbn.
  fold (cw ch). lia.
Qed.

Lemma widest_push l ch style : widest (push_wrapped_char l ch style) = Nat.max (widest l) (cw ch).
Proof.
  unfold widest. rewrite line_text_push, map_app. induction (map cw (line_text l)); cbn in *; lia.
Qed.

Lemma rows_fit_snoc w cont rows row :
  rows_fit w cont rows -> fits (if null rows then w else cont) row -> rows_fit w cont (rows ++ [row]).
Proof.
  destruct rows as [|r rs]; cbn; [by split|]. intros [Hr Hrs] Hrow. split; [done|].
  apply Forall_app. by repeat constructor.
Qed.

Lemma rows_fit_app w cont r rows rows' :
  rows_fit w cont (r :: rows) -> rows_fit cont cont rows' -> rows_fit w cont ((r :: rows) ++ rows').
Proof.
  intros [Hr Hrs] Hrs'. split; [done|]. apply Forall_app. split; [done|].
  destruct rows'; [done|]. destruct Hrs'. by constructor.
Qed.

(** What the columns left over say of the current row. *)
Definition room (w : nat) current (remaining : nat) : Prop :=
  (width current + remaining <= w)%nat \/
  (remaining = 0 /\ width current <= widest current)%nat.

Lemma room_fits w current remaining : room w current remaining -> fits w current.
Proof. unfold room, fits. lia. Qed.

Lemma room_push w current remaining ch style :
  room w current remaining -> (cw ch <= remaining)%nat ->
  room w (push_wrapped_char current ch style) (remaining - cw ch).
Proof. unfold room. rewrite width_push, widest_push. lia. Qed.

Lemma room_fresh w ch style : room w (push_wrapped_char [] ch style) (w - cw ch).
Proof.
  unfold room, widest, display_width. cbn. fold (cw ch). lia.
Qed.

Section Break.
Context (w cont : nat) (final0 : list (list (RichSpan Style))).

Definition break_inv (seen : list (Z * Style)) (st : list (list (RichSpan Style)) * list (RichSpan Style) * nat) : Prop :=
  let '(final, current, remaining) := st in
  exists rows, final = final0 ++ rows /\ seen = concat (map cells rows) ++ cells current /\
    rows_fit w cont rows /\ room (if null rows then w else cont) current remaining.

Lemma null_snoc {A} (l : list A) x : null (l ++ [x]) = false.
Proof. by destruct l. Qed.

Lemma break_char_inv seen st ch style :
  break_inv seen st -> break_inv (seen ++ [(ch, style)]) (break_char width_cjk cont style st ch).
Proof.
  destruct st as [[final current] remaining]. intros (rows & -> & -> & Hf & Hr).
  unfold break_char. destruct (Nat.ltb_spec remaining (cw ch)) as [Hlt|Hge].
  - exists (rows ++ [current]). rewrite map_app, concat_app, cells_push_wrapped_char, null_snoc. cbn.
    rewrite app_nil_r, <- !app_assoc. split_and!; [done..| |apply room_fresh].
    apply rows_fit_snoc; [done|]. by eapply room_fits.
  - exists rows. rewrite cells_push_wrapped_char, app_assoc. split_and!; [done..|].
    by apply room_push.
Qed.

Lemma break_chars_inv seen st l :
  break_inv seen st ->
  break_inv (seen ++ cells l)
    (foldl (fun st s => foldl (break_char width_cjk cont (rs_style s)) st (rs_text s)) st l).
Proof.
  revert seen st. induction l as [|s l IH]; intros seen st H; [by rewrite app_nil_r|].
  change (cells (s :: l)) with (map (fun c => (c, rs_style s)) (rs_text s) ++ cells l).
  rewrite app_assoc. apply IH. revert seen st H.
  induction (rs_text s) as [|c t IHt]; intros seen st H; [by rewrite app_nil_r|].
  cbn [map foldl]. rewrite cons_middle, app_assoc. by apply IHt, break_char_inv.
Qed.
End Break.

Lemma break_line_spec final w cont l :
  cells l <> [] -> exists rows, break_line width_cjk cont final w l = final ++ rows /\
    concat (map cells rows) = cells l /\ rows <> [] /\ rows_fit w cont rows.
Proof.
  intros Hl. unfold break_line.
  pose proof (break_chars_inv w cont final [] (final, [], w) l) as H.
  destruct (foldl _ _ l) as [[final' current] remaining].
  destruct H as (rows & -> & Hs & Hf & Hr); [exists []; rewrite app_nil_r; split_and!; [done..|];
    left; cbn; unfold display_width; cbn; lia|].
  cbn [app] in Hs. destruct (null current) eqn:Ec.
  - destruct current; [|done]. cbn in Hs. rewrite app_nil_r in Hs. exists rows.
    split_and!; [done..| |done]. by intros ->.
  - exists (rows ++ [current]). rewrite map_app, concat_app. cbn. rewrite app_nil_r.
    split_and!; [by rewrite app_assoc|done|by destruct rows|].
    apply rows_fit_snoc; [done|]. by eapply room_fits.
Qed.

Section Lines.
Context (first cont : nat).

Lemma fit_lines_spec idx final out :
  exists parts, fit_lines width_cjk first cont idx final out = final ++ concat parts /\
    Forall2 (fun l ps => concat (map cells ps) = cells l /\ ps <> []) out parts /\
    rows_fit (if (idx =? 0)%nat && null final then first else cont) cont (concat parts).
Proof.
  revert idx final. induction out as [|l out IH]; intros idx final; cbn [fit_lines].
  { exists []. cbn. rewrite app_nil_r. by split_and!. }
  set (w := if ((idx =? 0)%nat && null final)%bool then first else cont).
  assert (exists ps, (if (width l <=? w)%nat then final ++ [l] else break_line width_cjk cont final w l)
      = final ++ ps /\ (concat (map cells ps) = cells l /\ ps <> []) /\ rows_fit w cont ps)
    as (ps & -> & [Hc Hne] & Hf).
  { destruct (Nat.leb_spec (width l) w) as [Hle|Hgt].
    - exists [l]. cbn. rewrite app_nil_r. split_and!; [done..| |constructor]. unfold fits. lia.
    - destruct (break_line_spec final w cont l) as (rows & ? & ? & ? & ?); [|by exists rows].
      intros E. unfold display_width in Hgt. rewrite <- cells_text, E in Hgt. cbn in Hgt. lia. }
  destruct ps as [|p ps]; [done|].
  destruct (IH (S idx) (final ++ p :: ps)) as (parts & -> & H2 & Hrf).
  exists ((p :: ps) :: parts). cbn [concat]. rewrite <- app_assoc. split_and!; [done|by constructor|].
  apply rows_fit_app; [done|]. by cbn in Hrf.
Qed.
End Lines.

Lemma cut_parts (gap rest : list (Z * Style)) (ps : list (list (RichSpan Style)))
    (rows : list (list (Z * Style))) :
  ps <> [] -> Forall is_space gap -> cut rest rows ->
  cut (concat (map cells ps) ++ gap ++ rest) (map cells ps ++ rows).
Proof.
  intros Hne Hg Hc. induction ps as [|p [|p' ps] IH]; [done| |].
  - cbn. rewrite app_nil_r. by constructor.
  - cbn [map concat app]. rewrite <- app_assoc. apply (cut_row _ []); [constructor|]. by apply IH.
Qed.

(** Breaking the rows further keeps the text cut. *)
Lemma cut_refine (cs : list (Z * Style)) out parts :
  cut cs (map cells out) ->
  Forall2 (fun l ps => concat (map cells ps) = cells l /\ ps <> []) out parts ->
  cut cs (map cells (concat parts)).
Proof.
  intros Hc H2. revert cs Hc. induction H2 as [|l ps out parts [Hl Hne] _ IH]; intros cs Hc; cbn in *.
  - inversion Hc. constructor.
  - inversion Hc as [|row gap rest rows Hg Hrest]; subst. rewrite map_app, <- Hl.
    apply cut_parts; [done..|]. by apply IH.
Qed.
End Fit.

(** ** All lines *)

Section Wrapped.
Context {Style : Type} `{EqDecision Style}.
Context (textwrap_wrap : nat -> text -> list text) (width_cjk : Z -> option nat).
Implicit Types (l raw : list (RichSpan Style)) (rows lines : list (list (RichSpan Style))).

Abbreviation width := (display_width width_cjk).

(** What one line becomes, gutter and all. *)
Inductive wrapped_line (first cont : nat) : list (RichSpan Style) -> list (list (RichSpan Style)) -> Prop :=
| wrapped_blank raw : line_text raw = [] -> wrapped_line first cont raw [[]]
| wrapped_rows raw prefix body rows :
    split_gutter raw = (prefix, body) -> rows <> [] ->
    cut (cells body) (map cells rows) ->
    rows_fit width_cjk (Nat.max (first - width prefix) 1) (Nat.max (cont - width prefix) 1) rows ->
    wrapped_line first cont raw (map (app prefix) rows).

(** The part of a line the loop reads. *)
Definition body_text raw : text := line_text (split_gutter raw).2.

Lemma split_gutter_spec raw :
  raw = (split_gutter raw).1 ++ (split_gutter raw).2 /\
  Forall (fun s => repeat_on_wrap s = true) (split_gutter raw).1 /\
  (forall s, head (split_gutter raw).2 = Some s -> repeat_on_wrap s = false).
Proof.
  induction raw as [|s raw IH]; cbn; [by split_and!|].
  destruct (repeat_on_wrap s) eqn:E; [|split_and!; [done..|by intros ? [= <-]]].
  destruct (split_gutter raw) as [p b]. cbn in *. destruct IH as (-> & ? & ?). split_and!; auto.
Qed.

Lemma body_text_incl raw : exists g, line_text raw = g ++ body_text raw.
Proof.
  destruct (split_gutter_spec raw) as (E & _ & _). exists (line_text (split_gutter raw).1).
  rewrite E at 1. apply bind_app.
Qed.

Lemma spans_empty_text raw : spans_empty raw = true <-> line_text raw = [].
Proof.
  unfold spans_empty, line_text. induction raw as [|s raw IH]; [done|]. cbn.
  destruct (rs_text s); cbn; [done|]. by split.
Qed.

Lemma null_nil {A} (x : list A) : null x = true <-> x = [].
Proof. by destruct x. Qed.

Context `{!TextwrapLaws textwrap_wrap}.

Abbreviation wrap1 := (wrap_line textwrap_wrap width_cjk).
Abbreviation wrap := (wrap_rich_lines textwrap_wrap width_cjk).

Lemma wrap_line_returns fuel first cont raw :
  newline ∉ body_text raw -> (length (line_text raw) <= fuel)%nat ->
  exists rows, wrap1 fuel first cont raw = Returns rows.
Proof.
  intros Hn Hf. unfold wrap_line. destruct (null raw || spans_empty raw); [eauto|].
  destruct (body_text_incl raw) as [g Hg]. unfold body_text in *.
  destruct (split_gutter raw) as [prefix body]. cbn [snd] in *.
  rewrite <- (cells_text body), <- (cells_styles body).
  set (w := Nat.max (first - _) 1). set (w' := Nat.max (cont - _) 1).
  destruct (wrap_loop_returns textwrap_wrap w w' fuel (cells body) 0 true []) as [out ->].
  - by rewrite cells_text.
  - rewrite Hg, length_app, (line_text_length body) in Hf. lia.
  - cbn. eauto.
Qed.

Lemma wrap_line_stuck fuel first cont raw :
  newline ∈ body_text raw -> wrap1 fuel first cont raw = OutOfFuel.
Proof.
  intros Hn. unfold wrap_line.
  assert (null raw || spans_empty raw = false) as ->.
  { apply orb_false_iff. destruct (body_text_incl raw) as [g Hg]. split.
    - destruct raw; [inversion Hn|done].
    - apply not_true_iff_false. intros E%spans_empty_text. rewrite E in Hg.
      destruct g; [|done]. cbn in Hg. rewrite <- Hg in Hn. inversion Hn. }
  unfold body_text in Hn. destruct (split_gutter raw) as [prefix body]. cbn [snd] in Hn.
  rewrite <- (cells_text body), <- (cells_styles body), wrap_loop_stuck; [done..|].
  by rewrite drop_0, (cells_text body).
Qed.

Lemma wrap_line_spec fuel first cont raw rows :
  wrap1 fuel first cont raw = Returns rows -> wrapped_line first cont raw rows.
Proof.
  unfold wrap_line. destruct (null raw || spans_empty raw) eqn:En.
  { intros [= <-]. constructor. apply orb_true_iff in En as [->%null_nil|?]; [done|].
    by apply spans_empty_text. }
  destruct (split_gutter raw) as [prefix body] eqn:Es.
  rewrite <- (cells_text body), <- (cells_styles body).
  set (w := Nat.max (first - _) 1). set (w' := Nat.max (cont - _) 1).
  destruct (wrap_loop _ _ _ _ _ _ _ _ _) as [out| |] eqn:El; cbn; [|done|done]. intros [= <-].
  apply wrap_loop_cut in El as (rows' & -> & Hcut); [|done|lia].
  rewrite drop_0 in Hcut. cbn [app].
  destruct (fit_lines_spec width_cjk w w' 0 [] rows') as (parts & -> & H2 & Hf). cbn [app] in *.
  pose proof (cut_refine _ _ _ Hcut H2) as Hc.
  destruct (concat parts) as [|r rs] eqn:Ec; cbn [null].
  - apply (wrapped_rows _ _ _ _ _ [[]] Es); [done| |].
    + inversion Hc. apply (cut_row [] [] []); constructor.
    + split; [|constructor]. unfold fits, display_width. cbn. lia.
  - by apply (wrapped_rows _ _ _ _ _ _ Es).
Qed.

Lemma wrap_lines_spec fuel first cont wrapped lines rows :
  wrap_lines textwrap_wrap width_cjk fuel first cont wrapped lines = Returns rows ->
  exists groups, rows = wrapped ++ concat groups /\ Forall2 (wrapped_line first cont) lines groups.
Proof.
  revert wrapped. induction lines as [|raw lines IH]; intros wrapped; cbn.
  { intros [= <-]. exists []. cbn. by rewrite app_nil_r. }
  destruct (wrap1 fuel first cont raw) as [rs| |] eqn:E; cbn; [|done|done].
  intros (groups & -> & H2)%IH. apply wrap_line_spec in E.
  exists (rs :: groups). cbn. rewrite app_assoc. split; [done|by constructor].
Qed.

Lemma wrapped_line_nonempty first cont raw rows : wrapped_line first cont raw rows -> rows <> [].
Proof. intros [|? prefix body rs _ Hne _ _]; [done|]. by destruct rs. Qed.

Lemma wrap_lines_returns fuel first cont wrapped lines :
  Forall (fun raw => newline ∉ body_text raw /\ (length (line_text raw) <= fuel)%nat) lines ->
  exists rows, wrap_lines textwrap_wrap width_cjk fuel first cont wrapped lines = Returns rows.
Proof.
  intros Hl. revert wrapped. induction Hl as [|raw lines [Hn Hf] _ IH]; intros wrapped; cbn; [eauto|].
  destruct (wrap_line_returns fuel first cont raw Hn Hf) as [rs ->]. apply IH.
Qed.

Lemma wrap_line_no_panic fuel first cont raw : wrap1 fuel first cont raw <> Panics.
Proof.
  unfold wrap_line. case_match; [done|]. destruct (split_gutter raw) as [prefix body].
  rewrite <- (cells_text body), <- (cells_styles body).
  destruct (wrap_loop _ _ _ _ _ _ _ _ _) eqn:E; cbn; [done| |done].
  by apply wrap_loop_no_panic in E.
Qed.

Lemma wrap_lines_stuck fuel first cont wrapped lines :
  Exists (fun raw => newline ∈ body_text raw) lines ->
  wrap_lines textwrap_wrap width_cjk fuel first cont wrapped lines = OutOfFuel.
Proof.
  intros Hl. revert wrapped. induction Hl as [raw lines Hn|raw lines _ IH]; intros wrapped; cbn.
  - by rewrite wrap_line_stuck.
  - pose proof (wrap_line_no_panic fuel first cont raw).
    destruct (wrap1 fuel first cont raw); cbn; auto; done.
Qed.

Lemma wrap_returns fuel lines first cont :
  Forall (fun raw => newline ∉ body_text raw) lines ->
  Forall (fun raw => length (line_text raw) <= fuel)%nat lines ->
  exists rows, wrap fuel lines first cont = Returns rows.
Proof.
  intros Hn Hf. unfold wrap_rich_lines.
  destruct (wrap_lines_returns fuel (Nat.max first 1) (Nat.max cont 1) [] lines) as [rows ->];
    [by apply Forall_and|]. cbn. eauto.
Qed.

Lemma wrap_stuck fuel lines first cont :
  Exists (fun raw => newline ∈ body_text raw) lines -> wrap fuel lines first cont = OutOfFuel.
Proof. intros He. unfold wrap_rich_lines. by rewrite wrap_lines_stuck. Qed.

Lemma wrap_spec fuel lines first cont rows :
  wrap fuel lines first cont = Returns rows ->
  exists groups, Forall2 (wrapped_line (Nat.max first 1) (Nat.max cont 1)) lines groups /\
    rows = (if null lines then [[]] else concat groups).
Proof.
  unfold wrap_rich_lines.
  destruct (wrap_lines _ _ _ _ _ _ _) as [rs| |] eqn:E; cbn; [|done|done]. intros [= <-].
  apply wrap_lines_spec in E as (groups & -> & H2). exists groups. split; [done|]. cbn [app].
  inversion H2 as [|? g ? gs Hw]; subst; [done|]. apply wrapped_line_nonempty in Hw.
  by destruct g.
Qed.

(** [C19] [wrap_rich_lines] ends exactly on lines whose wrapped part holds no
    newline: the length of the longest line bounds its loop, and with a newline
    anywhere in a body no number of turns is enough, since [textwrap] answers
    the rest of the text with an empty first line and the cursor stays. *)
Theorem wrapping_ends_without_newlines lines first cont :
  (Forall (fun raw => newline ∉ body_text raw) lines ->
   forall fuel, Forall (fun raw => length (line_text raw) <= fuel)%nat lines ->
   exists rows, wrap fuel lines first cont = Returns rows) /\
  (~ Forall (fun raw => newline ∉ body_text raw) lines ->
   forall fuel, wrap fuel lines first cont = OutOfFuel).
Proof.
  split; [intros; by apply wrap_returns|]. intros Hn fuel. apply wrap_stuck.
  apply not_Forall_Exists in Hn; [|apply _]. eapply Exists_impl; [exact Hn|].
  intros raw Hr. by apply dec_stable.
Qed.

(** [C23] The rows are the text: each input line gives at least one row, every
    row starts with the line's gutter, and the rows without it are the line's
    characters in order, each in its style, with nothing lost but spaces at row
    ends.  The first row of each line keeps within [first_width] and the others
    within [continuation_width] (less the gutter), unless a single character is
    wider than that. *)
Theorem wrapped_rows_are_the_text fuel lines first cont rows :
  wrap fuel lines first cont = Returns rows ->
  exists groups, Forall2 (wrapped_line (Nat.max first 1) (Nat.max cont 1)) lines groups /\
    rows = (if null lines then [[]] else concat groups).
Proof. apply wrap_spec. Qed.

Lemma rows_fit_prefix first cont prefix rows k r :
  (width prefix + k <= first)%nat -> (width prefix + k <= cont)%nat -> (1 <= k)%nat ->
  Forall (fun r => widest width_cjk r <= k)%nat rows ->
  rows_fit width_cjk (Nat.max (first - width prefix) 1) (Nat.max (cont - width prefix) 1) rows ->
  r ∈ map (app prefix) rows -> (width r <= Nat.max first cont)%nat.
Proof.
  intros Hf Hc Hk Hw Hrf (row & -> & Hin)%list_elem_of_fmap.
  assert (width (prefix ++ row) = width prefix + width row)%nat as ->.
  { unfold display_width, line_text. by rewrite bind_app, map_app, sum_list_with_app. }
  assert (widest width_cjk row <= k)%nat by (rewrite Forall_forall in Hw; by apply Hw).
  destruct rows as [|r0 rows]; [inversion Hin|]. destruct Hrf as [H0 Hrs].
  apply elem_of_cons in Hin as [->|Hin]; [unfold fits in H0; lia|].
  rewrite Forall_forall in Hrs. specialize (Hrs _ Hin). unfold fits in Hrs. lia.
Qed.

Lemma cut_incl (cs : list (Z * Style)) rs r x : cut cs rs -> r ∈ rs -> x ∈ r -> x ∈ cs.
Proof.
  induction 1 as [|row gap rest rs Hg _ IH]; intros Hr Hx; [inversion Hr|].
  rewrite !elem_of_app. apply elem_of_cons in Hr as [->|Hr]; auto.
Qed.

Lemma widest_le k l : Forall (fun c => char_width width_cjk c <= k)%nat (line_text l) ->
  (widest width_cjk l <= k)%nat.
Proof. unfold widest. induction 1; cbn; lia. Qed.

(** No row is wider than the screen: if every line's gutter leaves room for
    its widest character, every row of the result, gutter included, keeps
    within the larger of the two widths. *)
Theorem rows_fit_the_screen fuel lines first cont rows k r :
  (1 <= k)%nat ->
  Forall (fun raw =>
    (width (split_gutter raw).1 + k <= Nat.min first cont)%nat /\
    Forall (fun c => char_width width_cjk c <= k)%nat (body_text raw)) lines ->
  wrap fuel lines first cont = Returns rows -> r ∈ rows ->
  (width r <= Nat.max first cont)%nat.
Proof.
  intros Hk Hl H Hr. unfold wrap_rich_lines in H.
  destruct (wrap_lines _ _ _ _ _ _ _) as [rs| |] eqn:E; [|done|done]. injection H as <-.
  apply wrap_lines_spec in E as (groups & -> & H2). cbn [app] in Hr.
  destruct (null (concat groups)) eqn:En.
  { apply list_elem_of_singleton in Hr as ->. unfold display_width. cbn. lia. }
  clear En. induction H2 as [|raw g lines groups Hw _ IH]; [inversion Hr|].
  apply Forall_cons in Hl as [[Hg Hc] Hl]. cbn [concat] in Hr.
  apply elem_of_app in Hr as [Hr|Hr]; [clear IH|by apply IH].
  inversion Hw as [|raw' prefix body rows Hs Hne Hcut Hfit]; subst.
  - apply list_elem_of_singleton in Hr as ->. unfold display_width. cbn. lia.
  - unfold body_text in Hc. rewrite Hs in Hc, Hg. cbn [fst snd] in Hc, Hg.
    etransitivity;
      [apply (rows_fit_prefix (Nat.max first 1) (Nat.max cont 1) prefix rows k r); try done; try lia|lia].
    apply Forall_forall. intros row Hrow. apply widest_le.
    apply Forall_forall. intros c Hcc. rewrite Forall_forall in Hc. apply Hc.
    rewrite <- cells_text in Hcc |- *. apply list_elem_of_fmap in Hcc as (x & -> & Hx).
    apply list_elem_of_fmap_2. eapply cut_incl; [exact Hcut| |exact Hx].
    by apply list_elem_of_fmap_2.
Qed.
End Wrapped.

(** ** Concrete runs *)

(** A library that fills the width and breaks anywhere. *)
Fixpoint before (c : Z) (t : text) : text :=
  match t with [] => [] | d :: t => if d =? c then [] else d :: before c t end.
Definition chop (w : nat) (s : text) : list text := [take (Nat.max w 1) (before newline s)].

Lemma before_spec c t : c ∉ before c t /\ exists r, t = before c t ++ r.
Proof.
  induction t as [|d t [IH [r Hr]]]; cbn; [split; [inversion 1|by exists []]|].
  destruct (Z.eqb_spec d c) as [->|Hne]; cbn.
  - split; [inversion 1|by eexists].
  - rewrite not_elem_of_cons. split; [by split|]. exists r. by rewrite <- Hr.
Qed.

#[export] Instance chop_laws : TextwrapLaws chop.
Proof.
  split.
  - intros w s _. destruct (before_spec newline s) as [Hn [r Hr]].
    eexists _, []. split; [done|]. split.
    + intros Hin. apply Hn. rewrite <- (take_drop (Nat.max w 1)), elem_of_app. by left.
    + exists (drop (Nat.max w 1) (before newline s) ++ r). by rewrite app_assoc, take_drop.
  - intros w c s l ls _ Hn [= <- _]. cbn. destruct (Z.eqb_spec c newline); [done|].
    by destruct (Nat.max w 1) eqn:E; [lia|].
Qed.

Definition narrow (c : Z) : option nat := Some 1%nat.
Definition spans (t : text) : list (RichSpan Z) := [new_span t 0].

Example wrapping_ends_without_newlines_witness :
  (exists rows, wrap_rich_lines chop narrow 5 [spans t!"abcde"] 2 2 = Returns rows) /\
  (forall fuel, wrap_rich_lines chop narrow fuel [spans (t!"[a" ++ [newline] ++ t!"b] ")] 80 80 = OutOfFuel).
Proof.
  split.
  - apply (wrapping_ends_without_newlines chop narrow [spans t!"abcde"] 2 2); repeat constructor; set_solver.
  - apply (wrapping_ends_without_newlines chop narrow [spans (t!"[a" ++ [newline] ++ t!"b] ")] 80 80).
    intros Hf. apply Forall_cons in Hf as [Hf _]. apply Hf. vm_compute. set_solver.
Defined.

Example wrapped_rows_are_the_text_witness :
  exists groups, Forall2 (wrapped_line narrow 2 2) [spans t!"ab cd"] groups /\
    [spans t!"ab"; spans t!"cd"] = concat groups.
Proof.
  apply (wrapped_rows_are_the_text chop narrow 9 [spans t!"ab cd"] 2 2 [spans t!"ab"; spans t!"cd"]).
  reflexivity.
Defined.

Example rows_fit_the_screen_witness : (display_width narrow (spans t!"ab") <= 2)%nat.
Proof.
  apply (rows_fit_the_screen chop narrow 9 [spans t!"ab cd"] 2 2 [spans t!"ab"; spans t!"cd"] 1);
    [lia| |reflexivity|left].
  repeat constructor; vm_compute; lia.
Defined.

(** [wrap_rich_lines] documents [first_width] for the first output line and
    [continuation_width] for "all subsequent lines"; every input line starts
    again with [first_width], so a second line that would fit is cut. *)
Example every_line_starts_narrow :
  wrap_rich_lines chop narrow 9 [spans t!"ab"; spans t!"cdef"] 2 4
  = Returns [spans t!"ab"; spans t!"cd"; spans t!"ef"].
Proof. reflexivity. Qed.
