(* ===== verification/HtmlText.v ===== *)
(** * Message bodies from HTML (terminal client)

    clients/tui/src/html.rs: a message's [formatted_body] to styled lines.  The
    sanitizer and the HTML parser are libraries; their composition is the
    parameter [sanitized_nodes], from the HTML to a list of [node]s.  Styles and
    colours are ratatui's and are parameters with the four operations the code
    uses.  A panic (slicing inside a character, [expect]) is the answer [None]
    of the rendering functions and [Panics] of [formatted_message_body_lines]. *)

From stdpp Require Import base gmap sets list strings.
From Stdlib Require Import ZArith Lia.
From S2P Require Import Prelude Text RichText.

(** ** Removing scripts and styles *)

(** [str::find] with a [str] pattern, as a number of characters: both the
    pattern and what precedes its match are whole characters. *)
Fixpoint find_text (p t : text) : option nat :=
  if starts_with p t then Some 0%nat
  else match t with [] => None | _ :: t => S <$> find_text p t end.

(** [find_first_dangerous_block]: [min_by_key] keeps the first of equal keys. *)
Definition find_first_dangerous_block (lower : text) : option (nat * text) :=
  match find_text (lit "<script") lower, find_text (lit "<style") lower with
  | Some i, Some j => if (j <? i)%nat then Some (j, lit "style") else Some (i, lit "script")
  | Some i, None => Some (i, lit "script")
  | None, Some j => Some (j, lit "style")
  | None, None => None
  end.

Definition close_tag (tag : text) : text := lit "</" ++ tag ++ lit ">".

Fixpoint remove_dangerous_from (fuel : nat) (remaining output : text) : outcome text :=
  match fuel with
  | O => OutOfFuel
  | S fuel =>
      let lower := map to_ascii_lower remaining in
      match find_first_dangerous_block lower with
      | None => Returns (output ++ remaining)
      | Some (start, tag) =>
          let output := output ++ take start remaining in
          match find_text (close_tag tag) (drop start lower) with
          | Some end_ =>
              remove_dangerous_from fuel
                (drop (start + end_ + length (close_tag tag))%nat remaining) output
          | None => Returns output
          end
      end
  end.
Definition remove_dangerous_html_blocks (html : text) : outcome text :=
  remove_dangerous_from (S (length html)) html [].

(** ** Colours *)

(** [&t[a..b]]: by bytes, and a panic inside a character or past the end. *)
Fixpoint split_at_byte (n : Z) (t : text) : option (text * text) :=
  if n =? 0 then Some ([], t) else
  match t with
  | [] => None
  | c :: t =>
      if n <? utf8_char_len c then None
      else '(a, b) ← split_at_byte (n - utf8_char_len c) t; Some (c :: a, b)
  end.
Definition byte_slice (a b : Z) (t : text) : option text :=
  '(_, r) ← split_at_byte a t; '(m, _) ← split_at_byte (b - a) r; Some m.

Definition hex_value (c : Z) : option Z :=
  if is_ascii_digit c then Some (c - 48)
  else if (97 <=? c) && (c <=? 102) then Some (c - 87)
  else if (65 <=? c) && (c <=? 70) then Some (c - 55)
  else None.
Fixpoint hex_digits (acc : Z) (t : text) : option Z :=
  match t with
  | [] => Some acc
  | c :: t => d ← hex_value c; if 255 <? acc * 16 + d then None else hex_digits (acc * 16 + d) t
  end.
(** [u8::from_str_radix(t, 16)]: a leading plus sign is accepted. *)
Definition u8_from_hex (t : text) : option Z :=
  match t with
  | [] => None
  | [c] => if (c =? 43) || (c =? 45) then None else hex_digits 0 t
  | c :: t' => if c =? 43 then hex_digits 0 t' else hex_digits 0 t
  end.

(** ** Links *)

(** [looks_like_hyperlink]. *)
Definition scheme_char (c : Z) : bool :=
  is_ascii_alphanumeric c || (c =? 43) || (c =? 45) || (c =? 46).
Definition is_ascii_alphabetic (c : Z) : bool :=
  ((65 <=? c) && (c <=? 90)) || ((97 <=? c) && (c <=? 122)).
Definition looks_like_hyperlink (t : text) : bool :=
  let t := trim t in
  if starts_with (lit "www.") t then true else
  match split_once 58 t with
  | None => false
  | Some (scheme, rest) =>
      negb (null scheme) && negb (null rest) && forallb scheme_char scheme
      && match scheme with c :: _ => is_ascii_alphabetic c | [] => false end
  end.

(** ** The parsed document *)

Record attribute := { attr_ns : text; attr_local : text; attr_value : text }.
Inductive node : Type :=
| NText (t : text)
| NElement (local : text) (attrs : list attribute) (children : list node)
| NOther (children : list node).

(** The first attribute of that name outside any namespace. *)
Definition find_attr (name : text) (attrs : list attribute) : option text :=
  attr_value <$> head (filter (fun a => attr_ns a = [] /\ attr_local a = name) attrs).

Definition anchor_href (attrs : list attribute) : option text := find_attr (lit "href") attrs.

Definition span_spoiler_label (attrs : list attribute) : option text :=
  v ← find_attr (lit "data-mx-spoiler") attrs;
  let reason := trim v in
  Some (if null reason then lit "[spoiler] " else lit "[" ++ reason ++ lit "] ").

(** [collect_plain_text]. *)
Fixpoint collect_plain_text (n : node) : text :=
  match n with
  | NText t => t
  | NElement _ _ children => children ≫= collect_plain_text
  | NOther _ => []
  end.

Inductive Modifier := BOLD | ITALIC | DIM | UNDERLINED.

Section Html.
Context {Style Color : Type} `{EqDecision Style} (style_default : Style).
Context (fg : Style -> Color -> Style) (add_modifier : Style -> Modifier -> Style).
Context (rgb : Z -> Z -> Z -> Color).
Context (textwrap_wrap : nat -> text -> list text) (width_cjk : Z -> option nat).
Context (sanitized_nodes : text -> list node).

Abbreviation line := (list (RichSpan Style)).

(** The entries of [ColorScheme] this file uses. *)
Record ColorScheme := { status : Color; input_hint : Color }.
Record HtmlContext := html_context { ctx_style : Style; preserve_whitespace : bool }.
Context (colors : ColorScheme).

(** [parse_hex_color]; [None] is a panic. *)
Definition parse_hex_color (t : text) : option (option Color) :=
  let hex := default t (strip_prefix_char 35 t) in
  if negb (utf8_len hex =? 6) then Some None else
  r ← byte_slice 0 2 hex;
  match u8_from_hex r with None => Some None | Some r =>
  g ← byte_slice 2 4 hex;
  match u8_from_hex g with None => Some None | Some g =>
  b ← byte_slice 4 6 hex;
  match u8_from_hex b with None => Some None | Some b => Some (Some (rgb r g b)) end end end.

Definition span_fg_color (attrs : list attribute) : option (option Color) :=
  match find_attr (lit "data-mx-color") attrs with
  | None => Some None
  | Some v => parse_hex_color (trim v)
  end.

(** [push_html_text]: kept whitespace breaks lines, other whitespace collapses. *)
Fixpoint push_parts (index : nat) (lines : list line) (parts : list text) (style : Style)
    : option (list line) :=
  match parts with
  | [] => Some lines
  | part :: parts =>
      let lines := if (0 <? index)%nat then push_rich_line_break lines else lines in
      lines ← push_rich_span lines (new_span part style);
      push_parts (S index) lines parts style
  end.
Fixpoint collapse (in_whitespace : bool) (t : text) : text :=
  match t with
  | [] => []
  | ch :: t =>
      if is_whitespace ch
      then (if in_whitespace then [] else [space]) ++ collapse true t
      else ch :: collapse false t
  end.
Definition push_html_text (lines : list line) (t : text) (style : Style) (preserve : bool)
    : option (list line) :=
  if preserve then push_parts 0 lines (split_char newline t) style else
  let normalized := collapse false t in
  let normalized := if rich_current_line_is_empty lines then trim_start normalized else normalized in
  if null normalized then Some lines else push_rich_span lines (new_span normalized style).

(** The handlers take [render_children_with_style] of the node as [kids]. *)
Abbreviation kids_of := (HtmlContext -> list line -> option (list line)).

Definition render_block_children (kids : kids_of) (lines : list line) (context : HtmlContext)
    : option (list line) :=
  lines ← kids context (push_rich_line_break_if_needed lines);
  Some (push_rich_line_break_if_needed lines).

Definition with_style (context : HtmlContext) (s : Style) : HtmlContext :=
  html_context s (preserve_whitespace context).

Definition push_target (lines : list line) (visible_text href : text) (link_style : Style)
    : option (list line) :=
  let hint t := new_span t (fg style_default (input_hint colors)) in
  if looks_like_hyperlink visible_text then
    lines ← push_rich_span lines (new_span [32; 9888; 32] (fg style_default (status colors)));
    push_rich_span lines (new_span href link_style)
  else
    lines ← push_rich_span lines (hint (lit " ("));
    lines ← push_rich_span lines (new_span href link_style);
    push_rich_span lines (hint (lit ")")).

Definition render_anchor (kids : kids_of) (lines : list line) (context : HtmlContext)
    (href : option text) : option (list line) :=
  let link_style := add_modifier (fg (ctx_style context) (status colors)) UNDERLINED in
  match href with
  | None => kids (with_style context link_style) lines
  | Some href =>
      let href := trim href in
      if null href then Some lines else
      link_lines ← kids (with_style context link_style) [[]];
      let visible_text := trim (rich_lines_text link_lines) in
      if null visible_text then push_rich_span lines (new_span href link_style) else
      lines ← append_rich_lines lines link_lines;
      if text_eqb visible_text href then Some lines
      else push_target lines visible_text href link_style
  end.

Definition render_quote (kids : kids_of) (lines : list line) (context : HtmlContext)
    : option (list line) :=
  let lines := push_rich_line_break_if_needed lines in
  quote_lines ← kids (with_style context (fg (ctx_style context) (input_hint colors))) [[]];
  let quote_lines := trim_empty_rich_edges quote_lines in
  if rich_lines_are_empty quote_lines then Some lines else
  let bar := gutter [9612; 32] (fg style_default (input_hint colors)) in
  lines ← append_rich_lines lines (map (cons bar) quote_lines);
  Some (push_rich_line_break_if_needed lines).

Definition render_span (kids : kids_of) (lines : list line) (context : HtmlContext)
    (attrs : list attribute) : option (list line) :=
  color ← span_fg_color attrs;
  let style := match color with Some c => fg (ctx_style context) c | None => ctx_style context end in
  match span_spoiler_label attrs with
  | None => kids (with_style context style) lines
  | Some label =>
      let style := add_modifier style DIM in
      lines ← push_rich_span lines (new_span label (add_modifier style BOLD));
      kids (with_style context style) lines
  end.

Definition render_element (kids : kids_of) (name : text) (attrs : list attribute)
    (lines : list line) (context : HtmlContext) : option (list line) :=
  let named s := text_eqb name (lit s) in
  if named "br" then Some (push_rich_line_break lines)
  else if named "p" || named "div" then render_block_children kids lines context
  else if named "strong" || named "b" then
    kids (with_style context (add_modifier (ctx_style context) BOLD)) lines
  else if named "em" || named "i" then
    kids (with_style context (add_modifier (ctx_style context) ITALIC)) lines
  else if named "code" then
    kids (with_style context (add_modifier (fg (ctx_style context) (input_hint colors)) BOLD)) lines
  else if named "pre" then
    lines ← kids (html_context (fg (ctx_style context) (input_hint colors)) true)
              (push_rich_line_break_if_needed lines);
    Some (push_rich_line_break_if_needed lines)
  else if named "a" then render_anchor kids lines context (anchor_href attrs)
  else if named "blockquote" then render_quote kids lines context
  else if named "ul" || named "ol" then render_block_children kids lines context
  else if named "li" then
    lines ← push_rich_span (push_rich_line_break_if_needed lines)
              (new_span (lit "* ") (fg style_default (input_hint colors)));
    lines ← kids context lines;
    Some (push_rich_line_break_if_needed lines)
  else if named "span" then render_span kids lines context attrs
  else kids context lines.

(** [render_children_with_style]. *)
Fixpoint render_kids (f : node -> list line -> HtmlContext -> option (list line))
    (children : list node) (context : HtmlContext) (lines : list line) : option (list line) :=
  match children with
  | [] => Some lines
  | child :: children =>
      lines ← f child lines context;
      render_kids f children context lines
  end.

Fixpoint render_html_node (n : node) (lines : list line) (context : HtmlContext) {struct n}
    : option (list line) :=
  match n with
  | NText t => push_html_text lines t (ctx_style context) (preserve_whitespace context)
  | NElement name attrs children =>
      render_element (render_kids render_html_node children) name attrs lines context
  | NOther _ => Some lines
  end.

Definition render_document (nodes : list node) : option (list line) :=
  render_kids render_html_node nodes (html_context style_default false) [[]].

Definition formatted_message_body_lines (fuel : nat) (html : text)
    (first_width continuation_width : nat) : outcome (option (list (list (text * Style)))) :=
  html ← remove_dangerous_html_blocks html;
  lines ← or_panic (render_document (sanitized_nodes html));
  let lines := trim_empty_rich_edges lines in
  if rich_lines_are_empty lines then Returns None else
  rows ← wrap_rich_lines textwrap_wrap width_cjk fuel lines first_width continuation_width;
  Returns (Some (rich_lines_to_spans rows)).

End Html.

(** ** Scripts and styles *)

Lemma find_text_Some p t i :
  find_text p t = Some i -> exists r, t = take i t ++ p ++ r /\ (i + length p <= length t)%nat.
Proof.
  revert i. induction t as [|c t IH]; intros i; cbn [find_text];
    destruct (starts_with p _) eqn:E; try apply starts_with_spec in E as [r Hr].
  - intros [= <-]. exists r. rewrite Hr at 1. split; [by rewrite take_0|].
    apply (f_equal length) in Hr. rewrite length_app in Hr. cbn in *. lia.
  - done.
  - intros [= <-]. exists r. rewrite take_0. split; [done|]. rewrite Hr, length_app. lia.
  - destruct (find_text p t) as [j|]; [|done]. intros [= <-].
    destruct (IH j eq_refl) as (r & Hr & Hl). exists r. cbn. rewrite <- Hr. split; [done|lia].
Qed.

Lemma find_text_None p t a r : find_text p t = None -> t <> a ++ p ++ r.
Proof.
  revert a. induction t as [|c t IH]; intros a; cbn [find_text];
    destruct (starts_with p _) eqn:E; try done; intros Hf Ht.
  all: assert (a <> []) as Ha by (intros ->; cbn [app] in Ht; rewrite <- not_true_iff_false in E;
    apply E, starts_with_spec; eauto).
  - by destruct a.
  - destruct a as [|d a]; [done|]. injection Ht as _ Ht. destruct (find_text p t); [done|].
    by apply (IH a eq_refl).
Qed.

Lemma dangerous_block_bound lower start tag :
  find_first_dangerous_block lower = Some (start, tag) -> (start < length lower)%nat.
Proof.
  unfold find_first_dangerous_block.
  destruct (find_text (lit "<script") lower) as [i|] eqn:Ei;
    destruct (find_text (lit "<style") lower) as [j|] eqn:Ej; try done.
  all: try apply find_text_Some in Ei as (? & _ & Ei); try apply find_text_Some in Ej as (? & _ & Ej).
  all: change (length (lit "<script")) with 7%nat in *; change (length (lit "<style")) with 6%nat in *.
  all: try case_match; intros [= <- <-]; lia.
Qed.

Lemma remove_dangerous_returns fuel remaining output :
  (length remaining < fuel)%nat -> exists out, remove_dangerous_from fuel remaining output = Returns out.
Proof.
  revert remaining output. induction fuel as [|fuel IH]; intros rem out Hf; [lia|].
  cbn [remove_dangerous_from].
  destruct (find_first_dangerous_block _) as [[start tag]|] eqn:E; [|eauto].
  destruct (find_text _ _) as [e|]; [|eauto]. apply IH.
  apply dangerous_block_bound in E. rewrite length_map in E. rewrite length_drop.
  unfold close_tag. rewrite !length_app. change (length (lit "</")) with 2%nat. lia.
Qed.

(** ** Lines *)

Lemma update_last_Some {A} (f : A -> A) (xs ys : list A) :
  update_last f xs = Some ys <-> exists l x, xs = l ++ [x] /\ ys = l ++ [f x].
Proof.
  revert ys. induction xs as [|x xs IH]; intros ys; cbn.
  { split; [done|]. intros (l & x & E & _). by destruct l. }
  destruct xs as [|x' xs].
  - split.
    + intros [= <-]. by exists [], x.
    + intros (l & y & E & ->). destruct l as [|z [|z' l]]; [by injection E as <-|done..].
  - split.
    + destruct (update_last f (x' :: xs)) as [zs|] eqn:E; [|done]. intros [= <-].
      destruct (proj1 (IH zs) eq_refl) as (l & y & -> & ->). by exists (x :: l), y.
    + intros (l & y & E & ->). destruct l as [|z l]; [by destruct xs|].
      injection E as <- E. destruct (update_last f (x' :: xs)) as [zs|] eqn:Eu.
      * destruct (proj1 (IH zs) eq_refl) as (l' & y' & E' & ->). rewrite E' in E.
        apply app_inj_tail in E as [-> ->]. done.
      * specialize (IH (l ++ [f y])). destruct IH as [_ IH]. discriminate IH. eauto.
Qed.

Lemma snoc_of {A} (xs : list A) : xs <> [] -> exists l x, xs = l ++ [x].
Proof. intros H. destruct (exists_last H) as (l & x & ->). eauto. Qed.

Section Lines.
Context {Style : Type} `{EqDecision Style}.
Implicit Types (l : list (RichSpan Style)) (ls extra : list (list (RichSpan Style))) (s : RichSpan Style).

Lemma line_text_push_span l s : line_text (push_span s l) = line_text l ++ rs_text s.
Proof.
  induction l as [|x [|y l] IH]; [cbn; apply app_nil_r| |].
  - cbn. case_match; cbn; by rewrite !app_nil_r.
  - change (push_span s (x :: y :: l)) with (x :: push_span s (y :: l)).
    unfold line_text in *. cbn [mbind list_bind] in *. by rewrite IH, app_assoc.
Qed.

(** Pushing changes only the current line, at its end. *)
Lemma push_rich_span_Some ls s ls' :
  push_rich_span ls s = Some ls' ->
  (rs_text s = [] /\ ls' = ls) \/
  exists init l, ls = init ++ [l] /\ ls' = init ++ [push_span s l].
Proof.
  unfold push_rich_span. destruct (rs_text s); [intros [= <-]; by left|].
  intros (init & k & -> & ->)%update_last_Some. right. eauto.
Qed.

Lemma push_rich_span_total ls s : ls <> [] -> exists ls', push_rich_span ls s = Some ls'.
Proof.
  intros (init & l & ->)%snoc_of. unfold push_rich_span. destruct (rs_text s); [eauto|].
  eexists. apply update_last_Some. eauto.
Qed.

(** [ls'] is [ls] with text added at its end. *)
Definition grown ls ls' (t : text) : Prop :=
  exists init l l', ls = init ++ [l] /\ ls' = init ++ [l'] /\ line_text l' = line_text l ++ t.

Lemma push_grown ls s ls' : ls <> [] -> push_rich_span ls s = Some ls' -> grown ls ls' (rs_text s).
Proof.
  intros Hne [[E ->]|(init & l & -> & ->)]%push_rich_span_Some.
  - apply snoc_of in Hne as (init & l & ->). exists init, l, l. by rewrite E, app_nil_r.
  - exists init, l, (push_span s l). by rewrite line_text_push_span.
Qed.

Lemma grown_nonempty ls ls' t : grown ls ls' t -> ls' <> [].
Proof. intros (init & l & l' & _ & -> & _). by destruct init. Qed.

Lemma grown_trans a b c t u : grown a b t -> grown b c u -> grown a c (t ++ u).
Proof.
  intros (i & l & l' & -> & -> & Hl) (j & k & k' & E & -> & Hk).
  apply app_inj_tail in E as [<- <-]. exists i, l, k'. by rewrite Hk, Hl, app_assoc.
Qed.

Lemma push_rich_spans_grown l ls ls' :
  ls <> [] -> push_rich_spans ls l = Some ls' -> grown ls ls' (line_text l).
Proof.
  revert ls. induction l as [|s l IH]; intros ls Hne; cbn.
  - intros [= <-]. apply snoc_of in Hne as (i & k & ->). exists i, k, k. by rewrite app_nil_r.
  - destruct (push_rich_span ls s) as [mid|] eqn:E; [|done]. cbn. intros H%IH.
    + eapply grown_trans; [by apply push_grown|done].
    + eapply grown_nonempty. by apply push_grown.
Qed.

Lemma push_rich_spans_total l ls : ls <> [] -> exists ls', push_rich_spans ls l = Some ls'.
Proof.
  revert ls. induction l as [|s l IH]; intros ls Hne; cbn; [eauto|].
  destruct (push_rich_span_total ls s Hne) as [mid E]. rewrite E. cbn. apply IH.
  eapply grown_nonempty. by apply push_grown.
Qed.

Lemma append_rich_lines_Some ls extra ls' :
  ls <> [] -> append_rich_lines ls extra = Some ls' ->
  (extra = [] /\ ls' = ls) \/
  exists first rest mid, extra = first :: rest /\ ls' = mid ++ rest /\ grown ls mid (line_text first).
Proof.
  intros Hne. unfold append_rich_lines. destruct extra as [|first rest]; [intros [= <-]; by left|].
  destruct (push_rich_spans ls first) as [mid|] eqn:E; [|done]. intros [= <-]. right.
  apply push_rich_spans_grown in E; [|done]. by exists first, rest, mid.
Qed.

Lemma append_rich_lines_total ls extra : ls <> [] -> exists ls', append_rich_lines ls extra = Some ls'.
Proof.
  intros Hne. destruct extra as [|first rest]; cbn; [eauto|].
  destruct (push_rich_spans_total first ls Hne) as [mid ->]. cbn. eauto.
Qed.

(** [h] can be read on one of the lines. *)
Definition shows (h : text) ls : Prop := exists l a b, l ∈ ls /\ line_text l = a ++ h ++ b.

Lemma shows_app h ls ls' : shows h (ls ++ ls') <-> shows h ls \/ shows h ls'.
Proof.
  unfold shows. setoid_rewrite elem_of_app. split.
  - intros (l & a & b & [?|?] & ?); [left|right]; eauto 6.
  - intros [(l & a & b & ? & ?)|(l & a & b & ? & ?)]; eauto 8.
Qed.

Lemma shows_one h l : shows h [l] <-> exists a b, line_text l = a ++ h ++ b.
Proof.
  unfold shows. split; [intros (? & a & b & ->%list_elem_of_singleton & ?); eauto|].
  intros (a & b & E). exists l, a, b. split; [by left|done].
Qed.

Lemma grown_shows ls ls' t h : grown ls ls' t -> shows h ls -> shows h ls'.
Proof.
  intros (i & l & l' & -> & -> & E). rewrite !shows_app, !shows_one.
  intros [?|(a & b & E')]; [by left|right]. exists a, (b ++ t). by rewrite E, E', <- !app_assoc.
Qed.

Lemma grown_shows_new ls ls' t h a b : grown ls ls' t -> t = a ++ h ++ b -> shows h ls'.
Proof.
  intros (i & l & l' & -> & -> & E) ->. rewrite shows_app, shows_one. right.
  exists (line_text l ++ a), b. by rewrite E, <- app_assoc.
Qed.

Lemma append_shows h ls extra ls' : ls <> [] ->
  append_rich_lines ls extra = Some ls' -> shows h ls \/ shows h extra -> shows h ls'.
Proof.
  intros Hne [[-> ->]|(first & rest & mid & -> & -> & Hg)]%append_rich_lines_Some; [..|done].
  - intros [?|(? & ? & ? & Hin & _)]; [done|inversion Hin].
  - rewrite shows_app. intros [H|H]; [left; by eapply grown_shows|].
    apply (shows_app h [first] rest) in H as [(a & b & E)%shows_one|H]; [left|by right].
    by eapply grown_shows_new.
Qed.

Lemma append_nonempty ls extra ls' : ls <> [] -> append_rich_lines ls extra = Some ls' -> ls' <> [].
Proof.
  intros Hne [[-> ->]|(first & rest & mid & -> & -> & Hg)]%append_rich_lines_Some; [done| |done].
  apply grown_nonempty in Hg. by destruct mid.
Qed.

Lemma drop_empty_front_shows h ls : h <> [] -> shows h ls -> shows h (drop_empty_front ls).
Proof.
  intros Hh. induction ls as [|[|s l] ls IH]; cbn; [done| |done].
  destruct ls as [|l' ls]; [done|]. intros H. apply IH.
  apply (shows_app h [[]] (l' :: ls)) in H as [(a & b & E)%shows_one|H]; [|done].
  cbn in E. by destruct a, h.
Qed.

Lemma shows_rev h ls : shows h (rev ls) <-> shows h ls.
Proof.
  unfold shows. split; intros (l & a & b & Hin & E); exists l, a, b; (split; [|done]);
    rewrite list_elem_of_In in *; [by apply in_rev|by apply in_rev in Hin].
Qed.

Lemma trim_edges_shows h ls : h <> [] -> shows h ls -> shows h (trim_empty_rich_edges ls).
Proof.
  intros Hh H. unfold trim_empty_rich_edges.
  by apply shows_rev, drop_empty_front_shows, shows_rev, drop_empty_front_shows.
Qed.

Lemma trim_nil_blank t : trim t = [] -> blank t.
Proof.
  intros E. destruct (trim_split t) as (a & b & Ha & Hb & Ht). rewrite E in Ht. rewrite Ht.
  by apply Forall_app.
Qed.

(** What can be read is not blank. *)
Lemma shows_not_empty h ls : ~ blank h -> shows h ls -> rich_lines_are_empty ls = false.
Proof.
  intros Hh (l & a & b & Hl & E). apply not_true_iff_false. intros He. apply Hh.
  unfold rich_lines_are_empty in He. rewrite forallb_forall in He.
  apply list_elem_of_In in Hl. specialize (He _ Hl). rewrite forallb_forall in He.
  assert (Hb : blank (line_text l)).
  { clear E Hl. induction l as [|s l IH]; [constructor|]. apply Forall_app. split.
    - apply trim_nil_blank. specialize (He s (or_introl eq_refl)). by destruct (trim (rs_text s)).
    - apply IH. intros x Hx. apply He. by right. }
  rewrite E in Hb. apply Forall_app in Hb as [_ Hb]. by apply Forall_app in Hb as [Hb _].
Qed.

(** A text without newlines that occurs among joined lines is on one of them. *)
Lemma join_occurs h ws a b :
  h <> [] -> newline ∉ h -> join [newline] ws = a ++ h ++ b ->
  exists w a' b', w ∈ ws /\ w = a' ++ h ++ b'.
Proof.
  intros Hh Hn. revert a. induction ws as [|w ws IH]; intros a E.
  { destruct a, h; done. }
  destruct ws as [|w' ws].
  { cbn in E. exists w, a, b. split; [by left|done]. }
  change (join [newline] (w :: w' :: ws)) with (w ++ newline :: join [newline] (w' :: ws)) in E.
  apply app_eq_inv in E as [(k & -> & E)|(k & -> & E)].
  - apply app_eq_inv in E as [(k' & E1 & E)|(k' & -> & E)].
    + destruct k' as [|c k']; cbn in E.
      * exists (a ++ k), a, []. rewrite app_nil_r in *. subst. split; [by left|done].
      * injection E as <- _. exfalso. apply Hn. rewrite E1. set_solver.
    + exists (a ++ h ++ k'), a, k'. split; [by left|done].
  - destruct k as [|c k]; cbn in E.
    { destruct h as [|d h]; [done|]. injection E as <- _. exfalso. apply Hn. by left. }
    injection E as _ E. apply IH in E as (x & a' & b' & Hx & ->).
    exists (a' ++ h ++ b'), a', b'. split; [by right|done].
Qed.

Lemma shows_in_text h ls : shows h ls -> exists a b, rich_lines_text ls = a ++ h ++ b.
Proof.
  intros (l & a & b & Hl & E). unfold rich_lines_text.
  induction ls as [|k ls IH]; [inversion Hl|]. apply elem_of_cons in Hl as [->|Hl].
  - cbn. destruct ls as [|k' ls]; [eauto|]. rewrite E. cbn. rewrite <- !app_assoc. eauto.
  - destruct ls as [|k' ls]; [inversion Hl|]. destruct (IH Hl) as (a' & b' & E').
    change (join [newline] (map line_text (k :: k' :: ls)))
      with (line_text k ++ [newline] ++ join [newline] (map line_text (k' :: ls))).
    rewrite E'. exists (line_text k ++ newline :: a'), b'. by rewrite <- app_assoc.
Qed.

Lemma visible_target_shows h ls :
  h <> [] -> newline ∉ h -> trim (rich_lines_text ls) = h -> shows h ls.
Proof.
  intros Hh Hn E. destruct (trim_split (rich_lines_text ls)) as (a & b & _ & _ & Ht).
  rewrite E in Ht. apply join_occurs in Ht as (w & a' & b' & Hw & Ew); [|done..].
  apply list_elem_of_fmap in Hw as (l & -> & Hl). by exists l, a', b'.
Qed.

(** ** Newlines in spans *)

Definition clean ls : Prop := Forall (Forall (fun s => newline ∉ rs_text s)) ls.

Lemma clean_push_span s l :
  newline ∉ rs_text s -> Forall (fun s => newline ∉ rs_text s) l ->
  Forall (fun s => newline ∉ rs_text s) (push_span s l).
Proof.
  intros Hs. induction 1 as [|x l Hx Hl IH]; [by repeat constructor|].
  destruct l as [|y l]; [|by constructor]. cbn. case_match; repeat constructor; cbn; try done.
  rewrite elem_of_app. tauto.
Qed.

Lemma clean_push ls s ls' :
  newline ∉ rs_text s -> push_rich_span ls s = Some ls' -> clean ls -> clean ls'.
Proof.
  intros Hs [[_ ->]|(i & l & -> & ->)]%push_rich_span_Some; [done|]. unfold clean.
  rewrite !Forall_app, !Forall_singleton. intros [? ?]. split; [done|]. by apply clean_push_span.
Qed.

Lemma clean_append ls extra ls' :
  append_rich_lines ls extra = Some ls' -> clean extra -> clean ls -> clean ls'.
Proof.
  destruct extra as [|first rest]; cbn; [by intros [= ->]|]. intros H He Hls.
  apply Forall_cons in He as [Hf Hr].
  destruct (push_rich_spans ls first) as [mid|] eqn:E; [|done]. injection H as <-.
  apply Forall_app. split; [|done]. revert ls Hls E. induction Hf as [|s l Hs _ IH]; intros ls Hls; cbn.
  - by intros [= <-].
  - destruct (push_rich_span ls s) as [mid'|] eqn:E; [|done]. cbn. apply IH. by eapply clean_push.
Qed.

Lemma clean_drop_front ls : clean ls -> clean (drop_empty_front ls).
Proof.
  induction 1 as [|l ls Hl Hls IH]; [constructor|]. destruct l as [|s l]; [|by constructor].
  destruct ls; cbn in *; [by constructor|done].
Qed.

Lemma clean_trim ls : clean ls -> clean (trim_empty_rich_edges ls).
Proof.
  intros H. unfold trim_empty_rich_edges.
  by apply Forall_rev, clean_drop_front, Forall_rev, clean_drop_front.
Qed.

Lemma clean_body ls : clean ls -> Forall (fun raw => newline ∉ body_text raw) ls.
Proof.
  intros Hc. eapply Forall_impl; [exact Hc|]. intros raw Hraw Hin. destruct (body_text_incl raw) as [g Hg].
  assert (Hl : newline ∈ line_text raw) by (rewrite Hg, elem_of_app; by right).
  unfold line_text in Hl. apply list_elem_of_bind in Hl as (s & Hin' & Hs).
  rewrite Forall_forall in Hraw. by apply (Hraw s).
Qed.
End Lines.

(** A constant text has no newline. *)
Ltac no_newline :=
  cbn [rs_text new_span gutter]; refine (bool_decide_unpack _ _); vm_compute; constructor.

(** ** Rendering a tree *)

Inductive tree_all (P : text -> list attribute -> Prop) : node -> Prop :=
| all_text t : tree_all P (NText t)
| all_other children : tree_all P (NOther children)
| all_element name attrs children :
    P name attrs -> Forall (tree_all P) children -> tree_all P (NElement name attrs children).

Lemma node_ind' (P : node -> Prop) :
  (forall t, P (NText t)) -> (forall children, P (NOther children)) ->
  (forall name attrs children, Forall P children -> P (NElement name attrs children)) ->
  forall n, P n.
Proof.
  intros Ht Ho He. fix rec 1. intros [t|name attrs children|children]; [apply Ht| |apply Ho].
  apply He. induction children as [|n ns IH]; constructor; [apply rec|done].
Qed.

Section Render.
Context {Style Color : Type} `{EqDecision Style} (style_default : Style).
Context (fg : Style -> Color -> Style) (add_modifier : Style -> Modifier -> Style).
Context (rgb : Z -> Z -> Z -> Color) (colors : @ColorScheme Color).
Implicit Types (lines ls extra : list (list (RichSpan Style))) (context : @HtmlContext Style).

Abbreviation lines_t := (list (list (RichSpan Style))).
Abbreviation kids_t := (@HtmlContext Style -> lines_t -> option lines_t).
Abbreviation render := (render_html_node style_default fg add_modifier rgb colors).
Abbreviation element := (render_element style_default fg add_modifier rgb colors).

Section Invariant.
Context (ok : text -> Prop) (I : lines_t -> lines_t -> Prop).
Hypothesis ok_clean : forall t, newline ∉ t -> ok t.
Hypothesis I_refl : forall lines, I lines lines.
Hypothesis I_trans : forall a b c, I a b -> I b c -> I a c.
Hypothesis I_push : forall lines s lines',
  ok (rs_text s) -> push_rich_span lines s = Some lines' -> I lines lines'.
Hypothesis I_break : forall lines, I lines (push_rich_line_break lines).
Hypothesis I_append : forall lines extra lines',
  I [[]] extra -> append_rich_lines lines extra = Some lines' -> I lines lines'.
Hypothesis I_quote : forall lines q bar lines',
  I [[]] q -> newline ∉ rs_text bar ->
  append_rich_lines lines (map (cons bar) (trim_empty_rich_edges q)) = Some lines' -> I lines lines'.

(** The attributes whose values reach the lines as they are. *)
Definition attrs_ok (name : text) (attrs : list attribute) : Prop :=
  (name = lit "a" -> forall h, anchor_href attrs = Some h -> ok (trim h)) /\
  (name = lit "span" -> forall l, span_spoiler_label attrs = Some l -> ok l).

Lemma I_break_if_needed lines : I lines (push_rich_line_break_if_needed lines).
Proof. unfold push_rich_line_break_if_needed. by case_match. Qed.

Lemma split_char_clean c t : Forall (fun p => c ∉ p) (split_char c t).
Proof.
  induction t as [|d t IH]; cbn; [by repeat constructor; inversion 1|].
  destruct (Z.eqb_spec d c) as [->|Hne]; [by constructor; [inversion 1|]|].
  destruct (split_char c t) as [|w ws]; inversion IH; subst; constructor; try done.
  all: rewrite not_elem_of_cons; split; [by intros ->|done || by inversion 1].
Qed.

Lemma collapse_clean b t : newline ∉ collapse b t.
Proof.
  revert b. induction t as [|c t IH]; intros b; cbn; [by inversion 1|].
  destruct (is_whitespace c) eqn:E.
  - rewrite elem_of_app. intros [H|H]; [|by eapply IH].
    destruct b; [inversion H|]. by apply list_elem_of_singleton in H.
  - rewrite elem_of_cons. intros [<-|H]; [done|by eapply IH].
Qed.

Lemma trim_start_incl c t : c ∈ trim_start t -> c ∈ t.
Proof. intros H. destruct (trim_start_split t) as (a & _ & ->). set_solver. Qed.

Lemma push_parts_inv index lines parts style lines' :
  Forall (fun p => newline ∉ p) parts -> push_parts index lines parts style = Some lines' -> I lines lines'.
Proof.
  intros Hp. revert index lines. induction Hp as [|p parts Hp _ IH]; intros index lines; cbn.
  { intros [= <-]. apply I_refl. }
  destruct (push_rich_span _ _) as [mid|] eqn:E; [|done]. cbn. intros H%IH.
  eapply I_trans; [|exact H]. eapply I_trans; [|eapply I_push; [|exact E]; by apply ok_clean].
  case_match; auto.
Qed.

Lemma push_html_text_inv lines t style preserve lines' :
  push_html_text lines t style preserve = Some lines' -> I lines lines'.
Proof.
  unfold push_html_text. destruct preserve.
  { apply push_parts_inv, split_char_clean. }
  set (n := if rich_current_line_is_empty lines then _ else _).
  assert (Hn : newline ∉ n).
  { subst n. case_match; [intros ?%trim_start_incl|]; by eapply collapse_clean. }
  destruct (null n); [by intros [= <-]|]. intros Hp. eapply I_push; [|exact Hp]. by apply ok_clean.
Qed.

Section Kids.
Context (kids : kids_t).
Hypothesis kids_inv : forall context lines lines', kids context lines = Some lines' -> I lines lines'.

Lemma render_block_inv lines context lines' :
  render_block_children kids lines context = Some lines' -> I lines lines'.
Proof.
  unfold render_block_children. destruct (kids _ _) as [mid|] eqn:E; [|done]. intros [= <-].
  eapply I_trans; [apply I_break_if_needed|]. eapply I_trans; [by eapply kids_inv|].
  apply I_break_if_needed.
Qed.

Lemma push_target_inv lines visible href st lines' :
  ok href -> push_target style_default fg colors lines visible href st = Some lines' -> I lines lines'.
Proof.
  intros Hh. unfold push_target. case_match.
  - destruct (push_rich_span lines _) as [m|] eqn:E1; [|done]. cbn. intros Hp.
    eapply I_trans; [eapply I_push; [|exact E1]; apply ok_clean; no_newline|].
    by eapply I_push; [|exact Hp].
  - destruct (push_rich_span lines _) as [m|] eqn:E1; [|done]. cbn.
    destruct (push_rich_span m _) as [m'|] eqn:E2; [|done]. cbn. intros Hp.
    eapply I_trans; [eapply I_push; [|exact E1]; apply ok_clean; no_newline|].
    eapply I_trans; [by eapply I_push; [|exact E2]|].
    eapply I_push; [|exact Hp]. apply ok_clean. no_newline.
Qed.

Lemma render_anchor_inv lines context href lines' :
  (forall h, href = Some h -> ok (trim h)) ->
  render_anchor style_default fg add_modifier colors kids lines context href = Some lines' -> I lines lines'.
Proof.
  intros Hok. unfold render_anchor. destruct href as [h|]; [|apply kids_inv].
  specialize (Hok _ eq_refl). destruct (null (trim h)); [by intros [= <-]|].
  destruct (kids _ _) as [ll|] eqn:E; [|done]. apply kids_inv in E. cbn.
  destruct (null _); [intros Hp; by eapply I_push; [|exact Hp]|].
  destruct (append_rich_lines lines ll) as [m|] eqn:Ea; [|done]. cbn.
  apply I_append in Ea; [|done]. destruct (text_eqb _ _); [by intros [= <-]|].
  intros H. eapply I_trans; [exact Ea|]. by eapply push_target_inv.
Qed.

Lemma render_quote_inv lines context lines' :
  render_quote style_default fg colors kids lines context = Some lines' -> I lines lines'.
Proof.
  unfold render_quote. destruct (kids _ _) as [q|] eqn:E; [|done]. apply kids_inv in E. cbn.
  destruct (rich_lines_are_empty _); [intros [= <-]; apply I_break_if_needed|].
  destruct (append_rich_lines _ _) as [m|] eqn:Ea; [|done]. intros [= <-].
  apply I_quote in Ea; [|done|cbn; set_solver].
  eapply I_trans; [apply I_break_if_needed|]. eapply I_trans; [exact Ea|]. apply I_break_if_needed.
Qed.

Lemma render_span_inv lines context attrs lines' :
  (forall l, span_spoiler_label attrs = Some l -> ok l) ->
  render_span fg add_modifier rgb kids lines context attrs = Some lines' -> I lines lines'.
Proof.
  intros Hok. unfold render_span. destruct (span_fg_color rgb attrs) as [c|]; [|done]. cbn.
  destruct (span_spoiler_label attrs) as [l|]; [|apply kids_inv].
  destruct (push_rich_span _ _) as [m|] eqn:E; [|done]. cbn. intros H.
  eapply I_trans; [eapply I_push; [|exact E]; by apply Hok|]. by eapply kids_inv.
Qed.

Lemma render_element_inv name attrs lines context lines' :
  attrs_ok name attrs -> element kids name attrs lines context = Some lines' -> I lines lines'.
Proof.
  intros [Ha Hs]. unfold render_element.
  repeat match goal with |- context [text_eqb name (lit ?x)] =>
    destruct (text_eqb name (lit x)) eqn:?; cbn [orb] end.
  all: try apply kids_inv; try apply render_block_inv; try apply render_quote_inv.
  - intros [= <-]. apply I_break.
  - apply render_anchor_inv. apply Ha. by apply text_eqb_spec.
  - destruct (push_rich_span _ _) as [m|] eqn:E; [|done]. cbn.
    destruct (kids _ m) as [m'|] eqn:E'; [|done]. intros [= <-].
    eapply I_trans; [apply I_break_if_needed|].
    eapply I_trans; [eapply I_push; [|exact E]; apply ok_clean; no_newline|].
    eapply I_trans; [by eapply kids_inv|]. apply I_break_if_needed.
  - apply render_span_inv. apply Hs. by apply text_eqb_spec.
Qed.
End Kids.

Lemma render_kids_inv ns context lines lines' :
  Forall (fun n => forall lines context lines', render n lines context = Some lines' -> I lines lines') ns ->
  render_kids render ns context lines = Some lines' -> I lines lines'.
Proof.
  intros Hns. revert lines. induction Hns as [|n ns Hn _ IH]; intros lines; cbn.
  { intros [= <-]. apply I_refl. }
  destruct (render n lines context) as [m|] eqn:E; [|done]. cbn. intros H.
  eapply I_trans; [by eapply Hn|]. by apply IH.
Qed.

Lemma render_inv n lines context lines' :
  tree_all attrs_ok n -> render n lines context = Some lines' -> I lines lines'.
Proof.
  intros Hn. revert lines context lines'. induction n as [t|ch|name attrs ch IH] using node_ind';
    intros lines context lines'.
  - apply push_html_text_inv.
  - intros [= <-]. apply I_refl.
  - inversion Hn as [| |? ? ? Ha Hch]; subst. cbn [render_html_node].
    apply render_element_inv; [|done]. intros c l l'. apply render_kids_inv.
    rewrite Forall_forall in *. intros n Hin. apply IH; [done|]. by apply Hch.
Qed.
End Invariant.

Lemma tree_all_intro (P : text -> list attribute -> Prop) :
  (forall name attrs, P name attrs) -> forall n, tree_all P n.
Proof. intros HP n. induction n using node_ind'; by constructor. Qed.

(** Values without newlines give lines without newlines. *)
Lemma render_clean n lines context lines' :
  tree_all (attrs_ok (fun t => newline ∉ t)) n ->
  render n lines context = Some lines' -> clean lines -> clean lines'.
Proof.
  intros Hn Hr. revert Hr. apply (render_inv (fun t => newline ∉ t) (fun a b => clean a -> clean b)); auto.
  - intros ls s ls'. apply clean_push.
  - intros ls Hl. apply Forall_app. split; [done|by repeat constructor].
  - intros ls extra ls' He Ha Hls. eapply clean_append; [exact Ha| |done]. apply He. by repeat constructor.
  - intros ls q bar ls' Hq Hb Ha Hls. eapply clean_append; [exact Ha| |done].
    assert (Hc : clean q) by (apply Hq; by repeat constructor).
    apply clean_trim in Hc. apply Forall_map. eapply Forall_impl; [exact Hc|]. by constructor.
Qed.

(** What can be read stays. *)
Definition keeps (a b : lines_t) : Prop :=
  a <> [] -> b <> [] /\ forall h, h <> [] -> shows h a -> shows h b.

Lemma keeps_push ls s ls' : push_rich_span ls s = Some ls' -> keeps ls ls'.
Proof.
  intros H Hne. apply push_grown in H; [|done]. split; [by eapply grown_nonempty|].
  intros h _. by eapply grown_shows.
Qed.

Lemma keeps_append ls extra ls' : append_rich_lines ls extra = Some ls' -> keeps ls ls'.
Proof.
  intros H Hne. split; [by eapply append_nonempty|]. intros h _ Hs. eapply append_shows; eauto.
Qed.

Lemma keeps_trans a b c : keeps a b -> keeps b c -> keeps a c.
Proof.
  intros Hab Hbc Ha. destruct (Hab Ha) as [Hb H1]. destruct (Hbc Hb) as [Hc H2].
  split; [done|]. auto.
Qed.

Lemma keeps_break ls : keeps ls (push_rich_line_break ls).
Proof.
  intros Hne. split; [by destruct ls|]. intros h _ Hs. apply shows_app. by left.
Qed.

Lemma keeps_break_if_needed ls : keeps ls (push_rich_line_break_if_needed ls).
Proof.
  unfold push_rich_line_break_if_needed. case_match; [|apply keeps_break]. by intros ?.
Qed.

Lemma render_keeps n lines context lines' : render n lines context = Some lines' -> keeps lines lines'.
Proof.
  apply (render_inv (fun _ => True) keeps); try done.
  - apply keeps_trans.
  - intros ls s ls' _. apply keeps_push.
  - apply keeps_break.
  - intros ls extra ls' _. apply keeps_append.
  - intros ls q bar ls' _ _. apply keeps_append.
  - by apply tree_all_intro.
Qed.

Lemma render_kids_keeps ns context lines lines' :
  render_kids render ns context lines = Some lines' -> keeps lines lines'.
Proof.
  apply (render_kids_inv keeps); [done|apply keeps_trans|].
  apply Forall_forall. intros n _ ls c ls'. apply render_keeps.
Qed.

(** ** Rendering does not panic on whole-character colours *)

Definition color_ok (name : text) (attrs : list attribute) : Prop :=
  name = lit "span" -> is_Some (span_fg_color rgb attrs).

Lemma push_some ls s : ls <> [] -> exists ls', push_rich_span ls s = Some ls' /\ ls' <> [].
Proof.
  intros Hne. destruct (push_rich_span_total ls s Hne) as [ls' E]. exists ls'. split; [done|].
  by apply (keeps_push _ _ _ E).
Qed.

Lemma push_parts_total index (ls : lines_t) parts style :
  ls <> [] -> exists ls', push_parts index ls parts style = Some ls'.
Proof.
  revert index ls. induction parts as [|p parts IH]; intros index ls Hne; cbn [push_parts]; [eauto|].
  destruct (push_some (if (0 <? index)%nat then push_rich_line_break ls else ls) (new_span p style))
    as (m & -> & Hm); [case_match; [by destruct ls|done]|]. by apply IH.
Qed.

Lemma push_html_text_total ls t style preserve :
  ls <> [] -> exists ls', push_html_text ls t style preserve = Some ls'.
Proof.
  intros Hne. unfold push_html_text. destruct preserve; [by apply push_parts_total|].
  cbn. case_match; [eauto|by apply push_rich_span_total].
Qed.

Section TotalKids.
Context (kids : kids_t).
Hypothesis kids_total : forall context ls, ls <> [] -> exists ls', kids context ls = Some ls' /\ ls' <> [].

Lemma break_if_needed_nonempty ls : ls <> [] -> push_rich_line_break_if_needed ls <> [].
Proof. intros H. by apply keeps_break_if_needed. Qed.
#[local] Hint Resolve break_if_needed_nonempty : core.

Lemma push_target_total ls visible href st :
  ls <> [] -> exists ls', push_target style_default fg colors ls visible href st = Some ls'.
Proof.
  intros Hne. unfold push_target. case_match.
  - edestruct (push_some ls) as (m & -> & Hm); [done|]. by apply push_rich_span_total.
  - edestruct (push_some ls) as (m & -> & Hm); [done|]. cbn.
    edestruct (push_some m) as (m' & -> & Hm'); [done|]. by apply push_rich_span_total.
Qed.

Lemma render_anchor_total ls context href :
  ls <> [] -> exists ls', render_anchor style_default fg add_modifier colors kids ls context href = Some ls'.
Proof.
  intros Hne. unfold render_anchor. destruct href as [h|].
  2: { edestruct kids_total as (m & -> & _); [done|]. eauto. }
  destruct (null (trim h)); [eauto|]. edestruct (kids_total) as (ll & -> & _); [|cbn]; [done|].
  destruct (null _); [by apply push_rich_span_total|].
  destruct (append_rich_lines_total ls ll Hne) as [m E]. rewrite E. cbn.
  destruct (text_eqb _ _); [eauto|]. apply push_target_total. by apply (keeps_append _ _ _ E).
Qed.

Lemma render_element_total name attrs ls context :
  color_ok name attrs -> ls <> [] -> exists ls', element kids name attrs ls context = Some ls'.
Proof.
  intros Hc Hne. unfold render_element.
  assert (Hk : forall c l, l <> [] -> exists l', kids c l = Some l')
    by (intros c l Hl; destruct (kids_total c l Hl) as (l' & ? & _); eauto).
  assert (Hb : forall c, exists ls', render_block_children kids ls c = Some ls').
  { intros c. unfold render_block_children.
    destruct (Hk c (push_rich_line_break_if_needed ls)) as [m ->]; [auto|]. cbn. eauto. }
  repeat match goal with |- context [text_eqb name (lit ?x)] =>
    destruct (text_eqb name (lit x)) eqn:?; cbn [orb] end; eauto.
  - by apply render_anchor_total.
  - unfold render_quote. edestruct kids_total as (q & -> & _); [|cbn]; [done|].
    destruct (rich_lines_are_empty _); [eauto|].
    destruct (append_rich_lines_total (push_rich_line_break_if_needed ls)
      (map (cons (gutter [9612; 32] (fg style_default (input_hint colors)))) (trim_empty_rich_edges q)))
      as [m ->]; [auto|cbn; eauto].
  - edestruct (push_some (push_rich_line_break_if_needed ls)) as (m & -> & Hm); [auto|]. cbn.
    destruct (Hk context m Hm) as [m' ->]. cbn. eauto.
  - unfold render_span. destruct Hc as [c ->]; [by apply text_eqb_spec|]. cbn.
    destruct (span_spoiler_label attrs); [|auto].
    edestruct (push_some ls) as (m & -> & Hm); [done|]. cbn. auto.
Qed.
End TotalKids.

Lemma render_kids_total ns context ls :
  Forall (fun n => forall ls context, ls <> [] -> exists ls', render n ls context = Some ls') ns ->
  ls <> [] -> exists ls', render_kids render ns context ls = Some ls'.
Proof.
  intros Hns. revert ls. induction Hns as [|n ns Hn _ IH]; intros ls Hne; cbn; [eauto|].
  destruct (Hn ls context Hne) as [m E]. rewrite E. cbn. apply IH.
  by apply (render_keeps _ _ _ _ E).
Qed.

Lemma render_total n ls context :
  tree_all color_ok n -> ls <> [] -> exists ls', render n ls context = Some ls'.
Proof.
  intros Hn. revert ls context. induction n as [t|ch|name attrs ch IH] using node_ind';
    intros ls context Hne.
  - by apply push_html_text_total.
  - cbn. eauto.
  - inversion Hn as [| |? ? ? Ha Hch]; subst. cbn [render_html_node].
    apply render_element_total; [|done..]. intros c l Hl.
    destruct (render_kids_total ch c l) as [l' E]; [|done|].
    + rewrite Forall_forall in *. intros n Hin ls' c' Hl'. apply IH; [done| |done]. by apply Hch.
    + exists l'. split; [done|]. by apply (render_kids_keeps _ _ _ _ E).
Qed.
End Render.

(** ** Where links lead *)

(** An [a] element with that target, outside any element that renders nothing of
    its children ([br], and [a] with a blank target). *)
Inductive anchor_in (h : text) : node -> Prop :=
| anchor_here attrs children v :
    anchor_href attrs = Some v -> trim v = h -> anchor_in h (NElement (lit "a") attrs children)
| anchor_below name attrs children n :
    n ∈ children -> anchor_in h n -> name <> lit "br" ->
    (name = lit "a" -> forall v, anchor_href attrs = Some v -> trim v <> []) ->
    anchor_in h (NElement name attrs children).

Lemma blank_trim t : blank (trim t) -> trim t = [].
Proof.
  intros Hb. destruct (trim_trimmed t) as [Hs _].
  pose proof (trim_start_app (trim t) [] Hb) as E. rewrite app_nil_r, Hs in E. exact E.
Qed.

Lemma anchor_not_blank h n : anchor_in h n -> h <> [] -> ~ blank h.
Proof. induction 1 as [attrs ch v _ <-|]; auto. intros Hne Hb. by apply blank_trim in Hb. Qed.

Section Anchors.
Context {Style Color : Type} `{EqDecision Style} (style_default : Style).
Context (fg : Style -> Color -> Style) (add_modifier : Style -> Modifier -> Style).
Context (rgb : Z -> Z -> Z -> Color) (colors : @ColorScheme Color).
Implicit Types (ls : list (list (RichSpan Style))) (context : @HtmlContext Style).

Abbreviation lines_t := (list (list (RichSpan Style))).
Abbreviation kids_t := (@HtmlContext Style -> lines_t -> option lines_t).
Abbreviation render := (render_html_node style_default fg add_modifier rgb colors).
Abbreviation element := (render_element style_default fg add_modifier rgb colors).

Context (h : text) (h_nonempty : h <> []) (h_line : newline ∉ h) (h_visible : ~ blank h).

Lemma push_shows ls s ls' : ls <> [] -> push_rich_span ls s = Some ls' -> shows (rs_text s) ls'.
Proof.
  intros Hne H%push_grown; [|done]. eapply (grown_shows_new _ _ _ _ [] []); [done|].
  by rewrite app_nil_r.
Qed.

Lemma keeps_shows ls ls' : keeps ls ls' -> ls <> [] -> shows h ls -> shows h ls'.
Proof. intros K Hne. by apply K. Qed.

Lemma push_target_shows ls visible st ls' :
  ls <> [] -> push_target style_default fg colors ls visible h st = Some ls' -> shows h ls'.
Proof.
  intros Hne. unfold push_target. case_match.
  - destruct (push_rich_span ls _) as [m|] eqn:E1; [|done]. cbn. intros Hp.
    apply (push_shows _ _ _ ltac:(by apply (keeps_push _ _ _ E1)) Hp).
  - destruct (push_rich_span ls _) as [m|] eqn:E1; [|done]. cbn.
    destruct (push_rich_span m _) as [m'|] eqn:E2; [|done]. cbn. intros Hp.
    assert (Hm : m <> []) by (by apply (keeps_push _ _ _ E1)).
    apply (keeps_push _ _ _ Hp); [by apply (keeps_push _ _ _ E2)|done|].
    apply (push_shows _ _ _ Hm E2).
Qed.

Section ShowsKids.
Context (kids : kids_t).
Hypothesis kids_keeps : forall context ls ls', kids context ls = Some ls' -> keeps ls ls'.

Lemma render_anchor_target ls context v ls' :
  trim v = h -> ls <> [] ->
  render_anchor style_default fg add_modifier colors kids ls context (Some v) = Some ls' -> shows h ls'.
Proof.
  intros Hv Hne. unfold render_anchor. rewrite Hv. destruct (null h) eqn:En; [by destruct h|].
  destruct (kids _ _) as [ll|] eqn:E; [|done]. cbn.
  destruct (null (trim (rich_lines_text ll))); [intros Hp; by apply (push_shows _ _ _ Hne Hp)|].
  destruct (append_rich_lines ls ll) as [m|] eqn:Ea; [|done]. cbn.
  destruct (text_eqb _ _) eqn:Et.
  - intros [= <-]. apply text_eqb_spec in Et. eapply append_shows; [exact Hne|exact Ea|]. right.
    by apply visible_target_shows.
  - apply push_target_shows. by apply (keeps_append _ _ _ Ea).
Qed.

Hypothesis kids_show : forall context ls ls', ls <> [] -> kids context ls = Some ls' -> shows h ls'.

Lemma render_anchor_shows ls context href ls' :
  (forall v, href = Some v -> trim v <> []) -> ls <> [] ->
  render_anchor style_default fg add_modifier colors kids ls context href = Some ls' -> shows h ls'.
Proof.
  intros Hh Hne. unfold render_anchor. destruct href as [v|]; [|by apply kids_show].
  specialize (Hh v eq_refl). destruct (null (trim v)) eqn:En; [by apply null_nil in En|].
  destruct (kids _ _) as [ll|] eqn:E; [|done]. cbn. apply kids_show in E; [|done].
  destruct (null (trim (rich_lines_text ll))) eqn:Ev.
  - apply null_nil, trim_nil_blank in Ev. destruct (shows_in_text _ _ E) as (a & b & Et).
    rewrite Et in Ev. apply Forall_app in Ev as [_ Ev]. by apply Forall_app in Ev as [Ev _].
  - destruct (append_rich_lines ls ll) as [m|] eqn:Ea; [|done]. cbn.
    assert (Hm : shows h m) by (eapply append_shows; [exact Hne|exact Ea|by right]).
    destruct (text_eqb _ _); [by intros [= <-]|]. intros H.
    assert (Hmn : m <> []) by (by apply (keeps_append _ _ _ Ea)).
    refine (keeps_shows m _ _ Hmn Hm).
    refine (push_target_inv _ _ _ (fun _ => True) keeps _ keeps_trans _ _ _ _ _ _ I H); [done|].
    intros l s l' _. apply keeps_push.
Qed.

Lemma render_quote_shows ls context ls' :
  ls <> [] -> render_quote style_default fg colors kids ls context = Some ls' -> shows h ls'.
Proof.
  intros Hne. unfold render_quote. destruct (kids _ _) as [q|] eqn:E; [|done].
  apply kids_show in E; [|done]. cbn. apply trim_edges_shows in E; [|done].
  rewrite (shows_not_empty h _ h_visible E).
  destruct (append_rich_lines _ _) as [m|] eqn:Ea; [|done]. intros [= <-].
  assert (Hb : push_rich_line_break_if_needed ls <> []) by (by apply keeps_break_if_needed).
  apply (keeps_shows m); [apply keeps_break_if_needed|by apply (keeps_append _ _ _ Ea)|].
  eapply append_shows; [exact Hb|exact Ea|right].
  destruct E as (l & a & b & Hl & El). eexists _, ([9612; 32] ++ a), b.
  split; [by apply list_elem_of_fmap_2|]. unfold line_text in *. cbn. by rewrite El.
Qed.

Lemma kids_then_break ls context ls' :
  ls <> [] -> (lines ← kids context ls; Some (push_rich_line_break_if_needed lines)) = Some ls' ->
  shows h ls'.
Proof.
  intros Hne. destruct (kids context ls) as [m|] eqn:E; [|done]. intros [= <-].
  apply (keeps_shows m); [apply keeps_break_if_needed| |by eapply kids_show].
  by apply (kids_keeps _ _ _ E).
Qed.

Lemma render_element_shows name attrs ls context ls' :
  name <> lit "br" ->
  (name = lit "a" -> forall v, anchor_href attrs = Some v -> trim v <> []) -> ls <> [] ->
  element kids name attrs ls context = Some ls' -> shows h ls'.
Proof.
  intros Hbr Ha Hne. unfold render_element.
  assert (Hb : push_rich_line_break_if_needed ls <> []) by (by apply keeps_break_if_needed).
  destruct (text_eqb name (lit "br")) eqn:Ebr; [by apply text_eqb_spec in Ebr|].
  repeat match goal with |- context [text_eqb name (lit ?x)] =>
    destruct (text_eqb name (lit x)) eqn:?; cbn [orb] end.
  all: try (by apply kids_show); try (by apply kids_then_break).
  - apply render_anchor_shows; [apply Ha; by apply text_eqb_spec|done].
  - by apply render_quote_shows.
  - destruct (push_rich_span _ _) as [m|] eqn:E; [|done]. cbn. apply kids_then_break.
    by apply (keeps_push _ _ _ E).
  - unfold render_span. destruct (span_fg_color rgb attrs) as [c|]; [|done]. cbn.
    destruct (span_spoiler_label attrs); [|by apply kids_show].
    destruct (push_rich_span _ _) as [m|] eqn:E; [|done]. cbn. apply kids_show.
    by apply (keeps_push _ _ _ E).
Qed.
End ShowsKids.

Lemma render_kids_shows ns context ls ls' n :
  n ∈ ns -> (forall ls context ls', ls <> [] -> render n ls context = Some ls' -> shows h ls') ->
  ls <> [] -> render_kids render ns context ls = Some ls' -> shows h ls'.
Proof.
  intros Hin Hn. revert ls. induction ns as [|k ns IH]; intros ls Hne; [inversion Hin|]. cbn.
  destruct (render k ls context) as [m|] eqn:E; [|done]. cbn. intros Hr.
  assert (Hm : m <> []) by (by apply (render_keeps _ _ _ _ _ _ _ _ _ E)).
  apply elem_of_cons in Hin as [<-|Hin]; [|by eapply IH].
  apply (keeps_shows m); [by eapply render_kids_keeps|done|eapply Hn; [exact Hne|exact E]].
Qed.

Lemma render_shows n ls context ls' :
  anchor_in h n -> ls <> [] -> render n ls context = Some ls' -> shows h ls'.
Proof.
  intros Hn. revert ls context ls'. induction Hn as [attrs ch v Hv Ht|name attrs ch n Hin _ IH Hbr Ha];
    intros ls context ls' Hne; cbn [render_html_node].
  - unfold render_element.
    change (text_eqb (lit "a") (lit "br")) with false.
    repeat match goal with |- context [text_eqb (lit "a") (lit ?x)] =>
      let b := eval vm_compute in (text_eqb (lit "a") (lit x)) in
      change (text_eqb (lit "a") (lit x)) with b end; cbn [orb].
    rewrite Hv. by apply render_anchor_target.
  - apply render_element_shows; [|by intros c l l' Hl; eapply render_kids_shows|done..].
    intros c l l'. apply render_kids_keeps.
Qed.
End Anchors.

(** ** Colours *)

Section Colours.
Context {Color : Type} (rgb : Z -> Z -> Z -> Color).

(** [{:02x}] of a byte, as [rainbow_html] writes it. *)
Definition hex_char (d : Z) : Z := if d <? 10 then 48 + d else 87 + d.
Definition hex2 (z : Z) : text := [hex_char (z / 16); hex_char (z mod 16)].

Lemma hex_char_range d : 0 <= d < 16 -> 0 <= hex_char d < 128.
Proof. unfold hex_char. case_match; lia. Qed.

Lemma hex_value_char d : 0 <= d < 16 -> hex_value (hex_char d) = Some d.
Proof.
  intros Hr. assert (Hd : d ∈ seqZ 0 16) by (apply elem_of_seqZ; lia).
  change (seqZ 0 16) with [0;1;2;3;4;5;6;7;8;9;10;11;12;13;14;15] in Hd.
  repeat (apply elem_of_cons in Hd as [->|Hd]; [reflexivity|]). inversion Hd.
Qed.

Lemma u8_from_hex2 z : 0 <= z < 256 -> u8_from_hex (hex2 z) = Some z.
Proof.
  intros Hz. assert (0 <= z / 16 < 16) by (split; [apply Z.div_pos|apply Z.div_lt_upper_bound]; lia).
  assert (0 <= z mod 16 < 16) by (apply Z.mod_pos_bound; lia).
  unfold u8_from_hex, hex2.
  assert (hex_char (z / 16) =? 43 = false) as -> by (apply Z.eqb_neq; unfold hex_char; case_match; lia).
  cbn [hex_digits]. rewrite !hex_value_char by done. cbn [mbind option_bind].
  pose proof (Z.div_mod z 16). rewrite !(proj2 (Z.ltb_ge _ _)) by lia. f_equal. lia.
Qed.

Lemma split_at_byte_ascii n t :
  Forall (fun c => 0 <= c < 128) t -> (n <= length t)%nat ->
  split_at_byte (Z.of_nat n) t = Some (take n t, drop n t).
Proof.
  intros Ht. revert n. induction Ht as [|c t Hc Ht IH]; intros [|n] Hn; try done; cbn in Hn; [lia|].
  cbn [split_at_byte]. rewrite (proj2 (Z.eqb_neq _ _)) by lia.
  assert (utf8_char_len c = 1) as -> by (unfold utf8_char_len; rewrite (proj2 (Z.ltb_lt _ _)); lia).
  rewrite (proj2 (Z.ltb_ge _ _)) by lia.
  replace (Z.of_nat (S n) - 1) with (Z.of_nat n) by lia. rewrite IH by lia. done.
Qed.

Lemma byte_slice_ascii a b t :
  Forall (fun c => 0 <= c < 128) t -> (a <= b <= length t)%nat ->
  byte_slice (Z.of_nat a) (Z.of_nat b) t = Some (take (b - a) (drop a t)).
Proof.
  intros Ht Hab. unfold byte_slice. rewrite split_at_byte_ascii by (done || lia). cbn.
  replace (Z.of_nat b - Z.of_nat a) with (Z.of_nat (b - a)) by lia.
  rewrite split_at_byte_ascii; [done|by apply Forall_drop|rewrite length_drop; lia].
Qed.

Lemma three_slices hex :
  Forall (fun c => 0 <= c < 128) hex -> length hex = 6%nat ->
  byte_slice 0 2 hex = Some (take 2 hex) /\ byte_slice 2 4 hex = Some (take 2 (drop 2 hex)) /\
  byte_slice 4 6 hex = Some (take 2 (drop 4 hex)).
Proof.
  intros Hh Hl. split_and!; [apply (byte_slice_ascii 0 2)|apply (byte_slice_ascii 2 4)|
    apply (byte_slice_ascii 4 6)]; done || lia.
Qed.

(** Slicing an ASCII value never falls inside a character. *)
Lemma parse_hex_color_ascii t :
  Forall (fun c => 0 <= c < 128) t -> is_Some (parse_hex_color rgb t).
Proof.
  intros Ht. unfold parse_hex_color. set (hex := default t (strip_prefix_char 35 t)).
  assert (Hh : Forall (fun c => 0 <= c < 128) hex).
  { subst hex. destruct t as [|c t]; [done|]. cbn. inversion Ht. by case_match. }
  destruct (utf8_len hex =? 6) eqn:El; cbn [negb]; [|eauto].
  rewrite utf8_len_ascii in El; [|eapply Forall_impl; [exact Hh|]; cbn; intros; lia].
  apply Z.eqb_eq in El. destruct (three_slices hex Hh ltac:(lia)) as (-> & -> & ->).
  cbn [mbind option_bind]. repeat (case_match; [|eauto]). eauto.
Qed.

(** A colour survives the trip: what [rainbow_html] writes for red, green
    and blue, [parse_hex_color] reads back. *)
Theorem colours_roundtrip r g b :
  0 <= r < 256 -> 0 <= g < 256 -> 0 <= b < 256 ->
  parse_hex_color rgb (35 :: hex2 r ++ hex2 g ++ hex2 b) = Some (Some (rgb r g b)).
Proof.
  intros Hr Hg Hb. remember (hex2 r ++ hex2 g ++ hex2 b) as hex eqn:Eh.
  assert (Hl : length hex = 6%nat) by by rewrite Eh.
  assert (Hh : Forall (fun c => 0 <= c < 128) hex).
  { rewrite Eh. unfold hex2. cbn. repeat constructor; try apply hex_char_range.
    all: try apply Z.mod_pos_bound; try lia.
    all: split; [apply Z.div_pos|apply Z.div_lt_upper_bound]; lia. }
  destruct (three_slices hex Hh Hl) as (E1 & E2 & E3).
  replace (take 2 hex) with (hex2 r) in E1 by by rewrite Eh.
  replace (take 2 (drop 2 hex)) with (hex2 g) in E2 by by rewrite Eh.
  replace (take 2 (drop 4 hex)) with (hex2 b) in E3 by by rewrite Eh.
  unfold parse_hex_color. cbn [strip_prefix_char]. rewrite Z.eqb_refl.
  change (default (35 :: hex) (Some hex)) with hex.
  rewrite utf8_len_ascii by (eapply Forall_impl; [exact Hh|]; cbn; intros; lia).
  rewrite Hl. change (Z.of_nat 6 =? 6) with true. cbn [negb].
  rewrite E1. cbn [mbind option_bind]. rewrite u8_from_hex2, E2 by done. cbn [mbind option_bind].
  rewrite u8_from_hex2, E3 by done. cbn [mbind option_bind]. by rewrite u8_from_hex2.
Qed.
End Colours.

Example colours_roundtrip_witness :
  parse_hex_color (fun r g b => (r, g, b)) t!"#ff7f00" = Some (Some (255, 127, 0)).
Proof. apply (colours_roundtrip (fun r g b => (r, g, b)) 255 127 0); lia. Defined.

(** ** Whole bodies *)

(** Attribute values that are shown hold no newline, and colours are ASCII. *)
Definition plain_values (name : text) (attrs : list attribute) : Prop :=
  (forall v, anchor_href attrs = Some v -> newline ∉ trim v) /\
  (forall v, find_attr (lit "data-mx-spoiler") attrs = Some v -> newline ∉ trim v) /\
  (forall v, find_attr (lit "data-mx-color") attrs = Some v -> Forall (fun c => 0 <= c < 128) (trim v)).

Lemma plain_attrs_ok name attrs : plain_values name attrs -> attrs_ok (fun t => newline ∉ t) name attrs.
Proof.
  intros (Ha & Hs & _). split; [auto|]. intros _ l. unfold span_spoiler_label.
  destruct (find_attr _ attrs) as [v|]; [|done]. specialize (Hs v eq_refl).
  intros E. apply Some_inj in E as <-. destruct (null (trim v)); [no_newline|].
  rewrite !elem_of_app. intros [H'|[H'|H']]; [revert H'; no_newline|done|revert H'; no_newline].
Qed.

Lemma tree_all_impl (P Q : text -> list attribute -> Prop) n :
  (forall name attrs, P name attrs -> Q name attrs) -> tree_all P n -> tree_all Q n.
Proof.
  intros HPQ. induction n as [t|ch|name attrs ch IH] using node_ind'; inversion 1; subst; constructor; auto.
  rewrite Forall_forall in *. auto.
Qed.

Section Bodies.
Context {Style Color : Type} `{EqDecision Style} (style_default : Style).
Context (fg : Style -> Color -> Style) (add_modifier : Style -> Modifier -> Style).
Context (rgb : Z -> Z -> Z -> Color) (colors : @ColorScheme Color).
Context (textwrap_wrap : nat -> text -> list text) (width_cjk : Z -> option nat).
Context (sanitized_nodes : text -> list node).

Abbreviation document := (render_document style_default fg add_modifier rgb colors).
Abbreviation body_lines := (formatted_message_body_lines style_default fg add_modifier rgb
  textwrap_wrap width_cjk sanitized_nodes colors).

Lemma plain_color_ok name attrs : plain_values name attrs -> color_ok rgb name attrs.
Proof.
  intros (_ & _ & Hc) _. unfold span_fg_color. destruct (find_attr _ attrs) as [v|]; [|eauto].
  apply parse_hex_color_ascii. by apply Hc.
Qed.

Lemma document_total nodes :
  Forall (tree_all plain_values) nodes -> exists lines, document nodes = Some lines /\ clean lines.
Proof.
  intros Hn. unfold render_document.
  destruct (render_kids_total style_default fg add_modifier rgb colors nodes
    (html_context style_default false) [[]]) as [lines E]; [|done|].
  - eapply Forall_impl; [exact Hn|]. intros n Hn' ls c. apply render_total.
    eapply tree_all_impl; [|exact Hn']. apply plain_color_ok.
  - exists lines. split; [done|]. revert E.
    assert (Hc : clean (Style:=Style) [[]]) by repeat constructor. revert Hc.
    generalize ([[]] : list (list (RichSpan Style))) as ls.
    induction Hn as [|n ns Hn' _ IH]; intros ls Hc; cbn; [by intros [= <-]|].
    destruct (render_html_node _ _ _ _ _ n ls _) as [m|] eqn:En; [|done]. cbn. apply IH.
    eapply render_clean; [|exact En|exact Hc]. eapply tree_all_impl; [|exact Hn']. apply plain_attrs_ok.
Qed.

Context `{!TextwrapLaws textwrap_wrap}.

(** A formatted body renders: if the values of [href] and
    [data-mx-spoiler] hold no newline and those of [data-mx-color] are ASCII,
    [formatted_message_body_lines] returns, whatever the rest of the document
    is, with no panic and with a bound on the wrapping loop. *)
Theorem plain_bodies_render html first cont :
  (forall html', Forall (tree_all plain_values) (sanitized_nodes html')) ->
  exists bound, forall fuel, (bound <= fuel)%nat ->
    exists result, body_lines fuel html first cont = Returns result.
Proof.
  intros Hn. unfold formatted_message_body_lines.
  destruct (remove_dangerous_returns (S (length html)) html []) as [html' E]; [lia|].
  unfold remove_dangerous_html_blocks. rewrite E. cbn.
  destruct (document_total (sanitized_nodes html') (Hn html')) as (lines & El & Hc).
  rewrite El. cbn. apply clean_trim in Hc.
  set (ls := trim_empty_rich_edges lines) in *.
  exists (foldr Nat.max 0%nat (map (fun l => length (line_text l)) ls)). intros fuel Hf.
  destruct (rich_lines_are_empty ls); [eauto|].
  destruct (wrap_returns textwrap_wrap width_cjk fuel ls first cont) as [rows ->]; [by apply clean_body| |].
  - clear -Hf. induction ls as [|l ls IH]; constructor; cbn in Hf; [|apply IH]; lia.
  - cbn. eauto.
Qed.

(** [C10] No link hides where it leads: whatever its text and wherever it is in
    the document, the target of every anchor can be read on a line of the
    rendered body (a target with a newline aside), and the rows are those lines,
    wrapped. *)
Theorem links_show_where_they_lead fuel html html' first cont h n result :
  remove_dangerous_html_blocks html = Returns html' ->
  n ∈ sanitized_nodes html' -> anchor_in h n -> h <> [] -> newline ∉ h ->
  body_lines fuel html first cont = Returns result ->
  exists lines groups, shows h lines /\
    Forall2 (wrapped_line width_cjk (Nat.max first 1) (Nat.max cont 1)) lines groups /\
    result = Some (rich_lines_to_spans (concat groups)).
Proof.
  intros Hr Hin Ha Hh Hnl. pose proof (anchor_not_blank _ _ Ha Hh) as Hb. unfold formatted_message_body_lines. rewrite Hr. cbn.
  destruct (render_document _ _ _ _ _ _) as [lines|] eqn:E; cbn; [|done].
  assert (Hs : shows h lines).
  { refine (render_kids_shows style_default fg add_modifier rgb colors h Hh _ _ _ _ n Hin _ _ E);
      [|done]. intros ls c ls' Hne. by apply render_shows. }
  apply trim_edges_shows in Hs; [|done]. rewrite (shows_not_empty h _ Hb Hs).
  destruct (wrap_rich_lines _ _ _ _ _ _) as [rows| |] eqn:Ew; cbn; [|done|done]. intros [= <-].
  apply wrap_spec in Ew as (groups & H2 & ->); [|done].
  exists (trim_empty_rich_edges lines), groups. split_and!; [done..|].
  destruct (null (trim_empty_rich_edges lines)) eqn:En; [|done].
  apply null_nil in En. rewrite En in Hs. destruct Hs as (? & ? & ? & Hl & _). inversion Hl.
Qed.
End Bodies.

(** ** Concrete bodies *)

Section Concrete.
Context (nodes : list node).
Definition paint (s c : Z) : Z := c.
Definition keep_style (s : Z) (m : Modifier) : Z := s.
Definition mix (r g b : Z) : Z := r * 65536 + g * 256 + b.
Definition scheme : @ColorScheme Z := {| status := 1; input_hint := 2 |}.
Definition shown (textwrap_wrap : nat -> text -> list text) (fuel : nat) :=
  formatted_message_body_lines 0 paint keep_style mix textwrap_wrap narrow (fun _ => nodes) scheme fuel [] 40 40.
End Concrete.

Definition attr (name value : text) : attribute :=
  {| attr_ns := []; attr_local := name; attr_value := value |}.
Definition link : node :=
  NElement (lit "a") [attr (lit "href") (lit "https://evil.example")] [NText (lit "https://bank.example")].


Example link_is_marked :
  shown [link] chop 100 =
    Returns (Some [[(lit "https://bank.example" ++ [32; 9888; 32] ++ lit "https://evil.exam", 1)];
                   [(lit "ple", 1)]]).
Proof. vm_compute. reflexivity. Qed.

Example plain_bodies_render_witness :
  exists bound, forall fuel, (bound <= fuel)%nat -> exists result, shown [link] chop fuel = Returns result.
Proof.
  apply (plain_bodies_render 0 paint keep_style mix scheme chop narrow (fun _ => [link]) [] 40 40).
  intros _. constructor; [|constructor]. unfold link. constructor; [|repeat constructor].
  split_and!; intros v E; vm_compute in E; try done; injection E as <-; refine (bool_decide_unpack _ _);
    vm_compute; constructor.
Defined.

Example links_show_where_they_lead_witness :
  exists lines groups, shows (lit "https://evil.example") lines /\
    Forall2 (wrapped_line narrow 40 40) lines groups /\
    Some [[(lit "https://bank.example" ++ [32; 9888; 32] ++ lit "https://evil.exam", 1)];
          [(lit "ple", 1)]] = Some (rich_lines_to_spans (concat groups)).
Proof.
  apply (links_show_where_they_lead 0 paint keep_style mix scheme chop narrow (fun _ => [link])
    100 [] [] 40 40 (lit "https://evil.example") link);
    [reflexivity|by left| |done| |vm_compute; reflexivity].
  - by eapply anchor_here.
  - refine (bool_decide_unpack _ _). vm_compute. constructor.
Defined.

(** A newline inside a spoiler's reason is shown as it is, within one line, and
    the wrapping loop never gets past it: the client hangs on the message. *)
Definition spoiler : node :=
  NElement (lit "span") [attr (lit "data-mx-spoiler") (lit "a" ++ [newline] ++ lit "b")] [NText (lit "x")].
Example newline_in_a_spoiler_hangs textwrap_wrap `{!TextwrapLaws textwrap_wrap} fuel :
  shown [spoiler] textwrap_wrap fuel = OutOfFuel.
Proof.
  assert (E : render_document 0 paint keep_style mix scheme [spoiler]
    = Some [[new_span (lit "[a" ++ [newline] ++ lit "b] x") 0]]) by (vm_compute; reflexivity).
  unfold shown, formatted_message_body_lines. change (remove_dangerous_html_blocks []) with (Returns (A:=text) []).
  cbn [mbind outcome_bind]. rewrite E. cbn [or_panic mbind outcome_bind].
  match goal with |- context [rich_lines_are_empty ?l] => change (rich_lines_are_empty l) with false end.
  cbn iota. rewrite wrap_stuck; [reflexivity|done|]. left. refine (bool_decide_unpack _ _). vm_compute. constructor.
Qed.

(** [parse_hex_color] checks the length in bytes and slices by bytes: a value of
    six bytes with a two-byte character across byte 2 panics. *)
Example multibyte_colour_panics :
  shown [NElement (lit "span") [attr (lit "data-mx-color") [97; 233; 233; 98]] []] chop 100 = Panics.
Proof. reflexivity. Qed.

(** Removing one block can put another together. *)
Example script_reassembled :
  remove_dangerous_html_blocks (lit "<scr<script></script>ipt>alert(1)</script>")
  = Returns (lit "<script>alert(1)</script>").
Proof. vm_compute. reflexivity. Qed.
