(* ===== verification/InlineMedia.v ===== *)
(** * Inline images of messages

    crates/axon-store/src/inline_media.rs: the media URLs an event's HTML body
    refers to, lifted into a column when the event is stored, bounded in size and
    number.  ruma_html's parser and sanitizer are the parameter [sanitized_nodes];
    the parsed document is the tree of [HtmlText]. *)

From stdpp Require Import base gmap sets list strings.
From Stdlib Require Import ZArith Lia.
From S2P Require Import Prelude Text RichText HtmlText.

Definition MAX_HTML_BYTES : Z := 65536.
Definition MAX_IMAGES : nat := 64.

(** ** [mxc://] URLs *)

(** [axon_core::media::parse_mxc]. *)
Definition parse_mxc (mxc_url : text) : option (text * text) :=
  rest ← strip_prefix (t! "mxc://") mxc_url;
  '(server, media_id) ← split_once 47 rest;
  if null server || null media_id || bool_decide (47 ∈ media_id) then None
  else Some (server, media_id).

(** ** The walk *)

(** [content\["a"\]\["b"\]]: [Null] where there is nothing. *)
Definition at_key (k : text) (v : json) : json := default JNull (jget k v).
Definition is_string (s : text) (v : json) : bool := bool_decide (as_str v = Some s).

Definition children_of (n : node) : list node :=
  match n with NText _ => [] | NElement _ _ children | NOther children => children end.

(** The [src] of an [img] element. *)
Definition image_src (n : node) : option text :=
  match n with
  | NElement local attrs _ => if bool_decide (local = t! "img") then find_attr (t! "src") attrs else None
  | _ => None
  end.

Definition usable_url (url : text) : bool :=
  (utf8_len url <=? 2048) && bool_decide (is_Some (parse_mxc url)).

(** What one node adds. *)
Definition visit (urls : list text) (n : node) : list text :=
  match image_src n with
  | Some url => if usable_url url && negb (bool_decide (url ∈ urls)) then urls ++ [url] else urls
  | None => urls
  end.

(** The loop; the head of [pending] is the end of the vector.  [None]: still
    running after [fuel] turns. *)
Fixpoint collect_loop (fuel : nat) (pending : list node) (urls : list text) : option (list text) :=
  match fuel with
  | O => None
  | S fuel =>
      match pending with
      | [] => Some urls
      | n :: pending =>
          let next := visit urls n in
          if bool_decide (length next = MAX_IMAGES) && negb (bool_decide (length urls = length next))
          then Some next
          else collect_loop fuel (children_of n ++ pending) next
      end
  end.

Fixpoint node_count (n : node) : nat :=
  match n with
  | NText _ => 1
  | NElement _ _ children | NOther children => S (foldr (fun n k => node_count n + k) 0 children)%nat
  end.
Definition nodes_count (l : list node) : nat := foldr (fun n k => node_count n + k)%nat 0%nat l.

(** ** First occurrences *)

Definition add_first (seen : list text) (x : text) : list text :=
  if bool_decide (x ∈ seen) then seen else seen ++ [x].

(** The first occurrences of a list. *)
Definition first_occurrences (l : list text) : list text :=
  foldl add_first [] l.

Lemma add_first_spec l seen :
  NoDup seen ->
  NoDup (foldl add_first seen l) /\ forall x, x ∈ foldl add_first seen l <-> x ∈ seen \/ x ∈ l.
Proof.
  revert seen. induction l as [|y l IH]; intros seen Hnd; cbn; [split; [done|set_solver]|].
  unfold add_first at 2 4. case_bool_decide as Hy.
  - destruct (IH seen Hnd) as [? H]. split; [done|]. set_solver.
  - destruct (IH (seen ++ [y])) as [? H]; [|split; [done|set_solver]].
    apply NoDup_app. split_and!; [done|set_solver|apply NoDup_singleton].
Qed.

Lemma first_occurrences_spec l :
  NoDup (first_occurrences l) /\ forall x, x ∈ first_occurrences l <-> x ∈ l.
Proof. destruct (add_first_spec l []) as [? H]; [constructor|]. split; [done|]. set_solver. Qed.

Section InlineMedia.
Context (sanitized_nodes : text -> list node).

(** The HTML the event shows, if it is small enough. *)
Definition inline_html (event_type : text) (content : option json) : option text :=
  if negb (bool_decide (event_type = t! "m.room.message")) then None
  else
    content ← content;
    let part := if is_string (t! "m.replace") (at_key (t! "rel_type") (at_key (t! "m.relates_to") content))
                then at_key (t! "m.new_content") content else content in
    if negb (is_string (t! "org.matrix.custom.html") (at_key (t! "format") part)) then None
    else
      html ← as_str (at_key (t! "formatted_body") part);
      if utf8_len html <=? MAX_HTML_BYTES then Some html else None.

Definition inline_media_urls (event_type : text) (content : option json) : list text :=
  match inline_html event_type content with
  | None => []
  | Some html =>
      let nodes := sanitized_nodes html in
      default [] (collect_loop (S (nodes_count nodes)) nodes [])
  end.

(** ** What it computes *)

(** The images of a document in reading order. *)
Fixpoint images_of (n : node) : list text :=
  option_list (image_src n) ++
  match n with NText _ => [] | NElement _ _ children | NOther children => children ≫= images_of end.

Definition visible_urls (nodes : list node) : list text :=
  take MAX_IMAGES (first_occurrences (filter (fun u => usable_url u = true) (nodes ≫= images_of))).

(** ** Lemmas *)

Lemma images_of_unfold n : images_of n = option_list (image_src n) ++ (children_of n ≫= images_of).
Proof. by destruct n. Qed.

Lemma node_count_children n : node_count n = S (nodes_count (children_of n)).
Proof. by destruct n. Qed.

Lemma nodes_count_app a b : nodes_count (a ++ b) = (nodes_count a + nodes_count b)%nat.
Proof. induction a as [|n a IH]; [done|]. cbn. fold (nodes_count (a ++ b)) (nodes_count a). lia. Qed.

Lemma add_first_prefix l seen : exists k, foldl add_first seen l = seen ++ k.
Proof.
  revert seen. induction l as [|x l IH]; intros seen; [exists []; by rewrite app_nil_r|].
  cbn. destruct (IH (add_first seen x)) as [k ->]. unfold add_first. case_bool_decide; [by exists k|].
  exists (x :: k). by rewrite <-app_assoc.
Qed.

(** A node adds its own image. *)
Lemma visit_images urls n :
  visit urls n = foldl add_first urls (filter (fun u => usable_url u = true) (option_list (image_src n))).
Proof.
  unfold visit, add_first. destruct (image_src n) as [u|]; [|done].
  change (option_list (Some u)) with [u]. rewrite filter_cons, filter_nil.
  destruct (usable_url u); case_decide; try done. cbn. by case_bool_decide.
Qed.

Lemma visit_length urls n : length (visit urls n) = length urls \/ length (visit urls n) = S (length urls).
Proof.
  unfold visit. destruct (image_src n) as [u|]; [|by left]. destruct (_ && _); [|by left].
  right. rewrite length_app. cbn. lia.
Qed.

(** The loop ends and returns the first images, in order. *)
Lemma collect_loop_spec fuel pending urls :
  (nodes_count pending < fuel)%nat -> (length urls < MAX_IMAGES)%nat ->
  collect_loop fuel pending urls =
    Some (take MAX_IMAGES (foldl add_first urls
      (filter (fun u => usable_url u = true) (pending ≫= images_of)))).
Proof.
  revert pending urls. induction fuel as [|fuel IH]; intros pending urls Hf Hl; [lia|].
  destruct pending as [|n pending]; cbn [collect_loop].
  - change (([] : list node) ≫= images_of) with ([] : list text). rewrite filter_nil. cbn [foldl]. by rewrite take_ge by lia.
  - cbn [nodes_count foldr] in Hf. fold (nodes_count pending) in Hf. rewrite node_count_children in Hf.
    rewrite bind_cons, images_of_unfold, !filter_app, !foldl_app, <-visit_images.
    pose proof (visit_length urls n) as Hn.
    rewrite <-foldl_app, <-filter_app, <-bind_app.
    case_bool_decide as H64; cbn [andb].
    + rewrite bool_decide_eq_false_2 by lia. cbn [negb].
      destruct (add_first_prefix (filter (fun u => usable_url u = true) ((children_of n ++ pending) ≫= images_of))
        (visit urls n)) as [k ->].
      by rewrite take_app_length'.
    + apply IH; [rewrite nodes_count_app; lia|]. destruct Hn as [Hn|Hn]; lia.
Qed.

(** ** Properties *)

(** [C29] The walk over a message's HTML ends, and what is stored is the first
    [MAX_IMAGES] usable image URLs of the document in reading order, each once;
    an event that is not an HTML message, or whose HTML is too long, stores none. *)
Theorem inline_images_in_reading_order event_type content :
  inline_media_urls event_type content =
  match inline_html event_type content with
  | Some html => visible_urls (sanitized_nodes html)
  | None => []
  end.
Proof.
  unfold inline_media_urls. destruct (inline_html event_type content) as [html|]; [|done].
  rewrite collect_loop_spec; [done|lia|cbn; unfold MAX_IMAGES; lia].
Qed.

End InlineMedia.
