(* ===== verification/Timeline.v ===== *)
(** * The event table and its projection

    Models [events] of the store: [crates/axon-store/src/events.rs] and
    [event_visibility.rs].  A row per event, the proofs of redaction captured
    beside it, the activity marker of its room and the search obligations of each
    write; the projection every read goes through, which folds the latest valid
    edit into its target, tallies reactions and masks what is redacted; the reads
    of a room and of a thread by pages.  A statement is one function on the
    tables ([Db]), atomic as PostgreSQL makes it. *)

From stdpp Require Import base gmap sets list strings sorting.
From Stdlib Require Import ZArith Lia QArith.
From S2P Require Import Prelude Text RoomSweep RoomSummaries RoomState HtmlText InlineMedia.
Open Scope Z_scope.

Definition json_dec : forall x y : json, {x = y} + {x <> y}.
Proof.
  fix IH 1. intros x y.
  destruct x as [|b|n|r|s|l|l], y as [|b'|n'|r'|s'|l'|l']; try (right; discriminate).
  - by left.
  - destruct (decide (b = b')); [left; by subst|right; by intros [=]].
  - destruct (decide (n = n')); [left; by subst|right; by intros [=]].
  - destruct (decide (r = r')); [left; by subst|right; by intros [=]].
  - destruct (decide (s = s')); [left; by subst|right; by intros [=]].
  - destruct (List.list_eq_dec IH l l'); [left; by subst|right; by intros [=]].
  - assert (forall p q : text * json, {p = q} + {p <> q}) as dec; [|
      destruct (List.list_eq_dec dec l l'); [left; by subst|right; by intros [=]]].
    refine (fun p q => match p, q with (k, v), (k', v') => _ end).
    destruct (decide (k = k')), (IH v v'); try (right; congruence). left; by subst.
Defined.
#[export] Instance json_eq_dec : EqDecision json := json_dec.

(** ** Rows *)

(** The columns of [events]. *)
Record Event := MkEvent {
  e_id : Z;
  e_account : uuid;
  e_event_id : text;
  e_room : text;
  e_sender : text;
  e_ts : Z;
  e_type : text;
  e_content : option json;
  e_raw : json;
  e_session : option text;
  e_redacts : option text;
  e_relates : option json;
  e_body : option text;
  e_inline : option (list text);
}.

(** [NewEvent]. *)
Record NewEvent := MkNewEvent {
  n_event_id : text;
  n_room : text;
  n_account : uuid;
  n_sender : text;
  n_ts : Z;
  n_type : text;
  n_content : option json;
  n_raw : json;
  n_session : option text;
  n_redacts : option text;
  n_relates : option json;
  n_body : option text;
}.

(** A document, and what an obligation names: account and event. *)
Abbreviation dockey := (uuid * text)%type.
Definition e_key (e : Event) : dockey := (e_account e, e_event_id e).

(** The activity columns of [room_summaries]. *)
Record Activity := MkActivity {
  last_activity_ts : Z;
  last_event_id : text;
  last_event_row_id : Z;
  last_activity_is_content : bool;
}.

(** The tables.  [accounts] maps an account to its user; [last_id] is the last
    value of [events_id_seq]; [proofs] has the primary key of
    [event_redaction_proofs], account and redaction, and keeps room and target. *)
Record Db := MkDb {
  accounts : gmap uuid text;
  events : list Event;
  last_id : Z;
  proofs : gmap dockey (text * text);
  room_state : gmap uuid (gmap (text * text * text) (StateRow (Jsonb := json)));
  activity : gmap dockey Activity;
}.

Definition M_REDACTION : text := t! "m.room.redaction".
Definition M_REPLACE : text := t! "m.replace".
Definition M_ANNOTATION : text := t! "m.annotation".
Definition M_REACTION : text := t! "m.reaction".
Definition M_THREAD : text := t! "m.thread".

Section Timeline.
(** The text of a [jsonb] value that is not a string, equality of [jsonb] values,
    the value of a [numeric], the collation of the database, and the parser of
    [InlineMedia]. *)
Context (jsonb_out : json -> text) (same_json : json -> json -> bool) (numeric : text -> Q).
Context (collate : text -> text -> bool) (sanitized_nodes : text -> list node).

(** ** [jsonb] *)

(** [->>] and [#>>] end with this: [NULL] for [null]. *)
Definition json_text (v : json) : option text :=
  match v with JNull => None | JStr s => Some s | v => Some (jsonb_out v) end.
(** [v->>'k']. *)
Definition field (k : text) (v : option json) : option text := (v ≫= jget k) ≫= json_text.
(** [v#>>path]. *)
Definition path_text (path : list text) (v : json) : option text :=
  (foldl (fun v k => v ≫= jget k) (Some v) path) ≫= json_text.

Definition rel_type (e : Event) : option text := field (t! "rel_type") (e_relates e).
Definition rel_target (e : Event) : option text := field (t! "event_id") (e_relates e).
Definition state_key (e : Event) : option text := field (t! "state_key") (Some (e_raw e)).

(** ** Redactions *)

Definition redaction_identity (r t : Event) : bool :=
  bool_decide (e_account r = e_account t) && bool_decide (e_room r = e_room t) &&
  bool_decide (e_type r = M_REDACTION) && bool_decide (e_redacts r = Some (e_event_id t)).

(** What follows the first colon of a user id ([LIKE '@%:%']). *)
Definition server_of (user : text) : option text :=
  match user with
  | 64 :: rest => snd <$> split_once 58 rest
  | _ => None
  end.

Definition immutable_redaction_authority (r t : Event) : bool :=
  bool_decide (path_text [t! "unsigned"; t! "redacted_because"; t! "event_id"] (e_raw t)
               = Some (e_event_id r)) ||
  match server_of (e_sender r), server_of (e_sender t) with
  | Some a, Some b => bool_decide (a = b)
  | _, _ => false
  end.

(** [^-?[0-9]{1,16}$], and [power_number]. *)
Definition bounded_integer (s : text) : option Z :=
  let '(sign, ds) := match s with 45 :: ds => (-1, ds) | _ => (1, s) end in
  if (0 <? length ds)%nat && (length ds <=? 16)%nat && forallb is_ascii_digit ds
  then z ← parse_digits 0 ds; Some (sign * z) else None.
Definition power_number (v : json) : option Q :=
  match v with
  | JInt n => Some (inject_Z n)
  | JFloat repr => Some (numeric repr)
  | JStr s => inject_Z <$> bounded_integer s
  | _ => None
  end.

Definition state_row (db : Db) (account : uuid) (room kind : text) : option (StateRow (Jsonb := json)) :=
  room_state db !! account ≫= fun tbl => tbl !! (room, kind, []).
(** [redacted IS DISTINCT FROM true]. *)
Definition standing_row (db : Db) (account : uuid) (room kind : text)
    : option (StateRow (Jsonb := json)) :=
  row ← state_row db account room kind;
  if bool_decide (redacted row = Some true) then None else Some row.

Definition may_redact_by_level (db : Db) (r t : Event) : bool :=
  match standing_row db (e_account t) (e_room t) (t! "m.room.power_levels") with
  | None => false
  | Some power =>
      let get k := content power ≫= jget k in
      let level := default (default (JInt 0) (get (t! "users_default")))
                           (get (t! "users") ≫= jget (e_sender r)) in
      let needed := default (JInt 50) (get (t! "redact")) in
      match power_number level, power_number needed with
      | Some a, Some b => Qle_bool b a
      | _, _ => false
      end
  end.

Definition may_redact_as_creator (db : Db) (r t : Event) : bool :=
  match standing_row db (e_account t) (e_room t) (t! "m.room.create") with
  | None => false
  | Some creation =>
      let listed := match content creation ≫= jget (t! "additional_creators") with
        | Some (JArr l) => existsb (is_string (e_sender r)) l
        | _ => false
        end in
      (bool_decide (field (t! "room_version") (content creation) = Some (t! "12")) &&
        (bool_decide (sender creation = e_sender r) || listed)) ||
      (bool_decide (default (sender creation) (field (t! "creator") (content creation)) = e_sender r) &&
        bool_decide (state_row db (e_account t) (e_room t) (t! "m.room.power_levels") = None))
  end.

Definition redaction_with_current_authority (db : Db) (r t : Event) : bool :=
  redaction_identity r t &&
  (immutable_redaction_authority r t || may_redact_by_level db r t || may_redact_as_creator db r t).

Definition proven (db : Db) (r t : Event) : bool :=
  bool_decide (proofs db !! (e_account t, e_event_id r) = Some (e_room t, e_event_id t)).

Definition redaction_matches (db : Db) (r t : Event) : bool :=
  redaction_identity r t && (immutable_redaction_authority r t || proven db r t).

Definition event_is_redacted (db : Db) (t : Event) : bool :=
  existsb (fun r => redaction_matches db r t) (events db).

(** ** Edits *)

Definition new_content (ev : Event) : option json := e_content ev ≫= jget (t! "m.new_content").

Definition newer (a b : Event) : bool :=
  (e_ts b <? e_ts a) || ((e_ts b =? e_ts a) && (e_id b <? e_id a)).
(** [ORDER BY origin_ts DESC, id DESC LIMIT 1]. *)
Definition latest (l : list Event) : option Event :=
  foldr (fun e best => match best with
    | Some b => if newer b e then Some b else Some e
    | None => Some e
    end) None l.

Definition edits_of (e ev : Event) : bool :=
  bool_decide (e_account ev = e_account e) && bool_decide (e_room ev = e_room e) &&
  bool_decide (rel_type ev = Some M_REPLACE) && bool_decide (rel_target ev = Some (e_event_id e)) &&
  bool_decide (e_sender ev = e_sender e) && bool_decide (e_type ev = e_type e) &&
  bool_decide (state_key ev = None) && bool_decide (state_key e = None) &&
  negb (bool_decide (rel_type e = Some M_REPLACE)) &&
  bool_decide (is_Some (new_content ev ≫= as_object)) &&
  bool_decide (field (t! "msgtype") (new_content ev) = field (t! "msgtype") (e_content e)).

Definition valid_edits (db : Db) (e : Event) : list Event :=
  filter (fun ev => edits_of e ev && negb (event_is_redacted db ev) = true) (events db).

(** [latest_edit_lateral]: the winner, and how many there are. *)
Definition latest_edit (db : Db) (e : Event) : option Event * Z :=
  (latest (valid_edits db e), Z.of_nat (length (valid_edits db e))).

(** ** Reactions *)

(** [COLLATE "C" !~ '[...]']. *)
Definition has_control (s : text) : bool :=
  existsb (fun c => (1 <=? c) && (c <=? 31) || (127 <=? c) && (c <=? 159)) s.

Definition SHORTCODE_TRIM_CHARS : list Z :=
  [32; 160; 5760; 8192; 8193; 8194; 8195; 8196; 8197; 8198; 8199; 8200; 8201; 8202; 8232; 8233;
   8239; 8287; 12288; 65279].
Fixpoint ltrim (s : text) : text :=
  match s with c :: s' => if bool_decide (c ∈ SHORTCODE_TRIM_CHARS) then ltrim s' else s | [] => [] end.
(** [btrim]. *)
Definition btrim (s : text) : text := rev (ltrim (rev (ltrim s))).

Definition shortcode_candidate (content : option json) (name : text) : option text :=
  v ← (content ≫= jget name) ≫= as_str;
  if (1 <=? utf8_len v) && (utf8_len v <=? 100) && negb (bool_decide (btrim v = [])) && negb (has_control v)
  then Some (btrim v) else None.

(** ['^mxc://[^/]+/[^/]+$']. *)
Definition mxc_key (key : text) : bool := bool_decide (is_Some (parse_mxc key)).

Definition reaction_shortcode (rx : Event) : option text :=
  key ← field (t! "key") (e_relates rx);
  if (utf8_len key <=? 2048) && mxc_key key
  then match shortcode_candidate (e_content rx) (t! "shortcode") with
       | Some s => Some s
       | None => shortcode_candidate (e_content rx) (t! "com.beeper.reaction.shortcode")
       end
  else None.

Definition REACTION_AGG_PAIR_CAP : nat := 1000.

Definition reaction_key (rx : Event) : option text := field (t! "key") (e_relates rx).

Definition reacts_to (db : Db) (account : uuid) (room target : text) (rx : Event) : bool :=
  bool_decide (e_account rx = account) && bool_decide (e_room rx = room) &&
  bool_decide (e_type rx = M_REACTION) && bool_decide (rel_type rx = Some M_ANNOTATION) &&
  bool_decide (rel_target rx = Some target) && bool_decide (is_Some (reaction_key rx)) &&
  negb (event_is_redacted db rx).

(** The order of the database on ids, and of the retained pairs. *)
Definition id_le (a b : Event) : Prop := collate (e_event_id a) (e_event_id b) = true.
Definition oldest_le (a b : Event) : Prop :=
  e_ts a < e_ts b \/ (e_ts a = e_ts b /\ id_le a b).
#[local] Instance id_le_dec : RelDecision id_le.
Proof. intros a b. unfold id_le. apply _. Defined.
#[local] Instance oldest_le_dec : RelDecision oldest_le.
Proof. intros a b. unfold oldest_le. apply _. Defined.

(** [DISTINCT ON (sender, key) ... ORDER BY sender, key, event_id]: the first
    row of each pair in the order of the ids. *)
Definition pair_of (rx : Event) : text * option text := (e_sender rx, reaction_key rx).
Fixpoint distinct_on (seen : list (text * option text)) (l : list Event) : list Event :=
  match l with
  | [] => []
  | rx :: l => if bool_decide (pair_of rx ∈ seen) then distinct_on seen l
               else rx :: distinct_on (pair_of rx :: seen) l
  end.

Definition retained_reactions (db : Db) (account : uuid) (room target : text) : list Event :=
  take REACTION_AGG_PAIR_CAP
    (merge_sort oldest_le
      (distinct_on [] (merge_sort id_le
        (filter (fun rx => reacts_to db account room target rx = true) (events db))))).

(** [ReactionTally]. *)
Record ReactionTally := MkTally {
  rt_key : text;
  rt_count : Z;
  rt_senders : list text;
  rt_me : bool;
  rt_my_event_ids : list text;
  rt_shortcode : option text;
}.

#[local] Instance collate_dec : RelDecision (fun a b : text => collate a b = true).
Proof. intros a b. apply _. Defined.

(** One group; [rows] is in the order of [(origin_ts, event_id)]. *)
Definition tally (user : option text) (key : text) (rows : list Event) : ReactionTally :=
  let mine := filter (fun rx => Some (e_sender rx) = user) rows in {|
    rt_key := key;
    rt_count := Z.of_nat (length rows);
    rt_senders := merge_sort (fun a b => collate a b = true) (e_sender <$> rows);
    rt_me := negb (bool_decide (mine = []));
    rt_my_event_ids := merge_sort (fun a b => collate a b = true) (e_event_id <$> mine);
    rt_shortcode := head (omap reaction_shortcode rows) |}.

(** The groups, in the order their keys appear; the answers order them by count
    or collect them in an object. *)
Definition group_keys (rows : list Event) : list text := first_occurrences (omap reaction_key rows).
Definition reaction_tallies (db : Db) (account : uuid) (room target : text) : list ReactionTally :=
  let rows := retained_reactions db account room target in
  (fun key => tally (accounts db !! account) key (filter (fun rx => reaction_key rx = Some key) rows))
    <$> group_keys rows.

(** ** The projection *)

Record TimelineRow := MkRow {
  t_id : Z;
  t_event_id : text;
  t_room : text;
  t_sender : text;
  t_state_key : option text;
  t_prev_content : option json;
  t_ts : Z;
  t_type : text;
  t_content : option json;
  t_body : option text;
  t_relates : option json;
  t_redacts : option text;
  t_redaction : option text;
  t_edited : bool;
  t_edit_count : Z;
  t_latest_edit_ts : option Z;
  t_reactions : option (list ReactionTally);
}.

(** The redaction of the [LATERAL] without an order: the first of the table. *)
Definition redaction_of (db : Db) (e : Event) : option text :=
  e_event_id <$> head (filter (fun r => redaction_matches db r e = true) (events db)).

(** [TIMELINE_SELECT] on one row ([sender_trust] is the column of a sibling table). *)
Definition project (db : Db) (e : Event) : TimelineRow :=
  let r := redaction_of db e in
  let '(edit, count) := latest_edit db e in
  let new := edit ≫= new_content in
  let masked {A} (v : option A) : option A := match r with Some _ => None | None => v end in
  let tallies := reaction_tallies db (e_account e) (e_room e) (e_event_id e) in {|
    t_id := e_id e; t_event_id := e_event_id e; t_room := e_room e; t_sender := e_sender e;
    t_state_key := state_key e;
    t_prev_content := jget (t! "unsigned") (e_raw e) ≫= jget (t! "prev_content");
    t_ts := e_ts e; t_type := e_type e;
    t_content := masked (match new with Some c => Some c | None => e_content e end);
    t_body := masked (match field (t! "body") new with Some b => Some b | None => e_body e end);
    t_relates := e_relates e; t_redacts := e_redacts e; t_redaction := r;
    t_edited := bool_decide (r = None) && bool_decide (is_Some new);
    t_edit_count := match r with None => count | Some _ => 0 end;
    t_latest_edit_ts := masked (e_ts <$> edit);
    t_reactions := match tallies with [] => None | _ => Some tallies end |}.

(** ** Reads *)

Definition find_event (db : Db) (account : uuid) (event_id : text) : option Event :=
  head (filter (fun e => e_key e = (account, event_id)) (events db)).

Definition get_event (db : Db) (account : uuid) (event_id : text) : option TimelineRow :=
  project db <$> find_event db account event_id.

(** [TimelineCursor], and [(origin_ts, id) < (_, _)]. *)
Abbreviation TimelineCursor := (Z * Z)%type.
Definition cursor_of (e : Event) : TimelineCursor := (e_ts e, e_id e).
Definition cursor_lt (a b : TimelineCursor) : Prop := a.1 < b.1 \/ (a.1 = b.1 /\ a.2 < b.2).
#[local] Instance cursor_lt_dec : RelDecision cursor_lt.
Proof. intros a b. unfold cursor_lt. apply _. Defined.

Definition before_cursor (before : option TimelineCursor) (e : Event) : bool :=
  match before with None => true | Some c => bool_decide (cursor_lt (cursor_of e) c) end.

(** [ORDER BY origin_ts DESC, id DESC]. *)
Definition newest_first (a b : Event) : Prop :=
  cursor_lt (cursor_of b) (cursor_of a) \/ cursor_of a = cursor_of b.
#[local] Instance newest_first_dec : RelDecision newest_first.
Proof. intros a b. unfold newest_first. apply _. Defined.

Definition page_rows (keep : Event -> bool) (before : option TimelineCursor) (limit : nat) (db : Db)
    : list Event :=
  take limit (merge_sort newest_first
    (filter (fun e => keep e && before_cursor before e = true) (events db))).

(** The rows of a room that show: edits, reactions and redactions do not. *)
Definition shown_in_room (account : uuid) (room : text) (e : Event) : bool :=
  bool_decide (e_account e = account) && bool_decide (e_room e = room) &&
  negb (bool_decide (e_type e = M_REDACTION)) &&
  negb (bool_decide (rel_type e = Some M_REPLACE)) &&
  negb (bool_decide (rel_type e = Some M_ANNOTATION) && bool_decide (e_type e = M_REACTION)).

Definition room_timeline (db : Db) (account : uuid) (room : text) (before : option TimelineCursor)
    (limit : nat) : list TimelineRow :=
  project db <$> page_rows (shown_in_room account room) before limit db.

Definition in_thread (account : uuid) (room root : text) (e : Event) : bool :=
  bool_decide (e_account e = account) && bool_decide (e_room e = room) &&
  bool_decide (rel_type e = Some M_THREAD) && bool_decide (rel_target e = Some root).

Definition thread_timeline (db : Db) (account : uuid) (room root : text)
    (before : option TimelineCursor) (limit : nat) : list TimelineRow :=
  project db <$> page_rows (in_thread account room root) before limit db.

Definition RELATION_READ_CAP : nat := 1000.

(** The trigger of [events.thread_root]. *)
Definition thread_root (e : Event) : option text :=
  if bool_decide (rel_type e = Some M_THREAD) && bool_decide (state_key e = None)
  then root ← rel_target e; if utf8_len root <=? 255 then Some root else None
  else None.

Record ThreadSummary := MkThread {
  th_root : text;
  th_replies : Z;
  th_latest : option (text * Z);
}.

Definition has_redaction_row (db : Db) (e : Event) : bool :=
  existsb (fun rr => bool_decide (e_account rr = e_account e) && bool_decide (e_type rr = M_REDACTION)
                     && bool_decide (e_redacts rr = Some (e_event_id e))) (events db).

Definition thread_members (db : Db) (account : uuid) (room root : text) : list Event :=
  filter (fun m => bool_decide (e_account m = account) && bool_decide (e_room m = room) &&
                   bool_decide (thread_root m = Some root) && negb (has_redaction_row db m) = true)
    (events db).

(** One group of [room_threads]; the answer orders the groups by their latest
    reply and keeps [RELATION_READ_CAP] of them. *)
Definition thread_summary (db : Db) (account : uuid) (room root : text) : ThreadSummary :=
  let members := thread_members db account room root in
  MkThread root (Z.of_nat (length members)) ((fun e => (e_event_id e, e_ts e)) <$> latest members).

Definition oldest_first (a b : Event) : Prop := newest_first b a.
#[local] Instance oldest_first_dec : RelDecision oldest_first.
Proof. intros a b. unfold oldest_first. apply _. Defined.

(** [event_edits] and [event_replies]. *)
Definition related (keep : Event -> bool) (db : Db) (account : uuid) (event_id : text) : list TimelineRow :=
  match find_event db account event_id with
  | None => []
  | Some t =>
      project db <$> take RELATION_READ_CAP (merge_sort oldest_first
        (filter (fun e => bool_decide (e_account e = account) && bool_decide (e_room e = e_room t) && keep e
                          = true) (events db)))
  end.
Definition event_edits (db : Db) (account : uuid) (event_id : text) : list TimelineRow :=
  related (fun e => bool_decide (rel_type e = Some M_REPLACE) && bool_decide (rel_target e = Some event_id))
    db account event_id.
Definition in_reply_to (e : Event) : option text :=
  field (t! "event_id") (e_relates e ≫= jget (t! "m.in_reply_to")).
Definition event_replies (db : Db) (account : uuid) (event_id : text) : list TimelineRow :=
  related (fun e => bool_decide (rel_type e = None) && bool_decide (in_reply_to e = Some event_id))
    db account event_id.
Definition event_reactions (db : Db) (account : uuid) (event_id : text) : list ReactionTally :=
  match find_event db account event_id with
  | None => []
  | Some t => reaction_tallies db account (e_room t) event_id
  end.

(** ** Writes

    A write returns the tables and the obligations it appends to [search_outbox]. *)

(** [SEARCH_FANOUT_TAIL], for one row of [ins]. *)
Definition fanout (ins : Event) : list dockey :=
  [e_key ins] ++
  option_list (pair (e_account ins) <$> rel_target ins) ++
  option_list (pair (e_account ins) <$> e_redacts ins).

(** [ON CONFLICT DO NOTHING]. *)
Definition insert_proof (m : gmap dockey (text * text)) (p : Event * Event) : gmap dockey (text * text) :=
  match m !! e_key p.1 with
  | Some _ => m
  | None => <[e_key p.1 := (e_room p.2, e_event_id p.2)]> m
  end.

(** [capture_redaction_proofs]: the statement sees the tables as they were. *)
Definition captured_pairs (db : Db) (ins : Event) : list (Event * Event) :=
  (pair ins <$> filter (fun t => redaction_with_current_authority db ins t = true) (events db)) ++
  ((fun r => (r, ins)) <$> filter (fun r => redaction_with_current_authority db r ins = true) (events db)).
Definition capture_redaction_proofs (db : Db) (ins : Event) : gmap dockey (text * text) :=
  foldl insert_proof (proofs db) (captured_pairs db ins).

Definition activity_of (e : Event) : Activity :=
  MkActivity (e_ts e) (e_event_id e) (e_id e) (bool_decide (is_Some (e_body e))).
(** The conflict clause of [ROOM_SUMMARY_TOUCH_TAIL]. *)
Definition touched (old new : Activity) : bool :=
  (last_activity_is_content new && negb (last_activity_is_content old)) ||
  (Bool.eqb (last_activity_is_content new) (last_activity_is_content old) &&
   ((last_activity_ts old <? last_activity_ts new) ||
    ((last_activity_ts old =? last_activity_ts new) &&
     (last_event_row_id old <? last_event_row_id new)))).
Definition touch (m : gmap dockey Activity) (ins : Event) : gmap dockey Activity :=
  let k := (e_account ins, e_room ins) in
  match m !! k with
  | Some old => if touched old (activity_of ins) then <[k := activity_of ins]> m else m
  | None => <[k := activity_of ins]> m
  end.

(** The statement's other parts, over the row written. *)
Definition with_row (db : Db) (rows : list Event) (last : Z) (ins : Event) : Db :=
  MkDb (accounts db) rows last (capture_redaction_proofs db ins) (room_state db) (touch (activity db) ins).

Definition row_of (id : Z) (ev : NewEvent) : Event :=
  MkEvent id (n_account ev) (n_event_id ev) (n_room ev) (n_sender ev) (n_ts ev) (n_type ev)
    (n_content ev) (n_raw ev) (n_session ev) (n_redacts ev) (n_relates ev) (n_body ev)
    (Some (inline_media_urls sanitized_nodes (n_type ev) (n_content ev))).

Definition set_inline (urls : list text) (e : Event) : Event :=
  MkEvent (e_id e) (e_account e) (e_event_id e) (e_room e) (e_sender e) (e_ts e) (e_type e)
    (e_content e) (e_raw e) (e_session e) (e_redacts e) (e_relates e) (e_body e) (Some urls).

Definition replace_row (db : Db) (new : Event) : list Event :=
  (fun e => if decide (e_key e = e_key new) then new else e) <$> events db.

(** [IS NOT DISTINCT FROM] on [jsonb]. *)
Definition same_content (a b : option json) : bool :=
  match a, b with Some a, Some b => same_json a b | None, None => true | _, _ => false end.

(** [upsert_event]: the row's id, or [None] without the account.  The sequence
    moves on a conflict too. *)
Definition upsert_event (ev : NewEvent) (db : Db) : option (Z * Db * list dockey) :=
  match accounts db !! n_account ev with
  | None => None
  | Some _ =>
      let id := last_id db + 1 in
      let db_seq := MkDb (accounts db) (events db) id (proofs db) (room_state db) (activity db) in
      match find_event db (n_account ev) (n_event_id ev) with
      | None =>
          let ins := row_of id ev in
          Some (id, with_row db (events db ++ [ins]) id ins, fanout ins)
      | Some old =>
          let urls := inline_media_urls sanitized_nodes (n_type ev) (n_content ev) in
          if bool_decide (e_inline old = None) && same_content (e_content old) (n_content ev) &&
             bool_decide (e_type old = n_type ev)
          then let ins := set_inline urls old in
               Some (e_id old, with_row db (replace_row db ins) id ins, fanout ins)
          else Some (e_id old, db_seq, [])
      end
  end.

Definition decrypted (content : json) (type : text) (body : option text) (relates : option json)
    (e : Event) : Event :=
  MkEvent (e_id e) (e_account e) (e_event_id e) (e_room e) (e_sender e) (e_ts e) type
    (Some content) (e_raw e) (e_session e) (e_redacts e) relates body
    (Some (inline_media_urls sanitized_nodes type (Some content))).

Definition update_decrypted_event (account : uuid) (event_id : text) (content : json) (type : text)
    (body : option text) (relates : option json) (db : Db) : Db * list dockey :=
  match find_event db account event_id with
  | Some e =>
      match e_content e with
      | None =>
          let ins := decrypted content type body relates e in
          (with_row db (replace_row db ins) (last_id db) ins, fanout ins)
      | Some _ => (db, [])
      end
  | None => (db, [])
  end.

(** [capture_room_redaction_proofs]. *)
Definition newly_proven (db : Db) (account : uuid) (room : text) : list (Event * Event) :=
  filter (fun p => proofs db !! e_key p.1 = None /\ redaction_with_current_authority db p.1 p.2 = true)
    (r ← filter (fun r => e_account r = account /\ e_room r = room /\ e_type r = M_REDACTION) (events db);
     t ← filter (fun t => e_account t = e_account r /\ e_redacts r = Some (e_event_id t)) (events db);
     [(r, t)]).
Definition affected (t : Event) : list dockey :=
  [e_key t] ++ option_list (pair (e_account t) <$> rel_target t).
Definition capture_room_redaction_proofs (account : uuid) (room : text) (db : Db) : Db * list dockey :=
  let pairs := newly_proven db account room in
  (MkDb (accounts db) (events db) (last_id db) (foldl insert_proof (proofs db) pairs) (room_state db)
     (activity db), remove_dups (pairs ≫= fun p => affected p.2)).

Definition set_state (account : uuid) (tbl : gmap (text * text * text) (StateRow (Jsonb := json))) (db : Db)
    : Db :=
  MkDb (accounts db) (events db) (last_id db) (proofs db) (<[account := tbl]> (room_state db)) (activity db).

(** The transaction of [upsert_room_state_with_redaction_and_purge], as far as
    the events go. *)
Definition write_state (account : uuid) (s : RoomStateUpsert (Jsonb := json)) (evidence : RoomStateRedaction)
    (db : Db) : Db * list dockey :=
  let '(tbl, (written, _)) := upsert_statement s evidence (default ∅ (room_state db !! account)) in
  let db := set_state account tbl db in
  let authority := bool_decide (u_key s = []) &&
    bool_decide (u_type s = t! "m.room.power_levels" \/ u_type s = t! "m.room.create") in
  if written && authority then capture_room_redaction_proofs account (u_room s) db else (db, []).

(** ** Deletion *)

Definition deletable (account : uuid) (room : option text) (through : option Z) (e : Event) : bool :=
  bool_decide (e_account e = account) &&
  match room with None => true | Some r => bool_decide (e_room e = r) end &&
  match through with None => true | Some n => e_id e <=? n end.

Definition BATCH : nat := 1000.
(** [gone] is a batch: up to [BATCH] of the rows, all of them if there are fewer. *)
Definition is_batch (account : uuid) (room : option text) (through : option Z) (db : Db)
    (gone : list Event) : Prop :=
  let candidates := filter (fun e => deletable account room through e = true) (events db) in
  NoDup gone /\ (forall e, e ∈ gone -> e ∈ candidates) /\
  length gone = Nat.min BATCH (length candidates).

(** One statement of [delete_event_batches]; the foreign keys cascade to the proofs. *)
Definition delete_batch (account : uuid) (room : option text) (gone : list Event) (db : Db)
    : Db * list dockey :=
  let keys := e_key <$> gone in
  (MkDb (accounts db) (filter (fun e => e_key e ∉ keys) (events db)) (last_id db)
     (filter (fun p => p.1 ∉ keys /\ (p.1.1, p.2.2) ∉ keys) (proofs db)) (room_state db) (activity db),
   match room with
   | None => match gone with [] => [] | _ => [(account, [])] end
   | Some _ => remove_dups ((fun e => (account, e_event_id e)) <$> gone)
   end).

(** The last statement of [delete_account_row], with its cascades. *)
Definition delete_account (account : uuid) (db : Db) : Db * list dockey :=
  match accounts db !! account with
  | None => (db, [])
  | Some _ =>
      (MkDb (delete account (accounts db)) (filter (fun e => e_account e <> account) (events db)) (last_id db)
         (filter (fun p => p.1.1 <> account) (proofs db)) (delete account (room_state db))
         (filter (fun p => p.1.1 <> account) (activity db)), [(account, [])])
  end.

(** [rebuild_room_summaries_for], its activity columns: per room the latest row
    with a body, else the latest row. *)
Definition rebuilt_activity (db : Db) (account : uuid) (room : text) : option Activity :=
  let rows := filter (fun e => e_account e = account /\ e_room e = room) (events db) in
  match latest (filter (fun e => is_Some (e_body e)) rows) with
  | Some e => Some (activity_of e)
  | None => activity_of <$> latest rows
  end.

(** ** Any write *)

Inductive Write :=
| Upsert (ev : NewEvent)
| Decrypt (account : uuid) (event_id : text) (content : json) (type : text) (body : option text)
    (relates : option json)
| State (account : uuid) (s : RoomStateUpsert (Jsonb := json)) (evidence : RoomStateRedaction).

Definition write (w : Write) (db : Db) : Db * list dockey :=
  match w with
  | Upsert ev => match upsert_event ev db with Some (_, db, keys) => (db, keys) | None => (db, []) end
  | Decrypt account event_id content type body relates =>
      update_decrypted_event account event_id content type body relates db
  | State account s evidence => write_state account s evidence db
  end.

Definition writes (l : list Write) (db : Db) : Db := foldl (fun db w => (write w db).1) db l.

(** What the keys of [events] promise: one row per account and event, ids rising. *)
Record wf (db : Db) : Prop := {
  wf_keys : NoDup (e_key <$> events db);
  wf_ids : StronglySorted Z.lt (e_id <$> events db);
  wf_last : Forall (fun e => 0 < e_id e <= last_id db) (events db);
  wf_seq : 0 <= last_id db;
}.

(** ** Lemmas: rows *)

Lemma NoDup_fmap_inj {A B} (f : A -> B) (l : list A) x y :
  NoDup (f <$> l) -> x ∈ l -> y ∈ l -> f x = f y -> x = y.
Proof.
  intros Hnd Hx Hy Hf. apply list_elem_of_lookup in Hx as [i Hi], Hy as [j Hj].
  pose proof (NoDup_lookup _ i j (f x) Hnd) as Hij. rewrite !list_lookup_fmap, Hi, Hj in Hij.
  cbn in Hij. rewrite Hf in Hij. specialize (Hij eq_refl eq_refl). congruence.
Qed.

Lemma find_event_Some db a i e :
  find_event db a i = Some e -> e ∈ events db /\ e_key e = (a, i).
Proof.
  unfold find_event. destruct (filter _ _) as [|e' l] eqn:E; [done|]. intros [= <-].
  assert (e' ∈ filter (fun e => e_key e = (a, i)) (events db)) as H by (rewrite E; by left).
  by apply list_elem_of_filter in H as [? ?].
Qed.

Lemma find_event_None db a i : find_event db a i = None <-> (forall e, e ∈ events db -> e_key e <> (a, i)).
Proof.
  unfold find_event. rewrite head_None, filter_nil_iff, Forall_forall. done.
Qed.

Lemma key_unique db x y :
  NoDup (e_key <$> events db) -> x ∈ events db -> y ∈ events db -> e_key x = e_key y -> x = y.
Proof. apply NoDup_fmap_inj. Qed.

Lemma find_event_unique db e :
  NoDup (e_key <$> events db) -> e ∈ events db -> find_event db (e_account e) (e_event_id e) = Some e.
Proof.
  intros Hnd He. destruct (find_event db (e_account e) (e_event_id e)) as [e'|] eqn:E.
  - apply find_event_Some in E as [He' Hk]. f_equal. by apply (key_unique db).
  - rewrite find_event_None in E. by destruct (E e He).
Qed.

(** [events] after a write of one row. *)
Definition put_row (db : Db) (ins : Event) (rows : list Event) : Prop :=
  match find_event db (e_account ins) (e_event_id ins) with
  | None => rows = events db ++ [ins]
  | Some _ => rows = replace_row db ins
  end.

Lemma put_row_filter db ins rows (P P' : Event -> Prop) `{forall e, Decision (P e), forall e, Decision (P' e)} :
  put_row db ins rows -> ~ P' ins ->
  (forall e, e ∈ events db -> e_key e = e_key ins -> ~ P e) ->
  (forall e, e ∈ events db -> e_key e <> e_key ins -> P e <-> P' e) ->
  filter P (events db) = filter P' rows.
Proof.
  unfold put_row. intros Hrows Hins Hold Hsame.
  destruct (find_event _ _ _) as [o|] eqn:E; subst rows.
  - unfold replace_row. clear E. revert Hold Hsame. generalize (events db). intros l Hold Hsame.
    induction l as [|e l IH]; [done|].
    rewrite fmap_cons, !filter_cons, IH;
      [|intros; apply Hold; [by right|done]|intros; apply Hsame; [by right|done]].
    pose proof (Hold e ltac:(by left)) as H1. pose proof (Hsame e ltac:(by left)) as H2.
    destruct (decide (e_key e = e_key ins)) as [Hk|Hk].
    + specialize (H1 Hk). rewrite (decide_False (P := P e)), (decide_False (P := P' ins)) by done. done.
    + specialize (H2 Hk). do 2 case_decide; by tauto.
  - rewrite find_event_None in E. rewrite filter_app, filter_cons, filter_nil, decide_False by done.
    rewrite app_nil_r. apply filter_ext_in. intros e He. apply Hsame; [done|]. apply E, He.
Qed.

Lemma put_row_elem db ins rows e :
  put_row db ins rows ->
  (e ∈ rows -> e = ins \/ (e ∈ events db /\ e_key e <> e_key ins)) /\
  (e ∈ events db -> e_key e <> e_key ins -> e ∈ rows) /\ ins ∈ rows.
Proof.
  unfold put_row. destruct (find_event _ _ _) as [o|] eqn:E; intros ->.
  - apply find_event_Some in E as [Ho Hk]. unfold replace_row. split; [|split].
    + intros (x & -> & Hx)%list_elem_of_fmap. case_decide; [by left|by right].
    + intros He Hn. apply list_elem_of_fmap. exists e. by rewrite decide_False.
    + apply list_elem_of_fmap. exists o. split; [|done]. rewrite decide_True; [done|exact Hk].
  - rewrite find_event_None in E. split; [|split].
    + intros [He| ->%list_elem_of_singleton]%elem_of_app; [right|by left]. split; [done|]. apply E, He.
    + intros He _. apply elem_of_app. by left.
    + apply elem_of_app. right. by left.
Qed.

Lemma put_row_find db ins rows db' a i :
  put_row db ins rows -> events db' = rows -> (a, i) <> e_key ins ->
  find_event db' a i = find_event db a i.
Proof.
  intros Hput Hev Hk. unfold find_event. rewrite Hev. symmetry. f_equal.
  eapply put_row_filter; [done|congruence|congruence|done].
Qed.

(** ** Lemmas: redactions *)

Lemma event_is_redacted_iff db t :
  event_is_redacted db t = true <-> exists r, r ∈ events db /\ redaction_matches db r t = true.
Proof.
  unfold event_is_redacted. rewrite existsb_exists. by setoid_rewrite list_elem_of_In.
Qed.

Lemma redaction_identity_spec r t :
  redaction_identity r t = true ->
  e_account r = e_account t /\ e_room r = e_room t /\ e_type r = M_REDACTION /\
  e_redacts r = Some (e_event_id t).
Proof. unfold redaction_identity. intros H. b2p. repeat case_bool_decide; done. Qed.

Lemma current_authority_identity db r t :
  redaction_with_current_authority db r t = true -> redaction_identity r t = true.
Proof. unfold redaction_with_current_authority. intros H. by b2p. Qed.

Lemma redaction_matches_identity db r t : redaction_matches db r t = true -> redaction_identity r t = true.
Proof. unfold redaction_matches. intros H. by b2p. Qed.

Lemma foldl_insert_proof_keep l m k v : m !! k = Some v -> foldl insert_proof m l !! k = Some v.
Proof.
  revert m. induction l as [|p l IH]; intros m Hm; [done|]. cbn. apply IH. unfold insert_proof.
  destruct (m !! e_key p.1) eqn:E; [done|]. rewrite lookup_insert_ne; [done|congruence].
Qed.

Lemma foldl_insert_proof_new l m k v :
  foldl insert_proof m l !! k = Some v ->
  m !! k = Some v \/ exists p, p ∈ l /\ e_key p.1 = k /\ v = (e_room p.2, e_event_id p.2).
Proof.
  revert m. induction l as [|p l IH]; intros m; [by left|]. cbn. intros [Hm|(q & Hq & ?)]%IH.
  - unfold insert_proof in Hm. destruct (m !! e_key p.1); [by left|].
    destruct (decide (e_key p.1 = k)) as [<-|]; [|rewrite lookup_insert_ne in Hm by done; by left].
    rewrite lookup_insert_eq in Hm. injection Hm as <-. right. exists p. split; [by left|done].
  - right. exists q. split; [by right|done].
Qed.

Lemma captured_pairs_spec db ins p :
  p ∈ captured_pairs db ins -> redaction_with_current_authority db p.1 p.2 = true /\ (p.1 = ins \/ p.2 = ins).
Proof.
  unfold captured_pairs. intros [(t & -> & Ht)%list_elem_of_fmap|(r & -> & Hr)%list_elem_of_fmap]%elem_of_app.
  - apply list_elem_of_filter in Ht as [? _]. split; [done|by left].
  - apply list_elem_of_filter in Hr as [? _]. split; [done|by right].
Qed.

(** A match over two tables whose proofs agree on it. *)
Lemma redaction_matches_ext db db' r t :
  (redaction_identity r t = true ->
   proofs db !! (e_account t, e_event_id r) = Some (e_room t, e_event_id t) <->
   proofs db' !! (e_account t, e_event_id r) = Some (e_room t, e_event_id t)) ->
  redaction_matches db r t = redaction_matches db' r t.
Proof.
  unfold redaction_matches, proven. intros H. destruct (redaction_identity r t); [|done].
  specialize (H eq_refl). cbn. f_equal. by apply bool_decide_ext.
Qed.

(** The new proofs concern the row written. *)
Lemma captured_proofs_ext db ins r t :
  redaction_identity r t = true -> e_key t <> e_key ins ->
  (e_key r = e_key ins -> False) ->
  proofs db !! (e_account t, e_event_id r) = Some (e_room t, e_event_id t) <->
  capture_redaction_proofs db ins !! (e_account t, e_event_id r) = Some (e_room t, e_event_id t).
Proof.
  intros Hid Ht Hr. apply redaction_identity_spec in Hid as (Ha & Hroom & Hty & Hred).
  unfold capture_redaction_proofs. split; [apply foldl_insert_proof_keep|].
  intros [?|(p & Hp & Hk & Hv)]%foldl_insert_proof_new; [done|exfalso].
  apply captured_pairs_spec in Hp as [Hauth Hins].
  apply current_authority_identity, redaction_identity_spec in Hauth as (Hpa & _ & _ & Hpr).
  injection Hk as Hk1 Hk2. injection Hv as _ Hv.
  destruct Hins as [E|E]; subst ins.
  - apply Hr. unfold e_key. congruence.
  - apply Ht. unfold e_key. congruence.
Qed.

(** A target the row written does not redact keeps its state. *)
Definition not_redacted_by (ins t : Event) : Prop :=
  e_account ins = e_account t -> e_redacts ins <> Some (e_event_id t).

Lemma not_redacted_by_identity ins t r :
  not_redacted_by ins t -> e_account r = e_account ins -> e_redacts r = e_redacts ins ->
  redaction_identity r t = false.
Proof.
  intros Hn Ha Hr. destruct (redaction_identity r t) eqn:E; [|done].
  apply redaction_identity_spec in E as (? & _ & _ & ?). destruct Hn; congruence.
Qed.

(** The row a write replaces names the same redaction target. *)
Definition keeps_redacts (db : Db) (ins : Event) : Prop :=
  forall e, e ∈ events db -> e_key e = e_key ins -> e_redacts e = e_redacts ins.

Lemma keeps_redacts_identity db ins t r :
  keeps_redacts db ins -> not_redacted_by ins t -> r ∈ events db -> e_key r = e_key ins ->
  redaction_identity r t = false.
Proof.
  intros Hkeep Hn Hr Hk. eapply not_redacted_by_identity; [done| |by apply Hkeep].
  by injection Hk.
Qed.

Lemma matches_elsewhere db ins rows last r t :
  e_key t <> e_key ins -> e_key r <> e_key ins ->
  redaction_matches (with_row db rows last ins) r t = redaction_matches db r t.
Proof.
  intros Ht Hr. apply redaction_matches_ext. intros Hid. symmetry.
  by apply captured_proofs_ext.
Qed.

Lemma redacted_elsewhere db ins rows last t :
  put_row db ins rows -> keeps_redacts db ins -> e_key t <> e_key ins -> not_redacted_by ins t ->
  event_is_redacted (with_row db rows last ins) t = event_is_redacted db t.
Proof.
  intros Hput Hkeep Ht Hn. apply eq_true_iff_eq. rewrite !event_is_redacted_iff.
  assert (forall r, r ∈ rows \/ r ∈ events db -> e_key r = e_key ins -> redaction_identity r t = false) as Hsame.
  { intros r [Hr|Hr] Hk; [|by eapply keeps_redacts_identity].
    apply (put_row_elem _ _ _ _ Hput) in Hr as [->|[? ?]]; [|done].
    by eapply not_redacted_by_identity. }
  split; intros (r & Hr & Hm).
  - pose proof (redaction_matches_identity _ _ _ Hm) as Hid.
    assert (e_key r <> e_key ins) as Hk.
    { intros Hk. rewrite Hsame in Hid; [done|by left|done]. }
    exists r. cbn in Hr. apply (put_row_elem _ _ _ _ Hput) in Hr as [->|[Hr _]]; [done|].
    split; [done|]. by rewrite matches_elsewhere in Hm.
  - pose proof (redaction_matches_identity _ _ _ Hm) as Hid.
    assert (e_key r <> e_key ins) as Hk.
    { intros Hk. rewrite Hsame in Hid; [done|by right|done]. }
    exists r. split; [by apply (put_row_elem _ _ _ _ Hput)|]. by rewrite matches_elsewhere.
Qed.

(** ** Lemmas: edits *)

Lemma edits_of_spec e ev :
  edits_of e ev = true ->
  e_account ev = e_account e /\ rel_type ev = Some M_REPLACE /\ rel_target ev = Some (e_event_id e) /\
  rel_type e <> Some M_REPLACE /\ is_Some (e_content ev).
Proof.
  unfold edits_of. intros H. rewrite !andb_true_iff, negb_true_iff, !bool_decide_eq_true, bool_decide_eq_false in H.
  destruct_and! H. do 4 (split; [done|]).
  match goal with H : is_Some _ |- _ => destruct H as [x Hx] end.
  unfold new_content in Hx. by destruct (e_content ev).
Qed.

(** The rows whose edit state the write of [ins] can change: what [ins] edits, and
    what is edited by the row [ins] redacts. *)
Definition edit_redacted (db : Db) (ins : Event) (key : dockey) : Prop :=
  exists ev, ev ∈ events db /\ e_account ev = e_account ins /\ e_redacts ins = Some (e_event_id ev) /\
    rel_type ev = Some M_REPLACE /\ rel_target ev = Some key.2 /\ key.1 = e_account ins.

(** A replaced row was no edit, or edited the same event. *)
Definition keeps_target (db : Db) (ins : Event) : Prop :=
  forall e, e ∈ events db -> e_key e = e_key ins -> e_content e = None \/ rel_target e = rel_target ins.

Lemma valid_edits_elsewhere db ins rows last e :
  put_row db ins rows -> keeps_redacts db ins -> keeps_target db ins ->
  ~ (e_account ins = e_account e /\ rel_target ins = Some (e_event_id e)) ->
  ~ edit_redacted db ins (e_key e) ->
  valid_edits (with_row db rows last ins) e = valid_edits db e.
Proof.
  intros Hput Hkeep Htgt Hrel Hno. symmetry. unfold valid_edits.
  assert (forall ev, e_account ev = e_account ins -> rel_target ev = rel_target ins ->
                     edits_of e ev = false) as Hnot.
  { intros ev Ha Ht. destruct (edits_of e ev) eqn:E; [|done].
    apply edits_of_spec in E as (? & _ & ? & _). destruct Hrel. split; congruence. }
  apply (put_row_filter db ins); [done| | |].
  - cbn. by rewrite Hnot.
  - intros ev Hev Hk. destruct (Htgt ev Hev Hk) as [Hc|Hc].
    + destruct (edits_of e ev) eqn:E; [|done].
      apply edits_of_spec in E as (_ & _ & _ & _ & [? ?]). congruence.
    + rewrite Hnot; [done|by injection Hk|done].
  - intros ev Hev Hk. destruct (edits_of e ev) eqn:E; [|done]. rewrite (redacted_elsewhere db ins rows last ev); try done.
    intros Ha Hr. apply edits_of_spec in E as (? & ? & ? & _). apply Hno.
    exists ev. cbn. repeat split; try done; congruence.
Qed.

(** ** Lemmas: the projection *)

Lemma redaction_of_None db e : redaction_of db e = None <-> event_is_redacted db e = false.
Proof.
  unfold redaction_of. rewrite fmap_None, head_None, filter_nil_iff, Forall_forall.
  rewrite <-not_true_iff_false, event_is_redacted_iff. naive_solver.
Qed.

(** What a reader of content sees depends on the redaction and on the valid edits. *)
Lemma project_masks db e :
  event_is_redacted db e = true ->
  is_Some (t_redaction (project db e)) /\ t_content (project db e) = None /\
  t_body (project db e) = None /\ t_edited (project db e) = false /\
  t_edit_count (project db e) = 0 /\ t_latest_edit_ts (project db e) = None.
Proof.
  intros H. destruct (redaction_of db e) as [r|] eqn:E; [|rewrite redaction_of_None in E; congruence].
  unfold project. cbn. rewrite E. by split_and!.
Qed.

Lemma project_body db e :
  t_body (project db e) =
  if event_is_redacted db e then None
  else match field (t! "body") (latest (valid_edits db e) ≫= new_content) with
       | Some b => Some b
       | None => e_body e
       end.
Proof.
  destruct (event_is_redacted db e) eqn:E; [by apply project_masks|].
  apply redaction_of_None in E. unfold project. cbn. by rewrite E.
Qed.

(** ** Lemmas: writes *)

(** What a replaced row and its replacement share. *)
Definition same_event (a b : Event) : Prop :=
  e_id a = e_id b /\ e_key a = e_key b /\ e_room a = e_room b /\ e_sender a = e_sender b /\
  e_ts a = e_ts b /\ e_raw a = e_raw b /\ e_redacts a = e_redacts b.

(** A write of one row. *)
Record row_write (db : Db) (ins : Event) (rows : list Event) : Prop := {
  rw_put : put_row db ins rows;
  rw_redacts : keeps_redacts db ins;
  rw_target : keeps_target db ins;
  rw_same : forall old, old ∈ events db -> e_key old = e_key ins -> same_event old ins;
}.

(** The tables differ at most in what no reader of events looks at. *)
Definition same_rows (db db' : Db) : Prop :=
  events db' = events db /\ proofs db' = proofs db /\ activity db' = activity db /\
  last_id db <= last_id db'.
Definition id_ok (db : Db) (ins : Event) (last : Z) : Prop :=
  last_id db <= last /\
  (find_event db (e_account ins) (e_event_id ins) = None -> last_id db < e_id ins <= last).

Definition keeps_type (db : Db) (ins : Event) : Prop :=
  forall old, old ∈ events db -> e_key old = e_key ins -> e_type old = M_REDACTION -> e_type ins = M_REDACTION.

(** Bodies come from content; a row without content gains its body with it. *)
Definition utd_ok (db : Db) : Prop :=
  forall e, e ∈ events db -> e_content e = None -> e_body e = None.
Definition keeps_body (db : Db) (ins : Event) : Prop :=
  forall old, old ∈ events db -> e_key old = e_key ins -> is_Some (e_body old) -> e_body ins = e_body old.

(** Only rows that are still encrypted are decrypted. *)
Definition decrypts_encrypted (w : Write) (db : Db) : Prop :=
  match w with
  | Decrypt a i _ _ _ _ => forall e, find_event db a i = Some e -> e_type e = t! "m.room.encrypted"
  | _ => True
  end.

(** The event that the row of a write redacts. *)
Definition write_redacts (w : Write) (db : Db) : option dockey :=
  match w with
  | Upsert ev =>
      pair (n_account ev) <$>
        match find_event db (n_account ev) (n_event_id ev) with
        | Some old => e_redacts old
        | None => n_redacts ev
        end
  | Decrypt a i _ _ _ _ => pair a <$> (find_event db a i ≫= e_redacts)
  | State _ _ _ => None
  end.

Inductive wrote (encrypted : Prop) (red : option dockey) (db : Db) : Db -> list dockey -> Prop :=
| wrote_nothing db' : same_rows db db' -> wrote encrypted red db db' []
| wrote_row rows last ins :
    row_write db ins rows -> id_ok db ins last -> (encrypted -> keeps_type db ins) ->
    red = pair (e_account ins) <$> e_redacts ins -> (utd_ok db -> keeps_body db ins) ->
    wrote encrypted red db (with_row db rows last ins) (fanout ins)
| wrote_state db0 account room :
    same_rows db db0 ->
    wrote encrypted red db (capture_room_redaction_proofs account room db0).1
      (capture_room_redaction_proofs account room db0).2.

Lemma fresh_row_write db ev id :
  find_event db (n_account ev) (n_event_id ev) = None ->
  row_write db (row_of id ev) (events db ++ [row_of id ev]).
Proof.
  intros E. pose proof E as E'. rewrite find_event_None in E'.
  assert (forall e, e ∈ events db -> e_key e = e_key (row_of id ev) -> False) as Hno by (intros e He; apply E', He).
  constructor; [unfold put_row; cbn; by rewrite E|..]; intros e He Hk; by destruct (Hno e He).
Qed.

Lemma replaced_row_write db old ins :
  NoDup (e_key <$> events db) -> old ∈ events db -> same_event old ins ->
  e_content old = None \/ rel_target old = rel_target ins ->
  row_write db ins (replace_row db ins).
Proof.
  intros Hnd Hold Hsame Htgt.
  assert (forall e, e ∈ events db -> e_key e = e_key ins -> e = old) as Huniq.
  { intros e He Hk. destruct Hsame as (_ & Hko & _).
    pose proof (find_event_unique db e Hnd He) as H1. pose proof (find_event_unique db old Hnd Hold) as H2.
    rewrite <-Hko in Hk. injection Hk as Ha Hi. congruence. }
  pose proof Hsame as (_ & Hk & _). constructor.
  - unfold put_row. injection Hk as Ha Hi. rewrite <-Ha, <-Hi, find_event_unique by done. done.
  - intros e He Hke. rewrite (Huniq e He Hke). apply Hsame.
  - intros e He Hke. by rewrite (Huniq e He Hke).
  - intros e He Hke. by rewrite (Huniq e He Hke).
Qed.

Lemma find_event_known db e : e ∈ events db -> find_event db (e_account e) (e_event_id e) <> None.
Proof. rewrite find_event_None. intros He H. by apply (H e He). Qed.

Lemma write_wrote w db :
  NoDup (e_key <$> events db) -> 
    wrote (decrypts_encrypted w db) (write_redacts w db) db (write w db).1 (write w db).2.
Proof.
  intros Hnd. destruct w as [ev|a i c ty b r|a s evd]; cbn.
  - unfold upsert_event. destruct (accounts db !! n_account ev); [|constructor; split_and!; try done; lia].
    destruct (find_event db (n_account ev) (n_event_id ev)) as [old|] eqn:E.
    + pose proof E as Eid. apply find_event_Some in E as [Hold [= Ha Hi]].
      destruct (_ && _); [|constructor; split_and!; try done; cbn; lia].
      constructor; [apply (replaced_row_write db old _ Hnd Hold); [by split_and!|by right]|..].
      * split; [lia|]. cbn. by intros H%(find_event_known db old).
      * intros _ x Hx Hk Ht. cbn. by rewrite <-(key_unique db x old Hnd Hx Hold Hk).
      * cbn. by rewrite Ha.
      * intros _ x Hx Hk _. cbn. by rewrite (key_unique db x old Hnd Hx Hold Hk).
    + constructor; [by apply fresh_row_write|..]; [split; [lia|]; cbn; lia| |done|];
        intros _ x Hx Hk _; rewrite find_event_None in E; by destruct (E x Hx).
  - unfold update_decrypted_event. destruct (find_event db a i) as [old|] eqn:E;
      [|constructor; split_and!; try done; lia].
    apply find_event_Some in E as [Hold [= Ha Hi]].
    destruct (e_content old) eqn:Ec; [constructor; split_and!; try done; lia|].
    constructor; [apply (replaced_row_write db old _ Hnd Hold); [by split_and!|by left]|..].
    + split; [lia|]. cbn. by intros H%(find_event_known db old).
    + intros Henc x Hx Hk Ht. rewrite (key_unique db x old Hnd Hx Hold Hk), (Henc old eq_refl) in Ht. done.
    + cbn. by rewrite Ha.
    + intros Hutd x Hx Hk [? Hb]. rewrite (key_unique db x old Hnd Hx Hold Hk), Hutd in Hb; done.
  - unfold write_state. destruct (upsert_statement _ _ _) as [tbl [written ?]].
    destruct (_ && _); [|constructor; split_and!; try done; cbn; lia].
    apply wrote_state. split_and!; try done; cbn; lia.
Qed.

Lemma replace_row_fmap {A} (f : Event -> A) db ins :
  (forall e, e ∈ events db -> e_key e = e_key ins -> f e = f ins) ->
  f <$> replace_row db ins = f <$> events db.
Proof.
  unfold replace_row. generalize (events db). intros l Hf. rewrite <-list_fmap_compose.
  apply list_fmap_ext. intros i e He%list_elem_of_lookup_2. cbn. case_decide; [|done]. symmetry. by apply Hf.
Qed.

Lemma put_row_wf db ins rows last :
  row_write db ins rows -> id_ok db ins last -> wf db -> wf (with_row db rows last ins).
Proof.
  intros [Hput _ _ Hsame] [Hlast Hid] [Hk Hs Hl Hq]. unfold put_row in Hput.
  destruct (find_event db _ _) as [old|] eqn:E; subst rows.
  - assert (e_key <$> replace_row db ins = e_key <$> events db) as E1 by (by apply replace_row_fmap).
    assert (e_id <$> replace_row db ins = e_id <$> events db) as E2.
    { apply replace_row_fmap. intros e He Hke. by apply Hsame. }
    constructor; cbn; [by rewrite E1|by rewrite E2| |lia].
    apply Forall_forall. intros e He. pose proof (list_elem_of_fmap_2 e_id _ _ He) as Hi.
    rewrite E2 in Hi. apply list_elem_of_fmap in Hi as (e' & -> & He').
    pose proof (proj1 (Forall_forall _ _) Hl e' He'). cbn in *. lia.
  - specialize (Hid eq_refl). rewrite find_event_None in E. constructor; cbn; [..|lia].
    + rewrite fmap_app. apply NoDup_app. split_and!; [done| |apply NoDup_singleton].
      intros k (e & -> & He)%list_elem_of_fmap Hk'%list_elem_of_singleton. by apply (E e He).
    + rewrite fmap_app. apply StronglySorted_snoc; [done|]. apply Forall_forall.
      intros i (e & -> & He)%list_elem_of_fmap. pose proof (proj1 (Forall_forall _ _) Hl e He). cbn in *. lia.
    + apply Forall_app. split; [eapply Forall_impl; [done|]; cbn; lia|]. repeat constructor; lia.
Qed.

Lemma same_rows_wf db db' : same_rows db db' -> wf db -> wf db'.
Proof.
  intros (He & _ & _ & Hl) [Hk Hs Hf Hq]. constructor; rewrite ?He; [done..| |lia].
  eapply Forall_impl; [done|]. cbn. lia.
Qed.

Lemma removal_wf db db' (keep : Event -> Prop) `{forall e, Decision (keep e)} :
  events db' = filter keep (events db) -> last_id db' = last_id db -> wf db -> wf db'.
Proof.
  intros He Hl [Hk Hs Hf Hq]. constructor; rewrite ?He, ?Hl; [| | |done].
  - eapply sublist_NoDup; [exact Hk|]. clear. induction (events db) as [|e l IH]; [done|].
    rewrite filter_cons. case_decide; cbn; by constructor.
  - clear -Hs. induction (events db) as [|e l IH]; [done|]. rewrite fmap_cons in Hs.
    apply StronglySorted_cons in Hs as [Hf Hs]. rewrite filter_cons. case_decide; [|by apply IH].
    rewrite fmap_cons. constructor; [by apply IH|]. apply Forall_forall.
    intros i (x & -> & [_ Hx]%list_elem_of_filter)%list_elem_of_fmap.
    apply (proj1 (Forall_forall _ _) Hf). apply list_elem_of_fmap. by exists x.
  - apply Forall_forall. intros e [_ Hx]%list_elem_of_filter. by apply (proj1 (Forall_forall _ _) Hf).
Qed.

Lemma write_wf w db : wf db -> wf (write w db).1.
Proof.
  intros Hwf. destruct (write_wrote w db (wf_keys _ Hwf)) as [db' H|rows last ins H Hid _ _ _|db0 a r H].
  - by eapply same_rows_wf.
  - by apply put_row_wf.
  - pose proof (same_rows_wf _ _ H Hwf) as [? ? ? ?]. by constructor.
Qed.

(** ** What a write changes *)

(** [key] has an edit, and the write redacts it. *)
Definition redacts_edit_of (w : Write) (db : Db) (key : dockey) : Prop :=
  exists ev, ev ∈ events db /\ write_redacts w db = Some (e_key ev) /\ e_account ev = key.1 /\
    rel_type ev = Some M_REPLACE /\ rel_target ev = Some key.2.

Lemma fanout_spec ins a i :
  (a, i) ∉ fanout ins ->
  (a, i) <> e_key ins /\ ~ (e_account ins = a /\ rel_target ins = Some i) /\
  ~ (e_account ins = a /\ e_redacts ins = Some i).
Proof.
  unfold fanout. rewrite !not_elem_of_app. intros (H1 & H2 & H3). split_and!.
  - intros E. apply H1. rewrite E. by left.
  - intros [<- E]. apply H2. rewrite E. by left.
  - intros [<- E]. apply H3. rewrite E. by left.
Qed.

Lemma row_write_document db rows last ins a i :
  row_write db ins rows -> (a, i) ∉ fanout ins -> ~ edit_redacted db ins (a, i) ->
  find_event (with_row db rows last ins) a i = find_event db a i /\
  forall e, find_event db a i = Some e ->
    t_body (project (with_row db rows last ins) e) = t_body (project db e).
Proof.
  intros [Hput Hred Htgt _] (Hk & Hrel & Hrd)%fanout_spec Hno.
  split; [by eapply put_row_find|]. intros e (He & [= Ha Hi])%find_event_Some. subst a i.
  rewrite !project_body, redacted_elsewhere, valid_edits_elsewhere; try done.
  intros Hacc Hr. by apply Hrd.
Qed.

(** Capturing proofs of a room changes its targets only. *)
Lemma captured_room_redacted db account room t :
  (forall p, p ∈ newly_proven db account room -> p.2 <> t) ->
  t ∈ events db -> NoDup (e_key <$> events db) ->
  event_is_redacted (capture_room_redaction_proofs account room db).1 t = event_is_redacted db t.
Proof.
  intros Hno Ht Hnd. unfold event_is_redacted.
  assert (forall r, redaction_matches (capture_room_redaction_proofs account room db).1 r t =
                    redaction_matches db r t) as Hm.
  2: { change (events (capture_room_redaction_proofs account room db).1) with (events db).
       clear Hno Ht Hnd. induction (events db) as [|r l IH]; [done|]. cbn [existsb]. by rewrite Hm, IH. }
  intros r. symmetry. apply redaction_matches_ext.
  intros (Hra & Hrr & _ & Hrd)%redaction_identity_spec. cbn [capture_room_redaction_proofs fst proofs].
  split; [apply foldl_insert_proof_keep|].
  intros [?|(p & Hp & Hk & Hv)]%foldl_insert_proof_new; [done|exfalso]. apply (Hno p Hp).
  pose proof Hp as Hp'. unfold newly_proven in Hp. apply list_elem_of_filter in Hp as [[_ Hauth] Hp].
  apply current_authority_identity, redaction_identity_spec in Hauth as (Hpa & _).
  apply list_elem_of_bind in Hp as (r' & Hp & Hr').
  apply list_elem_of_bind in Hp as (t' & ->%list_elem_of_singleton & Ht').
  apply list_elem_of_filter in Ht' as [_ Ht']. cbn in *.
  apply (key_unique db); try done. unfold e_key. injection Hk as Hk1 Hk2. injection Hv as _ Hv. congruence.
Qed.

Lemma captured_room_document db account room a i :
  NoDup (e_key <$> events db) ->
  (a, i) ∉ (capture_room_redaction_proofs account room db).2 ->
  forall e, find_event db a i = Some e ->
    t_body (project (capture_room_redaction_proofs account room db).1 e) = t_body (project db e).
Proof.
  intros Hnd Hkeys e Hf. apply find_event_Some in Hf as (He & [= Ha Hi]). subst a i.
  assert (forall p, p ∈ newly_proven db account room ->
    p.2 <> e /\ ~ (e_account p.2 = e_account e /\ rel_target p.2 = Some (e_event_id e))) as Hno.
  { intros p Hp. split.
    - intros <-. apply Hkeys, elem_of_remove_dups, list_elem_of_bind. exists p. split; [by left|done].
    - intros [Hpa Hpr]. apply Hkeys, elem_of_remove_dups, list_elem_of_bind. exists p. split; [|done].
      change (e_key e ∈ affected p.2). unfold affected. rewrite Hpr, Hpa. right. by left. }
  rewrite !project_body, captured_room_redacted by (try done; intros p Hp; by apply Hno).
  replace (valid_edits (capture_room_redaction_proofs account room db).1 e) with (valid_edits db e); [done|].
  unfold valid_edits. apply filter_ext_in. intros ev Hev.
  destruct (edits_of e ev) eqn:E; [|done]. apply edits_of_spec in E as (? & _ & ? & _).
  rewrite captured_room_redacted; [done| |done|done]. intros p Hp E. subst ev. by apply (Hno _ Hp).
Qed.

Lemma same_tables_body db db' e :
  events db' = events db -> proofs db' = proofs db ->
  t_body (project db' e) = t_body (project db e).
Proof.
  intros Hev Hpr.
  assert (forall r t, redaction_matches db' r t = redaction_matches db r t) as Hm
    by (intros; unfold redaction_matches, proven; by rewrite Hpr).
  assert (forall t, event_is_redacted db' t = event_is_redacted db t) as Hr.
  { intros t. unfold event_is_redacted. rewrite Hev. clear Hev.
    induction (events db) as [|r l IH]; [done|]. cbn [existsb]. by rewrite IH, Hm. }
  rewrite !project_body, Hr. replace (valid_edits db' e) with (valid_edits db e); [done|].
  unfold valid_edits. rewrite Hev. apply filter_ext_in. intros x _. cbn. by rewrite Hr.
Qed.

(** A key that is not named, and whose edits are not redacted, keeps its document. *)
Lemma write_keeps_document w db a i :
  NoDup (e_key <$> events db) -> (a, i) ∉ (write w db).2 -> ~ redacts_edit_of w db (a, i) ->
  find_event (write w db).1 a i = find_event db a i /\
  forall e, find_event db a i = Some e ->
    t_body (project (write w db).1 e) = t_body (project db e).
Proof.
  intros Hnd Hkeys Hno.
  destruct (write_wrote w db Hnd) as [db' (Hev & Hpr & _)|rows last ins H _ _ Hred _|db0 acc room (Hev & Hpr & _)].
  - split; [unfold find_event; by rewrite Hev|]. intros e _. by apply same_tables_body.
  - apply row_write_document; [done|done|]. intros (ev & Hev & Ha & Hr & Hty & Ht & Hk). apply Hno.
    exists ev. rewrite Hred, Hr. cbn in *. split_and!; try done; [|congruence].
    unfold e_key. by rewrite Ha.
  - assert (NoDup (e_key <$> events db0)) as Hnd0 by by rewrite Hev.
    split; [unfold find_event; cbn; by rewrite Hev|]. intros e Hf.
    rewrite captured_room_document with (a := a) (i := i); [|done|done|unfold find_event; by rewrite Hev].
    by apply same_tables_body.
Qed.

(** ** The activity marker *)

Lemma newer_spec a b : newer a b = true <-> e_ts b < e_ts a \/ (e_ts b = e_ts a /\ e_id b < e_id a).
Proof. unfold newer. rewrite orb_true_iff, andb_true_iff, !Z.ltb_lt, Z.eqb_eq. lia. Qed.

Lemma newer_spec_false a b :
  newer a b = false <-> e_ts a < e_ts b \/ (e_ts b = e_ts a /\ e_id a <= e_id b).
Proof. rewrite <-not_true_iff_false, newer_spec. lia. Qed.

Lemma latest_None l : latest l = None <-> l = [].
Proof. destruct l as [|e l]; [done|]. cbn. destruct (foldr _ _ l); [|done]. by destruct (newer _ _). Qed.

Lemma latest_spec l e : latest l = Some e -> e ∈ l /\ forall x, x ∈ l -> newer x e = false.
Proof.
  revert e. induction l as [|y l IH]; intros e; [done|]. cbn. fold (latest l).
  destruct (latest l) as [b|] eqn:E.
  - destruct (IH b eq_refl) as [Hb Hmax]. destruct (newer b y) eqn:En; intros [= ->]%Some_inj.
    + split; [by right|]. intros x [->|Hx]%elem_of_cons; [|by apply Hmax].
      apply newer_spec in En. apply newer_spec_false. lia.
    + split; [by left|]. apply newer_spec_false in En.
      intros x [->|Hx]%elem_of_cons; apply newer_spec_false; [lia|].
      specialize (Hmax x Hx). apply newer_spec_false in Hmax. lia.
  - intros [= ->]%Some_inj. apply latest_None in E as ->. split; [by left|].
    intros x ->%list_elem_of_singleton. apply newer_spec_false. lia.
Qed.

Definition room_rows (db : Db) (a : uuid) (room : text) : list Event :=
  filter (fun e => e_account e = a /\ e_room e = room) (events db).

(** The row a room's activity is about. *)
Definition best (rows : list Event) (e : Event) : Prop :=
  e ∈ rows /\ forall x, x ∈ rows -> touched (activity_of e) (activity_of x) = false.

Definition has_body (e : Event) : bool := bool_decide (is_Some (e_body e)).

Lemma touched_spec e x :
  touched (activity_of e) (activity_of x) = true <->
  Z.b2z (has_body e) < Z.b2z (has_body x) \/
  (Z.b2z (has_body e) = Z.b2z (has_body x) /\
   (e_ts e < e_ts x \/ (e_ts e = e_ts x /\ e_id e < e_id x))).
Proof.
  change (touched (activity_of e) (activity_of x)) with
    ((has_body x && negb (has_body e)) || (Bool.eqb (has_body x) (has_body e) && newer x e)).
  pose proof (newer_spec x e) as Hn.
  destruct (has_body e), (has_body x), (newer x e); cbn; lia.
Qed.

Lemma untouched_spec e x :
  touched (activity_of e) (activity_of x) = false <->
  Z.b2z (has_body x) < Z.b2z (has_body e) \/
  (Z.b2z (has_body e) = Z.b2z (has_body x) /\
   (e_ts x < e_ts e \/ (e_ts e = e_ts x /\ e_id x <= e_id e))).
Proof. rewrite <-not_true_iff_false, touched_spec. lia. Qed.

Lemma touched_refl e : touched (activity_of e) (activity_of e) = false.
Proof. apply untouched_spec. lia. Qed.

Lemma untouched_trans m ins x :
  touched (activity_of m) (activity_of x) = false -> touched (activity_of m) (activity_of ins) = true ->
  touched (activity_of ins) (activity_of x) = false.
Proof. rewrite !untouched_spec, touched_spec. lia. Qed.

Lemma rebuilt_best db a room :
  match rebuilt_activity db a room with
  | Some act => exists e, best (room_rows db a room) e /\ act = activity_of e
  | None => room_rows db a room = []
  end.
Proof.
  unfold rebuilt_activity. fold (room_rows db a room). generalize (room_rows db a room). intros rows.
  destruct (latest (filter _ rows)) as [e|] eqn:E.
  - apply latest_spec in E as [[Hb He]%list_elem_of_filter Hmax]. exists e. split; [|done]. split; [done|].
    intros x Hx. apply untouched_spec.
    assert (has_body e = true) as -> by by apply bool_decide_eq_true_2.
    destruct (has_body x) eqn:Ex; [right|left; done]. split; [done|].
    apply bool_decide_eq_true in Ex.
    assert (newer x e = false) as Hn%newer_spec_false by (apply Hmax; by apply list_elem_of_filter). lia.
  - apply latest_None in E. rewrite filter_nil_iff, Forall_forall in E.
    destruct (latest rows) as [e|] eqn:El; cbn; [|by apply latest_None].
    apply latest_spec in El as [He Hmax]. exists e. split; [|done]. split; [done|].
    intros x Hx. apply untouched_spec. right. specialize (Hmax x Hx). rewrite newer_spec_false in Hmax.
    unfold has_body. rewrite !bool_decide_eq_false_2 by (by apply E). lia.
Qed.

Lemma id_unique db x y :
  StronglySorted Z.lt (e_id <$> events db) ->
  x ∈ events db -> y ∈ events db -> e_id x = e_id y -> x = y.
Proof.
  intros Hs Hx Hy Hid. assert (NoDup (e_id <$> events db)) as Hnd.
  { clear -Hs. induction Hs as [|i l Hs IH Hf]; constructor; [|done]. intros Hi.
    rewrite Forall_forall in Hf. specialize (Hf i Hi). lia. }
  by apply (NoDup_fmap_inj e_id (events db)).
Qed.

Lemma best_unique db a room e e' :
  StronglySorted Z.lt (e_id <$> events db) ->
  best (room_rows db a room) e -> best (room_rows db a room) e' -> e = e'.
Proof.
  intros Hs [He Hm] [He' Hm']. specialize (Hm e' He'). specialize (Hm' e He).
  apply untouched_spec in Hm, Hm'. assert (e_id e = e_id e') as Hid by lia.
  apply list_elem_of_filter in He as [_ He], He' as [_ He']. by apply (id_unique db).
Qed.

(** The marker as an invariant. *)
Definition activity_ok (db : Db) : Prop :=
  forall a room, activity db !! (a, room) = rebuilt_activity db a room.

Lemma rebuilt_is db a room e :
  StronglySorted Z.lt (e_id <$> events db) -> best (room_rows db a room) e ->
  rebuilt_activity db a room = Some (activity_of e).
Proof.
  intros Hs He. pose proof (rebuilt_best db a room) as H.
  destruct (rebuilt_activity db a room) as [act|].
  - destruct H as (e' & He' & ->). by rewrite (best_unique db a room e e').
  - destruct He as [He _]. rewrite H in He. by apply not_elem_of_nil in He.
Qed.

Lemma touch_ok db ins rows last :
  row_write db ins rows -> id_ok db ins last -> keeps_body db ins -> wf db -> activity_ok db ->
  activity_ok (with_row db rows last ins).
Proof.
  intros Hw Hid Hbody Hwf Hact a room. pose proof (put_row_wf db ins rows last Hw Hid Hwf) as [_ Hs' _ _].
  pose proof Hw as [Hput _ _ Hsame]. cbn [with_row activity]. unfold touch.
  set (db' := with_row db rows last ins) in *.
  destruct (decide ((a, room) = (e_account ins, e_room ins))) as [[= -> ->]|Hne].
  - rewrite Hact. pose proof (rebuilt_best db (e_account ins) (e_room ins)) as Hb.
    assert (forall x, x ∈ room_rows db' (e_account ins) (e_room ins) ->
      x = ins \/ (x ∈ room_rows db (e_account ins) (e_room ins) /\ e_key x <> e_key ins)) as Hin.
    { intros x [Hx Hr]%list_elem_of_filter. apply (put_row_elem _ _ _ _ Hput) in Hr as [->|[Hr Hk]]; [by left|].
      right. split; [|done]. by apply list_elem_of_filter. }
    assert (ins ∈ room_rows db' (e_account ins) (e_room ins)) as Hins.
    { apply list_elem_of_filter. split; [done|]. by apply (put_row_elem _ _ _ ins Hput). }
    pose proof (Hact (e_account ins) (e_room ins)) as Ha.
    destruct (rebuilt_activity db (e_account ins) (e_room ins)) as [act|].
    + destruct Hb as (m & [Hm Hmax] & ->).
      destruct (touched (activity_of m) (activity_of ins)) eqn:Et.
      * rewrite lookup_insert_eq. symmetry. apply rebuilt_is; [done|]. split; [done|].
        intros x [->|[Hx Hk]]%Hin; [apply touched_refl|]. by apply (untouched_trans m); [apply Hmax|].
      * rewrite Ha. symmetry. pose proof Hm as Hm'. apply list_elem_of_filter in Hm' as [[Hma Hmr] Hme].
        destruct (decide (e_key m = e_key ins)) as [Hk|Hk].
        -- assert (activity_of m = activity_of ins) as Eact.
           { destruct (Hsame m Hme Hk) as (Hi & Hkey & _ & _ & Hts & _). injection Hkey as _ He.
             apply untouched_spec in Et. specialize (Hbody m Hme Hk). unfold activity_of.
             rewrite Hi, He, Hts. f_equal. fold (has_body m) (has_body ins). unfold has_body in *.
             destruct (e_body m); [by rewrite Hbody by eauto|]. destruct (e_body ins); [cbn in Et; lia|done]. }
           rewrite Eact. apply rebuilt_is; [done|]. split; [done|].
           intros x [->|[Hx Hxk]]%Hin; [apply touched_refl|]. rewrite <-Eact. by apply Hmax.
        -- apply rebuilt_is; [done|]. split.
           ++ apply list_elem_of_filter. split; [done|]. by apply (put_row_elem _ _ _ m Hput).
           ++ intros x [->|[Hx _]]%Hin; [done|by apply Hmax].
    + rewrite lookup_insert_eq. symmetry. apply rebuilt_is; [done|]. split; [done|].
      intros x [->|[Hx _]]%Hin; [|by rewrite Hb in Hx; apply not_elem_of_nil in Hx].
      apply touched_refl.
  - assert (rebuilt_activity db' a room = rebuilt_activity db a room) as ->.
    { unfold rebuilt_activity. replace (filter (fun e => e_account e = a /\ e_room e = room) (events db'))
        with (filter (fun e => e_account e = a /\ e_room e = room) (events db)); [done|].
      apply (put_row_filter db ins rows); [done|intros [<- <-]; done| |done].
      intros e He Hk [<- <-]. destruct (Hsame e He Hk) as (_ & [= Ha _] & Hr & _). apply Hne. congruence. }
    rewrite <-Hact. destruct (activity db !! _); [destruct (touched _ _); [|done]|];
      by rewrite lookup_insert_ne by congruence.
Qed.

(** What is stored is stored with the body of its content. *)
Definition sensible (w : Write) : Prop :=
  match w with Upsert ev => n_content ev = None -> n_body ev = None | _ => True end.

Lemma write_utd_ok w db : wf db -> sensible w -> utd_ok db -> utd_ok (write w db).1.
Proof.
  intros Hwf Hs Hutd. destruct w as [ev|a i c ty b r|a s evd]; cbn.
  - unfold upsert_event. destruct (accounts db !! n_account ev); [|done].
    destruct (find_event db (n_account ev) (n_event_id ev)) as [old|] eqn:E.
    + apply find_event_Some in E as [Hold _]. destruct (_ && _); [|done].
      intros e (x & -> & Hx)%list_elem_of_fmap. case_decide; [|by apply Hutd].
      cbn. by apply Hutd.
    + intros e [He| ->%list_elem_of_singleton]%elem_of_app; [by apply Hutd|]. done.
  - unfold update_decrypted_event. destruct (find_event db a i) as [old|]; [|done].
    destruct (e_content old); [done|]. intros e (x & -> & Hx)%list_elem_of_fmap.
    case_decide; [done|by apply Hutd].
  - unfold write_state. destruct (upsert_statement _ _ _) as [tbl [written ?]]. by destruct (_ && _).
Qed.

Lemma same_rows_activity db db' : same_rows db db' -> activity_ok db -> activity_ok db'.
Proof.
  intros (He & _ & Ha & _) H a room. unfold rebuilt_activity. rewrite Ha, He. apply H.
Qed.

Lemma write_activity w db : wf db -> sensible w -> utd_ok db -> activity_ok db -> activity_ok (write w db).1.
Proof.
  intros Hwf Hs Hutd Hact.
  destruct (write_wrote w db (wf_keys _ Hwf)) as [db' H|rows last ins H Hid _ _ Hb|db0 a r H].
  - by eapply same_rows_activity.
  - apply touch_ok; auto.
  - exact (same_rows_activity _ _ H Hact).
Qed.

(** [C17] The activity marker that each write keeps in [room_summaries] by comparing
    the row it stored with the marker before is what a rebuild from the events
    computes: after any sequence of stored events, re-deliveries, decryptions and
    state changes, in whatever order of time the events arrive, each room's marker
    is its latest event with a body, or its latest event if none has one.  Rows are
    stored as the engine does: without content there is no body.  Deletions, after
    which the code rebuilds the markers, are not among the writes. *)
Theorem activity_is_the_rebuild l db :
  wf db -> utd_ok db -> Forall sensible l -> activity_ok db ->
  forall account room, activity (writes l db) !! (account, room) = rebuilt_activity (writes l db) account room.
Proof.
  revert db. induction l as [|w l IH]; intros db Hwf Hutd Hl Hact; [exact Hact|].
  apply Forall_cons in Hl as [Hw Hl]. cbn. apply IH; [by apply write_wf|by apply write_utd_ok|done|].
  by apply write_activity.
Qed.

(** ** Pages *)

#[local] Instance newest_first_trans : Transitive newest_first.
Proof.
  intros a b c. unfold newest_first, cursor_lt, cursor_of. cbn. rewrite !pair_eq. lia.
Qed.
#[local] Instance newest_first_total : Total newest_first.
Proof. intros a b. unfold newest_first, cursor_lt, cursor_of. cbn. rewrite !pair_eq. lia. Qed.

(** The whole listing. *)
Definition listing (keep : Event -> bool) (db : Db) : list Event :=
  merge_sort newest_first (filter (fun e => keep e = true) (events db)).

Lemma listing_elem keep db e : e ∈ listing keep db <-> keep e = true /\ e ∈ events db.
Proof. unfold listing. by rewrite merge_sort_Permutation, list_elem_of_filter. Qed.

Lemma listing_sorted keep db : StronglySorted newest_first (listing keep db).
Proof. apply (StronglySorted_merge_sort newest_first). Qed.

Lemma newest_first_antisym db x y :
  wf db -> x ∈ events db -> y ∈ events db -> newest_first x y -> newest_first y x -> x = y.
Proof.
  intros Hwf Hx Hy. unfold newest_first, cursor_lt, cursor_of. cbn. rewrite !pair_eq. intros H1 H2.
  apply (id_unique db); [apply Hwf|done..|]. lia.
Qed.

Lemma page_rows_listing keep before limit db :
  wf db ->
  page_rows keep before limit db = take limit (filter (fun e => before_cursor before e = true) (listing keep db)).
Proof.
  intros Hwf. unfold page_rows. f_equal.
  apply (StronglySorted_unique_strong newest_first).
  - intros x y Hx [_ Hy]%list_elem_of_filter. apply listing_elem in Hy as [_ Hy].
    rewrite merge_sort_Permutation in Hx. apply list_elem_of_filter in Hx as [_ Hx].
    by apply (newest_first_antisym db).
  - apply (StronglySorted_merge_sort newest_first).
  - apply StronglySorted_filter, listing_sorted.
  - unfold listing. rewrite !merge_sort_Permutation, list_filter_filter.
    erewrite filter_ext_in; [done|]. intros x _. rewrite andb_true_iff. tauto.
Qed.

Lemma listing_nodup keep db : wf db -> NoDup (listing keep db).
Proof.
  intros [Hk _ _ _]. unfold listing. rewrite merge_sort_Permutation. apply NoDup_filter.
  by apply NoDup_fmap_1 in Hk.
Qed.

(** Reading on from an entry of the listing. *)
Lemma listing_after keep db i x :
  wf db -> listing keep db !! i = Some x ->
  filter (fun e => before_cursor (Some (cursor_of x)) e = true) (listing keep db) =
  drop (S i) (listing keep db).
Proof.
  intros Hwf Hx. pose proof (listing_sorted keep db) as Hs. pose proof (listing_nodup keep db Hwf) as Hnd.
  assert (forall y, y ∈ listing keep db -> y ∈ events db) as Hev by (intros y Hy%listing_elem; tauto).
  pose proof (take_drop_middle _ _ _ Hx) as Hl. rewrite <-Hl in Hs, Hnd, Hev.
  rewrite <-Hl at 1. clear Hl Hx.
  apply StronglySorted_app in Hs as (Hcross & _ & Hs). apply StronglySorted_cons in Hs as [Hafter _].
  apply NoDup_app in Hnd as (_ & _ & Hnd). apply NoDup_cons in Hnd as [Hx _].
  rewrite filter_app, filter_cons, decide_False.
  2: { cbn. rewrite bool_decide_eq_true. unfold cursor_lt. lia. }
  rewrite (proj2 (filter_nil_iff _ _)), filter_all; [done| |].
  - apply Forall_forall. intros y Hy. apply bool_decide_eq_true.
    destruct (proj1 (Forall_forall _ _) Hafter y Hy) as [?|E]; [done|]. destruct Hx.
    rewrite (id_unique db x y); [done|apply Hwf|apply Hev..|by injection E];
      rewrite elem_of_app, elem_of_cons; tauto.
  - apply Forall_forall. intros y Hy. cbn. rewrite bool_decide_eq_true. intros Hlt.
    specialize (Hcross y x Hy ltac:(by left)). unfold newest_first, cursor_lt, cursor_of in *. cbn in *.
    rewrite pair_eq in Hcross. lia.
Qed.

(** A reader that follows the cursor of the last row it got. *)
Fixpoint all_pages (keep : Event -> bool) (limit : nat) (db : Db) (fuel : nat)
    (before : option TimelineCursor) : list (list Event) :=
  match fuel with
  | O => []
  | S fuel =>
      match page_rows keep before limit db with
      | [] => []
      | page => page :: all_pages keep limit db fuel (cursor_of <$> last page)
      end
  end.

(** What a cursor has still to show. *)
Definition rest_of (keep : Event -> bool) (db : Db) (before : option TimelineCursor) (i : nat) : Prop :=
  filter (fun e => before_cursor before e = true) (listing keep db) = drop i (listing keep db).

Lemma rest_of_start keep db : rest_of keep db None 0.
Proof. unfold rest_of. cbn. rewrite drop_0. apply filter_all. by apply Forall_forall. Qed.

Lemma all_pages_rest keep limit db fuel before i :
  wf db -> (0 < limit)%nat -> rest_of keep db before i -> (length (listing keep db) < i + fuel)%nat ->
  mjoin (all_pages keep limit db fuel before) = drop i (listing keep db).
Proof.
  intros Hwf Hlim. revert before i. induction fuel as [|fuel IH]; intros before i Hrest Hfuel.
  - cbn. rewrite drop_ge by lia. done.
  - cbn [all_pages]. rewrite page_rows_listing by done. rewrite Hrest.
    destruct (take limit (drop i (listing keep db))) as [|e page] eqn:E.
    + assert (length (drop i (listing keep db)) = 0%nat) as Hlen.
      { apply (f_equal length) in E. rewrite length_take in E. cbn in E. lia. }
      by apply nil_length_inv in Hlen as ->.
    + assert (is_Some (last (e :: page))) as [x Hx].
      { destruct (last (e :: page)) eqn:El; [by eexists|]. by apply last_None in El. }
      pose proof Hx as Hat. rewrite last_lookup, <-E in Hat.
      set (n := length (take limit (drop i (listing keep db)))) in *.
      assert (0 < n)%nat as Hn by (unfold n; rewrite E; cbn; lia).
      assert (n <= limit)%nat as Hnl by (unfold n; rewrite length_take; lia).
      rewrite lookup_take_lt, lookup_drop in Hat by lia.
      change (mjoin ((e :: page) :: ?l)) with ((e :: page) ++ mjoin l).
      rewrite (IH _ (i + n)%nat).
      * rewrite <-E. rewrite <-(take_drop limit (drop i (listing keep db))) at 2. f_equal.
        rewrite drop_drop. destruct (decide (n = limit)) as [En|Hne]; [by rewrite En|].
        assert (length (drop i (listing keep db)) = n) as Hd by (unfold n in *; rewrite length_take in *; lia).
        rewrite length_drop in Hd. by rewrite !drop_ge by lia.
      * unfold rest_of. rewrite Hx. cbn [fmap option_fmap option_map].
        replace (pred n) with (n - 1)%nat in Hat by lia.
        rewrite (listing_after keep db (i + (n - 1)) x Hwf Hat). f_equal. lia.
      * lia.
Qed.

(** [C15] Reading a room or a thread page by page, each page from the cursor of
    the last row before, ends and returns every row that shows exactly once, newest
    first, in pages of at most the limit: no row is skipped or repeated when
    several share a timestamp. *)
Theorem pages_cover_the_listing keep limit db fuel :
  wf db -> (0 < limit)%nat -> (length (events db) < fuel)%nat ->
  let pages := all_pages keep limit db fuel None in
  mjoin pages = listing keep db /\
  Permutation (mjoin pages) (filter (fun e => keep e = true) (events db)) /\
  NoDup (mjoin pages) /\
  StronglySorted (fun a b => cursor_lt (cursor_of b) (cursor_of a)) (mjoin pages) /\
  Forall (fun page => length page <= limit)%nat pages.
Proof.
  intros Hwf Hlim Hfuel pages. assert (mjoin pages = listing keep db) as E.
  { apply (all_pages_rest keep limit db fuel None 0); [done..|apply rest_of_start|].
    unfold listing. rewrite merge_sort_Permutation.
    pose proof (length_filter (fun e => keep e = true) (events db)). lia. }
  rewrite E. split_and!; [done|by apply merge_sort_Permutation|by apply listing_nodup| |].
  - pose proof (listing_sorted keep db) as Hs. pose proof (listing_nodup keep db Hwf) as Hnd.
    assert (forall y, y ∈ listing keep db -> y ∈ events db) as Hev by (intros y Hy%listing_elem; tauto).
    clear E. revert Hs Hnd Hev. generalize (listing keep db). intros rows Hs.
    induction Hs as [|x l Hs IH Hf]; [constructor|]. intros [Hx Hnd]%NoDup_cons Hev. constructor.
    + apply IH; [done|]. intros y Hy. apply Hev. by right.
    + apply Forall_forall. intros y Hy. destruct (proj1 (Forall_forall _ _) Hf y Hy) as [?|Ec]; [done|].
      destruct Hx. rewrite (id_unique db x y); [done|apply Hwf|apply Hev; by left|apply Hev; by right|by injection Ec].
  - clear E. subst pages. clear Hfuel. generalize (@None TimelineCursor).
    induction fuel as [|fuel IH]; intros before; cbn; [constructor|].
    destruct (page_rows keep before limit db) as [|e page] eqn:Ep; constructor; [|apply IH].
    rewrite <-Ep. unfold page_rows. rewrite length_take. lia.
Qed.

(** ** Redactions stay *)

Lemma redaction_identity_same r t t' :
  same_event t t' -> redaction_identity r t = redaction_identity r t'.
Proof.
  intros (_ & [= Ha Hi] & Hr & _). unfold redaction_identity. by rewrite Ha, Hi, Hr.
Qed.

Lemma matches_kept db db' r r' t t' :
  same_event r r' -> same_event t t' -> (e_type r = M_REDACTION -> e_type r' = M_REDACTION) ->
  (forall k v, proofs db !! k = Some v -> proofs db' !! k = Some v) ->
  redaction_matches db r t = true -> redaction_matches db' r' t' = true.
Proof.
  intros (_ & [= Hra Hri] & Hrr & Hrs & _ & _ & Hrd) (_ & [= Hta Hti] & Htr & Hts & _ & Hraw & _) Hty Hpr.
  unfold redaction_matches, redaction_identity, immutable_redaction_authority, proven.
  rewrite Hra, Hri, Hrr, Hrs, Hrd, Hta, Hti, Htr, Hts, Hraw.
  rewrite !andb_true_iff, !orb_true_iff, !bool_decide_eq_true. naive_solver.
Qed.

Lemma same_event_refl e : same_event e e.
Proof. by split_and!. Qed.

(** Where a row is after a write. *)
Lemma put_row_moved db ins rows e :
  row_write db ins rows -> e ∈ events db -> exists e', e' ∈ rows /\ same_event e e' /\ (e' = e \/ e' = ins).
Proof.
  intros [Hput _ _ Hsame] He. destruct (decide (e_key e = e_key ins)) as [Hk|Hk].
  - exists ins. split; [by apply (put_row_elem _ _ _ e Hput)|]. split; [by apply Hsame|by right].
  - exists e. split; [by apply (put_row_elem _ _ _ e Hput)|]. split; [apply same_event_refl|by left].
Qed.

Lemma redaction_kept w db e :
  wf db -> decrypts_encrypted w db -> e ∈ events db -> event_is_redacted db e = true ->
  exists e', e' ∈ events (write w db).1 /\ e_key e' = e_key e /\
             event_is_redacted (write w db).1 e' = true.
Proof.
  intros Hwf Henc He Hr. apply event_is_redacted_iff in Hr as (r & Hr & Hm).
  destruct (write_wrote w db (wf_keys _ Hwf)) as [db' (Hev & Hpr & _)|rows last ins H Hid Hty _|db0 a room (Hev & Hpr & _)].
  - exists e. rewrite Hev. split_and!; [done..|]. apply event_is_redacted_iff. exists r. rewrite Hev.
    split; [done|]. eapply (matches_kept db); [apply same_event_refl..|done| |done]. by rewrite Hpr.
  - destruct (put_row_moved db ins rows e H He) as (e' & He' & Hse & _).
    destruct (put_row_moved db ins rows r H Hr) as (r' & Hr' & Hsr & Hcase).
    exists e'. split_and!; [done|symmetry; apply Hse|]. apply event_is_redacted_iff. exists r'. split; [done|].
    eapply (matches_kept db); [done..| | |done].
    + intros Ht. destruct Hcase as [->| ->]; [done|]. eapply (Hty Henc r); [done| |done]. apply Hsr.
    + intros k v Hk. by apply foldl_insert_proof_keep.
  - assert (events (capture_room_redaction_proofs a room db0).1 = events db) as Hev' by exact Hev.
    exists e. rewrite Hev'. split_and!; [done..|]. apply event_is_redacted_iff. exists r. rewrite Hev'.
    split; [done|]. eapply (matches_kept db); [apply same_event_refl..|done| |done]. intros k v Hk.
    cbn. apply foldl_insert_proof_keep. by rewrite Hpr.
Qed.

Fixpoint guarded (l : list Write) (db : Db) : Prop :=
  match l with [] => True | w :: l => decrypts_encrypted w db /\ guarded l (write w db).1 end.

(** [C4] Once a stored redaction applies to a stored event, by the server it came
    from, by the homeserver's own mark or by a power level of the moment, every
    later read of the event, after any sequence of stored events, decryptions and
    state changes (a demotion of the moderator among them), hides its content, its
    body and its edits.  Only rows of type [m.room.encrypted] are decrypted, as the
    engine and its later attempts do; deletions are not in the sequence. *)
Theorem redacted_events_stay_masked l db account event_id e :
  wf db -> guarded l db ->
  find_event db account event_id = Some e -> event_is_redacted db e = true ->
  exists row, get_event (writes l db) account event_id = Some row /\ is_Some (t_redaction row) /\
    t_content row = None /\ t_body row = None /\ t_edited row = false.
Proof.
  revert db e. induction l as [|w l IH]; intros db e Hwf Hg Hf Hr; cbn.
  - exists (project db e). unfold get_event. rewrite Hf.
    destruct (project_masks db e Hr) as (? & ? & ? & ? & _). by split_and!.
  - destruct Hg as [Hw Hg]. apply find_event_Some in Hf as [He Hk].
    destruct (redaction_kept w db e Hwf Hw He Hr) as (e' & He' & Hk' & Hr').
    pose proof (write_wf w db Hwf) as Hwf'. apply (IH _ e'); try done.
    rewrite Hk in Hk'. injection Hk' as <- <-. by apply find_event_unique; [apply wf_keys|].
Qed.

(** ** Reactions *)

Lemma distinct_on_spec seen l :
  NoDup (pair_of <$> distinct_on seen l) /\
  (forall rx, rx ∈ distinct_on seen l -> rx ∈ l /\ pair_of rx ∉ seen) /\
  (forall rx, rx ∈ l -> pair_of rx ∈ seen \/ pair_of rx ∈ pair_of <$> distinct_on seen l).
Proof.
  revert seen. induction l as [|x l IH]; intros seen; cbn; [split_and!; [constructor|set_solver..]|].
  case_bool_decide as Hx.
  - destruct (IH seen) as (? & H2 & H3). split_and!; [done|set_solver|].
    intros rx [->|Hrx]%elem_of_cons; [by left|auto].
  - destruct (IH (pair_of x :: seen)) as (H1 & H2 & H3). cbn. split_and!.
    + constructor; [|done]. intros (y & E & Hy)%list_elem_of_fmap. apply H2 in Hy as [_ Hy].
      apply Hy. rewrite <-E. by left.
    + intros rx [->|Hrx]%elem_of_cons; [split; [by left|done]|]. apply H2 in Hrx as [? Hn].
      split; [by right|]. intros ?. apply Hn. by right.
    + intros rx [->|Hrx]%elem_of_cons; [right; by left|].
      destruct (H3 rx Hrx) as [[->|?]%elem_of_cons|?]; [right; by left|by left|right; by right].
Qed.

Lemma retained_reactions_spec db a room target :
  let rows := retained_reactions db a room target in
  NoDup (pair_of <$> rows) /\ (length rows <= REACTION_AGG_PAIR_CAP)%nat /\
  forall rx, rx ∈ rows -> reacts_to db a room target rx = true /\ rx ∈ events db.
Proof.
  intros rows. unfold rows, retained_reactions. set (l := merge_sort id_le _).
  destruct (distinct_on_spec [] l) as (H1 & H2 & _). split_and!.
  - rewrite fmap_take. eapply sublist_NoDup; [|apply sublist_take].
    by rewrite merge_sort_Permutation.
  - rewrite length_take. lia.
  - intros rx Hrx. apply elem_of_take in Hrx as (i & Hi & _). apply list_elem_of_lookup_2 in Hi.
    rewrite merge_sort_Permutation in Hi. apply H2 in Hi as [Hi _]. unfold l in Hi.
    by rewrite merge_sort_Permutation, list_elem_of_filter in Hi.
Qed.

Definition counted (rows : list Event) (keys : list text) : nat :=
  foldr (fun k n => (length (filter (fun rx => reaction_key rx = Some k) rows) + n)%nat) 0%nat keys.

Lemma counted_le rows keys : NoDup keys -> (counted rows keys <= length rows)%nat.
Proof.
  intros Hnd. revert rows. induction Hnd as [|k keys Hk _ IH]; intros rows; [cbn; lia|].
  set (others := filter (fun rx => reaction_key rx <> Some k) rows).
  assert (counted rows keys = counted others keys) as E.
  { clear IH. induction keys as [|k' keys IHk]; [done|]. apply not_elem_of_cons in Hk as [Hne Hk].
    cbn. unfold counted in IHk. rewrite IHk by done. f_equal. f_equal. symmetry.
    apply list_filter_filter_l. intros rx ->. congruence. }
  cbn. fold (counted rows keys). rewrite E. specialize (IH others).
  pose proof (filter_app_complement (fun rx => reaction_key rx = Some k) rows) as Hc.
  apply Permutation_length in Hc. rewrite length_app in Hc. unfold others in *. lia.
Qed.

Lemma tally_senders user key group s :
  s ∈ rt_senders (tally user key group) <-> exists rx, rx ∈ group /\ e_sender rx = s.
Proof.
  cbn. rewrite merge_sort_Permutation, list_elem_of_fmap.
  split; [intros (rx & -> & Hrx)|intros (rx & Hrx & <-)]; by exists rx.
Qed.

Lemma tally_spec user key group :
  NoDup (e_sender <$> group) -> group <> [] ->
  let t := tally user key group in
  rt_count t = Z.of_nat (length (rt_senders t)) /\ 0 < rt_count t /\ NoDup (rt_senders t) /\
  (rt_me t = true <-> exists u, user = Some u /\ u ∈ rt_senders t) /\
  (length (rt_my_event_ids t) <= 1)%nat.
Proof.
  intros Hs Hne t. split_and!.
  - cbn. by rewrite merge_sort_Permutation, length_fmap.
  - cbn. destruct group; [done|cbn; lia].
  - cbn. by rewrite merge_sort_Permutation.
  - subst t. setoid_rewrite tally_senders. cbn [rt_me tally]. rewrite negb_true_iff, bool_decide_eq_false. split.
    + intros Hn. destruct (filter (fun rx => Some (e_sender rx) = user) group) as [|rx l] eqn:E; [done|].
      assert (rx ∈ filter (fun rx => Some (e_sender rx) = user) group) as Hrx by (rewrite E; by left).
      apply list_elem_of_filter in Hrx as [Hu Hrx]. exists (e_sender rx). split; [done|]. by exists rx.
    + intros (u & -> & rx & Hrx & <-) H.
      assert (rx ∈ filter (fun x => Some (e_sender x) = Some (e_sender rx)) group) as Hin
        by by apply list_elem_of_filter.
      rewrite H in Hin. by apply not_elem_of_nil in Hin.
  - cbn. rewrite merge_sort_Permutation, length_fmap. clear Hne.
    induction group as [|rx l IH]; [cbn; lia|]. apply NoDup_cons in Hs as [Hx Hs].
    rewrite filter_cons. case_decide as Hu; [|by apply IH].
    rewrite (proj2 (filter_nil_iff _ _)); [done|]. apply Forall_forall. intros y Hy Hu'.
    apply Hx. apply list_elem_of_fmap. exists y. split; [congruence|done].
Qed.

(** [C31] An event's reactions, however many a room sends: each key appears once;
    its count is the number of its senders, who are distinct; [me] says whether the
    account's user is among them and at most one own event is named; and no more
    than [REACTION_AGG_PAIR_CAP] reactions are counted in all, each a stored,
    unredacted reaction to the event. *)
Theorem reaction_tallies_are_bounded db a room target :
  let tallies := reaction_tallies db a room target in
  NoDup (rt_key <$> tallies) /\
  foldr (fun t n => rt_count t + n) 0 tallies <= Z.of_nat REACTION_AGG_PAIR_CAP /\
  forall t, t ∈ tallies ->
    rt_count t = Z.of_nat (length (rt_senders t)) /\ 0 < rt_count t /\ NoDup (rt_senders t) /\
    (rt_me t = true <-> exists user, accounts db !! a = Some user /\ user ∈ rt_senders t) /\
    (length (rt_my_event_ids t) <= 1)%nat /\
    forall s, s ∈ rt_senders t -> exists rx, rx ∈ events db /\ reacts_to db a room target rx = true /\
      e_sender rx = s /\ reaction_key rx = Some (rt_key t).
Proof.
  intros tallies. destruct (retained_reactions_spec db a room target) as (Hnd & Hlen & Hin).
  set (rows := retained_reactions db a room target) in *.
  destruct (first_occurrences_spec (omap (M := list) reaction_key rows)) as [Hkeys Hk].
  split_and!.
  - unfold tallies, reaction_tallies, group_keys. fold rows. rewrite <-list_fmap_compose.
    erewrite list_fmap_ext; [by rewrite list_fmap_id|done].
  - enough (foldr (fun t n => rt_count t + n) 0 tallies = Z.of_nat (counted rows (group_keys rows))) as ->.
    { pose proof (counted_le rows (group_keys rows) Hkeys). lia. }
    unfold tallies, reaction_tallies. fold rows. induction (group_keys rows) as [|k keys IH]; [done|].
    rewrite fmap_cons. cbn [foldr]. rewrite IH. unfold counted. cbn [rt_count tally foldr]. lia.
  - intros t (key & -> & Hkey)%list_elem_of_fmap. fold rows.
    assert (forall rx, rx ∈ filter (fun rx => reaction_key rx = Some key) rows ->
      reaction_key rx = Some key /\ rx ∈ rows) as Hg by (intros rx Hrx; by apply list_elem_of_filter in Hrx).
    assert (filter (fun rx => reaction_key rx = Some key) rows <> []) as Hne.
    { apply Hk in Hkey. apply list_elem_of_omap in Hkey as (rx & Hrx & Hrk). intros E.
      rewrite filter_nil_iff, Forall_forall in E. by apply (E rx Hrx). }
    assert (NoDup (e_sender <$> filter (fun rx => reaction_key rx = Some key) rows)) as Hs.
    { apply NoDup_fmap_2_strong; [|apply NoDup_filter; by apply NoDup_fmap_1 in Hnd].
      intros x y [Hx Hxr]%Hg [Hy Hyr]%Hg E. apply (NoDup_fmap_inj pair_of rows); try done.
      unfold pair_of. congruence. }
    destruct (tally_spec (accounts db !! a) key _ Hs Hne) as (H1 & H2 & H3 & H4 & H5).
    split_and!; try done. intros s Hs'. apply tally_senders in Hs' as (rx & [Hrk Hrx]%Hg & <-).
    exists rx. by destruct (Hin rx Hrx).
Qed.

(** ** Deletion *)

Lemma removal_redacted db db' (keep : Event -> Prop) `{forall e, Decision (keep e)} t :
  events db' = filter keep (events db) ->
  (forall r, r ∈ events db -> redaction_identity r t = true ->
    keep r /\ (proofs db' !! (e_account t, e_event_id r) = Some (e_room t, e_event_id t) <->
               proofs db !! (e_account t, e_event_id r) = Some (e_room t, e_event_id t))) ->
  event_is_redacted db' t = event_is_redacted db t.
Proof.
  intros Hev Hr. apply eq_true_iff_eq. rewrite !event_is_redacted_iff, Hev.
  split; intros (r & Hin & Hm); pose proof (redaction_matches_identity _ _ _ Hm) as Hid; exists r.
  - apply list_elem_of_filter in Hin as [_ Hin]. split; [done|]. destruct (Hr r Hin Hid) as [_ Hp].
    rewrite <-Hm. apply redaction_matches_ext. intros _. by symmetry.
  - destruct (Hr r Hin Hid) as [Hk Hp]. split; [by apply list_elem_of_filter|].
    rewrite <-Hm. apply redaction_matches_ext. done.
Qed.

Lemma removal_body db db' (keep : Event -> Prop) `{forall e, Decision (keep e)} e :
  events db' = filter keep (events db) ->
  event_is_redacted db' e = event_is_redacted db e ->
  (forall ev, ev ∈ events db -> edits_of e ev = true ->
    keep ev /\ event_is_redacted db' ev = event_is_redacted db ev) ->
  t_body (project db' e) = t_body (project db e).
Proof.
  intros Hev Hr Hedit. rewrite !project_body, Hr.
  replace (valid_edits db' e) with (valid_edits db e); [done|].
  unfold valid_edits. rewrite Hev, list_filter_filter. apply filter_ext_in. intros ev Hin.
  destruct (edits_of e ev) eqn:E; [|naive_solver]. destruct (Hedit ev Hin E) as [Hk ->]. naive_solver.
Qed.

Lemma removal_find db db' (keep : Event -> Prop) `{forall e, Decision (keep e)} a i :
  events db' = filter keep (events db) ->
  (forall e, e ∈ events db -> e_key e = (a, i) -> keep e) ->
  find_event db' a i = find_event db a i.
Proof.
  intros Hev Hk. unfold find_event. rewrite Hev, list_filter_filter. f_equal.
  apply filter_ext_in. intros e He. split; [by intros [? _]|]. intros ?. split; [done|by apply Hk].
Qed.

(** ** Delivering an event twice *)

Lemma put_row_found db ins rows last :
  row_write db ins rows -> id_ok db ins last -> wf db ->
  find_event (with_row db rows last ins) (e_account ins) (e_event_id ins) = Some ins.
Proof.
  intros Hw Hid Hwf. apply find_event_unique; [apply wf_keys, put_row_wf; done|].
  by apply (put_row_elem _ _ _ ins (rw_put _ _ _ Hw)).
Qed.

(** Storing an event returns the arrival number of its row, and storing it
    again returns the same number, changes no row, proof or marker and appends no
    obligation; without the account nothing is stored. *)
Theorem delivery_is_idempotent ev db :
  wf db ->
  match upsert_event ev db with
  | None => accounts db !! n_account ev = None
  | Some (id, db1, _) =>
      (exists e, find_event db1 (n_account ev) (n_event_id ev) = Some e /\ e_id e = id) /\
      exists db2, upsert_event ev db1 = Some (id, db2, []) /\ events db2 = events db1 /\
        proofs db2 = proofs db1 /\ room_state db2 = room_state db1 /\ activity db2 = activity db1
  end.
Proof.
  intros Hwf. unfold upsert_event at 1. destruct (accounts db !! n_account ev) eqn:Eacc; [|done].
  assert (forall id db1 e, find_event db1 (n_account ev) (n_event_id ev) = Some e -> e_id e = id ->
    accounts db1 !! n_account ev <> None ->
    bool_decide (e_inline e = None) && same_content (e_content e) (n_content ev) &&
      bool_decide (e_type e = n_type ev) = false ->
    exists db2, upsert_event ev db1 = Some (id, db2, []) /\ events db2 = events db1 /\
      proofs db2 = proofs db1 /\ room_state db2 = room_state db1 /\ activity db2 = activity db1) as Hagain.
  { intros id db1 e Hf Hid Hacc Hno. unfold upsert_event. destruct (accounts db1 !! _); [|done].
    rewrite Hf, Hno, Hid. eexists. by split_and!. }
  destruct (find_event db (n_account ev) (n_event_id ev)) as [old|] eqn:E.
  - pose proof E as (Hold & [= Ha Hi])%find_event_Some.
    destruct (_ && _) eqn:Ematch.
    + assert (row_write db (set_inline (inline_media_urls sanitized_nodes (n_type ev) (n_content ev)) old)
        (replace_row db (set_inline (inline_media_urls sanitized_nodes (n_type ev) (n_content ev)) old))) as Hw
        by (apply (replaced_row_write db old _ (wf_keys _ Hwf) Hold); [by split_and!|by right]).
      assert (id_ok db (set_inline (inline_media_urls sanitized_nodes (n_type ev) (n_content ev)) old)
        (last_id db + 1)) as Hid by (split; [lia|]; cbn; by intros ?%(find_event_known db old)).
      pose proof (put_row_found _ _ _ _ Hw Hid Hwf) as Hf. cbn in Hf. rewrite Ha, Hi in Hf.
      split; [by eexists|]. eapply Hagain; [exact Hf|done|cbn; congruence|done].
    + split; [exists old; by split|]. eapply (Hagain _ _ old); [exact E|done|cbn; congruence|done].
  - assert (id_ok db (row_of (last_id db + 1) ev) (last_id db + 1)) as Hid by (split; cbn; lia).
    pose proof (put_row_found _ _ _ _ (fresh_row_write db ev _ E) Hid Hwf) as Hf.
    split; [by eexists|]. eapply Hagain; [exact Hf|done|cbn; congruence|done].
Qed.

End Timeline.

(** ** Witnesses and examples *)

Module Sample.

Definition out (v : json) : text := [].
Definition same (a b : json) : bool := bool_decide (a = b).
Definition num (s : text) : Q := 0%Q.
Definition nodes (s : text) : list node := [].

Abbreviation stored := (writes out same num nodes).

Definition acc : uuid := 7.
Definition room : text := t! "!r:x".
Definition empty_db : Db := MkDb {[acc := t! "@me:x"]} [] 0 ∅ ∅ ∅.

Definition message (id sender : text) (ts : Z) (body : text) : NewEvent :=
  MkNewEvent id room acc sender ts (t! "m.room.message") (Some (JObj [(t! "body", JStr body)]))
    (JObj []) None None None (Some body).
Definition redaction (id sender : text) (ts : Z) (target : text) : NewEvent :=
  MkNewEvent id room acc sender ts M_REDACTION (Some (JObj [])) (JObj []) None (Some target) None None.
Definition edit (id sender : text) (ts : Z) (target body : text) : NewEvent :=
  MkNewEvent id room acc sender ts (t! "m.room.message")
    (Some (JObj [(t! "body", JStr body); (t! "m.new_content", JObj [(t! "body", JStr body)])]))
    (JObj []) None None
    (Some (JObj [(t! "rel_type", JStr M_REPLACE); (t! "event_id", JStr target)])) (Some body).
Definition reaction (id sender : text) (ts : Z) (target key : text) : NewEvent :=
  MkNewEvent id room acc sender ts M_REACTION (Some (JObj [])) (JObj []) None None
    (Some (JObj [(t! "rel_type", JStr M_ANNOTATION); (t! "event_id", JStr target); (t! "key", JStr key)])) None.
Definition reply_in_thread (id sender : text) (ts : Z) (root body : text) : NewEvent :=
  MkNewEvent id room acc sender ts (t! "m.room.message") (Some (JObj [(t! "body", JStr body)]))
    (JObj []) None None
    (Some (JObj [(t! "rel_type", JStr M_THREAD); (t! "event_id", JStr root)])) (Some body).
Definition powers (id : text) (ts level : Z) : RoomStateUpsert (Jsonb := json) :=
  MkUpsert room (t! "m.room.power_levels") [] id (t! "@admin:x") ts
    (Some (JObj [(t! "users", JObj [(t! "@mod:y", JInt level)])])).

(** A moderator of another server redacts, then is demoted. *)
Definition moderated : list Write :=
  [Upsert (message (t! "$1") (t! "@a:x") 10 (t! "hello"));
   State acc (powers (t! "$p") 11 50) Unknown;
   Upsert (redaction (t! "$2") (t! "@mod:y") 12 (t! "$1"))].
Definition demoted : list Write :=
  [State acc (powers (t! "$q") 13 0) Unknown; Upsert (message (t! "$3") (t! "@b:y") 14 (t! "more"))].

Definition tied : list Write :=
  [Upsert (message (t! "$1") (t! "@a:x") 10 (t! "one")); Upsert (message (t! "$2") (t! "@b:x") 10 (t! "two"));
   Upsert (edit (t! "$e") (t! "@a:x") 11 (t! "$1") (t! "uno"));
   Upsert (message (t! "$3") (t! "@a:x") 5 (t! "three"))].

Lemma empty_wf : wf empty_db.
Proof. by repeat constructor. Qed.

Lemma stored_wf l db : wf db -> wf (stored l db).
Proof.
  revert db. induction l as [|w l IH]; intros db H; [done|]. apply IH.
  by apply (write_wf out same num nodes).
Qed.

End Sample.
Import Sample.

Example moderation_applies :
  exists e, find_event (stored moderated empty_db) acc (t! "$1") = Some e /\
    event_is_redacted out (stored moderated empty_db) e = true /\
    server_of (e_sender e) <> server_of (t! "@mod:y").
Proof. eexists. vm_compute. by repeat split. Qed.

Lemma redacted_events_stay_masked_witness :
  exists row, get_event out text_leb (stored demoted (stored moderated empty_db)) acc (t! "$1") = Some row /\
    is_Some (t_redaction row) /\ t_content row = None /\ t_body row = None /\ t_edited row = false.
Proof.
  destruct (find_event (stored moderated empty_db) acc (t! "$1")) as [e|] eqn:E; [|by vm_compute in E].
  apply (redacted_events_stay_masked out same num text_leb nodes demoted _ acc _ e).
  - apply stored_wf, empty_wf.
  - by repeat split.
  - exact E.
  - revert E. vm_compute. by intros [= <-].
Defined.

Lemma activity_is_the_rebuild_witness :
  activity (stored tied empty_db) !! (acc, room) = rebuilt_activity (stored tied empty_db) acc room /\
  (last_event_id <$> activity (stored tied empty_db) !! (acc, room)) = Some (t! "$e").
Proof.
  split; [|by vm_compute].
  apply (activity_is_the_rebuild out same num nodes tied empty_db).
  - apply empty_wf.
  - intros e He. by apply not_elem_of_nil in He.
  - by repeat constructor.
  - intros a r. by unfold rebuilt_activity.
Defined.

Lemma pages_cover_the_listing_witness :
  let pages := all_pages (shown_in_room out acc room) 1 (stored tied empty_db) 6 None in
  map (map e_event_id) pages = [[t! "$2"]; [t! "$1"]; [t! "$3"]] /\
  mjoin (M := list) pages = listing (shown_in_room out acc room) (stored tied empty_db).
Proof.
  split; [by vm_compute|].
  apply (pages_cover_the_listing (shown_in_room out acc room) 1 (stored tied empty_db) 6).
  - apply stored_wf, empty_wf.
  - lia.
  - vm_compute. lia.
Defined.

Lemma delivery_is_idempotent_witness :
  wf empty_db /\
  match upsert_event out same num nodes (message (t! "$1") (t! "@a:x") 10 (t! "one")) empty_db with
  | Some (id, db1, keys) => id = 1 /\ keys = [(acc, t! "$1")] /\
      exists db2, upsert_event out same num nodes (message (t! "$1") (t! "@a:x") 10 (t! "one")) db1
                  = Some (id, db2, [])
  | None => False
  end.
Proof.
  split; [apply empty_wf|].
  pose proof (delivery_is_idempotent out same num nodes (message (t! "$1") (t! "@a:x") 10 (t! "one"))
    empty_db empty_wf) as H.
  destruct (upsert_event out same num nodes _ empty_db) as [[[id db1] keys]|] eqn:E; [|by vm_compute in E].
  destruct H as (_ & db2 & H & _). split_and!; [| |by exists db2]; vm_compute in E; by injection E as <- <- <-.
Defined.

(** A redaction without authority leaves the reply on the timeline, and takes it
    out of its thread's summary. *)
Definition thread_db : Db := stored
  [Upsert (message (t! "$r") (t! "@a:x") 1 (t! "root"));
   Upsert (reply_in_thread (t! "$1") (t! "@a:x") 2 (t! "$r") (t! "answer"));
   Upsert (redaction (t! "$2") (t! "@stranger:z") 3 (t! "$1"))] empty_db.

Example threads_trust_any_redaction :
  (t_body <$> get_event out text_leb thread_db acc (t! "$1")) = Some (Some (t! "answer")) /\
  length (thread_timeline out text_leb thread_db acc room (t! "$r") None 10) = 1%nat /\
  th_replies (thread_summary out thread_db acc room (t! "$r")) = 0.
Proof. by vm_compute. Qed.

(** A user who reacted twice with a key is told one of the two events. *)
Example one_own_reaction_is_named :
  let db := stored
    [Upsert (message (t! "$r") (t! "@a:x") 1 (t! "root"));
     Upsert (reaction (t! "$1") (t! "@me:x") 2 (t! "$r") (t! "k"));
     Upsert (reaction (t! "$2") (t! "@me:x") 3 (t! "$r") (t! "k"))] empty_db in
  (rt_my_event_ids <$> event_reactions out text_leb db acc (t! "$r")) = [[t! "$1"]].
Proof. by vm_compute. Qed.
