(* ===== verification/SearchIndex.v ===== *)
(** * The search index

    Models how the full-text index follows the event table:
    [crates/axon-store/src/search.rs] (the outbox, its cursor and the corpus the
    index is rebuilt from) and [crates/axon-search/src/writer.rs] with the document
    operations of [schema.rs] and the freshness marker of [index.rs].  Store
    transactions and the indexing actor interleave: a step is one transaction, or
    one read or write of the actor.  The query side is Tantivy's. *)

From stdpp Require Import base gmap sets list strings sorting.
From Stdlib Require Import ZArith Lia QArith.
From S2P Require Import Prelude Text Effects RoomState HtmlText Timeline.
Open Scope Z_scope.
Open Scope prog_scope.

(** ** The outbox *)

Definition SEARCH_OUTBOX_PURGE : text := [].
Definition SEARCH_OUTBOX_ROOM_PURGE_PREFIX : text := [31] ++ t! "room" ++ [31].
Definition room_purge_sentinel (room : text) : text := SEARCH_OUTBOX_ROOM_PURGE_PREFIX ++ room.

Record SearchOutboxEntry := MkEntry {
  seq : Z;
  o_account : uuid;
  o_event : text;
}.
#[export] Instance SearchOutboxEntry_eq_dec : EqDecision SearchOutboxEntry.
Proof. solve_decision. Defined.
Definition o_key (e : SearchOutboxEntry) : dockey := (o_account e, o_event e).
Definition is_purge (e : SearchOutboxEntry) : bool := bool_decide (o_event e = SEARCH_OUTBOX_PURGE).
Definition room_purge (e : SearchOutboxEntry) : option text :=
  strip_prefix SEARCH_OUTBOX_ROOM_PURGE_PREFIX (o_event e).

Definition seq_le (a b : SearchOutboxEntry) : Prop := seq a <= seq b.
#[export] Instance seq_le_dec : RelDecision seq_le.
Proof. intros a b. unfold seq_le. apply _. Defined.

(** [drain_search_outbox]: [seq > $1 ORDER BY seq LIMIT $2]. *)
Definition drain_search_outbox (outbox : list SearchOutboxEntry) (after_seq : Z) (limit : nat)
    : list SearchOutboxEntry :=
  take limit (merge_sort seq_le (filter (fun e => after_seq < seq e) outbox)).

Definition search_outbox_high_water (outbox : list SearchOutboxEntry) : Z := foldl Z.max 0 (seq <$> outbox).

(** ** Documents *)

(** [IndexableEvent]; a document is one without its row. *)
Record IndexableEvent := MkIndexable {
  i_id : Z;
  i_account : uuid;
  i_event : text;
  i_room : text;
  i_sender : text;
  i_ts : Z;
  i_body : text;
}.
(** The fields of the schema; [d_key] is [doc_key], whose separator is in no UUID. *)
Record Document := MkDocument {
  d_key : dockey;
  d_room : text;
  d_sender : text;
  d_ts : Z;
  d_body : text;
}.
#[export] Instance Document_eq_dec : EqDecision Document.
Proof. solve_decision. Defined.

Definition document_of (ev : IndexableEvent) : Document :=
  MkDocument (i_account ev, i_event ev) (i_room ev) (i_sender ev) (i_ts ev) (i_body ev).

(** The operations of [SearchSchema] on the documents a writer holds. *)
Definition add (ev : IndexableEvent) (docs : list Document) : list Document := docs ++ [document_of ev].
Definition delete_doc (k : dockey) (docs : list Document) : list Document := filter (fun d => d_key d <> k) docs.
Definition upsert_doc (ev : IndexableEvent) (docs : list Document) : list Document :=
  add ev (delete_doc (i_account ev, i_event ev) docs).
Definition delete_account_docs (a : uuid) (docs : list Document) : list Document :=
  filter (fun d => (d_key d).1 <> a) docs.
Definition delete_room_docs (a : uuid) (room : text) (docs : list Document) : list Document :=
  filter (fun d => ~ ((d_key d).1 = a /\ d_room d = room)) docs.

Definition docs_of (k : dockey) (docs : list Document) : list Document := filter (fun d => d_key d = k) docs.

(** ** The drain's questions

    What [drain_all] asks of the store, and what it does to the writer; only the
    former is awaited.  A failed call answers [None] or [false]. *)
Inductive IQuestion :=
| OutboxCursor
| DrainOutbox (after_seq : Z)
| GetEvent (k : dockey)
| WriterUpsert (ev : IndexableEvent)
| WriterDelete (k : dockey)
| WriterDeleteAccount (a : uuid)
| WriterDeleteRoom (a : uuid) (room : text)
| WriterCommit
| SetOutboxCursor (s : Z)
| PruneOutbox (through_seq : Z).

Definition ianswer (q : IQuestion) : Type :=
  match q with
  | OutboxCursor => option Z
  | DrainOutbox _ => option (list SearchOutboxEntry)
  | GetEvent _ => option (option TimelineRow)
  | WriterUpsert _ | WriterDeleteRoom _ _ | WriterCommit | SetOutboxCursor _ | PruneOutbox _ => bool
  | WriterDelete _ | WriterDeleteAccount _ => unit
  end.
Abbreviation iask := (ask (ans := ianswer)).

Section SearchIndex.
Context (jsonb_out : json -> text) (same_json : json -> json -> bool) (numeric : text -> Q).
Context (collate : text -> text -> bool) (sanitized_nodes : text -> list node).

(** ** The live resolution *)

Definition is_standalone_relation (row : TimelineRow) : bool :=
  let rel_type := (t_relates row ≫= jget (t! "rel_type")) ≫= as_str in
  bool_decide (rel_type = Some M_REPLACE) ||
  (bool_decide (t_type row = M_REACTION) && bool_decide (rel_type = Some M_ANNOTATION)).

Definition indexable (account : uuid) (row : TimelineRow) : option IndexableEvent :=
  if is_standalone_relation row then None
  else
    body ← t_body row;
    if bool_decide (body = []) then None
    else Some (MkIndexable (t_id row) account (t_event_id row) (t_room row) (t_sender row) (t_ts row) body).

(** What [apply_event] finds for a key. *)
Definition resolve (db : Db) (k : dockey) : option IndexableEvent :=
  get_event jsonb_out collate db k.1 k.2 ≫= indexable k.1.
Definition document (db : Db) (k : dockey) : option Document := document_of <$> resolve db k.

Definition apply_event (db : Db) (k : dockey) (docs : list Document) : list Document :=
  match resolve db k with
  | Some ev => upsert_doc ev docs
  | None => delete_doc k docs
  end.

(** One entry of [apply_batch]. *)
Definition apply_entry (db : Db) (e : SearchOutboxEntry) (seen : list dockey) (docs : list Document)
    : list dockey * list Document :=
  if is_purge e then (seen, delete_account_docs (o_account e) docs)
  else match room_purge e with
    | Some room => (seen, delete_room_docs (o_account e) room docs)
    | None =>
        if bool_decide (o_key e ∈ seen) then (seen, docs)
        else (o_key e :: seen, apply_event db (o_key e) docs)
    end.
Definition apply_batch (db : Db) (batch : list SearchOutboxEntry) (docs : list Document) : list Document :=
  (foldl (fun acc e => apply_entry db e acc.1 acc.2) ([], docs) batch).2.

(** The same against the store, [false] for an error: [apply_event], *)
Definition drain_event (k : dockey) : prog ianswer bool :=
  let! r := iask (GetEvent k) in
  match r with
  | None => Ret false
  | Some row =>
      match row ≫= indexable k.1 with
      | Some ev => iask (WriterUpsert ev)
      | None => let! _ := iask (WriterDelete k) in Ret true
      end
  end.

(** [apply_batch] *)
Fixpoint drain_batch (batch : list SearchOutboxEntry) (seen : list dockey) : prog ianswer bool :=
  match batch with
  | [] => Ret true
  | e :: rest =>
      if is_purge e then
        let! _ := iask (WriterDeleteAccount (o_account e)) in drain_batch rest seen
      else match room_purge e with
        | Some room =>
            let! ok := iask (WriterDeleteRoom (o_account e) room) in
            if ok then drain_batch rest seen else Ret false
        | None =>
            if bool_decide (o_key e ∈ seen) then drain_batch rest seen
            else
              let! ok := drain_event (o_key e) in
              if ok then drain_batch rest (o_key e :: seen) else Ret false
        end
  end.

(** and [drain_all], [None] when it is still looping after [fuel] rounds. *)
Fixpoint drain_all (limit fuel : nat) : prog ianswer (option bool) :=
  match fuel with
  | O => Ret None
  | S fuel =>
      let! cursor := iask OutboxCursor in
      match cursor with
      | None => Ret (Some false)
      | Some cursor =>
          let! batch := iask (DrainOutbox cursor) in
          match batch with
          | None => Ret (Some false)
          | Some batch =>
              match last batch with
              | None => let! _ := iask (PruneOutbox cursor) in Ret (Some true)
              | Some e =>
                  let! ok := drain_batch batch [] in
                  if negb ok then Ret (Some false)
                  else
                    let! ok := iask WriterCommit in
                    if negb ok then Ret (Some false)
                    else
                      let! ok := iask (SetOutboxCursor (seq e)) in
                      if negb ok then Ret (Some false)
                      else
                        let! _ := iask (PruneOutbox (seq e)) in
                        if (length batch <? limit)%nat then Ret (Some true) else drain_all limit fuel
              end
          end
      end
  end.

(** ** The corpus *)

Definition seed_keeps (e : Event) : bool :=
  bool_decide (is_Some (e_body e)) && negb (bool_decide (rel_type jsonb_out e = Some M_REPLACE)) &&
  negb (bool_decide (rel_type jsonb_out e = Some M_ANNOTATION) && bool_decide (e_type e = M_REACTION)).
Definition seed_document (db : Db) (e : Event) : option IndexableEvent :=
  if seed_keeps e then
    body ← t_body (project jsonb_out collate db e);
    if bool_decide (body = []) then None
    else Some (MkIndexable (e_id e) (e_account e) (e_event_id e) (e_room e) (e_sender e) (e_ts e) body)
  else None.

(** [events_for_index]; the table is in the order of its ids. *)
Definition events_for_index (db : Db) (after_id : Z) (limit : nat) : list IndexableEvent :=
  take limit (omap (seed_document db) (filter (fun e => after_id < e_id e) (events db))).

(** ** Store and actor together

    [Idle]: waiting, or about to read the outbox.  [Applying]: a batch read up to
    [last], its entries left, the keys seen.  [Applied], [Committed]: before the
    commit, before the cursor is stored.  The seed: [Opened] with a fresh
    directory, the high water read, the index emptied, the scan at [after], the
    scan done, the cursor stored. *)
Inductive Actor :=
| Down
| Idle
| Applying (rest : list SearchOutboxEntry) (seen : list dockey) (last : Z)
| Applied (last : Z)
| Committed (last : Z)
| Opened
| HighWater (wm : Z)
| Scanning (wm after : Z)
| Scanned (wm : Z)
| Seeded.

(** [written] is what the writer holds, [committed] what a commit made durable;
    [marker] is the seed-completion marker.  [blind] is no state of the program: it
    collects the keys whose obligation the steps below lose. *)
Record World := MkWorld {
  db : Db;
  outbox : list SearchOutboxEntry;
  cursor : Z;
  deleting : gset uuid;
  actor : Actor;
  written : list Document;
  committed : list Document;
  marker : bool;
  blind : dockey -> Prop;
}.

(** The last sequence number the actor has read past. *)
Definition frontier (w : World) : Z :=
  match actor w with
  | Applying _ _ last | Applied last | Committed last => last
  | HighWater wm | Scanning wm _ | Scanned wm => wm
  | Down | Idle | Opened | Seeded => cursor w
  end.

(** Whether an obligation is about a document. *)
Definition covers (a : uuid) (i : text) (k : dockey) : Prop :=
  (a, i) = k \/ (a = k.1 /\ i = SEARCH_OUTBOX_PURGE).

Definition appended (keys : list dockey) (seqs : list Z) : list SearchOutboxEntry :=
  zip_with (fun k s => MkEntry s k.1 k.2) keys seqs.

(** A transaction appends its obligations with numbers its sequence gave out
    earlier; what the actor has read past is lost on it. *)
Definition late (front : Z) (new : list SearchOutboxEntry) (k : dockey) : Prop :=
  exists e, e ∈ new /\ seq e <= front /\ covers (o_account e) (o_event e) k.
Definition on_time (front : Z) (new : list SearchOutboxEntry) (k : dockey) : Prop :=
  exists e, e ∈ new /\ front < seq e /\ covers (o_account e) (o_event e) k.

(** An id that is no sentinel. *)
Definition clean_key (k : dockey) : Prop :=
  k.2 <> SEARCH_OUTBOX_PURGE /\ strip_prefix SEARCH_OUTBOX_ROOM_PURGE_PREFIX k.2 = None.

(** The accounts with an obligation in the log that reads as a purge and is none: its
    drain deletes documents no deletion was asked for. *)
Definition stained (gone : gset uuid) (log : list SearchOutboxEntry) (k : dockey) : Prop :=
  exists e, e ∈ log /\ o_account e = k.1 /\ ~ clean_key (o_key e) /\
            ~ (o_event e = SEARCH_OUTBOX_PURGE /\ o_account e ∈ gone).

Definition commit (w : World) (db' : Db) (keys : list dockey) (seqs : list Z) (missed : dockey -> Prop)
    : World :=
  let new := appended keys seqs in
  MkWorld db' (outbox w ++ new) (cursor w) (deleting w) (actor w) (written w) (committed w) (marker w)
    (fun k => ((blind w k \/ missed k \/ late (frontier w) new k) /\ ~ on_time (frontier w) new k) \/
              stained (deleting w) (outbox w ++ new) k).

Definition fresh_seqs (w : World) (keys : list dockey) (seqs : list Z) : Prop :=
  length seqs = length keys /\ NoDup seqs /\
  Forall (fun s => 0 < s /\ s ∉ seq <$> outbox w) seqs.

(** What a batch of a room purge changes without naming it. *)
Definition purge_missed (d : Db) (gone : list Event) (k : dockey) : Prop :=
  exists x, x ∈ gone /\ e_account x = k.1 /\
    (rel_target jsonb_out x = Some k.2 \/ e_redacts x = Some k.2 \/
     exists ev, ev ∈ events d /\ e_account ev = k.1 /\ e_redacts x = Some (e_event_id ev) /\
                rel_target jsonb_out ev = Some k.2).

Definition set_actor (w : World) (a : Actor) : World :=
  MkWorld (db w) (outbox w) (cursor w) (deleting w) a (written w) (committed w) (marker w) (blind w).
Definition set_written (w : World) (a : Actor) (docs : list Document) : World :=
  MkWorld (db w) (outbox w) (cursor w) (deleting w) a docs (committed w) (marker w) (blind w).

(** The corpus has this row without a document although the live path finds one. *)
Definition seed_differs (d : Db) (after : Z) (k : dockey) : Prop :=
  exists e, find_event d k.1 k.2 = Some e /\ after < e_id e /\ e_body e = None /\
            t_body (project jsonb_out collate d e) <> None.

Section Steps.
(** [batch_size]. *)
Context (limit : nat).

(** The transactions of the store, and a rebuild asked for on the command line. *)
Inductive store_step (w : World) : World -> Prop :=
| s_write wr seqs :
    fresh_seqs w (write jsonb_out same_json numeric sanitized_nodes wr (db w)).2 seqs ->
    store_step w (commit w (write jsonb_out same_json numeric sanitized_nodes wr (db w)).1
                     (write jsonb_out same_json numeric sanitized_nodes wr (db w)).2 seqs
                     (redacts_edit_of jsonb_out wr (db w)))
| s_purge_room a room through gone seqs :
    is_batch a (Some room) (Some through) (db w) gone ->
    fresh_seqs w (delete_batch a (Some room) gone (db w)).2 seqs ->
    store_step w (commit w (delete_batch a (Some room) gone (db w)).1
                     (delete_batch a (Some room) gone (db w)).2 seqs (purge_missed (db w) gone))
| s_begin_delete a :
    store_step w (MkWorld (db w) (outbox w) (cursor w) ({[a]} ∪ deleting w) (actor w) (written w) (committed w)
                    (marker w) (blind w))
| s_delete_batch a gone seqs :
    a ∈ deleting w -> is_batch a None None (db w) gone ->
    fresh_seqs w (delete_batch a None gone (db w)).2 seqs ->
    store_step w (commit w (delete_batch a None gone (db w)).1 (delete_batch a None gone (db w)).2 seqs
                    (fun _ => False))
| s_delete_account a seqs :
    a ∈ deleting w -> fresh_seqs w (delete_account a (db w)).2 seqs ->
    store_step w (commit w (delete_account a (db w)).1 (delete_account a (db w)).2 seqs (fun _ => False))
| s_reseed :
    store_step w (MkWorld (db w) (outbox w) (cursor w) (deleting w) (actor w) (written w) (committed w) false
                    (blind w)).

Inductive step (w : World) : World -> Prop :=
| s_store w' : store_step w w' -> step w w'
(* reclamation: any part of what the cursor has passed *)
| s_prune (gone : list SearchOutboxEntry) :
    actor w = Idle \/ actor w = Seeded ->
    (forall e, e ∈ gone -> seq e <= cursor w) ->
    step w (MkWorld (db w) (filter (fun e => e ∉ gone) (outbox w)) (cursor w) (deleting w) (actor w)
              (written w) (committed w) (marker w) (blind w))
(* the drain *)
| s_read :
    actor w = Idle -> drain_search_outbox (outbox w) (cursor w) limit <> [] ->
    step w (set_actor w (Applying (drain_search_outbox (outbox w) (cursor w) limit) []
              (default 0 (seq <$> last (drain_search_outbox (outbox w) (cursor w) limit)))))
| s_apply e rest seen l :
    actor w = Applying (e :: rest) seen l ->
    step w (set_written w
              (Applying rest (apply_entry (db w) e seen (written w)).1 l)
              (apply_entry (db w) e seen (written w)).2)
| s_applied seen l :
    actor w = Applying [] seen l -> step w (set_actor w (Applied l))
| s_commit l :
    actor w = Applied l ->
    step w (MkWorld (db w) (outbox w) (cursor w) (deleting w) (Committed l) (written w) (written w)
              (marker w) (blind w))
| s_advance l :
    actor w = Committed l ->
    step w (MkWorld (db w) (outbox w) l (deleting w) Idle (written w) (committed w) (marker w) (blind w))
(* [upsert] deletes the old document before it adds the new one *)
| s_half_applied e rest seen l :
    actor w = Applying (e :: rest) seen l ->
    step w (set_written w Idle (delete_doc (o_key e) (written w)))
| s_fail rest seen l :
    actor w = Applying rest seen l \/ actor w = Applied l \/ actor w = Committed l ->
    step w (set_actor w Idle)
(* the process *)
| s_crash : step w (set_written w Down (committed w))
| s_resume : actor w = Down -> marker w = true -> step w (set_actor w Idle)
| s_open :
    actor w = Down -> marker w = false ->
    step w (MkWorld (db w) (outbox w) (cursor w) (deleting w) Opened [] [] false (blind w))
(* the seed *)
| s_high_water :
    actor w = Opened -> step w (set_actor w (HighWater (search_outbox_high_water (outbox w))))
| s_clear wm :
    actor w = HighWater wm ->
    step w (MkWorld (db w) (outbox w) (cursor w) (deleting w) (Scanning wm 0) [] [] (marker w)
              (stained (deleting w) (outbox w)))
| s_scan wm after (failed : IndexableEvent -> bool) :
    actor w = Scanning wm after ->
    let batch := events_for_index (db w) after limit in
    let docs := foldl (fun docs ev => if failed ev then docs else add ev docs) (written w) batch in
    step w (MkWorld (db w) (outbox w) (cursor w) (deleting w)
              (if bool_decide (batch = []) || (length batch <? limit)%nat then Scanned wm
               else Scanning wm (default after (i_id <$> last batch)))
              docs docs (marker w)
              (fun k => blind w k \/ (exists ev, ev ∈ batch /\ failed ev = true /\ (i_account ev, i_event ev) = k) \/
                        seed_differs (db w) after k))
| s_cursor wm :
    actor w = Scanned wm ->
    step w (MkWorld (db w) (outbox w) wm (deleting w) Seeded (written w) (committed w) (marker w) (blind w))
| s_mark (ok : bool) :
    actor w = Seeded ->
    step w (MkWorld (db w) (outbox w) (cursor w) (deleting w) Idle (written w) (committed w)
              (ok || marker w) (blind w)).

Inductive run : World -> World -> Prop :=
| run_refl w : run w w
| run_step w1 w2 w3 : run w1 w2 -> step w2 w3 -> run w1 w3.

End Steps.

(** ** Invariants *)

Definition pending (pos : Z) (w : World) (k : dockey) : Prop :=
  exists e, e ∈ outbox w /\ pos < seq e /\ covers (o_account e) (o_event e) k.

(** The documents of a key are what the projection says; those of an account being
    deleted may already be gone. *)
Definition settled (w : World) (docs : list Document) (k : dockey) : Prop :=
  docs_of k docs = option_list (document (db w) k) \/ (k.1 ∈ deleting w /\ docs_of k docs = []).

Definition agrees (pend : dockey -> Prop) (w : World) (docs : list Document) : Prop :=
  forall k, ~ blind w k -> ~ pend k -> settled w docs k.

(** Left of a batch: an entry whose key was seen resolves nothing any more. *)
Definition left_of (rest : list SearchOutboxEntry) (seen : list dockey) (k : dockey) : Prop :=
  exists e, e ∈ rest /\ covers (o_account e) (o_event e) k /\ (is_purge e = true \/ o_key e ∉ seen).

Definition scanned (w : World) (wm after : Z) (docs : list Document) : Prop :=
  forall k, ~ blind w k -> ~ pending wm w k ->
    (exists e, find_event (db w) k.1 k.2 = Some e /\ after < e_id e /\ docs_of k docs = []) \/
    ((forall e, find_event (db w) k.1 k.2 = Some e -> e_id e <= after) /\ settled w docs k).

Definition entry_ok (w : World) (e : SearchOutboxEntry) : Prop :=
  clean_key (o_key e) \/ (o_event e = SEARCH_OUTBOX_PURGE /\ o_account e ∈ deleting w) \/
  (forall k, k.1 = o_account e -> blind w k).

Definition actor_ok (w : World) : Prop :=
  match actor w with
  | Down => written w = committed w /\ (marker w = true -> agrees (pending (cursor w) w) w (committed w))
  | Idle => agrees (pending (cursor w) w) w (written w) /\ agrees (pending (cursor w) w) w (committed w)
  | Applying rest seen l =>
      cursor w <= l /\ (forall e, e ∈ rest -> e ∈ outbox w /\ cursor w < seq e) /\
      agrees (fun k => pending l w k \/ left_of rest seen k) w (written w) /\
      agrees (pending (cursor w) w) w (committed w)
  | Applied l =>
      cursor w <= l /\ agrees (pending l w) w (written w) /\ agrees (pending (cursor w) w) w (committed w)
  | Committed l => cursor w <= l /\ agrees (pending l w) w (written w) /\ agrees (pending l w) w (committed w)
  | Opened | HighWater _ => marker w = false
  | Scanning wm after => marker w = false /\ committed w = written w /\ scanned w wm after (written w)
  | Scanned wm => marker w = false /\ committed w = written w /\ agrees (pending wm w) w (written w)
  | Seeded => marker w = false /\ committed w = written w /\ agrees (pending (cursor w) w) w (written w)
  end.

Record ok (w : World) : Prop := {
  ok_wf : wf (db w);
  ok_seqs : NoDup (seq <$> outbox w);
  ok_entries : forall e, e ∈ outbox w -> entry_ok w e;
  ok_actor : actor_ok w;
}.

(** ** Lemmas: documents *)

Lemma docs_of_app k a b : docs_of k (a ++ b) = docs_of k a ++ docs_of k b.
Proof. unfold docs_of. apply filter_app. Qed.

Lemma docs_of_delete k k' docs :
  docs_of k (delete_doc k' docs) = if decide (k = k') then [] else docs_of k docs.
Proof.
  unfold docs_of, delete_doc. rewrite list_filter_filter. case_decide as E.
  - apply filter_nil_iff, Forall_forall. intros d _ [? ?]. congruence.
  - apply filter_ext_in. intros d _. split; [tauto|]. intros <-. split; [done|congruence].
Qed.

Lemma docs_of_delete_account k a docs :
  docs_of k (delete_account_docs a docs) = if decide (k.1 = a) then [] else docs_of k docs.
Proof.
  unfold docs_of, delete_account_docs. rewrite list_filter_filter. case_decide as E.
  - apply filter_nil_iff, Forall_forall. intros d _ [? ?]. congruence.
  - apply filter_ext_in. intros d _. split; [tauto|]. intros <-. split; [done|congruence].
Qed.

Lemma resolve_key d k ev : resolve d k = Some ev -> (i_account ev, i_event ev) = k.
Proof.
  unfold resolve, get_event. destruct (find_event d k.1 k.2) as [e|] eqn:E; [|done].
  apply find_event_Some in E as [_ Hk]. cbn. unfold indexable. destruct (is_standalone_relation _); [done|].
  destruct (t_body _) as [b|]; [|done]. cbn. case_bool_decide; [done|]. intros [= <-]. cbn.
  injection Hk as _ ->. by destruct k.
Qed.

Lemma docs_of_add k ev docs :
  docs_of k (add ev docs) =
  docs_of k docs ++ if decide ((i_account ev, i_event ev) = k) then [document_of ev] else [].
Proof.
  unfold add. by rewrite docs_of_app.
Qed.

Lemma docs_of_apply d k k' docs :
  docs_of k (apply_event d k' docs) =
  if decide (k = k') then option_list (document d k) else docs_of k docs.
Proof.
  unfold apply_event, document. destruct (resolve d k') as [ev|] eqn:E.
  - pose proof (resolve_key d k' ev E) as Hk. unfold upsert_doc. rewrite docs_of_add, docs_of_delete.
    rewrite Hk. destruct (decide (k = k')) as [->|Hne].
    + rewrite E. by rewrite decide_True.
    + rewrite decide_False by congruence. by rewrite app_nil_r.
  - rewrite docs_of_delete. case_decide; [subst k|done]. by rewrite E.
Qed.

(** A key whose row and whose shown body are kept keeps its document. *)
Lemma document_kept d d' k :
  find_event d' k.1 k.2 = find_event d k.1 k.2 ->
  (forall e, find_event d k.1 k.2 = Some e ->
    t_body (project jsonb_out collate d' e) = t_body (project jsonb_out collate d e)) ->
  document d' k = document d k.
Proof.
  intros Hf Hb. unfold document, resolve, get_event. rewrite Hf.
  destruct (find_event d k.1 k.2) as [e|]; [|done]. specialize (Hb e eq_refl).
  cbn [fmap option_fmap option_map mbind option_bind]. unfold indexable. by rewrite Hb.
Qed.

(** ** Lemmas: obligations *)

Lemma appended_spec keys seqs e :
  e ∈ appended keys seqs -> o_key e ∈ keys /\ seq e ∈ seqs.
Proof.
  unfold appended. intros He. apply list_elem_of_lookup in He as [i Hi].
  apply lookup_zip_with_Some in Hi as (k & s & -> & Hk & Hs). cbn.
  split; [|by eapply list_elem_of_lookup_2]. apply list_elem_of_lookup_2 in Hk. by destruct k.
Qed.

Lemma appended_named keys seqs a i k :
  length seqs = length keys -> (a, i) ∈ keys -> covers a i k ->
  forall front, late front (appended keys seqs) k \/ on_time front (appended keys seqs) k.
Proof.
  intros Hlen Hin Hc front. apply list_elem_of_lookup in Hin as [n Hn].
  destruct (lookup_lt_is_Some_2 seqs n) as [s Hs]; [apply lookup_lt_Some in Hn; lia|].
  assert (MkEntry s a i ∈ appended keys seqs) as Hin.
  { apply list_elem_of_lookup. exists n. unfold appended. apply lookup_zip_with_Some. by exists (a, i), s. }
  destruct (decide (s <= front)); [left|right]; exists (MkEntry s a i); split_and!; try done. cbn; lia.
Qed.

(** The other keys of a transaction keep row and document. *)
Definition stable (w : World) (d' : Db) (keys : list dockey) (missed : dockey -> Prop) : Prop :=
  forall k, (forall a i, (a, i) ∈ keys -> ~ covers a i k) -> ~ missed k ->
    find_event d' k.1 k.2 = find_event (db w) k.1 k.2 /\ document d' k = document (db w) k.

Section Commit.
Context (w : World) (d' : Db) (keys : list dockey) (seqs : list Z) (missed : dockey -> Prop).
Context (Hlen : length seqs = length keys) (Hstable : stable w d' keys missed).
#[local] Abbreviation w' := (commit w d' keys seqs missed).

Lemma commit_kept k :
  ~ blind w' k -> ~ on_time (frontier w) (appended keys seqs) k ->
  ~ blind w k /\ find_event d' k.1 k.2 = find_event (db w) k.1 k.2 /\ document d' k = document (db w) k.
Proof.
  intros Hb Hon. cbn in Hb. assert (~ (blind w k \/ missed k \/ late (frontier w) (appended keys seqs) k)) as Hn
    by tauto.
  split; [tauto|]. apply Hstable; [|tauto]. intros a i Hin Hc.
  destruct (appended_named keys seqs a i k Hlen Hin Hc (frontier w)); tauto.
Qed.

Lemma commit_pending pos k : pending pos w k -> pending pos w' k.
Proof. intros (e & He & ?). exists e. split; [|done]. apply elem_of_app. by left. Qed.

Lemma commit_on_time pos k :
  pos <= frontier w -> on_time (frontier w) (appended keys seqs) k -> pending pos w' k.
Proof.
  intros Hpos (e & He & Hs & Hc). exists e. split_and!; [|lia|done]. apply elem_of_app. by right.
Qed.

Lemma commit_settled docs k : document d' k = document (db w) k -> settled w docs k -> settled w' docs k.
Proof. intros Hd. unfold settled. cbn. by rewrite Hd. Qed.

Lemma commit_agrees (pend pend' : dockey -> Prop) docs :
  (forall k, pend k -> pend' k) -> (forall k, on_time (frontier w) (appended keys seqs) k -> pend' k) ->
  agrees pend w docs -> agrees pend' w' docs.
Proof.
  intros Hp Hon Hag k Hb Hn. destruct (commit_kept k) as (Hnb & _ & Hd); [done|by intros ?%Hon|].
  apply commit_settled; [done|]. apply Hag; [done|]. by intros ?%Hp.
Qed.

Lemma commit_scanned wm after docs :
  wm <= frontier w -> scanned w wm after docs -> scanned w' wm after docs.
Proof.
  intros Hwm Hs k Hb Hn. destruct (commit_kept k) as (Hnb & Hf & Hd); [done|by intros ?%(commit_on_time wm)|].
  destruct (Hs k) as [?|[Hid Hset]]; [done|by intros ?%commit_pending|left|right]; cbn; rewrite Hf; [done|].
  split; [done|]. by apply commit_settled.
Qed.

Lemma commit_actor : actor_ok w -> actor_ok w'.
Proof.
  assert (forall pos docs, pos <= frontier w -> agrees (pending pos w) w docs -> agrees (pending pos w') w' docs) as Hpos.
  { intros pos docs Hle. apply commit_agrees; intros k; [apply commit_pending|by apply commit_on_time]. }
  unfold actor_ok. cbn [commit actor cursor written committed marker].
  destruct (actor w) as [| |rest seen l|l|l| |wm|wm after|wm|] eqn:Ea;
    assert (frontier w = match actor w with
      | Applying _ _ last | Applied last | Committed last => last
      | HighWater wm | Scanning wm _ | Scanned wm => wm | _ => cursor w end) as Hfr by done;
    rewrite Ea in Hfr.
  - intros [Hw H]. split; [done|]. intros Hm. apply Hpos; [lia|auto].
  - intros [H1 H2]. split; apply Hpos; done || lia.
  - intros (Hcl & Hin & H1 & H2). split_and!; [done| | |apply Hpos; [lia|done]].
    + intros e He. destruct (Hin e He). split; [|done]. apply elem_of_app. by left.
    + eapply commit_agrees; [| |exact H1]; intros k.
      * intros [?|?]; [left; by apply commit_pending|by right].
      * intros ?. left. apply commit_on_time; [lia|done].
  - intros (Hcl & H1 & H2). split_and!; [done|apply Hpos; [lia|done]..].
  - intros (Hcl & H1 & H2). split_and!; [done|apply Hpos; [lia|done]..].
  - done.
  - done.
  - intros (Hm & Hc & H). split_and!; [done|done|]. apply commit_scanned; [lia|done].
  - intros (Hm & Hc & H). split_and!; [done|done|]. apply Hpos; [lia|done].
  - intros (Hm & Hc & H). split_and!; [done|done|]. apply Hpos; [lia|done].
Qed.

End Commit.

(** ** Lemmas: what each transaction leaves alone *)

Lemma write_stable w wr :
  NoDup (e_key <$> events (db w)) ->
  stable w (write jsonb_out same_json numeric sanitized_nodes wr (db w)).1
    (write jsonb_out same_json numeric sanitized_nodes wr (db w)).2 (redacts_edit_of jsonb_out wr (db w)).
Proof.
  intros Hnd [a i] Hk Hm. cbn in *.
  destruct (write_keeps_document jsonb_out same_json numeric collate sanitized_nodes wr (db w) a i) as [Hf Hb];
    [done| |done|].
  - intros Hin. apply (Hk a i Hin). by left.
  - split; [done|]. by apply document_kept.
Qed.

(** Deleting rows of one account, and the proofs that name them. *)
Lemma removal_stable d d' (keep : Event -> Prop) `{forall e, Decision (keep e)} k :
  events d' = filter keep (events d) ->
  (forall e, e ∈ events d -> e_key e = k -> keep e) ->
  (forall r t, r ∈ events d -> redaction_identity r t = true ->
    (e_key t = k \/ (t ∈ events d /\ e_account t = k.1 /\ rel_target jsonb_out t = Some k.2)) ->
    keep r /\ (proofs d' !! (e_account t, e_event_id r) = Some (e_room t, e_event_id t) <->
               proofs d !! (e_account t, e_event_id r) = Some (e_room t, e_event_id t))) ->
  (forall ev, ev ∈ events d -> e_account ev = k.1 -> rel_target jsonb_out ev = Some k.2 -> keep ev) ->
  find_event d' k.1 k.2 = find_event d k.1 k.2 /\ document d' k = document d k.
Proof.
  intros Hev Hself Hred Hedit.
  assert (find_event d' k.1 k.2 = find_event d k.1 k.2) as Hf.
  { apply (removal_find _ _ keep); [done|]. intros e He Hk. apply Hself; [done|]. by destruct k. }
  split; [done|]. apply document_kept; [done|]. intros e He. apply find_event_Some in He as [He Hke].
  assert (e_key e = k) as Hk by by destruct k.
  apply (removal_body jsonb_out collate d d' keep); [done| |].
  - apply (removal_redacted jsonb_out d d' keep); [done|]. intros r Hr Hid. apply Hred; [done..|by left].
  - intros ev Hin Hed. apply edits_of_spec in Hed as (Ha & _ & Ht & _).
    assert (e_account ev = k.1 /\ rel_target jsonb_out ev = Some k.2) as [Ha' Ht'].
    { destruct k as [a i]. injection Hk as <- <-. by split. }
    split; [by apply Hedit|].
    apply (removal_redacted jsonb_out d d' keep); [done|]. intros r Hr Hid. apply Hred; [done..|by right].
Qed.

Lemma filter_lookup_iff {A} (m : gmap dockey A) (P : dockey * A -> Prop) `{forall p, Decision (P p)} k v :
  P (k, v) -> filter P m !! k = Some v <-> m !! k = Some v.
Proof. intros HP. rewrite map_lookup_filter_Some. split; [by intros [? _]|by split]. Qed.

Lemma deletable_account a room through e : deletable a room through e = true -> e_account e = a.
Proof. unfold deletable. rewrite !andb_true_iff, bool_decide_eq_true. by intros [[? _] _]. Qed.

Lemma purge_room_stable w a room through gone :
  NoDup (e_key <$> events (db w)) -> is_batch a (Some room) through (db w) gone ->
  stable w (delete_batch a (Some room) gone (db w)).1 (delete_batch a (Some room) gone (db w)).2
    (purge_missed (db w) gone).
Proof.
  intros Hnd (_ & Hsub & _) k Hk Hm.
  assert (forall g, g ∈ gone -> g ∈ events (db w) /\ e_account g = a) as Hg.
  { intros g Hg%Hsub. apply list_elem_of_filter in Hg as [Hd Hg]. split; [done|].
    by eapply deletable_account. }
  assert (k ∉ e_key <$> gone) as Hkn.
  { intros (g & -> & Hgin)%list_elem_of_fmap. destruct (Hg g Hgin) as [_ <-].
    apply (Hk (e_account g) (e_event_id g)); [|by left]. apply elem_of_remove_dups, list_elem_of_fmap. by exists g. }
  assert (forall x, x ∈ events (db w) -> e_key x ∈ e_key <$> gone -> x ∈ gone) as Hback.
  { intros x Hx (g & E & Hgin)%list_elem_of_fmap. by rewrite (key_unique (db w) x g Hnd Hx (proj1 (Hg g Hgin)) E). }
  apply (removal_stable _ _ (fun e => e_key e ∉ e_key <$> gone)); [done|congruence| |].
  - intros r t Hr Hid Ht. pose proof (redaction_identity_spec r t Hid) as (Ha & _ & _ & Hrd).
    assert (e_account t = k.1) as Hta by (destruct Ht as [<-|(_ & ? & _)]; done).
    assert (e_key r ∉ e_key <$> gone) as Hrk.
    { intros Hin%Hback; [|done]. apply Hm. exists r. split_and!; [done|congruence|].
      destruct Ht as [<-|(Hte & _ & Htt)]; [by right; left|]. right; right. by exists t. }
    split; [done|]. apply filter_lookup_iff. cbn. split; [by rewrite <-Ha|].
    destruct Ht as [<-|(Hte & _ & Htt)]; [done|]. intros Hin%Hback; [|done].
    apply Hm. exists t. by split_and!; [..|left].
  - intros ev Hev Ha Ht Hin%Hback; [|done]. apply Hm. exists ev. by split_and!; [..|left].
Qed.

(** Deletions in one account leave the others alone. *)
Lemma other_account_stable d d' (keep : Event -> Prop) `{forall e, Decision (keep e)} k :
  events d' = filter keep (events d) -> (forall e, e_account e = k.1 -> keep e) ->
  (forall k' v, k'.1 = k.1 -> proofs d' !! k' = Some v <-> proofs d !! k' = Some v) ->
  find_event d' k.1 k.2 = find_event d k.1 k.2 /\ document d' k = document d k.
Proof.
  intros Hev Hkeep Hpr. apply (removal_stable _ _ keep); [done| | |].
  - intros e _ <-. by apply Hkeep.
  - intros r t _ Hid Ht. pose proof (redaction_identity_spec r t Hid) as (Ha & _).
    assert (e_account t = k.1) as Hta by (destruct Ht as [<-|(_ & ? & _)]; done).
    split; [apply Hkeep; congruence|]. by apply Hpr.
  - intros ev _ ? _. by apply Hkeep.
Qed.

Lemma delete_batch_stable w a gone :
  is_batch a None None (db w) gone ->
  stable w (delete_batch a None gone (db w)).1 (delete_batch a None gone (db w)).2 (fun _ => False).
Proof.
  intros (_ & Hsub & _) k Hk _.
  assert (forall g, g ∈ gone -> e_account g = a) as Hg.
  { intros g Hg%Hsub. apply list_elem_of_filter in Hg as [Hd _]. by eapply deletable_account. }
  assert (forall i, (k.1, i) ∉ e_key <$> gone) as Hno.
  { intros i (g & E & Hgin)%list_elem_of_fmap. destruct gone as [|g0 gone]; [by apply not_elem_of_nil in Hgin|].
    apply (Hk a []); [by left|]. right. split; [|done]. rewrite <-(Hg g Hgin). by injection E. }
  apply (other_account_stable _ _ (fun e => e_key e ∉ e_key <$> gone)); [done| |].
  - intros e Ha. unfold e_key at 1. rewrite Ha. apply Hno.
  - intros [a' i'] v Ha. cbn in Ha. subst a'. cbn. apply filter_lookup_iff. cbn. split; apply Hno.
Qed.

Lemma delete_account_stable w a :
  stable w (delete_account a (db w)).1 (delete_account a (db w)).2 (fun _ => False).
Proof.
  intros k Hk _. unfold delete_account in *. destruct (accounts (db w) !! a); [|done].
  assert (k.1 <> a) as Hne by (intros <-; apply (Hk k.1 []); [by left|by right]).
  apply (other_account_stable _ _ (fun e => e_account e <> a)); [done|congruence|].
  intros [a' i'] v Ha. cbn in Ha. subst a'. cbn. by apply filter_lookup_iff.
Qed.

(** ** Lemmas: the drain *)

Lemma agrees_mono (pend pend' : dockey -> Prop) w docs :
  (forall k, pend k -> pend' k) -> agrees pend w docs -> agrees pend' w docs.
Proof. intros Hp Hag k Hb Hn. apply Hag; [done|]. by intros ?%Hp. Qed.

Lemma pending_mono pos pos' w k : pos <= pos' -> pending pos' w k -> pending pos w k.
Proof. intros Hle (e & He & Hs & Hc). exists e. split_and!; [done|lia|done]. Qed.

#[local] Instance seq_le_trans : Transitive seq_le.
Proof. intros a b c. unfold seq_le. lia. Qed.
#[local] Instance seq_le_total : Total seq_le.
Proof. intros a b. unfold seq_le. lia. Qed.

(** A batch is a prefix of what is left: nothing up to its last number is missing. *)
Lemma drained_prefix obx cur limit :
  NoDup (seq <$> obx) -> drain_search_outbox obx cur limit <> [] ->
  let batch := drain_search_outbox obx cur limit in
  let l := default 0 (seq <$> last batch) in
  cur < l /\ (forall e, e ∈ batch -> e ∈ obx /\ cur < seq e) /\
  forall e, e ∈ obx -> cur < seq e -> e ∈ batch \/ l < seq e.
Proof.
  intros Hnd Hne batch l. subst l batch. unfold drain_search_outbox in *.
  set (S := merge_sort seq_le (filter (fun e => cur < seq e) obx)) in *.
  assert (forall e, e ∈ S <-> cur < seq e /\ e ∈ obx) as HS.
  { intros e. unfold S. by rewrite merge_sort_Permutation, list_elem_of_filter. }
  assert (forall e, e ∈ take limit S -> e ∈ S) as Htake.
  { intros e (i & Hi & _)%elem_of_take. by eapply list_elem_of_lookup_2. }
  destruct (last (take limit S)) as [z|] eqn:El; [|by apply last_None in El].
  assert (z ∈ take limit S) as Hz by by apply last_Some_elem_of.
  cbn. split_and!; [apply HS, Htake, Hz|intros e He; apply Htake, HS in He; tauto|].
  intros e He Hc. assert (e ∈ S) as HeS by by apply HS. rewrite <-(take_drop limit S) in HeS.
  apply elem_of_app in HeS as [?|Hd]; [by left|right].
  assert (StronglySorted seq_le S) as Hs by apply (StronglySorted_merge_sort seq_le).
  rewrite <-(take_drop limit S) in Hs. apply StronglySorted_app in Hs as (Hcross & _ & _).
  pose proof (Hcross z e Hz Hd) as Hle. unfold seq_le in Hle.
  assert (seq z <> seq e) as Hneq; [|lia]. intros Hseq.
  assert (z = e) as -> by (apply (NoDup_fmap_inj seq obx); [done|apply HS, Htake, Hz|done|done]).
  assert (NoDup S) as HndS.
  { unfold S. rewrite merge_sort_Permutation. apply NoDup_filter. by apply NoDup_fmap_1 in Hnd. }
  rewrite <-(take_drop limit S) in HndS. apply NoDup_app in HndS as (_ & Hno & _). by apply (Hno e).
Qed.

Lemma sentinel_not_clean e : is_purge e = true -> ~ clean_key (o_key e).
Proof. unfold is_purge. rewrite bool_decide_eq_true. by intros E [H _]. Qed.

Lemma covers_account a i k : covers a i k -> k.1 = a.
Proof. by intros [<-|[-> _]]. Qed.

Lemma entry_cases (gone : gset uuid) e :
  clean_key (o_key e) \/ (o_event e = SEARCH_OUTBOX_PURGE /\ o_account e ∈ gone) \/
  (~ clean_key (o_key e) /\ ~ (o_event e = SEARCH_OUTBOX_PURGE /\ o_account e ∈ gone)).
Proof.
  unfold clean_key. cbn. destruct (decide (o_event e = SEARCH_OUTBOX_PURGE)), (decide (o_account e ∈ gone)),
    (decide (strip_prefix SEARCH_OUTBOX_ROOM_PURGE_PREFIX (o_event e) = None)); tauto.
Qed.

(** Entries whose accounts' keys the log's sentinels have stained. *)
Lemma stained_entry w e :
  (forall k, stained (deleting w) (outbox w) k -> blind w k) -> e ∈ outbox w -> entry_ok w e.
Proof.
  intros Hst He. destruct (entry_cases (deleting w) e) as [?|[?|[? ?]]]; [by left|by right; left|right; right].
  intros k Hk. apply Hst. by exists e.
Qed.

(** The documents of other accounts. *)
Lemma apply_entry_other d e seen docs k :
  k.1 <> o_account e -> docs_of k (apply_entry d e seen docs).2 = docs_of k docs.
Proof.
  intros Hk. unfold apply_entry. destruct (is_purge e); [|destruct (room_purge e); [|case_bool_decide]]; cbn [snd]; [| |done|].
  - rewrite docs_of_delete_account. by rewrite decide_False.
  - unfold docs_of, delete_room_docs. rewrite list_filter_filter. apply list_filter_iff. intros x.
    split; [tauto|]. intros Hx. split; [done|]. intros [E _]. apply Hk. by rewrite <-Hx.
  - rewrite docs_of_apply. apply decide_False. by intros ->.
Qed.

(** One entry: what it was about is now as the projection says. *)
Lemma apply_agrees w e rest seen l docs :
  entry_ok w e ->
  agrees (fun k => pending l w k \/ left_of (e :: rest) seen k) w docs ->
  agrees (fun k => pending l w k \/ left_of rest (apply_entry (db w) e seen docs).1 k) w
    (apply_entry (db w) e seen docs).2.
Proof.
  intros Hok Hag k Hb Hn.
  assert (~ pending l w k) as Hp by tauto.
  assert (forall seen', ~ left_of rest seen' k -> ~ (covers (o_account e) (o_event e) k /\
            (is_purge e = true \/ o_key e ∉ seen')) -> ~ left_of (e :: rest) seen' k) as Hcons.
  { intros seen' Hr He (x & [->|Hx]%elem_of_cons & Hc); [by apply He|apply Hr; by exists x]. }
  destruct (decide (k.1 = o_account e)) as [Ea|Ea].
  2:{ unfold settled. rewrite apply_entry_other by done. apply Hag; [done|]. intros [?|Hl]; [done|].
      revert Hl. apply Hcons; [|by intros [?%covers_account _]]. intros (x & Hx & Hc & Hs). apply Hn. right.
      exists x. split_and!; [done|done|]. destruct Hs as [?|Hs]; [by left|right]. apply covers_account in Hc.
      unfold apply_entry. destruct (is_purge e), (room_purge e); try done; case_bool_decide; try done.
      all: intros [E|?]%elem_of_cons; [|done]; injection E as E _; congruence. }
  destruct Hok as [Hc|[[Hp' Hdel]|Hst]]; [| |by destruct Hb; apply Hst]; unfold apply_entry in *.
  - destruct (is_purge e) eqn:Epurge; [by apply sentinel_not_clean in Hc|].
    assert (~ (o_event e = SEARCH_OUTBOX_PURGE)) as Hnp by by apply bool_decide_eq_false in Epurge.
    assert (room_purge e = None) as Hroom by exact (proj2 Hc).
    rewrite Hroom in *. case_bool_decide as Hseen; cbn in Hn |- *.
    + apply Hag; [done|]. intros [?|Hl]; [done|]. revert Hl. apply Hcons; [tauto|].
      intros [_ [?|?]]; done.
    + unfold settled. rewrite docs_of_apply. destruct (decide (k = o_key e)) as [->|Hk]; [by left|].
      apply Hag; [done|]. intros [?|Hl]; [done|]. revert Hl. apply Hcons.
      * intros (x & Hx & Hcx & Hs). apply Hn. right. exists x. split_and!; [done|done|].
        destruct (is_purge x) eqn:Ex; [by left|right]. destruct Hs as [?|Hs]; [done|].
        intros [E|?]%elem_of_cons; [|done]. destruct Hcx as [Hcx|[_ Hcx]].
        -- apply Hk. by rewrite <-Hcx, <-E.
        -- unfold is_purge in Ex. by rewrite Hcx, bool_decide_eq_true_2 in Ex.
      * intros [[Hcx|[_ Hcx]] _]; [by apply Hk|by apply Hnp].
  - assert (is_purge e = true) as -> by by apply bool_decide_eq_true. cbn in Hn |- *.
    right. rewrite docs_of_delete_account, decide_True by done. by rewrite Ea.
Qed.

(** ** Lemmas: the seed *)

(** [jsonb] text of anything but a string starts with a digit, a sign, a bracket,
    or [t], [f], [n]: never with the [m] of a relation type. *)
Definition JsonbText : Prop := forall v, head (jsonb_out v) <> Some 109.

Lemma rel_type_str (Hout : JsonbText) e m :
  head m = Some 109 ->
  rel_type jsonb_out e = Some m <-> (e_relates e ≫= jget (t! "rel_type")) ≫= as_str = Some m.
Proof.
  intros Hm. unfold rel_type, field. destruct (e_relates e ≫= jget (t! "rel_type")) as [v|]; [|done].
  cbn. destruct v; cbn; try done; split; try done; intros [= E]; specialize (Hout);
    match type of E with jsonb_out ?v = _ => destruct (Hout v); by rewrite E end.
Qed.

Lemma standalone_seed (Hout : JsonbText) d e :
  is_standalone_relation (project jsonb_out collate d e) = true <->
  rel_type jsonb_out e = Some M_REPLACE \/ (rel_type jsonb_out e = Some M_ANNOTATION /\ e_type e = M_REACTION).
Proof.
  rewrite !(rel_type_str Hout) by done. unfold is_standalone_relation.
  change (t_relates (project jsonb_out collate d e)) with (e_relates e).
  change (t_type (project jsonb_out collate d e)) with (e_type e).
  rewrite orb_true_iff, andb_true_iff, !bool_decide_eq_true. tauto.
Qed.

Lemma seed_live (Hout : JsonbText) d k e :
  find_event d k.1 k.2 = Some e ->
  e_body e <> None \/ t_body (project jsonb_out collate d e) = None ->
  resolve d k = seed_document d e.
Proof.
  intros Hf Hb. unfold resolve, get_event. rewrite Hf. cbn [fmap option_fmap option_map mbind option_bind].
  apply find_event_Some in Hf as [_ Hk]. unfold indexable, seed_document.
  pose proof (standalone_seed Hout d e) as Hst. unfold seed_keeps.
  destruct (is_standalone_relation _).
  - destruct (proj1 Hst eq_refl) as [E|[E1 E2]].
    + rewrite (bool_decide_eq_true_2 (rel_type jsonb_out e = Some M_REPLACE)) by done.
      by rewrite andb_false_r.
    + rewrite (bool_decide_eq_true_2 (rel_type jsonb_out e = Some M_ANNOTATION)) by done.
      rewrite (bool_decide_eq_true_2 (e_type e = M_REACTION)) by done. by rewrite andb_false_r.
  - assert (rel_type jsonb_out e <> Some M_REPLACE /\
            ~ (rel_type jsonb_out e = Some M_ANNOTATION /\ e_type e = M_REACTION)) as [H1 H2].
    { split; intros H; assert (false = true) by (apply Hst; tauto); done. }
    rewrite (bool_decide_eq_false_2 (rel_type jsonb_out e = Some M_REPLACE)) by done.
    rewrite <-bool_decide_and, (bool_decide_eq_false_2 (_ /\ _)) by done. cbn [negb].
    rewrite !andb_true_r. case_bool_decide as Hbody.
    + destruct k as [a i]. injection Hk as <- <-. done.
    + destruct Hb as [Hb|Hb]; [|by rewrite Hb]. destruct Hbody. by destruct (e_body e).
Qed.

Lemma seed_document_of d e ev :
  seed_document d e = Some ev -> i_id ev = e_id e /\ (i_account ev, i_event ev) = e_key e.
Proof.
  unfold seed_document. destruct (seed_keeps e); [|done]. destruct (t_body _) as [b|]; [|done]. cbn.
  case_bool_decide; [done|]. by intros [= <-].
Qed.

Definition corpus (d : Db) (after : Z) : list IndexableEvent :=
  omap (seed_document d) (filter (fun e => after < e_id e) (events d)).

Lemma corpus_elem d after ev :
  ev ∈ corpus d after <-> exists e, e ∈ events d /\ after < e_id e /\ seed_document d e = Some ev.
Proof.
  unfold corpus. rewrite list_elem_of_omap. split.
  - intros (e & [? ?]%list_elem_of_filter & ?). by exists e.
  - intros (e & ? & ? & ?). exists e. by rewrite list_elem_of_filter.
Qed.

Lemma corpus_sorted d after : wf d -> StronglySorted Z.lt (i_id <$> corpus d after).
Proof.
  intros [_ Hs _ _]. unfold corpus. induction (events d) as [|e l IH]; [constructor|].
  rewrite fmap_cons in Hs. apply StronglySorted_cons in Hs as [Hf Hs]. specialize (IH Hs).
  rewrite filter_cons. case_decide; [|done]. cbn. destruct (seed_document d e) as [ev|] eqn:E; [|done].
  cbn. constructor; [done|]. apply Forall_forall. intros i (ev' & -> & Hev')%list_elem_of_fmap.
  apply list_elem_of_omap in Hev' as (e' & [_ He']%list_elem_of_filter & E').
  rewrite (proj1 (seed_document_of d e ev E)), (proj1 (seed_document_of d e' ev' E')).
  apply (proj1 (Forall_forall _ _) Hf). apply list_elem_of_fmap. by exists e'.
Qed.

Lemma sorted_nodup {A} (f : A -> Z) (l : list A) : StronglySorted Z.lt (f <$> l) -> NoDup (f <$> l).
Proof.
  induction 1 as [|x m Hs IH Hf]; constructor; [|done]. intros Hx.
  pose proof (proj1 (Forall_forall _ _) Hf x Hx). lia.
Qed.

Lemma nodup_single {A} (l : list A) a : NoDup l -> (forall x, x ∈ l -> x = a) -> l = [] \/ l = [a].
Proof.
  intros Hnd Ha. destruct l as [|x l]; [by left|]. right. rewrite (Ha x) by left. f_equal.
  destruct l as [|y l]; [done|]. apply NoDup_cons in Hnd as [Hx _]. destruct Hx.
  rewrite (Ha x), (Ha y); [by left|right; by left|by left].
Qed.

Lemma last_max {A} (f : A -> Z) (l : list A) x z :
  StronglySorted Z.lt (f <$> l) -> x ∈ l -> last l = Some z -> f x <= f z.
Proof.
  intros Hs Hx Hz. apply last_Some in Hz as [l' ->]. rewrite fmap_app in Hs.
  apply StronglySorted_app in Hs as (Hcross & _). apply elem_of_app in Hx as [Hx| ->%list_elem_of_singleton]; [|lia].
  apply Z.lt_le_incl, Hcross; [by apply list_elem_of_fmap_2|by left].
Qed.

Lemma add_all_docs k (failed : IndexableEvent -> bool) batch docs :
  (forall ev, ev ∈ batch -> (i_account ev, i_event ev) = k -> failed ev = false) ->
  docs_of k (foldl (fun docs ev => if failed ev then docs else add ev docs) docs batch) =
  docs_of k docs ++ (document_of <$> filter (fun ev => (i_account ev, i_event ev) = k) batch).
Proof.
  revert docs. induction batch as [|ev batch IH]; intros docs Hf; [by rewrite app_nil_r|]. cbn [foldl].
  rewrite IH by (intros x Hx; apply Hf; by right). rewrite filter_cons.
  case_decide as Hk.
  - rewrite (Hf ev ltac:(by left) Hk), docs_of_add, decide_True by done. by rewrite <-app_assoc.
  - destruct (failed ev); [done|]. by rewrite docs_of_add, decide_False, app_nil_r by done.
Qed.

(** The documents a batch brings for the key of a row. *)
Lemma batch_docs d after limit e :
  wf d -> (0 < limit)%nat -> e ∈ events d -> after < e_id e ->
  let batch := events_for_index d after limit in
  let found := document_of <$> filter (fun ev => (i_account ev, i_event ev) = e_key e) batch in
  (found = option_list (document_of <$> seed_document d e) /\
   (bool_decide (batch = []) || (length batch <? limit)%nat = true \/
    e_id e <= default after (i_id <$> last batch) \/ seed_document d e = None)) \/
  (found = [] /\ batch <> [] /\ (length batch <? limit)%nat = false /\ default after (i_id <$> last batch) < e_id e).
Proof.
  intros Hwf Hlim He Ha batch found. pose proof (corpus_sorted d after Hwf) as Hs.
  pose proof (sorted_nodup _ _ Hs) as Hnd.
  assert (forall ev, ev ∈ corpus d after -> (i_account ev, i_event ev) = e_key e -> seed_document d e = Some ev) as Hev.
  { intros ev (e' & He' & _ & Hse)%corpus_elem Hk.
    by rewrite <-(key_unique d e' e (wf_keys _ Hwf) He' He) by (by rewrite <-Hk; symmetry; apply (seed_document_of d)). }
  assert (forall ev, ev ∈ batch -> ev ∈ corpus d after) as Hin.
  { intros ev (i & Hi & _)%elem_of_take. by eapply list_elem_of_lookup_2. }
  destruct (seed_document d e) as [ev|] eqn:Ese.
  2: { left. split; [|by right; right]. unfold found. rewrite (proj2 (filter_nil_iff _ _)); [done|].
       apply Forall_forall. intros x Hx Hk. by specialize (Hev x (Hin x Hx) Hk). }
  assert (ev ∈ corpus d after) as Hevc by (apply corpus_elem; by exists e).
  destruct (seed_document_of d e ev Ese) as [Hid Hkey].
  pose proof Hs as Hsplit. rewrite <-(take_drop limit (corpus d after)) in Hsplit, Hevc.
  change (take limit (corpus d after)) with batch in Hsplit, Hevc. rewrite fmap_app in Hsplit.
  apply StronglySorted_app in Hsplit as (Hcross & Hsb & _).
  apply elem_of_app in Hevc as [Hb|Hd].
  - left. split.
    + unfold found. destruct (nodup_single (filter (fun ev => (i_account ev, i_event ev) = e_key e) batch) ev) as [E|E].
      * apply NoDup_filter. eapply sublist_NoDup; [|apply sublist_take]. by apply NoDup_fmap_1 in Hnd.
      * intros x [Hk Hx]%list_elem_of_filter. specialize (Hev x (Hin x Hx) Hk). congruence.
      * assert (ev ∈ filter (fun ev => (i_account ev, i_event ev) = e_key e) batch) as Hn
          by by apply list_elem_of_filter. rewrite E in Hn. by apply not_elem_of_nil in Hn.
      * by rewrite E.
    + right; left. rewrite <-Hid. destruct (last batch) as [z|] eqn:El; cbn; [by apply (last_max i_id batch)|].
      apply last_None in El. rewrite El in Hb. by apply not_elem_of_nil in Hb.
  - right. assert (length batch = limit) as Hlen.
    { unfold batch, events_for_index. fold (corpus d after). rewrite length_take.
      assert (0 < length (drop limit (corpus d after)))%nat as Hl
        by (destruct (drop limit (corpus d after)); [by apply not_elem_of_nil in Hd|cbn; lia]).
      rewrite length_drop in Hl. lia. }
    assert (batch <> []) as Hne by (intros E; rewrite E in Hlen; cbn in Hlen; lia).
    assert (i_id ev ∈ i_id <$> drop limit (corpus d after)) as Hdi by by apply list_elem_of_fmap_2.
    split_and!; [|done|apply Nat.ltb_ge; lia|].
    + unfold found. rewrite (proj2 (filter_nil_iff _ _)); [done|]. apply Forall_forall. intros x Hx Hk.
      specialize (Hev x (Hin x Hx) Hk). injection Hev as ->.
      pose proof (Hcross (i_id x) (i_id x) ltac:(by apply list_elem_of_fmap_2) Hdi). lia.
    + destruct (last batch) as [z|] eqn:El; [|by apply last_None in El]. cbn. rewrite <-Hid.
      apply Hcross; [|done]. apply list_elem_of_fmap_2. by apply last_Some_elem_of.
Qed.

(** ** The invariant *)

Section Invariant.
Context (Hout : JsonbText) (limit : nat) (Hlimit : (0 < limit)%nat).

Lemma scan_step w wm after (failed : IndexableEvent -> bool) :
  wf (db w) -> scanned w wm after (written w) ->
  let batch := events_for_index (db w) after limit in
  let docs := foldl (fun docs ev => if failed ev then docs else add ev docs) (written w) batch in
  let full := bool_decide (batch = []) || (length batch <? limit)%nat in
  let after' := default after (i_id <$> last batch) in
  forall w', db w' = db w -> outbox w' = outbox w -> deleting w' = deleting w ->
    (forall k, blind w' k <-> blind w k \/
      (exists ev, ev ∈ batch /\ failed ev = true /\ (i_account ev, i_event ev) = k) \/ seed_differs (db w) after k) ->
    if full then agrees (pending wm w') w' docs else scanned w' wm after' docs.
Proof.
  intros Hwf Hs batch docs full after' w' Hdb Hout' Hdel Hblind.
  assert (forall k, pending wm w' k <-> pending wm w k) as Hpend by (intros k; unfold pending; by rewrite Hout').
  assert (forall k, docs_of k docs = option_list (document (db w) k) -> settled w' docs k) as Hset
    by (intros k Hk; left; by rewrite Hdb).
  assert (after <= after') as Hle.
  { unfold after'. destruct (last batch) as [z|] eqn:El; cbn; [|lia].
    assert (z ∈ corpus (db w) after) as (e & _ & Hlt & Hse)%corpus_elem.
    { apply last_Some_elem_of in El as (i & Hi & _)%elem_of_take. by eapply list_elem_of_lookup_2. }
    apply seed_document_of in Hse as [-> _]. lia. }
  assert (forall k, ~ blind w' k -> ~ pending wm w' k ->
    (exists e, find_event (db w) k.1 k.2 = Some e /\ after' < e_id e /\ docs_of k docs = [] /\ full = false) \/
    ((forall e, find_event (db w) k.1 k.2 = Some e -> full = true \/ e_id e <= after') /\ settled w' docs k)) as Hall.
  { intros k Hb Hp. rewrite Hblind in Hb. rewrite Hpend in Hp.
    assert (docs_of k docs = docs_of k (written w) ++
      (document_of <$> filter (fun ev => (i_account ev, i_event ev) = k) batch)) as Hd.
    { apply add_all_docs. intros ev Hev Hk. destruct (failed ev) eqn:Ef; [|done]. exfalso. apply Hb.
      right; left. by exists ev. }
    destruct (Hs k) as [(e & Hf & Ha & Hno)|[Hid Hold]]; [tauto|done|..].
    - pose proof (find_event_Some _ _ _ _ Hf) as [He Hk]. rewrite <-surjective_pairing in Hk.
      assert (resolve (db w) k = seed_document (db w) e) as Hlive.
      { apply seed_live; [done|done|]. destruct (e_body e) eqn:Eb; [by left|right].
        destruct (t_body (project jsonb_out collate (db w) e)) eqn:Et; [|done]. exfalso. apply Hb.
        right; right. exists e. by split_and!; [..|congruence]. }
      rewrite Hno in Hd. cbn [app] in Hd. subst k.
      destruct (batch_docs (db w) after limit e Hwf Hlimit He Ha) as [[Ef Hc]|(Ef & Hne & Hl & Hgt)];
        fold batch in Ef; rewrite Ef in Hd.
      + assert (docs_of (e_key e) docs = option_list (document (db w) (e_key e))) as Hdoc
          by (rewrite Hd; unfold document; by rewrite Hlive).
        destruct (decide (full = true \/ e_id e <= after')) as [Hok|Hok].
        * right. split; [|by apply Hset]. intros e' Hf'. congruence.
        * left. exists e. split_and!; [done|lia| |by destruct full; tauto].
          destruct Hc as [Hc|[Hc|Hc]]; [tauto|tauto|]. rewrite Hdoc. unfold document. by rewrite Hlive, Hc.
      + left. exists e. split_and!; [done|done|done|]. unfold full.
        rewrite bool_decide_eq_false_2 by done. exact Hl.
    - right. split; [intros e He; right; specialize (Hid e He); lia|].
      assert (filter (fun ev => (i_account ev, i_event ev) = k) batch = []) as Hnone.
      { apply filter_nil_iff, Forall_forall. intros ev Hev Hk.
        assert (ev ∈ corpus (db w) after) as (e & He & Hlt & Hse)%corpus_elem
          by (apply elem_of_take in Hev as (i & Hi & _); by eapply list_elem_of_lookup_2).
        apply seed_document_of in Hse as [_ Hke]. rewrite Hk in Hke.
        assert (find_event (db w) k.1 k.2 = Some e) as Hf
          by (rewrite Hke; apply find_event_unique; [apply Hwf|done]).
        specialize (Hid e Hf). lia. }
      rewrite Hnone, app_nil_r in Hd. unfold settled in *. by rewrite Hd, Hdb, Hdel. }
  destruct full eqn:Efull.
  - intros k Hb Hp. destruct (Hall k Hb Hp) as [(? & _ & _ & _ & ?)|[_ ?]]; done.
  - intros k Hb Hp. rewrite Hdb. destruct (Hall k Hb Hp) as [(e & ? & ? & ? & _)|[Hid ?]].
    + left. by exists e.
    + right. split; [|done]. intros e He. by destruct (Hid e He).
Qed.

Lemma commit_ok w d' keys seqs missed :
  ok w -> wf d' -> fresh_seqs w keys seqs -> stable w d' keys missed -> ok (commit w d' keys seqs missed).
Proof.
  intros [Hwf Hnd Hent Hact] Hwf' (Hlen & Hseqs & Hfresh) Hst. constructor; [done|..].
  - cbn. rewrite fmap_app. apply NoDup_app. split_and!; [done| |].
    + intros s Hs (e & -> & He)%list_elem_of_fmap. apply appended_spec in He as [_ He].
      by destruct (proj1 (Forall_forall _ _) Hfresh _ He) as [_ Hn].
    + assert (seq <$> appended keys seqs = seqs) as ->; [|done]. unfold appended. clear -Hlen.
      revert seqs Hlen. induction keys as [|k keys IH]; intros [|s seqs] Hlen; try done.
      cbn in *. f_equal. apply IH. lia.
  - intros e He. apply stained_entry; [|exact He]. intros k Hk. by right.
  - by apply commit_actor.
Qed.

Lemma delete_account_wf a d : wf d -> wf (delete_account a d).1.
Proof.
  intros Hwf. unfold delete_account. destruct (accounts d !! a); [|done].
  by apply (removal_wf d _ (fun e => e_account e <> a)).
Qed.

(** The transactions. *)
Lemma store_step_ok w d' keys seqs missed :
  ok w ->
  (exists wr, write jsonb_out same_json numeric sanitized_nodes wr (db w) = (d', keys) /\
     missed = redacts_edit_of jsonb_out wr (db w)) \/
  (exists a room through gone, is_batch a (Some room) through (db w) gone /\
     delete_batch a (Some room) gone (db w) = (d', keys) /\ missed = purge_missed (db w) gone) \/
  (exists a gone, a ∈ deleting w /\ is_batch a None None (db w) gone /\
     delete_batch a None gone (db w) = (d', keys) /\ missed = fun _ => False) \/
  (exists a, a ∈ deleting w /\ delete_account a (db w) = (d', keys) /\ missed = fun _ => False) ->
  fresh_seqs w keys seqs -> ok (commit w d' keys seqs missed).
Proof.
  intros Hok Hcases Hseqs. pose proof (ok_wf _ Hok) as Hwf. pose proof (wf_keys _ Hwf) as Hnd.
  destruct Hcases as [(wr & E & ->)|[(a & room & th & gone & Hb & E & ->)|[(a & gone & Hd & Hb & E & ->)|
    (a & Hd & E & ->)]]].
  - apply commit_ok; try done.
    + pose proof (write_wf jsonb_out same_json numeric sanitized_nodes wr (db w) Hwf) as H. by rewrite E in H.
    + pose proof (write_stable w wr Hnd) as H. by rewrite E in H.
  - apply commit_ok; try done.
    + replace d' with (delete_batch a (Some room) gone (db w)).1 by by rewrite E.
      by apply (removal_wf (db w) _ (fun e => e_key e ∉ e_key <$> gone)).
    + pose proof (purge_room_stable w a room th gone Hnd Hb) as H. by rewrite E in H.
  - apply commit_ok; try done.
    + replace d' with (delete_batch a None gone (db w)).1 by by rewrite E.
      by apply (removal_wf (db w) _ (fun e => e_key e ∉ e_key <$> gone)).
    + pose proof (delete_batch_stable w a gone Hb) as H. by rewrite E in H.
  - apply commit_ok; try done.
    + pose proof (delete_account_wf a (db w) Hwf) as H. by rewrite E in H.
    + pose proof (delete_account_stable w a) as H. by rewrite E in H.
Qed.

(** A step that changes neither tables nor outbox, but for a cursor or the ghost. *)
Lemma actor_step_ok w w' :
  ok w -> db w' = db w -> outbox w' = outbox w -> deleting w' = deleting w ->
  (forall k, blind w k -> blind w' k) \/ blind w' = stained (deleting w) (outbox w) -> actor_ok w' -> ok w'.
Proof.
  intros [Hwf Hnd Hent _] Hdb Hob Hdel Hb Hact. constructor; rewrite ?Hdb, ?Hob; [done..| |done].
  intros e He. destruct Hb as [Hb|Hb].
  - unfold entry_ok. rewrite Hdel. destruct (Hent e He) as [?|[?|H]]; [by left|by right; left|right; right; auto].
  - apply stained_entry; [by rewrite Hob, Hdel, Hb|by rewrite Hob].
Qed.

Lemma begin_delete_ok w a :
  ok w -> ok (MkWorld (db w) (outbox w) (cursor w) ({[a]} ∪ deleting w) (actor w) (written w) (committed w)
                (marker w) (blind w)).
Proof.
  intros [Hwf Hnd Hent Hact]. set (w' := MkWorld _ _ _ _ _ _ _ _ _).
  assert (forall docs k, settled w docs k -> settled w' docs k) as Hset.
  { intros docs k [?|[? ?]]; [by left|right]. split; [|done]. cbn. set_solver. }
  assert (forall pend docs, agrees pend w docs -> agrees pend w' docs) as Hag.
  { intros pend docs H k Hb Hp. apply Hset. by apply H. }
  constructor; [done|done| |].
  - intros e He. destruct (Hent e He) as [?|[[? ?]|?]]; [by left|right; left|by right; right].
    split; [done|]. cbn. set_solver.
  - unfold actor_ok in *. cbn [actor cursor marker written committed w'].
    destruct (actor w).
    + destruct Hact as [Hw H]. split; [done|]. intros Hm. apply Hag, H, Hm.
    + destruct Hact as [H1 H2]. split; by apply Hag.
    + destruct Hact as (Hle & Hin & H1 & H2). split_and!; [done|done|by apply Hag..].
    + destruct Hact as (Hle & H1 & H2). split_and!; [done|by apply Hag..].
    + destruct Hact as (Hle & H1 & H2). split_and!; [done|by apply Hag..].
    + done.
    + done.
    + destruct Hact as (Hm & Hc & H). split_and!; [done..|]. intros k Hb Hp.
      destruct (H k Hb Hp) as [?|[? ?]]; [by left|right; split; [done|by apply Hset]].
    + destruct Hact as (Hm & Hc & H). split_and!; [done|done|by apply Hag].
    + destruct Hact as (Hm & Hc & H). split_and!; [done|done|by apply Hag].
Qed.

Lemma seqs_filter (P : SearchOutboxEntry -> Prop) `{forall e, Decision (P e)} l :
  NoDup (seq <$> l) -> NoDup (seq <$> filter P l).
Proof.
  induction l as [|e l IH]; [done|]. intros [He Hnd]%NoDup_cons.
  rewrite filter_cons. case_decide; [|by apply IH]. constructor; [|by apply IH].
  intros (x & E & [_ Hx]%list_elem_of_filter)%list_elem_of_fmap. apply He. rewrite E. by apply list_elem_of_fmap_2.
Qed.

Lemma prune_ok w (gone : list SearchOutboxEntry) :
  ok w -> actor w = Idle \/ actor w = Seeded -> (forall e, e ∈ gone -> seq e <= cursor w) ->
  ok (MkWorld (db w) (filter (fun e => e ∉ gone) (outbox w)) (cursor w) (deleting w) (actor w)
        (written w) (committed w) (marker w) (blind w)).
Proof.
  intros [Hwf Hnd Hent Hact] Ha Hgone. set (w' := MkWorld _ _ _ _ _ _ _ _ _).
  assert (forall docs, agrees (pending (cursor w) w) w docs -> agrees (pending (cursor w) w') w' docs) as Hag.
  { intros docs H k Hb Hp. apply H; [done|]. intros (e & He & Hs & Hc). apply Hp. exists e.
    split_and!; [|done|done]. apply list_elem_of_filter. split; [|done]. intros Hg%Hgone. lia. }
  constructor; [done| | |].
  - by apply seqs_filter.
  - intros e [_ He]%list_elem_of_filter. by apply Hent.
  - unfold actor_ok in *. cbn [actor cursor marker written committed w'].
    destruct Ha as [Ha|Ha]; rewrite Ha in *.
    + destruct Hact as [H1 H2]. split; by apply Hag.
    + destruct Hact as (? & ? & H). split_and!; [done|done|by apply Hag].
Qed.

Lemma read_ok w :
  ok w -> actor w = Idle -> drain_search_outbox (outbox w) (cursor w) limit <> [] ->
  actor_ok (set_actor w (Applying (drain_search_outbox (outbox w) (cursor w) limit) []
              (default 0 (seq <$> last (drain_search_outbox (outbox w) (cursor w) limit))))).
Proof.
  intros [Hwf Hnd Hent Hact] Ha Hne. unfold actor_ok in *. rewrite Ha in Hact. destruct Hact as [H1 H2].
  destruct (drained_prefix (outbox w) (cursor w) limit Hnd Hne) as (Hl & Hin & Hrest). cbn [actor set_actor].
  split_and!; [cbn; lia|exact Hin| |exact H2].
  eapply agrees_mono; [|exact H1]. intros k (e & He & Hs & Hc).
  destruct (Hrest e He Hs) as [Hb|Hb]; [right|left]; exists e; split_and!; try done.
  right. by apply not_elem_of_nil.
Qed.

Lemma fail_ok w rest seen l :
  actor_ok w -> actor w = Applying rest seen l \/ actor w = Applied l \/ actor w = Committed l ->
  agrees (pending (cursor w) w) w (written w) /\ agrees (pending (cursor w) w) w (committed w).
Proof.
  unfold actor_ok. intros Hact [Ha|[Ha|Ha]]; rewrite Ha in Hact.
  - destruct Hact as (Hle & Hin & H1 & H2). split; [|done]. eapply agrees_mono; [|exact H1].
    intros k [?|(e & He & Hc & _)]; [by eapply pending_mono|]. exists e. destruct (Hin e He). by split_and!.
  - destruct Hact as (Hle & H1 & H2). split; [|done]. eapply agrees_mono; [|exact H1]. intros k.
    by apply pending_mono.
  - destruct Hact as (Hle & H1 & H2).
    split; [eapply agrees_mono; [|exact H1]|eapply agrees_mono; [|exact H2]]; intros k; by apply pending_mono.
Qed.

Lemma crash_ok w : actor_ok w -> marker w = true -> agrees (pending (cursor w) w) w (committed w).
Proof.
  intros Hact Hm. destruct (actor w) as [| |rest seen l|l|l| |wm|wm after|wm|] eqn:Ea.
  3: by apply (fail_ok w rest seen l); [|left].
  3: by apply (fail_ok w [] [] l); [|right; left].
  3: by apply (fail_ok w [] [] l); [|right; right].
  all: unfold actor_ok in Hact; rewrite Ea in Hact.
  - by apply Hact.
  - by destruct Hact.
  - congruence.
  - congruence.
  - destruct Hact; congruence.
  - destruct Hact; congruence.
  - destruct Hact; congruence.
Qed.

Lemma half_applied_ok w e rest seen l :
  actor_ok w -> actor w = Applying (e :: rest) seen l ->
  actor_ok (set_written w Idle (delete_doc (o_key e) (written w))).
Proof.
  intros Hact Ha. destruct (fail_ok w (e :: rest) seen l Hact ltac:(by left)) as [H1 H2].
  unfold actor_ok in Hact. rewrite Ha in Hact. destruct Hact as (_ & Hin & _). split; [|exact H2].
  intros k Hb Hp. unfold settled. cbn [written set_written]. rewrite docs_of_delete.
  destruct (decide (k = o_key e)) as [->|Hk]; [|by apply H1].
  destruct Hp. exists e. destruct (Hin e ltac:(by left)). split_and!; [done..|by left].
Qed.

Lemma store_ok w w' : ok w -> store_step w w' -> ok w'.
Proof.
  intros Hok Hstep. destruct Hstep.
  - apply store_step_ok; [done| |done]. left. exists wr. by rewrite <-surjective_pairing.
  - apply store_step_ok; [done| |done]. right; left. exists a, room, (Some through), gone.
    by rewrite <-surjective_pairing.
  - by apply begin_delete_ok.
  - apply store_step_ok; [done| |done]. right; right; left. exists a, gone. by rewrite <-surjective_pairing.
  - apply store_step_ok; [done| |done]. right; right; right. exists a. by rewrite <-surjective_pairing.
  - apply (actor_step_ok w); [done..|by left|]. pose proof (ok_actor _ Hok) as Hact. unfold actor_ok in *. cbn [actor].
    destruct (actor w); try exact Hact; try done; [|exact (conj eq_refl (proj2 Hact))..].
    by destruct Hact.
Qed.

Lemma index_step_ok w w' : ok w -> step limit w w' -> ok w'.
Proof.
  intros Hok Hstep. pose proof Hok as [Hwf Hnd Hent Hact]. destruct Hstep.
  - by apply (store_ok w).
  - by apply prune_ok.
  - apply (actor_step_ok w); [done..|by left; cbn; auto|]. by apply read_ok.
  - apply (actor_step_ok w); [done..|by left; cbn; auto|]. unfold actor_ok in *. rewrite H in Hact.
    destruct Hact as (Hle & Hin & H1 & H2). cbn [actor set_written]. split_and!; [exact Hle| | |exact H2].
    + intros x Hx. apply Hin. by right.
    + apply (apply_agrees w e rest seen l (written w)); [|exact H1]. apply Hent, Hin. by left.
  - apply (actor_step_ok w); [done..|by left; cbn; auto|]. unfold actor_ok in *. rewrite H in Hact.
    destruct Hact as (Hle & Hin & H1 & H2). cbn [actor set_actor]. split_and!; [exact Hle| |exact H2].
    eapply agrees_mono; [|exact H1]. intros k [?|(e & He & _)]; [done|by apply not_elem_of_nil in He].
  - apply (actor_step_ok w); [done..|by left; cbn; auto|]. unfold actor_ok in *. rewrite H in Hact. exact (conj (proj1 Hact)
      (conj (proj1 (proj2 Hact)) (proj1 (proj2 Hact)))).
  - apply (actor_step_ok w); [done..|by left; cbn; auto|]. unfold actor_ok in *. rewrite H in Hact. exact (proj2 Hact).
  - apply (actor_step_ok w); [done..|by left; cbn; auto|]. by apply (half_applied_ok w e rest seen l).
  - apply (actor_step_ok w); [done..|by left; cbn; auto|]. exact (fail_ok w rest seen l Hact H).
  - apply (actor_step_ok w); [done..|by left; cbn; auto|]. unfold actor_ok. cbn [actor set_written].
    split; [done|]. exact (crash_ok w Hact).
  - apply (actor_step_ok w); [done..|by left; cbn; auto|]. unfold actor_ok in *. rewrite H in Hact. cbn [actor set_actor].
    destruct Hact as [Hw Hc]. specialize (Hc H0). split; [|exact Hc]. cbn. rewrite Hw. exact Hc.
  - apply (actor_step_ok w); [done..|by left; cbn; auto|]. done.
  - apply (actor_step_ok w); [done..|by left; cbn; auto|]. unfold actor_ok in *. rewrite H in Hact. exact Hact.
  - apply (actor_step_ok w); [done..|by right|]. unfold actor_ok in *. rewrite H in Hact. cbn [actor].
    split_and!; [exact Hact|done|]. intros k _ _. cbn. destruct (find_event (db w) k.1 k.2) as [e|] eqn:E.
    + left. exists e. split_and!; [done| |done]. apply find_event_Some in E as [He _].
      by destruct (proj1 (Forall_forall _ _) (wf_last _ Hwf) e He).
    + right. split; [done|]. left. unfold document, resolve, get_event. cbn. by rewrite E.
  - apply (actor_step_ok w); [done..|by left; cbn; auto|]. unfold actor_ok in *. rewrite H in Hact.
    destruct Hact as (Hm & Hc & Hs). cbn [actor].
    match goal with |- context [MkWorld ?a ?b ?c ?d ?e ?f ?g ?h ?i] =>
      pose proof (scan_step w wm after failed Hwf Hs (MkWorld a b c d e f g h i) eq_refl eq_refl eq_refl
        (fun k => iff_refl _)) as Hscan end.
    fold batch docs in Hscan. destruct (bool_decide (batch = []) || _); by split_and!.
  - apply (actor_step_ok w); [done..|by left; cbn; auto|]. unfold actor_ok in *. rewrite H in Hact. exact Hact.
  - apply (actor_step_ok w); [done..|by left; cbn; auto|]. unfold actor_ok in *. rewrite H in Hact. cbn [actor].
    destruct Hact as (_ & Hc & Hs). split; [exact Hs|]. cbn. rewrite Hc. exact Hs.
Qed.


Lemma run_ok w w' : ok w -> run limit w w' -> ok w'.
Proof. induction 2 as [|w1 w2 w3 _ IH Hs]; [done|]. apply (index_step_ok w2); auto. Qed.

(** A process that starts: rows and obligations of earlier runs, an index directory
    without the marker. *)
Record starts (w : World) : Prop := {
  st_wf : wf (db w);
  st_seqs : NoDup (seq <$> outbox w);
  st_entries : forall e, e ∈ outbox w -> entry_ok w e;
  st_actor : actor w = Down;
  st_marker : marker w = false;
  st_index : written w = committed w;
}.

Lemma starts_ok w : starts w -> ok w.
Proof.
  intros [H1 H2 H3 H4 H5 H6]. constructor; [done..|]. unfold actor_ok. rewrite H4. split; [done|congruence].
Qed.

Lemma idle_settled w k :
  ok w -> actor w = Idle -> (forall e, e ∈ outbox w -> seq e <= cursor w) -> ~ blind w k ->
  settled w (committed w) k.
Proof.
  intros [_ _ _ Hact] Ha Hdone Hb. unfold actor_ok in Hact. rewrite Ha in Hact.
  apply Hact; [done|]. intros (e & He & Hlt & _). specialize (Hdone e He). lia.
Qed.

Lemma document_redacted d k e :
  find_event d k.1 k.2 = Some e -> event_is_redacted jsonb_out d e = true -> document d k = None.
Proof.
  intros Hf Hr. unfold document, resolve, get_event. rewrite Hf. cbn [fmap option_fmap option_map mbind option_bind].
  unfold indexable. destruct (is_standalone_relation _); [done|].
  by rewrite (proj1 (proj2 (proj2 (project_masks jsonb_out collate d e Hr)))).
Qed.

(** [C3] The index follows the events: in any interleaving of stored events,
    decryptions, state changes, purges and account deletions with the actor's
    seed, drain, failures and crashes, whenever the actor has nothing left to drain,
    every event has in the committed index exactly the one document that the
    timeline's projection gives it (or none, if it gives none: a redacted event is
    not searchable), and a deleted account has none, with the exception of the keys
    whose obligation was lost: those whose edit was redacted, those a purge changed
    without naming them, those of a transaction that committed behind the cursor,
    those the seed did not index, and those of an account while the log holds an
    obligation of it that reads as a purge although nothing was purged. *)
Theorem index_follows_the_events w0 w k :
  starts w0 -> run limit w0 w -> actor w = Idle ->
  (forall e, e ∈ outbox w -> seq e <= cursor w) -> ~ blind w k ->
  (docs_of k (committed w) = option_list (document (db w) k) \/
   (k.1 ∈ deleting w /\ docs_of k (committed w) = [])) /\
  (accounts (db w) !! k.1 = None -> find_event (db w) k.1 k.2 = None -> docs_of k (committed w) = []) /\
  (forall e, find_event (db w) k.1 k.2 = Some e -> event_is_redacted jsonb_out (db w) e = true ->
     docs_of k (committed w) = []).
Proof.
  intros Hst Hrun Ha Hdone Hb.
  pose proof (idle_settled w k (run_ok w0 w (starts_ok _ Hst) Hrun) Ha Hdone Hb) as Hs.
  split_and!; [exact Hs| |].
  - intros _ Hf. destruct Hs as [->|[_ ?]]; [|done]. unfold document, resolve, get_event. by rewrite Hf.
  - intros e Hf Hr. destruct Hs as [->|[_ ?]]; [|done]. by rewrite (document_redacted _ _ e).
Qed.

(** ** Draining to the end

    The environment of [drain_all]: at every await the other transactions happen, as
    many as they like ([others]); then the call is answered, or fails.  A cursor write
    or a commit that failed may have been made; a prune that failed is made in part.
    The [actor] of the world only follows which numbers have been read. *)

(** The last number of a batch is its greatest; a batch below its limit is all that
    is left. *)
Lemma drained_last obx cur z x :
  last (drain_search_outbox obx cur limit) = Some z -> x ∈ drain_search_outbox obx cur limit -> seq x <= seq z.
Proof.
  unfold drain_search_outbox. set (S := merge_sort seq_le (filter (fun e => cur < seq e) obx)).
  assert (StronglySorted seq_le S) as Hs by apply (StronglySorted_merge_sort seq_le).
  rewrite <-(take_drop limit S) in Hs. apply StronglySorted_app in Hs as (_ & Hs & _).
  intros [l' E]%last_Some Hx. rewrite E in Hs, Hx. apply StronglySorted_app in Hs as (Hcross & _ & _).
  apply elem_of_app in Hx as [Hx| ->%list_elem_of_singleton]; [|lia].
  exact (Hcross x z Hx ltac:(by left)).
Qed.

Lemma drained_short obx cur x :
  (length (drain_search_outbox obx cur limit) < limit)%nat -> x ∈ obx -> cur < seq x ->
  x ∈ drain_search_outbox obx cur limit.
Proof.
  unfold drain_search_outbox. rewrite length_take. intros Hl Hx Hc. rewrite take_ge by lia.
  by rewrite merge_sort_Permutation, list_elem_of_filter.
Qed.

Section Drain.
Context (others : World -> World -> Prop).

Definition set_docs (w : World) (docs : list Document) : World := set_written w (actor w) docs.

Definition dstep (w : World) (q : IQuestion) : ianswer q -> World -> Prop :=
  match q with
  | OutboxCursor => fun x w' => others w w' /\ (x = None \/ x = Some (cursor w'))
  | DrainOutbox after => fun x w' =>
      exists w1, others w w1 /\
        let batch := drain_search_outbox (outbox w1) after limit in
        ((x = None /\ w' = w1) \/
         (x = Some batch /\
          w' = match last batch with
               | Some e => set_actor w1 (Applying batch [] (seq e))
               | None => w1
               end))
  | GetEvent k => fun x w' =>
      others w w' /\ (x = None \/ x = Some (get_event jsonb_out collate (db w') k.1 k.2))
  | WriterUpsert ev => fun x w' =>
      w' = set_docs w (if x then upsert_doc ev (written w) else delete_doc (i_account ev, i_event ev) (written w))
  | WriterDelete k => fun _ w' => w' = set_docs w (delete_doc k (written w))
  | WriterDeleteAccount a => fun _ w' => w' = set_docs w (delete_account_docs a (written w))
  | WriterDeleteRoom a room => fun x w' =>
      w' = if x then set_docs w (delete_room_docs a room (written w)) else w
  | WriterCommit => fun x w' =>
      w' = MkWorld (db w) (outbox w) (cursor w) (deleting w) (Committed (frontier w)) (written w) (written w)
             (marker w) (blind w) \/ (x = false /\ w' = w)
  | SetOutboxCursor s => fun x w' =>
      exists w1, others w w1 /\
        (w' = MkWorld (db w1) (outbox w1) s (deleting w1) Idle (written w1) (committed w1) (marker w1) (blind w1) \/
         (x = false /\ w' = w1))
  | PruneOutbox through => fun x w' =>
      exists w1 (gone : list SearchOutboxEntry), others w w1 /\ (forall e, e ∈ gone -> seq e <= through) /\
        (x = true -> forall e, e ∈ outbox w1 -> seq e <= through -> e ∈ gone) /\
        w' = MkWorld (db w1) (filter (fun e => e ∉ gone) (outbox w1)) (cursor w1) (deleting w1) (actor w1)
               (written w1) (committed w1) (marker w1) (blind w1)
  end.

Context (Hothers : forall a b, others a b -> rtc store_step a b).

(** What the other transactions leave alone. *)
Definition kept (w w' : World) : Prop :=
  cursor w' = cursor w /\ actor w' = actor w /\ written w' = written w /\ committed w' = committed w /\
  forall e, e ∈ outbox w -> e ∈ outbox w'.

Lemma kept_refl w : kept w w.
Proof. by split_and!. Qed.
Lemma kept_trans a b c : kept a b -> kept b c -> kept a c.
Proof. intros (E1 & E2 & E3 & E4 & Ho) (F1 & F2 & F3 & F4 & Ho'). split_and!; [congruence..|auto]. Qed.

Lemma store_kept w w' : store_step w w' -> kept w w'.
Proof. intros []; split_and!; try done; intros e He; cbn; try (apply elem_of_app; by left); done. Qed.

Lemma others_kept w w' : others w w' -> kept w w'.
Proof.
  intros H%Hothers. induction H as [w|w1 w2 w3 Hs _ IH]; [apply kept_refl|].
  eapply kept_trans; [by apply store_kept|done].
Qed.

(** The actor's position makes no difference to them but for what it has read. *)
Lemma store_step_actor w w' a :
  store_step w w' -> frontier (set_actor w a) = frontier w -> store_step (set_actor w a) (set_actor w' a).
Proof.
  intros Hs Hf.
  assert (forall d keys seqs missed, set_actor (commit w d keys seqs missed) a =
    commit (set_actor w a) d keys seqs missed) as Hc.
  { intros. unfold commit. rewrite Hf. done. }
  destruct Hs; rewrite ?Hc.
  - by apply (s_write (set_actor w a)).
  - by eapply (s_purge_room (set_actor w a)).
  - apply (s_begin_delete (set_actor w a)).
  - by apply (s_delete_batch (set_actor w a)).
  - by apply (s_delete_account (set_actor w a)).
  - apply (s_reseed (set_actor w a)).
Qed.

(** The program is where the actor of the step relation is at [a]. *)
Definition at_ (w0 w : World) (a : Actor) : Prop :=
  run limit w0 (set_actor w a) /\ frontier (set_actor w a) = frontier w.

Lemma others_at w0 w w' a : at_ w0 w a -> others w w' -> at_ w0 w' a.
Proof.
  intros Ha H%Hothers. induction H as [w|w1 w2 w3 Hs _ IH]; [done|]. apply IH. clear IH.
  destruct Ha as [Hr Hf]. destruct (store_kept _ _ Hs) as (Hc & Hac & _).
  split; [|unfold frontier in *; cbn in *; by rewrite Hac, Hc].
  eapply run_step; [exact Hr|]. by apply s_store, store_step_actor.
Qed.

Lemma at_step w0 w a w' : at_ w0 w a -> step limit (set_actor w a) w' -> run limit w0 w'.
Proof. intros [Hr _] Hs. by eapply run_step. Qed.

Lemma set_actor_self w : set_actor w (actor w) = w.
Proof. by destruct w. Qed.

(** No one else writes obligations. *)
Definition still : Prop := forall a b, others a b -> outbox b = outbox a.

(** While a batch is applied. *)
Definition batch_kept (w w' : World) : Prop :=
  cursor w' = cursor w /\ actor w' = actor w /\ (forall e, e ∈ outbox w -> e ∈ outbox w') /\
  (still -> outbox w' = outbox w).

Lemma batch_kept_trans a b c : batch_kept a b -> batch_kept b c -> batch_kept a c.
Proof.
  intros (E1 & E2 & Ho & Hs) (F1 & F2 & Ho' & Hs'). split_and!; [congruence..|auto|]. intros H. by rewrite Hs', Hs.
Qed.

Lemma others_batch_kept w w' : others w w' -> batch_kept w w'.
Proof. intros H. destruct (others_kept _ _ H) as (? & ? & _ & _ & ?). split_and!; auto. Qed.

#[local] Abbreviation dwp := (swp dstep (fun _ _ => True)).

(** Applying the entry at hand writes what the actor's step writes. *)
Lemma apply_at w0 w e rest seen l :
  at_ w0 w (Applying (e :: rest) seen l) ->
  at_ w0 (set_docs w (apply_entry (db w) e seen (written w)).2)
    (Applying rest (apply_entry (db w) e seen (written w)).1 l).
Proof.
  intros Ha. split; [|exact (proj2 Ha)].
  exact (at_step _ _ _ _ Ha (s_apply limit (set_actor w _) e rest seen l eq_refl)).
Qed.

Lemma abort_at w0 w rest seen l : at_ w0 w (Applying rest seen l) -> run limit w0 (set_actor w Idle).
Proof.
  intros Ha. exact (at_step _ _ _ _ Ha (s_fail limit (set_actor w _) rest seen l ltac:(by left))).
Qed.

(** After a batch: applied, or aborted. *)
Definition batch_done (w0 w : World) (l : Z) (ok : bool) (w' : World) : Prop :=
  batch_kept w w' /\
  if ok then exists seen, at_ w0 w' (Applying [] seen l) else run limit w0 (set_actor w' Idle).

Lemma batch_done_mono w0 w w1 l ok w' : batch_kept w w1 -> batch_done w0 w1 l ok w' -> batch_done w0 w l ok w'.
Proof. intros Hk [Hk' H]. split; [by eapply batch_kept_trans|done]. Qed.

Lemma docs_batch_kept w docs : batch_kept w (set_docs w docs).
Proof. by split_and!. Qed.

Lemma drain_event_spec w0 w e rest seen l :
  at_ w0 w (Applying (e :: rest) seen l) -> is_purge e = false -> room_purge e = None -> o_key e ∉ seen ->
  dwp (drain_event (o_key e)) w (fun ok w' =>
    batch_kept w w' /\
    if ok then at_ w0 w' (Applying rest (o_key e :: seen) l) else run limit w0 (set_actor w' Idle)).
Proof.
  intros Ha Hp Hr Hs. unfold drain_event. apply swp_ask; [done|]. intros x w1 [Ho Hx].
  pose proof (others_at _ _ _ _ Ha Ho) as Ha1. pose proof (others_batch_kept _ _ Ho) as Hk.
  destruct Hx as [->| ->]; [split; [done|by eapply abort_at]|].
  pose proof (apply_at _ _ _ _ _ _ Ha1) as Hap. unfold apply_entry in Hap.
  rewrite Hp, Hr, bool_decide_eq_false_2 in Hap by done. cbn [fst snd] in Hap. unfold apply_event, resolve in Hap.
  destruct (get_event _ _ _ _ _ ≫= indexable (o_key e).1) as [ev|] eqn:Ei.
  - cbn. split; [done|]. intros ok w2 ->. destruct ok.
    + split; [by eapply batch_kept_trans; [|apply docs_batch_kept]|exact Hap].
    + split; [by eapply batch_kept_trans; [|apply docs_batch_kept]|].
      assert ((i_account ev, i_event ev) = o_key e) as -> by (by eapply resolve_key).
      exact (at_step _ _ _ _ Ha1 (s_half_applied limit (set_actor w1 _) e rest seen l eq_refl)).
  - cbn. split; [done|]. intros _ w2 ->.
    split; [by eapply batch_kept_trans; [|apply docs_batch_kept]|exact Hap].
Qed.

Lemma drain_batch_spec w0 batch seen w l :
  at_ w0 w (Applying batch seen l) -> dwp (drain_batch batch seen) w (batch_done w0 w l).
Proof.
  revert seen w. induction batch as [|e rest IH]; intros seen w Ha.
  { cbn. split; [by split_and!|by exists seen]. }
  pose proof (apply_at _ _ _ _ _ _ Ha) as Hap. unfold apply_entry in Hap. cbn [drain_batch].
  assert (forall seen' w1, batch_kept w w1 -> at_ w0 w1 (Applying rest seen' l) ->
    dwp (drain_batch rest seen') w1 (batch_done w0 w l)) as Hrest.
  { intros seen' w1 Hk Ha1. eapply swp_mono; [by apply IH|]. intros ok w2. by apply batch_done_mono. }
  destruct (is_purge e) eqn:Ep.
  { apply swp_ask; [done|]. intros _ w1 ->. by apply Hrest; [apply docs_batch_kept|]. }
  destruct (room_purge e) as [room|] eqn:Er.
  { apply swp_ask; [done|]. intros ok w1 ->. destruct ok; [by apply Hrest; [apply docs_batch_kept|]|].
    cbn. split; [by split_and!|by eapply abort_at]. }
  destruct (bool_decide (o_key e ∈ seen)) eqn:Es.
  { apply Hrest; [by split_and!|]. cbn [fst snd] in Hap. unfold set_docs, set_written in Hap. by destruct w. }
  apply swp_bind. eapply swp_mono; [apply (drain_event_spec w0 w e rest seen l); [done..|]|].
  { by apply bool_decide_eq_false in Es. }
  intros [] w1 [Hk H]; [by apply Hrest|]. cbn. by split.
Qed.

(** What a drain leaves of the log. *)
Definition progress (w w' : World) : Prop :=
  cursor w <= cursor w' /\ forall e, e ∈ outbox w -> e ∈ outbox w' \/ seq e <= cursor w'.

Lemma progress_trans a b c : progress a b -> progress b c -> progress a c.
Proof.
  intros [Hc Ho] [Hc' Ho']. split; [lia|]. intros e He. destruct (Ho e He) as [Hb|?]; [by apply Ho'|right; lia].
Qed.

Lemma kept_progress w w' :
  cursor w' = cursor w -> (forall e, e ∈ outbox w -> e ∈ outbox w') -> progress w w'.
Proof. intros Hc Ho. split; [lia|]. intros e He. left. auto. Qed.

(** The obligations not drained yet. *)
Definition waiting (w : World) : list SearchOutboxEntry := filter (fun e => cursor w < seq e) (outbox w).

(** A full batch takes [limit] of them, and passes as many numbers. *)
Lemma full_batch (obx : list SearchOutboxEntry) cur l e :
  NoDup (seq <$> obx) -> last (drain_search_outbox obx cur limit) = Some e -> l = seq e ->
  (limit <= length (drain_search_outbox obx cur limit))%nat ->
  Z.of_nat limit <= l - cur /\
  (limit + length (filter (fun e => (l < seq e)%Z) obx) <= length (filter (fun e => (cur < seq e)%Z) obx))%nat.
Proof.
  intros Hnd Hl -> Hlen. set (batch := drain_search_outbox obx cur limit) in *.
  assert (batch <> []) as Hne by (intros E; by rewrite E in Hl).
  destruct (drained_prefix obx cur limit Hnd Hne) as (_ & Hin & _). fold batch in Hin.
  assert (forall x, x ∈ batch -> seq x <= seq e) as Hle by (intros x; by eapply drained_last).
  assert (NoDup batch) as Hndb.
  { unfold batch, drain_search_outbox. apply NoDup_fmap_1 in Hnd.
    assert (NoDup (merge_sort seq_le (filter (fun e => cur < seq e) obx))) as Hm.
    { rewrite merge_sort_Permutation. by apply NoDup_filter. }
    rewrite <-(take_drop limit) in Hm. by apply NoDup_app in Hm as [? _]. }
  split.
  - assert (NoDup (seq <$> batch)) as Hns.
    { apply NoDup_fmap_2_strong; [|done]. intros x y Hx Hy E.
      by apply (NoDup_fmap_inj seq obx); [|apply Hin|apply Hin|]. }
    assert (seq <$> batch ⊆+ seqZ (cur + 1) (seq e - cur)) as Hsub.
    { apply NoDup_submseteq; [done|]. intros s (x & -> & Hx)%list_elem_of_fmap. apply elem_of_seqZ.
      destruct (Hin x Hx). specialize (Hle x Hx). lia. }
    apply submseteq_length in Hsub. rewrite length_fmap, length_seqZ in Hsub. lia.
  - assert (batch ++ filter (fun x => seq e < seq x) obx ⊆+ filter (fun x => cur < seq x) obx) as Hsub.
    { apply NoDup_submseteq.
      - apply NoDup_app. split_and!; [done| |by apply NoDup_filter, (NoDup_fmap_1 seq)].
        intros x Hx [Hlt _]%list_elem_of_filter. specialize (Hle x Hx). lia.
      - intros x [Hx|[Hlt Hx]%list_elem_of_filter]%elem_of_app; apply list_elem_of_filter.
        + destruct (Hin x Hx). done.
        + split; [|done]. destruct (Hin e (last_Some_elem_of _ _ Hl)). lia. }
    apply submseteq_length in Hsub. rewrite length_app in Hsub. lia.
Qed.

Lemma prune_short (obx : list SearchOutboxEntry) (gone : list SearchOutboxEntry) l :
  (length (filter (fun e => (l < seq e)%Z) (filter (fun e => e ∉ gone) obx)) <=
   length (filter (fun e => (l < seq e)%Z) obx))%nat.
Proof. rewrite list_filter_filter. apply submseteq_length, sublist_submseteq. induction obx as [|e obx IH]; [done|].
  rewrite !filter_cons. destruct (decide (l < seq e /\ e ∉ gone)) as [[? ?]|Hn]; [rewrite decide_True by done; by constructor|].
  case_decide; [by constructor|done].
Qed.

(** From an applied batch to the next round: commit, cursor, prune. *)
Lemma drain_round_end w0 w seen l (k : prog ianswer (option bool)) P :
  at_ w0 w (Applying [] seen l) -> cursor w <= l ->
  (forall w', run limit w0 (set_actor w' Idle) -> progress w w' -> P (Some false) w') ->
  (forall w', run limit w0 (set_actor w' Idle) -> actor w' = Idle -> cursor w' = l -> progress w w' ->
     (still -> (length (waiting w') <= length (filter (fun e => (l < seq e)%Z) (outbox w)))%nat) -> dwp k w' P) ->
  dwp (let! ok := iask WriterCommit in
       if negb ok then Ret (Some false)
       else
         let! ok := iask (SetOutboxCursor l) in
         if negb ok then Ret (Some false)
         else let! _ := iask (PruneOutbox l) in k) w P.
Proof.
  intros Ha Hl Hfail Hk. apply swp_ask; [done|]. intros ok w1 Hw1.
  assert (frontier w = l) as Hf by (by destruct Ha).
  set (wc := MkWorld (db w) (outbox w) (cursor w) (deleting w) (Committed l) (written w) (written w) (marker w) (blind w)).
  assert (run limit w0 wc) as Hc.
  { eapply run_step; [exact (at_step _ _ _ _ Ha (s_applied limit (set_actor w _) seen l eq_refl))|].
    exact (s_commit limit (set_actor w (Applied l)) l eq_refl). }
  assert (forall w2, at_ w0 w2 (Committed l) -> run limit w0 (set_actor w2 Idle)) as Habort.
  { intros w2 H2. exact (at_step _ _ _ _ H2 (s_fail limit (set_actor w2 _) [] [] l ltac:(by right; right))). }
  assert (at_ w0 wc (Committed l)) as Hac by by split.
  unfold dstep in Hw1. rewrite Hf in Hw1. fold wc in Hw1. destruct ok; cbn [negb].
  2:{ cbn. destruct Hw1 as [->|[_ ->]]; apply Hfail; try by apply kept_progress.
      - by apply Habort.
      - by eapply abort_at. }
  destruct Hw1 as [->|[? _]]; [|done]. apply swp_ask; [done|]. intros ok w2 (w2' & Ho & Hw2).
  pose proof (others_at _ _ _ _ Hac Ho) as Ha2. destruct (others_kept _ _ Ho) as (Hcu & _ & _ & _ & Hob).
  set (w3 := MkWorld (db w2') (outbox w2') l (deleting w2') Idle (written w2') (committed w2') (marker w2') (blind w2')) in *.
  assert (run limit w0 w3) as H3 by exact (at_step _ _ _ _ Ha2 (s_advance limit (set_actor w2' _) l eq_refl)).
  assert (progress w w3) as Hp3 by (split; [exact Hl|intros e He; left; by apply Hob]).
  destruct ok; cbn [negb].
  2:{ cbn. destruct Hw2 as [->|[_ ->]]; apply Hfail; [done|done|by apply Habort|by apply kept_progress]. }
  destruct Hw2 as [->|[? _]]; [|done]. apply swp_ask; [done|]. intros ok w4 (w4' & gone & Ho4 & Hgone & _ & ->).
  assert (at_ w0 w3 Idle) as Ha3 by by split.
  pose proof (others_at _ _ _ _ Ha3 Ho4) as Ha4. destruct (others_kept _ _ Ho4) as (Hcu4 & Hac4 & _ & _ & Hob4).
  cbn in Hcu4, Hac4. apply Hk.
  - refine (at_step _ _ _ _ Ha4 (s_prune limit (set_actor w4' Idle) gone ltac:(by left) _)).
    intros e He. cbn. rewrite Hcu4. by apply Hgone.
  - exact Hac4.
  - exact Hcu4.
  - eapply progress_trans; [exact Hp3|]. split; [cbn; lia|]. intros e He. cbn. rewrite Hcu4.
    destruct (decide (e ∈ gone)); [right; by apply Hgone|left]. apply list_elem_of_filter. auto.
  - intros Hs. unfold waiting. cbn. rewrite Hcu4.
    assert (outbox w4' = outbox w) as Hobw by (rewrite (Hs _ _ Ho4); exact (Hs _ _ Ho)).
    rewrite Hobw. apply prune_short.
Qed.

Definition drained (w0 w : World) (fuel : nat) (r : option bool) (w' : World) : Prop :=
  run limit w0 (set_actor w' Idle) /\ progress w w' /\
  match r with
  | Some true => forall e, e ∈ outbox w -> seq e <= cursor w'
  | Some false => True
  | None => Z.of_nat (fuel * limit) <= cursor w' - cursor w /\
            (still -> (fuel * limit <= length (waiting w))%nat)
  end.

(** After a round. *)
Lemma drained_round w0 w w1 fuel r w' :
  progress w w1 -> drained w0 w1 fuel r w' ->
  (Z.of_nat limit <= cursor w1 - cursor w /\ (still -> (limit + length (waiting w1) <= length (waiting w))%nat)) ->
  drained w0 w (S fuel) r w'.
Proof.
  intros Hp (Hr & Hp' & H) [Hf1 Hf2]. split; [done|]. split; [by eapply progress_trans|].
  destruct r as [[]|]; [|done|].
  - intros e He. destruct Hp as [_ Hp], Hp' as [Hle _]. destruct (Hp e He) as [?|?]; [by apply H|lia].
  - destruct H as [H1 H2]. split; [lia|]. intros Hs. specialize (Hf2 Hs). specialize (H2 Hs). lia.
Qed.

Lemma drain_all_spec w0 fuel w :
  ok w0 -> run limit w0 w -> actor w = Idle -> dwp (drain_all limit fuel) w (drained w0 w fuel).
Proof.
  intros Hok. revert w. induction fuel as [|fuel IH]; intros w Hrun Ha.
  { cbn. split; [by rewrite <-Ha, set_actor_self|]. split; [by apply kept_progress|]. split; [lia|]. intros _. lia. }
  assert (at_ w0 w Idle) as Hat by (split; [by rewrite <-Ha, set_actor_self|by rewrite <-Ha, set_actor_self]).
  cbn [drain_all]. apply swp_ask; [done|]. intros x w1 [Ho1 Hx].
  pose proof (others_at _ _ _ _ Hat Ho1) as Hat1. destruct (others_kept _ _ Ho1) as (Hc1 & Ha1 & _ & _ & Hob1).
  destruct Hx as [->| ->]; [cbn; split; [apply Hat1|by split; [apply kept_progress|]]|].
  apply swp_ask; [done|]. intros x w2 (w2' & Ho2 & Hx).
  pose proof (others_at _ _ _ _ Hat1 Ho2) as Hat2. destruct (others_kept _ _ Ho2) as (Hc2 & Ha2 & _ & _ & Hob2).
  assert (progress w w2') as Hp2 by (apply kept_progress; [congruence|auto]).
  destruct Hx as [[-> ->]|[-> ->]]; [cbn; split; [apply Hat2|by split]|].
  assert (NoDup (seq <$> outbox w2')) as Hnd by exact (ok_seqs _ (run_ok _ _ Hok (proj1 Hat2))).
  rewrite <-Hc2. set (batch := drain_search_outbox (outbox w2') (cursor w2') limit).
  destruct (last batch) as [e|] eqn:El.
  - assert (batch <> []) as Hne by (intros E; by rewrite E in El).
    destruct (drained_prefix (outbox w2') (cursor w2') limit Hnd Hne) as (Hlt & _ & _).
    fold batch in Hlt. rewrite El in Hlt. cbn in Hlt. set (w3 := set_actor w2' _).
    assert (at_ w0 w3 (Applying batch [] (seq e))) as Hat3.
    { split; [|done]. pose proof (s_read limit (set_actor w2' Idle) eq_refl Hne) as Hs. fold batch in Hs.
      cbn [outbox cursor set_actor] in Hs. fold batch in Hs. rewrite El in Hs. exact (at_step _ _ _ _ Hat2 Hs). }
    apply swp_bind. eapply swp_mono; [by apply drain_batch_spec|]. intros okb w4 [(Hc4 & Ha4 & Hob4 & Hst4) H4].
    assert (progress w w4) as Hp4.
    { eapply progress_trans; [exact Hp2|]. by apply kept_progress. }
    destruct okb; cbn [negb]; [|cbn; by split].
    destruct H4 as [seen H4]. cbn in Hc4.
    apply (drain_round_end w0 w4 seen (seq e)); [done|lia| |].
    { intros w' Hr' Hp'. split; [done|]. split; [by eapply progress_trans|done]. }
    intros w5 Hr5 Ha5 Hc5 Hp5 Hst5. assert (progress w w5) as Hpw by by eapply progress_trans.
    assert (run limit w0 w5) as Hr5' by (by rewrite <-Ha5, set_actor_self in Hr5).
    destruct (length batch <? limit)%nat eqn:Eb.
    + apply Nat.ltb_lt in Eb. cbn. split; [done|]. split; [done|]. intros x Hx. rewrite Hc5.
      destruct (decide (cursor w2' < seq x)); [|lia].
      assert (x ∈ batch) as Hxb by (apply (drained_short (outbox w2') (cursor w2')); auto).
      exact (drained_last _ _ e x El Hxb).
    + apply Nat.ltb_ge in Eb. eapply swp_mono; [by apply IH|]. intros r w'. intros Hd.
      apply (drained_round w0 w w5); [done|done|].
      destruct (full_batch (outbox w2') (cursor w2') (seq e) e Hnd El eq_refl Eb) as [F1 F2].
      split; [lia|]. intros Hs. specialize (Hst5 Hs). cbn in Hst4. rewrite (Hst4 Hs) in Hst5.
      unfold waiting at 2. rewrite <-(Hs _ _ Ho1), <-(Hs _ _ Ho2), <-Hc1, <-Hc2. lia.
  - apply last_None in El. apply swp_ask; [done|]. intros okp w4 (w4' & gone & Ho4 & Hgone & _ & ->). cbn.
    pose proof (others_at _ _ _ _ Hat2 Ho4) as Hat4. destruct (others_kept _ _ Ho4) as (Hc4 & Ha4 & _ & _ & Hob4).
    split; [|split].
    + refine (at_step _ _ _ _ Hat4 (s_prune limit (set_actor w4' Idle) gone ltac:(by left) _)).
      intros e He. cbn. rewrite Hc4. by apply Hgone.
    + split; [cbn; lia|]. intros e He. cbn. destruct (decide (e ∈ gone)).
      * right. rewrite Hc4. by apply Hgone.
      * left. apply list_elem_of_filter. auto.
    + intros e He. cbn. rewrite Hc4. destruct (decide (cursor w2' < seq e)); [|lia].
      assert (e ∈ batch) as Heb by (apply (drained_short (outbox w2') (cursor w2')); [fold batch; rewrite El; exact Hlimit|auto|done]).
      rewrite El in Heb. by apply not_elem_of_nil in Heb.
Qed.

(** [C13] A drain ends, and ends converged.  While [drain_all] runs from any state a
    run of the program reaches with the actor waiting, other transactions may commit
    at every await, and every call may fail.  Whatever it does is a run of the actor's
    own steps.  When it returns without an error, every obligation that was there when
    it started is behind the cursor; however it returns, every event whose obligation
    was not lost and that has none ahead of the cursor has in the committed index
    exactly its projection's document, or none if its account is being deleted.  It
    goes on for another round only after a full batch: after [fuel] rounds it has
    passed [fuel * limit] numbers, so it ends once the writers' rate allows; and if
    nobody writes obligations meanwhile it ends within the rounds those at the start
    fill, and one more. *)
Theorem drain_ends_converged w0 w fuel r w' :
  starts w0 -> run limit w0 w -> actor w = Idle -> ends dstep (drain_all limit fuel) w r w' ->
  run limit w0 (set_actor w' Idle) /\
  (r = Some true -> forall e, e ∈ outbox w -> seq e <= cursor w') /\
  (forall k, ~ blind w' k -> ~ pending (cursor w') w' k ->
     docs_of k (committed w') = option_list (document (db w') k) \/
     (k.1 ∈ deleting w' /\ docs_of k (committed w') = [])) /\
  (r = None -> Z.of_nat (fuel * limit) <= cursor w' - cursor w) /\
  (still -> (length (outbox w) < fuel * limit)%nat -> r <> None).
Proof.
  intros Hst Hrun Ha He. pose proof (starts_ok _ Hst) as Hok.
  pose proof (swp_ends _ _ _ _ _ _ _ (drain_all_spec w0 fuel w Hok Hrun Ha) He) as (Hr & _ & Hres).
  split; [done|]. split; [by intros ->|]. split.
  - intros k Hb Hp. pose proof (ok_actor _ (run_ok _ _ Hok Hr)) as [_ Hag]. by apply Hag.
  - split; [by intros ->; apply Hres|]. intros Hs Hlt ->. destruct Hres as [_ Hres]. specialize (Hres Hs).
    pose proof (length_filter (fun e => cursor w < seq e) (outbox w)). unfold waiting in Hres. lia.
Qed.

End Drain.

(** Nobody else, and nothing fails. *)
Definition serve (w : World) (q : IQuestion) : ianswer q * World :=
  match q with
  | OutboxCursor => (Some (cursor w), w)
  | DrainOutbox after =>
      let batch := drain_search_outbox (outbox w) after limit in
      (Some batch, match last batch with Some e => set_actor w (Applying batch [] (seq e)) | None => w end)
  | GetEvent k => (Some (get_event jsonb_out collate (db w) k.1 k.2), w)
  | WriterUpsert ev => (true, set_docs w (upsert_doc ev (written w)))
  | WriterDelete k => (tt, set_docs w (delete_doc k (written w)))
  | WriterDeleteAccount a => (tt, set_docs w (delete_account_docs a (written w)))
  | WriterDeleteRoom a room => (true, set_docs w (delete_room_docs a room (written w)))
  | WriterCommit =>
      (true, MkWorld (db w) (outbox w) (cursor w) (deleting w) (Committed (frontier w)) (written w) (written w)
               (marker w) (blind w))
  | SetOutboxCursor s =>
      (true, MkWorld (db w) (outbox w) s (deleting w) Idle (written w) (committed w) (marker w) (blind w))
  | PruneOutbox through =>
      (true, MkWorld (db w) (filter (fun e => ~ seq e <= through) (outbox w)) (cursor w) (deleting w) (actor w)
               (written w) (committed w) (marker w) (blind w))
  end.

Lemma dstep_mono (O O' : World -> World -> Prop) w q x w' :
  (forall a b, O a b -> O' a b) -> dstep O w q x w' -> dstep O' w q x w'.
Proof. intros H. destruct q; cbn; naive_solver. Qed.

Lemma serve_dstep w q : dstep eq w q (serve w q).1 (serve w q).2.
Proof.
  destruct q; cbn; try done.
  - split; [done|by right].
  - exists w. split; [done|by right].
  - split; [done|by right].
  - by left.
  - exists w. split; [done|by left].
  - exists w, (filter (fun e => seq e <= through_seq) (outbox w)). split_and!; [done| | |].
    + by intros e [? _]%list_elem_of_filter.
    + intros _ e ??. by apply list_elem_of_filter.
    + f_equal. apply filter_ext_in. intros e He. rewrite list_elem_of_filter. tauto.
Qed.

End Invariant.

End SearchIndex.

(** ** Witnesses *)

Import Sample.

Module IndexSample.

Abbreviation steps := (run out same num text_leb nodes 2).
Abbreviation doc := (document out text_leb).
Abbreviation obligations w db := (write out same num nodes w db).2.

Definition told : list Write := [Upsert (message (t! "$1") (t! "@a:x") 10 (t! "one"))].
Definition edited : Write := Upsert (edit (t! "$e") (t! "@a:x") 11 (t! "$1") (t! "uno")).
Definition unedited : Write := Upsert (redaction (t! "$r") (t! "@a:x") 12 (t! "$e")).
Definition key1 : dockey := (acc, t! "$1").
Definition uno : Document := MkDocument key1 room (t! "@a:x") 10 (t! "uno").

Definition first_start : World :=
  MkWorld (stored told empty_db) [MkEntry 1 acc (t! "$1")] 0 ∅ Down [] [] false (fun _ => False).

Lemma out_text : JsonbText out.
Proof. by intros v. Qed.

Lemma first_starts : starts first_start.
Proof.
  constructor; [apply stored_wf, empty_wf|repeat constructor; by intros ?%not_elem_of_nil| |done..].
  intros e ->%list_elem_of_singleton. by left.
Qed.

Definition one : Document := MkDocument key1 room (t! "@a:x") 10 (t! "one").

(** After the seed. *)
Definition seeded : World :=
  MkWorld (stored told empty_db) [MkEntry 1 acc (t! "$1")] 1 ∅ Idle [one] [one] true
    (fun k => stained ∅ [MkEntry 1 acc (t! "$1")] k \/ (exists ev, ev ∈ events_for_index out text_leb (stored told empty_db) 0 2 /\ false = true /\
                          (i_account ev, i_event ev) = k) \/ seed_differs out text_leb (stored told empty_db) 0 k).

Lemma index_seeded_run : steps first_start seeded.
Proof.
  eapply run_step; [eapply run_step; [eapply run_step; [eapply run_step; [eapply run_step;
    [eapply run_step; [apply run_refl|by apply s_open]|by apply s_high_water]
    |by apply s_clear]|by eapply (s_scan out same num text_leb nodes 2 _ _ _ (fun _ => false))]|by eapply s_cursor]|].
  exact (s_mark out same num text_leb nodes 2 (MkWorld (stored told empty_db) [MkEntry 1 acc (t! "$1")] 1 ∅ Seeded
    [one] [one] false (blind seeded)) true eq_refl).
Qed.

(** Then an edit commits while the actor waits. *)
Definition edited_world : World :=
  commit seeded (stored (told ++ [edited]) empty_db) [(acc, t! "$e"); (acc, t! "$1")] [2; 3]
    (redacts_edit_of out edited (stored told empty_db)).

Lemma edited_writes :
  write out same num nodes edited (db seeded) =
  (stored (told ++ [edited]) empty_db, [(acc, t! "$e"); (acc, t! "$1")]).
Proof. by vm_compute. Qed.

Lemma edited_run : steps first_start edited_world.
Proof.
  eapply run_step; [exact index_seeded_run|]. apply s_store.
  pose proof (s_write out same num nodes seeded edited [2; 3]) as H. rewrite edited_writes in H. apply H. split_and!; [done| |].
  - apply NoDup_cons. split; [|apply NoDup_singleton]. by intros ?%list_elem_of_singleton.
  - repeat constructor; by intros ?%list_elem_of_singleton.
Qed.

Lemma clean_log log k :
  Forall (fun e => bool_decide (o_event e = SEARCH_OUTBOX_PURGE) = false /\
                   strip_prefix SEARCH_OUTBOX_ROOM_PURGE_PREFIX (o_event e) = None) log -> ~ stained ∅ log k.
Proof.
  intros H (e & He & _ & Hn & _). destruct (proj1 (Forall_forall _ _) H e He) as [Hp Hr].
  apply Hn. split; [by apply bool_decide_eq_false in Hp|done].
Qed.

Lemma edited_seen : ~ blind edited_world key1.
Proof.
  intros [[_ Hb]|Hs].
  - apply Hb. exists (MkEntry 3 acc (t! "$1")). split_and!; [by right; left|done|by left].
  - revert Hs. apply clean_log. repeat constructor.
Qed.

(** The drain of these obligations: read, applied, committed, the cursor stored. *)
Definition drained_world : World :=
  MkWorld (db edited_world) (outbox edited_world) 3 ∅ Idle [uno] [uno] true (blind edited_world).

Lemma drained_run : steps first_start drained_world.
Proof.
  eapply run_step; [eapply run_step; [eapply run_step; [eapply run_step; [eapply run_step; [eapply run_step;
    [exact edited_run|by apply s_read]|by eapply s_apply]|by eapply s_apply]|by eapply s_applied]|by eapply s_commit]|].
  refine (s_advance out same num text_leb nodes 2
    (MkWorld (db edited_world) (outbox edited_world) 1 ∅ (Committed 3) [uno] [uno] true (blind edited_world)) 3 eq_refl).
Qed.

(** The drain starts on a log it has read, and the edit commits while it waits for its
    batch. *)
#[local] Instance fresh_seqs_dec w keys seqs : Decision (fresh_seqs w keys seqs).
Proof. unfold fresh_seqs. apply _. Defined.

Definition commit_edit (w : World) : World :=
  if decide (fresh_seqs w (obligations edited (db w)) [2; 3]) then
    commit w (write out same num nodes edited (db w)).1 (obligations edited (db w)) [2; 3]
      (redacts_edit_of out edited (db w))
  else w.

Definition busy (w : World) (q : IQuestion) : ianswer q * World :=
  match q with
  | DrainOutbox after => serve out text_leb 2 (commit_edit w) (DrainOutbox after)
  | q => serve out text_leb 2 w q
  end.

Abbreviation others := (rtc (store_step out same num nodes)).

Lemma busy_dstep w q : dstep out text_leb 2 others w q (busy w q).1 (busy w q).2.
Proof.
  assert (forall w q, dstep out text_leb 2 others w q (serve out text_leb 2 w q).1 (serve out text_leb 2 w q).2) as H.
  { intros w1 q1. eapply dstep_mono; [|apply serve_dstep]. by intros ? ? ->. }
  destruct q; try apply H. cbn [busy]. eexists (commit_edit w). split.
  - unfold commit_edit. case_decide; [by apply rtc_once, s_write|done].
  - right. done.
Qed.

End IndexSample.
Import IndexSample.

Lemma index_follows_the_events_witness : exists w,
  steps first_start w /\ actor w = Idle /\ docs_of key1 (committed w) = [uno].
Proof.
  exists drained_world. split; [exact drained_run|]. split; [done|].
  destruct (index_follows_the_events out same num text_leb nodes out_text 2 ltac:(lia) first_start drained_world key1)
    as [[->|[H _]] _].
  - apply first_starts.
  - exact drained_run.
  - done.
  - intros e He. repeat (apply elem_of_cons in He as [->|He]; [cbn; lia|]). by apply not_elem_of_nil in He.
  - exact edited_seen.
  - by vm_compute.
  - by apply elem_of_empty in H.
Defined.

Lemma drain_ends_converged_witness :
  let '(r, w) := srun busy (drain_all 2 3) seeded in
  r = Some true /\ cursor w = 3 /\ outbox w = [] /\ docs_of key1 (committed w) = [uno] /\
  (~ blind w key1 -> option_list (doc (db w) key1) = [uno]).
Proof.
  pose proof (srun_ends (dstep out text_leb 2 others) busy (drain_all 2 3) seeded busy_dstep) as He.
  destruct (drain_ends_converged out same num text_leb nodes out_text 2 ltac:(lia) others ltac:(done)
    first_start seeded 3 _ _ first_starts index_seeded_run eq_refl He) as (_ & _ & Hdocs & _).
  destruct (srun busy (drain_all 2 3) seeded) as [r w] eqn:E. cbn [snd] in Hdocs.
  assert (r = Some true /\ cursor w = 3 /\ outbox w = [] /\ docs_of key1 (committed w) = [uno] /\ deleting w = ∅)
    as (-> & Hc & Ho & Hd & Hdel).
  { replace r with (srun busy (drain_all 2 3) seeded).1 by by rewrite E.
    replace w with (srun busy (drain_all 2 3) seeded).2 by by rewrite E. clear. by vm_compute. }
  split_and!; [done..|]. intros Hb. destruct (Hdocs key1 Hb) as [Hk|[Hin _]].
  - intros (e & Hin & _). rewrite Ho in Hin. by apply not_elem_of_nil in Hin.
  - by rewrite <-Hk.
  - rewrite Hdel in Hin. by apply elem_of_empty in Hin.
Defined.

(** ** What the code does against its contract *)

(** Redacting an edit appends no obligation for the edited message: the text of the
    redacted edit stays searchable, although the timeline shows the original. *)
Example redacted_edit_stays_searchable :
  let before := stored (told ++ [edited]) empty_db in
  let after := stored (told ++ [edited; unedited]) empty_db in
  obligations unedited before = [(acc, t! "$r"); (acc, t! "$e")] /\
  (d_body <$> doc after key1) = Some (t! "one") /\
  apply_batch out text_leb after [MkEntry 4 acc (t! "$r"); MkEntry 5 acc (t! "$e")] [uno] = [uno].
Proof. by vm_compute. Qed.

(** A relation to the empty id, which its sender is free to write, appends the
    sentinel of an account purge: the drain deletes the account's documents. *)
Example empty_relation_target_purges :
  let evil := Upsert (reply_in_thread (t! "$2") (t! "@stranger:z") 11 [] (t! "hi")) in
  let after := stored (told ++ [evil]) empty_db in
  obligations evil (stored told empty_db) = [(acc, t! "$2"); (acc, [])] /\
  is_Some (doc after key1) /\
  docs_of key1 (apply_batch out text_leb after [MkEntry 2 acc (t! "$2"); MkEntry 3 acc []]
    [MkDocument key1 room (t! "@a:x") 10 (t! "one")]) = [].
Proof. vm_compute. split_and!; [done|by eexists|done]. Qed.

(** An obligation whose number was given out first but that commits second is behind
    the cursor: it is not drained, and the prune deletes it. *)
Example late_obligation_is_lost :
  let drain w := srun (serve out text_leb 2) (drain_all 2 2) w in
  let w := MkWorld (stored told empty_db) [MkEntry 2 acc (t! "$x")] 0 ∅ Idle [] [] true (fun _ => False) in
  let w1 := (drain w).2 in
  let w2 := drain (MkWorld (db w1) (outbox w1 ++ [MkEntry 1 acc (t! "$1")]) (cursor w1) ∅ Idle (written w1)
                     (committed w1) true (blind w1)) in
  (drain w).1 = Some true /\ cursor w1 = 2 /\ w2.1 = Some true /\ outbox w2.2 = [] /\
  is_Some (doc (db w2.2) key1) /\ docs_of key1 (committed w2.2) = [].
Proof. vm_compute. split_and!; try done. by eexists. Qed.

(** A row without a body of its own, which an edit gives one, has a document by the
    live path and none after a rebuild. *)
Example rebuild_differs_from_the_live_index :
  let bodyless := Upsert (MkNewEvent (t! "$1") room acc (t! "@a:x") 10 (t! "m.room.message") (Some (JObj []))
                    (JObj []) None None None None) in
  let db := stored [bodyless; edited] empty_db in
  doc db key1 = Some uno /\ events_for_index out text_leb db 0 10 = [].
Proof. by vm_compute. Qed.
